(* ===== verification/_CoqProject ===== *)
-Q . S2P
Prelude.v
Ownership.v
RefCount.v
Factories.v
Json.v
ResultMonad.v
ResultV1.v
Asio.v
IoMonad.v
IoLaws.v
IoTimer.v
IoRetry.v
PollState.v
PollLegacy.v
IoCollect.v
ParallelCollect.v
LoopLifetimes.v
Protocol.v
Base64.v
Http.v
ConnectionPool.v
HttpSession.v
HttpSessionPooled.v
PoolClients.v
HttpSessionStream.v
HttpManager.v
RedirectSessions.v
StreamRequest.v
ProxyPool.v
HttpExchange.v
QueryParams.v
HttpMonad.v
RequestOverNetwork.v
Backoff.v
MiscUtil.v
EnvExpand.v
JsonUtil.v
EnvFile.v
Yaml.v
ConfigSources.v
SessionData.v
ConfigProvider.v
SslContext.v
IoContexts.v
ClientFromConfig.v
ApiResponse.v
LogStream.v
RetryExecutor.v
VcpkgPorts.v
