(* ===== verification/Prelude.v ===== *)
(** * http_client: a verification development (root file)

    The repository is a C++ library around Boost.Beast: an IO monad whose values
    are run on Boost.Asio executors, an HTTP client built on it (sessions, a
    connection pool, a pool of proxies, redirects), the configuration the client
    reads, and helpers for the servers that use it.  This development models that
    code file by file and proves what makes each part correct.  This file is also
    the prelude: strings, machine integers, list lemmas and tactics.

    ** How the program works, and which file models which part

    _Results and JSON._  [Result] and [Error] ([include/result_monad.hpp]) are in
    [ResultMonad], those of the header it replaced ([include/result_monad_backup.hpp])
    in [ResultV1]; the JSON values they carry, with the accesses the sources make,
    in [Json].  What Boost.JSON computes on text and numbers is the class
    [Json.JsonLib] with its laws [JsonLibLaws]; [Json.BinaryJson] is an instance,
    which the witnesses use.  The law on parsing what was written is about values
    the default parser accepts ([Json.printable]: 32 levels, UTF-8, no
    floating-point numbers) and gives what it makes of them ([Json.reparsed]: an
    unsigned integer that fits the signed type comes back signed).

    _The IO monad_ ([include/io_monad.hpp]).  An [IO] is a thunk taking a callback.
    [Asio] gives the effects of such code - shared cells, timers, posted handlers,
    external operations, exceptions - as a program, [exec], and the executor as
    [step]: any ready handler may run next, with any error code.  On it stand
    [IoMonad] (builders, combinators, packs) with the laws of chains of combinators
    in [IoLaws], [IoTimer] ([timeout], [delay]),
    [IoRetry] ([retry_exponential_if], [poll_if]), [PollState]
    ([include/io_monad_poll_with_state.hpp]), [PollLegacy] (the loops of
    [include/io_monad_poll_if_legacy.hpp]) and [IoCollect] (the collectors).
    [ParallelCollect] has the callbacks of the racing collectors as threads of
    atomic actions on shared memory.  [RetryExecutor] ([include/io_retry_executor.hpp])
    is the thread behind the loops that are given no executor.  [Ownership],
    [RefCount] and [LoopLifetimes] are about memory: which handler owns the function a
    loop calls again, and when everything a loop allocated is destroyed - as a matter of
    ownership, and by the reference counts that implement it.

    _The client._  [Protocol] relates a body that runs one asynchronous operation
    at a time to a state machine.  With it [HttpSession] ([include/http_session.hpp]),
    [HttpSessionPooled] ([include/http_session_pooled.hpp]) and [HttpManager]
    (the redirects of [include/http_client_manager.hpp]) are proved; the read loop of
    [include/http_session_stream.hpp] is in [HttpSessionStream] and the streaming
    request around it in [StreamRequest], messages and URLs in [Http].
    [ConnectionPool] ([include/beast_connection_pool.hpp]) and [ProxyPool]
    ([include/proxy_pool.hpp]) are functions of the pool's state, one per operation
    that takes its lock or runs on its strand.  Four files put parts together:
    [RedirectSessions] runs the sessions of [HttpSession] inside the redirect loop of
    [HttpManager], down to the network; [PoolClients] lets any number of sessions of
    [HttpSessionPooled] work on one [ConnectionPool], with its reaper;
    [RequestOverNetwork] puts [RedirectSessions] under the requests of [HttpMonad], so
    that the last read of the last session stores the response in the exchange;
    [ClientFromConfig] goes from the files of [ConfigSources] over the profiles of
    [ConfigProvider] and the constructor of the manager ([IoContexts.Client]) to such
    requests.  [HttpExchange] and [HttpMonad]
    ([include/http_client_monad.hpp]), with the query of the URL in [QueryParams], build
    a request, choose the proxy, send the
    request through the manager and read the response: a session is one operation of
    the manager, the manager's request is what [http_request_io] runs.

    _Configuration._  [EnvExpand] (both expansions of placeholders), [JsonUtil]
    ([src/json_util.cpp]), [EnvFile] ([include/env_file_parser.hpp]), [Yaml],
    [ConfigSources] and [SessionData] ([include/simple_data.hpp]), [ConfigProvider]
    ([include/http_client_config_provider.hpp]), [SslContext]
    ([include/client_ssl_ctx.hpp]).  A provider reads what the sources merged and
    expanded, the TLS context and the pools read the provider.

    _Threads and helpers._  [IoContexts] ([include/io_context_manager.hpp],
    [include/ioc_manager_config_provider.hpp], [include/in_flight_counter.hpp] and the
    threads of [include/http_client_manager.hpp]), [Backoff]
    ([include/backoff_utils.hpp]), [MiscUtil] ([include/misc_util.hpp]), [Base64]
    ([src/base64.cpp]), [ApiResponse] ([include/api_handler_base.hpp],
    [include/api_response_result.hpp], [include/resp_datastruct.hpp]), [LogStream]
    ([include/log_stream.hpp], [include/i_output.hpp]), [VcpkgPorts]
    ([src/misc_util.cpp], with the regular expressions it needs), [Factories]
    ([include/my_di_extension.hpp]: what the factories of the injector capture, on
    [Ownership] and [RefCount]; Boost.DI's injector is a parameter).

    ** How code becomes definitions

    - An operation is a definition with the name of the source; a lambda that is
      stored or given to the executor is a definition of its own.
    - A [shared_ptr] to a value that several closures use is a cell; an object
      whose methods take a lock, or run on one strand, is a record and each method a
      function of it.  A clock is a function from the number of the reading to the
      time read; the environment, the file system and the order of a hash map are
      functions too.
    - Exceptions are values ([throws], or [Throw] in a program); the [catch] clauses
      of the source decide which of them are caught.
    - Integers are [Z] in their range ([in_int32], [in_int64], [in_uint64]): unsigned
      arithmetic wraps, and an overflow of signed arithmetic, like every other
      undefined behaviour, is [None] or [Fault].
    - Libraries are classes with laws ([JsonLib], [UrlLib], [PayloadLib],
      [ResponsePayload], [QueryLib]) or arguments; every law used in a property is satisfied by
      an instance in a witness.

    ** What is proved

    - Sessions, redirects, requests: refinement of a state machine under every
      schedule, with one delivery ([HttpSession], [HttpSessionPooled],
      [StreamRequest], [HttpManager], [HttpMonad]); the CONNECT request; chunks of a
      stream.
    - Composition: a request with all its redirects on the network refines the loop
      over abstract sessions and ends ([RedirectSessions]), and so does
      [http_request_io], which asks no proxy but the one chosen for a tunnel
      ([RequestOverNetwork]); with a manager built from the configuration files that
      proxy is never a disabled one or one with placeholders left in its credentials
      ([ClientFromConfig]); many pooled sessions on
      one pool discharge what the pool asks of its users, never share a connection,
      give each back and can always go on ([PoolClients]).
    - Pools: invariants over every history of operations, exclusive reuse, expiry
      and caps, turns and blacklist ([ConnectionPool], [ProxyPool]).
    - IO: what each combinator delivers, which chains of combinators are the same
      ([IoLaws]), and which loops keep alive what they need and let it go
      ([LoopLifetimes]: [all_ok_io], and [retry_exponential_if] of [IO<T>] after a
      timer error, leave it behind; with right reference counts the same objects
      go); retry and polling loops as machines with their
      numbers of attempts and waits, which end; the collectors, sequential and racing
      ([IoMonad], [IoTimer], [IoRetry], [PollState], [IoCollect],
      [ParallelCollect]).  [PollLegacy] shows how the older loop stops early.
    - Text and data: round trips (Base64, cookies, environment files, session
      attributes, proxy URLs, API responses), equivalence of the two expansions and
      of [NO_PROXY] with a specification, of both versions of [Result]
      ([ResultV1]), query parameters as a map ([QueryParams]), where a regular
      expression finds and replaces ([VcpkgPorts]), termination of the YAML conversion exactly
      when references are acyclic, precedence of configuration layers.
    - Threads: workers and [stop()] ([IoContexts]), the shared executor from its first
      use to the exit of the process ([RetryExecutor]), lines of concurrent log streams
      ([LogStream]), notification without lost wake-ups ([MiscUtil.Notifier]);
      objects of a factory and what they refer to ([Factories]): which factories may
      outlive the injector, and that an owned dependency is destroyed last.
    - Bounds: backoff delays, tokens of the rate limiter, loop counters.

    Where the code has undefined behaviour or an exception at the edge of its inputs,
    the theorem says when, rather than leaving those inputs out: a pool whose
    per-origin cap is zero ([ConnectionPool], [PoolClients]), a retry delay doubled out
    of 64 bits ([IoRetry]), a proxy port that is no number ([HttpSessionPooled]).

    Where the code does not do what it means to, a lemma shows the behaviour
    ([PollState.second_run_sees_state], [IoContexts.stop_waits_for_work],
    [HttpSessionPooled.pooled_tunnel_reused], ...).

    ** Fuel

    A recursion that is not structural takes fuel, and running out of it is an
    error value that the theorems exclude: attempts of a loop
    ([IoRetry.attempts_fuel], one more than [max_attempts]), scanning a text (one
    more than its length: [EnvExpand], [HttpMonad.no_proxy_loop], [Base64], [VcpkgPorts]),
    redirects (the five of the source).  The loop that reads a stream
    has no end of its own: [StreamRequest] follows it for [fuel] reads, for any
    [fuel], on schedules with fewer replies.  [Yaml.convert] takes any fuel, and enough
    exists exactly when the references are acyclic.

    ** Not modelled

    - Sockets, TLS, DNS and timers themselves: an operation of Beast or Asio replies
      with any error code and any data; what the replies mean on the wire is not
      modelled.  The io_context is what its documentation says of it.
    - [http_session.hpp]: the TLS shutdown after an exchange, which is not called.
    - The clock of a timer: a delay is the number of milliseconds the source computes
      and gives it; its conversion to the unit of the clock is the timer's.
      The time to live of [MiscUtil.evacuate] is not bounded either: one whose
      nanoseconds overflow 64 bits does not behave so in the code.
    - [poll_with_state]: the program of a hook is arbitrary, but [PollState] proves the
      refinement for a loop without hooks; [IoContexts] is about the call of [stop()]
      that joins the threads, a second one returns at once.
    - Which executor a timer is given: all of them run on the one event loop of
      [Asio]; [RetryExecutor] models the thread of the default one by itself.
    - Who owns a closure, outside [LoopLifetimes] and [Factories]: in [Asio] closures
      live for ever.
    - The rest of [io_monad_poll_if_legacy.hpp], a copy of combinators that are
      modelled from [io_monad.hpp].
    - [aliases.hpp], [httpclient_error_codes.hpp], [openssl_thread_cleanup.hpp],
      [base64.h] (declarations), the Windows part of [client_ssl_ctx.cpp], the vendored
      [boost/di.hpp] and [boost/sml.hpp], log output, tests and benchmarks. *)

From Stdlib Require Import ZArith Lia Ascii String.
From stdpp Require Export base list gmap strings.

Declare Scope cpp_scope.
Delimit Scope cpp_scope with cpp.

(** ** Strings

    A [std::string] / [std::string_view] is the list of its characters.  [lit]
    turns a literal into one. *)

Abbreviation str := (list ascii).

Definition lit (s : string) : str := list_ascii_of_string s.

(** [std::string::npos] is [None] in the searches below. *)

(** The pieces between the occurrences of [c]; there is always at least one. *)
Fixpoint split_on (c : ascii) (s : str) : list str :=
  match s with
  | [] => [[]]
  | d :: s' =>
      if decide (d = c) then [] :: split_on c s'
      else match split_on c s' with t :: ts => (d :: t) :: ts | [] => [[d]] end
  end.

(** The lines [std::getline(stream, line, c)] reads from [s]: no line is read
    when nothing is left after the last [c]. *)
Definition getlines (c : ascii) (s : str) : list str :=
  let ts := split_on c s in
  match List.last ts [] with [] => removelast ts | _ => ts end.

(** [starts_with p s]: [s.rfind(p, 0) == 0]. *)
Fixpoint starts_with (p s : str) : bool :=
  match p, s with
  | [], _ => true
  | _, [] => false
  | a :: p', b :: s' => bool_decide (a = b) && starts_with p' s'
  end.

(** First index at which [P] holds, counted from [i]. *)
Fixpoint find_index_from (P : ascii -> bool) (i : nat) (s : str) : option nat :=
  match s with
  | [] => None
  | c :: s' => if P c then Some i else find_index_from P (S i) s'
  end.

(** [s.find(c)]. *)
Definition find_char (c : ascii) (s : str) : option nat :=
  find_index_from (fun d => bool_decide (d = c)) 0 s.

(** [s.find(c, pos)]. *)
Definition find_char_at (c : ascii) (pos : nat) (s : str) : option nat :=
  find_index_from (fun d => bool_decide (d = c)) pos (drop pos s).

(** [s.find(pat)], counted from [i]. *)
Fixpoint find_sub_from (pat : str) (i : nat) (s : str) : option nat :=
  if starts_with pat s then Some i else
  match s with
  | [] => None
  | _ :: s' => find_sub_from pat (S i) s'
  end.

(** [s.find(pat)] and [s.find(pat, pos)] (no match when [pos] is past the end). *)
Definition find_sub (pat s : str) : option nat := find_sub_from pat 0 s.
Definition find_sub_at (pat : str) (pos : nat) (s : str) : option nat :=
  if (pos <=? length s)%nat then find_sub_from pat pos (drop pos s) else None.

(** [s.rfind(c)]: the last occurrence. *)
Fixpoint rfind_char (c : ascii) (s : str) : option nat :=
  match s with
  | [] => None
  | d :: s' =>
      match rfind_char c s' with
      | Some i => Some (S i)
      | None => if bool_decide (d = c) then Some 0 else None
      end
  end.

(** [s.substr(pos, n)] and [s.substr(pos)], for [pos <= s.size()]. *)
Definition substr (s : str) (pos n : nat) : str := take n (drop pos s).
Definition substr_from (s : str) (pos : nat) : str := drop pos s.

(** [s.substr(s.size() - p.size()) == p] when [s] is long enough. *)
Definition ends_with (p s : str) : bool :=
  (length p <=? length s)%nat && bool_decide (drop (length s - length p) s = p).

(** [std::tolower] in the C locale, on one character and on a string. *)
Definition tolower (c : ascii) : ascii :=
  let n := nat_of_ascii c in
  if (65 <=? n)%nat && (n <=? 90)%nat then ascii_of_nat (n + 32) else c.
Definition to_lower (s : str) : str := map tolower s.

Definition is_digit (c : ascii) : bool :=
  let n := nat_of_ascii c in (48 <=? n)%nat && (n <=? 57)%nat.

(** Drop the leading, the trailing characters satisfying [P]. *)
Fixpoint ltrim_by (P : ascii -> bool) (s : str) : str :=
  match s with
  | c :: s' => if P c then ltrim_by P s' else s
  | [] => []
  end.
Definition rtrim_by (P : ascii -> bool) (s : str) : str :=
  rev (ltrim_by P (rev s)).

Definition is_blank (c : ascii) : bool :=
  bool_decide (c = " "%char) || bool_decide (c = "009"%char).
Definition is_ws (c : ascii) : bool :=
  is_blank c || bool_decide (c = "010"%char) || bool_decide (c = "013"%char).

(** [std::to_string] on an unsigned and on a signed integer. *)
Fixpoint dec_digits (fuel : nat) (n : Z) (acc : str) : str :=
  match fuel with
  | O => acc
  | S f =>
      let d := ascii_of_nat (48 + Z.to_nat (n mod 10)) in
      if (n <? 10)%Z then d :: acc else dec_digits f (n / 10) (d :: acc)
  end.
Definition z_to_str (z : Z) : str :=
  if (z <? 0)%Z
  then "-"%char :: dec_digits (S (Z.to_nat (Z.log2 (- z)))) (- z) []
  else dec_digits (S (Z.to_nat (Z.log2 z))) z [].

(** ** Machine integers *)

Definition INT_MIN : Z := - 2 ^ 31.
Definition INT_MAX : Z := 2 ^ 31 - 1.
Definition INT64_MIN : Z := - 2 ^ 63.
Definition INT64_MAX : Z := 2 ^ 63 - 1.
Definition UINT64_MAX : Z := 2 ^ 64 - 1.
Definition in_int32 (z : Z) : Prop := (INT_MIN <= z <= INT_MAX)%Z.
Definition in_int64 (z : Z) : Prop := (INT64_MIN <= z <= INT64_MAX)%Z.
Definition in_uint64 (z : Z) : Prop := (0 <= z <= UINT64_MAX)%Z.
#[export] Instance in_int32_dec z : Decision (in_int32 z).
Proof. unfold in_int32. apply _. Defined.
#[export] Instance in_int64_dec z : Decision (in_int64 z).
Proof. unfold in_int64. apply _. Defined.
#[export] Instance in_uint64_dec z : Decision (in_uint64 z).
Proof. unfold in_uint64. apply _. Defined.

(** [static_cast<std::uint16_t>]. *)
Definition to_u16 (z : Z) : Z := z mod 2 ^ 16.

(** ** Automation *)

Create HintDb cpp.

(** Case analysis on every [if]/[match] head in the goal and the hypotheses,
    then congruence and arithmetic. *)
Ltac split_all :=
  repeat match goal with
  | H : _ /\ _ |- _ => destruct H
  | H : exists _, _ |- _ => destruct H
  end.

Ltac bool_to_prop :=
  repeat match goal with
  | H : _ && _ = true |- _ => apply andb_true_iff in H as [? ?]
  | H : _ || _ = false |- _ => apply orb_false_iff in H as [? ?]
  | H : negb _ = true |- _ => apply negb_true_iff in H
  | H : negb _ = false |- _ => apply negb_false_iff in H
  | H : (_ =? _)%nat = true |- _ => apply Nat.eqb_eq in H
  | H : (_ =? _)%nat = false |- _ => apply Nat.eqb_neq in H
  | H : (_ <? _)%nat = true |- _ => apply Nat.ltb_lt in H
  | H : (_ <? _)%nat = false |- _ => apply Nat.ltb_ge in H
  | H : (_ <=? _)%nat = true |- _ => apply Nat.leb_le in H
  | H : (_ <=? _)%nat = false |- _ => apply Nat.leb_gt in H
  | H : (_ =? _)%Z = true |- _ => apply Z.eqb_eq in H
  | H : (_ =? _)%Z = false |- _ => apply Z.eqb_neq in H
  | H : (_ <? _)%Z = true |- _ => apply Z.ltb_lt in H
  | H : (_ <? _)%Z = false |- _ => apply Z.ltb_ge in H
  | H : (_ <=? _)%Z = true |- _ => apply Z.leb_le in H
  | H : (_ <=? _)%Z = false |- _ => apply Z.leb_gt in H
  | H : bool_decide _ = true |- _ => apply bool_decide_eq_true_1 in H
  | H : bool_decide _ = false |- _ => apply bool_decide_eq_false_1 in H
  end.

Ltac cases := repeat (case_match; simplify_eq/=); bool_to_prop; simplify_eq/=; try done.

(** ** Generic lemmas *)

Lemma starts_with_spec p s :
  starts_with p s = true <-> exists r, s = p ++ r.
Proof.
  revert s; induction p as [|a p IH]; intros [|b s]; simpl.
  - split; eauto.
  - split; eauto.
  - split; [done|intros [r Hr]; done].
  - rewrite andb_true_iff, bool_decide_eq_true, IH. split.
    + intros [-> [r ->]]. eauto.
    + intros [r Hr]. simplify_eq. eauto.
Qed.

Lemma starts_with_app p r : starts_with p (p ++ r) = true.
Proof. apply starts_with_spec. eauto. Qed.

Lemma find_index_from_ge P i s j :
  find_index_from P i s = Some j -> (i <= j < i + length s)%nat.
Proof.
  revert i; induction s as [|c s IH]; intros i H; simplify_eq/=.
  destruct (P c); simplify_eq; [lia|]. apply IH in H. lia.
Qed.

Lemma find_index_from_Some P i s j :
  find_index_from P i s = Some j ->
  exists a c b, s = a ++ c :: b /\ (j = i + length a)%nat /\ P c = true /\
    forallb (fun x => negb (P x)) a = true.
Proof.
  revert i; induction s as [|c s IH]; intros i H; simplify_eq/=.
  destruct (P c) eqn:E; simplify_eq.
  - exists [], c, s. simpl. repeat split; auto.
  - destruct (IH _ H) as (a & d & b & -> & -> & Hd & Ha).
    exists (c :: a), d, b. simpl. rewrite E, Ha. repeat split; auto; lia.
Qed.

Lemma find_index_from_None P i s :
  find_index_from P i s = None <-> forallb (fun x => negb (P x)) s = true.
Proof.
  revert i; induction s as [|c s IH]; intros i; simpl; [done|].
  destruct (P c); simpl; [done|]. apply IH.
Qed.

Lemma find_index_from_app P i a c b :
  forallb (fun x => negb (P x)) a = true -> P c = true ->
  find_index_from P i (a ++ c :: b) = Some (i + length a)%nat.
Proof.
  revert i; induction a as [|d a IH]; intros i Ha Hc; simpl in *.
  - rewrite Hc. f_equal; lia.
  - apply andb_true_iff in Ha as [Hd Ha]. apply negb_true_iff in Hd.
    rewrite Hd, IH by done. f_equal. lia.
Qed.

Lemma find_sub_from_Some pat i s j :
  find_sub_from pat i s = Some j ->
  exists a b, s = a ++ pat ++ b /\ (j = i + length a)%nat.
Proof.
  revert i; induction s as [|c s IH]; intros i H; cbn -[starts_with] in H;
    destruct (starts_with pat _) eqn:E; simplify_eq.
  - apply starts_with_spec in E as [r ->]. exists [], r. simpl; split; auto; lia.
  - apply starts_with_spec in E as [r Hr]. exists [], r. simpl; split; auto; lia.
  - destruct (IH _ H) as (a & b & -> & ->). exists (c :: a), b. simpl. split; auto; lia.
Qed.

Lemma split_on_app c a s :
  c ∉ a -> split_on c (a ++ c :: s) = a :: split_on c s.
Proof.
  intros Ha. induction a as [|d a IH]; simpl; [by rewrite decide_True|].
  rewrite not_elem_of_cons in Ha. destruct Ha as [Hd Ha].
  rewrite decide_False by congruence. by rewrite IH.
Qed.

Lemma split_on_none c a : c ∉ a -> split_on c a = [a].
Proof.
  intros Ha. induction a as [|d a IH]; simpl; [done|].
  rewrite not_elem_of_cons in Ha. destruct Ha as [Hd Ha].
  rewrite decide_False by congruence. by rewrite IH.
Qed.

Lemma split_on_pieces c s t : t ∈ split_on c s -> c ∉ t.
Proof.
  revert t; induction s as [|d s IH]; intros t; simpl.
  - intros Ht. apply list_elem_of_singleton in Ht as ->. apply not_elem_of_nil.
  - case_decide as Hd.
    + rewrite elem_of_cons. intros [->|Ht]; [apply not_elem_of_nil|auto].
    + destruct (split_on c s) as [|p ps].
      * intros Ht. apply list_elem_of_singleton in Ht as ->.
        rewrite list_elem_of_singleton. congruence.
      * rewrite elem_of_cons. intros [->|Ht]; [|apply IH; by right].
        rewrite not_elem_of_cons. split; [congruence|]. apply IH. by left.
Qed.

(** [s.find(c)] splits at the first occurrence. *)
Lemma find_char_Some c s i :
  find_char c s = Some i -> exists a b, s = a ++ c :: b /\ length a = i /\ c ∉ a.
Proof.
  unfold find_char. intros H. apply find_index_from_Some in H as (a & d & b & -> & -> & Hd & Ha).
  apply bool_decide_eq_true in Hd as ->. exists a, b. split_and!; [done|done|].
  rewrite forallb_forall in Ha. rewrite list_elem_of_In. intros Hin.
  apply Ha in Hin. by rewrite bool_decide_true in Hin.
Qed.

Lemma find_char_None c s : find_char c s = None -> c ∉ s.
Proof.
  unfold find_char. rewrite find_index_from_None, forallb_forall, list_elem_of_In.
  intros Ha Hin. apply Ha in Hin. by rewrite bool_decide_true in Hin.
Qed.

Lemma ltrim_by_idemp P s : ltrim_by P (ltrim_by P s) = ltrim_by P s.
Proof.
  induction s as [|c s IH]; simpl; [done|].
  destruct (P c) eqn:E; [done|]. simpl. by rewrite E.
Qed.

Lemma rtrim_by_idemp P s : rtrim_by P (rtrim_by P s) = rtrim_by P s.
Proof. unfold rtrim_by. by rewrite rev_involutive, ltrim_by_idemp. Qed.

Lemma tolower_idemp c : tolower (tolower c) = tolower c.
Proof. destruct c as [[] [] [] [] [] [] [] []]; reflexivity. Qed.

Lemma to_lower_idemp s : to_lower (to_lower s) = to_lower s.
Proof.
  unfold to_lower. rewrite map_map. apply map_ext. intros. apply tolower_idemp.
Qed.

#[export] Hint Rewrite ltrim_by_idemp rtrim_by_idemp to_lower_idemp : cpp.
#[export] Hint Resolve starts_with_app : cpp.

(** Reflexive-transitive closure is stdpp's [rtc]; invariants are preserved
    along it. *)
Lemma rtc_invariant {A} (R : relation A) (I : A -> Prop) x y :
  (forall a b, I a -> R a b -> I b) -> rtc R x y -> I x -> I y.
Proof. intros Hstep H. induction H; eauto. Qed.

(** [foldl] as the meaning of a C++ range-for that updates one variable. *)
Lemma foldl_invariant {A B} (f : A -> B -> A) (I : A -> Prop) l a :
  (forall a b, I a -> b ∈ l -> I (f a b)) -> I a -> I (foldl f a l).
Proof.
  revert a; induction l as [|b l IH]; intros a Hf Ha; simpl; [done|].
  apply IH; [|apply Hf; set_solver]. intros. apply Hf; set_solver.
Qed.

(** Counting the elements of a list, and how an update changes the count. *)
Definition b2n (b : bool) : nat := if b then 1 else 0.

Fixpoint countb {A} (f : A -> bool) (l : list A) : nat :=
  match l with
  | [] => 0
  | x :: l' => b2n (f x) + countb f l'
  end.

Lemma countb_insert {A} (f : A -> bool) l i x y :
  l !! i = Some x -> (countb f (<[i := y]> l) + b2n (f x) = countb f l + b2n (f y))%nat.
Proof.
  revert i; induction l as [|z l IH]; intros [|i] H; simplify_eq/=; [lia|].
  specialize (IH _ H). lia.
Qed.

Lemma countb_pos {A} (f : A -> bool) l :
  (0 < countb f l)%nat <-> exists i x, l !! i = Some x /\ f x = true.
Proof.
  induction l as [|z l IH]; simpl.
  - split; [lia|]. by intros (i & x & Hx & _).
  - destruct (f z) eqn:E; simpl; split; intros H.
    + by exists 0, z.
    + lia.
    + apply IH in H as (i & x & ? & ?). by exists (S i), x.
    + apply IH. destruct H as ([|i] & x & Hx & Hf); simplify_eq/=; [congruence|eauto].
Qed.

Lemma countb_0 {A} (f : A -> bool) l :
  countb f l = 0 <-> forall i x, l !! i = Some x -> f x = false.
Proof.
  pose proof (countb_pos f l) as Hp. split.
  - intros H0 i x Hx. destruct (f x) eqn:E; [|done].
    assert (0 < countb f l)%nat by (apply Hp; eauto). lia.
  - intros H. destruct (countb f l); [done|].
    destruct (proj1 Hp) as (i & x & Hx & Hf); [lia|]. by rewrite (H _ _ Hx) in Hf.
Qed.

Lemma countb_split {A} (f : A -> bool) l :
  (countb f l + countb (fun x => negb (f x)) l = length l)%nat.
Proof. induction l as [|z l IH]; simpl; [lia|]. destruct (f z); simpl; lia. Qed.

Lemma countb_all {A} (f : A -> bool) l :
  countb f l = length l <-> forall i x, l !! i = Some x -> f x = true.
Proof.
  pose proof (countb_split f l) as Hs.
  pose proof (countb_0 (fun x => negb (f x)) l) as Hz. simpl in Hz. split.
  - intros H i x Hx. apply negb_false_iff. apply (proj1 Hz) with (i := i); [lia|done].
  - intros H. enough (countb (fun x => negb (f x)) l = 0) by lia.
    apply Hz. intros i x Hx. by rewrite (H _ _ Hx).
Qed.

Lemma countb_replicate {A} (f : A -> bool) n x : countb f (replicate n x) = (n * b2n (f x))%nat.
Proof. induction n as [|n IH]; simpl; lia. Qed.
