(* ===== verification/Ownership.v ===== *)
(** * Shared ownership

    Objects made by [std::make_shared], each with the [shared_ptr]s it holds: its
    members, or the captures of the lambda when it is a [std::function].  An object
    lives as long as somebody owns it: a root (a local variable, a handler the
    executor keeps) or an object that lives.  [sweep] destroys what has no owner,
    then what that owned, and so on; objects that own each other in a circle stay.
    A [weak_ptr] or a reference owns nothing. *)

From Stdlib Require Import Lia.
From stdpp Require Import base list gmap.
From S2P Require Import Prelude.

Section ownership.
Context {A : Type} `{Countable A}.
Abbreviation heap := (gmap A (list A)).

Definition captures (h : heap) : list A := concat (map snd (map_to_list h)).

Definition has_owner (roots : list A) (h : heap) (l : A) : bool := bool_decide (l ∈ roots ++ captures h).

(** The objects without an owner are destroyed, once and until none is left. *)
Definition sweep1 (roots : list A) (h : heap) : heap :=
  filter (fun kv => has_owner roots h kv.1 = true) h.
Definition sweep (roots : list A) (h : heap) : heap := Nat.iter (size h) (sweep1 roots) h.

(** A part of the heap that keeps itself alive, with the help of the roots. *)
Definition supported (roots : list A) (h h' : heap) : Prop :=
  h' ⊆ h /\ forall l, l ∈ dom h' -> l ∈ roots \/ exists k os, h' !! k = Some os /\ l ∈ os.

Lemma elem_of_captures (h : heap) l : l ∈ captures h <-> exists k os, h !! k = Some os /\ l ∈ os.
Proof.
  unfold captures. rewrite list_elem_of_In, in_concat. split.
  - intros (os & Hos & Hl). apply in_map_iff in Hos as ([k os'] & <- & Hk).
    apply list_elem_of_In, elem_of_map_to_list in Hk. exists k, os'. by rewrite list_elem_of_In.
  - intros (k & os & Hk & Hl). exists os. split; [|by apply list_elem_of_In].
    apply in_map_iff. exists (k, os). split; [done|]. by apply list_elem_of_In, elem_of_map_to_list.
Qed.

Lemma sweep1_sub roots h : sweep1 roots h ⊆ h.
Proof. apply map_filter_subseteq. Qed.

Lemma sweep1_supported roots h h' : supported roots h h' -> supported roots (sweep1 roots h) h'.
Proof.
  intros [Hsub Hs]. split; [|done]. apply map_subseteq_spec. intros l os Hl.
  apply map_lookup_filter_Some. split; [by eapply lookup_weaken|]. simpl. unfold has_owner.
  apply bool_decide_eq_true, elem_of_app.
  destruct (Hs l) as [?|(k & os' & Hk & Hin)]; [by eapply elem_of_dom_2|by left|right].
  apply elem_of_captures. exists k, os'. split; [by eapply lookup_weaken|done].
Qed.

Lemma sweep1_fixed roots h : sweep1 roots h = h <-> supported roots h h.
Proof.
  split.
  - intros He. split; [done|]. intros l [os Hl]%elem_of_dom. rewrite <- He in Hl.
    apply map_lookup_filter_Some in Hl as [_ Ho]. simpl in Ho. unfold has_owner in Ho.
    apply bool_decide_eq_true, elem_of_app in Ho as [?|?]; [by left|right]. by apply elem_of_captures.
  - intros Hs. apply (anti_symm (⊆)); [apply sweep1_sub|]. by destruct (sweep1_supported _ _ _ Hs).
Qed.

Lemma sweep1_progress roots h : sweep1 roots h = h \/ size (sweep1 roots h) < size h.
Proof.
  destruct (decide (sweep1 roots h = h)) as [->|Hne]; [by left|right].
  apply map_subset_size. apply strict_spec_alt. split; [apply sweep1_sub|done].
Qed.

Lemma iter_sweep1 roots n h : size h <= n ->
  let h' := Nat.iter n (sweep1 roots) h in
  h' ⊆ h /\ sweep1 roots h' = h' /\ forall s, supported roots h s -> supported roots h' s.
Proof.
  revert h. induction n as [|n IH]; intros h Hn h'; unfold h'; clear h'.
  - assert (h = ∅) as -> by (apply map_size_empty_inv; lia). simpl.
    split; [done|]. split; [|done]. apply sweep1_fixed. split; [done|]. set_solver.
  - rewrite Nat.iter_succ_r. destruct (sweep1_progress roots h) as [He|Hlt].
    + rewrite He. clear IH Hn.
      assert (Nat.iter n (sweep1 roots) h = h) as -> by (induction n; simpl; congruence). done.
    + destruct (IH (sweep1 roots h)) as (Hsub & Hfix & Hmax); [lia|].
      split; [etrans; [exact Hsub|apply sweep1_sub]|]. split; [done|].
      intros s Hs. by apply Hmax, sweep1_supported.
Qed.

(** What is left is the largest part that keeps itself alive. *)
Lemma sweep_spec roots h :
  supported roots h (sweep roots h) /\ forall s, supported roots h s -> s ⊆ sweep roots h.
Proof.
  destruct (iter_sweep1 roots (size h) h ltac:(lia)) as (Hsub & Hfix & Hmax). fold (sweep roots h) in *.
  apply sweep1_fixed in Hfix as [_ Hfix]. split; [by split|]. intros s Hs. by destruct (Hmax s Hs).
Qed.

Lemma sweep_sub roots h : sweep roots h ⊆ h.
Proof. apply sweep_spec. Qed.

Lemma supported_mono roots roots' h h' : roots ⊆ roots' -> supported roots h h' -> supported roots' h h'.
Proof. intros Hr [Hs Ho]. split; [done|]. intros l Hl. destruct (Ho l Hl); [left; set_solver|by right]. Qed.

(** Nothing more dies while its owners are still there. *)
Lemma sweep_stays roots roots' h : roots ⊆ roots' -> sweep roots h = h -> sweep roots' h = h.
Proof.
  intros Hr He. apply (anti_symm (⊆)); [apply sweep_sub|]. apply sweep_spec.
  apply (supported_mono roots); [done|]. rewrite <- He at 2. apply sweep_spec.
Qed.

(** Dropping owners bit by bit is dropping them at once. *)
Lemma sweep_sweep roots roots' h : roots' ⊆ roots -> sweep roots' (sweep roots h) = sweep roots' h.
Proof.
  intros Hr. apply (anti_symm (⊆)).
  - apply sweep_spec. destruct (sweep_spec roots' (sweep roots h)) as [[Hs Ho] _].
    split; [|done]. etrans; [exact Hs|apply sweep_sub].
  - apply sweep_spec. destruct (sweep_spec roots' h) as [[Hs Ho] _].
    split; [|done]. apply sweep_spec. apply (supported_mono roots'); [done|]. by split.
Qed.

Lemma sweep_roots roots roots' h : (forall l, l ∈ roots <-> l ∈ roots') -> sweep roots h = sweep roots' h.
Proof.
  intros Hr. apply (anti_symm (⊆)); apply sweep_spec; eapply supported_mono; try apply sweep_spec;
    intros l; apply Hr.
Qed.

(** No pointer is left without its object. *)
Lemma sweep_closed roots h : (forall l, l ∈ roots ++ captures h -> is_Some (h !! l)) ->
  forall l, l ∈ roots ++ captures (sweep roots h) -> is_Some (sweep roots h !! l).
Proof.
  intros Hc l Hl. destruct (sweep roots h !! l) as [os'|] eqn:E; [done|exfalso].
  destruct (sweep_spec roots h) as [[Hs Ho] Hmax].
  assert (Hown : l ∈ roots \/ exists k os, sweep roots h !! k = Some os /\ l ∈ os)
    by (apply elem_of_app in Hl; by rewrite elem_of_captures in Hl).
  destruct (Hc l) as [os Hos].
  { apply elem_of_app. destruct Hown as [?|(k & os & Hk & Hin)]; [by left|right].
    apply elem_of_captures. exists k, os. split; [by eapply lookup_weaken|done]. }
  assert (Hsup : supported roots h (<[l := os]> (sweep roots h))).
  { split; [by apply insert_subseteq_l|]. intros k. rewrite dom_insert, elem_of_union, elem_of_singleton.
    assert (Hk : k = l \/ k ∈ dom (sweep roots h) ->
      k ∈ roots \/ exists k' os', sweep roots h !! k' = Some os' /\ k ∈ os') by (intros [->|?]; auto).
    intros Hd. destruct (Hk Hd) as [?|(k' & os' & Hk' & Hin)]; [by left|right].
    exists k', os'. split; [|done]. rewrite lookup_insert_ne by congruence. done. }
  apply Hmax in Hsup. pose proof (lookup_insert_eq (sweep roots h) l os) as Hin.
  apply (lookup_weaken _ _ _ _ Hin) in Hsup. congruence.
Qed.

(** No leak without a circle: objects that own only objects of lower rank all go. *)
Lemma sweep_acyclic (rank : A -> nat) h :
  (forall k os l, h !! k = Some os -> l ∈ os -> rank l < rank k) -> sweep [] h = ∅.
Proof.
  intros Hrank. destruct (sweep_spec [] h) as [[Hs Ho] _]. apply map_empty. intros l.
  destruct (sweep [] h !! l) as [os|] eqn:Hl; [exfalso|done].
  assert (Hup : forall n l, l ∈ dom (sweep [] h) -> exists k, k ∈ dom (sweep [] h) /\ n <= rank k).
  { induction n as [|n IH]; intros l' Hl'; [exists l'; split; [done|lia]|].
    destruct (IH l' Hl') as (k & Hk & Hn). destruct (Ho k Hk) as [?|(k' & os' & Hk' & Hin)]; [set_solver|].
    exists k'. split; [by eapply elem_of_dom_2|].
    apply (lookup_weaken _ h) in Hk'; [|done]. specialize (Hrank _ _ _ Hk' Hin). lia. }
  assert (Hmax : exists n, forall k, k ∈ dom (sweep [] h) -> rank k < n).
  { exists (S (max_list (rank <$> elements (dom (sweep [] h))))). intros k Hk.
    apply Nat.lt_succ_r, max_list_elem_of_le, list_elem_of_fmap. exists k. by rewrite elem_of_elements. }
  destruct Hmax as [n Hn]. destruct (Hup n l) as (k & Hk & Hge); [by eapply elem_of_dom_2|].
  specialize (Hn _ Hk). lia.
Qed.
End ownership.
