(* ===== verification/RefCount.v ===== *)
(** * Reference counts

    [sweep] says what shared ownership destroys; [std::shared_ptr] does it with a count
    per object: dropping a pointer takes one from the count, and an object whose count
    comes to zero is destroyed and drops the pointers it holds.  The two agree, the
    counts are never dropped below zero and never of an object that is gone, and an
    object goes after everything that owned it. *)

From Stdlib Require Import Lia.
From stdpp Require Import base list gmap.
From S2P Require Import Prelude Ownership.

Section counts.
Context {A : Type} `{Countable A}.
Abbreviation heap := (gmap A (list A)).
(** The count of an object, and the pointers it holds. *)
Abbreviation counted := (gmap A (nat * list A)).

(** The pointers in [work] are dropped, one after the other; [None]: a pointer to
    nothing was dropped. *)
Fixpoint drop_pointers (fuel : nat) (work : list A) (h : counted) : option counted :=
  match fuel with
  | 0 => None
  | S fuel' =>
      match work with
      | [] => Some h
      | l :: work' =>
          match h !! l with
          | Some (1, os) => drop_pointers fuel' (os ++ work') (delete l h)
          | Some (S n, os) => drop_pointers fuel' work' (<[l := (n, os)]> h)
          | _ => None
          end
      end
  end.

(** The objects it destroys, in order. *)
Fixpoint destroyed (fuel : nat) (work : list A) (h : counted) : list A :=
  match fuel, work with
  | S fuel', l :: work' =>
      match h !! l with
      | Some (1, os) => l :: destroyed fuel' (os ++ work') (delete l h)
      | Some (S n, os) => destroyed fuel' work' (<[l := (n, os)]> h)
      | _ => []
      end
  | _, _ => []
  end.

Definition uncounted (h : counted) : heap := snd <$> h.
Definition occ (l : A) (ls : list A) : nat := length (filter (fun x => x = l) ls).

(** Every count is the number of pointers there are, and nobody points to nothing. *)
Definition counts_ok (roots : list A) (h : counted) : Prop := forall l,
  occ l (roots ++ captures (uncounted h)) = match h !! l with Some (n, _) => n | None => 0 end /\
  (forall os, h !! l <> Some (0, os)).

Lemma occ_app l a b : occ l (a ++ b) = occ l a + occ l b.
Proof. unfold occ. by rewrite filter_app, length_app. Qed.

Lemma occ_cons l x a : occ l (x :: a) = (if decide (x = l) then 1 else 0) + occ l a.
Proof. unfold occ. rewrite filter_cons. by case_decide. Qed.

Lemma occ_pos l a : 0 < occ l a <-> l ∈ a.
Proof.
  induction a as [|x a IH]; [split; [by intros ?%Nat.lt_irrefl|set_solver]|].
  rewrite occ_cons, elem_of_cons, <- IH. case_decide as Hx.
  - subst x. split; [by left|lia].
  - split; [right; lia|]. intros [?|?]; [congruence|lia].
Qed.

#[export] Instance occ_proper l : Proper ((≡ₚ) ==> (=)) (occ l).
Proof. intros a b Hp. unfold occ. by rewrite Hp. Qed.

Lemma counts_ok_perm roots roots' h : roots ≡ₚ roots' -> counts_ok roots h -> counts_ok roots' h.
Proof. intros Hp Hc l. rewrite <- Hp. apply Hc. Qed.

Lemma captures_delete (h : heap) l os : h !! l = Some os -> captures h ≡ₚ os ++ captures (delete l h).
Proof.
  intros Hl. unfold captures. rewrite <- (map_to_list_delete h l os) by done. done.
Qed.

Lemma captures_size (h : heap) l os : h !! l = Some os ->
  length (captures h) = length os + length (captures (delete l h)).
Proof. intros Hl. rewrite (captures_delete h l os) by done. apply length_app. Qed.

Lemma uncounted_delete h l : uncounted (delete l h) = delete l (uncounted h).
Proof. apply fmap_delete. Qed.

Lemma uncounted_recount h l n m os : h !! l = Some (n, os) -> uncounted (<[l := (m, os)]> h) = uncounted h.
Proof.
  intros Hl. unfold uncounted. rewrite fmap_insert. apply insert_id. by rewrite lookup_fmap, Hl.
Qed.

(** The right counts of a heap without leaks and without dangling pointers. *)
Definition recount (roots : list A) (h : heap) : counted :=
  map_imap (fun l os => Some (occ l (roots ++ captures h), os)) h.

Lemma uncounted_recounted roots h : uncounted (recount roots h) = h.
Proof.
  apply map_eq. intros l. unfold uncounted, recount. rewrite lookup_fmap, map_lookup_imap.
  by destruct (h !! l).
Qed.

Lemma recount_lookup roots h l os : h !! l = Some os -> exists n, recount roots h !! l = Some (n, os).
Proof. intros Hl. eexists. unfold recount. by rewrite map_lookup_imap, Hl. Qed.

Lemma recount_ok roots h :
  sweep roots h = h -> Forall (fun l => is_Some (h !! l)) (roots ++ captures h) ->
  counts_ok roots (recount roots h).
Proof.
  intros Hs Hd l. rewrite uncounted_recounted. unfold recount. rewrite map_lookup_imap.
  destruct (h !! l) as [os|] eqn:E; simpl.
  - split; [done|]. intros os' [= H0 _]. destruct (sweep_spec roots h) as [[_ Ho] _]. rewrite Hs in Ho.
    assert (0 < occ l (roots ++ captures h)); [|lia]. apply occ_pos, elem_of_app.
    destruct (Ho l) as [?|?]; [by apply elem_of_dom_2 in E|by left|right; by apply elem_of_captures].
  - split; [|done]. destruct (occ l (roots ++ captures h)) eqn:Eo; [done|].
    rewrite Forall_forall in Hd. destruct (Hd l) as [? ?]; [|congruence].
    apply occ_pos. lia.
Qed.

(** What nobody owns is not missed. *)
Lemma sweep_delete roots (h : heap) l : l ∉ roots -> l ∉ captures h -> sweep roots (delete l h) = sweep roots h.
Proof.
  intros Hr Hc. apply (anti_symm (⊆)); apply sweep_spec.
  - destruct (sweep_spec roots (delete l h)) as [[Hs Ho] _]. split; [|done].
    etrans; [exact Hs|apply delete_subseteq].
  - destruct (sweep_spec roots h) as [[Hs Ho] _]. split; [|done].
    apply map_subseteq_spec. intros k os Hk. rewrite lookup_delete_Some. split; [|by eapply lookup_weaken].
    intros <-. destruct (Ho l) as [?|(k & os' & Hk' & Hin)]; [by eapply elem_of_dom_2|done|].
    apply Hc, elem_of_captures. exists k, os'. split; [by eapply lookup_weaken|done].
Qed.

(** With right counts nothing is left that [sweep] would destroy. *)
Lemma counts_swept roots h : counts_ok roots h -> sweep roots (uncounted h) = uncounted h.
Proof.
  intros Hc. apply (anti_symm (⊆)); [apply sweep_sub|]. apply sweep_spec. split; [done|].
  intros l Hl. apply elem_of_dom in Hl as [os Hl]. unfold uncounted in Hl. rewrite lookup_fmap in Hl.
  destruct (h !! l) as [[n os']|] eqn:E; [|done]. destruct (Hc l) as [Hn H0]. rewrite E in *.
  assert (l ∈ roots ++ captures (uncounted h)) as [?|Hin]%elem_of_app.
  { apply occ_pos. destruct n; [by destruct (H0 os')|lia]. }
  - by left.
  - right. by apply elem_of_captures.
Qed.

(** One step of the release. *)
Lemma counts_drop roots l work h : counts_ok ((l :: work) ++ roots) h ->
  exists n os, h !! l = Some (S n, os) /\
    match n with
    | 0 => counts_ok ((os ++ work) ++ roots) (delete l h) /\ l ∉ work ++ roots /\ l ∉ captures (uncounted h)
    | S _ => counts_ok (work ++ roots) (<[l := (n, os)]> h)
    end.
Proof.
  intros Hc. destruct (Hc l) as [Hn H0]. cbn [app] in Hn. rewrite occ_cons, occ_app, decide_True in Hn by done.
  destruct (h !! l) as [[[|n] os]|] eqn:E; [by destruct (H0 os)| |lia]. exists n, os. split; [done|]. destruct n as [|n].
  - assert (Hos : uncounted h !! l = Some os) by (unfold uncounted; by rewrite lookup_fmap, E).
    split; [|split; intros Hin%occ_pos; lia].
    intros k. rewrite uncounted_delete. specialize (Hc k) as [Hk H0k]. cbn [app] in Hk.
    rewrite occ_cons, occ_app, (captures_delete _ l os Hos), !occ_app in Hk. rewrite !occ_app.
    destruct (decide (k = l)) as [->|Hne].
    + rewrite lookup_delete_eq. rewrite E, decide_True in Hk by done. split; [lia|done].
    + rewrite lookup_delete_ne by done. rewrite decide_False in Hk by congruence. split; [|done].
      destruct (h !! k) as [[??]|]; lia.
  - intros k. rewrite (uncounted_recount h l (S (S n))) by done. specialize (Hc k) as [Hk H0k]. cbn [app] in Hk.
    rewrite occ_cons, occ_app in Hk. rewrite occ_app. destruct (decide (k = l)) as [->|Hne].
    + rewrite lookup_insert_eq. rewrite E, decide_True in Hk by done. split; [lia|done].
    + rewrite lookup_insert_ne by done. rewrite decide_False in Hk by congruence. split; [|done].
      destruct (h !! k) as [[??]|]; lia.
Qed.

(** Dropping pointers by count destroys what [sweep] destroys, and leaves right counts. *)
Lemma drop_pointers_sweeps roots fuel : forall work h,
  counts_ok (work ++ roots) h -> length work + length (captures (uncounted h)) < fuel ->
  exists h', drop_pointers fuel work h = Some h' /\ counts_ok roots h' /\
    uncounted h' = sweep roots (uncounted h).
Proof.
  induction fuel as [|fuel IH]; intros work h Hc Hf; [lia|]. cbn [drop_pointers].
  destruct work as [|l work]; [exists h; split_and!; [done..|]; by rewrite (counts_swept roots)|].
  destruct (counts_drop roots l work h Hc) as (n & os & E & Hd). rewrite E. destruct n as [|n].
  - destruct Hd as (Hc' & Hw & Hl).
    assert (Hos : uncounted h !! l = Some os) by (unfold uncounted; by rewrite lookup_fmap, E).
    destruct (IH (os ++ work) (delete l h) Hc') as (h' & Hr & Hr' & Hs).
    + rewrite uncounted_delete, length_app. rewrite (captures_size _ l os Hos) in Hf. simpl in Hf. lia.
    + exists h'. split_and!; try done. rewrite Hs, uncounted_delete. apply sweep_delete; [set_solver|done].
  - pose proof (uncounted_recount h l _ (S n) os E) as Hu.
    destruct (IH work (<[l := (S n, os)]> h) Hd) as (h' & Hr & Hr' & Hs); [rewrite Hu; simpl in Hf; lia|].
    exists h'. by rewrite Hs, Hu.
Qed.

(** An object is destroyed after everything that owned it. *)
Lemma owners_first roots fuel : forall work h pre o post l n os,
  counts_ok (work ++ roots) h -> destroyed fuel work h = pre ++ o :: post ->
  h !! l = Some (n, os) -> o ∈ os -> l ∈ pre.
Proof.
  induction fuel as [|fuel IH]; intros work h pre o post l n os Hc Hd Hl Ho; [by destruct pre|].
  destruct work as [|l0 work]; [by destruct pre|]. cbn [destroyed] in Hd.
  destruct (counts_drop roots l0 work h Hc) as (m & os0 & E & Hstep). rewrite E in Hd. destruct m as [|m].
  - destruct Hstep as (Hc' & _ & Hnc). destruct pre as [|x pre]; simplify_eq/=.
    + destruct Hnc. apply elem_of_captures. exists l, os. split; [|done].
      unfold uncounted. by rewrite lookup_fmap, Hl.
    + destruct (decide (l = x)) as [->|Hne]; [left|right].
      eapply (IH _ _ pre o post l n os Hc'); [done| |done]. by rewrite lookup_delete_ne.
  - assert (exists n', (<[l0 := (S m, os0)]> h) !! l = Some (n', os)) as [n' Hl'].
    { destruct (decide (l = l0)) as [->|Hne]; [|exists n; by rewrite lookup_insert_ne].
      exists (S m). rewrite lookup_insert_eq. congruence. }
    by eapply (IH _ _ pre o post l n' os Hstep).
Qed.
End counts.
