(* ===== verification/Factories.v ===== *)
(** * Factories made by the injector ([src/include/my_di_extension.hpp])

    A factory is a [std::function] that makes a new object at every call.  What it
    captures decides how long it may be used: a reference to the injector, references
    to the dependencies, or a [shared_ptr] to one of them that the deleter of every
    object made gets a copy of.  The injector is Boost.DI's: which dependencies it
    holds and hands to the constructors it calls itself are parameters. *)

From Stdlib Require Import Lia.
From stdpp Require Import base list gmap relations.
From S2P Require Import Prelude Ownership RefCount.

(** Objects; a [shared_ptr] is a pointer to the product, which owns its control block,
    where the deleter is; a [weak_ptr] is a pointer to the control block. *)
Inductive obj := Injector | Dep (i : nat) | Factory (n : nat) | Product (n : nat) | Block (n : nat).
#[export] Instance obj_eq_dec : EqDecision obj.
Proof. solve_decision. Defined.
Definition obj_code (o : obj) : nat * nat :=
  match o with Injector => (0, 0) | Dep i => (1, i) | Factory n => (2, n) | Product n => (3, n) | Block n => (4, n) end.
Definition code_obj (c : nat * nat) : option obj :=
  match c with
  | (0, _) => Some Injector | (1, i) => Some (Dep i) | (2, n) => Some (Factory n) | (3, n) => Some (Product n)
  | (4, n) => Some (Block n) | _ => None
  end.
#[export] Instance obj_countable : Countable obj.
Proof. refine (inj_countable obj_code code_obj _). by intros []. Defined.
Abbreviation heap := (gmap obj (list obj)).

(** What the [std::function] captures. *)
Inductive capture :=
  | ByInjector                                    (** [&injector] *)
  | Refs (deps : list nat)                        (** the tuple of [reference_wrapper]s *)
  | OwnerRefs (owned : nat) (deps : list nat).    (** [owned_dep], and the tuple *)

Definition always_new_shared_factory : capture := ByInjector.
Definition bind_shared_factory : capture := ByInjector.
Definition safe_factory_binding (deps : list nat) : capture := Refs deps.
Definition safe_factory_binding_for (deps : list nat) : capture := Refs deps.
Definition safe_factory_binding_with_shared_owner (owned : nat) (deps : list nat) : capture := OwnerRefs owned deps.

(** The pointers among them, and what a call of the factory refers to. *)
Definition owned_by (c : capture) : list obj := match c with OwnerRefs o _ => [Dep o] | _ => [] end.
Definition referred (c : capture) : list obj :=
  match c with ByInjector => [Injector] | Refs ds => Dep <$> ds | OwnerRefs o ds => Dep o :: (Dep <$> ds) end.

Record scene := mkScene {
  objects : heap;
  held : list obj;              (** the pointers the program has, the injector's scope included *)
  made_as : gmap nat capture;   (** the factory, or what made the product, of this number *)
  fresh : nat;
}.

Section scene.
(** The dependencies the injector holds; which of them the [n]th object gets that the
    injector itself constructs. *)
Context (injected : list nat) (provided : nat -> list nat).

Definition alive (s : scene) (o : obj) : bool := bool_decide (is_Some (s.(objects) !! o)).
Definition settle (s : scene) : scene := mkScene (sweep s.(held) s.(objects)) s.(held) s.(made_as) s.(fresh).
Definition hold (o : obj) (s : scene) : scene := mkScene s.(objects) (o :: s.(held)) s.(made_as) s.(fresh).

(** What the lambda of a binding does with the injector: references to what there is,
    the owned dependency shared or made. *)
Definition get_shared (c : capture) (h : heap) : heap :=
  match c with OwnerRefs o _ => if decide (is_Some (h !! Dep o)) then h else <[Dep o := []]> h | _ => h end.
Definition refs_of (c : capture) : list obj :=
  match c with ByInjector => [] | Refs ds | OwnerRefs _ ds => Dep <$> ds end.
Definition make_factory (c : capture) (s : scene) : option scene :=
  if alive s Injector && forallb (alive s) (refs_of c) then
    Some (settle (mkScene (<[Factory s.(fresh) := owned_by c]> (get_shared c s.(objects)))
                    (Factory s.(fresh) :: s.(held)) (<[s.(fresh) := c]> s.(made_as)) (S s.(fresh))))
  else None.

(** The new object: constructed by the injector in the scope of [always_new_shared_ptr_scope],
    or by [make_shared], or with the deleter that has [owned_dep]. *)
Definition product_owns (c : capture) (n : nat) : list obj :=
  match c with ByInjector => Dep <$> provided n | _ => [] end.
Definition new_product (c : capture) (s : scene) : scene :=
  let n := s.(fresh) in
  settle (mkScene (<[Product n := Block n :: product_owns c n]> (<[Block n := owned_by c]> s.(objects)))
            (Product n :: s.(held)) (<[n := c]> s.(made_as)) (S n)).

Inductive outcome := Done (s : scene) | Dangling.
Definition call_factory (n : nat) (s : scene) : option outcome :=
  if decide (Factory n ∈ s.(held)) then
    c ← s.(made_as) !! n;
    Some (if forallb (alive s) (referred c) then Done (new_product c s) else Dangling)
  else None.

Fixpoint remove_one (o : obj) (l : list obj) : list obj :=
  match l with [] => [] | x :: l' => if decide (x = o) then l' else x :: remove_one o l' end.

Inductive event :=
  | Make (c : capture) | Call (n : nat)
  | Copy (o : obj) | Weaken (n : nat) | Lock (n : nat)
  | Drop (o : obj).     (** a pointer goes, or the scope of the injector ends *)

Definition do_event (e : event) (s : scene) : option outcome :=
  match e with
  | Make c => Done <$> make_factory c s
  | Call n => call_factory n s
  | Copy o => if decide (o ∈ s.(held)) then Some (Done (settle (hold o s))) else None
  | Weaken n => if decide (Product n ∈ s.(held)) then Some (Done (settle (hold (Block n) s))) else None
  | Lock n =>
      if decide (Block n ∈ s.(held)) then
        Some (Done (if alive s (Product n) then settle (hold (Product n) s) else s))
      else None
  | Drop o =>
      if decide (o ∈ s.(held)) then
        Some (Done (settle (mkScene s.(objects) (remove_one o s.(held)) s.(made_as) s.(fresh))))
      else None
  end.

(** The injector with its dependencies, and others that outlive it. *)
Definition start (outer : list nat) : scene :=
  mkScene (<[Injector := Dep <$> injected]> (gset_to_gmap [] (list_to_set (Dep <$> (injected ++ outer)))))
    (Injector :: (Dep <$> outer)) ∅ 0.

Definition scene_step (s s' : scene) : Prop := exists e, do_event e s = Some (Done s').
Definition reachable (s : scene) : Prop := exists outer, rtc scene_step (start outer) s.

(** ** What every object holds *)

Definition made_owns (s : scene) (n : nat) : list obj := default [] (owned_by <$> s.(made_as) !! n).
Definition expected (s : scene) (o : obj) : list obj :=
  match o with
  | Injector => Dep <$> injected
  | Dep _ => []
  | Factory n | Block n => made_owns s n
  | Product n => Block n :: default [] ((fun c => product_owns c n) <$> s.(made_as) !! n)
  end.
Definition number (o : obj) : option nat :=
  match o with Factory n | Product n | Block n => Some n | _ => None end.

Record scene_ok (s : scene) : Prop := {
  so_closed : forall o, o ∈ s.(held) ++ captures s.(objects) -> is_Some (s.(objects) !! o);
  so_expected : forall o os, s.(objects) !! o = Some os -> os = expected s o;
  so_known : forall o n, is_Some (s.(objects) !! o) -> number o = Some n -> is_Some (s.(made_as) !! n);
  so_made : forall n c, s.(made_as) !! n = Some c -> n < s.(fresh);
}.

Context (Hprovided : forall n, provided n ⊆ injected).

Lemma settle_ok s : scene_ok s -> scene_ok (settle s) /\ sweep (settle s).(held) (settle s).(objects) = (settle s).(objects).
Proof.
  intros [Hc He Hf Hm]. split; [|by apply sweep_sweep].
  assert (Hsub : forall o os, sweep s.(held) s.(objects) !! o = Some os -> s.(objects) !! o = Some os)
    by (intros o os Ho; eapply lookup_weaken, sweep_sub; done).
  split; [by apply sweep_closed| |intros o n [os Ho] Hn; eauto|done].
  intros o os Ho. by apply He, Hsub.
Qed.

(** A dead number changes nothing of what the others hold. *)
Lemma expected_fresh s h l c o : number o <> Some s.(fresh) ->
  expected (mkScene h l (<[s.(fresh) := c]> s.(made_as)) (S s.(fresh))) o = expected s o.
Proof.
  intros Hn. destruct o; try done; unfold expected, made_owns; cbn [made_as]; simpl in Hn;
    by rewrite lookup_insert_ne by congruence.
Qed.

Lemma owned_kept s o os : scene_ok s -> s.(objects) !! o = Some os -> forall x, x ∈ os -> is_Some (s.(objects) !! x).
Proof.
  intros Hs Ho x Hx. apply Hs, elem_of_app. right. apply elem_of_captures. by exists o, os.
Qed.

(** Adding an object that owns what there is. *)
Lemma captures_insert o os (h : heap) x : x ∈ captures (<[o := os]> h) -> x ∈ os \/ x ∈ captures h.
Proof.
  rewrite !elem_of_captures. intros (k & os' & Hk & Hx).
  apply lookup_insert_Some in Hk as [[<- <-]|[? ?]]; [by left|right; eauto].
Qed.

Lemma closed_insert roots o os (h : heap) :
  (forall x, x ∈ roots ++ captures h -> is_Some (h !! x)) ->
  (forall x, x ∈ os -> x = o \/ is_Some (h !! x)) ->
  forall x, x ∈ (o :: roots) ++ captures (<[o := os]> h) -> is_Some (<[o := os]> h !! x).
Proof.
  intros Hc Hos x Hx. destruct (decide (x = o)) as [->|Hne]; [by rewrite lookup_insert_eq|].
  rewrite lookup_insert_ne by done.
  apply elem_of_app in Hx as [[?|?]%elem_of_cons|Hx]; [done|apply Hc; set_solver|].
  apply captures_insert in Hx as [Hx|Hx]; [by destruct (Hos x Hx)|apply Hc; set_solver].
Qed.

Lemma get_shared_ok c s : scene_ok s ->
  let s' := mkScene (get_shared c s.(objects)) s.(held) s.(made_as) s.(fresh) in
  scene_ok s' /\ (forall x, x ∈ owned_by c -> is_Some (s'.(objects) !! x)) /\
  forall x, number x <> None -> s'.(objects) !! x = s.(objects) !! x.
Proof.
  intros Hs. destruct c as [|ds|o ds]; cbn [get_shared owned_by];
    [split_and!; [by destruct s|set_solver|done]..|].
  case_decide as Ho; cbn [objects].
  { split_and!; [by destruct s| |done]. intros x ->%list_elem_of_singleton. done. }
  split_and!.
  - destruct Hs as [Hc He Hf Hm]. split; cbn [objects held made_as fresh]; [| | |done].
    + intros x Hx. apply (closed_insert s.(held) (Dep o) [] s.(objects)); [done|set_solver|set_solver].
    + intros x os. rewrite lookup_insert_Some. intros [[<- <-]|[? ?]]; [done|]. by apply He in H0.
    + intros x n Hx Hn. apply (Hf x); [|done]. destruct (decide (x = Dep o)) as [->|Hne]; [done|].
      by rewrite lookup_insert_ne in Hx.
  - intros x ->%list_elem_of_singleton. by rewrite lookup_insert_eq.
  - intros x Hx. rewrite lookup_insert_ne; [done|]. by intros <-.
Qed.

Lemma make_factory_ok c s s' : scene_ok s -> make_factory c s = Some s' -> scene_ok s'.
Proof.
  intros Hs Hm. unfold make_factory in Hm. case_match; [|done]. simplify_eq. apply settle_ok.
  destruct (get_shared_ok c s Hs) as ([Hc He Hf Hma] & Ho & Hn). cbn [objects held made_as fresh] in *.
  split; cbn [objects held made_as fresh].
  - apply closed_insert; [done|]. intros x Hx. right. by apply Ho.
  - intros x os. rewrite lookup_insert_Some. intros [[<- <-]|[Hne Hx]].
    + unfold expected, made_owns. cbn [made_as]. by rewrite lookup_insert_eq.
    + rewrite expected_fresh; [by apply He in Hx|]. intros Hnum.
      destruct (Hf x s.(fresh) ltac:(by eexists) Hnum) as [c' Hc'%Hma]. lia.
  - intros x n Hx Hnum. apply lookup_insert_is_Some'. destruct (decide (x = Factory s.(fresh))) as [->|Hne].
    + left. by injection Hnum.
    + right. rewrite lookup_insert_ne in Hx by done. by apply (Hf x).
  - intros n c'. rewrite lookup_insert_Some. intros [[<- <-]|[_ Hx]]; [lia|]. apply Hma in Hx. lia.
Qed.

Lemma new_product_ok c s : scene_ok s -> (forall x, x ∈ referred c -> is_Some (s.(objects) !! x)) ->
  scene_ok (new_product c s).
Proof using Hprovided.
  intros Hs Href. unfold new_product. apply settle_ok. pose proof Hs as [Hc He Hf Hm].
  assert (Hown : forall x, x ∈ owned_by c -> is_Some (s.(objects) !! x))
    by (intros x Hx; apply Href; destruct c; set_solver).
  assert (Hdeps : forall x, x ∈ product_owns c s.(fresh) -> is_Some (s.(objects) !! x)).
  { intros x Hx. destruct c; [|set_solver..]. destruct (Href Injector) as [os Hos]; [set_solver|].
    apply (owned_kept s _ _ Hs Hos). rewrite (He _ _ Hos). cbn [product_owns expected] in *. set_solver. }
  split; cbn [objects held made_as fresh].
  - apply closed_insert.
    + intros x Hx. apply (closed_insert s.(held) (Block s.(fresh)) (owned_by c) s.(objects)); [done|auto|set_solver].
    + intros x [->|Hx]%elem_of_cons; right; [by rewrite lookup_insert_eq|].
      apply lookup_insert_is_Some'. right. by apply Hdeps.
  - intros x os. rewrite !lookup_insert_Some. intros [[<- <-]|[_ [[<- <-]|[_ Hx]]]].
    1, 2: unfold expected, made_owns; cbn [made_as]; by rewrite lookup_insert_eq.
    rewrite expected_fresh; [by apply He|]. intros Hnum.
    destruct (Hf x s.(fresh) ltac:(by eexists) Hnum) as [c' Hc'%Hm]. lia.
  - intros x n [os Hx] Hnum. apply lookup_insert_is_Some'.
    apply lookup_insert_Some in Hx as [[<- _]|[_ Hx]]; [left; by injection Hnum|].
    apply lookup_insert_Some in Hx as [[<- _]|[_ Hx]]; [left; by injection Hnum|].
    right. by apply (Hf x).
  - intros n c'. rewrite lookup_insert_Some. intros [[<- <-]|[_ Hx]]; [lia|]. apply Hm in Hx. lia.
Qed.

Lemma hold_ok o s : scene_ok s -> is_Some (s.(objects) !! o) -> scene_ok (settle (hold o s)).
Proof.
  intros [Hc He Hf Hm] Ho. apply settle_ok. split; cbn [hold objects held made_as fresh]; try done.
  intros x [[->|?]%elem_of_cons|?]%elem_of_app; [done|apply Hc; set_solver..].
Qed.

Lemma remove_one_sub o l : remove_one o l ⊆ l.
Proof. induction l as [|x l IH]; [done|]. simpl. case_decide; set_solver. Qed.

Lemma alive_held o s : scene_ok s -> o ∈ s.(held) -> is_Some (s.(objects) !! o).
Proof. intros Hs Ho. apply Hs. set_solver. Qed.

Lemma do_event_ok e s s' : scene_ok s -> do_event e s = Some (Done s') -> scene_ok s'.
Proof using Hprovided.
  intros Hs He. destruct e; cbn [do_event] in He.
  - destruct (make_factory c s) as [s''|] eqn:E; [|done]. simplify_eq/=. by eapply make_factory_ok.
  - unfold call_factory in He. case_decide; [|done]. destruct (s.(made_as) !! n) as [c|]; [|done].
    cbn in He. case_match eqn:Hall; [|done]. simplify_eq. apply new_product_ok; [done|].
    intros x Hx. rewrite forallb_forall in Hall. specialize (Hall x ltac:(by apply list_elem_of_In)).
    by apply bool_decide_eq_true in Hall.
  - case_decide; [|done]. simplify_eq. apply hold_ok; [done|]. by apply alive_held.
  - case_decide as Hh; [|done]. simplify_eq. apply hold_ok; [done|].
    destruct (alive_held _ s Hs Hh) as [os Hos]. apply (owned_kept s _ _ Hs Hos).
    rewrite (so_expected s Hs _ _ Hos). cbn [expected]. by left.
  - case_decide; [|done]. case_match eqn:Ha; simplify_eq; [|done]. apply hold_ok; [done|].
    by apply bool_decide_eq_true in Ha.
  - case_decide; [|done]. simplify_eq. apply settle_ok. destruct Hs as [Hc Hx Hf Hm].
    split; cbn [objects held made_as fresh]; try done. intros x Hin. apply Hc.
    pose proof (remove_one_sub o s.(held)). set_solver.
Qed.

Lemma start_objects outer o os : (start outer).(objects) !! o = Some os <->
  (o = Injector /\ os = Dep <$> injected) \/ (o ∈ Dep <$> (injected ++ outer) /\ os = []).
Proof.
  unfold start; cbn [objects]. rewrite lookup_insert_Some, lookup_gset_to_gmap_Some, elem_of_list_to_set.
  split; [intros [[? ?]|[? [? ?]]]; auto|]. intros [[-> ->]|[Ho ->]]; [by left|right].
  split_and!; [|done..]. intros <-. apply list_elem_of_fmap in Ho as (? & ? & ?). done.
Qed.

Lemma start_scene_ok outer : scene_ok (start outer).
Proof.
  assert (Hdep : forall i, i ∈ injected ++ outer -> is_Some ((start outer).(objects) !! Dep i)).
  { intros i Hi. exists []. apply start_objects. right. split; [|done]. by apply list_elem_of_fmap_2. }
  split; [| | |done].
  - intros o [Ho|Ho]%elem_of_app.
    + apply elem_of_cons in Ho as [->|(i & -> & Hi)%list_elem_of_fmap].
      * eexists. apply start_objects. by left.
      * apply Hdep. set_solver.
    + apply elem_of_captures in Ho as (k & os & Hk & Hin).
      apply start_objects in Hk as [[-> ->]|[_ ->]]; [|set_solver].
      apply list_elem_of_fmap in Hin as (i & -> & Hi). apply Hdep. set_solver.
  - intros o os [[-> ->]|[(i & -> & _)%list_elem_of_fmap ->]]%start_objects; done.
  - intros o n [os [[-> _]|[(i & -> & _)%list_elem_of_fmap _]]%start_objects] Hn; done.
Qed.

Lemma reachable_ok s : reachable s -> scene_ok s.
Proof using Hprovided.
  intros (outer & Hs). revert s Hs. apply rtc_ind_r; [apply start_scene_ok|].
  intros s1 s2 _ [e He] Hok. by apply (do_event_ok e s1).
Qed.

(** The scene is always settled: after the first step nothing without an owner is left. *)
Lemma do_event_settled e s s' : scene_ok s -> sweep s.(held) s.(objects) = s.(objects) ->
  do_event e s = Some (Done s') -> sweep s'.(held) s'.(objects) = s'.(objects).
Proof.
  intros Hs Hw He. destruct e; cbn [do_event] in He; unfold make_factory, call_factory, new_product in He;
    simplify_option_eq; repeat case_match; simplify_eq/=; try done; by apply sweep_sweep.
Qed.

Lemma start_settled outer : sweep (start outer).(held) (start outer).(objects) = (start outer).(objects).
Proof.
  apply (anti_symm (⊆)); [apply sweep_sub|]. apply sweep_spec. split; [done|].
  intros o [os Ho]%elem_of_dom. apply start_objects in Ho as [[-> _]|[(i & -> & Hi)%list_elem_of_fmap _]];
    [left; by left|].
  apply elem_of_app in Hi as [Hi|Hi].
  - right. exists Injector, (Dep <$> injected). split; [apply start_objects; by left|set_solver].
  - left. right. set_solver.
Qed.

Lemma reachable_settled s : reachable s -> sweep s.(held) s.(objects) = s.(objects).
Proof using Hprovided.
  intros (outer & Hs). revert s Hs. apply rtc_ind_r; [apply start_settled|].
  intros s1 s2 Hr [e He] Hw. apply (do_event_settled e s1); [|done..]. apply reachable_ok. by exists outer.
Qed.

(** No circle among them. *)
Definition rank (o : obj) : nat :=
  match o with Dep _ => 0 | Injector | Factory _ | Block _ => 1 | Product _ => 2 end.
Lemma scene_acyclic s : scene_ok s -> forall k os l, s.(objects) !! k = Some os -> l ∈ os -> rank l < rank k.
Proof.
  intros Hs k os l Hk Hl. rewrite (so_expected s Hs _ _ Hk) in Hl.
  assert (Hown : forall n, l ∈ made_owns s n -> rank l = 0).
  { intros n Hn. unfold made_owns in Hn. destruct (s.(made_as) !! n) as [[]|]; set_solver. }
  destruct k as [|i|n|n|n]; cbn [expected] in Hl; [set_solver|set_solver| | |]; try (rewrite (Hown _ Hl); simpl; lia).
  apply elem_of_cons in Hl as [->|Hl]; [simpl; lia|].
  destruct (s.(made_as) !! n) as [[]|]; set_solver.
Qed.

Lemma alive_factory s n c : scene_ok s -> s.(made_as) !! n = Some c -> is_Some (s.(objects) !! Factory n) ->
  forall x, x ∈ owned_by c -> is_Some (s.(objects) !! x).
Proof.
  intros Hs Hc [os Hos] x Hx. apply (owned_kept s _ _ Hs Hos). rewrite (so_expected s Hs _ _ Hos).
  unfold expected, made_owns. by rewrite Hc.
Qed.

Lemma alive_product s n c : scene_ok s -> s.(made_as) !! n = Some c ->
  is_Some (s.(objects) !! Product n) \/ is_Some (s.(objects) !! Block n) ->
  s.(objects) !! Block n = Some (owned_by c) /\ forall x, x ∈ owned_by c -> is_Some (s.(objects) !! x).
Proof.
  intros Hs Hc Ha.
  assert (is_Some (s.(objects) !! Block n)) as [os Hos].
  { destruct Ha as [[os Hos]|?]; [|done]. apply (owned_kept s _ _ Hs Hos).
    rewrite (so_expected s Hs _ _ Hos). by left. }
  assert (os = owned_by c) as ->
    by (rewrite (so_expected s Hs _ _ Hos); unfold expected, made_owns; by rewrite Hc).
  split; [done|]. by apply (owned_kept s _ _ Hs Hos).
Qed.

(** What a call of the factory needs besides its own captures. *)
Definition outside (c : capture) : list obj :=
  match c with ByInjector => [Injector] | Refs ds | OwnerRefs _ ds => Dep <$> ds end.

Lemma some_gone s l : forallb (alive s) l = false <-> exists o, o ∈ l /\ s.(objects) !! o = None.
Proof.
  unfold alive. induction l as [|x l IH]; cbn [forallb].
  - split; [done|]. intros (o & Ho & _). by apply elem_of_nil in Ho.
  - rewrite andb_false_iff, IH, bool_decide_eq_false, <- eq_None_not_Some. split.
    + intros [Hx|(o & ? & ?)]; [exists x|exists o]; split; try done; by constructor.
    + intros (o & [->|?]%elem_of_cons & ?); [by left|right; eauto].
Qed.

Lemma call_dangles s n c : scene_ok s -> Factory n ∈ s.(held) -> s.(made_as) !! n = Some c ->
  if forallb (alive s) (outside c) then call_factory n s = Some (Done (new_product c s))
  else call_factory n s = Some Dangling.
Proof.
  intros Hs Hh Hc. unfold call_factory. rewrite decide_True by done. rewrite Hc. cbn.
  assert (forallb (alive s) (referred c) = forallb (alive s) (outside c)) as ->; [|by case_match].
  destruct c as [|ds|o ds]; [done..|]. cbn [referred outside forallb].
  assert (alive s (Dep o) = true) as ->; [|done]. apply bool_decide_eq_true.
  apply (alive_factory s n _ Hs Hc); [by apply alive_held|by left].
Qed.

Lemma new_product_alive c s : scene_ok s ->
  Product s.(fresh) ∈ (new_product c s).(held) /\ s.(objects) !! Product s.(fresh) = None.
Proof.
  intros Hs. split; [by left|]. destruct (s.(objects) !! Product s.(fresh)) as [os|] eqn:E; [|done].
  destruct (so_known s Hs (Product s.(fresh)) s.(fresh)) as [c' Hc'%(so_made s Hs)]; [by rewrite E|done|lia].
Qed.

End scene.

(** ** Witness: a product outlives its factory and the injector *)

Fixpoint do_all (injected : list nat) (provided : nat -> list nat) (es : list event) (s : scene) : option scene :=
  match es with
  | [] => Some s
  | e :: es' => match do_event provided e s with Some (Done s') => do_all injected provided es' s' | _ => None end
  end.

Lemma do_all_reachable injected provided es : forall s s',
  reachable injected provided s -> do_all injected provided es s = Some s' -> reachable injected provided s'.
Proof.
  induction es as [|e es IH]; intros s s' Hr Hd; cbn in Hd; [by simplify_eq|].
  repeat case_match; try done. eapply IH; [|done]. destruct Hr as [outer Ho]. exists outer.
  eapply rtc_r; [done|]. by exists e.
Qed.

(** The injector holds 1 and 2, the program 7; 3 is made for the factory. *)
Definition demo_events : list event :=
  [Make (safe_factory_binding_with_shared_owner 3 [7]); Make always_new_shared_factory; Drop Injector; Call 0;
   Drop (Factory 0)].
Definition demo_scene : scene :=
  default (start [1; 2] []) (do_all [1; 2] (fun _ => [2]) demo_events (start [1; 2] [7])).

