(* ===== verification/Json.v ===== *)
(** * JSON values

    The data of [boost::json::value]: the eight kinds the sources switch on
    ([src/src/json_util.cpp], [json_kind_name]), objects keeping their members
    in insertion order with unique keys.  The container accesses the sources
    perform ([if_contains], [operator[]], [as_object], ...) are defined on that
    data.  Everything of Boost.JSON that computes text or converts numbers is
    the interface [JsonLib], and what the code relies on of it is
    [JsonLibLaws]. *)

From Stdlib Require Import ZArith Lia Ascii String.
From Stdlib Require Import SpecFloat.
From stdpp Require Import base list gmap strings.
From S2P Require Import Prelude.

(** ** Exceptions *)

(** A C++ exception: one caught by [catch (const std::exception& e)], with its
    [what()], or any other one. *)
Inductive exn :=
  | StdExn (what : str)
  | OtherExn.

(** A computation that may throw. *)
Abbreviation throws A := (exn + A)%type.

Notation "'let!' x := e 'in' k" :=
  (match e with inl er => inl er | inr x => k end)
  (at level 10, x pattern, e at level 200, k at level 200).

(** [catch (const std::exception& e)] around a pure computation. *)
Definition catch_std {A} (e : throws A) (h : str -> throws A) : throws A :=
  match e with
  | inl (StdExn w) => h w
  | other => other
  end.

Fixpoint map_throws {A B} (f : A -> throws B) (l : list A) : throws (list B) :=
  match l with
  | [] => inr []
  | x :: l' => let! y := f x in let! ys := map_throws f l' in inr (y :: ys)
  end.

Lemma map_throws_inr {A B} (f : A -> throws B) l ys :
  map_throws f l = inr ys <-> Forall2 (fun x y => f x = inr y) l ys.
Proof.
  revert ys; induction l as [|x l IH]; intros ys; simpl.
  - split; [intros [= <-]; constructor|inversion 1; done].
  - split.
    + intros H. cases. constructor; [done|]. by apply IH.
    + inversion 1 as [|? y ? ys' Hx Hl]; subst. rewrite Hx.
      apply IH in Hl. by rewrite Hl.
Qed.

(** [std::stoi]: leading white space, a sign, then the longest run of digits; the
    rest is ignored. *)
Definition isspace (c : ascii) : bool :=
  let n := nat_of_ascii c in bool_decide (n = 32%nat) || ((9 <=? n)%nat && (n <=? 13)%nat).

Fixpoint digits_value (acc : Z) (s : str) : Z :=
  match s with
  | c :: s' =>
      if is_digit c then digits_value (acc * 10 + (Z.of_nat (nat_of_ascii c) - 48)) s' else acc
  | [] => acc
  end.

Definition stoi (s : str) : throws Z :=
  let s := ltrim_by isspace s in
  let '(sign, s) :=
    match s with
    | "-"%char :: s' => ((-1)%Z, s')
    | "+"%char :: s' => (1%Z, s')
    | _ => (1%Z, s)
    end in
  match s with
  | c :: _ =>
      if is_digit c then
        let v := (sign * digits_value 0 s)%Z in
        if decide (in_int32 v) then inr v else inl (StdExn (lit "stoi"))
      else inl (StdExn (lit "stoi"))
  | [] => inl (StdExn (lit "stoi"))
  end.

(** ** Values *)

Inductive json :=
  | JNull
  | JBool (b : bool)
  | JInt64 (z : Z)
  | JUint64 (z : Z)
  | JDouble (d : spec_float)
  | JString (s : str)
  | JArray (l : list json)
  | JObject (m : list (str * json)).

Section json_ind.
Context (P : json -> Prop).
Context (Hnull : P JNull) (Hbool : forall b, P (JBool b))
  (Hint : forall z, P (JInt64 z)) (Huint : forall z, P (JUint64 z))
  (Hdbl : forall d, P (JDouble d)) (Hstr : forall s, P (JString s))
  (Harr : forall l, Forall P l -> P (JArray l))
  (Hobj : forall m, Forall (fun kv => P kv.2) m -> P (JObject m)).

(** The induction principle with the members of arrays and objects. *)
Fixpoint json_ind' (j : json) : P j :=
  match j with
  | JNull => Hnull | JBool b => Hbool b | JInt64 z => Hint z
  | JUint64 z => Huint z | JDouble d => Hdbl d | JString s => Hstr s
  | JArray l => Harr l
      ((fix go l : Forall P l :=
          match l with
          | [] => @List.Forall_nil _ _
          | x :: l' => @List.Forall_cons _ _ x l' (json_ind' x) (go l')
          end) l)
  | JObject m => Hobj m
      ((fix go m : Forall (fun kv : str * json => P kv.2) m :=
          match m with
          | [] => @List.Forall_nil _ _
          | kv :: m' => @List.Forall_cons _ _ kv m' (json_ind' kv.2) (go m')
          end) m)
  end.
End json_ind.

#[export] Instance spec_float_eq_dec : EqDecision spec_float.
Proof. solve_decision. Defined.

#[export] Instance json_eq_dec : EqDecision json.
Proof.
  refine (fix go (x y : json) {struct x} : {x = y} + {x <> y} := _).
  destruct x as [| | | | | |l|m], y as [| | | | | |l'|m'];
    try (right; discriminate); try (left; reflexivity).
  - destruct (decide (b = b0)) as [->|]; [left; reflexivity|right; congruence].
  - destruct (decide (z = z0)) as [->|]; [left; reflexivity|right; congruence].
  - destruct (decide (z = z0)) as [->|]; [left; reflexivity|right; congruence].
  - destruct (decide (d = d0)) as [->|]; [left; reflexivity|right; congruence].
  - destruct (decide (s = s0)) as [->|]; [left; reflexivity|right; congruence].
  - assert (H : {l = l'} + {l <> l'}).
    { revert l'; induction l as [|a l IH]; intros [|a' l'];
        try (right; discriminate); [left; reflexivity|].
      destruct (go a a') as [->|]; [|right; congruence].
      destruct (IH l') as [->|]; [left; reflexivity|right; congruence]. }
    destruct H as [->|]; [left; reflexivity|right; congruence].
  - assert (H : {m = m'} + {m <> m'}).
    { revert m'; induction m as [|[k a] m IH]; intros [|[k' a'] m'];
        try (right; discriminate); [left; reflexivity|].
      destruct (decide (k = k')) as [->|]; [|right; congruence].
      destruct (go a a') as [->|]; [|right; congruence].
      destruct (IH m') as [->|]; [left; reflexivity|right; congruence]. }
    destruct H as [->|]; [left; reflexivity|right; congruence].
Defined.

(** ** Object accesses *)

Abbreviation jobject := (list (str * json)).

(** [obj.if_contains(k)], [obj.find(k)]. *)
Fixpoint obj_find (k : str) (m : jobject) : option json :=
  match m with
  | [] => None
  | (k', v) :: m' => if decide (k = k') then Some v else obj_find k m'
  end.

(** [obj[k] = v]: in place when the key is there, else appended. *)
Fixpoint obj_set (k : str) (v : json) (m : jobject) : jobject :=
  match m with
  | [] => [(k, v)]
  | (k', v') :: m' =>
      if decide (k = k') then (k', v) :: m' else (k', v') :: obj_set k v m'
  end.

Definition obj_contains (k : str) (m : jobject) : bool :=
  match obj_find k m with Some _ => true | None => false end.

(** [jv.if_object()]. *)
Definition if_object (j : json) : option jobject :=
  match j with JObject m => Some m | _ => None end.

(** Unique keys, at every level. *)
Fixpoint json_wf (j : json) : Prop :=
  match j with
  | JArray l => (fix go l := match l with [] => True | x :: l' => json_wf x /\ go l' end) l
  | JObject m =>
      NoDup (map fst m) /\
      (fix go m := match m with [] => True | kv :: m' => json_wf kv.2 /\ go m' end) m
  | _ => True
  end.

#[export] Instance json_wf_dec j : Decision (json_wf j).
Proof.
  revert j. fix go 1. intros [| | | | | |l|m]; simpl; try (left; exact I).
  - induction l as [|x l IH]; [left; exact I|]. destruct (go x); [|right; tauto].
    destruct IH; [left|right]; tauto.
  - apply and_dec; [apply _|]. induction m as [|[k x] m IH]; [left; exact I|].
    simpl. destruct (go x); [|right; tauto]. destruct IH; [left|right]; tauto.
Defined.

Lemma obj_find_set k k' v m :
  obj_find k (obj_set k' v m) = if decide (k = k') then Some v else obj_find k m.
Proof.
  induction m as [|[k0 v0] m IH]; simpl; [done|].
  repeat (case_decide; simplify_eq/=; try done).
Qed.

Lemma obj_find_set_eq k v m : obj_find k (obj_set k v m) = Some v.
Proof. rewrite obj_find_set. by case_decide. Qed.

Lemma obj_find_set_ne k k' v m : k <> k' -> obj_find k (obj_set k' v m) = obj_find k m.
Proof. intros. rewrite obj_find_set. by case_decide. Qed.

Lemma obj_find_in k m v : obj_find k m = Some v -> (k, v) ∈ m.
Proof.
  induction m as [|[k0 v0] m IH]; simpl; [done|].
  case_decide; intros; simplify_eq; set_solver.
Qed.

Lemma obj_find_None k m : obj_find k m = None <-> k ∉ map fst m.
Proof.
  induction m as [|[k0 v0] m IH]; simpl; [set_solver|].
  case_decide; set_solver.
Qed.

Lemma obj_set_keys k v m k' :
  k' ∈ map fst (obj_set k v m) <-> k' = k \/ k' ∈ map fst m.
Proof.
  induction m as [|[k0 v0] m IH]; simpl; [set_solver|].
  case_decide; simpl; set_solver.
Qed.

Lemma obj_set_NoDup k v m : NoDup (map fst m) -> NoDup (map fst (obj_set k v m)).
Proof.
  induction m as [|[k0 v0] m IH]; simpl; intros H.
  - repeat constructor; set_solver.
  - apply NoDup_cons in H as [Hk H]. case_decide; simpl; apply NoDup_cons; split; auto.
    rewrite obj_set_keys. intros [->|?]; auto.
Qed.

#[export] Hint Rewrite obj_find_set_eq : json.
#[export] Hint Rewrite obj_find_set_ne using congruence : json.
#[export] Hint Resolve obj_set_NoDup : cpp.

(** [json_wf] of an object, member by member. *)
Lemma json_wf_object m : json_wf (JObject m) <-> NoDup (map fst m) /\ forall k v, (k, v) ∈ m -> json_wf v.
Proof.
  simpl. split; intros [Hd Hm]; (split; [done|]); clear Hd.
  - induction m as [|[k v] m IH]; intros k' v' Hin; [by apply not_elem_of_nil in Hin|].
    destruct Hm as [Hv Hm]. apply elem_of_cons in Hin as [[= -> ->]|Hin]; [done|]. by eapply IH.
  - induction m as [|[k v] m IH]; [done|]. split.
    + apply (Hm k). by left.
    + apply IH. intros k' v' Hin. apply (Hm k'). by right.
Qed.

Lemma json_wf_array l : json_wf (JArray l) <-> Forall json_wf l.
Proof.
  simpl. induction l as [|x l IH]; [done|]. rewrite Forall_cons. by rewrite <- IH.
Qed.

Lemma obj_set_in k v m k' v' : (k', v') ∈ obj_set k v m -> (k', v') = (k, v) \/ (k', v') ∈ m.
Proof.
  induction m as [|[k0 v0] m IH]; simpl.
  - rewrite list_elem_of_singleton. auto.
  - case_decide as Hk.
    + subst. rewrite !elem_of_cons. intros [->|?]; auto.
    + rewrite !elem_of_cons. intros [->|Hin]; [auto|]. destruct (IH Hin); auto.
Qed.

Lemma obj_set_wf k v m : json_wf (JObject m) -> json_wf v -> json_wf (JObject (obj_set k v m)).
Proof.
  rewrite !json_wf_object. intros [Hd Hm] Hv. split; [by apply obj_set_NoDup|].
  intros k' v' Hin. apply obj_set_in in Hin as [[= -> ->]|Hin]; eauto.
Qed.

Lemma obj_find_wf k m v : json_wf (JObject m) -> obj_find k m = Some v -> json_wf v.
Proof. rewrite json_wf_object. intros [_ Hm] Hf. eapply Hm. by apply obj_find_in. Qed.

#[export] Hint Resolve obj_set_wf : cpp.

(** ** What survives being written and parsed *)

(** Well-formed UTF-8: no overlong form, no surrogate, nothing above U+10FFFF. *)
Definition byte_in (lo hi : N) (c : ascii) : bool := (lo <=? N_of_ascii c)%N && (N_of_ascii c <=? hi)%N.
Definition trail : ascii -> bool := byte_in 128 191.

Definition second_of_three (c1 c2 : ascii) : bool :=
  if byte_in 224 224 c1 then byte_in 160 191 c2
  else if byte_in 237 237 c1 then byte_in 128 159 c2
  else byte_in 225 239 c1 && trail c2.
Definition second_of_four (c1 c2 : ascii) : bool :=
  if byte_in 240 240 c1 then byte_in 144 191 c2
  else if byte_in 244 244 c1 then byte_in 128 143 c2
  else byte_in 241 243 c1 && trail c2.

Fixpoint utf8 (s : str) : bool :=
  match s with
  | [] => true
  | c1 :: s1 =>
      if byte_in 0 127 c1 then utf8 s1
      else
        match s1 with
        | [] => false
        | c2 :: s2 =>
            if byte_in 194 223 c1 then trail c2 && utf8 s2
            else
              match s2 with
              | [] => false
              | c3 :: s3 =>
                  if byte_in 224 239 c1 then second_of_three c1 c2 && trail c3 && utf8 s3
                  else
                    match s3 with
                    | [] => false
                    | c4 :: s4 => second_of_four c1 c2 && trail c3 && trail c4 && utf8 s4
                    end
              end
        end
  end.

(** Values whose text parses back: integers of 64 bits and no floating-point
    number, strings and keys in UTF-8, at most [depth] levels of arrays and
    objects. *)
Fixpoint printable (depth : nat) (j : json) {struct j} : bool :=
  match j with
  | JNull | JBool _ => true
  | JInt64 z => bool_decide (in_int64 z)
  | JUint64 z => bool_decide (in_uint64 z)
  | JDouble _ => false
  | JString s => utf8 s
  | JArray l =>
      match depth with 0 => false | S d => forallb (printable d) l end
  | JObject m =>
      match depth with 0 => false | S d => forallb (fun kv => utf8 kv.1 && printable d kv.2) m end
  end.

(** What they parse back to: an unsigned integer that fits the signed type is
    read as a signed one. *)
Fixpoint reparsed (j : json) : json :=
  match j with
  | JUint64 z => if (z <=? INT64_MAX)%Z then JInt64 z else JUint64 z
  | JArray l => JArray (map reparsed l)
  | JObject m => JObject (map (fun kv => (kv.1, reparsed kv.2)) m)
  | other => other
  end.

Definition reparsed_members (m : jobject) : jobject := map (fun kv => (kv.1, reparsed kv.2)) m.

Lemma obj_find_reparsed k m : obj_find k (reparsed_members m) = reparsed <$> obj_find k m.
Proof. induction m as [|[k' v] m IH]; simpl; [done|]. by case_decide. Qed.

Lemma reparsed_wf j : json_wf j -> json_wf (reparsed j).
Proof.
  induction j as [| | |z| | |l IH|m IH] using json_ind'; try done.
  - simpl. by case_match.
  - change (reparsed (JArray l)) with (JArray (map reparsed l)). rewrite !json_wf_array.
    intros Hl. apply Forall_map. rewrite Forall_forall in *. auto.
  - change (reparsed (JObject m)) with (JObject (reparsed_members m)). rewrite !json_wf_object.
    intros [Hd Hm]. split.
    + unfold reparsed_members. by rewrite map_map.
    + intros k v Hin. apply list_elem_of_fmap in Hin as ([k' v'] & [= -> ->] & Hin).
      rewrite Forall_forall in IH. apply (IH _ Hin). by eapply Hm.
Qed.

(** Values without unsigned integers are read back as they are. *)
Fixpoint no_uint64 (j : json) : bool :=
  match j with
  | JUint64 _ => false
  | JArray l => forallb no_uint64 l
  | JObject m => forallb (fun kv => no_uint64 kv.2) m
  | _ => true
  end.

Lemma reparsed_id j : no_uint64 j = true -> reparsed j = j.
Proof.
  induction j as [| | | | | |l IH|m IH] using json_ind'; simpl; try done; intros Hj; f_equal.
  - induction IH as [|x l Hx _ IHl]; simpl in *; [done|]. apply andb_true_iff in Hj as [??].
    by rewrite Hx, IHl.
  - induction IH as [|[k x] m Hx _ IHm]; simpl in *; [done|]. apply andb_true_iff in Hj as [??].
    by rewrite Hx, IHm.
Qed.

(** ** The part of Boost.JSON the sources only call *)

Class JsonLib := {
  (** [json::parse]: the value, or the [what()] of the exception *)
  json_parse : str -> str + json;
  (** [json::serialize] *)
  json_serialize : json -> str;
  (** [jv.to_number<int64_t>()], [<uint64_t>], [<int>] *)
  to_number_int64 : json -> str + Z;
  to_number_uint64 : json -> str + Z;
  to_number_int : json -> str + Z;
  (** [std::to_string(double)] *)
  double_to_str : spec_float -> str;
  (** [what()] of a failed access of the wrong kind ([as_string], [value_to]) *)
  bad_kind : json -> str;
  (** [what()] of [at(k)] on a missing key *)
  missing_key : str -> str;
}.

(** What is documented of it and relied on.  Integers convert exactly when in
    range, from either integer kind.  The text of a value parses, under the
    default options of the parser - 32 levels, strings in UTF-8 - to that value
    with the integers in the kind the parser picks for them, signed when they
    fit (strings and containers below their size limits, as those of any
    [json::value] are); nothing is said of floating-point numbers, which the
    default parser reads only approximately and which JSON cannot write when they
    are [NaN], of text that is no UTF-8 and of deeper values.  No text is empty, and the keys of a parsed object are
    unique. *)
Class JsonLibLaws `{JsonLib} := {
  to_number_int64_ok z : in_int64 z -> to_number_int64 (JInt64 z) = inr z;
  to_number_uint64_ok z : in_uint64 z -> to_number_uint64 (JUint64 z) = inr z;
  to_number_uint64_int64 z : (0 <= z <= INT64_MAX)%Z -> to_number_uint64 (JInt64 z) = inr z;
  to_number_int_ok z : in_int32 z -> to_number_int (JInt64 z) = inr z;
  to_number_int_range j z : to_number_int j = inr z -> in_int32 z;
  json_parse_serialize j :
    json_wf j -> printable 32 j = true -> json_parse (json_serialize j) = inr (reparsed j);
  json_serialize_nonempty j : json_serialize j <> [];
  json_parse_wf s j : json_parse s = inr j -> json_wf j;
}.

Section access.
Context `{JsonLib}.

Definition lift_std {A} (r : str + A) : throws A :=
  match r with inl w => inl (StdExn w) | inr a => inr a end.

(** [jv.as_string()], [json::value_to<std::string>(jv)]. *)
Definition as_string (j : json) : throws str :=
  match j with JString s => inr s | _ => inl (StdExn (bad_kind j)) end.
(** [json::value_to<bool>(jv)], [jv.as_bool()]. *)
Definition as_bool (j : json) : throws bool :=
  match j with JBool b => inr b | _ => inl (StdExn (bad_kind j)) end.
Definition as_object (j : json) : throws jobject :=
  match j with JObject m => inr m | _ => inl (StdExn (bad_kind j)) end.
(** [json::value_to<std::vector<T>>(jv)]. *)
Definition as_vector {A} (f : json -> throws A) (j : json) : throws (list A) :=
  match j with JArray l => map_throws f l | _ => inl (StdExn (bad_kind j)) end.
(** [obj.at(k)]. *)
Definition obj_at (k : str) (m : jobject) : throws json :=
  match obj_find k m with Some v => inr v | None => inl (StdExn (missing_key k)) end.
(** [jv.at(k)]. *)
Definition at_key (k : str) (j : json) : throws json :=
  let! m := as_object j in obj_at k m.
End access.

(** ** An instance of the interface

    A printer that satisfies [JsonLibLaws], so that the laws are consistent and
    the theorems that rely on them can be applied: the code of the value in a
    countable type, written in binary; the parser picks the kind of the integers. *)

Module BinaryJson.

Definition leaf : Type := bool + (Z + Z) + (spec_float + str).

#[export] Instance spec_float_countable : Countable spec_float.
Proof.
  refine (inj_countable'
    (fun d => match d with
              | S754_zero b => inl (inl b) | S754_infinity b => inl (inr b)
              | S754_nan => inr (inl tt) | S754_finite b p z => inr (inr (b, p, z)) end)
    (fun t => match t with
              | inl (inl b) => S754_zero b | inl (inr b) => S754_infinity b
              | inr (inl _) => S754_nan | inr (inr (b, p, z)) => S754_finite b p z end) _).
  by intros [].
Defined.

Fixpoint to_tree (j : json) : gen_tree leaf :=
  match j with
  | JNull => GenNode 0 []
  | JBool b => GenLeaf (inl (inl b))
  | JInt64 z => GenLeaf (inl (inr (inl z)))
  | JUint64 z => GenLeaf (inl (inr (inr z)))
  | JDouble d => GenLeaf (inr (inl d))
  | JString s => GenLeaf (inr (inr s))
  | JArray l => GenNode 1 (map to_tree l)
  | JObject m => GenNode 2 (map (fun kv => GenNode 0 [GenLeaf (inr (inr kv.1)); to_tree kv.2]) m)
  end.

Fixpoint of_tree (t : gen_tree leaf) : json :=
  match t with
  | GenLeaf (inl (inl b)) => JBool b
  | GenLeaf (inl (inr (inl z))) => JInt64 z
  | GenLeaf (inl (inr (inr z))) => JUint64 z
  | GenLeaf (inr (inl d)) => JDouble d
  | GenLeaf (inr (inr s)) => JString s
  | GenNode 1 l => JArray (map of_tree l)
  | GenNode 2 l =>
      JObject (map (fun t => match t with
                             | GenNode _ [GenLeaf (inr (inr k)); v] => (k, of_tree v)
                             | _ => ([], JNull)
                             end) l)
  | GenNode _ _ => JNull
  end.

Lemma of_to_tree j : of_tree (to_tree j) = j.
Proof.
  induction j as [| | | | | |l IH|m IH] using json_ind'; simpl; try done; f_equal.
  - rewrite map_map. induction IH as [|x l Hx _ IHl]; simpl; [done|]. by rewrite Hx, IHl.
  - rewrite map_map. induction IH as [|[k v] m Hx _ IHm]; simpl in *; [done|]. by rewrite Hx, IHm.
Qed.

#[export] Instance json_countable : Countable json := inj_countable' to_tree of_tree of_to_tree.

Fixpoint bits (p : positive) : str :=
  match p with
  | xH => lit "1"
  | xO p => "0"%char :: bits p
  | xI p => "1"%char :: bits p
  end.
Fixpoint unbits (s : str) : option positive :=
  match s with
  | ["1"%char] => Some xH
  | "0"%char :: s' => xO <$> unbits s'
  | "1"%char :: s' => xI <$> unbits s'
  | _ => None
  end.

Lemma unbits_bits p : unbits (bits p) = Some p.
Proof.
  induction p as [p IH|p IH|]; [|cbn; by rewrite IH|done].
  cbn [bits]. assert (unbits ("1"%char :: bits p) = xI <$> unbits (bits p)) as ->.
  { by destruct p. }
  by rewrite IH.
Qed.

Definition number (in_range : Z -> bool) (j : json) : str + Z :=
  match j with
  | JInt64 z | JUint64 z => if in_range z then inr z else inl (lit "not exact")
  | _ => inl (lit "not a number")
  end.

Definition lib : JsonLib := {|
  json_parse := fun s => match unbits s ≫= decode with
                        | Some j => if decide (json_wf j) then inr (reparsed j) else inl (lit "duplicate key")
                        | None => inl (lit "syntax error")
                        end;
  json_serialize := fun j => bits (encode j);
  to_number_int64 := number (fun z => bool_decide (in_int64 z));
  to_number_uint64 := number (fun z => bool_decide (in_uint64 z));
  to_number_int := number (fun z => bool_decide (in_int32 z));
  double_to_str := fun _ => [];
  bad_kind := fun _ => lit "wrong kind";
  missing_key := fun _ => lit "out of range";
|}.

Lemma laws : @JsonLibLaws lib.
Proof.
  split; cbn -[in_int64 in_uint64 in_int32].
  - intros z Hz. by rewrite bool_decide_true.
  - intros z Hz. by rewrite bool_decide_true.
  - intros z Hz. rewrite bool_decide_true; [done|].
    unfold in_uint64, UINT64_MAX. unfold INT64_MAX in Hz. lia.
  - intros z Hz. by rewrite bool_decide_true.
  - intros j z. destruct j; simpl; try done; case_bool_decide; intros [= <-]; done.
  - intros j Hj _. rewrite unbits_bits. cbn. rewrite decode_encode. by rewrite decide_True.
  - intros j. by destruct (encode j).
  - intros s j. destruct (unbits s); [|done]. simpl. destruct (decode _); [|done].
    case_decide; [|congruence]. intros [= <-]. by apply reparsed_wf.
Qed.
End BinaryJson.
