(* ===== verification/ResultMonad.v ===== *)
(** * Result and Error ([src/include/result_monad.hpp])

    [monad::Error], [monad::Result<T, E>] with its combinators, the aggregate
    helpers ([zip_results], [zip_results_skip_void], [all_ok],
    [collect_results]) and the renderings of an error.  The function arguments
    of the combinators are pure functions here; [Result] itself catches
    nothing. *)

From Stdlib Require Import ZArith Lia Ascii String.
From stdpp Require Import base list gmap strings.
From S2P Require Import Prelude Json.

(** ** Error *)

Record Error := mkError {
  code : Z;
  what : str;
  key : str;
  response_status : Z;
  params : jobject;
  content_type : str;
  alternative_body : option json;
}.

#[export] Instance Error_eq_dec : EqDecision Error.
Proof. solve_decision. Defined.

(** [Error err{}; err.code = code; err.what = what;] with the member
    initialisers of the struct, also the aggregate [Error{code, what}]. *)
Definition make_error (c : Z) (w : str) : Error :=
  mkError c w [] 500 [] (lit "application/json") None.

Definition make_error_key (c : Z) (w k : str) : Error :=
  mkError c w k 500 [] (lit "application/json") None.

Definition JUST_AN_ERROR : Error := make_error INT_MIN [].

(** [tag_invoke(json::value_from_tag, ...)] of [Error] and [ErrorResponse]. *)
Definition value_from_Error (e : Error) : json :=
  JObject
    (obj_set (lit "params") (JObject e.(params))
      (obj_set (lit "key") (JString e.(key))
        (obj_set (lit "what") (JString e.(what))
          (obj_set (lit "code") (JInt64 e.(code)) [])))).

Definition value_from_ErrorResponse (e : Error) : json :=
  JObject (obj_set (lit "error") (value_from_Error e) []).

Section render.
Context `{JsonLib}.

Definition nl : str := ["010"%char].

(** The plain-text part both renderings share. *)
Definition error_extra (e : Error) : str :=
  (if decide (e.(key) = []) then [] else nl ++ lit "key: " ++ e.(key)) ++
  nl ++ lit "status: " ++ z_to_str e.(response_status) ++
  (if decide (e.(params) = []) then []
   else nl ++ lit "params: " ++ json_serialize (JObject e.(params))).

Definition error_plain (e : Error) (extra : str) : str :=
  lit "code: " ++ z_to_str e.(code) ++ nl ++ lit "what: " ++ e.(what) ++ extra.

Definition error_to_string (e : Error) : str :=
  if decide (e.(content_type) = lit "application/json")
  then json_serialize (value_from_Error e)
  else error_plain e
    (error_extra e ++
     match e.(alternative_body) with
     | Some b => nl ++ lit "alt_body: " ++ json_serialize b
     | None => []
     end).

Definition error_to_response (e : Error) : str :=
  match e.(alternative_body) with
  | Some b => json_serialize b
  | None =>
      if decide (e.(content_type) = lit "application/json")
      then json_serialize (value_from_ErrorResponse e)
      else error_plain e (error_extra e)
  end.

(** [operator<<]: each part carries its [", "] unless it is the first. *)
Definition sep (first : bool) : str := if first then [] else lit ", ".

Definition print_error (e : Error) : str :=
  lit "[Error " ++ z_to_str e.(code) ++ lit "] " ++ e.(what) ++
  (if decide (e.(key) = [] /\ e.(response_status) = 0%Z /\ e.(params) = [])
   then []
   else
     let first0 := true in
     let '(p1, first1) :=
       if decide (e.(key) = []) then ([], first0)
       else (lit "key=" ++ e.(key), false) in
     let '(p2, first2) :=
       if decide (e.(response_status) = 0%Z) then ([], first1)
       else (sep first1 ++ lit "status=" ++ z_to_str e.(response_status), false) in
     let '(p3, first3) :=
       if decide (e.(params) = []) then ([], first2)
       else (sep first2 ++ lit "params=" ++ json_serialize (JObject e.(params)), false) in
     let p4 :=
       match e.(alternative_body) with
       | Some b => sep first3 ++ lit "alt_body=" ++ json_serialize b
       | None => []
       end in
     lit " (" ++ p1 ++ p2 ++ p3 ++ p4 ++ lit ")").
End render.

(** ** Result<T, E> *)

(** [std::variant<T, E> data_]. *)
Inductive Result (T E : Type) :=
  | Ok (v : T)
  | Err (e : E).
Arguments Ok {T E} v.
Arguments Err {T E} e.

#[export] Instance Result_eq_dec {T E} `{EqDecision T, EqDecision E} :
  EqDecision (Result T E).
Proof. solve_decision. Defined.

Section Result.
Context {T E : Type}.

Definition is_ok (r : Result T E) : bool := match r with Ok _ => true | Err _ => false end.
Definition is_err (r : Result T E) : bool := match r with Ok _ => false | Err _ => true end.

(** [std::get<T>(data_)]: throws [std::bad_variant_access]. *)
Definition value (r : Result T E) : throws T :=
  match r with Ok v => inr v | Err _ => inl (StdExn (lit "bad_variant_access")) end.
Definition error (r : Result T E) : throws E :=
  match r with Err e => inr e | Ok _ => inl (StdExn (lit "bad_variant_access")) end.

Definition ok_ptr (r : Result T E) : option T :=
  match r with Ok v => Some v | Err _ => None end.
Definition err_ptr (r : Result T E) : option E :=
  match r with Err e => Some e | Ok _ => None end.
Definition as_optional (r : Result T E) : option T := ok_ptr r.

Definition result_map {U} (f : T -> U) (r : Result T E) : Result U E :=
  match r with Ok v => Ok (f v) | Err e => Err e end.
Definition and_then {U} (f : T -> Result U E) (r : Result T E) : Result U E :=
  match r with Ok v => f v | Err e => Err e end.
Definition result_map_err {F} (f : E -> F) (r : Result T E) : Result T F :=
  match r with Ok v => Ok v | Err e => Err (f e) end.
Definition result_catch_then {F} (f : E -> Result T F) (r : Result T E) : Result T F :=
  match r with Err e => f e | Ok v => Ok v end.
Definition or_else (f : E -> Result T E) (r : Result T E) : Result T E :=
  match r with Err e => f e | Ok _ => r end.
Definition value_or (fallback : T) (r : Result T E) : T :=
  match r with Ok v => v | Err _ => fallback end.
Definition value_or_else (fb : unit -> T) (r : Result T E) : T :=
  match r with Ok v => v | Err _ => fb tt end.
Definition visit {R} (on_ok : T -> R) (on_err : E -> R) (r : Result T E) : R :=
  match r with Ok v => on_ok v | Err e => on_err e end.
End Result.

(** [Result<void, E>] stores [std::optional<E> error_]. *)
Record VoidResult (E : Type) := mkVoid { error_ : option E }.
Arguments mkVoid {E} error_.
Arguments error_ {E} v.

Section VoidResult.
Context {E : Type}.
Definition void_ok : VoidResult E := mkVoid None.
Definition void_err (e : E) : VoidResult E := mkVoid (Some e).
Definition void_is_ok (r : VoidResult E) : bool :=
  match r.(error_) with None => true | Some _ => false end.
Definition void_is_err (r : VoidResult E) : bool :=
  match r.(error_) with Some _ => true | None => false end.
Definition void_and_then {U} (f : unit -> Result U E) (r : VoidResult E) : Result U E :=
  match r.(error_) with None => f tt | Some e => Err e end.
Definition void_catch_then {F} (f : E -> VoidResult F) (r : VoidResult E) : VoidResult F :=
  match r.(error_) with Some e => f e | None => mkVoid None end.
Definition void_map_err {F} (f : E -> F) (r : VoidResult E) : VoidResult F :=
  match r.(error_) with Some e => mkVoid (Some (f e)) | None => mkVoid None end.
Definition void_or_else (f : E -> VoidResult E) (r : VoidResult E) : VoidResult E :=
  match r.(error_) with Some e => f e | None => r end.

(** The two classes agree: [Result<void, E>] is [Result<unit, E>]. *)
Definition void_to_result (r : VoidResult E) : Result unit E :=
  match r.(error_) with Some e => Err e | None => Ok tt end.
End VoidResult.
Arguments void_ok {E}.

Abbreviation MyResult T := (Result T Error).
Abbreviation MyVoidResult := (VoidResult Error).

(** ** Aggregates *)

(** [std::tuple<Ts...>]. *)
Fixpoint tuple_of (ts : list Type) : Type :=
  match ts with [] => unit | t :: ts' => (t * tuple_of ts')%type end.

(** The argument pack [const Result<Ts, E>&...]. *)
Fixpoint results_of (E : Type) (ts : list Type) : Type :=
  match ts with [] => unit | t :: ts' => (Result t E * results_of E ts')%type end.

Fixpoint zip_results {E} (ts : list Type) : results_of E ts -> Result (tuple_of ts) E :=
  match ts with
  | [] => fun _ => Ok tt
  | t :: ts' => fun '(r1, rest) =>
      match r1 with
      | Err e => Err e
      | Ok v1 =>
          match zip_results ts' rest with
          | Err e => Err e
          | Ok tail => Ok (v1, tail)
          end
      end
  end.

(** A pack whose members are [Result<T, E>] or [Result<void, E>]. *)
Inductive slot := SVoid | SVal (T : Type).

Fixpoint filter_void_types (ss : list slot) : list Type :=
  match ss with
  | [] => []
  | SVoid :: ss' => filter_void_types ss'
  | SVal T :: ss' => T :: filter_void_types ss'
  end.

Definition slot_result (E : Type) (s : slot) : Type :=
  match s with SVoid => VoidResult E | SVal T => Result T E end.

Fixpoint slots_of (E : Type) (ss : list slot) : Type :=
  match ss with [] => unit | s :: ss' => (slot_result E s * slots_of E ss')%type end.

Fixpoint zip_results_skip_void {E} (ss : list slot) :
    slots_of E ss -> Result (tuple_of (filter_void_types ss)) E :=
  match ss with
  | [] => fun _ => Ok tt
  | SVoid :: ss' => fun '(r1, rest) =>
      match r1.(error_) with
      | Some e => Err e
      | None =>
          match zip_results_skip_void ss' rest with
          | Err e => Err e
          | Ok tail => Ok tail
          end
      end
  | SVal T :: ss' => fun '(r1, rest) =>
      match r1 with
      | Err e => Err e
      | Ok v1 =>
          match zip_results_skip_void ss' rest with
          | Err e => Err e
          | Ok tail => Ok (v1, tail)
          end
      end
  end.

Fixpoint all_ok {E} (vs : list (VoidResult E)) : VoidResult E :=
  match vs with
  | [] => void_ok
  | v1 :: rest => match v1.(error_) with Some e => void_err e | None => all_ok rest end
  end.

(** The loop of [collect_results]: [out] is the vector built so far. *)
Fixpoint collect_loop {T E} (out : list T) (items : list (Result T E)) : Result (list T) E :=
  match items with
  | [] => Ok out
  | Err e :: _ => Err e
  | Ok v :: items' => collect_loop (out ++ [v]) items'
  end.
Definition collect_results {T E} (items : list (Result T E)) : Result (list T) E :=
  collect_loop [] items.

(** ** Lemmas *)

Lemma collect_loop_acc {T E} (items : list (Result T E)) out :
  collect_loop out items = result_map (app out) (collect_results items).
Proof.
  unfold collect_results. revert out.
  induction items as [|[v|e] items IH]; intros out; simpl; [by rewrite app_nil_r| |done].
  rewrite IH, (IH [v]). destruct (collect_loop [] items); simpl; [|done].
  by rewrite <- app_assoc.
Qed.

Lemma collect_results_cons {T E} (r : Result T E) items :
  collect_results (r :: items) =
  and_then (fun v => result_map (cons v) (collect_results items)) r.
Proof.
  destruct r as [v|e]; [|done].
  unfold collect_results at 1. simpl. by rewrite collect_loop_acc.
Qed.

(** The positions of a pack, as errors: what the skipping variants look at. *)
Fixpoint pack_errors {E} (ts : list Type) : results_of E ts -> list (option E) :=
  match ts with
  | [] => fun _ => []
  | t :: ts' => fun '(r, rest) => err_ptr r :: pack_errors ts' rest
  end.

Definition slot_error {E} (s : slot) : slot_result E s -> option E :=
  match s with SVoid => error_ | SVal T => err_ptr end.
Fixpoint slot_errors {E} (ss : list slot) : slots_of E ss -> list (option E) :=
  match ss with
  | [] => fun _ => []
  | s :: ss' => fun '(r, rest) => slot_error s r :: slot_errors ss' rest
  end.

(** The leftmost error of a pack. *)
Definition first_error {E} (l : list (option E)) : option E :=
  head (omap id l).

Lemma first_error_cons {E} (o : option E) l :
  first_error (o :: l) = match o with Some e => Some e | None => first_error l end.
Proof. by destruct o. Qed.

Lemma zip_results_error {E} (ts : list Type) (rs : results_of E ts) :
  err_ptr (zip_results ts rs) = first_error (pack_errors ts rs).
Proof.
  induction ts as [|t ts IH]; [done|]. destruct rs as [r rest]. cbn [zip_results pack_errors].
  rewrite first_error_cons. destruct r as [v|e]; simpl; [|done].
  rewrite <- IH. by destruct (zip_results ts rest).
Qed.

(** The non-void members of a pack. *)
Fixpoint drop_void {E} (ss : list slot) :
    slots_of E ss -> results_of E (filter_void_types ss) :=
  match ss with
  | [] => fun _ => tt
  | SVoid :: ss' => fun '(_, rest) => drop_void ss' rest
  | SVal T :: ss' => fun '(r, rest) => (r, drop_void ss' rest)
  end.

Lemma first_error_drop_void {E} (ss : list slot) (rs : slots_of E ss) :
  first_error (slot_errors ss rs) = None ->
  first_error (pack_errors (filter_void_types ss) (drop_void ss rs)) = None.
Proof.
  induction ss as [|[|T] ss IH]; [done| |]; destruct rs as [r rest];
    cbn [slot_errors slot_error filter_void_types drop_void pack_errors];
    rewrite ?first_error_cons; intros H; cases; auto.
Qed.

Lemma all_ok_error {E} (vs : list (VoidResult E)) :
  error_ (all_ok vs) = first_error (map error_ vs).
Proof.
  induction vs as [|v vs IH]; [done|]. simpl map. rewrite first_error_cons.
  simpl. destruct (error_ v); [done|]. apply IH.
Qed.

(** ** Properties *)

(** [collect_results] returns all the values, in order, exactly when every
    item is a success; otherwise it returns the leftmost error. *)
Theorem collect_results_correct {T E} (items : list (Result T E)) :
  match collect_results items with
  | Ok vs => items = map Ok vs
  | Err e => exists pre post, items = map Ok pre ++ Err e :: post
  end.
Proof.
  induction items as [|r items IH]; [done|].
  rewrite collect_results_cons. destruct r as [v|e]; simpl.
  - destruct (collect_results items) as [vs|e]; simpl.
    + by rewrite IH.
    + destruct IH as (pre & post & ->). by exists (v :: pre), post.
  - by exists [], items.
Qed.

(** The variant that skips void slots reports the leftmost error of the whole
    pack, void slots included, and otherwise zips the non-void slots. *)
Theorem zip_results_skip_void_erases {E} (ss : list slot) (rs : slots_of E ss) :
  zip_results_skip_void ss rs =
  match first_error (slot_errors ss rs) with
  | Some e => Err e
  | None => zip_results (filter_void_types ss) (drop_void ss rs)
  end.
Proof.
  induction ss as [|[|T] ss IH]; [done| |]; destruct rs as [r rest];
    cbn [zip_results_skip_void slot_errors slot_error filter_void_types drop_void zip_results];
    rewrite first_error_cons.
  - destruct (error_ r); [done|]. rewrite IH.
    destruct (first_error (slot_errors ss rest)); [done|].
    by destruct (zip_results _ _).
  - destruct r as [v|e]; simpl; [|done]. rewrite IH.
    by destruct (first_error (slot_errors ss rest)).
Qed.
