(* ===== verification/ResultV1.v ===== *)
(** * The first version of Result ([src/include/result_monad_backup.hpp])

    The header kept from before [result_monad.hpp] was rewritten.  Its types are
    declared as it has them, with [upgrade] into those of [ResultMonad]: the
    combinators agree, and what differs is how an error reads as plain text. *)

From Stdlib Require Import ZArith Lia Ascii String.
From stdpp Require Import base list gmap strings.
From S2P Require Import Prelude Json ResultMonad.

(** [struct WithMessage]. *)
Record WithMessage (T : Type) := mkWithMessage { wm_value : T; wm_message : str }.

Module V1.

(** ** Error

    The struct has the members of the current one. *)

Definition JUST_AN_ERROR : Error := mkError INT_MIN [] [] 500 [] (lit "application/json") None.

Definition value_from_Error (e : Error) : json :=
  JObject
    (obj_set (lit "params") (JObject e.(params))
      (obj_set (lit "key") (JString e.(key))
        (obj_set (lit "what") (JString e.(what))
          (obj_set (lit "code") (JInt64 e.(code)) [])))).
Definition value_from_ErrorResponse (e : Error) : json :=
  JObject (obj_set (lit "error") (value_from_Error e) []).

Section render.
Context `{JsonLib}.

(** [fmt::format("code: {}\nwhat: {}", e.code, e.what)]. *)
Definition plain (e : Error) : str :=
  lit "code: " ++ z_to_str e.(code) ++ ["010"%char] ++ lit "what: " ++ e.(what).

Definition error_to_string (e : Error) : str :=
  if decide (e.(content_type) = lit "application/json")
  then json_serialize (value_from_Error e) else plain e.

Definition error_to_response (e : Error) : str :=
  match e.(alternative_body) with
  | Some b => json_serialize b
  | None =>
      if decide (e.(content_type) = lit "application/json")
      then json_serialize (value_from_ErrorResponse e) else plain e
  end.

(** [operator<<]. *)
Definition print_error (e : Error) : str :=
  lit "[Error " ++ z_to_str e.(code) ++ lit "] " ++ e.(what).
End render.

(** ** Result<T, E> *)

Inductive Result (T E : Type) := Value (v : T) | Failure (e : E).
Arguments Value {T E} v.
Arguments Failure {T E} e.

Section Result.
Context {T E : Type}.
Definition is_ok (r : Result T E) : bool := match r with Value _ => true | Failure _ => false end.
Definition is_err (r : Result T E) : bool := match r with Value _ => false | Failure _ => true end.
Definition value (r : Result T E) : throws T :=
  match r with Value v => inr v | Failure _ => inl (StdExn (lit "bad_variant_access")) end.
Definition error (r : Result T E) : throws E :=
  match r with Failure e => inr e | Value _ => inl (StdExn (lit "bad_variant_access")) end.

Definition map {U} (f : T -> U) (r : Result T E) : Result U E :=
  match r with Value v => Value (f v) | Failure e => Failure e end.
Definition and_then {U} (f : T -> Result U E) (r : Result T E) : Result U E :=
  match r with Value v => f v | Failure e => Failure e end.
Definition catch_then {F} (f : E -> Result T F) (r : Result T E) : Result T F :=
  match r with Failure e => f e | Value v => Value v end.
Definition as_optional (r : Result T E) : option T :=
  match r with Value v => Some v | Failure _ => None end.
Definition map_err {F} (f : E -> F) (r : Result T E) : Result T F :=
  match r with Value v => Value v | Failure e => Failure (f e) end.
End Result.

(** ** Result<void, E> *)

Record VoidResult (E : Type) := mkVoid { error_ : option E }.
Arguments mkVoid {E} error_.
Arguments error_ {E} v.

Section VoidResult.
Context {E : Type}.
Definition void_ok : VoidResult E := mkVoid None.
Definition void_err (e : E) : VoidResult E := mkVoid (Some e).
Definition void_is_ok (r : VoidResult E) : bool := match r.(error_) with None => true | Some _ => false end.
Definition void_is_err (r : VoidResult E) : bool := match r.(error_) with Some _ => true | None => false end.
Definition void_and_then {U} (f : unit -> Result U E) (r : VoidResult E) : Result U E :=
  match r.(error_) with None => f tt | Some e => Failure e end.
Definition void_catch_then {F} (f : E -> VoidResult F) (r : VoidResult E) : VoidResult F :=
  match r.(error_) with Some e => f e | None => mkVoid None end.
Definition void_map_err {F} (f : E -> F) (r : VoidResult E) : VoidResult F :=
  match r.(error_) with Some e => mkVoid (Some (f e)) | None => mkVoid None end.
End VoidResult.
End V1.

(** ** Upgrading *)

Definition upgrade {T E} (r : V1.Result T E) : Result T E :=
  match r with V1.Value v => Ok v | V1.Failure e => Err e end.
Definition downgrade {T E} (r : Result T E) : V1.Result T E :=
  match r with Ok v => V1.Value v | Err e => V1.Failure e end.
Definition void_upgrade {E} (r : V1.VoidResult E) : VoidResult E := mkVoid (V1.error_ r).
Definition void_downgrade {E} (r : VoidResult E) : V1.VoidResult E := V1.mkVoid r.(error_).

(** A chain of combinators over one value type, in either version. *)
Inductive op (T E : Type) :=
  | OMap (f : T -> T)
  | OAndThen (f : T -> Result T E)
  | OCatchThen (f : E -> Result T E)
  | OMapErr (f : E -> E).
Arguments OMap {T E} f.
Arguments OAndThen {T E} f.
Arguments OCatchThen {T E} f.
Arguments OMapErr {T E} f.

Definition run_op {T E} (o : op T E) (r : Result T E) : Result T E :=
  match o with
  | OMap f => result_map f r
  | OAndThen f => and_then f r
  | OCatchThen f => result_catch_then f r
  | OMapErr f => result_map_err f r
  end.
Definition run_op1 {T E} (o : op T E) (r : V1.Result T E) : V1.Result T E :=
  match o with
  | OMap f => V1.map f r
  | OAndThen f => V1.and_then (fun v => downgrade (f v)) r
  | OCatchThen f => V1.catch_then (fun e => downgrade (f e)) r
  | OMapErr f => V1.map_err f r
  end.

Lemma upgrade_downgrade {T E} (r : Result T E) : upgrade (downgrade r) = r.
Proof. by destruct r. Qed.

Lemma run_op_upgrade {T E} (o : op T E) (r : V1.Result T E) : upgrade (run_op1 o r) = run_op o (upgrade r).
Proof. destruct o, r; simpl; by rewrite ?upgrade_downgrade. Qed.

(** Upgrading before or after any chain of combinators is the same, and so it is for
    the void results. *)
Lemma chain_upgrade {T E} (os : list (op T E)) (r : V1.Result T E) :
  upgrade (foldl (fun r o => run_op1 o r) r os) = foldl (fun r o => run_op o r) (upgrade r) os.
Proof. revert r. induction os as [|o os IH]; intros r; [done|]. simpl. by rewrite IH, run_op_upgrade. Qed.

Lemma void_upgrade_ops {E U F} (r : V1.VoidResult E) (f : unit -> Result U E) (g : E -> VoidResult F) (h : E -> F) :
  upgrade (V1.void_and_then (fun u => downgrade (f u)) r) = void_and_then f (void_upgrade r) /\
  void_upgrade (V1.void_catch_then (fun e => void_downgrade (g e)) r) = void_catch_then g (void_upgrade r) /\
  void_upgrade (V1.void_map_err h r) = void_map_err h (void_upgrade r).
Proof.
  destruct r as [[e|]]; unfold void_upgrade; simpl; split_and!; try done.
  - unfold void_catch_then. simpl. by destruct (g e).
  - apply upgrade_downgrade.
Qed.

(** Both versions of Result compute the same: upgrading a result before or after
    any chain of combinators gives the same, and the observers agree.  The renderings
    agree on errors with JSON content, and responses with an alternative body; in
    plain text the current ones extend the old ones, [error_to_string] by at least
    the status, so that they always differ there, and [operator<<] leaves the text
    as it was exactly when key, status and parameters are empty. *)
Theorem result_v1_agrees `{JsonLib} :
  (forall T E (os : list (op T E)) (r : V1.Result T E),
     upgrade (foldl (fun r o => run_op1 o r) r os) = foldl (fun r o => run_op o r) (upgrade r) os) /\
  (forall T E (r : V1.Result T E),
     V1.is_ok r = is_ok (upgrade r) /\ V1.value r = value (upgrade r) /\ V1.error r = error (upgrade r) /\
     V1.as_optional r = as_optional (upgrade r)) /\
  (forall e, e.(content_type) = lit "application/json" ->
     error_to_string e = V1.error_to_string e /\ error_to_response e = V1.error_to_response e) /\
  (forall e, e.(content_type) <> lit "application/json" ->
     (exists x, error_to_string e = V1.error_to_string e ++ x /\ x <> []) /\
     (e.(alternative_body) = None -> exists x, error_to_response e = V1.error_to_response e ++ x /\ x <> [])) /\
  (forall e, exists x, print_error e = V1.print_error e ++ x /\
     (x = [] <-> e.(key) = [] /\ e.(response_status) = 0%Z /\ e.(params) = [])).
Proof.
  assert (Hextra : forall e, error_extra e <> []).
  { intros e. unfold error_extra. case_decide; done. }
  split_and!.
  - intros T E. apply chain_upgrade.
  - by intros T E [].
  - intros e He. unfold error_to_string, V1.error_to_string, error_to_response, V1.error_to_response.
    rewrite !decide_True by done. done.
  - intros e He. unfold error_to_string, V1.error_to_string, error_to_response, V1.error_to_response.
    rewrite !decide_False by done. unfold error_plain, V1.plain, nl. split.
    + eexists. split; [by rewrite <- !app_assoc|]. intros Hx. apply app_eq_nil in Hx as [Hx _]. by apply (Hextra e).
    + intros ->. eexists. split; [by rewrite <- !app_assoc|]. apply Hextra.
  - intros e. unfold print_error, V1.print_error. eexists. split; [by rewrite <- !app_assoc|].
    case_decide as Hd; [done|]. split; [|done].
    repeat case_match; intros Hx; discriminate Hx.
Qed.

(** An error with plain content, and one with JSON content. *)
Definition v1_plain_error : Error := mkError 7 (lit "w") [] 500 [] (lit "text/plain") None.

Lemma result_v1_agrees_witness :
  error_to_string (H := BinaryJson.lib) (make_error 7 (lit "w")) =
    V1.error_to_string (H := BinaryJson.lib) (make_error 7 (lit "w")) /\
  error_to_response (H := BinaryJson.lib) v1_plain_error <> V1.error_to_response (H := BinaryJson.lib) v1_plain_error.
Proof.
  destruct (result_v1_agrees (H := BinaryJson.lib)) as (_ & _ & Hj & Hp & _). split.
  - apply (Hj (make_error 7 (lit "w"))). reflexivity.
  - destruct (Hp v1_plain_error) as [_ Hr]; [discriminate|]. destruct (Hr eq_refl) as (x & -> & Hx).
    intros E. apply Hx. rewrite <- (app_nil_r (V1.error_to_response v1_plain_error)) in E at 2.
    by apply app_inv_head in E.
Defined.
