(* ===== verification/Asio.v ===== *)
(** * Effects and the event loop

    Asynchronous code of the repository is written in callbacks run by a
    [boost::asio] executor.  Its body is translated to [prog], a tree of the
    effects it performs: shared cells ([std::make_shared<T>]), one-shot timers
    ([steady_timer::expires_after] + [async_wait]), posted handlers, external
    asynchronous operations, exceptions, and observable actions.  [exec] runs a
    body to its return; [step] lets the executor run one ready handler, with any
    error code the library may report.  Nothing is assumed about the order in
    which handlers become ready.

    [O] is the type of the external operations, [R] of their replies and [X] of
    the observable actions. *)

From Stdlib Require Import ZArith Lia Ascii String.
From stdpp Require Import base list gmap strings.
From S2P Require Import Prelude Json ResultMonad.

(** ** Contents of shared cells *)

Inductive val :=
  | VUnit
  | VBool (b : bool)
  | VInt (z : Z)
  | VStr (s : str)
  | VJson (j : json)
  | VError (e : Error)
  | VOk (v : val)
  | VNone
  | VSome (v : val)
  | VList (l : list val).

(** A C++ type whose values are stored in cells. *)
Class Enc (T : Type) := {
  enc : T -> val;
  dec : val -> option T;
  dec_enc x : dec (enc x) = Some x;
}.

#[export] Instance enc_unit : Enc unit.
Proof.
  refine {| enc := fun _ => VUnit;
            dec := fun v => match v with VUnit => Some tt | _ => None end |}.
  by intros [].
Defined.
#[export] Instance enc_bool : Enc bool :=
  {| enc := VBool; dec := fun v => match v with VBool b => Some b | _ => None end;
     dec_enc := fun _ => eq_refl |}.
#[export] Instance enc_Z : Enc Z :=
  {| enc := VInt; dec := fun v => match v with VInt b => Some b | _ => None end;
     dec_enc := fun _ => eq_refl |}.
#[export] Instance enc_str : Enc str :=
  {| enc := VStr; dec := fun v => match v with VStr b => Some b | _ => None end;
     dec_enc := fun _ => eq_refl |}.
#[export] Instance enc_json : Enc json :=
  {| enc := VJson; dec := fun v => match v with VJson b => Some b | _ => None end;
     dec_enc := fun _ => eq_refl |}.
#[export] Instance enc_Error : Enc Error :=
  {| enc := VError; dec := fun v => match v with VError b => Some b | _ => None end;
     dec_enc := fun _ => eq_refl |}.

#[export] Instance enc_option {T} `{Enc T} : Enc (option T).
Proof.
  refine {| enc := fun o => match o with Some x => VSome (enc x) | None => VNone end;
            dec := fun v => match v with
                            | VNone => Some None
                            | VSome v => Some <$> dec v
                            | _ => None
                            end |}.
  intros [x|]; [|done]. by rewrite dec_enc.
Defined.

#[export] Instance enc_Result {T} `{Enc T} : Enc (Result T Error).
Proof.
  refine {| enc := fun r => match r with Ok x => VOk (enc x) | Err e => VError e end;
            dec := fun v => match v with
                            | VOk v => Ok <$> dec v
                            | VError e => Some (Err e)
                            | _ => None
                            end |}.
  intros [x|]; [|done]. by rewrite dec_enc.
Defined.

#[export] Instance enc_list {T} `{Enc T} : Enc (list T) | 10.
Proof.
  refine {| enc := fun l => VList (map enc l);
            dec := fun v => match v with VList l => mapM dec l | _ => None end |}.
  intros l. induction l as [|x l IH]; [done|]. cbn. by rewrite dec_enc, IH.
Defined.

#[export] Instance enc_prod {A B} `{Enc A, Enc B} : Enc (A * B).
Proof.
  refine {| enc := fun p => VList [enc p.1; enc p.2];
            dec := fun v => match v with
                            | VList [a; b] => x ← dec a; y ← dec b; Some (x, y)
                            | _ => None
                            end |}.
  intros [a b]. simpl. by rewrite !dec_enc.
Defined.

(** A type kept as the values of another one. *)
Definition enc_via {A B} `{Enc B} (f : A -> B) (g : B -> A) (Hgf : forall x, g (f x) = x) : Enc A.
Proof.
  refine {| enc := fun x => enc (f x); dec := fun v => g <$> dec v |}.
  intros x. by rewrite dec_enc; simpl; rewrite Hgf.
Defined.

(** What a move leaves in the source object. *)
Class Movable (T : Type) := moved : T -> T.
#[export] Instance movable_unit : Movable unit := fun x => x.
#[export] Instance movable_bool : Movable bool := fun x => x.
#[export] Instance movable_Z : Movable Z := fun x => x.
#[export] Instance movable_str : Movable str := fun _ => [].
#[export] Instance movable_json : Movable json := fun _ => JNull.
#[export] Instance movable_Error : Movable Error := fun e =>
  mkError e.(code) [] [] e.(response_status) [] [] ((fun _ => JNull) <$> e.(alternative_body)).
#[export] Instance movable_Result {T E} `{Movable T, Movable E} : Movable (Result T E) :=
  fun r => match r with Ok v => Ok (moved v) | Err e => Err (moved e) end.

(** ** Programs *)

Definition loc := nat.

(** [boost::system::error_code]: success, or its [message()]. *)
Abbreviation error_code := (option str).

Inductive prog {O R X : Type} (A : Type) : Type :=
  | Ret (a : A)
  | Throw (e : exn)
  | Fault                                     (** undefined behaviour *)
  | New (v : val) (k : loc -> prog A)
  | Get (l : loc) (k : val -> prog A)
  | Put (l : loc) (v : val) (k : prog A)
  | Timer (d : Z) (h : error_code -> prog unit) (k : nat -> prog A)
  | Cancel (t : nat) (k : prog A)
  | Post (h : prog unit) (k : prog A)
  | Start (o : O) (h : R -> prog unit) (k : prog A)
  | Emit (x : X) (k : prog A).
Arguments prog O R X A : clear implicits.
Arguments Ret {O R X A} a.
Arguments Throw {O R X A} e.
Arguments Fault {O R X A}.
Arguments New {O R X A} v k.
Arguments Get {O R X A} l k.
Arguments Put {O R X A} l v k.
Arguments Timer {O R X A} d h k.
Arguments Cancel {O R X A} t k.
Arguments Post {O R X A} h k.
Arguments Start {O R X A} o h k.
Arguments Emit {O R X A} x k.

Section prog.
Context {O R X : Type}.
Abbreviation prg := (prog O R X).

Fixpoint bind {A B} (p : prg A) (f : A -> prg B) : prg B :=
  match p with
  | Ret a => f a
  | Throw e => Throw e
  | Fault => Fault
  | New v k => New v (fun l => bind (k l) f)
  | Get l k => Get l (fun v => bind (k v) f)
  | Put l v k => Put l v (bind k f)
  | Timer d h k => Timer d h (fun t => bind (k t) f)
  | Cancel t k => Cancel t (bind k f)
  | Post h k => Post h (bind k f)
  | Start o h k => Start o h (bind k f)
  | Emit x k => Emit x (bind k f)
  end.

#[export] Instance prog_ret : MRet prg := fun A a => Ret a.
#[export] Instance prog_bind : MBind prg := fun A B f p => bind p f.

(** [try { p } catch (e) { h e }] where [h] takes the exceptions it handles. *)
Fixpoint try_catch {A} (p : prg A) (h : exn -> option (prg A)) : prg A :=
  match p with
  | Ret a => Ret a
  | Throw e => match h e with Some q => q | None => Throw e end
  | Fault => Fault
  | New v k => New v (fun l => try_catch (k l) h)
  | Get l k => Get l (fun v => try_catch (k v) h)
  | Put l v k => Put l v (try_catch k h)
  | Timer d hd k => Timer d hd (fun t => try_catch (k t) h)
  | Cancel t k => Cancel t (try_catch k h)
  | Post hd k => Post hd (try_catch k h)
  | Start o hd k => Start o hd (try_catch k h)
  | Emit x k => Emit x (try_catch k h)
  end.

(** [catch (const std::exception& e)] and [catch (...)]. *)
Definition try_std {A} (p : prg A) (h : str -> prg A) : prg A :=
  try_catch p (fun e => match e with StdExn w => Some (h w) | OtherExn => None end).
Definition try_all {A} (p h : prg A) : prg A := try_catch p (fun _ => Some h).

(** The value of [p], or the exception the handler would take. *)
Definition attempt_std {A} (p : prg A) : prg (str + A) :=
  try_std (bind p (fun a => Ret (inr a))) (fun w => Ret (inl w)).
Definition attempt_all {A} (p : prg A) : prg (option A) :=
  try_all (bind p (fun a => Ret (Some a))) (Ret None).

(** Typed cells. *)
Definition new {T} `{Enc T} (x : T) : prg loc := New (enc x) Ret.
Definition read {T} `{Enc T} (l : loc) : prg T :=
  Get l (fun v => match dec v with Some x => Ret x | None => Fault end).
Definition write {T} `{Enc T} (l : loc) (x : T) : prg unit := Put l (enc x) (Ret tt).

Definition timer (d : Z) (h : error_code -> prg unit) : prg nat := Timer d h Ret.
Definition cancel (t : nat) : prg unit := Cancel t (Ret tt).
Definition post (h : prg unit) : prg unit := Post h (Ret tt).
Definition start (o : O) (h : R -> prg unit) : prg unit := Start o h (Ret tt).
Definition emit (x : X) : prg unit := Emit x (Ret tt).

(** ** The executor *)

Record world := mkWorld {
  heap : list val;
  timers : list (nat * (error_code -> prg unit));   (** waiting, by id *)
  ntimers : nat;
  ops : list (nat * (R -> prg unit));               (** outstanding, by id *)
  nops : nat;
  posted : list (prg unit);
  armed : list Z;              (** durations of the timers armed, in order *)
  started : list O;            (** operations started, in order *)
  trace : list X;              (** observable actions, in order *)
  escaped : list exn;          (** exceptions that left a handler *)
  faulted : bool;
}.

Definition world0 : world := mkWorld [] [] 0 [] 0 [] [] [] [] [] false.

Definition w_heap f w := mkWorld (f w.(heap)) w.(timers) w.(ntimers) w.(ops) w.(nops)
  w.(posted) w.(armed) w.(started) w.(trace) w.(escaped) w.(faulted).
Definition w_timer d h w := mkWorld w.(heap) (w.(timers) ++ [(w.(ntimers), h)])
  (S w.(ntimers)) w.(ops) w.(nops) w.(posted) (w.(armed) ++ [d]) w.(started)
  w.(trace) w.(escaped) w.(faulted).
Definition w_post h w := mkWorld w.(heap) w.(timers) w.(ntimers) w.(ops) w.(nops)
  (w.(posted) ++ [h]) w.(armed) w.(started) w.(trace) w.(escaped) w.(faulted).
Definition w_start o h w := mkWorld w.(heap) w.(timers) w.(ntimers)
  (w.(ops) ++ [(w.(nops), h)]) (S w.(nops)) w.(posted) w.(armed) (w.(started) ++ [o])
  w.(trace) w.(escaped) w.(faulted).
Definition w_emit x w := mkWorld w.(heap) w.(timers) w.(ntimers) w.(ops) w.(nops)
  w.(posted) w.(armed) w.(started) (w.(trace) ++ [x]) w.(escaped) w.(faulted).
Definition w_escape e w := mkWorld w.(heap) w.(timers) w.(ntimers) w.(ops) w.(nops)
  w.(posted) w.(armed) w.(started) w.(trace) (w.(escaped) ++ [e]) w.(faulted).
Definition w_fault w := mkWorld w.(heap) w.(timers) w.(ntimers) w.(ops) w.(nops)
  w.(posted) w.(armed) w.(started) w.(trace) w.(escaped) true.
Definition w_timers f w := mkWorld w.(heap) (f w.(timers)) w.(ntimers) w.(ops) w.(nops)
  w.(posted) w.(armed) w.(started) w.(trace) w.(escaped) w.(faulted).
Definition w_ops f w := mkWorld w.(heap) w.(timers) w.(ntimers) (f w.(ops)) w.(nops)
  w.(posted) w.(armed) w.(started) w.(trace) w.(escaped) w.(faulted).
Definition w_posted f w := mkWorld w.(heap) w.(timers) w.(ntimers) w.(ops) w.(nops)
  (f w.(posted)) w.(armed) w.(started) w.(trace) w.(escaped) w.(faulted).

(** How a body ends. *)
Inductive outcome (A : Type) :=
  | Returned (a : A)
  | Threw (e : exn)
  | Faulted.
#[global] Arguments Returned {A} a.
#[global] Arguments Threw {A} e.
#[global] Arguments Faulted {A}.

Fixpoint exec {A} (p : prg A) (w : world) : outcome A * world :=
  match p with
  | Ret a => (Returned a, w)
  | Throw e => (Threw e, w)
  | Fault => (Faulted, w)
  | New v k => exec (k (length w.(heap))) (w_heap (fun h => h ++ [v]) w)
  | Get l k =>
      match w.(heap) !! l with
      | Some v => exec (k v) w
      | None => (Faulted, w)
      end
  | Put l v k =>
      if decide (l < length w.(heap)) then exec k (w_heap <[l := v]> w)
      else (Faulted, w)
  | Timer d h k => exec (k w.(ntimers)) (w_timer d h w)
  | Cancel _ k => exec k w
  | Post h k => exec k (w_post h w)
  | Start o h k => exec k (w_start o h w)
  | Emit x k => exec k (w_emit x w)
  end.

(** Run a handler (or the main program) from the event loop. *)
Definition run (p : prg unit) (w : world) : world :=
  match exec p w with
  | (Returned _, w') => w'
  | (Threw e, w') => w_escape e w'
  | (Faulted, w') => w_fault w'
  end.

(** A ready handler: a timer with its error code, the reply of an operation,
    the oldest posted handler.  A cancelled timer still runs its handler, with
    any code: the cancellation may come after the expiry was queued. *)
Inductive event :=
  | EvTimer (t : nat) (ec : error_code)
  | EvOp (i : nat) (r : R)
  | EvPost.

Fixpoint take_id {B} (i : nat) (l : list (nat * B)) : option (B * list (nat * B)) :=
  match l with
  | [] => None
  | (j, b) :: l' =>
      if decide (i = j) then Some (b, l')
      else match take_id i l' with
           | Some (b', r) => Some (b', (j, b) :: r)
           | None => None
           end
  end.

Definition step (e : event) (w : world) : option world :=
  match e with
  | EvTimer t ec =>
      match take_id t w.(timers) with
      | Some (h, r) => Some (run (h ec) (w_timers (fun _ => r) w))
      | None => None
      end
  | EvOp i r =>
      match take_id i w.(ops) with
      | Some (h, l) => Some (run (h r) (w_ops (fun _ => l) w))
      | None => None
      end
  | EvPost =>
      match w.(posted) with
      | h :: l => Some (run h (w_posted (fun _ => l) w))
      | [] => None
      end
  end.

Fixpoint steps (es : list event) (w : world) : option world :=
  match es with
  | [] => Some w
  | e :: es' => match step e w with Some w' => steps es' w' | None => None end
  end.

(** ** Equations of [exec] *)

Lemma exec_bind {A B} (p : prg A) (f : A -> prg B) w :
  exec (bind p f) w =
  match exec p w with
  | (Returned a, w') => exec (f a) w'
  | (Threw e, w') => (Threw e, w')
  | (Faulted, w') => (Faulted, w')
  end.
Proof.
  revert w. induction p; intros w; simpl; auto.
  - destruct (_ !! _); auto.
  - case_decide; auto.
Qed.

Lemma exec_try_catch {A} (p : prg A) h w :
  exec (try_catch p h) w =
  match exec p w with
  | (Threw e, w') =>
      match h e with Some q => exec q w' | None => (Threw e, w') end
  | o => o
  end.
Proof.
  revert w. induction p; intros w; simpl; auto.
  - by destruct (h e).
  - destruct (_ !! _); auto.
  - case_decide; auto.
Qed.

Lemma exec_try_std {A} (p : prg A) h w :
  exec (try_std p h) w =
  match exec p w with
  | (Threw (StdExn e), w') => exec (h e) w'
  | o => o
  end.
Proof.
  unfold try_std. rewrite exec_try_catch.
  destruct (exec p w) as [[a|[e|]|] w']; done.
Qed.

Lemma exec_attempt_std {A} (p : prg A) w :
  exec (attempt_std p) w =
  match exec p w with
  | (Returned a, w') => (Returned (inr a), w')
  | (Threw (StdExn e), w') => (Returned (inl e), w')
  | (Threw OtherExn, w') => (Threw OtherExn, w')
  | (Faulted, w') => (Faulted, w')
  end.
Proof.
  unfold attempt_std. rewrite exec_try_std, exec_bind.
  destruct (exec p w) as [[a|[e|]|] w']; done.
Qed.

Lemma exec_attempt_all {A} (p : prg A) w :
  exec (attempt_all p) w =
  match exec p w with
  | (Returned a, w') => (Returned (Some a), w')
  | (Threw _, w') => (Returned None, w')
  | (Faulted, w') => (Faulted, w')
  end.
Proof.
  unfold attempt_all, try_all. rewrite exec_try_catch, exec_bind.
  destruct (exec p w) as [[a|e|] w']; done.
Qed.

Lemma exec_new {T} `{Enc T} (x : T) w :
  exec (new x) w = (Returned (length w.(heap)), w_heap (fun h => h ++ [enc x]) w).
Proof. done. Qed.

Lemma exec_read {T} `{Enc T} l (x : T) w :
  w.(heap) !! l = Some (enc x) -> exec (read l) w = (Returned x, w).
Proof. intros Hl. unfold read. simpl. by rewrite Hl, dec_enc. Qed.

Lemma exec_write {T} `{Enc T} l (x : T) w :
  (l < length w.(heap))%nat ->
  exec (write l x) w = (Returned tt, w_heap <[l := enc x]> w).
Proof. intros Hl. unfold write. simpl. by rewrite decide_True. Qed.

Lemma take_id_app {B} i (b : B) l l' :
  take_id i l = None -> take_id i (l ++ (i, b) :: l') = Some (b, l ++ l').
Proof.
  induction l as [|[j c] l IH]; simpl; intros H; [by rewrite decide_True|].
  case_decide; [done|]. destruct (take_id i l) as [[? ?]|]; [done|].
  by rewrite (IH eq_refl).
Qed.

Lemma take_id_fresh {B} i (l : list (nat * B)) :
  Forall (fun p => p.1 < i) l -> take_id i l = None.
Proof.
  induction 1 as [|[j c] l Hj Hl IH]; simpl in *; [done|].
  rewrite decide_False by lia. by rewrite IH.
Qed.

Lemma steps_app es es' w :
  steps (es ++ es') w = match steps es w with Some w' => steps es' w' | None => None end.
Proof.
  revert w; induction es as [|e es IH]; intros w; simpl; [done|].
  destruct (step e w); auto.
Qed.
End prog.
Arguments world O R X : clear implicits.
Arguments event R : clear implicits.

#[export] Hint Rewrite @exec_bind @exec_try_std @exec_attempt_std @exec_attempt_all
  @exec_new : exec.
