(* ===== verification/IoMonad.v ===== *)
(** * The IO monad ([src/include/io_monad.hpp])

    [IO<T>] wraps a thunk taking a callback.  A value of [IO T] here is what
    one run of (a copy of) the thunk does; [clone()] is a copy and needs no
    definition.  State an IO shares between copies through a [shared_ptr]
    ([pure], [from_result]) is a cell allocated when the IO is built, so those
    builders are programs.  User functions are programs: they may throw.

    A [std::function] that has been moved from is empty, and calling it throws
    [std::bad_function_call]; this is how a callback behaves after
    [std::move(cb)]. *)

From Stdlib Require Import ZArith Lia Ascii String.
From stdpp Require Import base list gmap strings.
From Stdlib Require Import FunctionalExtensionality.
From S2P Require Import Prelude Json ResultMonad Asio.

Section IO.
Context {O R X : Type}.
Abbreviation prg := (prog O R X).

Definition callback (T : Type) : Type := Result T Error -> prg unit.
Definition IO (T : Type) : Type := callback T -> prg unit.

Definition bad_function_call : prg unit := Throw (StdExn (lit "bad_function_call")).

(** ** Builders *)

Section builders.
Context {T : Type} `{Enc T} `{Movable T}.

(** [cb(IOResult::Ok(std::move( *val)))] on the shared value. *)
Definition io_pure (v : T) : prg (IO T) :=
  val ← new v;
  mret (fun cb =>
    x ← read val;
    write val (moved x);; cb (Ok x)).

Definition io_fail (e : Error) : IO T := fun cb => cb (Err e).

(** [cb(std::move( *res))] on the shared result. *)
Definition io_from_result (r : Result T Error) : prg (IO T) :=
  res ← new r;
  mret (fun cb =>
    x ← read res;
    write res (moved x);; cb x).
End builders.

(** ** Combinators of [IO<T>] *)

(** The [try] covers the call of [cb] on the mapped value as well. *)
Definition io_map {T U} (fn : T -> prg U) (prev : IO T) : IO U := fun cb =>
  prev (fun r =>
    match r with
    | Ok v =>
        try_std (u ← fn v; cb (Ok u))
                (fun w => cb (Err (make_error (-1) w)))
    | Err e => cb (Err e)
    end).

(** [run(std::move(cb))] empties [cb] before the run starts: the handler sees
    the callback intact only when [fn] itself threw. *)
Definition io_then {T U} (fn : T -> prg (IO U)) (prev : IO T) : IO U := fun cb =>
  prev (fun r =>
    match r with
    | Ok v =>
        x ← attempt_std (fn v);
        match x with
        | inl w => cb (Err (make_error (-2) w))
        | inr io => try_std (io cb) (fun _ => bad_function_call)
        end
    | Err e => cb (Err e)
    end).

Definition io_catch_then {T} (fn : Error -> prg (IO T)) (prev : IO T) : IO T := fun cb =>
  prev (fun r =>
    match r with
    | Err e =>
        x ← attempt_std (fn e);
        match x with
        | inl w => cb (Err (make_error (-3) w))
        | inr io => try_std (io cb) (fun _ => bad_function_call)
        end
    | Ok _ => cb r
    end).

(** No [try] around [fn]. *)
Definition io_map_err {T} (fn : Error -> prg Error) (prev : IO T) : IO T := fun cb =>
  prev (fun r =>
    match r with
    | Err e => e' ← fn e; cb (Err e')
    | Ok _ => cb r
    end).

Definition io_finally {T} (fn : prg unit) (prev : IO T) : IO T := fun cb =>
  prev (fun r => fn;; cb r).

(** The result and [cb] are moved into the finalizer's callback before it
    runs; [catch (...)] then finds [cb] empty unless [fn] itself threw. *)
Definition io_finally_then {T U} (fn : prg (IO U)) (prev : IO T) : IO T := fun cb =>
  prev (fun r =>
    x ← attempt_all fn;
    match x with
    | None => cb r
    | Some io => try_all (io (fun _ => cb r)) bad_function_call
    end).

(** ** The specialisation [IO<void>] *)

Definition iov_pure : IO unit := fun cb => cb (Ok tt).

Definition iov_from_result (r : Result unit Error) : prg (IO unit) :=
  res ← new r;
  mret (fun cb =>
    x ← read (T := Result unit Error) res;
    match x with
    | Ok _ => cb (Ok tt)
    | Err e => write (T := Result unit Error) res (Err (moved e));; cb (Err e)
    end).

Definition iov_map (fn : prg unit) (prev : IO unit) : IO unit := fun cb =>
  prev (fun r =>
    match r with
    | Ok _ =>
        try_std (fn;; cb (Ok tt)) (fun w => cb (Err (make_error (-1) w)))
    | Err _ => cb r
    end).

Definition iov_map_to {U} (fn : prg U) (prev : IO unit) : IO U := fun cb =>
  prev (fun r =>
    match r with
    | Ok _ =>
        try_std (value ← fn; cb (Ok value)) (fun w => cb (Err (make_error (-1) w)))
    | Err e => cb (Err e)
    end).

Definition iov_then {U} (fn : prg (IO U)) (prev : IO unit) : IO U := fun cb =>
  prev (fun r =>
    match r with
    | Ok _ =>
        x ← attempt_std fn;
        match x with
        | inl w => cb (Err (make_error (-2) w))
        | inr io => try_std (io cb) (fun _ => bad_function_call)
        end
    | Err e => cb (Err e)
    end).

Definition iov_catch_then (fn : Error -> prg (IO unit)) (prev : IO unit) : IO unit := fun cb =>
  prev (fun r =>
    match r with
    | Err e =>
        x ← attempt_std (fn e);
        match x with
        | inl w => cb (Err (make_error (-3) w))
        | inr io => try_std (io cb) (fun _ => bad_function_call)
        end
    | Ok _ => cb r
    end).

Definition iov_map_err (fn : Error -> prg Error) (prev : IO unit) : IO unit := fun cb =>
  prev (fun r =>
    match r with
    | Err e => e' ← fn e; cb (Err e')
    | Ok _ => cb r
    end).

Definition iov_finally (fn : prg unit) (prev : IO unit) : IO unit := fun cb =>
  prev (fun r => fn;; cb r).

Definition iov_finally_then {U} (fn : prg (IO U)) (prev : IO unit) : IO unit := fun cb =>
  prev (fun r =>
    x ← attempt_all fn;
    match x with
    | None => cb r
    | Some io => try_all (io (fun _ => cb r)) bad_function_call
    end).

(** ** Pairing IOs *)

(** The pack [IO<Ts>...]. *)
Fixpoint ios_of (ts : list Type) : Type :=
  match ts with [] => unit | t :: ts' => (IO t * ios_of ts')%type end.

(** [sizeof...(Ts) == 0], or the recursive call on the rest of the pack. *)
Definition zip_io_step (t : Type) (ts' : list Type)
    (zip_rest : ios_of ts' -> prg (IO (tuple_of ts')))
    (pack : IO t * ios_of ts') : prg (IO (t * tuple_of ts')) :=
  match ts' return (ios_of ts' -> prg (IO (tuple_of ts'))) -> ios_of ts' ->
                   prg (IO (t * tuple_of ts')) with
  | [] => fun _ _ => mret (io_map (fun v1 => Ret (v1, tt)) pack.1)
  | t' :: ts'' => fun zip_rest rest =>
      mret (io_then (fun v1 =>
        tail ← zip_rest rest;
        mret (io_map (fun tl : tuple_of (t' :: ts'') => Ret (v1, tl)) tail)) pack.1)
  end zip_rest pack.2.

Fixpoint zip_io (ts : list Type) : ios_of ts -> prg (IO (tuple_of ts)) :=
  match ts with
  | [] => fun _ => io_pure (T := unit) tt
  | t :: ts' => zip_io_step t ts' (zip_io ts')
  end.

Definition slot_io (s : slot) : Type :=
  match s with SVoid => IO unit | SVal T => IO T end.
Fixpoint slot_ios (ss : list slot) : Type :=
  match ss with [] => unit | s :: ss' => (slot_io s * slot_ios ss')%type end.

Definition zip_io_void_step (ss' : list slot)
    (zip_rest : slot_ios ss' -> prg (IO (tuple_of (filter_void_types ss'))))
    (pack : IO unit * slot_ios ss') : prg (IO (tuple_of (filter_void_types ss'))) :=
  match ss' return (slot_ios ss' -> prg (IO (tuple_of (filter_void_types ss')))) ->
                   slot_ios ss' -> prg (IO (tuple_of (filter_void_types ss'))) with
  | [] => fun _ _ => Ret (iov_map_to (U := unit) (Ret tt) pack.1)
  | _ :: _ => fun zip_rest rest => mret (iov_then (zip_rest rest) pack.1)
  end zip_rest pack.2.

Definition zip_io_val_step (T : Type) (ss' : list slot)
    (zip_rest : slot_ios ss' -> prg (IO (tuple_of (filter_void_types ss'))))
    (pack : IO T * slot_ios ss') : prg (IO (T * tuple_of (filter_void_types ss'))) :=
  match ss' return (slot_ios ss' -> prg (IO (tuple_of (filter_void_types ss')))) ->
                   slot_ios ss' -> prg (IO (T * tuple_of (filter_void_types ss'))) with
  | [] => fun _ _ => mret (io_map (fun v1 => Ret (v1, tt)) pack.1)
  | s' :: ss'' => fun zip_rest rest =>
      mret (io_then (fun v1 =>
        tail ← zip_rest rest;
        mret (io_map (fun tl : tuple_of (filter_void_types (s' :: ss'')) =>
                        Ret (v1, tl)) tail)) pack.1)
  end zip_rest pack.2.

Fixpoint zip_io_skip_void (ss : list slot) :
    slot_ios ss -> prg (IO (tuple_of (filter_void_types ss))) :=
  match ss with
  | [] => fun _ => io_pure (T := unit) tt
  | SVoid :: ss' => zip_io_void_step ss' (zip_io_skip_void ss')
  | SVal T :: ss' => zip_io_val_step T ss' (zip_io_skip_void ss')
  end.

(** ** Delivery *)

(** [io] calls its callback with [r] in the state [w'], and does nothing after
    it, whatever the callback does. *)
Definition answers {T} (io : IO T) (w : world O R X) (r : Result T Error)
    (w' : world O R X) : Prop :=
  forall cb, exec (io cb) w = exec (cb r) w'.

(** The same for the callbacks that return normally. *)
Definition delivers {T} (io : IO T) (w : world O R X) (r : Result T Error)
    (w' : world O R X) : Prop :=
  forall cb w'', exec (cb r) w' = (Returned tt, w'') ->
                 exec (io cb) w = (Returned tt, w'').

Lemma answers_delivers {T} (io : IO T) w r w' : answers io w r w' -> delivers io w r w'.
Proof. intros H cb w'' Hcb. by rewrite H. Qed.

Lemma exec_mbind {A B} (p : prg A) (f : A -> prg B) w :
  exec (p ≫= f) w =
  match exec p w with
  | (Returned a, w') => exec (f a) w'
  | (Threw e, w') => (Threw e, w')
  | (Faulted, w') => (Faulted, w')
  end.
Proof. apply exec_bind. Qed.

Lemma run_mbind {A} (p : prg A) (f : A -> prg unit) w a w' :
  exec p w = (Returned a, w') -> run (p ≫= f) w = run (f a) w'.
Proof. intros Hp. unfold run. by rewrite exec_mbind, Hp. Qed.

Lemma exec_mret {A} (a : A) (w : world O R X) : exec (mret a : prg A) w = (Returned a, w).
Proof. done. Qed.

(** ** Builders *)

Lemma io_fail_answers {T} (e : Error) w : answers (io_fail (T := T) e) w (Err e) w.
Proof. done. Qed.

Lemma cell_answers {T} `{Enc T} `{Movable T} {U} (k : T -> Result U Error) (x : T) w l :
  w.(heap) !! l = Some (enc x) ->
  answers (fun cb => y ← read l; write l (moved y);; cb (k y)) w (k x)
    (w_heap <[l := enc (moved x)]> w).
Proof.
  intros Hl cb. rewrite exec_mbind, (exec_read l x w Hl).
  rewrite exec_mbind, exec_write; [done|]. by eapply lookup_lt_Some.
Qed.
End IO.
Arguments IO O R X T : clear implicits.
Arguments callback O R X T : clear implicits.

#[export] Hint Rewrite @exec_mbind @exec_mret : exec.
#[export] Hint Resolve answers_delivers : cpp.

(** Symbolic execution of a body whose sub-programs are known. *)
Ltac exec_step :=
  repeat (autorewrite with exec; simpl;
          try match goal with H : exec _ _ = _ |- _ => rewrite H end; simpl).

Section properties.
Context {O R X : Type}.
Implicit Types w : world O R X.

(** The branches of [then]: a failure is passed on without running [fn]; an
    exception of [fn] becomes error -2 with its message; otherwise the IO that
    [fn] returns decides. *)
Lemma io_then_delivers {T U} (fn : T -> prog O R X (IO O R X U)) (prev : IO O R X T) w r w1 :
  delivers prev w r w1 ->
  match r with
  | Err e => delivers (io_then fn prev) w (Err e) w1
  | Ok v =>
      match exec (fn v) w1 with
      | (Returned io, w2) =>
          forall r' w3, delivers io w2 r' w3 -> delivers (io_then fn prev) w r' w3
      | (Threw (StdExn m), w2) =>
          delivers (io_then fn prev) w (Err (make_error (-2) m)) w2
      | _ => True
      end
  end.
Proof.
  intros Hp. destruct r as [v|e]; [|by intros cb w'' Hcb; apply Hp].
  destruct (exec (fn v) w1) as [[io|[m|]|] w2] eqn:Hf; try done.
  - intros r' w3 Hio cb w'' Hcb. apply Hp. exec_step. by rewrite (Hio _ _ Hcb).
  - intros cb w'' Hcb. apply Hp. exec_step. done.
Qed.

(** The branches of [map]: failure passed on, exception of [fn] as error -1,
    else the mapped value. *)
Lemma io_map_delivers {T U} (fn : T -> prog O R X U) (prev : IO O R X T) w r w1 :
  delivers prev w r w1 ->
  match r with
  | Err e => delivers (io_map fn prev) w (Err e) w1
  | Ok v =>
      match exec (fn v) w1 with
      | (Returned u, w2) => delivers (io_map fn prev) w (Ok u) w2
      | (Threw (StdExn m), w2) =>
          delivers (io_map fn prev) w (Err (make_error (-1) m)) w2
      | _ => True
      end
  end.
Proof.
  intros Hp. destruct r as [v|e]; [|by intros cb w'' Hcb; apply Hp].
  destruct (exec (fn v) w1) as [[u|[m|]|] w2] eqn:Hf; try done;
    intros cb w'' Hcb; apply Hp; exec_step; done.
Qed.

(** [catch_then]: a success is passed on without running [fn]; an exception of
    [fn] becomes error -3; otherwise the IO that [fn] returns decides. *)
Lemma io_catch_then_delivers {T} (fn : Error -> prog O R X (IO O R X T))
    (prev : IO O R X T) w r w1 :
  delivers prev w r w1 ->
  match r with
  | Ok v => delivers (io_catch_then fn prev) w (Ok v) w1
  | Err e =>
      match exec (fn e) w1 with
      | (Returned io, w2) =>
          forall r' w3, delivers io w2 r' w3 -> delivers (io_catch_then fn prev) w r' w3
      | (Threw (StdExn m), w2) =>
          delivers (io_catch_then fn prev) w (Err (make_error (-3) m)) w2
      | _ => True
      end
  end.
Proof.
  intros Hp. destruct r as [v|e]; [by intros cb w'' Hcb; apply Hp|].
  destruct (exec (fn e) w1) as [[io|[m|]|] w2] eqn:Hf; try done.
  - intros r' w3 Hio cb w'' Hcb. apply Hp. exec_step. by rewrite (Hio _ _ Hcb).
  - intros cb w'' Hcb. apply Hp. exec_step. done.
Qed.

(** [finally_then] delivers the original result after the finalizer has run,
    whatever the finalizer answers and whatever [fn] throws. *)
Lemma io_finally_then_delivers {T U} (fn : prog O R X (IO O R X U))
    (prev : IO O R X T) w r w1 :
  delivers prev w r w1 ->
  match exec fn w1 with
  | (Returned io, w2) =>
      forall r' w3, delivers io w2 r' w3 -> delivers (io_finally_then fn prev) w r w3
  | (Threw _, w2) => delivers (io_finally_then fn prev) w r w2
  | (Faulted, _) => True
  end.
Proof.
  intros Hp. destruct (exec fn w1) as [[io|x|] w2] eqn:Hf; try done.
  - intros r' w3 Hio cb w'' Hcb. apply Hp. exec_step. unfold try_all.
    by rewrite exec_try_catch, (Hio _ w'' Hcb).
  - intros cb w'' Hcb. apply Hp. exec_step. done.
Qed.

(** What each combinator delivers when [prev] delivers [r]. *)
Definition then_spec {T U} (fn : T -> prog O R X (IO O R X U)) (io' : IO O R X U)
    w (r : Result T Error) w1 : Prop :=
  match r with
  | Err e => delivers io' w (Err e) w1
  | Ok v =>
      match exec (fn v) w1 with
      | (Returned io, w2) => forall r' w3, delivers io w2 r' w3 -> delivers io' w r' w3
      | (Threw (StdExn m), w2) => delivers io' w (Err (make_error (-2) m)) w2
      | _ => True
      end
  end.

Definition map_spec {T U} (fn : T -> prog O R X U) (io' : IO O R X U)
    w (r : Result T Error) w1 : Prop :=
  match r with
  | Err e => delivers io' w (Err e) w1
  | Ok v =>
      match exec (fn v) w1 with
      | (Returned u, w2) => delivers io' w (Ok u) w2
      | (Threw (StdExn m), w2) => delivers io' w (Err (make_error (-1) m)) w2
      | _ => True
      end
  end.

Definition catch_spec {T} (fn : Error -> prog O R X (IO O R X T)) (io' : IO O R X T)
    w (r : Result T Error) w1 : Prop :=
  match r with
  | Ok v => delivers io' w (Ok v) w1
  | Err e =>
      match exec (fn e) w1 with
      | (Returned io, w2) => forall r' w3, delivers io w2 r' w3 -> delivers io' w r' w3
      | (Threw (StdExn m), w2) => delivers io' w (Err (make_error (-3) m)) w2
      | _ => True
      end
  end.

Definition finally_spec {T U} (fn : prog O R X (IO O R X U)) (io' : IO O R X T)
    w (r : Result T Error) w1 : Prop :=
  match exec fn w1 with
  | (Returned io, w2) => forall r' w3, delivers io w2 r' w3 -> delivers io' w r w3
  | (Threw _, w2) => delivers io' w r w2
  | (Faulted, _) => True
  end.

(** C24: the branches of [then], [map], [catch_then] and [finally_then].  A result a
    combinator does not handle is passed on without running the user
    function; an exception of the user function becomes error -2, -1 or -3
    with its message ([finally_then] swallows it); otherwise the IO the
    function returns decides, except that [finally_then] delivers the original
    result whatever the finalizer answers. *)
Theorem io_combinators_correct {T U} (prev : IO O R X T) w r w1 :
  delivers prev w r w1 ->
  (forall fn : T -> prog O R X (IO O R X U), then_spec fn (io_then fn prev) w r w1) /\
  (forall fn : T -> prog O R X U, map_spec fn (io_map fn prev) w r w1) /\
  (forall fn, catch_spec fn (io_catch_then fn prev) w r w1) /\
  (forall fn : prog O R X (IO O R X U), finally_spec fn (io_finally_then fn prev) w r w1).
Proof.
  intros H. split_and!; intros fn.
  - exact (io_then_delivers fn prev w r w1 H).
  - exact (io_map_delivers fn prev w r w1 H).
  - exact (io_catch_then_delivers fn prev w r w1 H).
  - exact (io_finally_then_delivers fn prev w r w1 H).
Qed.

(** When the thunk of the IO returned by [fn] throws, [then] does not report
    error -2: the callback has been moved away, is never called, and
    [bad_function_call] leaves the handler. *)
Theorem io_then_thunk_throw_loses_callback {T U} (fn : T -> prog O R X (IO O R X U))
    (prev : IO O R X T) w v w1 io w2 m w3 cb :
  answers prev w (Ok v) w1 ->
  exec (fn v) w1 = (Returned io, w2) ->
  exec (io cb) w2 = (Threw (StdExn m), w3) ->
  exec (io_then fn prev cb) w = (Threw (StdExn (lit "bad_function_call")), w3).
Proof.
  intros Hp Hf Hio. unfold io_then. rewrite Hp. exec_step. done.
Qed.

(** The [try] of [map] also covers the call of the callback: a callback that
    throws on the mapped value is called again, with error -1. *)
Theorem io_map_throwing_callback_called_again {T U} (fn : T -> prog O R X U)
    (prev : IO O R X T) w v w1 u w2 cb m w3 :
  answers prev w (Ok v) w1 ->
  exec (fn v) w1 = (Returned u, w2) ->
  exec (cb (Ok u)) w2 = (Threw (StdExn m), w3) ->
  exec (io_map fn prev cb) w = exec (cb (Err (make_error (-1) m))) w3.
Proof.
  intros Hp Hf Hcb. unfold io_map. rewrite Hp. exec_step. done.
Qed.

(** [IO::pure] hands out its value once: every later run of it, or of a clone
    of it, delivers what a move leaves behind. *)
Theorem io_pure_second_run_moved {T} `{Enc T} `{Movable T} (v : T) w :
  exists io w1 w2 w3,
    exec (io_pure v) w = (Returned io, w1) /\ answers io w1 (Ok v) w2 /\ answers io w2 (Ok (moved v)) w3.
Proof.
  set (l := length w.(heap)).
  set (w1 := w_heap (fun h => h ++ [enc v]) w).
  assert (Hl : w1.(heap) !! l = Some (enc v)) by (apply list_lookup_middle; done).
  eexists _, w1, (w_heap <[l := enc (moved v)]> w1), _.
  split; [reflexivity|]. split; [exact (cell_answers Ok v w1 l Hl)|].
  apply (cell_answers Ok). simpl. apply list_lookup_insert_eq.
  rewrite length_app. simpl. lia.
Qed.

(** The specialisation [IO<void>] behaves as the primary template at a
    one-value type, combinator by combinator. *)
Theorem io_void_specialisation_agrees {U} (fn : prog O R X unit) (gn : prog O R X (IO O R X U))
    (hn : Error -> prog O R X (IO O R X unit)) (en : Error -> prog O R X Error)
    (prev : IO O R X unit) :
  iov_map fn prev = io_map (fun _ => fn) prev /\
  iov_then gn prev = io_then (fun _ => gn) prev /\
  iov_catch_then hn prev = io_catch_then hn prev /\
  iov_map_err en prev = io_map_err en prev /\
  iov_finally fn prev = io_finally fn prev /\
  iov_finally_then gn prev = io_finally_then gn prev.
Proof.
  repeat split; extensionality cb; unfold iov_map, io_map; f_equal;
    extensionality r; destruct r as [[]|e]; [|done].
  f_equal. f_equal. extensionality u. by destruct u.
Qed.
End properties.

(** ** Packs *)

Section zip.
Context {O R X : Type}.
Implicit Types w : world O R X.

(** Running a pack left to right up to the first failure. *)
Fixpoint pack_delivers (ts : list Type) :
    ios_of (O := O) (R := R) (X := X) ts ->
    world O R X -> Result (tuple_of ts) Error -> world O R X -> Prop :=
  match ts with
  | [] => fun _ w r w' => r = Ok tt /\ w' = w
  | t :: ts' => fun pack w r w' =>
      (exists e, delivers pack.1 w (Err e) w' /\ r = Err e) \/
      (exists v w1 r', delivers pack.1 w (Ok v) w1 /\
         pack_delivers ts' pack.2 w1 r' w' /\ r = result_map (pair v) r')
  end.

Lemma map_pair_delivers {T U} (v : U) (io : IO O R X T) w r w1 :
  delivers io w r w1 ->
  delivers (io_map (fun tl => Ret (v, tl)) io) w (result_map (pair v) r) w1.
Proof.
  intros H. pose proof (io_map_delivers (fun tl => Ret (v, tl)) io w r w1 H) as Hm.
  by destruct r.
Qed.

(** [zip_io] of a non-empty pack runs the IOs left to right, stops at the
    first failure and returns it, and otherwise returns the tuple in order. *)
Theorem zip_io_correct t ts (pack : ios_of (t :: ts)) w r w' :
  pack_delivers (t :: ts) pack w r w' ->
  exists io, exec (zip_io (t :: ts) pack) w = (Returned io, w) /\ delivers io w r w'.
Proof.
  revert t w r w' pack. induction ts as [|t' ts IH]; intros t w r w' [io rest] H.
  - exists (io_map (fun v1 => Ret (v1, tt)) io). split; [reflexivity|].
    destruct H as [(e & Hio & ->)|(v & w1 & r' & Hio & [-> ->] & ->)];
      exact (io_map_delivers (fun v1 => Ret (v1, tt)) io _ _ _ Hio).
  - eexists; split; [reflexivity|].
    destruct H as [(e & Hio & ->)|(v & w1 & r' & Hio & Hr & ->)]; cbn [fst snd] in *.
    + exact (io_then_delivers _ io _ _ _ Hio).
    + destruct (IH _ _ _ _ _ Hr) as (tl & Htl & Hd).
      pose proof (io_then_delivers (fun v1 => zip_io (t' :: ts) rest ≫= fun tail =>
        mret (io_map (fun tl => Ret (v1, tl)) tail)) io _ _ _ Hio) as Hthen.
      cbv beta iota in Hthen. rewrite exec_mbind, Htl in Hthen.
      apply Hthen. by apply map_pair_delivers.
Qed.
End zip.

(** ** Witnesses *)

(** A plain world to run closed IOs in. *)
Abbreviation W := (world unit unit Z).

Lemma io_combinators_correct_witness :
  then_spec (fun v : Z => Ret (io_fail (T := Z) (make_error 7 [])))
    (io_then (fun v : Z => Ret (io_fail (make_error 7 []))) (fun cb => cb (Ok 5%Z)))
    (world0 : W) (Ok 5%Z) world0 /\
  exec (io_then (T := Z) (fun v => Ret (io_fail (T := Z) (make_error 7 []))) (fun cb => cb (Ok 5%Z))
          (fun r => Emit (if is_ok r then 0 else 1)%Z (Ret tt))) (world0 : W)
  = (Returned tt, w_emit 1%Z world0).
Proof.
  split; [|reflexivity].
  apply (io_combinators_correct (U := Z) (fun cb => cb (Ok 5%Z))).
  intros cb w'' H. exact H.
Defined.

Lemma io_then_thunk_throw_loses_callback_witness :
  exec (io_then (T := Z) (U := Z) (fun v => Ret (fun _ => Throw (StdExn (lit "boom"))))
          (fun cb => cb (Ok 5%Z)) (fun r => Emit 1%Z (Ret tt))) (world0 : W)
  = (Threw (StdExn (lit "bad_function_call")), world0).
Proof.
  apply (io_then_thunk_throw_loses_callback _ _ world0 5%Z world0
    (fun _ => Throw (StdExn (lit "boom"))) world0 (lit "boom") world0);
    first [reflexivity | intros cb; reflexivity].
Defined.

Lemma io_map_throwing_callback_called_again_witness :
  exec (io_map (T := Z) (fun v => Ret (v + 1)%Z) (fun cb => cb (Ok 5%Z))
          (fun r => Emit 1%Z (if is_ok r then Throw (StdExn []) else Ret tt))) (world0 : W)
  = (Returned tt, w_emit 1%Z (w_emit 1%Z world0)).
Proof.
  rewrite (io_map_throwing_callback_called_again (fun v => Ret (v + 1)%Z) _ world0 5%Z
    world0 6%Z world0 _ [] (w_emit 1%Z world0));
    first [reflexivity | intros cb; reflexivity].
Defined.

Lemma zip_io_correct_witness :
  exists io, exec (zip_io [(Z : Type); (bool : Type)] (fun cb => cb (Ok 5%Z), (fun cb => cb (Ok true), tt))) (world0 : W)
             = (Returned io, world0) /\
    delivers io world0 (Ok (5%Z, (true, tt))) world0.
Proof.
  apply (zip_io_correct Z [(bool : Type)]).
  right. exists 5%Z, world0, (Ok (true, tt)). split; [intros cb w'' H; exact H|].
  split; [|reflexivity].
  right. exists true, world0, (Ok tt). split; [intros cb w'' H; exact H|].
  split; [split; reflexivity|reflexivity].
Defined.
