(* ===== verification/IoLaws.v ===== *)
(** * Laws of the IO combinators ([src/include/io_monad.hpp])

    Which rewritings of a chain of combinators change nothing.  The laws are
    equations between IOs, so they hold in every context: under every schedule, in
    the middle of longer chains, with user functions that throw.  They are proved on
    the trees of effects themselves.  The law that fails is stated too: [map] calls
    the callback inside its [try], so maps cannot be merged for callbacks that
    throw. *)

From Stdlib Require Import ZArith Lia Ascii String.
From stdpp Require Import base list gmap strings.
From Stdlib Require Import FunctionalExtensionality.
From S2P Require Import Prelude Json ResultMonad Asio IoMonad.

Section trees.
Context {O R X : Type}.
Abbreviation prg := (prog O R X).

Lemma bind_bind {A B C} (p : prg A) (f : A -> prg B) (g : B -> prg C) :
  bind (bind p f) g = bind p (fun a => bind (f a) g).
Proof.
  induction p; simpl; try done; try (f_equal; by auto);
    f_equal; extensionality y; auto.
Qed.

Lemma bind_ret {A} (p : prg A) : bind p Ret = p.
Proof. induction p; simpl; try done; try (f_equal; by auto); f_equal; extensionality y; auto. Qed.

(** What [attempt_std] gives for a body that ends by applying a total function. *)
Lemma attempt_std_map {A C} (p : prg A) {B} (h : A -> B) (k : str + B -> prg C) :
  bind (attempt_std (bind p (fun a => Ret (h a)))) k =
  bind (attempt_std p) (fun x => k (match x with inl w => inl w | inr a => inr (h a) end)).
Proof.
  unfold attempt_std, try_std. revert B h k. induction p; intros B g kk; simpl; try done;
    [by destruct e|..]; f_equal; try (extensionality y); auto.
Qed.
End trees.

Section laws.
Context {O R X : Type}.
Abbreviation prg := (prog O R X).
Abbreviation IO := (IO O R X).

(** The IO that has its value already. *)
Definition io_value {T} (v : T) : IO T := fun cb => cb (Ok v).

(** Two IOs that run the same IO first are equal when they give it the same callback. *)
Local Ltac same_callback r :=
  let cb := fresh "cb" in
  extensionality cb; unfold io_then, io_catch_then, io_map_err, io_finally; f_equal;
  extensionality r; unfold mbind, prog_bind, mret, prog_ret.

(** C25: Chains of combinators can be regrouped: [then] is associative, exceptions
    thrown by the user functions included; a failed IO goes through [then] and [map]
    untouched, and a value through [catch_then]; successive [map_err]s and successive
    [finally]s are one, and a [map_err] or a [finally] that does nothing can be
    dropped. *)
Theorem io_combinator_laws {T U V} (m : IO T) (f : T -> prg (IO U)) (g : U -> prg (IO V))
    (h : Error -> prg (IO T)) (e : Error) (x y : Error -> prg Error) (p q : prg unit) :
  io_then g (io_then f m) = io_then (fun v => io ← f v; mret (io_then g io)) m /\
  io_then f (io_fail e) = io_fail e /\
  (forall fn : T -> prg U, io_map fn (io_fail e) = io_fail e) /\
  (forall v : T, io_catch_then h (io_value v) = io_value v) /\
  io_map_err y (io_map_err x m) = io_map_err (fun e => e' ← x e; y e') m /\
  io_finally q (io_finally p m) = io_finally (p;; q) m /\
  io_map_err mret m = m /\ io_finally (mret tt) m = m.
Proof.
  split_and!.
  - same_callback r. destruct r as [v|e0]; [|done]. rewrite attempt_std_map. f_equal.
    extensionality z. by destruct z.
  - done.
  - done.
  - done.
  - same_callback r. destruct r as [v|e0]; [done|]. by rewrite bind_bind.
  - same_callback r. by rewrite bind_bind.
  - same_callback r. by destruct r.
  - done.
Qed.

(** [catch_then] is not associative: a handler that throws hands error -3 to the next
    handler, which a nested handler never sees. *)
Lemma catch_then_handler_throws {T} (e : Error) (w : str) (h' : Error -> prg (IO T)) :
  io_catch_then h' (io_catch_then (fun _ => Throw (StdExn w)) (io_fail e)) =
    io_catch_then h' (io_fail (make_error (-3) w)) /\
  io_catch_then (fun e => io ← Throw (StdExn w); mret (io_catch_then h' io)) (io_fail e) =
    io_fail (make_error (-3) w).
Proof. done. Qed.

(** Maps, the last one applied last, over pure functions. *)
Fixpoint io_maps {T} (fs : list (T -> T)) (m : IO T) : IO T :=
  match fs with [] => m | f :: fs' => io_maps fs' (io_map (fun v => mret (f v)) m) end.

(** A callback that throws once it has been told the result. *)
Definition tell_and_throw {T} (tell : Result T Error -> X) (what : str) : callback O R X T :=
  fun r => emit (tell r);; Throw (StdExn what).

(** The callback of the innermost of [n] maps, by what it tells before it throws. *)
Definition told_and_threw {T} (tell : Result T Error -> X) (what : str) (f : T -> T) (n : nat)
    (cb : callback O R X T) : Prop :=
  forall r w, exec (cb r) w =
    (Threw (StdExn what),
     match r with
     | Ok v => foldl (fun w x => w_emit x w) w (tell (Ok (f v)) :: replicate n (tell (Err (make_error (-1) what))))
     | Err e => w_emit (tell (Err e)) w
     end).

Lemma told_map {T} (tell : Result T Error -> X) what (f g : T -> T) n (m : IO T) cb :
  told_and_threw tell what f n cb ->
  exists cb', told_and_threw tell what (fun v => f (g v)) (S n) cb' /\
    io_map (fun v => mret (g v)) m cb = m cb'.
Proof.
  intros Hcb. eexists. split; [|reflexivity]. intros [v|e] w; [|by rewrite Hcb].
  rewrite exec_try_std. unfold mret, mbind, prog_bind, prog_ret. cbn [bind]. rewrite Hcb, Hcb.
  f_equal. rewrite replicate_S_end, app_comm_cons, foldl_app. reflexivity.
Qed.

(** A callback that throws at the end of a chain of maps is called once for the
    value and once more for every map: each [map] takes the callback's exception for
    one of its function and reports it as error -1 to the callback again.  So maps
    cannot be merged under callbacks that throw. *)
Theorem throwing_callback_called_per_map {T} (tell : Result T Error -> X) what (fs : list (T -> T)) (m : IO T)
    v w w1 :
  answers m w (Ok v) w1 ->
  exec (io_maps fs m (tell_and_throw tell what)) w =
    (Threw (StdExn what),
     foldl (fun w x => w_emit x w) w1
       (tell (Ok (foldl (fun v f => f v) v fs)) :: replicate (length fs) (tell (Err (make_error (-1) what))))).
Proof.
  intros Hm.
  assert (Hall : forall fs (m : IO T), exists cb',
    told_and_threw tell what (fun v => foldl (fun v f => f v) v fs) (length fs) cb' /\
    io_maps fs m (tell_and_throw tell what) = m cb').
  { clear. induction fs as [|f fs IH]; intros m.
    - eexists. split; [|reflexivity]. intros [v|e] w; reflexivity.
    - destruct (IH (io_map (fun v => mret (f v)) m)) as (cb & Hcb & E).
      destruct (told_map tell what _ f (length fs) m cb Hcb) as (cb' & Hcb' & E').
      exists cb'. split; [exact Hcb'|]. cbn [io_maps]. by rewrite E, E'. }
  destruct (Hall fs m) as (cb' & Hcb' & ->). by rewrite (Hm cb'), Hcb'.
Qed.
End laws.

(** One map: told the value, then error -1. *)
Lemma throwing_callback_called_per_map_witness :
  exec (io_maps [(fun v => v + 1); (fun v => v * 2)]%Z (fun cb => cb (Ok 5%Z))
          (tell_and_throw (fun r => if is_ok r then 0 else 1)%Z (lit "boom"))) (world0 : W) =
  (Threw (StdExn (lit "boom")), w_emit 1%Z (w_emit 1%Z (w_emit 0%Z world0))).
Proof.
  rewrite (throwing_callback_called_per_map _ _ _ _ 5%Z world0 world0); [reflexivity|].
  intros cb. reflexivity.
Defined.
