(* ===== verification/IoTimer.v ===== *)
(** * Timers over IO ([src/include/io_monad.hpp]: timeout, delay, delay_for)

    The overloads on [io_context&] and on [any_io_executor] have the same body;
    so have those of [IO<T>] and [IO<void>].  Each is defined once and the
    overloads refer to it. *)

From Stdlib Require Import ZArith Lia Ascii String.
From stdpp Require Import base list gmap strings.
From S2P Require Import Prelude Json ResultMonad Asio IoMonad.

Definition timer_error (msg : str) : Error := make_error 1 (lit "Timer error: " ++ msg).
Definition timed_out : Error := make_error 2 (lit "Operation timed out").

Section timers.
Context {O R X : Type}.
Abbreviation prg := (prog O R X).
Abbreviation IO := (IO O R X).

Definition io_timeout {T} (duration : Z) (self : IO T) : IO T := fun cb =>
  fired ← new false;
  t ← timer duration (fun ec =>
    f ← read fired;
    if (f : bool) then mret tt else
    write fired true;;
    match ec with
    | None => cb (Err timed_out)
    | Some _ => mret tt
    end);
  self (fun r =>
    f ← read fired;
    if (f : bool) then mret tt else
    write fired true;;
    cancel t;;
    cb r).

Definition io_timeout_ex {T} (duration : Z) (self : IO T) : IO T := io_timeout duration self.
Definition iov_timeout (duration : Z) (self : IO unit) : IO unit := io_timeout duration self.
Definition iov_timeout_ex (duration : Z) (self : IO unit) : IO unit := io_timeout duration self.

Definition io_delay {T} `{Enc T} `{Movable T} (duration : Z) (self : IO T) : IO T := fun cb =>
  result ← new (T := option (Result T Error)) None;
  delivered ← new false;
  timer_fired ← new false;
  (** [cb(std::move( **result))] *)
  let deliver : prg unit :=
    r ← read (T := option (Result T Error)) result;
    match r with
    | Some r =>
        write delivered true;;
        write result (Some (moved r));;
        cb r
    | None => Fault
    end in
  _ ← timer duration (fun ec =>
    d ← read delivered;
    if (d : bool) then mret tt else
    match ec with
    | Some msg => write delivered true;; cb (Err (timer_error msg))
    | None =>
        write timer_fired true;;
        r ← read (T := option (Result T Error)) result;
        match r with Some _ => deliver | None => mret tt end
    end);
  self (fun r =>
    d ← read delivered;
    if (d : bool) then mret tt else
    write result (Some r);;
    tf ← read timer_fired;
    if (tf : bool) then deliver else mret tt).

Definition io_delay_ex {T} `{Enc T} `{Movable T} (duration : Z) (self : IO T) : IO T :=
  io_delay duration self.
Definition iov_delay (duration : Z) (self : IO unit) : IO unit := io_delay duration self.
Definition iov_delay_ex (duration : Z) (self : IO unit) : IO unit := io_delay duration self.

(** [delay_for<T>]: [default] is [T{}]. *)
Definition delay_for {T} (default : T) (duration : Z) : IO T := fun cb =>
  _ ← timer duration (fun ec =>
    match ec with
    | Some msg => cb (Err (timer_error msg))
    | None => cb (Ok default)
    end);
  mret tt.

Definition delay_then {T} (duration : Z) (v : T) : IO T :=
  iov_map_to (Ret v) (delay_for tt duration).

(** The free function [delay(io, ioc, duration)]. *)
Definition delay_io {T} (io : IO T) (duration : Z) : IO T :=
  iov_then (Ret io) (delay_for tt duration).
End timers.

(** ** An IO that waits for one external operation *)

Section op.
Context {T : Type}.
Abbreviation wrld := (world nat (Result T Error) (Result T Error)).

(** The operation [o]; its reply is the result. *)
Definition io_op (o : nat) : IO nat (Result T Error) (Result T Error) T := start o.

(** Run [io] to its return from the empty world; its callback records what it
    is given. *)
Definition launch (io : IO nat (Result T Error) (Result T Error) T) : wrld :=
  run (io emit) world0.

(** What [timeout] delivers under a sequence of ready handlers: the first
    handler decides. *)
Definition timeout_spec (es : list (event (Result T Error))) : list (Result T Error) :=
  match es with
  | EvTimer _ None :: _ => [Err timed_out]
  | EvTimer _ (Some _) :: _ => []
  | EvOp _ r :: _ => [r]
  | _ => []
  end.

Definition delay_spec (es : list (event (Result T Error))) : list (Result T Error) :=
  match es with
  | EvTimer _ (Some msg) :: _ => [Err (timer_error msg)]
  | EvOp _ r :: EvTimer _ None :: _ => [r]
  | EvOp _ r :: EvTimer _ (Some msg) :: _ => [Err (timer_error msg)]
  | EvTimer _ None :: EvOp _ r :: _ => [r]
  | _ => []
  end.

(** Case analysis on the events that find a handler; the schedule is run up to
    them. *)
Ltac run_event H e :=
  let t := fresh "t" in let i := fresh "i" in let m := fresh "m" in
  let v := fresh "v" in
  destruct e as [[|t] [m|]|[|i] [v|m]|]; cbv -[dec enc moved] in H; try discriminate H;
  repeat (rewrite dec_enc in H; cbv -[dec enc moved] in H); try discriminate H.
Ltac run_events H es :=
  let e := fresh "e" in let e' := fresh "e" in let e'' := fresh "e" in
  destruct es as [|e es]; [|run_event H e; (destruct es as [|e' es];
    [|run_event H e'; (destruct es as [|e'' es]; [|run_event H e''])])];
  cbv -[dec enc moved] in H; injection H as <-; repeat split; cbn; auto; try lia.

(** C26: Whatever handlers the executor runs and in whatever order, [timeout]
    delivers at most one result, the one of the first handler to run: the
    reply of the operation, or error 2 when the timer expires first.  When the
    wait is aborted first, nothing is delivered, not even a later reply. *)
Theorem io_timeout_first_handler_decides d o es w :
  steps es (launch (io_timeout d (io_op o))) = Some w ->
  w.(trace) = timeout_spec es /\ (length w.(trace) <= 1)%nat /\
  w.(faulted) = false /\ w.(armed) = [d] /\ w.(started) = [o].
Proof.
  intros H. run_events H es.
Qed.

(** [delay] delivers at most once: the reply once both the reply and the
    expiry have arrived, in either order, or the timer error as soon as the
    wait fails, dropping a reply that had already arrived. *)
Theorem io_delay_waits_for_both `{Enc T} `{Movable T} d o es w :
  steps es (launch (io_delay d (io_op o))) = Some w ->
  w.(trace) = delay_spec es /\ (length w.(trace) <= 1)%nat /\ w.(faulted) = false.
Proof.
  intros Hs. run_events Hs es.
Qed.
End op.

(** The reply arrives before the timer. *)
Definition timeout_demo : list (event (Result Z Error)) :=
  [EvOp 0 (Ok 5%Z); EvTimer 0 (Some (lit "aborted"))].
Definition timeout_demo_world : world nat (Result Z Error) (Result Z Error) :=
  default world0 (steps timeout_demo (launch (io_timeout 100 (io_op 7)))).

Lemma io_timeout_first_handler_decides_witness : timeout_demo_world.(trace) = [Ok 5%Z].
Proof.
  apply (io_timeout_first_handler_decides (T := Z) 100 7 timeout_demo timeout_demo_world).
  vm_compute. reflexivity.
Defined.

Definition delay_demo : list (event (Result Z Error)) := [EvTimer 0 None; EvOp 0 (Ok 5%Z)].
Definition delay_demo_world : world nat (Result Z Error) (Result Z Error) :=
  default world0 (steps delay_demo (launch (io_delay 100 (io_op 7)))).

Lemma io_delay_waits_for_both_witness : delay_demo_world.(trace) = [Ok 5%Z].
Proof.
  apply (io_delay_waits_for_both (T := Z) 100 7 delay_demo delay_demo_world).
  vm_compute. reflexivity.
Defined.
