(* ===== verification/IoRetry.v ===== *)
(** * Retrying and polling ([src/include/io_monad.hpp])

    [retry_exponential_if] and [poll_if] run an IO again and again.  Their loop
    state is shared between the handlers: the attempt counter, and the
    [std::function] that starts the next attempt, which [cleanup] empties and
    the handlers reach through a weak pointer.  Each is a cell here.

    The loops are given fuel for the attempts: an attempt is started only while
    the counter is below [max_attempts] (or it is the first), so
    [attempts_fuel max_attempts] is enough, and running out of it is [Fault],
    which the theorems below exclude. *)

From Stdlib Require Import ZArith Lia Ascii String.
From stdpp Require Import base list gmap strings.
From S2P Require Import Prelude Json ResultMonad Asio IoMonad IoTimer.

Definition attempts_fuel (max_attempts : Z) : nat := S (Z.to_nat max_attempts).

Definition attempts_exhausted : Error := make_error 3 (lit "Polling attempts exhausted").

Section loops.
Context {O R X : Type}.
Abbreviation prg := (prog O R X).
Abbreviation IO := (IO O R X).

(** [x++] on an [int]: overflow is undefined. *)
Definition int_incr (l : loc) : prg unit :=
  a ← read l;
  if decide (in_int32 (a + 1)) then write l (a + 1)%Z else Fault.

(** [milliseconds * 2] on its 64-bit representation. *)
Definition double_ms (d : Z) : prg Z :=
  if decide (in_int64 (d * 2)) then mret (d * 2)%Z else Fault.

(** ** retry_exponential_if *)

Section retry.
Context {T : Type} (max_attempts : Z) (should_retry : Error -> prg bool) (self : IO T).
Context (cb : callback O R X T).

(** [r.is_ok() || *attempt >= max_attempts || !should_retry(r.error())]. *)
Definition retry_stop (attempt : loc) (r : Result T Error) : prg bool :=
  match r with
  | Ok _ => mret true
  | Err e =>
      a ← read attempt;
      if (max_attempts <=? a)%Z then mret true
      else b ← should_retry e; mret (negb b)
  end.

(** [*try_run = {}]. *)
Definition retry_cleanup (try_run : loc) : prg unit := write try_run false.

(** The handler of the timer, with the call [( *sp)(delay)] as [again];
    [on_timer_error] is what it does before it delivers the timer error. *)
Definition retry_on_timer (on_timer_error : prg unit) (again : Z -> prg unit)
    (try_run : loc) (current_delay : Z) (ec : error_code) : prg unit :=
  match ec with
  | Some msg => on_timer_error;; cb (Err (timer_error msg))
  | None =>
      sp ← read try_run;
      if (sp : bool) then d ← double_ms current_delay; again d else mret tt
  end.

(** The callback of one attempt. *)
Definition retry_on_result (on_timer_error : prg unit) (again : Z -> prg unit)
    (attempt try_run : loc) (current_delay : Z) (r : Result T Error) : prg unit :=
  stop ← retry_stop attempt r;
  if (stop : bool) then retry_cleanup try_run;; cb r
  else
    _ ← timer current_delay (retry_on_timer on_timer_error again try_run current_delay);
    mret tt.

(** The body stored in [*try_run]. *)
Fixpoint retry_try_run (on_timer_error : prg unit) (fuel : nat)
    (attempt try_run : loc) (current_delay : Z) : prg unit :=
  match fuel with
  | 0 => Fault
  | S fuel' =>
      int_incr attempt;;
      self (retry_on_result on_timer_error
              (retry_try_run on_timer_error fuel' attempt try_run)
              attempt try_run current_delay)
  end.
End retry.

(** [IO<T>]: nothing to clean up on a timer error. *)
Definition retry_exponential_if {T} (max_attempts initial_delay : Z)
    (should_retry : Error -> prg bool) (self : IO T) : IO T := fun cb =>
  attempt ← new 0%Z;
  try_run ← new true;
  retry_try_run max_attempts should_retry self cb (mret tt)
    (attempts_fuel max_attempts) attempt try_run initial_delay.

Definition retry_exponential {T} (max_attempts initial_delay : Z) (self : IO T) : IO T :=
  retry_exponential_if max_attempts initial_delay (fun _ => mret true) self.

(** [IO<void>]: the timer handler cleans up as well. *)
Definition iov_retry_exponential_if (max_attempts initial_delay : Z)
    (should_retry : Error -> prg bool) (self : IO unit) : IO unit := fun cb =>
  attempt ← new 0%Z;
  try_run ← new true;
  retry_try_run max_attempts should_retry self cb (retry_cleanup try_run)
    (attempts_fuel max_attempts) attempt try_run initial_delay.

Definition iov_retry_exponential (max_attempts initial_delay : Z) (self : IO unit) : IO unit :=
  iov_retry_exponential_if max_attempts initial_delay (fun _ => mret true) self.

(** ** poll_if *)

Section poll.
Context {T : Type} (max_attempts interval : Z).
Context (satisfied : T -> prg bool) (retry_on_error : Error -> prg bool) (self : IO T).
Context (cb : callback O R X T).
(** What the final paths run before they deliver. *)
Context (release : prg unit).

(** [enqueue_retry]: the timer handler keeps a copy of the pointer to the
    attempt function ([keep_alive_copy]), so [weak_attempt.lock()] succeeds when
    there was one to copy; [*attempt_fn] may still have been emptied. *)
Definition poll_on_timer (keep_alive_copy : bool) (fn : loc) (attempt_fn : prg unit)
    (ec : error_code) : prg unit :=
  match ec with
  | Some msg => release;; cb (Err (timer_error msg))
  | None =>
      if keep_alive_copy
      then f ← read fn; if (f : bool) then attempt_fn else bad_function_call
      else mret tt
  end.

Definition enqueue_retry (holder fn : loc) (attempt_fn : prg unit) : prg unit :=
  keep_alive_copy ← read holder;
  _ ← timer interval (poll_on_timer keep_alive_copy fn attempt_fn);
  mret tt.

Definition poll_handle_result (attempt holder fn : loc) (attempt_fn : prg unit)
    (r : Result T Error) : prg unit :=
  match r with
  | Ok v =>
      s ← satisfied v;
      if (s : bool) then release;; cb r else enqueue_retry holder fn attempt_fn
  | Err e =>
      b ← retry_on_error e;
      stop ← (if (b : bool) then a ← read attempt; mret (max_attempts <=? a)%Z
              else mret true);
      if (stop : bool) then release;; cb r else enqueue_retry holder fn attempt_fn
  end.

Fixpoint poll_do_attempt (fuel : nat) (attempt holder fn : loc) : prg unit :=
  match fuel with
  | 0 => Fault
  | S fuel' =>
      a ← read attempt;
      if (max_attempts <=? a)%Z
      then release;; cb (Err attempts_exhausted)
      else
        int_incr attempt;;
        self (poll_handle_result attempt holder fn
                (poll_do_attempt fuel' attempt holder fn))
  end.
End poll.

(** [keep_alive_holder->reset()]. *)
Definition release_keep_alive (holder : loc) : prg unit := write holder false.

(** [IO<T>] on an [io_context]: the clean-up is posted, and also empties the
    attempt function. *)
Definition poll_cleanup (holder fn : loc) : prg unit :=
  post (h ← read holder;
        if (h : bool) then write fn false;; write holder false else mret tt).

Definition poll_if {T} (max_attempts interval : Z) (satisfied : T -> prg bool)
    (retry_on_error : Error -> prg bool) (self : IO T) : IO T := fun cb =>
  attempt ← new 0%Z;
  fn ← new true;
  holder ← new true;
  poll_do_attempt max_attempts interval satisfied retry_on_error self cb
    (poll_cleanup holder fn) (S (attempts_fuel max_attempts)) attempt holder fn.

(** [IO<T>] on an executor: [release_keep_alive] only. *)
Definition poll_if_ex {T} (max_attempts interval : Z) (satisfied : T -> prg bool)
    (retry_on_error : Error -> prg bool) (self : IO T) : IO T := fun cb =>
  attempt ← new 0%Z;
  fn ← new true;
  holder ← new true;
  poll_do_attempt max_attempts interval satisfied retry_on_error self cb
    (release_keep_alive holder) (S (attempts_fuel max_attempts)) attempt holder fn.

Definition iov_poll_if (max_attempts interval : Z) (satisfied : prg bool)
    (retry_on_error : Error -> prg bool) (self : IO unit) : IO unit :=
  poll_if_ex max_attempts interval (fun _ => satisfied) retry_on_error self.

Definition iov_poll_if_ex (max_attempts interval : Z) (satisfied : prg bool)
    (retry_on_error : Error -> prg bool) (self : IO unit) : IO unit :=
  poll_if_ex max_attempts interval (fun _ => satisfied) retry_on_error self.
End loops.

(** ** The loop as a state machine

    [k] counts the waits so far: [Waiting k] is running attempt [k + 1],
    [Sleeping k] is waiting before attempt [k + 2]. *)

Inductive phase (T : Type) :=
  | Waiting (k : nat)
  | Sleeping (k : nat)
  | Done (attempts sleeps : nat) (r : Result T Error).
Arguments Waiting {T} k.
Arguments Sleeping {T} k.
Arguments Done {T} attempts sleeps r.

Section phase.
Context {T : Type}.

Definition attempts (p : phase T) : nat :=
  match p with Waiting k | Sleeping k => S k | Done a _ _ => a end.
Definition sleeps (p : phase T) : nat :=
  match p with Waiting k => k | Sleeping k => S k | Done _ s _ => s end.
Definition results (p : phase T) : list (Result T Error) :=
  match p with Done _ _ r => [r] | _ => [] end.

(** The handlers the executor still has to run for the loop to go on: the reply
    of operation [k], or timer [k]; none once it is done. *)
Definition pending_ok (p : phase T) {O R X} (w : world O R X) : Prop :=
  match p with
  | Waiting k => map fst w.(ops) = [k] /\ w.(timers) = []
  | Sleeping k => map fst w.(timers) = [k] /\ w.(ops) = []
  | Done _ _ _ => w.(ops) = [] /\ w.(timers) = []
  end.

(** What a world shows of a phase: [delay i] is the duration of wait [i]. *)
Definition shows (o : nat) (delay : nat -> Z) (p : phase T)
    (w : world nat (Result T Error) (Result T Error)) : Prop :=
  w.(trace) = results p /\
  w.(started) = replicate (attempts p) o /\
  w.(armed) = map delay (seq 0 (sleeps p)) /\
  w.(faulted) = false /\ w.(escaped) = [] /\ pending_ok p w.

(** The duration of wait [i], by the doublings of the source. *)
Definition retry_delay (initial_delay : Z) (i : nat) : Z := (initial_delay * 2 ^ Z.of_nat i)%Z.

(** One event of [retry_exponential_if].  When a wait ends the delay is doubled; there is
    no next phase when that overflows. *)
Definition retry_next (max_attempts initial_delay : Z) (should_retry : Error -> bool)
    (e : event (Result T Error)) (p : phase T) : option (phase T) :=
  match p, e with
  | Waiting k, EvOp i r =>
      if decide (i = k) then
        match r with
        | Err err =>
            if (Z.of_nat (S k) <? max_attempts)%Z && should_retry err
            then Some (Sleeping k) else Some (Done (S k) k r)
        | Ok _ => Some (Done (S k) k r)
        end
      else None
  | Sleeping k, EvTimer t ec =>
      if decide (t = k) then
        match ec with
        | None => if decide (in_int64 (retry_delay initial_delay (S k))) then Some (Waiting (S k)) else None
        | Some msg => Some (Done (S k) (S k) (Err (timer_error msg)))
        end
      else None
  | _, _ => None
  end.

(** The world after the doubling that overflowed, at the end of wait [k]: the behaviour
    is undefined, and nothing has been delivered. *)
Definition overflowed (o : nat) (initial_delay : Z) (k : nat)
    (w : world nat (Result T Error) (Result T Error)) : Prop :=
  ~ in_int64 (retry_delay initial_delay (S k)) /\
  w.(trace) = [] /\ w.(started) = replicate (S k) o /\
  w.(armed) = map (retry_delay initial_delay) (seq 0 (S k)) /\
  w.(faulted) = true /\ w.(ops) = [] /\ w.(timers) = [] /\ w.(posted) = [].

(** One event of [poll_if]; the clean-up it posts changes nothing. *)
Definition poll_next (max_attempts : Z) (satisfied : T -> bool)
    (retry_on_error : Error -> bool)
    (e : event (Result T Error)) (p : phase T) : option (phase T) :=
  match p, e with
  | Waiting k, EvOp i r =>
      if decide (i = k) then
        match r with
        | Ok v => if satisfied v then Some (Done (S k) k r) else Some (Sleeping k)
        | Err err =>
            if retry_on_error err && (Z.of_nat (S k) <? max_attempts)%Z
            then Some (Sleeping k) else Some (Done (S k) k r)
        end
      else None
  | Sleeping k, EvTimer t ec =>
      if decide (t = k) then
        match ec with
        | None =>
            if (Z.of_nat (S k) <? max_attempts)%Z then Some (Waiting (S k))
            else Some (Done (S k) (S k) (Err attempts_exhausted))
        | Some msg => Some (Done (S k) (S k) (Err (timer_error msg)))
        end
      else None
  | Done _ _ _, EvPost => Some p
  | _, _ => None
  end.

Definition phases (next : event (Result T Error) -> phase T -> option (phase T)) :
    list (event (Result T Error)) -> phase T -> option (phase T) :=
  fix go es p :=
    match es with
    | [] => Some p
    | e :: es' => match next e p with Some p' => go es' p' | None => None end
    end.

Lemma map_seq_snoc {A} (f : nat -> A) k : map f (seq 0 k) ++ [f k] = map f (seq 0 (S k)).
Proof. by rewrite seq_S, map_app. Qed.

(** A simulation of the world by a phase machine, event by event. *)
Lemma simulates (next : event (Result T Error) -> phase T -> option (phase T))
    (Rel : phase T -> world nat (Result T Error) (Result T Error) -> Prop) :
  (forall e p w w', Rel p w -> step e w = Some w' ->
     exists p', next e p = Some p' /\ Rel p' w') ->
  forall es p w w', Rel p w -> steps es w = Some w' ->
    exists p', phases next es p = Some p' /\ Rel p' w'.
Proof.
  intros Hstep es. induction es as [|e es IH]; intros p w w' HR Hs; simpl in *.
  - simplify_eq. eauto.
  - destruct (step e w) as [w1|] eqn:Hw; [|done].
    destruct (Hstep _ _ _ _ HR Hw) as (p1 & -> & HR1). eauto.
Qed.

(** A simulation up to an event that goes wrong and leaves nothing to run. *)
Lemma simulates_until (next : event (Result T Error) -> phase T -> option (phase T))
    (Rel : phase T -> world nat (Result T Error) (Result T Error) -> Prop)
    (Bad : event (Result T Error) -> phase T -> world nat (Result T Error) (Result T Error) -> Prop) :
  (forall e p w w', Rel p w -> step e w = Some w' ->
     (exists p', next e p = Some p' /\ Rel p' w') \/ Bad e p w') ->
  (forall e p w, Bad e p w -> w.(ops) = [] /\ w.(timers) = [] /\ w.(posted) = []) ->
  forall es p w w', Rel p w -> steps es w = Some w' ->
    (exists p', phases next es p = Some p' /\ Rel p' w') \/
    (exists es' e p', es = es' ++ [e] /\ phases next es' p = Some p' /\ Bad e p' w').
Proof.
  intros Hstep Hbad es. induction es as [|e es IH]; intros p w w' HR Hs; simpl in *.
  - simplify_eq. left. eauto.
  - destruct (step e w) as [w1|] eqn:Hw; [|done].
    destruct (Hstep _ _ _ _ HR Hw) as [(p1 & Hn & HR1)|Hb].
    + rewrite Hn. destruct (IH _ _ _ HR1 Hs) as [?|(es' & e' & p' & -> & Hp & Hb)]; [by left|right].
      exists (e :: es'), e', p'. split; [done|]. simpl. by rewrite Hn.
    + right. destruct (Hbad _ _ _ Hb) as (Ho & Ht & Hp). exists [], e, p.
      destruct es as [|e1 es]; simpl in Hs; [by simplify_eq|].
      destruct e1; simpl in Hs; [rewrite Ht in Hs|rewrite Ho in Hs|rewrite Hp in Hs]; done.
Qed.
End phase.

(** ** retry_exponential_if implements the machine *)

Section retry_correct.
Context {T : Type}.
Context (max_attempts initial_delay : Z) (should_retry : Error -> bool) (o : nat).
Context (Hmax : in_int32 max_attempts).
Abbreviation wrld := (world nat (Result T Error) (Result T Error)).
Abbreviation delays := (retry_delay initial_delay).
Abbreviation next := (retry_next (T := T) max_attempts initial_delay should_retry).
Abbreviation sr := (fun e => mret (should_retry e)).

Lemma retry_delay_double k : (delays k * 2)%Z = delays (S k).
Proof. unfold retry_delay. rewrite Nat2Z.inj_succ, Z.pow_succ_r by lia. lia. Qed.

(** No doubling overflows when the last delay fits. *)
Lemma retry_delay_fits k :
  in_int64 (initial_delay * 2 ^ Z.max 0 (max_attempts - 1)) -> (Z.of_nat (S k) < max_attempts)%Z ->
  in_int64 (delays (S k)).
Proof.
  intros Hd Hk. unfold retry_delay, in_int64, INT64_MIN, INT64_MAX in *.
  assert (2 ^ Z.of_nat (S k) <= 2 ^ Z.max 0 (max_attempts - 1))%Z as Hle by (apply Z.pow_le_mono_r; lia).
  assert (0 < 2 ^ Z.of_nat (S k))%Z by (apply Z.pow_pos_nonneg; lia). nia.
Qed.

Section on_timer_error.
Context (ote : prog nat (Result T Error) (Result T Error) unit).
(** What the timer handler runs before a timer error leaves the loop's
    observable state alone. *)
Context (Hote : forall (w : wrld) a b, w.(heap) = [VInt a; VBool b] ->
  exists b', exec ote w = (Returned tt, w_heap (fun _ => [VInt a; VBool b']) w)).

Abbreviation again fuel := (retry_try_run max_attempts sr (io_op o) emit ote fuel 0 1).

Definition loop_world (live : bool) (p : phase T) tms ops : wrld :=
  mkWorld [VInt (Z.of_nat (attempts p)); VBool live] tms (sleeps p) ops (attempts p) []
    (map delays (seq 0 (sleeps p))) (replicate (attempts p) o) (results p) [] false.

Inductive retry_rel : phase T -> wrld -> Prop :=
  | retry_rel_waiting k fuel :
      (Z.of_nat k < Z.max 1 max_attempts)%Z -> (max_attempts <= Z.of_nat (fuel + S k))%Z ->
      retry_rel (Waiting k) (loop_world true (Waiting k) []
        [(k, retry_on_result max_attempts sr emit ote (again fuel) 0 1 (delays k))])
  | retry_rel_sleeping k fuel :
      (Z.of_nat (S k) < max_attempts)%Z -> (max_attempts <= Z.of_nat (fuel + S k))%Z ->
      retry_rel (Sleeping k) (loop_world true (Sleeping k)
        [(k, retry_on_timer emit ote (again fuel) 1 (delays k))] [])
  | retry_rel_done a s b r :
      (Z.of_nat a <= Z.max 1 max_attempts)%Z -> (s <= a)%nat ->
      retry_rel (Done a s r) (loop_world b (Done a s r) [] []).

(** Starting attempt [k + 1]. *)
Lemma retry_again_waiting k fuel n s ops tms :
  (Z.of_nat k < Z.max 1 max_attempts)%Z -> (max_attempts <= Z.of_nat (fuel + S k))%Z ->
  run (again (S fuel) (delays k))
    (mkWorld [VInt (Z.of_nat k); VBool true] tms k ops n []
       (map delays (seq 0 k)) s [] [] false) =
  mkWorld [VInt (Z.of_nat (S k)); VBool true] tms k
    (ops ++ [(n, retry_on_result max_attempts sr emit ote (again fuel) 0 1 (delays k))])
    (S n) [] (map delays (seq 0 k)) (s ++ [o]) [] [] false.
Proof using Hmax.
  intros Hk Hf. unfold run. cbn [retry_try_run]. unfold int_incr.
  exec_step. unfold read. simpl.
  rewrite decide_True by (unfold in_int32, INT_MIN, INT_MAX in *; lia).
  simpl.
  replace (Z.of_nat (S k)) with (Z.of_nat k + 1)%Z by lia. reflexivity.
Qed.


Definition retry_bad (e : event (Result T Error)) (p : phase T) (w : wrld) : Prop :=
  exists k, (Z.of_nat (S k) < max_attempts)%Z /\ p = Sleeping k /\ e = EvTimer k None /\ overflowed o initial_delay k w.

Lemma retry_step e p w w' :
  retry_rel p w -> step e w = Some w' ->
  (exists p', next e p = Some p' /\ retry_rel p' w') \/ retry_bad e p w'.
Proof using Hmax Hote.
  intros HR Hs. destruct HR as [k fuel Hk Hf|k fuel Hk Hf|a s b r Ha Hsl].
  - left. destruct e as [t ec|i r|]; simpl in Hs; try done.
    case_decide; simplify_eq/=. rewrite decide_True by done.
    unfold run. destruct r as [v|err]; simpl.
    + eexists; split; [done|]. by apply (retry_rel_done (S k) k false (Ok v)); lia.
    + rewrite Z.leb_antisym.
      destruct (Z.of_nat (S k) <? max_attempts)%Z eqn:Hlt; simpl; bool_to_prop.
      * destruct (should_retry err); simpl; (eexists; split; [done|]).
        -- unfold w_timer, w_ops, loop_world. cbn -[seq]. rewrite map_seq_snoc.
           by apply (retry_rel_sleeping k fuel).
        -- apply (retry_rel_done (S k) k false (Err err)); lia.
      * eexists; split; [done|]. apply (retry_rel_done (S k) k false (Err err)); lia.
  - destruct e as [t ec|i r|]; simpl in Hs; try done.
    case_decide; simplify_eq/=. rewrite decide_True by done.
    destruct ec as [msg|]; cbn [retry_on_timer].
    + left. eexists; split; [done|].
      destruct (Hote (w_timers (λ _, []) (loop_world true (Sleeping k)
        [(k, retry_on_timer emit ote (again fuel) 1 (delays k))] []))
        (Z.of_nat (S k)) true eq_refl) as [b' Hb].
      unfold run. rewrite exec_mbind, Hb.
      apply (retry_rel_done (S k) (S k) b' (Err (timer_error msg))); lia.
    + unfold run. unfold double_ms. exec_step. rewrite retry_delay_double.
      destruct (decide (in_int64 (delays (S k)))) as [Hin|Hout].
      * left. eexists; split; [done|].
        assert (exists f, fuel = S f) as [f ->] by (destruct fuel; [lia|eauto]). simpl.
        pose proof (retry_again_waiting (S k) f (S k) (replicate (S k) o) [] []) as Hrun.
        unfold run in Hrun. unfold w_timers. simpl in *. rewrite Hrun by lia.
        replace (o :: replicate k o ++ [o]) with (replicate (S (S k)) o)
          by (by rewrite <- (replicate_cons_app k)).
        apply (retry_rel_waiting (S k) f); lia.
      * right. exists k. by repeat split.
  - destruct e; simpl in Hs; done.
Qed.

Lemma retry_rel_shows p w :
  retry_rel p w ->
  shows o delays p w /\ (1 <= attempts p \/ exists a s r, p = Done a s r) /\
  (Z.of_nat (attempts p) <= Z.max 1 max_attempts)%Z.
Proof using.
  intros [k fuel ??|k fuel ??|a s b r ??]; split_and!; simpl; eauto; try lia;
    repeat split; done.
Qed.

Lemma retry_rel_init :
  retry_rel (Waiting 0)
    (run (again (attempts_fuel max_attempts) initial_delay)
       (mkWorld [VInt 0; VBool true] [] 0 [] 0 [] [] [] [] [] false)).
Proof using Hmax.
  pose proof (retry_again_waiting 0 (Z.to_nat max_attempts) 0 [] [] []) as Hr.
  replace (delays 0) with initial_delay in Hr by (unfold delays; simpl; lia).
  unfold attempts_fuel. change (VInt 0) with (VInt (Z.of_nat 0)).
  change (@nil Z) with (map delays (seq 0 0)). rewrite Hr by lia.
  replace initial_delay with (delays 0) by (unfold delays; simpl; lia).
  apply (retry_rel_waiting 0 (Z.to_nat max_attempts)); lia.
Qed.

(** The machine up to the first doubling that overflows. *)
Definition retry_outcome (es : list (event (Result T Error))) (w : wrld) : Prop :=
  (exists p, phases next es (Waiting 0) = Some p /\ shows o delays p w /\
     (Z.of_nat (attempts p) <= Z.max 1 max_attempts)%Z) \/
  (exists es' k, es = es' ++ [EvTimer k None] /\ phases next es' (Waiting 0) = Some (Sleeping k) /\
     (Z.of_nat (S k) < max_attempts)%Z /\ overflowed o initial_delay k w).

Lemma retry_bad_over e p w : retry_bad e p w -> w.(ops) = [] /\ w.(timers) = [] /\ w.(posted) = [].
Proof. intros (k & _ & _ & _ & Ho). by apply Ho. Qed.

Lemma bad_outcome es e p w :
  phases next es (Waiting 0) = Some p -> retry_bad e p w -> retry_outcome (es ++ [e]) w.
Proof. intros Hp (k & Hk & -> & -> & Ho). right. by exists es, k. Qed.

Lemma outcome_in_range es w : retry_outcome es w ->
  in_int64 (initial_delay * 2 ^ Z.max 0 (max_attempts - 1)) -> w.(faulted) = false.
Proof.
  intros [(p & _ & Hs & _)|(es' & k & _ & _ & Hk & Ho & _)] Hd; [by apply Hs|].
  destruct Ho. by apply retry_delay_fits.
Qed.

Lemma retry_loop_correct es w :
  steps es (run (again (attempts_fuel max_attempts) initial_delay)
       (mkWorld [VInt 0; VBool true] [] 0 [] 0 [] [] [] [] [] false)) = Some w ->
  retry_outcome es w.
Proof using Hmax Hote.
  intros Hs.
  destruct (simulates_until _ _ _ retry_step retry_bad_over es _ _ _ retry_rel_init Hs)
    as [(p & Hp & HR)|(es' & e & p & -> & Hp & Hb)].
  - left. exists p. split; [done|]. apply retry_rel_shows in HR. tauto.
  - by apply (bad_outcome es' e p).
Qed.
End on_timer_error.

(** C5: under every schedule of replies and timer expiries, for any [int] of attempts
    and any delay, [retry_exponential_if] behaves as the retry machine: attempts run
    one after the other, a success, a non-retryable error or the error of the last
    attempt is delivered, exactly once, wait [i] lasts [initial_delay * 2^i], there are
    at most [max 1 max_attempts] attempts, and the loop never runs out of fuel or loses
    its next handler - up to the end of a wait whose doubled delay does not fit 64
    bits.  That doubling is undefined behaviour: nothing has been delivered then, and
    nothing is left to run.  It cannot happen when
    [initial_delay * 2^(max_attempts - 1)] fits. *)
Theorem retry_exponential_if_refines es w :
  steps es (launch (T := T) (retry_exponential_if max_attempts initial_delay sr (io_op o))) = Some w ->
  ((exists p : phase T, phases (retry_next max_attempts initial_delay should_retry) es (Waiting 0) = Some p /\
      shows o (retry_delay initial_delay) p w /\ (Z.of_nat (attempts p) <= Z.max 1 max_attempts)%Z) \/
   (exists es' k, es = es' ++ [EvTimer k None] /\
      phases (retry_next max_attempts initial_delay should_retry) es' (Waiting 0) = Some (Sleeping (T := T) k) /\
      (Z.of_nat (S k) < max_attempts)%Z /\ overflowed o initial_delay k w)) /\
  (in_int64 (initial_delay * 2 ^ Z.max 0 (max_attempts - 1)) -> w.(faulted) = false).
Proof using Hmax.
  intros Hs. assert (Hout : retry_outcome es w).
  { apply (retry_loop_correct (mret tt)); [|exact Hs].
    intros w0 a b Hh. exists b. destruct w0; simpl in *. by subst. }
  split; [exact Hout|by apply (outcome_in_range es)].
Qed.
End retry_correct.

(** The same for [IO<void>], whose timer handler also cleans up. *)
Lemma iov_retry_exponential_if_refines max_attempts initial_delay should_retry o es w :
  in_int32 max_attempts ->
  steps es (launch (iov_retry_exponential_if max_attempts initial_delay
                      (fun e => mret (should_retry e)) (io_op o))) = Some w ->
  retry_outcome max_attempts initial_delay should_retry o es w.
Proof.
  intros Hmax Hs.
  apply (retry_loop_correct max_attempts initial_delay should_retry o Hmax (retry_cleanup 1)); [|exact Hs].
  intros w0 a b Hh. exists false. destruct w0; simpl in *. by subst.
Qed.

(** Without a bound on the delay the doubling does overflow: from -1 ms, whose waits
    are over at once, at the end of the sixty-fourth wait. *)
Lemma retry_doubling_overflows :
  ~ in_int64 (retry_delay (-1) 64) /\
  exists w, steps (concat (map (fun i => [EvOp i (Err JUST_AN_ERROR); EvTimer i None]) (seq 0 64)))
    (launch (T := Z) (retry_exponential_if 100 (-1) (fun e => mret true) (io_op 7))) = Some w /\
  w.(faulted) = true /\ w.(trace) = [].
Proof. split; [vm_compute; tauto|]. eexists. vm_compute. split; [reflexivity|]. by split. Qed.

(** Two failures and a success: three attempts, waits of 100 and 200. *)
Definition retry_demo : list (event (Result Z Error)) :=
  [EvOp 0 (Err JUST_AN_ERROR); EvTimer 0 None; EvOp 1 (Err JUST_AN_ERROR);
   EvTimer 1 None; EvOp 2 (Ok 5%Z)].
Definition retry_demo_world : world nat (Result Z Error) (Result Z Error) :=
  default world0 (steps retry_demo
    (launch (retry_exponential_if 3 100 (fun e => mret true) (io_op 7)))).

Lemma retry_exponential_if_refines_witness :
  exists p,
    phases (retry_next 3 100 (fun _ => true)) retry_demo (Waiting 0) = Some p /\
    shows 7 (retry_delay 100) p retry_demo_world /\
    retry_demo_world.(trace) = [Ok 5%Z] /\ retry_demo_world.(armed) = [100; 200]%Z.
Proof.
  destruct (retry_exponential_if_refines (T := Z) 3 100 (fun _ => true) 7
    ltac:(vm_compute; split; discriminate) retry_demo retry_demo_world)
    as [[(p & Hp & Hsh & _)|(es' & k & _ & _ & _ & _ & _ & _ & _ & Hf & _)] Hok].
  { vm_compute. reflexivity. }
  - exists p. split; [exact Hp|]. split; [exact Hsh|]. split; vm_compute; reflexivity.
  - rewrite Hok in Hf; [discriminate|]. vm_compute. split; discriminate.
Defined.

(** ** poll_if implements its machine *)

Section poll_correct.
Context {T : Type}.
Context (max_attempts interval : Z) (satisfied : T -> bool) (retry_on_error : Error -> bool).
Context (o : nat) (Hmax : in_int32 max_attempts).
Abbreviation wrld := (world nat (Result T Error) (Result T Error)).
Abbreviation sat := (fun v => mret (satisfied v)).
Abbreviation roe := (fun e => mret (retry_on_error e)).

Definition poll_cells (a : Z) (f h : bool) : list val := [VInt a; VBool f; VBool h].

(** A posted handler that only changes the two pointers. *)
Definition quiet (q : prog nat (Result T Error) (Result T Error) unit) : Prop :=
  forall (w : wrld) a f h, w.(heap) = poll_cells a f h ->
    exists f' h', exec q w = (Returned tt, w_heap (fun _ => poll_cells a f' h') w).

Section release.
Context (rel : prog nat (Result T Error) (Result T Error) unit).
Context (Hrel : forall (w : wrld) a, w.(heap) = poll_cells a true true -> w.(posted) = [] ->
  exists h ps, Forall quiet ps /\
    exec rel w =
    (Returned tt, w_posted (fun _ => ps) (w_heap (fun _ => poll_cells a true h) w))).

Abbreviation attempt_fn fuel :=
  (poll_do_attempt max_attempts interval sat roe (io_op o) emit rel fuel 0 2 1).
Abbreviation on_result fuel :=
  (poll_handle_result max_attempts interval sat roe emit rel 0 2 1 (attempt_fn fuel)).

Definition poll_world f h (p : phase T) tms ops ps : wrld :=
  mkWorld (poll_cells (Z.of_nat (attempts p)) f h) tms (sleeps p) ops (attempts p) ps
    (map (fun _ => interval) (seq 0 (sleeps p))) (replicate (attempts p) o)
    (results p) [] false.

Inductive poll_rel : phase T -> wrld -> Prop :=
  | poll_rel_waiting k fuel :
      (Z.of_nat (S k) <= max_attempts)%Z -> (max_attempts < Z.of_nat (fuel + S k))%Z ->
      poll_rel (Waiting k) (poll_world true true (Waiting k) [] [(k, on_result fuel)] [])
  | poll_rel_sleeping k fuel :
      (Z.of_nat (S k) <= max_attempts)%Z -> (max_attempts < Z.of_nat (fuel + S k))%Z ->
      poll_rel (Sleeping k) (poll_world true true (Sleeping k)
        [(k, poll_on_timer emit rel true 1 (attempt_fn fuel))] [] [])
  | poll_rel_done a s f h r ps :
      (Z.of_nat a <= Z.max 0 max_attempts)%Z -> (s <= a)%nat -> Forall quiet ps ->
      poll_rel (Done a s r) (poll_world f h (Done a s r) [] [] ps).

(** Every final path: release, then deliver. *)
Lemma poll_final (w : wrld) a s r :
  (Z.of_nat a <= Z.max 0 max_attempts)%Z -> (s <= a)%nat ->
  w = mkWorld (poll_cells (Z.of_nat a) true true) [] s [] a []
        (map (fun _ => interval) (seq 0 s)) (replicate a o) [] [] false ->
  poll_rel (Done a s r) (run (rel;; emit r) w).
Proof using Hrel.
  intros Ha Hs Hw. unfold run. rewrite exec_mbind.
  destruct (Hrel w (Z.of_nat a)) as (h & ps & Hps & ->); [by subst..|]. subst w.
  by apply (poll_rel_done a s true h r ps).
Qed.

Lemma poll_enqueue k fuel :
  (Z.of_nat (S k) <= max_attempts)%Z -> (max_attempts < Z.of_nat (fuel + S k))%Z ->
  poll_rel (Sleeping k)
    (run (enqueue_retry interval emit rel 2 1 (attempt_fn fuel))
       (poll_world true true (Waiting k) [] [] [])).
Proof.
  intros Hk Hf. unfold run, enqueue_retry, poll_world. exec_step. unfold w_timer.
  cbn -[seq]. change ([interval]) with [(fun _ : nat => interval) k]. rewrite map_seq_snoc.
  by apply (poll_rel_sleeping k fuel).
Qed.

(** Starting attempt [k + 1], below the bound. *)
Lemma poll_attempt_waiting k fuel :
  (Z.of_nat (S k) <= max_attempts)%Z -> (max_attempts < Z.of_nat (fuel + S k))%Z ->
  poll_rel (Waiting k)
    (run (attempt_fn (S fuel))
       (mkWorld (poll_cells (Z.of_nat k) true true) [] k [] k []
          (map (fun _ => interval) (seq 0 k)) (replicate k o) [] [] false)).
Proof using Hmax.
  intros Hk Hf. unfold run. cbn [poll_do_attempt]. unfold int_incr. exec_step.
  destruct (Z.leb_spec max_attempts (Z.of_nat k)); [lia|]. unfold read. simpl.
  rewrite decide_True by (unfold in_int32, INT_MIN, INT_MAX in *; lia). simpl.
  unfold w_start, w_heap. simpl. rewrite <- replicate_cons_app.
  replace (Z.of_nat k + 1)%Z with (Z.of_nat (S k)) by lia.
  by apply (poll_rel_waiting k fuel).
Qed.

Lemma poll_step e p w w' :
  poll_rel p w -> step e w = Some w' ->
  exists p', poll_next max_attempts satisfied retry_on_error e p = Some p' /\ poll_rel p' w'.
Proof using Hmax Hrel.
  intros HR Hs. destruct HR as [k fuel Hk Hf|k fuel Hk Hf|a s f h r ps Ha Hsl Hps].
  - destruct e as [t ec|i r|]; simpl in Hs; try done.
    case_decide; simplify_eq/=. rewrite decide_True by done.
    destruct r as [v|err]; cbn [poll_handle_result];
      (erewrite run_mbind; [|reflexivity]).
    + destruct (satisfied v); (eexists; split; [done|]).
      * apply poll_final; [lia..|done].
      * by apply poll_enqueue.
    + destruct (retry_on_error err); (erewrite run_mbind; [|reflexivity]); cbn [andb].
      * rewrite Z.leb_antisym. cbn [attempts].
        destruct (Z.of_nat (S k) <? max_attempts)%Z; cbn [negb]; (eexists; split; [done|]).
        -- by apply poll_enqueue.
        -- apply poll_final; [lia..|done].
      * eexists; split; [done|]. apply poll_final; [lia..|done].
  - destruct e as [t ec|i r|]; simpl in Hs; try done.
    case_decide; simplify_eq/=. rewrite decide_True by done.
    destruct ec as [msg|]; cbn [poll_on_timer].
    + eexists; split; [done|]. apply poll_final; [lia..|done].
    + assert (exists f, fuel = S f) as [f ->] by (destruct fuel; [lia|eauto]).
      erewrite run_mbind; [|reflexivity].
      destruct (Z.of_nat (S k) <? max_attempts)%Z eqn:Hlt; bool_to_prop;
        (eexists; split; [done|]).
      * apply (poll_attempt_waiting (S k) f); lia.
      * cbn [poll_do_attempt]. erewrite run_mbind; [|reflexivity].
        cbn [attempts]. destruct (Z.leb_spec max_attempts (Z.of_nat (S k))); [|lia].
        apply poll_final; [lia..|done].
  - destruct e as [t ec|i r'|]; simpl in Hs; try done.
    destruct ps as [|q ps]; simplify_eq/=. inversion_clear Hps as [|?? Hq Hps'].
    eexists; split; [done|]. unfold run.
    edestruct Hq as (f' & h' & ->); [done|].
    by apply (poll_rel_done a s f' h' r ps).
Qed.

(** Nothing is run when there is no attempt to make. *)
Definition poll_start : phase T :=
  if (max_attempts <=? 0)%Z then Done 0 0 (Err attempts_exhausted) else Waiting 0.

Lemma poll_rel_init :
  poll_rel poll_start
    (run (attempt_fn (S (attempts_fuel max_attempts)))
       (mkWorld (poll_cells 0 true true) [] 0 [] 0 [] [] [] [] [] false)).
Proof using Hmax Hrel.
  unfold poll_start. destruct (Z.leb_spec max_attempts 0) as [Hle|Hlt].
  - cbn [poll_do_attempt]. erewrite run_mbind; [|reflexivity].
    destruct (Z.leb_spec max_attempts 0); [|lia]. by apply poll_final; [lia..|].
  - apply (poll_attempt_waiting 0 (attempts_fuel max_attempts)); unfold attempts_fuel; lia.
Qed.

Lemma poll_loop_correct es w :
  steps es (run (attempt_fn (S (attempts_fuel max_attempts)))
       (mkWorld (poll_cells 0 true true) [] 0 [] 0 [] [] [] [] [] false)) = Some w ->
  exists p, phases (poll_next max_attempts satisfied retry_on_error) es poll_start = Some p /\
    shows o (fun _ => interval) p w /\
    (Z.of_nat (attempts p) <= Z.max 0 max_attempts)%Z.
Proof using Hmax Hrel.
  intros Hs. destruct (simulates _ _ poll_step es _ _ _ poll_rel_init Hs) as (p & Hp & HR).
  exists p. split; [done|].
  destruct HR; split_and!; simpl; try lia; repeat split; done.
Qed.
End release.

(** C15: under every schedule of replies and timer expiries, both [poll_if]
    overloads behave as the polling machine: a satisfying value, a final error,
    a timer error or error 3 after the last attempt is delivered, exactly once;
    every wait lasts [interval]; at most [max_attempts] attempts are run (none
    when it is not positive); the attempt function is still there whenever a
    wait ends, and nothing is called after it has been emptied. *)
Theorem poll_if_refines es w :
  (steps es (launch (T := T) (poll_if max_attempts interval sat roe (io_op o))) = Some w \/
   steps es (launch (T := T) (poll_if_ex max_attempts interval sat roe (io_op o))) = Some w) ->
  exists p : phase T,
    phases (poll_next max_attempts satisfied retry_on_error) es poll_start = Some p /\
    shows o (fun _ => interval) p w /\
    (Z.of_nat (attempts p) <= Z.max 0 max_attempts)%Z.
Proof using Hmax.
  intros [Hs|Hs].
  - apply (poll_loop_correct (poll_cleanup 2 1)); [|exact Hs].
    intros w0 a Hh Hp. eexists true, [_]. split; cycle 1.
    + destruct w0; simpl in *; subst. reflexivity.
    + apply Forall_singleton. intros w1 a1 f h Hw1. destruct w1; simpl in *; subst.
      exists (f && negb h), false. by destruct f, h.
  - apply (poll_loop_correct (release_keep_alive 2)); [|exact Hs].
    intros w0 a Hh Hp. exists false, []. split; [done|].
    destruct w0; simpl in *; subst. reflexivity.
Qed.
End poll_correct.

(** Two values, none satisfying: error 3 after the second wait. *)
Definition poll_demo : list (event (Result Z Error)) :=
  [EvOp 0 (Ok 1%Z); EvTimer 0 None; EvOp 1 (Ok 2%Z); EvTimer 1 None].
Definition poll_demo_world : world nat (Result Z Error) (Result Z Error) :=
  default world0 (steps poll_demo
    (launch (poll_if 2 50 (fun v => mret (bool_decide (v = 9%Z))) (fun e => mret true) (io_op 7)))).

Lemma poll_if_refines_witness :
  exists p,
    phases (poll_next 2 (fun v => bool_decide (v = 9%Z)) (fun _ => true)) poll_demo
      (poll_start 2) = Some p /\
    shows 7 (fun _ => 50%Z) p poll_demo_world /\
    poll_demo_world.(trace) = [Err attempts_exhausted].
Proof.
  destruct (poll_if_refines (T := Z) 2 50 (fun v => bool_decide (v = 9%Z)) (fun _ => true) 7
    ltac:(vm_compute; split; discriminate) poll_demo poll_demo_world) as (p & Hp & Hsh & _).
  { left. vm_compute. reflexivity. }
  exists p. split; [exact Hp|]. split; [exact Hsh|]. vm_compute; reflexivity.
Defined.
