(* ===== verification/PollState.v ===== *)
(** * Polling with a state ([src/include/io_monad_poll_with_state.hpp])

    [poll_with_state] runs a job again and again with a state that the job and
    the decision function may change.  The state is one cell, made when the IO is
    built and shared by its runs; the attempt counter and the pointer that keeps
    the attempt function alive are cells of a run.  The fuel for the attempts is
    that of [IoRetry]; the retry executor is the event loop of the model. *)

From Stdlib Require Import ZArith Lia Ascii String.
From stdpp Require Import base list gmap strings.
From S2P Require Import Prelude Json ResultMonad Asio IoMonad IoTimer IoRetry.

(** [PollControl]: [kind] with the part of the record it uses. *)
Inductive PollControl :=
  | PollDone
  | PollRetry (retry_after : option Z)
  | PollFail (fail_error : option Error).

Definition no_fail_error : Error := make_error 2 (lit "poll_with_state: fail requested without error").

Section code.
Context {O R X : Type}.
Abbreviation prg := (prog O R X).
Abbreviation IO := (IO O R X).

(** [PollWithStateHooks]: absent hooks are [None]. *)
Record hooks := mkHooks {
  on_attempt_start : option (Z -> loc -> prg unit);
  on_retry_scheduled : option (Z -> loc -> Z -> prg unit);
  on_done : option (Z -> loc -> prg unit);
  on_fail : option (Z -> loc -> Error -> prg unit);
}.
Definition no_hooks : hooks := mkHooks None None None None.

Section impl.
Context {T : Type} (max_attempts default_interval : Z).
(** The functions get the attempt and the cell of the state. *)
Context (job : Z -> loc -> prg (IO T)) (decide_fn : Z -> loc -> Result T Error -> prg PollControl).
Context (on_exhausted : Z -> loc -> Result T Error -> prg Error) (hk : hooks).
Context (cb : callback O R X T).

Definition poll_hook {A} (h : option A) (call : A -> prg unit) : prg unit :=
  match h with Some f => call f | None => mret tt end.

(** The attempt function lives while the holder or a timer handler keeps it: a
    handler made after the holder was emptied, by a job that calls back twice, finds
    it gone. *)
Definition state_on_timer (holder : loc) (keep_alive_copy : bool) (attempt_fn : prg unit) (ec : error_code) : prg unit :=
  match ec with
  | Some msg => write holder false;; cb (Err (timer_error msg))
  | None => if keep_alive_copy then attempt_fn else mret tt
  end.

Definition schedule_retry (holder : loc) (attempt_fn : prg unit) (delay : Z) : prg unit :=
  keep_alive_copy ← read holder;
  _ ← timer delay (state_on_timer holder keep_alive_copy attempt_fn);
  mret tt.

Definition fail_with (state holder : loc) (attempt_no : Z) (e : Error) : prg unit :=
  poll_hook hk.(on_fail) (fun f => f attempt_no state e);;
  write holder false;; cb (Err e).

Definition state_handle_result (state holder : loc) (attempt_fn : prg unit) (attempt_no : Z)
    (r : Result T Error) : prg unit :=
  c ← attempt_std (decide_fn attempt_no state r);
  match c with
  | inl w => write holder false;; cb (Err (make_error (-1) w))
  | inr PollDone =>
      match r with
      | Ok v =>
          poll_hook hk.(on_done) (fun f => f attempt_no state);;
          write holder false;; cb (Ok v)
      | Err e => fail_with state holder attempt_no e
      end
  | inr (PollFail fail_error) =>
      fail_with state holder attempt_no
        (match fail_error with
         | Some e => e
         | None => match r with Err e => e | Ok _ => no_fail_error end
         end)
  | inr (PollRetry retry_after) =>
      if (max_attempts <=? attempt_no)%Z then
        x ← attempt_std (on_exhausted attempt_no state r);
        fail_with state holder attempt_no (match x with inr e => e | inl w => make_error (-1) w end)
      else
        let delay := default default_interval retry_after in
        poll_hook hk.(on_retry_scheduled) (fun f => f attempt_no state delay);;
        schedule_retry holder attempt_fn delay
  end.

(** The [try] covers the job and whatever its IO calls before [run] returns. *)
Fixpoint state_do_attempt (fuel : nat) (state attempt holder : loc) : prg unit :=
  match fuel with
  | 0 => Fault
  | S fuel' =>
      a ← read attempt;
      if (max_attempts <=? a)%Z then write holder false;; cb (Err attempts_exhausted)
      else
        int_incr attempt;;
        attempt_no ← read attempt;
        poll_hook hk.(on_attempt_start) (fun f => f attempt_no state);;
        try_std
          (io ← job attempt_no state;
           io (state_handle_result state holder (state_do_attempt fuel' state attempt holder) attempt_no))
          (fun w => write holder false;; cb (Err (make_error (-1) w)))
  end.
End impl.

Definition poll_with_state_impl {T S} `{Enc S} (max_attempts default_interval : Z) (initial_state : S)
    (job : Z -> loc -> prg (IO T)) (decide_fn : Z -> loc -> Result T Error -> prg PollControl)
    (on_exhausted : Z -> loc -> Result T Error -> prg Error) (hk : hooks) : prg (IO T) :=
  state ← new initial_state;
  mret (fun cb =>
    attempt ← new 0%Z;
    holder ← new true;
    state_do_attempt max_attempts default_interval job decide_fn on_exhausted hk cb
      (Datatypes.S (attempts_fuel max_attempts)) state attempt holder).

(** The overload with the default error. *)
Definition poll_with_state {T S} `{Enc S} (max_attempts default_interval : Z) (initial_state : S)
    (job : Z -> loc -> prg (IO T)) (decide_fn : Z -> loc -> Result T Error -> prg PollControl) (hk : hooks) :
    prg (IO T) :=
  poll_with_state_impl max_attempts default_interval initial_state job decide_fn
    (fun _ _ _ => mret attempts_exhausted) hk.
End code.

(** ** The machine

    [ds] are the waits so far.  [Trying s ds]: the reply to attempt [|ds| + 1] is
    awaited; [Pausing s ds]: the last wait of [ds] is going on. *)
Section machine.
Context {T S : Type}.
Context (max_attempts default_interval : Z).
(** A job that throws, or starts an operation with the state it left. *)
Context (jobf : Z -> S -> str + S).
Context (decidef : Z -> S -> Result T Error -> S * (str + PollControl)).
Context (exhaustedf : Z -> S -> Result T Error -> str + Error).

Inductive poll_phase :=
  | Trying (s : S) (ds : list Z)
  | Pausing (s : S) (ds : list Z)
  | Finished (ops_started : nat) (s : S) (ds : list Z) (r : Result T Error).

Definition try_job (s : S) (ds : list Z) : poll_phase :=
  match jobf (Z.of_nat (length ds) + 1) s with
  | inr s' => Trying s' ds
  | inl w => Finished (length ds) s ds (Err (make_error (-1) w))
  end.

Definition state_next (e : event (Result T Error)) (p : poll_phase) : option poll_phase :=
  match p, e with
  | Trying s ds, EvOp i r =>
      if decide (i = length ds) then
        let n := (Z.of_nat (length ds) + 1)%Z in
        let done_with := Finished (Datatypes.S (length ds)) (decidef n s r).1 ds in
        Some
          match (decidef n s r).2 with
          | inl w => done_with (Err (make_error (-1) w))
          | inr PollDone => done_with r
          | inr (PollFail o) =>
              done_with (Err (match o with
                              | Some e => e
                              | None => match r with Err e => e | Ok _ => no_fail_error end
                              end))
          | inr (PollRetry o) =>
              if (max_attempts <=? n)%Z
              then done_with (Err (match exhaustedf n (decidef n s r).1 r with inr e => e | inl w => make_error (-1) w end))
              else Pausing (decidef n s r).1 (ds ++ [default default_interval o])
          end
      else None
  | Pausing s ds, EvTimer t ec =>
      if decide (Datatypes.S t = length ds) then
        Some match ec with
             | Some msg => Finished (length ds) s ds (Err (timer_error msg))
             | None => try_job s ds
             end
      else None
  | _, _ => None
  end.

Definition state_phases : list (event (Result T Error)) -> poll_phase -> option poll_phase :=
  fix go es p :=
    match es with
    | [] => Some p
    | e :: es' => match state_next e p with Some p' => go es' p' | None => None end
    end.

Definition phase_state (p : poll_phase) : S :=
  match p with Trying s _ | Pausing s _ | Finished _ s _ _ => s end.
Definition phase_waits (p : poll_phase) : list Z :=
  match p with Trying _ ds | Pausing _ ds | Finished _ _ ds _ => ds end.
Definition phase_ops (p : poll_phase) : nat :=
  match p with Trying _ ds => Datatypes.S (length ds) | Pausing _ ds => length ds | Finished n _ _ _ => n end.
Definition phase_results (p : poll_phase) : list (Result T Error) :=
  match p with Finished _ _ _ r => [r] | _ => [] end.

(** Nothing is started when there is no attempt to make. *)
Definition first_phase (s : S) : poll_phase :=
  if (max_attempts <=? 0)%Z then Finished 0 s [] (Err attempts_exhausted) else try_job s [].
End machine.
Arguments poll_phase T S : clear implicits.

(** ** The loop implements the machine *)

Section correct.
Context {T S : Type} `{Enc S}.
Context (max_attempts default_interval : Z) (o : nat).
Context (jobf : Z -> S -> str + S).
Context (decidef : Z -> S -> Result T Error -> S * (str + PollControl)).
Context (exhaustedf : Z -> S -> Result T Error -> str + Error).
Context (Hmax : in_int32 max_attempts).
Abbreviation prgT := (prog nat (Result T Error) (Result T Error)).
Abbreviation wrld := (world nat (Result T Error) (Result T Error)).

(** The functions as programs on the cell of the state. *)
Definition job_prog (n : Z) (state : loc) : prgT (IO nat (Result T Error) (Result T Error) T) :=
  s ← read state;
  match jobf n s with
  | inr s' => write state s';; mret (io_op o)
  | inl w => Throw (StdExn w)
  end.
Definition decide_prog (n : Z) (state : loc) (r : Result T Error) : prgT PollControl :=
  s ← read state;
  write state (decidef n s r).1;;
  match (decidef n s r).2 with inr c => mret c | inl w => Throw (StdExn w) end.
Definition exhausted_prog (n : Z) (state : loc) (r : Result T Error) : prgT Error :=
  s ← read state;
  match exhaustedf n s r with inr e => mret e | inl w => Throw (StdExn w) end.

Abbreviation attempt_fn fuel :=
  (state_do_attempt max_attempts default_interval job_prog decide_prog exhausted_prog no_hooks emit fuel 0 1 2).
Abbreviation on_reply fuel :=
  (state_handle_result max_attempts default_interval decide_prog exhausted_prog no_hooks emit 0 2 (attempt_fn fuel)).
Abbreviation nxt := (state_next max_attempts default_interval jobf decidef exhaustedf).

Definition state_world (live : bool) (a : Z) (p : poll_phase T S) tms ops : wrld :=
  mkWorld [enc (phase_state p); VInt a; VBool live] tms (length (phase_waits p)) ops (phase_ops p) []
    (phase_waits p) (replicate (phase_ops p) o) (phase_results p) [] false.

(** Enough fuel for the attempts that are left after [n]. *)
Definition fuel_ok (fuel n : nat) : Prop :=
  (Z.of_nat n <= max_attempts)%Z /\ (max_attempts < Z.of_nat (fuel + n))%Z.

Inductive state_rel : poll_phase T S -> wrld -> Prop :=
  | rel_trying s ds fuel :
      fuel_ok fuel (Datatypes.S (length ds)) ->
      state_rel (Trying s ds)
        (state_world true (Z.of_nat (length ds) + 1) (Trying s ds) []
           [(length ds, on_reply fuel (Z.of_nat (length ds) + 1)%Z)])
  | rel_pausing s ds d fuel :
      fuel_ok fuel (length (ds ++ [d])) -> (Z.of_nat (length (ds ++ [d])) < max_attempts)%Z ->
      state_rel (Pausing s (ds ++ [d]))
        (state_world true (Z.of_nat (length (ds ++ [d]))) (Pausing s (ds ++ [d]))
           [(length ds, state_on_timer emit 2 true (attempt_fn fuel))] [])
  | rel_finished n s ds r a :
      (Z.of_nat n <= Z.max 0 max_attempts)%Z ->
      state_rel (Finished n s ds r) (state_world false a (Finished n s ds r) [] []).

(** Starting the next attempt. *)
Lemma attempt_starts s ds fuel :
  fuel_ok fuel (Datatypes.S (length ds)) ->
  state_rel (try_job jobf s ds)
    (run (attempt_fn (Datatypes.S fuel))
       (mkWorld [enc s; VInt (Z.of_nat (length ds)); VBool true] [] (length ds) [] (length ds) []
          ds (replicate (length ds) o) [] [] false)).
Proof using Hmax.
  intros Hf. pose proof Hf as [Hf1 Hf2]. unfold run. cbn [state_do_attempt]. unfold int_incr. exec_step.
  destruct (Z.leb_spec max_attempts (Z.of_nat (length ds))); [lia|]. unfold read. simpl.
  rewrite decide_True by (unfold in_int32, INT_MIN, INT_MAX in *; lia). simpl.
  unfold try_job, job_prog, read. exec_step. rewrite dec_enc. exec_step.
  destruct (jobf (Z.of_nat (length ds) + 1) s) as [w|s']; exec_step.
  - apply (rel_finished (length ds) s ds (Err (make_error (-1) w))). lia.
  - unfold w_start, w_heap. simpl. rewrite <- replicate_cons_app.
    by apply (rel_trying s' ds fuel).
Qed.

Lemma state_step e p w w' :
  state_rel p w -> step e w = Some w' -> exists p', nxt e p = Some p' /\ state_rel p' w'.
Proof using Hmax.
  intros HR Hs. destruct HR as [s ds fuel Hf|s ds d fuel Hf Hlt|n s ds r a Hn].
  - destruct e as [t ec|i r|]; simpl in Hs; try done. case_decide; simplify_eq/=.
    rewrite decide_True by done. eexists. split; [done|]. pose proof Hf as [Hf1 Hf2].
    remember (attempt_fn fuel) as again eqn:Hagain.
    unfold run, state_handle_result, decide_prog, read. exec_step. rewrite dec_enc. exec_step.
    destruct (decidef _ s r) as [s' [w|[|oa|oe]]]; cbn [fst snd]; exec_step.
    + apply (rel_finished (Datatypes.S (length ds)) s' ds (Err (make_error (-1) w))). lia.
    + unfold fail_with. destruct r as [v|e]; exec_step; (apply (rel_finished (Datatypes.S (length ds)) s' ds); lia).
    + destruct (Z.leb_spec max_attempts (Z.of_nat (length ds) + 1)); exec_step.
      * unfold exhausted_prog, read. exec_step. rewrite dec_enc. exec_step.
        destruct (exhaustedf _ s' r) as [w|e]; exec_step; unfold fail_with; exec_step;
          (apply (rel_finished (Datatypes.S (length ds)) s' ds); lia).
      * unfold schedule_retry. exec_step. unfold w_timer. cbn.
        pose proof (rel_pausing s' ds (default default_interval oa) fuel) as Hrel.
        unfold state_world, fuel_ok in Hrel. cbn in Hrel. rewrite length_app in Hrel. cbn [length] in Hrel.
        replace (length ds + 1) with (Datatypes.S (length ds)) in Hrel by lia.
        replace (Z.of_nat (length ds) + 1)%Z with (Z.of_nat (Datatypes.S (length ds))) by lia.
        rewrite Hagain. apply Hrel; [by split|lia].
    + unfold fail_with. exec_step. apply (rel_finished (Datatypes.S (length ds)) s' ds). lia.
  - destruct e as [t ec|i r|]; simpl in Hs; try done. case_decide; simplify_eq/=.
    assert (Datatypes.S (length ds) = length (ds ++ [d])) as Hlen by (rewrite length_app; simpl; lia).
    rewrite decide_True by done. eexists. split; [done|]. pose proof Hf as [Hf1 Hf2].
    destruct ec as [msg|].
    + unfold run, state_on_timer. exec_step.
      by apply (rel_finished (length (ds ++ [d])) s (ds ++ [d]) (Err (timer_error msg))); lia.
    + assert (exists f, fuel = Datatypes.S f) as [f ->] by (destruct fuel; [lia|eauto]).
      cbn [state_on_timer]. pose proof (attempt_starts s (ds ++ [d]) f) as Hstart.
      apply Hstart. unfold fuel_ok in *. lia.
  - destruct e as [t ec|i r'|]; by simpl in Hs.
Qed.
(** *** The machine stops *)

(** The phases the loop can be in. *)
Definition phase_ok (p : poll_phase T S) : Prop :=
  match p with
  | Trying _ ds | Pausing _ ds => (Z.of_nat (length ds) < max_attempts)%Z
  | Finished n _ _ _ => (Z.of_nat n <= Z.max 0 max_attempts)%Z
  end.

(** The replies and expiries that can still come. *)
Definition budget (p : poll_phase T S) : Z :=
  match p with
  | Trying _ ds => 2 * (max_attempts - Z.of_nat (length ds)) - 1
  | Pausing _ ds => 2 * (max_attempts - Z.of_nat (length ds))
  | Finished _ _ _ _ => 0
  end.

Lemma try_job_ok s ds :
  (Z.of_nat (length ds) < max_attempts)%Z ->
  phase_ok (try_job jobf s ds) /\
  (0 <= budget (try_job jobf s ds) <= 2 * (max_attempts - Z.of_nat (length ds)) - 1)%Z.
Proof.
  intros Hlt. unfold try_job. destruct (jobf _ s); simpl; lia.
Qed.

Lemma budget_step e p p' :
  nxt e p = Some p' -> phase_ok p -> phase_ok p' /\ (0 <= budget p' < budget p)%Z.
Proof.
  intros Hn Hok. destruct p as [s ds|s ds|n s ds r], e as [t ec|i r'|]; try done; simpl in Hn, Hok;
    case_decide; simplify_eq/=.
  - destruct (decidef _ s r') as [s' [w|[|oa|oe]]]; simpl; try lia.
    destruct (Z.leb_spec max_attempts (Z.of_nat (length ds) + 1)); simpl; [lia|].
    rewrite length_app. simpl. lia.
  - destruct ec as [msg|]; simpl; [lia|]. pose proof (try_job_ok s ds Hok). intuition lia.
Qed.

Lemma phases_budget es p p' :
  state_phases max_attempts default_interval jobf decidef exhaustedf es p = Some p' -> phase_ok p ->
  phase_ok p' /\ (0 <= budget p' /\ Z.of_nat (length es) + budget p' <= budget p \/ es = [] /\ p' = p)%Z.
Proof.
  revert p. induction es as [|e es IH]; intros p Hp Hok; simpl in Hp.
  - simplify_eq. auto.
  - destruct (nxt e p) as [p1|] eqn:Hn; [|done].
    destruct (budget_step e p p1 Hn Hok) as [Hok1 Hb].
    destruct (IH p1 Hp Hok1) as [Hok' [Hb'|[-> ->]]]; split; auto; left; simpl; lia.
Qed.

(** *** From the launch on *)

Definition poll_first : S -> poll_phase T S := first_phase max_attempts jobf.
Definition poll_launch (s : S) : wrld :=
  run (io ← poll_with_state_impl max_attempts default_interval s job_prog decide_prog exhausted_prog no_hooks;
       io emit) world0.

Lemma launch_rel s : state_rel (poll_first s) (poll_launch s).
Proof using Hmax.
  assert (poll_launch s = run (attempt_fn (Datatypes.S (attempts_fuel max_attempts)))
    (mkWorld [enc s; VInt 0; VBool true] [] 0 [] 0 [] [] [] [] [] false)) as -> by reflexivity.
  unfold poll_first, first_phase. destruct (Z.leb_spec max_attempts 0) as [Hle|Hgt].
  - unfold run. cbn [state_do_attempt]. exec_step. destruct (Z.leb_spec max_attempts 0); [|lia]. exec_step.
    apply (rel_finished 0 s [] (Err attempts_exhausted)). lia.
  - apply (attempt_starts s [] (attempts_fuel max_attempts)). unfold fuel_ok, attempts_fuel. simpl. lia.
Qed.

(** The handlers the executor still has to run. *)
Definition awaited (p : poll_phase T S) (w : wrld) : Prop :=
  match p with
  | Trying _ ds => map fst w.(ops) = [length ds] /\ w.(timers) = []
  | Pausing _ ds => map (fun t => Datatypes.S (fst t)) w.(timers) = [length ds] /\ w.(ops) = []
  | Finished _ _ _ _ => w.(ops) = [] /\ w.(timers) = []
  end.

(** What a world shows of a phase. *)
Definition shows_phase (p : poll_phase T S) (w : wrld) : Prop :=
  w.(heap) !! 0 = Some (enc (phase_state p)) /\ w.(trace) = phase_results p /\
  w.(started) = replicate (phase_ops p) o /\ w.(armed) = phase_waits p /\
  w.(faulted) = false /\ w.(escaped) = [] /\ awaited p w.

Lemma state_rel_shows p w : state_rel p w -> shows_phase p w.
Proof.
  destruct 1; unfold shows_phase, awaited, state_world; simpl; try by repeat split.
  rewrite length_app. simpl. repeat split. by rewrite Nat.add_1_r.
Qed.

Lemma first_ok s : phase_ok (poll_first s) /\ (0 <= budget (poll_first s) <= 2 * Z.max 0 max_attempts)%Z.
Proof.
  unfold poll_first, first_phase. destruct (Z.leb_spec max_attempts 0); simpl; [lia|].
  destruct (try_job_ok s []) as [Hok Hb]; [simpl; lia|]. simpl in *. split; [done|lia].
Qed.

Lemma state_simulates es : forall p w w',
  state_rel p w -> steps es w = Some w' ->
  exists p', state_phases max_attempts default_interval jobf decidef exhaustedf es p = Some p' /\ state_rel p' w'.
Proof using Hmax.
  induction es as [|e es IH]; intros p w w' HR Hs; simpl in *; [simplify_eq; eauto|].
  destruct (step e w) as [w1|] eqn:Hw; [|done].
  destruct (state_step _ _ _ _ HR Hw) as (p1 & -> & HR1). eauto.
Qed.

(** C22: under every schedule of replies and timer expiries, [poll_with_state]
    behaves as its machine: the job and the decision see the state the previous
    ones left and the number of the attempt, the wait is the one the decision asks
    for or the default, and one result is delivered (the decided value or error,
    the error of [on_exhausted] after the last attempt, a timer error, error -1
    for an exception); at most [max_attempts] operations are started, at most
    twice as many events can happen, and the attempt function is still there when
    a wait ends. *)
Theorem poll_with_state_refines s es w :
  steps es (poll_launch s) = Some w ->
  exists p, state_phases max_attempts default_interval jobf decidef exhaustedf es (poll_first s) = Some p /\
    shows_phase p w /\ (Z.of_nat (phase_ops p) <= Z.max 0 max_attempts)%Z /\
    (Z.of_nat (length es) <= 2 * Z.max 0 max_attempts)%Z.
Proof using Hmax.
  intros Hs. destruct (state_simulates es _ _ _ (launch_rel s) Hs) as (p & Hp & HR).
  exists p. split; [done|]. split; [by apply state_rel_shows|].
  destruct (first_ok s) as [Hok Hb]. destruct (phases_budget _ _ _ Hp Hok) as [Hok' Hlen].
  split; [destruct p; simpl in *; lia|]. destruct Hlen as [Hlen|[-> _]]; simpl; lia.
Qed.
End correct.

(** A poll that counts in its state: it retries below 3, with its own delay once
    the count is 2. *)
Definition count_job (n : Z) (s : Z) : str + Z := inr (s + 1)%Z.
Definition count_decide (n : Z) (s : Z) (r : Result Z Error) : Z * (str + PollControl) :=
  (s, inr (if (s <? 2)%Z then PollRetry None else if (s <? 3)%Z then PollRetry (Some 7%Z) else PollDone)).
Definition count_exhausted (n : Z) (s : Z) (r : Result Z Error) : str + Error := inr attempts_exhausted.
Definition count_demo : list (event (Result Z Error)) :=
  [EvOp 0 (Err JUST_AN_ERROR); EvTimer 0 None; EvOp 1 (Ok 1%Z); EvTimer 1 None; EvOp 2 (Ok 5%Z)].
Definition count_world : world nat (Result Z Error) (Result Z Error) :=
  default world0 (steps count_demo (poll_launch 5 50 9 count_job count_decide count_exhausted 0%Z)).

Lemma poll_with_state_refines_witness :
  exists p,
    state_phases 5 50 count_job count_decide count_exhausted count_demo (poll_first 5 count_job 0%Z) = Some p /\
    shows_phase 9 p count_world /\ count_world.(trace) = [Ok 5%Z] /\ count_world.(armed) = [50; 7]%Z.
Proof.
  destruct (poll_with_state_refines 5 50 9 count_job count_decide count_exhausted
    ltac:(vm_compute; split; discriminate) 0%Z count_demo count_world) as (p & Hp & Hsh & _).
  { vm_compute. reflexivity. }
  exists p. split; [exact Hp|]. split; [exact Hsh|]. split; vm_compute; reflexivity.
Defined.

(** The cell of the state is made when the IO is built: a second run of the same
    IO goes on from the state the first one left. *)
Definition rerun_world : world nat (Result Z Error) (Result Z Error) :=
  run (io ← poll_with_state 5 50 0%Z (job_prog 9 count_job) (decide_prog count_decide) no_hooks;
       io emit;; io emit) world0.
Lemma second_run_sees_state :
  (rerun_world.(heap) !! 0, rerun_world.(started)) = (Some (enc 2%Z), [9; 9]).
Proof. vm_compute. reflexivity. Qed.

(** The [try] around the job covers the callbacks that run before it returns: a
    callback that throws on the delivered value is called again, with error -1. *)
Definition immediate_job (n : Z) (state : loc) : prog nat (Result Z Error) (Result Z Error) (IO nat (Result Z Error) (Result Z Error) Z) :=
  mret (fun cb => cb (Ok 4%Z)).
Definition touchy_callback (r : Result Z Error) : prog nat (Result Z Error) (Result Z Error) unit :=
  emit r;; match r with Ok _ => Throw (StdExn (lit "no")) | Err _ => mret tt end.
Lemma throwing_callback_called_again :
  trace (run (io ← poll_with_state 3 50 0%Z immediate_job (fun _ _ _ => mret PollDone) no_hooks;
              io touchy_callback) world0)
  = [Ok 4%Z; Err (make_error (-1) (lit "no"))].
Proof. vm_compute. reflexivity. Qed.
