(* ===== verification/PollLegacy.v ===== *)
(** * The loops before the keep-alive changes ([src/include/io_monad_poll_if_legacy.hpp])

    The snapshot of the IO monad that is kept beside the current header.  Only its
    [retry_exponential_if] and [poll_if] are modelled here; its other combinators
    are those of [IoMonad] and [IoTimer].  The attempt function of [poll_if] is
    owned by a local variable of the thunk: the handlers have a weak pointer to it.
    It is a cell that says whether the function still exists.  Fuel as in
    [IoRetry]. *)

From Stdlib Require Import ZArith Lia Ascii String.
From stdpp Require Import base list gmap strings.
From S2P Require Import Prelude Json ResultMonad Asio IoMonad IoTimer IoRetry.

Section loops.
Context {O R X : Type}.
Abbreviation prg := (prog O R X).
Abbreviation IO := (IO O R X).

(** ** poll_if *)

Section poll.
Context {T : Type} (max_attempts interval : Z).
Context (satisfied : T -> prg bool) (retry_on_error : Error -> prg bool) (self : IO T).
Context (cb : callback O R X T).

Definition legacy_on_timer (do_attempt : loc) (attempt_fn : prg unit) (ec : error_code) : prg unit :=
  match ec with
  | Some msg => cb (Err (timer_error msg))
  | None => f ← read do_attempt; if (f : bool) then attempt_fn else mret tt
  end.

Definition legacy_wait (do_attempt : loc) (attempt_fn : prg unit) : prg unit :=
  _ ← timer interval (legacy_on_timer do_attempt attempt_fn);
  mret tt.

Definition legacy_handle_result (attempt do_attempt : loc) (attempt_fn : prg unit) (r : Result T Error) : prg unit :=
  match r with
  | Ok v => s ← satisfied v; if (s : bool) then cb r else legacy_wait do_attempt attempt_fn
  | Err e =>
      b ← retry_on_error e;
      stop ← (if (b : bool) then a ← read attempt; mret (max_attempts <=? a)%Z else mret true);
      if (stop : bool) then cb r else legacy_wait do_attempt attempt_fn
  end.

Fixpoint legacy_do_attempt (fuel : nat) (attempt do_attempt : loc) : prg unit :=
  match fuel with
  | 0 => Fault
  | S fuel' =>
      a ← read attempt;
      if (max_attempts <=? a)%Z then cb (Err attempts_exhausted)
      else
        int_incr attempt;;
        self (legacy_handle_result attempt do_attempt (legacy_do_attempt fuel' attempt do_attempt))
  end.

(** The thunk: [do_attempt] goes out of scope at its end, an exception included. *)
Definition legacy_poll_body : prg unit :=
  attempt ← new 0%Z;
  do_attempt ← new true;
  try_catch (legacy_do_attempt (S (attempts_fuel max_attempts)) attempt do_attempt)
    (fun e => Some (write do_attempt false;; Throw e));;
  write do_attempt false.
End poll.

Definition legacy_poll_if {T} (max_attempts interval : Z) (satisfied : T -> prg bool)
    (retry_on_error : Error -> prg bool) (self : IO T) : IO T :=
  fun cb => legacy_poll_body max_attempts interval satisfied retry_on_error self cb.
Definition legacy_poll_if_ex {T} (max_attempts interval : Z) (satisfied : T -> prg bool)
    (retry_on_error : Error -> prg bool) (self : IO T) : IO T :=
  fun cb => legacy_poll_body max_attempts interval satisfied retry_on_error self cb.
Definition legacy_iov_poll_if (max_attempts interval : Z) (satisfied : prg bool)
    (retry_on_error : Error -> prg bool) (self : IO unit) : IO unit :=
  legacy_poll_if max_attempts interval (fun _ => satisfied) retry_on_error self.
Definition legacy_iov_poll_if_ex (max_attempts interval : Z) (satisfied : prg bool)
    (retry_on_error : Error -> prg bool) (self : IO unit) : IO unit :=
  legacy_poll_if_ex max_attempts interval (fun _ => satisfied) retry_on_error self.

(** ** retry_exponential_if

    The attempt function owns itself through its captures; nothing empties it. *)

Section retry.
Context {T : Type} (max_attempts : Z) (should_retry : Error -> prg bool) (self : IO T).
Context (cb : callback O R X T).

Definition legacy_retry_on_timer (again : Z -> prg unit) (current_delay : Z) (ec : error_code) : prg unit :=
  match ec with
  | Some msg => cb (Err (timer_error msg))
  | None => d ← double_ms current_delay; again d
  end.

Definition legacy_retry_on_result (again : Z -> prg unit) (attempt : loc) (current_delay : Z)
    (r : Result T Error) : prg unit :=
  stop ← retry_stop max_attempts should_retry attempt r;
  if (stop : bool) then cb r
  else _ ← timer current_delay (legacy_retry_on_timer again current_delay); mret tt.

Fixpoint legacy_try_run (fuel : nat) (attempt : loc) (current_delay : Z) : prg unit :=
  match fuel with
  | 0 => Fault
  | S fuel' =>
      int_incr attempt;;
      self (legacy_retry_on_result (legacy_try_run fuel' attempt) attempt current_delay)
  end.
End retry.

Definition legacy_retry_exponential_if {T} (max_attempts initial_delay : Z)
    (should_retry : Error -> prg bool) (self : IO T) : IO T := fun cb =>
  attempt ← new 0%Z;
  legacy_try_run max_attempts should_retry self cb (attempts_fuel max_attempts) attempt initial_delay.

Definition legacy_retry_exponential {T} (max_attempts initial_delay : Z) (self : IO T) : IO T :=
  legacy_retry_exponential_if max_attempts initial_delay (fun _ => mret true) self.
Definition legacy_iov_retry_exponential_if (max_attempts initial_delay : Z)
    (should_retry : Error -> prg bool) (self : IO unit) : IO unit :=
  legacy_retry_exponential_if max_attempts initial_delay should_retry self.
Definition legacy_iov_retry_exponential (max_attempts initial_delay : Z) (self : IO unit) : IO unit :=
  legacy_iov_retry_exponential_if max_attempts initial_delay (fun _ => mret true) self.
End loops.

(** ** Polling stops after one attempt *)

Section poll_correct.
Context {T : Type}.
Context (max_attempts interval : Z) (satisfied : T -> bool) (retry_on_error : Error -> bool) (o : nat).
Context (Hpos : (0 < max_attempts)%Z).
Abbreviation wrld := (world nat (Result T Error) (Result T Error)).

Definition legacy_launch : wrld :=
  launch (T := T) (legacy_poll_if max_attempts interval (fun v => mret (satisfied v)) (fun e => mret (retry_on_error e)) (io_op o)).

(** The reply to the first attempt that ends the loop. *)
Definition legacy_final (r : Result T Error) : bool :=
  match r with Ok v => satisfied v | Err e => negb (retry_on_error e) || (max_attempts <=? 1)%Z end.

(** What is delivered under a schedule; there is no third event. *)
Definition legacy_results (es : list (event (Result T Error))) : list (Result T Error) :=
  match es with
  | [EvOp _ r] => if legacy_final r then [r] else []
  | [EvOp _ _; EvTimer _ (Some msg)] => [Err (timer_error msg)]
  | _ => []
  end.

Lemma legacy_launch_world :
  exists h again, legacy_launch = mkWorld [VInt 1; VBool false] [] 0 [(0, h)] 1 [] [] [o] [] [] false /\
    forall r, h r = legacy_handle_result (O := nat) (R := Result T Error) max_attempts interval
      (fun v => mret (satisfied v)) (fun e => mret (retry_on_error e)) emit 0 1 again r.
Proof using Hpos.
  unfold legacy_launch, launch, legacy_poll_if, legacy_poll_body, run. remember (attempts_fuel max_attempts) as fuel.
  eexists _, _. split; [|reflexivity].
  cbn [legacy_do_attempt]. exec_step. rewrite exec_try_catch. exec_step.
  destruct (Z.leb_spec max_attempts 0); [lia|]. unfold int_incr. exec_step. reflexivity.
Qed.

(** The polling of the snapshot makes one attempt.  Whatever the schedule, it
    starts one operation and handles at most two events; a reply that ends the
    loop is delivered, but after any other reply the end of the wait finds the
    attempt function destroyed: nothing is started, nothing is left to run and
    nothing is ever delivered. *)
Theorem legacy_poll_single_attempt es w :
  steps es legacy_launch = Some w ->
  w.(started) = [o] /\ w.(trace) = legacy_results es /\ w.(faulted) = false /\ w.(escaped) = [] /\
  (length es <= 2)%nat /\
  (forall i t r, es = [EvOp i r; EvTimer t None] ->
     legacy_final r = false /\ w.(trace) = [] /\ w.(ops) = [] /\ w.(timers) = [] /\ w.(posted) = []).
Proof using Hpos.
  destruct legacy_launch_world as (h & again & -> & Hh). intros Hs.
  destruct es as [|[t ec|i r|] es]; simpl in Hs; simplify_eq/=; [by split_and!; try lia|].
  case_decide; simplify_eq/=. rewrite Hh in Hs.
  assert (run (legacy_handle_result max_attempts interval (fun v => mret (satisfied v))
      (fun e => mret (retry_on_error e)) emit 0 1 again r)
      (mkWorld [VInt 1; VBool false] [] 0 [] 1 [] [] [o] [] [] false) =
    if legacy_final r then mkWorld [VInt 1; VBool false] [] 0 [] 1 [] [] [o] [r] [] false
    else mkWorld [VInt 1; VBool false] [(0, legacy_on_timer emit 1 again)] 1 [] 1 [] [interval] [o] [] [] false) as Hrun.
  { unfold run, legacy_handle_result, legacy_wait, legacy_final. destruct r as [v|e].
    - exec_step. by destruct (satisfied v).
    - exec_step. destruct (retry_on_error e); exec_step; [|done]. by destruct (max_attempts <=? 1)%Z. }
  unfold w_ops in Hs. simpl in Hs. rewrite Hrun in Hs. clear Hrun.
  destruct es as [|e2 es]; simpl in Hs; simplify_eq/=; [by destruct (legacy_final r); split_and!; simpl; try lia|].
  destruct (legacy_final r) eqn:Hf; [by destruct e2|].
  destruct e2 as [t ec|i r2|]; simpl in Hs; simplify_eq/=. case_decide; simplify_eq/=.
  destruct ec as [msg|]; unfold run, legacy_on_timer in Hs; simpl in Hs;
    (destruct es as [|e3 es]; simpl in Hs; [|by destruct e3]); simplify_eq/=;
    split_and!; try done; intros ??? [=]; by subst.
Qed.
End poll_correct.

(** One unsatisfying value: the loop is dead, where the current one goes on. *)
Definition legacy_demo : list (event (Result Z Error)) := [EvOp 0 (Ok 1%Z); EvTimer 0 None].
Definition legacy_demo_world : world nat (Result Z Error) (Result Z Error) :=
  default world0 (steps legacy_demo (legacy_launch 2 50 (fun v => bool_decide (v = 9%Z)) (fun _ => true) 7)).

Lemma legacy_poll_single_attempt_witness :
  legacy_demo_world.(trace) = [] /\ legacy_demo_world.(started) = [7] /\ legacy_demo_world.(ops) = [].
Proof.
  destruct (legacy_poll_single_attempt (T := Z) 2 50 (fun v => bool_decide (v = 9%Z)) (fun _ => true) 7
    ltac:(lia) legacy_demo legacy_demo_world) as (Hst & Htr & _ & _ & _ & Hd).
  { vm_compute. reflexivity. }
  split; [exact Htr|]. split; [exact Hst|]. exact (proj1 (proj2 (proj2 (Hd 0 0 (Ok 1%Z) eq_refl)))).
Defined.

(** ** Retrying is the same as today *)

Section retry_correct.
Context {T : Type}.
Context (max_attempts initial_delay : Z) (should_retry : Error -> bool) (o : nat).
Context (Hmax : in_int32 max_attempts).
Abbreviation wrld := (world nat (Result T Error) (Result T Error)).
Abbreviation sr := (fun e => mret (should_retry e)).
Abbreviation again fuel := (legacy_try_run (T := T) (O := nat) (R := Result T Error) (X := Result T Error) max_attempts sr (io_op o) emit fuel 0).
Abbreviation delays := (retry_delay initial_delay).

Definition legacy_world (p : phase T) tms ops : wrld :=
  mkWorld [VInt (Z.of_nat (attempts p))] tms (sleeps p) ops (attempts p) []
    (map delays (seq 0 (sleeps p))) (replicate (attempts p) o) (results p) [] false.

Inductive legacy_rel : phase T -> wrld -> Prop :=
  | legacy_rel_waiting k fuel :
      (Z.of_nat k < Z.max 1 max_attempts)%Z -> (max_attempts <= Z.of_nat (fuel + S k))%Z ->
      legacy_rel (Waiting k) (legacy_world (Waiting k) []
        [(k, legacy_retry_on_result max_attempts sr emit (again fuel) 0 (delays k))])
  | legacy_rel_sleeping k fuel :
      (Z.of_nat (S k) < max_attempts)%Z -> (max_attempts <= Z.of_nat (fuel + S k))%Z ->
      legacy_rel (Sleeping k) (legacy_world (Sleeping k)
        [(k, legacy_retry_on_timer emit (again fuel) (delays k))] [])
  | legacy_rel_done a s r :
      (Z.of_nat a <= Z.max 1 max_attempts)%Z -> (s <= a)%nat ->
      legacy_rel (Done a s r) (legacy_world (Done a s r) [] []).

Lemma legacy_again_waiting k fuel n s :
  (Z.of_nat k < Z.max 1 max_attempts)%Z ->
  run (again (S fuel) (delays k))
    (mkWorld [VInt (Z.of_nat k)] [] k [] n [] (map delays (seq 0 k)) s [] [] false) =
  mkWorld [VInt (Z.of_nat (S k))] [] k
    [(n, legacy_retry_on_result max_attempts sr emit (again fuel) 0 (delays k))]
    (S n) [] (map delays (seq 0 k)) (s ++ [o]) [] [] false.
Proof using Hmax.
  intros Hk. unfold run. cbn [legacy_try_run]. unfold int_incr. exec_step. unfold read. simpl.
  rewrite decide_True by (unfold in_int32, INT_MIN, INT_MAX in *; lia). simpl.
  by replace (Z.of_nat (S k)) with (Z.of_nat k + 1)%Z by lia.
Qed.

Lemma legacy_retry_step e p w w' :
  legacy_rel p w -> step e w = Some w' ->
  (exists p', retry_next max_attempts initial_delay should_retry e p = Some p' /\ legacy_rel p' w') \/
  retry_bad max_attempts initial_delay o e p w'.
Proof using Hmax.
  intros HR Hs. destruct HR as [k fuel Hk Hf|k fuel Hk Hf|a s r Ha Hsl].
  - left. destruct e as [t ec|i r|]; simpl in Hs; try done.
    case_decide; simplify_eq/=. rewrite decide_True by done. unfold run. destruct r as [v|err]; simpl.
    + eexists; split; [done|]. by apply (legacy_rel_done (S k) k (Ok v)); lia.
    + rewrite Z.leb_antisym. destruct (Z.of_nat (S k) <? max_attempts)%Z eqn:Hlt; simpl; bool_to_prop.
      * destruct (should_retry err); simpl; (eexists; split; [done|]).
        -- unfold w_timer, w_ops, legacy_world. cbn -[seq]. rewrite map_seq_snoc.
           by apply (legacy_rel_sleeping k fuel).
        -- apply (legacy_rel_done (S k) k (Err err)); lia.
      * eexists; split; [done|]. apply (legacy_rel_done (S k) k (Err err)); lia.
  - destruct e as [t ec|i r|]; simpl in Hs; try done.
    case_decide; simplify_eq/=. rewrite decide_True by done.
    destruct ec as [msg|]; cbn [legacy_retry_on_timer].
    + left. eexists; split; [done|]. unfold run. simpl.
      apply (legacy_rel_done (S k) (S k) (Err (timer_error msg))); lia.
    + unfold run, double_ms. exec_step. rewrite retry_delay_double.
      destruct (decide (in_int64 (delays (S k)))) as [Hin|Hout].
      * left. eexists; split; [done|].
        assert (exists f, fuel = S f) as [f ->] by (destruct fuel; [lia|eauto]). simpl.
        pose proof (legacy_again_waiting (S k) f (S k) (replicate (S k) o)) as Hrun.
        unfold run in Hrun. unfold w_timers. simpl in *. rewrite Hrun by lia.
        replace (o :: replicate k o ++ [o]) with (replicate (S (S k)) o) by (by rewrite <- (replicate_cons_app k)).
        apply (legacy_rel_waiting (S k) f); lia.
      * right. exists k. by repeat split.
  - destruct e; simpl in Hs; done.
Qed.

Lemma legacy_rel_init :
  legacy_rel (Waiting 0)
    (launch (T := T) (legacy_retry_exponential_if max_attempts initial_delay sr (io_op o))).
Proof using Hmax.
  assert (launch (T := T) (legacy_retry_exponential_if max_attempts initial_delay sr (io_op o)) =
    run (again (attempts_fuel max_attempts) initial_delay) (mkWorld [VInt 0] [] 0 [] 0 [] [] [] [] [] false)) as -> by reflexivity.
  pose proof (legacy_again_waiting 0 (Z.to_nat max_attempts) 0 []) as Hr.
  assert (initial_delay = delays 0) as Hd by (unfold retry_delay; simpl; lia). rewrite <- Hd in Hr.
  unfold attempts_fuel. change (VInt 0) with (VInt (Z.of_nat 0)).
  change (@nil Z) with (map delays (seq 0 0)). rewrite Hr by lia.
  pose proof (legacy_rel_waiting 0 (Z.to_nat max_attempts)) as Hrel. rewrite <- Hd in Hrel. apply Hrel; lia.
Qed.

(** The retry loop of the snapshot implements the same machine as
    [IoRetry.retry_exponential_if]. *)
Lemma legacy_retry_refines es w :
  steps es (launch (T := T) (legacy_retry_exponential_if max_attempts initial_delay sr (io_op o))) = Some w ->
  retry_outcome max_attempts initial_delay should_retry o es w.
Proof using Hmax.
  intros Hs.
  destruct (simulates_until _ _ _ legacy_retry_step (retry_bad_over max_attempts initial_delay o) es _ _ _
    legacy_rel_init Hs) as [(p & Hp & HR)|(es' & e & p & -> & Hp & Hb)]; [|by apply (bad_outcome _ _ _ _ es' e p)].
  left. exists p. split; [done|]. destruct HR; (split; [|simpl; lia]); split_and!; try done; by split.
Qed.
End retry_correct.
