(* ===== verification/IoCollect.v ===== *)
(** * Collecting IOs on an executor ([src/include/io_monad.hpp])

    The sequential collectors ([collect_io], [collect_result_io], [all_ok_io])
    and the chunked parallel one.  [collect_io_parallel] is given here as the
    body an executor runs; its callbacks on several threads are in
    [ParallelCollect]. *)

From Stdlib Require Import ZArith Lia Ascii String.
From stdpp Require Import base list gmap strings.
From S2P Require Import Prelude Json ResultMonad Asio IoMonad.

Section collect.
Context {O R X : Type}.
Abbreviation prg := (prog O R X).
Abbreviation IO := (IO O R X).

(** ** Sequential *)

Section sequential.
Context {T : Type} `{Enc T} (items : list (IO T)).

(** [*step]: the recursion goes through the callback of the current item, one
    item further each time, so [S (length items)] is enough fuel. *)
Fixpoint collect_io_step (cb : callback O R X (list T)) (fuel : nat) (out idx : loc) : prg unit :=
  match fuel with
  | 0 => Fault
  | S fuel' =>
      i ← read idx;
      match items !! Z.to_nat i with
      | None => o ← read (T := list T) out; write (T := list T) out [];; cb (Ok o)
      | Some current =>
          current (fun r =>
            match r with
            | Err e => cb (Err e)
            | Ok v =>
                o ← read (T := list T) out;
                write (T := list T) out (o ++ [v]);;
                j ← read idx;
                write idx (j + 1)%Z;;
                collect_io_step cb fuel' out idx
            end)
      end
  end.

Definition collect_io : IO (list T) := fun cb =>
  out ← new (T := list T) [];
  idx ← new 0%Z;
  collect_io_step cb (S (length items)) out idx.

(** The raw results: no error stops it. *)
Fixpoint collect_result_io_step (cb : callback O R X (list (Result T Error)))
    (fuel : nat) (out idx : loc) : prg unit :=
  match fuel with
  | 0 => Fault
  | S fuel' =>
      i ← read idx;
      match items !! Z.to_nat i with
      | None =>
          o ← read (T := list (Result T Error)) out;
          write (T := list (Result T Error)) out [];; cb (Ok o)
      | Some current =>
          current (fun r =>
            o ← read (T := list (Result T Error)) out;
            write out (o ++ [r]);;
            j ← read idx;
            write idx (j + 1)%Z;;
            collect_result_io_step cb fuel' out idx)
      end
  end.

Definition collect_result_io : IO (list (Result T Error)) := fun cb =>
  out ← new (T := list (Result T Error)) [];
  idx ← new 0%Z;
  collect_result_io_step cb (S (length items)) out idx.
End sequential.

Fixpoint all_ok_io_step (items : list (IO unit)) (cb : callback O R X unit)
    (fuel : nat) (idx : loc) : prg unit :=
  match fuel with
  | 0 => Fault
  | S fuel' =>
      i ← read idx;
      match items !! Z.to_nat i with
      | None => cb (Ok tt)
      | Some current =>
          current (fun r =>
            match r with
            | Err e => cb (Err e)
            | Ok _ =>
                j ← read idx;
                write idx (j + 1)%Z;;
                all_ok_io_step items cb fuel' idx
            end)
      end
  end.

Definition all_ok_io (items : list (IO unit)) : IO unit := fun cb =>
  idx ← new 0%Z;
  all_ok_io_step items cb (S (length items)) idx.

(** ** Parallel *)

Section parallel.
Context {T : Type} `{Enc T}.

Definition parallel_callback (cb : callback O R X (list T)) (results remaining done : loc)
    (index : nat) (r : Result T Error) : prg unit :=
  d ← read done;
  if (d : bool) then mret tt else
  match r with
  | Err e => write done true;; cb (Err e)
  | Ok v =>
      rs ← read (T := list (option T)) results;
      write results (<[index := Some v]> rs);;
      n ← read remaining;
      write remaining (n - 1)%Z;;
      if (n =? 1)%Z then
        d ← read done;
        if (d : bool) then mret tt else
        write done true;;
        rs ← read (T := list (option T)) results;
        match mapM id rs with
        | Some final => cb (Ok final)
        | None => Throw (StdExn (lit "bad optional access"))
        end
      else mret tt
  end.

Fixpoint parallel_loop (handler : nat -> callback O R X T) (items : list (IO T)) (idx : nat) :
    prg unit :=
  match items with
  | [] => mret tt
  | current :: items' => current (handler idx);; parallel_loop handler items' (S idx)
  end.

Definition collect_io_parallel (items : list (IO T)) : IO (list T) := fun cb =>
  match items with
  | [] => cb (Ok [])
  | _ =>
      results ← new (T := list (option T)) (replicate (length items) None);
      remaining ← new (Z.of_nat (length items));
      done ← new false;
      parallel_loop (parallel_callback cb results remaining done) items 0
  end.

(** The [while (index < items.size())] loop: [items] from [index] on. *)
Fixpoint make_chunks {A} (concurrency fuel : nat) (items : list A) : list (list A) :=
  match fuel with
  | 0 => []
  | S fuel' =>
      match items with
      | [] => []
      | _ => take concurrency items :: make_chunks concurrency fuel' (drop concurrency items)
      end
  end.

Definition collect_io_parallel_bounded (items : list (IO T)) (concurrency : nat) : IO (list T) :=
  if (concurrency <=? 1)%nat then collect_io items
  else if (length items =? 0)%nat || (length items <=? concurrency)%nat
  then collect_io_parallel items
  else
    io_map (fun nested => Ret (concat nested))
      (collect_io (map collect_io_parallel (make_chunks concurrency (length items) items))).
End parallel.
End collect.

(** ** Chunks *)

Lemma make_chunks_spec {A} c fuel (items : list A) :
  (1 <= c)%nat -> (length items <= fuel)%nat ->
  concat (make_chunks c fuel items) = items /\
  Forall (fun ch => 1 <= length ch <= c)%nat (make_chunks c fuel items).
Proof.
  intros Hc. revert items; induction fuel as [|fuel IH]; intros items Hf.
  - by destruct items; [|simpl in Hf; lia].
  - destruct items as [|x items]; [done|]. cbn [make_chunks]. simpl in Hf.
    destruct (IH (drop c (x :: items))) as [Hcat Hall].
    { rewrite length_drop. simpl. lia. }
    cbn [concat]. rewrite Hcat, take_drop. split; [done|].
    constructor; [|done]. rewrite length_take. simpl. lia.
Qed.

(** ** [collect_io] under every schedule *)

Section collect_io_correct.
Context {T : Type} `{Enc T} (os : list nat).
Abbreviation wrld := (world nat (Result T Error) (Result (list T) Error)).

Definition op_items : list (IO nat (Result T Error) (Result (list T) Error) T) := map start os.

Fixpoint op_replies (k : nat) (rs : list (Result T Error)) : list (event (Result T Error)) :=
  match rs with
  | [] => []
  | r :: rs' => EvOp k r :: op_replies (S k) rs'
  end.

(** All the replies, or a failure among them, complete the collection. *)
Definition complete (rs : list (Result T Error)) : bool :=
  (length rs =? length os)%nat || existsb is_err rs.

Definition collect_world (vs : list T) ops started tr : wrld :=
  mkWorld [enc vs; VInt (Z.of_nat (length vs))] [] 0 ops (length started) [] [] started tr [] false.

Definition collect_handler (fuel : nat) (r : Result T Error) :=
  match r with
  | Err e => emit (Err e)
  | Ok v =>
      o ← read (T := list T) 0;
      write (T := list T) 0 (o ++ [v]);;
      j ← read 1;
      write 1 (j + 1)%Z;;
      collect_io_step op_items emit fuel 0 1
  end : prog nat (Result T Error) (Result (list T) Error) unit.

(** The body started with [vs] collected: ask for the next item, or deliver. *)
Lemma collect_body vs fuel :
  (length vs <= length os)%nat ->
  let w := run (collect_io_step op_items emit (S fuel) 0 1)
    (collect_world vs [] (take (length vs) os) []) in
  match os !! length vs with
  | None =>
      w.(trace) = [Ok vs] /\ w.(started) = os /\ w.(ops) = [] /\ w.(timers) = [] /\
      w.(posted) = [] /\ w.(faulted) = false /\ w.(escaped) = []
  | Some _ =>
      w = collect_world vs [(length vs, collect_handler fuel)] (take (S (length vs)) os) []
  end.
Proof.
  intros Hlen. cbv zeta. cbn [collect_io_step].
  erewrite run_mbind by reflexivity. rewrite Nat2Z.id.
  assert (op_items !! length vs = start <$> os !! length vs) as -> by apply list_lookup_fmap.
  destruct (os !! length vs) as [o|] eqn:Ho; cbn [fmap option_fmap option_map].
  - unfold run, collect_world. cbn -[take]. rewrite (take_S_r _ _ _ Ho).
    unfold w_start. cbn. rewrite length_app, length_take. simpl.
    replace (length vs `min` length os) with (length vs) by lia.
    by replace (length vs + 1)%nat with (S (length vs)) by lia.
  - apply lookup_ge_None in Ho. rewrite (firstn_all2 os) by lia.
    erewrite run_mbind; [|apply (exec_read 0 vs); done].
    erewrite run_mbind; [|apply exec_write; simpl; lia]. by repeat split.
Qed.

Lemma collect_world_take vs v fuel w :
  (S (length vs) <= length os)%nat -> w = collect_world vs [] (take (S (length vs)) os) [] ->
  run (collect_handler fuel (Ok v)) w =
  run (collect_io_step op_items emit fuel 0 1)
    (collect_world (vs ++ [v]) [] (take (length (vs ++ [v])) os) []).
Proof.
  intros Hl ->. unfold collect_handler.
  erewrite run_mbind; [|apply (exec_read 0 vs); done].
  erewrite run_mbind; [|apply exec_write; simpl; lia].
  erewrite run_mbind; [|apply (exec_read 1 (Z.of_nat (length vs))); done].
  erewrite run_mbind; [|apply exec_write; simpl; lia].
  unfold collect_world. rewrite length_app. simpl.
  replace (length vs + 1)%nat with (S (length vs)) by lia.
  replace (Z.of_nat (S (length vs))) with (Z.of_nat (length vs) + 1)%Z by lia. done.
Qed.

Definition collect_outcome (vs : list T) (rs : list (Result T Error)) (w : wrld) : Prop :=
  let fin := (length vs + length rs =? length os)%nat || existsb is_err rs in
  w.(trace) = (if fin then [result_map (app vs) (collect_results rs)] else []) /\
  w.(started) = take (length vs + length rs + b2n (negb fin)) os /\
  w.(faulted) = false /\ w.(escaped) = [].

Lemma collect_schedule es vs fuel w :
  (length os <= fuel + length vs)%nat -> (length vs < length os)%nat ->
  steps es (collect_world vs [(length vs, collect_handler fuel)] (take (S (length vs)) os) [])
    = Some w ->
  exists rs, es = op_replies (length vs) rs /\
    existsb is_err (removelast rs) = false /\ (length vs + length rs <= length os)%nat /\
    collect_outcome vs rs w.
Proof.
  revert vs fuel. induction es as [|e es IH]; intros vs fuel Hf Hl Hs; simpl in Hs.
  - simplify_eq. exists []. unfold collect_outcome. simpl. rewrite Nat.add_0_r.
    destruct (Nat.eqb_spec (length vs) (length os)); [lia|]. simpl.
    rewrite Nat.add_comm. by split_and!; try lia.
  - destruct e as [t ec|i r|]; simpl in Hs; try done. case_decide; [subst i|done].
    destruct r as [v|e].
    + erewrite (collect_world_take vs v fuel) in Hs by (done || lia).
      assert (exists f, fuel = S f) as [f ->] by (destruct fuel; [lia|eauto]).
      assert (Hlen : length (vs ++ [v]) = S (length vs)) by (rewrite length_app; simpl; lia).
      pose proof (collect_body (vs ++ [v]) f ltac:(lia)) as Hb. cbv zeta in Hb.
      set (w1 := run (collect_io_step _ _ _ _ _) _) in *. clearbody w1.
      destruct (os !! length (vs ++ [v])) as [o|] eqn:Ho.
      * rewrite Hb in Hs. apply lookup_lt_Some in Ho.
        destruct (IH (vs ++ [v]) f ltac:(lia) ltac:(lia) Hs) as (rs & -> & Hrl & Hle & Ht & Hst & Hrest).
        rewrite Hlen in *. exists (Ok v :: rs). split; [done|].
        unfold collect_outcome in *. cbn [length existsb is_err orb] in *.
        replace (S (length vs) + length rs)%nat with (length vs + S (length rs))%nat in * by lia.
        split; [by destruct rs|]. split; [lia|]. split_and!; try done; try apply Hrest.
        rewrite Ht, collect_results_cons. simpl.
        destruct (collect_results rs); simpl; rewrite <- ?app_assoc; done.
      * apply lookup_ge_None in Ho. destruct Hb as (Ht & Hst & Hop & Htm & Hp & Hfa & Hes).
        destruct es as [|[t ec|i r|] es]; simpl in Hs;
          rewrite ?Htm, ?Hop, ?Hp in Hs; simpl in Hs; try done. injection Hs as <-.
        exists [Ok v]. split; [done|]. split; [done|]. unfold collect_outcome. simpl.
        rewrite Hlen in Ho. replace (length vs + 1)%nat with (length os) by lia.
        rewrite Nat.eqb_refl. simpl. split; [lia|]. split_and!; try done.
        rewrite Hst, firstn_all2; [done|lia].
    + unfold run in Hs. simpl in Hs.
      destruct es as [|[t ec|i r|] es]; simpl in Hs; try done. injection Hs as <-.
      exists [Err e]. split; [done|]. split; [done|]. unfold collect_outcome. simpl.
      rewrite orb_true_r. simpl. split; [lia|]. split_and!; try done. f_equal. lia.
Qed.

(** Whatever the executor does, [collect_io] runs its items one at a time, in
    order, starting the next only after the previous one succeeded; it delivers
    exactly once, when the last item has answered or one has failed, and what it
    delivers is [collect_results] of the replies: all the values in order, or
    the first error.  Its loop never runs out of fuel. *)
Theorem collect_io_sequential es w :
  steps es (run (collect_io op_items emit) world0) = Some w ->
  exists rs, es = op_replies 0 rs /\
    existsb is_err (removelast rs) = false /\ (length rs <= length os)%nat /\
    w.(trace) = (if complete rs then [collect_results rs] else []) /\
    w.(started) = take (length rs + b2n (negb (complete rs))) os /\
    w.(faulted) = false /\ w.(escaped) = [].
Proof.
  intros Hs.
  assert (Hb := collect_body [] (length os) ltac:(simpl; lia)). cbv zeta in Hb.
  change (run (collect_io op_items emit) world0) with
    (run (collect_io_step op_items emit (S (length op_items)) 0 1)
       (collect_world [] [] (take (length (@nil T)) os) [])) in Hs.
  unfold op_items at 2 in Hs. rewrite length_map in Hs. simpl length in *.
  set (w1 := run (collect_io_step _ _ _ _ _) _) in *. clearbody w1.
  destruct (os !! 0) as [o|] eqn:Ho.
  - rewrite Hb in Hs. apply lookup_lt_Some in Ho.
    destruct (collect_schedule es [] (length os) w ltac:(simpl; lia) Ho Hs)
      as (rs & -> & Hrl & Hle & Ht & Hst & Hrest).
    exists rs. simpl in *. split_and!; try done; try apply Hrest.
    fold (complete rs) in Ht. rewrite Ht. destruct (complete rs); [|done].
    by destruct (collect_results rs).
  - apply lookup_ge_None in Ho. destruct Hb as (Ht & Hst & Hop & Htm & Hp & Hfa & Hes).
    destruct es as [|[t ec|i r|] es]; simpl in Hs;
      rewrite ?Htm, ?Hop, ?Hp in Hs; simpl in Hs; try done. injection Hs as <-.
    exists []. unfold complete. simpl. destruct os; [|simpl in Ho; lia].
    by split_and!; try lia.
Qed.
End collect_io_correct.

(** The second of three items fails. *)
Definition collect_demo : list (event (Result Z Error)) :=
  [EvOp 0 (Ok 1%Z); EvOp 1 (Err JUST_AN_ERROR)].
Definition collect_demo_world : world nat (Result Z Error) (Result (list Z) Error) :=
  default world0 (steps collect_demo (run (collect_io (op_items [7; 8; 9]) emit) world0)).

Lemma collect_io_sequential_witness :
  (exists rs, collect_demo = op_replies 0 rs /\
     collect_demo_world.(started) = take (length rs + b2n (negb (complete [7; 8; 9] rs))) [7; 8; 9]) /\
  collect_demo_world.(trace) = [Err JUST_AN_ERROR].
Proof.
  destruct (collect_io_sequential (T := Z) [7; 8; 9] collect_demo collect_demo_world)
    as (rs & H1 & _ & _ & _ & H2 & _); [vm_compute; reflexivity|].
  split; [|vm_compute; reflexivity]. exists rs. split; [exact H1|exact H2].
Defined.
