(* ===== verification/ParallelCollect.v ===== *)
(** * Racing callbacks ([src/include/io_monad.hpp]: collect_io_parallel, collect_result_parallel)

    The callbacks of the items may run on different threads.  Each callback is a
    thread of atomic actions on the shared variables ([done], [remaining],
    [results]), interleaved in any order.  The updates of [results] under the
    mutex are single actions, as are the acquire/release operations of the
    atomics. *)

From Stdlib Require Import ZArith Lia Ascii String.
From stdpp Require Import base list gmap strings.
From S2P Require Import Prelude Json ResultMonad.

(** ** collect_io_parallel *)

Section collect.
Context {T : Type}.

(** Where the callback of one item is. *)
Inductive pc :=
  | Idle                                   (** not called yet *)
  | Loading (r : Result T Error)           (** at [done->load()] *)
  | Failing (e : Error)                    (** at the exchange of the error path *)
  | Storing (v : T)                        (** at the guarded [emplace] *)
  | Counting                               (** at [fetch_sub] *)
  | Finishing                              (** it saw 1: at the last exchange *)
  | Building                               (** assembling [final] *)
  | Delivering (r : Result (list T) Error) (** at the call of the callback *)
  | Finished (counted : bool)              (** returned, after [fetch_sub] or not *)
  | Crashed.                               (** [slot.value()] on an empty slot *)

Record shared := mkShared {
  slots : list (option T);              (** [results] *)
  remaining : Z;
  done : bool;
  threads : list pc;
  delivered : list (Result (list T) Error);
  called : list (option (Result T Error)); (** the results given so far *)
}.

(** The thunk: everything allocated, every item started.  The callback is called
    at once when there is no item. *)
Definition collect_start (n : nat) : shared :=
  match n with
  | 0 => mkShared [] 0 false [] [Ok []] []
  | _ => mkShared (replicate n None) (Z.of_nat n) false (replicate n Idle) []
           (replicate n None)
  end.

Definition set_thread (i : nat) (p : pc) (s : shared) : shared :=
  mkShared s.(slots) s.(remaining) s.(done) (<[i := p]> s.(threads)) s.(delivered) s.(called).

(** One atomic action of the callback of item [i]. *)
Definition thread_step (i : nat) (s : shared) : option shared :=
  match s.(threads) !! i with
  | Some (Loading r) =>
      Some (if s.(done) then set_thread i (Finished false) s
            else match r with
                 | Err e => set_thread i (Failing e) s
                 | Ok v => set_thread i (Storing v) s
                 end)
  | Some (Failing e) =>
      Some (if s.(done) then set_thread i (Finished false) s
            else mkShared s.(slots) s.(remaining) true
                   (<[i := Delivering (Err e)]> s.(threads)) s.(delivered) s.(called))
  | Some (Storing v) =>
      Some (mkShared (<[i := Some v]> s.(slots)) s.(remaining) s.(done)
              (<[i := Counting]> s.(threads)) s.(delivered) s.(called))
  | Some Counting =>
      Some (mkShared s.(slots) (s.(remaining) - 1) s.(done)
              (<[i := if (s.(remaining) =? 1)%Z then Finishing else Finished true]> s.(threads))
              s.(delivered) s.(called))
  | Some Finishing =>
      Some (if s.(done) then set_thread i (Finished true) s
            else mkShared s.(slots) s.(remaining) true
                   (<[i := Building]> s.(threads)) s.(delivered) s.(called))
  | Some Building =>
      match mapM id s.(slots) with
      | Some final => Some (set_thread i (Delivering (Ok final)) s)
      | None => Some (set_thread i Crashed s)
      end
  | Some (Delivering r) =>
      Some (mkShared s.(slots) s.(remaining) s.(done)
              (<[i := Finished (is_ok r)]> s.(threads)) (s.(delivered) ++ [r]) s.(called))
  | _ => None
  end.

(** Item [i] calls its callback, once, with [r]. *)
Definition call_step (i : nat) (r : Result T Error) (s : shared) : option shared :=
  match s.(threads) !! i with
  | Some Idle =>
      Some (mkShared s.(slots) s.(remaining) s.(done) (<[i := Loading r]> s.(threads))
              s.(delivered) (<[i := Some r]> s.(called)))
  | _ => None
  end.

Inductive collect_step : shared -> shared -> Prop :=
  | step_call i r s s' : call_step i r s = Some s' -> collect_step s s'
  | step_thread i s s' : thread_step i s = Some s' -> collect_step s s'.

(** ** Invariant *)

(** Past [fetch_sub]. *)
Definition counted (p : pc) : bool :=
  match p with
  | Finishing | Building | Delivering (Ok _) | Finished true | Crashed => true
  | _ => false
  end.
(** The thread that won the exchange and has not called back yet. *)
Definition winning (p : pc) : bool :=
  match p with Building | Delivering _ | Crashed => true | _ => false end.
Definition is_finishing (p : pc) : bool :=
  match p with Finishing => true | _ => false end.
Definition ended (p : pc) : bool :=
  match p with Finished _ => true | _ => false end.

(** What a thread knows of the result it was called with, and of its slot. *)
Definition thread_ok (s : shared) (i : nat) (p : pc) : Prop :=
  match p with
  | Idle => s.(called) !! i = Some None
  | Loading r => s.(called) !! i = Some (Some r)
  | Failing e | Delivering (Err e) => s.(called) !! i = Some (Some (Err e))
  | Storing v => s.(called) !! i = Some (Some (Ok v))
  | Counting | Finishing | Building | Delivering (Ok _) | Finished true | Crashed =>
      exists v, s.(called) !! i = Some (Some (Ok v)) /\ s.(slots) !! i = Some (Some v)
  | Finished false => exists r, s.(called) !! i = Some (Some r)
  end.

(** What is delivered agrees with the results given. *)
Definition answer_ok (s : shared) (r : Result (list T) Error) : Prop :=
  match r with
  | Ok vs => s.(called) = map (fun v => Some (Ok v)) vs
  | Err e => exists i, s.(called) !! i = Some (Some (Err e))
  end.

Record inv (s : shared) : Prop := {
  inv_len : length s.(slots) = length s.(threads);
  inv_len' : length s.(called) = length s.(threads);
  inv_threads i p : s.(threads) !! i = Some p -> thread_ok s i p;
  inv_remaining :
    (s.(remaining) + Z.of_nat (countb counted s.(threads)) = Z.of_nat (length s.(threads)))%Z;
  inv_winner :
    (length s.(delivered) + countb winning s.(threads) = b2n s.(done))%nat;
  inv_open i : s.(done) = false -> s.(threads) !! i <> Some (Finished false);
  inv_last : s.(done) = false -> s.(remaining) = 0%Z -> (0 < countb is_finishing s.(threads))%nat;
  inv_building i p : s.(threads) !! i = Some p ->
    match p with
    | Finishing | Building => s.(remaining) = 0%Z
    | Delivering r => answer_ok s r
    | Crashed => False
    | _ => True
    end;
  inv_delivered : Forall (answer_ok s) s.(delivered);
}.

Lemma answer_ok_ext s s' r :
  s.(called) = s'.(called) -> answer_ok s r -> answer_ok s' r.
Proof. intros Hc. destruct r; simpl; by rewrite Hc. Qed.

(** A new result at an item that had none keeps the answers already given. *)
Lemma answer_ok_call s s' i x r :
  s.(called) !! i = Some None -> s'.(called) = <[i := x]> s.(called) ->
  answer_ok s r -> answer_ok s' r.
Proof.
  intros Hi Hc. destruct r as [vs|e]; simpl.
  - intros Ha. rewrite Ha, list_lookup_fmap in Hi. by destruct (vs !! i).
  - intros [j Hj]. exists j. rewrite Hc, list_lookup_insert_ne; [done|]. intros ->. congruence.
Qed.

Lemma thread_ok_ext s s' i j p :
  j <> i ->
  (forall k, k <> i -> s'.(slots) !! k = s.(slots) !! k) ->
  (forall k, k <> i -> s'.(called) !! k = s.(called) !! k) ->
  thread_ok s j p -> thread_ok s' j p.
Proof. intros Hne Hs Hc. destruct p as [| | | | | | |[]|[]|]; simpl; by rewrite ?Hs, ?Hc. Qed.

(** All the slots are filled once every thread is past [fetch_sub]. *)
Lemma inv_all_slots s :
  inv s -> s.(remaining) = 0%Z ->
  exists vs, mapM id s.(slots) = Some vs /\ answer_ok s (Ok vs).
Proof.
  intros Hinv Hr. pose proof (inv_remaining _ Hinv) as Hrem. rewrite Hr in Hrem.
  assert (Hall : countb counted s.(threads) = length s.(threads)) by lia.
  rewrite countb_all in Hall.
  assert (Hi : forall i, (i < length s.(threads))%nat -> exists v,
    s.(called) !! i = Some (Some (Ok v)) /\ s.(slots) !! i = Some (Some v)).
  { intros i Hlt. apply lookup_lt_is_Some in Hlt as [p Hp].
    pose proof (Hall _ _ Hp) as Hc. pose proof (inv_threads _ Hinv _ _ Hp) as Hok.
    destruct p as [| | | | | | |[]|[]|]; simpl in *; done. }
  pose proof (inv_len _ Hinv) as Hl1. pose proof (inv_len' _ Hinv) as Hl2.
  rewrite <- Hl1 in Hi. rewrite <- Hl1 in Hl2. clear -Hi Hl2. simpl.
  destruct s as [sl rm dn th del cl]; simpl in *. clear rm dn th del.
  revert cl Hi Hl2. induction sl as [|x sl IH]; intros [|c cl] Hi Hl; simplify_eq/=.
  - by exists [].
  - destruct (Hi 0) as (v & Hv1 & Hv2); [lia|]. simpl in Hv1, Hv2. simplify_eq.
    destruct (IH cl) as (vs & Hvs & ->); [|done|].
    + intros i Hlt. apply (Hi (S i)). lia.
    + exists (v :: vs). split; [|done].
      change (mapM id (Some v :: sl) = Some (v :: vs)). apply mapM_Some. constructor; [done|].
      by apply mapM_Some.
Qed.

(** The effect of moving thread [i] from [p] to [p'] on the counts. *)
Lemma counts_move s i p p' :
  s.(threads) !! i = Some p ->
  length (<[i := p']> s.(threads)) = length s.(threads) /\
  (countb counted (<[i := p']> s.(threads)) + b2n (counted p) =
   countb counted s.(threads) + b2n (counted p'))%nat /\
  (countb winning (<[i := p']> s.(threads)) + b2n (winning p) =
   countb winning s.(threads) + b2n (winning p'))%nat /\
  (countb is_finishing (<[i := p']> s.(threads)) + b2n (is_finishing p) =
   countb is_finishing s.(threads) + b2n (is_finishing p'))%nat.
Proof.
  intros Hi. split_and!; [by rewrite length_insert|..]; by apply countb_insert.
Qed.

(** A thread that is not past [fetch_sub] leaves something to count. *)
Lemma inv_uncounted s i p :
  inv s -> s.(threads) !! i = Some p -> counted p = false -> (0 < s.(remaining))%Z.
Proof.
  intros Hinv Hi Hp. pose proof (inv_remaining _ Hinv) as Hr.
  pose proof (countb_split counted s.(threads)) as Hs.
  assert (0 < countb (fun x => negb (counted x)) s.(threads))%nat.
  { apply countb_pos. exists i, p. by rewrite Hp. }
  lia.
Qed.

(** The components of the invariant that speak of the threads one by one. *)
Lemma inv_move s s' i p p' :
  inv s -> s.(threads) !! i = Some p ->
  s'.(threads) = <[i := p']> s.(threads) ->
  s'.(called) = s.(called) ->
  length s'.(slots) = length s.(slots) ->
  (forall k, k <> i -> s'.(slots) !! k = s.(slots) !! k) ->
  thread_ok s' i p' ->
  (s'.(remaining) = s.(remaining) - Z.of_nat (b2n (counted p')) + Z.of_nat (b2n (counted p)))%Z ->
  (s'.(remaining) = s.(remaining) \/ (0 < s.(remaining))%Z) ->
  (length s'.(delivered) + b2n (winning p') + b2n s.(done) =
   length s.(delivered) + b2n (winning p) + b2n s'.(done))%nat ->
  (s'.(done) = false -> s.(done) = false /\ p' <> Finished false /\
     (s'.(remaining) = 0%Z -> p <> Finishing /\ (s.(remaining) = 0%Z \/ p' = Finishing))) ->
  match p' with
  | Finishing | Building => s'.(remaining) = 0%Z
  | Delivering r => answer_ok s' r
  | Crashed => False
  | _ => True
  end ->
  Forall (answer_ok s) s'.(delivered) ->
  inv s'.
Proof.
  intros Hinv Hi Hth Hca Hls Hsl Hok Hrem Hstay Hwin Hopen Hbuild Hdel.
  destruct (counts_move s i p p' Hi) as (Hl & Hc1 & Hc2 & Hc3).
  pose proof (inv_len _ Hinv). pose proof (inv_len' _ Hinv).
  pose proof (inv_remaining _ Hinv). pose proof (inv_winner _ Hinv).
  constructor; rewrite ?Hth, ?Hca, ?Hl; try (rewrite ?Hls; lia).
  - intros j q Hj. apply list_lookup_insert_Some in Hj as [(<- & <- & _)|[Hne Hj]]; [done|].
    apply (thread_ok_ext s s' i); auto; [congruence|]. by apply Hinv.
  - intros j Hd Hj. destruct (Hopen Hd) as (Hd0 & Hp' & _).
    apply list_lookup_insert_Some in Hj as [(<- & ? & _)|[Hne Hj]]; [done|].
    by apply (inv_open _ Hinv j Hd0).
  - intros Hd Hr. destruct (Hopen Hd) as (Hd0 & _ & Hfin).
    destruct (Hfin Hr) as (Hp & [Hr0| ->]);
      [pose proof (inv_last _ Hinv Hd0 Hr0)|]; destruct p; simpl in *; try done; lia.
  - intros j q Hj. apply list_lookup_insert_Some in Hj as [(<- & <- & _)|[Hne Hj]]; [done|].
    pose proof (inv_building _ Hinv _ _ Hj) as Hb.
    destruct q; try done; try (destruct Hstay; lia). by apply (answer_ok_ext s).
  - eapply Forall_impl; [exact Hdel|]. intros r. by apply answer_ok_ext.
Qed.

Lemma inv_call i r s s' : inv s -> call_step i r s = Some s' -> inv s'.
Proof.
  intros Hinv H. unfold call_step in H.
  destruct (s.(threads) !! i) as [[]|] eqn:Hi; simplify_eq.
  pose proof (inv_threads _ Hinv _ _ Hi) as Hc. simpl in Hc.
  destruct (counts_move s i Idle (Loading r) Hi) as (Hl & Hc1 & Hc2 & Hc3).
  pose proof (inv_len _ Hinv). pose proof (inv_len' _ Hinv).
  pose proof (inv_remaining _ Hinv). pose proof (inv_winner _ Hinv).
  assert (Hans : forall x, answer_ok s x -> answer_ok (mkShared s.(slots) s.(remaining) s.(done)
    (<[i := Loading r]> s.(threads)) s.(delivered) (<[i := Some r]> s.(called))) x).
  { intros x. by apply (answer_ok_call s _ i (Some r)). }
  simpl in *. constructor; simpl; rewrite ?Hl, ?length_insert; try lia.
  - intros j q Hj. apply list_lookup_insert_Some in Hj as [(<- & <- & _)|[Hne Hj]]; simpl.
    + rewrite list_lookup_insert_eq; [done|]. apply lookup_lt_Some in Hi. lia.
    + apply (thread_ok_ext s _ i); simpl; auto; [|by apply Hinv].
      intros. by rewrite list_lookup_insert_ne.
  - intros j Hd Hj. apply list_lookup_insert_Some in Hj as [(_ & ? & _)|[Hne Hj]]; [done|].
    by apply (inv_open _ Hinv j Hd).
  - intros Hd Hr. pose proof (inv_last _ Hinv Hd Hr). lia.
  - intros j q Hj. apply list_lookup_insert_Some in Hj as [(<- & <- & _)|[Hne Hj]]; [done|].
    pose proof (inv_building _ Hinv _ _ Hj) as Hb. destruct q; auto.
  - eapply Forall_impl; [exact (inv_delivered _ Hinv)|]. exact Hans.
Qed.

Ltac move_thread s i :=
  eapply (inv_move s _ i); simpl in *; try done; eauto; simpl in *; try lia;
  repeat match goal with Hd : s.(done) = _ |- _ => rewrite Hd in *; simpl in *; clear Hd end;
  intros; split_and?; try done; try congruence; try lia; eauto.

Lemma inv_thread i s s' : inv s -> thread_step i s = Some s' -> inv s'.
Proof.
  intros Hinv H. unfold thread_step in H.
  destruct (s.(threads) !! i) as [p|] eqn:Hi; [|done].
  pose proof (inv_threads _ Hinv _ _ Hi) as Hok.
  pose proof (inv_building _ Hinv _ _ Hi) as Hb.
  pose proof (inv_delivered _ Hinv) as Hdel.
  pose proof (inv_uncounted _ _ _ Hinv Hi) as Hpos.
  destruct p as [|r|e|v| | | |r|c|]; simplify_eq; simpl in *.
  - destruct (s.(done)) eqn:Hd; [|destruct r]; simplify_eq; move_thread s i.
  - destruct (s.(done)) eqn:Hd; simplify_eq; move_thread s i.
  - assert (i < length s.(slots))%nat by (apply lookup_lt_Some in Hi; by rewrite (inv_len _ Hinv)).
    move_thread s i; [by rewrite length_insert|by rewrite list_lookup_insert_ne|].
    exists v. by rewrite list_lookup_insert_eq.
  - destruct (Z.eqb_spec s.(remaining) 1); move_thread s i.
  - destruct (s.(done)) eqn:Hd; simplify_eq; move_thread s i.
  - destruct (inv_all_slots s Hinv Hb) as (vs & Hvs & Hans). rewrite Hvs in H. simplify_eq.
    move_thread s i.
  - assert (Hd : s.(done) = true).
    { pose proof (inv_winner _ Hinv).
      assert (0 < countb winning s.(threads))%nat by (apply countb_pos; by eexists _, _).
      destruct (s.(done)); simpl in *; [done|lia]. }
    destruct r; move_thread s i; rewrite ?length_app; simpl; try lia;
      apply Forall_app; split; [done|apply Forall_singleton; simpl; eauto|
                                done|apply Forall_singleton; simpl; eauto].
Qed.

Lemma inv_start n : inv (collect_start (S n)).
Proof.
  constructor; cbn -[replicate].
  - by rewrite !length_replicate.
  - by rewrite !length_replicate.
  - intros i p Hp. apply lookup_replicate in Hp as [-> Hlt]. cbn -[replicate].
    by apply lookup_replicate.
  - rewrite countb_replicate, length_replicate. simpl. lia.
  - rewrite countb_replicate. simpl. lia.
  - intros i _ Hi. by apply lookup_replicate in Hi as [? _].
  - lia.
  - intros i p Hp. by apply lookup_replicate in Hp as [-> _].
  - done.
Qed.

Lemma inv_reachable n s : rtc collect_step (collect_start (S n)) s -> inv s.
Proof.
  intros Hs. eapply (rtc_invariant _ inv); [|exact Hs|apply inv_start].
  intros a b Ha Hab. inversion Hab as [i r s1 s2 H|i s1 s2 H]; subst; [exact (inv_call _ _ _ _ Ha H)|exact (inv_thread _ _ _ Ha H)].
Qed.

Lemma step_length s s' : collect_step s s' -> length s'.(threads) = length s.(threads).
Proof.
  intros [i r s1 s2 H|i s1 s2 H]; [unfold call_step in H|unfold thread_step in H];
    cases; by rewrite length_insert.
Qed.

(** A state in which every item has called back and every callback returned. *)
Definition quiescent (s : shared) : Prop :=
  forall i p, s.(threads) !! i = Some p -> ended p = true.

(** C6: however the callbacks of [collect_io_parallel] interleave, the user's
    callback is called at most once, and exactly once when every item has called
    back and every callback has returned; it is given all the values, in the
    order of the items, only if every item succeeded, and otherwise an error
    that one of the items reported; no callback reads an empty slot. *)
Theorem collect_io_parallel_exactly_once n s :
  rtc collect_step (collect_start n) s ->
  (length s.(delivered) <= 1)%nat /\
  (quiescent s -> length s.(delivered) = 1) /\
  Forall (answer_ok s) s.(delivered) /\
  (forall i, s.(threads) !! i <> Some Crashed).
Proof.
  destruct n as [|n].
  - intros Hs. apply (rtc_invariant _ (fun s => s = collect_start 0)) in Hs; [|intros a b ->|done].
    + subst s. simpl. split_and!; try done. by repeat constructor.
    + intros Hab. by inversion Hab.
  - intros Hs. pose proof (inv_reachable _ _ Hs) as Hinv.
    pose proof (inv_winner _ Hinv) as Hw. split_and!.
    + destruct (s.(done)); simpl in Hw; lia.
    + intros Hq.
      assert (Hlen : length s.(threads) = S n).
      { apply (rtc_invariant _ (fun s => length s.(threads) = S n)) in Hs; [done| |].
        - intros a b <- Hab. by apply step_length.
        - simpl. by rewrite length_replicate. }
      assert (H0 : countb winning s.(threads) = 0).
      { apply countb_0. intros i p Hp. specialize (Hq _ _ Hp). by destruct p. }
      destruct (s.(done)) eqn:Hd; [simpl in *; lia|]. exfalso.
      assert (Hall : countb counted s.(threads) = length s.(threads)).
      { apply countb_all. intros i p Hp. specialize (Hq _ _ Hp).
        destruct p as [| | | | | | | |[]|]; try done. by destruct (inv_open _ Hinv i Hd). }
      assert (Hf : (0 < countb is_finishing s.(threads))%nat).
      { apply (inv_last _ Hinv Hd). pose proof (inv_remaining _ Hinv). lia. }
      apply countb_pos in Hf as (i & p & Hp & Hf). specialize (Hq _ _ Hp). by destruct p.
    + apply (inv_delivered _ Hinv).
    + intros i Hi. exact (inv_building _ Hinv _ _ Hi).
Qed.

(** A schedule: an item calling back, or a thread making one action. *)
Fixpoint run_schedule (acts : list (nat * option (Result T Error))) (s : shared) : option shared :=
  match acts with
  | [] => Some s
  | (i, a) :: acts' =>
      match (match a with Some r => call_step i r s | None => thread_step i s end) with
      | Some s' => run_schedule acts' s'
      | None => None
      end
  end.

Lemma run_schedule_reachable acts s s' :
  run_schedule acts s = Some s' -> rtc collect_step s s'.
Proof.
  revert s; induction acts as [|[i [r|]] acts IH]; intros s H; simplify_eq/=; [done|..].
  - destruct (call_step i r s) as [s1|] eqn:E; [|done].
    eapply rtc_l; [by eapply step_call|]. by apply IH.
  - destruct (thread_step i s) as [s1|] eqn:E; [|done].
    eapply rtc_l; [by eapply step_thread|]. by apply IH.
Qed.
End collect.
Arguments pc T : clear implicits.
Arguments shared T : clear implicits.

(** Both items succeed; the second calls back first. *)
Definition parallel_schedule : list (nat * option (Result Z Error)) :=
  [(1, Some (Ok 20%Z)); (0, Some (Ok 10%Z)); (1, None); (0, None); (1, None); (1, None);
   (0, None); (0, None); (0, None); (0, None); (0, None)].
Definition parallel_demo : shared Z :=
  default (collect_start 2) (run_schedule parallel_schedule (collect_start 2)).

Lemma collect_io_parallel_exactly_once_witness :
  (quiescent parallel_demo -> length parallel_demo.(delivered) = 1) /\
  parallel_demo.(delivered) = [Ok [10; 20]%Z].
Proof.
  split; [|vm_compute; reflexivity].
  apply (collect_io_parallel_exactly_once 2 parallel_demo).
  apply (run_schedule_reachable parallel_schedule). vm_compute. reflexivity.
Defined.

(** ** collect_result_parallel

    No short circuit: every callback stores its result, and the one that counts
    the last delivers them all. *)

Section collect_result.
Context {T : Type}.

Inductive rpc :=
  | RIdle
  | RStoring (r : Result T Error)
  | RCounting
  | RBuilding
  | RDelivering (final : list (Result T Error))
  | RFinished
  | RCrashed.

Record rshared := mkRShared {
  rslots : list (option (Result T Error));
  rremaining : Z;
  rthreads : list rpc;
  rdelivered : list (list (Result T Error));
  rcalled : list (option (Result T Error));
}.

Definition collect_result_start (n : nat) : rshared :=
  match n with
  | 0 => mkRShared [] 0 [] [[]] []
  | _ => mkRShared (replicate n None) (Z.of_nat n) (replicate n RIdle) [] (replicate n None)
  end.

Definition rthread_step (i : nat) (s : rshared) : option rshared :=
  match s.(rthreads) !! i with
  | Some (RStoring r) =>
      Some (mkRShared (<[i := Some r]> s.(rslots)) s.(rremaining)
              (<[i := RCounting]> s.(rthreads)) s.(rdelivered) s.(rcalled))
  | Some RCounting =>
      Some (mkRShared s.(rslots) (s.(rremaining) - 1)
              (<[i := if (s.(rremaining) =? 1)%Z then RBuilding else RFinished]> s.(rthreads))
              s.(rdelivered) s.(rcalled))
  | Some RBuilding =>
      match mapM id s.(rslots) with
      | Some final =>
          Some (mkRShared s.(rslots) s.(rremaining) (<[i := RDelivering final]> s.(rthreads))
                  s.(rdelivered) s.(rcalled))
      | None =>
          Some (mkRShared s.(rslots) s.(rremaining) (<[i := RCrashed]> s.(rthreads))
                  s.(rdelivered) s.(rcalled))
      end
  | Some (RDelivering final) =>
      Some (mkRShared s.(rslots) s.(rremaining) (<[i := RFinished]> s.(rthreads))
              (s.(rdelivered) ++ [final]) s.(rcalled))
  | _ => None
  end.

Definition rcall_step (i : nat) (r : Result T Error) (s : rshared) : option rshared :=
  match s.(rthreads) !! i with
  | Some RIdle =>
      Some (mkRShared s.(rslots) s.(rremaining) (<[i := RStoring r]> s.(rthreads))
              s.(rdelivered) (<[i := Some r]> s.(rcalled)))
  | _ => None
  end.

Inductive rcollect_step : rshared -> rshared -> Prop :=
  | rstep_call i r s s' : rcall_step i r s = Some s' -> rcollect_step s s'
  | rstep_thread i s s' : rthread_step i s = Some s' -> rcollect_step s s'.

Definition rcounted (p : rpc) : bool :=
  match p with RIdle | RStoring _ | RCounting => false | _ => true end.
Definition rwinning (p : rpc) : bool :=
  match p with RBuilding | RDelivering _ | RCrashed => true | _ => false end.

Definition rthread_ok (s : rshared) (i : nat) (p : rpc) : Prop :=
  match p with
  | RIdle => s.(rcalled) !! i = Some None
  | RStoring r => s.(rcalled) !! i = Some (Some r)
  | RDelivering final => s.(rcalled) = map Some final /\
      exists r, s.(rcalled) !! i = Some (Some r) /\ s.(rslots) !! i = Some (Some r)
  | RCrashed => False
  | _ => exists r, s.(rcalled) !! i = Some (Some r) /\ s.(rslots) !! i = Some (Some r)
  end.

Record rinv (s : rshared) : Prop := {
  rinv_len : length s.(rslots) = length s.(rthreads);
  rinv_len' : length s.(rcalled) = length s.(rthreads);
  rinv_threads i p : s.(rthreads) !! i = Some p -> rthread_ok s i p;
  rinv_remaining :
    (s.(rremaining) + Z.of_nat (countb rcounted s.(rthreads)) = Z.of_nat (length s.(rthreads)))%Z;
  rinv_winner :
    (length s.(rdelivered) + countb rwinning s.(rthreads) = b2n (s.(rremaining) =? 0)%Z)%nat;
  rinv_delivered : Forall (fun final => s.(rcalled) = map Some final) s.(rdelivered);
}.

(** Updating the entry of a thread that has no result yet cannot contradict an
    answer: there is none. *)
Lemma rcalled_full (cl : list (option (Result T Error))) i final :
  cl !! i = Some None -> cl = map Some final -> False.
Proof. intros Hi ->. rewrite list_lookup_fmap in Hi. by destruct (final !! i). Qed.

Lemma rinv_uncounted s i p :
  rinv s -> s.(rthreads) !! i = Some p -> rcounted p = false -> (0 < s.(rremaining))%Z.
Proof.
  intros Hinv Hi Hp. pose proof (rinv_remaining _ Hinv) as Hr.
  pose proof (countb_split rcounted s.(rthreads)) as Hs.
  assert (0 < countb (fun x => negb (rcounted x)) s.(rthreads))%nat.
  { apply countb_pos. exists i, p. by rewrite Hp. }
  lia.
Qed.

Lemma filled_slots (sl cl : list (option (Result T Error))) :
  length cl = length sl ->
  (forall i, (i < length sl)%nat -> exists r, cl !! i = Some (Some r) /\ sl !! i = Some (Some r)) ->
  exists rs, mapM id sl = Some rs /\ cl = map Some rs.
Proof.
  revert cl; induction sl as [|x sl IH]; intros [|c cl] Hl Hi; simplify_eq/=; [by exists []|].
  destruct (Hi 0) as (r & H1 & H2); [lia|]. simpl in H1, H2. simplify_eq.
  destruct (IH cl Hl) as (rs & Hrs & ->); [intros i Hlt; apply (Hi (S i)); lia|].
  exists (r :: rs). split; [|done].
  change (mapM id (Some r :: sl) = Some (r :: rs)). apply mapM_Some.
  constructor; [done|]. by apply mapM_Some.
Qed.

Lemma rinv_all_slots s :
  rinv s -> s.(rremaining) = 0%Z ->
  exists rs, mapM id s.(rslots) = Some rs /\ s.(rcalled) = map Some rs.
Proof.
  intros Hinv Hr. pose proof (rinv_remaining _ Hinv) as Hrem. rewrite Hr in Hrem.
  assert (Hall : countb rcounted s.(rthreads) = length s.(rthreads)) by lia.
  rewrite countb_all in Hall.
  pose proof (rinv_len _ Hinv) as Hl1. pose proof (rinv_len' _ Hinv) as Hl2.
  apply filled_slots; [lia|]. intros i Hlt. rewrite Hl1 in Hlt.
  apply lookup_lt_is_Some in Hlt as [p Hp].
  pose proof (Hall _ _ Hp). pose proof (rinv_threads _ Hinv _ _ Hp).
  destruct p; simpl in *; naive_solver.
Qed.

Lemma rinv_call i r s s' : rinv s -> rcall_step i r s = Some s' -> rinv s'.
Proof.
  intros Hinv H. unfold rcall_step in H.
  destruct (s.(rthreads) !! i) as [[]|] eqn:Hi; simplify_eq.
  pose proof (rinv_threads _ Hinv _ _ Hi) as Hc. simpl in Hc.
  pose proof (countb_insert rcounted _ _ _ (RStoring r) Hi) as Hn1.
  pose proof (countb_insert rwinning _ _ _ (RStoring r) Hi) as Hn2.
  pose proof (rinv_len _ Hinv). pose proof (rinv_len' _ Hinv).
  pose proof (rinv_remaining _ Hinv). pose proof (rinv_winner _ Hinv).
  simpl in *. constructor; simpl; rewrite ?length_insert; try lia.
  - intros j q Hj. apply list_lookup_insert_Some in Hj as [(<- & <- & _)|[Hne Hj]]; simpl.
    + rewrite list_lookup_insert_eq; [done|]. apply lookup_lt_Some in Hi. lia.
    + pose proof (rinv_threads _ Hinv _ _ Hj) as Hq.
      destruct q; simpl in *; rewrite ?list_lookup_insert_ne by done; try done.
      destruct Hq as [Hf _]. by destruct (rcalled_full _ _ _ Hc Hf).
  - eapply Forall_impl; [exact (rinv_delivered _ Hinv)|].
    intros final Hf. by destruct (rcalled_full _ _ _ Hc Hf).
Qed.

(** Moving thread [i] from [p] to [p'] without a new result. *)
Lemma rinv_move s s' i p p' :
  rinv s -> s.(rthreads) !! i = Some p ->
  s'.(rthreads) = <[i := p']> s.(rthreads) -> s'.(rcalled) = s.(rcalled) ->
  length s'.(rslots) = length s.(rslots) ->
  (forall k, k <> i -> s'.(rslots) !! k = s.(rslots) !! k) ->
  rthread_ok s' i p' ->
  (s'.(rremaining) = s.(rremaining) - Z.of_nat (b2n (rcounted p')) + Z.of_nat (b2n (rcounted p)))%Z ->
  (length s'.(rdelivered) + b2n (rwinning p') + b2n (s.(rremaining) =? 0)%Z =
   length s.(rdelivered) + b2n (rwinning p) + b2n (s'.(rremaining) =? 0)%Z)%nat ->
  Forall (fun final => s.(rcalled) = map Some final) s'.(rdelivered) ->
  rinv s'.
Proof.
  intros Hinv Hi Hth Hca Hls Hsl Hok Hrem Hwin Hdel.
  pose proof (countb_insert rcounted _ _ _ p' Hi) as Hn1.
  pose proof (countb_insert rwinning _ _ _ p' Hi) as Hn2.
  pose proof (rinv_len _ Hinv). pose proof (rinv_len' _ Hinv).
  pose proof (rinv_remaining _ Hinv). pose proof (rinv_winner _ Hinv).
  constructor; rewrite ?Hth, ?Hca, ?length_insert; try (rewrite ?Hls; lia); [|done].
  intros j q Hj. apply list_lookup_insert_Some in Hj as [(<- & <- & _)|[Hne Hj]]; [done|].
  pose proof (rinv_threads _ Hinv _ _ Hj) as Hq.
  destruct q; simpl in *; rewrite ?Hca, ?Hsl by congruence; done.
Qed.

Lemma rinv_thread i s s' : rinv s -> rthread_step i s = Some s' -> rinv s'.
Proof.
  intros Hinv H. unfold rthread_step in H.
  destruct (s.(rthreads) !! i) as [p|] eqn:Hi; [|done].
  pose proof (rinv_threads _ Hinv _ _ Hi) as Hok.
  pose proof (rinv_delivered _ Hinv) as Hdel.
  pose proof (rinv_uncounted _ _ _ Hinv Hi) as Hpos.
  assert (Hlt : (i < length s.(rslots))%nat)
    by (apply lookup_lt_Some in Hi; by rewrite (rinv_len _ Hinv)).
  destruct p as [|r| | |final| |]; simpl in *; simplify_eq; try done.
  - eapply (rinv_move s _ i); simpl; eauto; simpl; try lia.
    + by rewrite length_insert.
    + intros k Hk. by rewrite list_lookup_insert_ne.
    + exists r. by rewrite list_lookup_insert_eq.
  - eapply (rinv_move s _ i); simpl; eauto; simpl;
      destruct (Z.eqb_spec s.(rremaining) 1), (Z.eqb_spec (s.(rremaining) - 1) 0),
        (Z.eqb_spec s.(rremaining) 0); simpl; eauto; lia.
  - assert (Hr : s.(rremaining) = 0%Z).
    { pose proof (rinv_winner _ Hinv) as Hw.
      assert (0 < countb rwinning s.(rthreads))%nat by (apply countb_pos; by eexists _, _).
      destruct (Z.eqb_spec s.(rremaining) 0); simpl in *; [done|lia]. }
    destruct (rinv_all_slots s Hinv Hr) as (rs & Hrs & Hcl). rewrite Hrs in H. simplify_eq.
    eapply (rinv_move s _ i); simpl; eauto; simpl; first [lia|by split].
  - destruct Hok as [Hf Hok]. eapply (rinv_move s _ i); simpl; eauto; simpl; try lia.
    + rewrite length_app. simpl. lia.
    + apply Forall_app; split; [done|by apply Forall_singleton].
Qed.

Lemma rinv_start n : rinv (collect_result_start (S n)).
Proof.
  constructor; cbn -[replicate]; rewrite ?length_replicate, ?countb_replicate; try done.
  - intros i p Hp. apply lookup_replicate in Hp as [-> Hlt]. cbn -[replicate].
    by apply lookup_replicate.
  - simpl. lia.
Qed.

Definition rquiescent (s : rshared) : Prop :=
  forall i p, s.(rthreads) !! i = Some p -> p = RFinished.

(** However its callbacks interleave, [collect_result_parallel] delivers at
    most once, and exactly once when every callback has returned; what it
    delivers is the list of every item's own result, in the order of the items;
    no callback reads an empty slot. *)
Theorem collect_result_parallel_exactly_once n s :
  rtc rcollect_step (collect_result_start n) s ->
  (length s.(rdelivered) <= 1)%nat /\
  (rquiescent s -> length s.(rdelivered) = 1) /\
  Forall (fun final => s.(rcalled) = map Some final) s.(rdelivered) /\
  (forall i, s.(rthreads) !! i <> Some RCrashed).
Proof.
  destruct n as [|n]; intros Hs.
  - apply (rtc_invariant _ (fun s => s = collect_result_start 0)) in Hs; [|intros a b ->|done].
    + subst s. simpl. split_and!; try done. by repeat constructor.
    + intros Hab. by inversion Hab.
  - apply (rtc_invariant _ rinv) in Hs; [| |apply rinv_start].
    + pose proof (rinv_winner _ Hs) as Hw. split_and!.
      * destruct (_ =? _)%Z; simpl in Hw; lia.
      * intros Hq. pose proof (rinv_remaining _ Hs) as Hr.
        assert (countb rwinning s.(rthreads) = 0).
        { apply countb_0. intros i p Hp. by rewrite (Hq _ _ Hp). }
        assert (countb rcounted s.(rthreads) = length s.(rthreads)).
        { apply countb_all. intros i p Hp. by rewrite (Hq _ _ Hp). }
        replace s.(rremaining) with 0%Z in Hw by lia. simpl in Hw. lia.
      * apply (rinv_delivered _ Hs).
      * intros i Hi. exact (rinv_threads _ Hs _ _ Hi).
    + intros a b Ha Hab. inversion Hab as [i r s1 s2 H|i s1 s2 H]; subst;
        [exact (rinv_call _ _ _ _ Ha H)|exact (rinv_thread _ _ _ Ha H)].
Qed.
End collect_result.
Arguments rpc T : clear implicits.
Arguments rshared T : clear implicits.

Lemma collect_result_parallel_exactly_once_witness :
  rtc rcollect_step (collect_result_start (T := Z) 1)
    (mkRShared [Some (Ok 3%Z)] 0 [RFinished] [[Ok 3%Z]] [Some (Ok 3%Z)]) /\
  (length [[Ok (E := Error) 3%Z]] <= 1)%nat.
Proof.
  assert (H : rtc rcollect_step (collect_result_start (T := Z) 1)
    (mkRShared [Some (Ok 3%Z)] 0 [RFinished] [[Ok 3%Z]] [Some (Ok 3%Z)])).
  { eapply rtc_l; [apply (rstep_call 0 (Ok 3%Z)); reflexivity|].
    do 4 (eapply rtc_l; [apply (rstep_thread 0); reflexivity|]). apply rtc_refl. }
  split; [exact H|]. exact (proj1 (collect_result_parallel_exactly_once 1 _ H)).
Defined.
