(* ===== verification/LoopLifetimes.v ===== *)
(** * Who keeps the loops alive ([src/include/io_monad.hpp],
      [src/include/io_monad_poll_with_state.hpp], [src/include/io_monad_poll_if_legacy.hpp])

    The retrying, polling and collecting loops call an attempt function that lives in
    a [std::function] made by the thunk of the IO.  Between two calls only handlers
    are left: the callback given to the running IO, then the handler of the timer.
    [IoRetry] and [IoCollect] model what the loops compute, with an attempt function
    that is always there; this file models who owns it, with the captures of every
    lambda, and when everything the loop made is destroyed. *)

From Stdlib Require Import Lia.
From stdpp Require Import base list gmap relations.
From S2P Require Import Prelude Ownership RefCount.

(** What a run of a loop allocates, and what the user's callback owns. *)
Inductive cell :=
  | Attempt        (** the counter *)
  | AttemptFn      (** [*try_run], [*do_attempt], [*step] *)
  | Holder         (** [*keep_alive_holder] *)
  | State          (** [RetryState], [PollState] *)
  | Self           (** [*self_ptr]; what the thunk of the IO holds *)
  | Items | Out | Idx
  | User.
#[export] Instance cell_eq_dec : EqDecision cell.
Proof. solve_decision. Defined.
Definition cell_number (c : cell) : nat :=
  match c with
  | Attempt => 0 | AttemptFn => 1 | Holder => 2 | State => 3 | Self => 4 | Items => 5 | Out => 6 | Idx => 7
  | User => 8
  end.
Definition number_cell (n : nat) : option cell :=
  [Attempt; AttemptFn; Holder; State; Self; Items; Out; Idx; User] !! n.
#[export] Instance cell_countable : Countable cell.
Proof. refine (inj_countable cell_number number_cell _). by intros []. Defined.
Abbreviation heap := (gmap cell (list cell)).

(** ** A loop

    The objects when the attempt function is called first, the locals of the thunk
    and the captures of the handlers.  Pointers only: a copy of the user's callback
    counts as a pointer to what it owns, a [weak_ptr] does not count. *)

Record loop := mkLoop {
  made : heap;
  locals : list cell;
  on_reply : list cell;            (** the callback of the running IO *)
  on_timer : option (list cell);   (** [None]: the next attempt follows at once *)
  locks : bool;                    (** the attempt function is called through [weak_ptr::lock] *)
  finish : heap -> heap;           (** the clean-up before the delivery *)
  posts : option (list cell);      (** the clean-up is posted, in a handler with these captures *)
  cleans_on_error : bool;          (** the handler of the timer cleans up on errors too *)
}.

(** [retry_exponential_if] of [IO<T>]: the attempt function and the state own each other. *)
Definition retry_loop : loop := {|
  made := {[ State := [Attempt; AttemptFn; Self]; AttemptFn := [State; User]; Attempt := []; Self := []; User := [] ]};
  locals := [State; User; Self];
  on_reply := [State; User];
  on_timer := Some [User];
  locks := true;
  finish h := <[State := [Attempt]]> (<[AttemptFn := []]> h);
  posts := None;
  cleans_on_error := false;
|}.

(** Of [IO<void>]: [cleanup] owns the attempt function and is a capture of it. *)
Definition iov_retry_cleanup : list cell := [AttemptFn; Self].
Definition iov_retry_loop : loop := {|
  made := {[ AttemptFn := [Attempt; Self; User] ++ iov_retry_cleanup; Attempt := []; Self := []; User := [] ]};
  locals := [Attempt; AttemptFn; Self; User] ++ iov_retry_cleanup;
  on_reply := [Attempt; User] ++ iov_retry_cleanup;
  on_timer := Some (User :: iov_retry_cleanup);
  locks := true;
  finish h := <[AttemptFn := []]> h;
  posts := None;
  cleans_on_error := true;
|}.

(** [poll_if] of [IO<T>] on an [io_context]: [release_keep_alive] and [cleanup] own the state. *)
Definition poll_handle_result : list cell := [State; User; State; State].
Definition poll_loop : loop := {|
  made := {[ State := [Attempt; AttemptFn; Holder; Self]; Holder := [AttemptFn];
             AttemptFn := [State; User] ++ poll_handle_result ++ [State; State];
             Attempt := []; Self := []; User := [] ]};
  locals := [State; State; State; User; Self] ++ poll_handle_result;
  on_reply := poll_handle_result;
  on_timer := Some [State; AttemptFn; User; State; State];
  locks := true;
  finish h := <[State := [Attempt; Holder]]> (<[Holder := []]> (<[AttemptFn := []]> h));
  posts := Some [State];
  cleans_on_error := true;
|}.

(** [poll_if] on an executor, and both of [IO<void>]: the holder owns the attempt
    function, which owns the holder until [release_keep_alive]. *)
Definition poll_ex_handle_result : list cell := [Attempt; User; Self; Holder; Holder].
Definition poll_ex_loop : loop := {|
  made := {[ Holder := [AttemptFn];
             AttemptFn := [Attempt; User; Self] ++ poll_ex_handle_result ++ [Holder];
             Attempt := []; Self := []; User := [] ]};
  locals := [Attempt; AttemptFn; Holder; Holder; User; Self] ++ poll_ex_handle_result;
  on_reply := poll_ex_handle_result;
  on_timer := Some [Holder; AttemptFn; User; Holder];
  locks := true;
  finish h := <[Holder := []]> h;
  posts := None;
  cleans_on_error := true;
|}.

(** [poll_with_state]; [Self] stands for the pointers to the state, the job and the hooks. *)
Definition schedule_retry_captures : list cell := [Holder; User; Holder].
Definition poll_state_handle_result : list cell := [Attempt; User; Self] ++ schedule_retry_captures ++ [Holder].
Definition poll_state_loop : loop := {|
  made := {[ Holder := [AttemptFn];
             AttemptFn := [Attempt; User; Self] ++ poll_state_handle_result ++ [Holder];
             Attempt := []; Self := []; User := [] ]};
  locals := [Attempt; AttemptFn; Holder; Holder; User; Self] ++ schedule_retry_captures ++ poll_state_handle_result;
  on_reply := poll_state_handle_result;
  on_timer := Some [Holder; AttemptFn; User; Holder];
  locks := true;
  finish h := <[Holder := []]> h;
  posts := None;
  cleans_on_error := true;
|}.

(** [collect_io] and [collect_result_io]: the callback of the current item owns the
    step, which owns no callback. *)
Definition collect_loop : loop := {|
  made := {[ AttemptFn := [Items; Out; Idx; User]; Items := []; Out := []; Idx := []; User := [] ]};
  locals := [Items; Out; Idx; AttemptFn; User];
  on_reply := [Items; Out; Idx; User; AttemptFn];
  on_timer := None;
  locks := true;
  finish h := h;
  posts := None;
  cleans_on_error := true;
|}.

(** [all_ok_io]: [*step = [=]...] captures [step]. *)
Definition all_ok_loop : loop := {|
  made := {[ AttemptFn := [Idx; Items; User; AttemptFn]; Items := []; Idx := []; User := [] ]};
  locals := [Items; Idx; AttemptFn; User];
  on_reply := [User; Idx; AttemptFn];
  on_timer := None;
  locks := false;
  finish h := h;
  posts := None;
  cleans_on_error := true;
|}.

(** The loops of the snapshot. *)
Definition legacy_retry_loop : loop := {|
  made := {[ AttemptFn := [Attempt; Self; User; AttemptFn]; Attempt := []; Self := []; User := [] ]};
  locals := [Attempt; AttemptFn; Self; User];
  on_reply := [Attempt; User; AttemptFn];
  on_timer := Some [User; AttemptFn];
  locks := false;
  finish h := h;
  posts := None;
  cleans_on_error := true;
|}.
Definition legacy_poll_loop : loop := {|
  made := {[ AttemptFn := [Attempt; User; Self]; Attempt := []; Self := []; User := [] ]};
  locals := [Attempt; AttemptFn; Self; User];
  on_reply := [Attempt; User; Self];
  on_timer := Some [Attempt; User; Self];
  locks := true;
  finish h := h;
  posts := None;
  cleans_on_error := true;
|}.
Definition legacy_collect_loop : loop := {|
  made := {[ AttemptFn := [Idx; Items; User; Out; AttemptFn]; Items := []; Out := []; Idx := []; User := [] ]};
  locals := [Items; Out; Idx; AttemptFn; User];
  on_reply := [User; Out; Idx; AttemptFn];
  on_timer := None;
  locks := false;
  finish h := h;
  posts := None;
  cleans_on_error := true;
|}.

(** ** A run of a loop

    [frames]: the calls that have not returned - the thunk with its locals, a handler
    that is running with its captures, the pointer a lock gave - and the caller's IO.
    A reply may come before the call that started the operation has returned. *)

Inductive wait :=
  | WOp                    (** for the reply of the IO *)
  | WTimer
  | WDone (clean : bool)   (** delivered; was there, or is there to come, a clean-up *)
  | WDropped               (** the handler was destroyed without being called *)
  | WLost.                 (** the attempt function was gone when it should have been called *)
#[export] Instance wait_eq_dec : EqDecision wait.
Proof. solve_decision. Defined.

Record life := mkLife {
  objects : heap;
  frames : list (list cell);
  waits : wait;
  posted : bool;
  delivered : nat;
}.

Section life.
Context (lp : loop).

Definition handler_captures (w : wait) : list cell :=
  match w with WOp => lp.(on_reply) | WTimer => default [] lp.(on_timer) | _ => [] end.
Definition posted_captures (p : bool) : list cell := if p then default [] lp.(posts) else [].
Definition roots (l : life) : list cell :=
  concat l.(frames) ++ handler_captures l.(waits) ++ posted_captures l.(posted).

(** What has lost its last owner is destroyed. *)
Definition settle (l : life) : life :=
  mkLife (sweep (roots l) l.(objects)) l.(frames) l.(waits) l.(posted) l.(delivered).

(** The handler is called with its captures. *)
Definition enter (l : life) : life :=
  mkLife l.(objects) (handler_captures l.(waits) :: l.(frames)) l.(waits) l.(posted) l.(delivered).
Definition set_waits (w : wait) (l : life) : life := mkLife l.(objects) l.(frames) w l.(posted) l.(delivered).

(** The clean-up and the delivery. *)
Definition deliver (clean : bool) (l : life) : life :=
  match clean, lp.(posts) with
  | true, None => mkLife (lp.(finish) l.(objects)) l.(frames) (WDone true) l.(posted) (S l.(delivered))
  | true, Some _ => mkLife l.(objects) l.(frames) (WDone true) true (S l.(delivered))
  | false, _ => mkLife l.(objects) l.(frames) (WDone false) l.(posted) (S l.(delivered))
  end.

(** The attempt function runs: it starts the IO, or finds nothing left to try. *)
Definition attempt_fn (over : bool) (l : life) : life :=
  if over then deliver true l else set_waits WOp l.
Definition call_attempt_fn (over : bool) (l : life) : life :=
  match l.(objects) !! AttemptFn with
  | None => set_waits WLost l
  | Some _ =>
      attempt_fn over
        (mkLife l.(objects) (if lp.(locks) then [AttemptFn] :: l.(frames) else l.(frames))
           l.(waits) l.(posted) l.(delivered))
  end.

(** The thunk. *)
Definition begin (over : bool) : life :=
  settle (attempt_fn over (mkLife lp.(made) [lp.(locals)] WOp false 0)).

Inductive life_step : life -> life -> Prop :=
  | ls_reply_ends l : l.(waits) = WOp -> life_step l (settle (deliver true (enter l)))
  | ls_reply_waits l : l.(waits) = WOp -> lp.(on_timer) <> None -> life_step l (settle (set_waits WTimer (enter l)))
  | ls_reply_goes_on over l :
      l.(waits) = WOp -> lp.(on_timer) = None -> life_step l (settle (call_attempt_fn over (enter l)))
  | ls_timer over l : l.(waits) = WTimer -> life_step l (settle (call_attempt_fn over (enter l)))
  | ls_timer_error l : l.(waits) = WTimer -> life_step l (settle (deliver lp.(cleans_on_error) (enter l)))
  | ls_posted l : l.(posted) = true ->
      life_step l (settle (mkLife (lp.(finish) l.(objects)) (posted_captures true :: l.(frames)) l.(waits) false
                             l.(delivered)))
  | ls_return i l fr : l.(frames) !! i = Some fr ->
      life_step l (settle (mkLife l.(objects) (delete i l.(frames)) l.(waits) l.(posted) l.(delivered)))
  | ls_drop l : l.(waits) = WOp \/ l.(waits) = WTimer -> life_step l (settle (set_waits WDropped l))
  | ls_drop_posted l : l.(posted) = true ->
      life_step l (settle (mkLife l.(objects) l.(frames) (WDone false) false l.(delivered))).

Definition lives (l : life) : Prop := exists over, rtc life_step (begin over) l.

Definition waiting (w : wait) : bool := match w with WOp | WTimer => true | _ => false end.

(** What a loop needs: each handler alone keeps everything alive. *)
Definition kept_by (ptrs : list cell) : bool := bool_decide (sweep ptrs lp.(made) = lp.(made)).
Definition loop_ok : bool :=
  kept_by lp.(on_reply) &&
  match lp.(on_timer) with Some c => kept_by c | None => true end &&
  match lp.(posts) with Some c => kept_by c | None => true end &&
  bool_decide (lp.(made) !! AttemptFn <> None).

(** What remains is what the roots keep of the objects as they are at this point. *)
Definition phase_heap (l : life) : heap :=
  match l.(waits) with
  | WDone true => if l.(posted) then lp.(made) else lp.(finish) lp.(made)
  | _ => lp.(made)
  end.

Record life_inv (l : life) : Prop := {
  li_objects : l.(objects) = sweep (roots l) (phase_heap l);
  li_found : l.(waits) <> WLost;
  li_timer : l.(waits) = WTimer -> lp.(on_timer) <> None;
  li_delivered : l.(delivered) = match l.(waits) with WDone _ => 1 | _ => 0 end;
  li_posted : l.(posted) = true -> l.(waits) = WDone true /\ lp.(posts) <> None;
  li_unclean : l.(waits) = WDone false -> lp.(cleans_on_error) = false \/ lp.(posts) <> None;
}.

(** [std::shared_ptr] settles by count: what goes from [l] to [l'] drops the pointers
    in [gone], and what the counts destroy then is what [settle] destroys. *)
Lemma settle_by_count gone l l' (h : gmap cell (nat * list cell)) fuel :
  roots l ≡ₚ gone ++ roots l' -> l'.(objects) = l.(objects) ->
  uncounted h = l.(objects) -> counts_ok (roots l) h ->
  length gone + length (captures l.(objects)) < fuel ->
  exists h', drop_pointers fuel gone h = Some h' /\ counts_ok (roots l') h' /\
    uncounted h' = (settle l').(objects).
Proof.
  intros Hr Ho Hh Hc Hf. cbn [settle objects]. rewrite Ho, <- Hh.
  apply drop_pointers_sweeps; [by apply (counts_ok_perm (roots l))|by rewrite Hh].
Qed.

(** A call returns: its frame drops what it holds. *)
Lemma return_by_count i fr l (h : gmap cell (nat * list cell)) fuel :
  l.(frames) !! i = Some fr -> uncounted h = l.(objects) -> counts_ok (roots l) h ->
  length fr + length (captures l.(objects)) < fuel ->
  let l' := mkLife l.(objects) (delete i l.(frames)) l.(waits) l.(posted) l.(delivered) in
  exists h', drop_pointers fuel fr h = Some h' /\ counts_ok (roots l') h' /\
    uncounted h' = (settle l').(objects).
Proof.
  intros Hfr Hh Hc Hf l'. apply (settle_by_count fr l); try done.
  unfold roots, l'. cbn [frames waits posted]. rewrite !(assoc_L (++)). do 2 f_equiv.
  pose proof (take_drop_middle _ _ _ Hfr) as Hab. rewrite <- Hab at 1.
  rewrite delete_take_drop, !concat_app. cbn [concat]. rewrite !(assoc_L (++)). f_equiv. apply (comm (++)).
Qed.

(** A handler is destroyed without being called. *)
Lemma drop_by_count l (h : gmap cell (nat * list cell)) fuel :
  uncounted h = l.(objects) -> counts_ok (roots l) h ->
  length (handler_captures l.(waits)) + length (captures l.(objects)) < fuel ->
  exists h', drop_pointers fuel (handler_captures l.(waits)) h = Some h' /\
    counts_ok (roots (set_waits WDropped l)) h' /\ uncounted h' = (settle (set_waits WDropped l)).(objects).
Proof.
  intros Hh Hc Hf. apply (settle_by_count _ l); try done. unfold roots. cbn [frames waits posted set_waits].
  rewrite !(assoc_L (++)). f_equiv. cbn [handler_captures]. rewrite app_nil_r. apply (comm (++)).
Qed.

Context (Hok : loop_ok = true).

Lemma kept_all ptrs rs : kept_by ptrs = true -> ptrs ⊆ rs -> sweep rs lp.(made) = lp.(made).
Proof. intros Hk%bool_decide_eq_true Hs. by apply (sweep_stays ptrs). Qed.

Lemma ok_reply : kept_by lp.(on_reply) = true.
Proof using Hok. unfold loop_ok in Hok. by destruct (kept_by lp.(on_reply)). Qed.
Lemma ok_timer c : lp.(on_timer) = Some c -> kept_by c = true.
Proof using Hok.
  intros Ht. unfold loop_ok in Hok. rewrite Ht in Hok. destruct (kept_by lp.(on_reply)), (kept_by c); done.
Qed.
Lemma ok_posts c : lp.(posts) = Some c -> kept_by c = true.
Proof using Hok.
  intros Ht. unfold loop_ok in Hok. rewrite Ht in Hok. destruct (kept_by c); [done|].
  by rewrite andb_false_r in Hok.
Qed.
Lemma ok_fn : exists os, lp.(made) !! AttemptFn = Some os.
Proof using Hok.
  unfold loop_ok in Hok. apply andb_true_iff in Hok as [_ Hf%bool_decide_eq_true].
  destruct (lp.(made) !! AttemptFn); [eauto|done].
Qed.

Lemma handler_keeps w : waiting w = true -> (w = WTimer -> lp.(on_timer) <> None) ->
  kept_by (handler_captures w) = true.
Proof using Hok.
  intros Hw Ht. destruct w; try done; [apply ok_reply|].
  destruct lp.(on_timer) as [c|] eqn:E; [|by destruct Ht]. simpl. rewrite E. by apply ok_timer.
Qed.

(** While the loop waits, nothing of it is destroyed. *)
Lemma waiting_whole l : life_inv l -> waiting l.(waits) = true -> l.(objects) = lp.(made) /\ l.(posted) = false.
Proof using Hok.
  intros [Ho _ Ht _ Hp _] Hw. split.
  - rewrite Ho. assert (phase_heap l = lp.(made)) as -> by (unfold phase_heap; by destruct l.(waits)).
    apply (kept_all (handler_captures l.(waits))); [by apply handler_keeps|unfold roots; set_solver].
  - destruct l.(posted); [|done]. destruct (Hp eq_refl) as [E _]. by rewrite E in Hw.
Qed.

Lemma concat_delete i (ls : list (list cell)) : concat (delete i ls) ⊆ concat ls.
Proof. revert i. induction ls as [|f ls IH]; intros [|i]; simpl; try specialize (IH i); set_solver. Qed.

(** ** Each step *)

Lemma life_settle_inv l :
  sweep (roots l) l.(objects) = sweep (roots l) (phase_heap l) ->
  l.(waits) <> WLost -> (l.(waits) = WTimer -> lp.(on_timer) <> None) ->
  l.(delivered) = match l.(waits) with WDone _ => 1 | _ => 0 end ->
  (l.(posted) = true -> l.(waits) = WDone true /\ lp.(posts) <> None) ->
  (l.(waits) = WDone false -> lp.(cleans_on_error) = false \/ lp.(posts) <> None) -> life_inv (settle l).
Proof. intros H1 H2 H3 H4 H5 H6. by split. Qed.

Lemma deliver_inv clean l :
  l.(objects) = lp.(made) -> l.(posted) = false -> l.(delivered) = 0 ->
  (clean = false -> lp.(cleans_on_error) = false) -> life_inv (settle (deliver clean l)).
Proof using Hok.
  intros Ho Hp Hd Hc. unfold deliver.
  destruct clean; [destruct lp.(posts) eqn:Hps|]; apply life_settle_inv; unfold phase_heap; simpl;
    rewrite ?Ho, ?Hp, ?Hd; naive_solver.
Qed.

Lemma attempt_fn_inv over l :
  l.(objects) = lp.(made) -> l.(posted) = false -> l.(delivered) = 0 -> life_inv (settle (attempt_fn over l)).
Proof using Hok.
  intros Ho Hp Hd. destruct over; [by apply deliver_inv|].
  apply life_settle_inv; simpl; rewrite ?Ho, ?Hp, ?Hd; naive_solver.
Qed.

Lemma begin_inv over : life_inv (begin over).
Proof using Hok. by apply attempt_fn_inv. Qed.

Lemma enter_whole l : life_inv l -> waiting l.(waits) = true ->
  (enter l).(objects) = lp.(made) /\ (enter l).(posted) = false /\ (enter l).(delivered) = 0.
Proof using Hok.
  intros Hi Hw. destruct (waiting_whole _ Hi Hw). split_and!; try done. simpl. rewrite (li_delivered _ Hi).
  by destruct l.(waits).
Qed.

Lemma call_inv over l : life_inv l -> waiting l.(waits) = true -> life_inv (settle (call_attempt_fn over (enter l))).
Proof using Hok.
  intros Hi Hw. destruct (enter_whole _ Hi Hw) as (Ho & Hp & Hd). unfold call_attempt_fn.
  destruct ok_fn as [os Hos]. rewrite Ho, Hos. by apply attempt_fn_inv.
Qed.

Lemma life_step_inv l l' : life_inv l -> life_step l l' -> life_inv l'.
Proof using Hok.
  intros Hi Hs.
  destruct Hs as [l Hw|l Hw Ht|over l Hw Ht|over l Hw|l Hw|l Hp|i l fr Hf|l Hw|l Hp].
  - destruct (enter_whole l Hi ltac:(by rewrite Hw)) as (? & ? & ?). by apply deliver_inv.
  - destruct (enter_whole l Hi ltac:(by rewrite Hw)) as (Ho & Hp & Hd).
    apply life_settle_inv; simpl in *; rewrite ?Ho, ?Hp, ?Hd; naive_solver.
  - apply call_inv; [done|by rewrite Hw].
  - apply call_inv; [done|by rewrite Hw].
  - destruct (enter_whole l Hi ltac:(by rewrite Hw)) as (? & ? & ?). by apply deliver_inv.
  - destruct Hi as [Ho _ _ Hd Hpo _]. destruct (Hpo Hp) as [Hw Hps].
    destruct lp.(posts) as [c|] eqn:Hc; [|done].
    assert (l.(objects) = lp.(made)) as Hm.
    { rewrite Ho. unfold phase_heap. rewrite Hw, Hp. apply (kept_all c); [by apply ok_posts|].
      unfold roots, posted_captures. rewrite Hp, Hc. set_solver. }
    apply life_settle_inv; simpl; try congruence. unfold phase_heap. simpl. by rewrite Hw, Hm.
  - destruct Hi as [Ho Hl Ht Hd Hpo Hu]. apply life_settle_inv; simpl; try done.
    rewrite Ho. unfold phase_heap. simpl. apply sweep_sweep. unfold roots. simpl.
    pose proof (concat_delete i l.(frames)). set_solver.
  - destruct (waiting_whole l Hi) as [Ho Hp]; [by destruct Hw as [-> | ->]|].
    apply life_settle_inv; simpl; rewrite ?Ho, ?Hp, ?(li_delivered _ Hi); try naive_solver.
    by destruct Hw as [-> | ->].
  - destruct Hi as [Ho Hl Ht Hd Hpo Hu]. destruct (Hpo Hp) as [Hw Hps].
    apply life_settle_inv; simpl; try done; [|by rewrite Hd, Hw|by right].
    rewrite Ho. unfold phase_heap. rewrite Hw, Hp. simpl. apply sweep_sweep.
    unfold roots. simpl. set_solver.
Qed.

Lemma lives_inv l : lives l -> life_inv l.
Proof using Hok.
  intros [over Hs]. eapply (rtc_invariant _ life_inv); [|exact Hs|apply begin_inv]. intros ??. apply life_step_inv.
Qed.
End life.

(** ** The loops of the library *)

Inductive loop_name :=
  | Retry | IovRetry | Poll | PollEx | PollWithState | Collect | AllOk | LegacyRetry | LegacyPoll | LegacyCollect.
#[export] Instance loop_name_eq_dec : EqDecision loop_name.
Proof. solve_decision. Defined.

Definition loop_of (n : loop_name) : loop :=
  match n with
  | Retry => retry_loop | IovRetry => iov_retry_loop | Poll => poll_loop | PollEx => poll_ex_loop
  | PollWithState => poll_state_loop | Collect => collect_loop | AllOk => all_ok_loop
  | LegacyRetry => legacy_retry_loop | LegacyPoll => legacy_poll_loop | LegacyCollect => legacy_collect_loop
  end.

(** Loops whose attempt function owns itself and is never emptied. *)
Definition forgetful (n : loop_name) : bool :=
  match n with AllOk | LegacyRetry | LegacyCollect => true | _ => false end.

Lemma loops_ok n : n <> LegacyPoll -> loop_ok (loop_of n) = true.
Proof. intros Hn. destruct n; [vm_compute; reflexivity..|done|vm_compute; reflexivity]. Qed.

(** The thunk hands every loop over with right counts: the three lemmas above apply from
    there on. *)
Lemma begin_counted n over :
  let l := begin (loop_of n) over in
  counts_ok (roots (loop_of n) l) (recount (roots (loop_of n) l) l.(objects)).
Proof.
  apply recount_ok; [apply sweep_sweep; by apply reflexive_eq|].
  eapply bool_decide_unpack. destruct n, over; vm_compute; exact I.
Qed.

Lemma left_after_cleanup n : n <> LegacyPoll ->
  sweep [] ((loop_of n).(finish) (loop_of n).(made)) = if forgetful n then (loop_of n).(made) else ∅.
Proof. intros Hn. destruct n; try done; vm_compute; reflexivity. Qed.

Lemma left_without_cleanup n : n <> LegacyPoll ->
  sweep [] (loop_of n).(made) = if decide (n = Collect) then ∅ else (loop_of n).(made).
Proof. intros Hn. destruct n; try done; vm_compute; reflexivity. Qed.

Lemma attempt_fn_full n : exists c cs, (loop_of n).(made) !! AttemptFn = Some (c :: cs).
Proof. destruct n; eexists _, _; vm_compute; reflexivity. Qed.

Lemma unclean_loops n : (loop_of n).(cleans_on_error) = false \/ (loop_of n).(posts) <> None -> n = Retry \/ n = Poll.
Proof. intros [H|H]; destruct n; simpl in H; try discriminate H; try (by destruct H); auto. Qed.

(** C16: The loops keep alive what they need, and let it go.  In every run, whichever
    replies come before the call that asked for them has returned, whichever frames
    return first and whether the handlers are called, fail or are thrown away:
    nothing the loop made is destroyed while it waits, so that the attempt function is
    always found and never an emptied one; the user's callback is called once, at the
    end; and when everything has returned, nothing is left.  Three cases leave
    everything behind, the user's callback with what it owns included: [all_ok_io]
    and the loops of the snapshot, always; [retry_exponential_if] of [IO<T>] after a
    timer error, as the other loops clean up then; and every loop but [collect_io] and
    [collect_result_io] when a handler it waits for is destroyed without being called.
    The polling of the snapshot is left out: see [legacy_poll_loses_attempt_fn]. *)
Theorem loop_lifetimes n l :
  n <> LegacyPoll -> lives (loop_of n) l ->
  (waiting l.(waits) = true -> l.(objects) = (loop_of n).(made) /\
     exists c cs, l.(objects) !! AttemptFn = Some (c :: cs)) /\
  l.(waits) <> WLost /\
  l.(delivered) = (match l.(waits) with WDone _ => 1 | _ => 0 end) /\
  (l.(waits) = WDone false -> n = Retry \/ n = Poll) /\
  (l.(frames) = [] -> l.(posted) = false ->
     (l.(waits) = WDone true -> l.(objects) = if forgetful n then (loop_of n).(made) else ∅) /\
     (l.(waits) = WDone false \/ l.(waits) = WDropped ->
      l.(objects) = if decide (n = Collect) then ∅ else (loop_of n).(made))).
Proof.
  intros Hn Hl. pose proof (loops_ok n Hn) as Hok. pose proof (lives_inv _ Hok l Hl) as Hi.
  pose proof Hi as [Ho Hlost _ Hd Hp Hu]. split; [|split; [exact Hlost|split; [exact Hd|split]]].
  - intros Hw. destruct (waiting_whole _ Hok l Hi Hw) as [E _]. split; [done|]. rewrite E.
    apply attempt_fn_full.
  - intros Hw. apply unclean_loops, Hu, Hw.
  - intros Hf Hpo. unfold roots in Ho. rewrite Hf, Hpo in Ho. simpl in Ho. rewrite app_nil_r in Ho.
    unfold phase_heap in Ho. rewrite Hpo in Ho. split.
    + intros Hw. rewrite Hw in Ho. simpl in Ho. by rewrite Ho, left_after_cleanup.
    + intros Hw. rewrite <- left_without_cleanup by done. rewrite Ho. by destruct Hw as [-> | ->].
Qed.

(** ** Runs *)

Inductive life_event :=
  | EReply (over : bool) | ETimer (over : bool) | ETimerError | EPosted | EReturn | EDrop | EDropPosted.

(** The step of an event; the frame that was entered last returns first. *)
Definition do_event (lp : loop) (e : life_event) (l : life) : option life :=
  match e, l.(waits) with
  | EReply over, WOp =>
      Some (settle lp
        (match lp.(on_timer) with
         | None => call_attempt_fn lp over (enter lp l)
         | Some _ => if over then deliver lp true (enter lp l) else set_waits WTimer (enter lp l)
         end))
  | ETimer over, WTimer => Some (settle lp (call_attempt_fn lp over (enter lp l)))
  | ETimerError, WTimer => Some (settle lp (deliver lp lp.(cleans_on_error) (enter lp l)))
  | EPosted, _ =>
      if l.(posted) then
        Some (settle lp (mkLife (lp.(finish) l.(objects)) (posted_captures lp true :: l.(frames)) l.(waits) false
                           l.(delivered)))
      else None
  | EReturn, _ =>
      match l.(frames) with
      | [] => None
      | _ :: frs => Some (settle lp (mkLife l.(objects) frs l.(waits) l.(posted) l.(delivered)))
      end
  | EDrop, (WOp | WTimer) => Some (settle lp (set_waits WDropped l))
  | EDropPosted, _ =>
      if l.(posted) then Some (settle lp (mkLife l.(objects) l.(frames) (WDone false) false l.(delivered))) else None
  | _, _ => None
  end.

Fixpoint do_events (lp : loop) (es : list life_event) (l : life) : option life :=
  match es with
  | [] => Some l
  | e :: es' => match do_event lp e l with Some l' => do_events lp es' l' | None => None end
  end.

Lemma do_event_step lp e l l' : do_event lp e l = Some l' -> life_step lp l l'.
Proof.
  unfold do_event. destruct e as [over|over| | | | |].
  - destruct l.(waits) eqn:Hw; intros He; try discriminate He. injection He as <-.
    destruct lp.(on_timer) eqn:Ht; [destruct over|].
    + by apply ls_reply_ends.
    + apply ls_reply_waits; [exact Hw|by rewrite Ht].
    + by apply ls_reply_goes_on.
  - destruct l.(waits) eqn:Hw; intros He; try discriminate He. injection He as <-. by apply ls_timer.
  - destruct l.(waits) eqn:Hw; intros He; try discriminate He. injection He as <-. by apply ls_timer_error.
  - destruct l.(posted) eqn:Hp; intros He; [|destruct l.(waits); discriminate He].
    assert (Some (settle lp (mkLife (lp.(finish) l.(objects)) (posted_captures lp true :: l.(frames)) l.(waits) false
                           l.(delivered))) = Some l') as E by (destruct l.(waits); exact He).
    injection E as <-. by apply ls_posted.
  - destruct l.(frames) as [|fr frs] eqn:Hf; intros He; [destruct l.(waits); discriminate He|].
    assert (Some (settle lp (mkLife l.(objects) frs l.(waits) l.(posted) l.(delivered))) = Some l') as E
      by (destruct l.(waits); exact He).
    injection E as <-. pose proof (ls_return lp 0 l fr) as Hr. rewrite Hf in Hr. by apply Hr.
  - destruct l.(waits) eqn:Hw; intros He; try discriminate He; injection He as <-; apply ls_drop; rewrite Hw; auto.
  - destruct l.(posted) eqn:Hp; intros He; [|destruct l.(waits); discriminate He].
    assert (Some (settle lp (mkLife l.(objects) l.(frames) (WDone false) false l.(delivered))) = Some l') as E
      by (destruct l.(waits); exact He).
    injection E as <-. by apply ls_drop_posted.
Qed.

Lemma do_events_lives lp over es l : do_events lp es (begin lp over) = Some l -> lives lp l.
Proof.
  intros He. exists over. revert He. generalize (begin lp over). induction es as [|e es IH]; simpl; intros l0 He.
  - by injection He as <-.
  - destruct (do_event lp e l0) as [l1|] eqn:E; [|done]. eapply rtc_l; [by eapply do_event_step|by apply IH].
Qed.

(** An operation that answers while it is being started, a retry, a success. *)
Definition life_demo : list life_event :=
  [EReply false; EReturn; EReturn; ETimer false; EReturn; EReturn; EReply true; EReturn].
Definition life_demo_error : list life_event := [EReturn; EReply false; EReturn; ETimerError; EReturn].
Definition life_at (lp : loop) (es : list life_event) : life := default (begin lp false) (do_events lp es (begin lp false)).

Lemma life_at_lives lp es : is_Some (do_events lp es (begin lp false)) -> lives lp (life_at lp es).
Proof. intros [l Hl]. unfold life_at. rewrite Hl. by eapply do_events_lives. Qed.

Lemma loop_lifetimes_witness :
  (life_at iov_retry_loop life_demo).(objects) = ∅ /\
  (life_at retry_loop life_demo).(objects) = ∅ /\
  (life_at retry_loop life_demo_error).(objects) = retry_loop.(made) /\
  (life_at all_ok_loop [EReturn; EReply true; EReturn]).(objects) = all_ok_loop.(made).
Proof.
  split; [|split; [|split]].
  - destruct (loop_lifetimes IovRetry (life_at iov_retry_loop life_demo)) as (_ & _ & _ & _ & Hr); [discriminate| |].
    { apply life_at_lives. vm_compute. eauto. }
    destruct Hr as [Hr _]; [vm_compute; reflexivity..|]. apply Hr. vm_compute. reflexivity.
  - destruct (loop_lifetimes Retry (life_at retry_loop life_demo)) as (_ & _ & _ & _ & Hr); [discriminate| |].
    { apply life_at_lives. vm_compute. eauto. }
    destruct Hr as [Hr _]; [vm_compute; reflexivity..|]. apply Hr. vm_compute. reflexivity.
  - destruct (loop_lifetimes Retry (life_at retry_loop life_demo_error)) as (_ & _ & _ & _ & Hr); [discriminate| |].
    { apply life_at_lives. vm_compute. eauto. }
    destruct Hr as [_ Hr]; [vm_compute; reflexivity..|]. apply Hr. left. vm_compute. reflexivity.
  - destruct (loop_lifetimes AllOk (life_at all_ok_loop [EReturn; EReply true; EReturn])) as (_ & _ & _ & _ & Hr); [discriminate| |].
    { apply life_at_lives. vm_compute. eauto. }
    destruct Hr as [Hr _]; [vm_compute; reflexivity..|]. apply Hr. vm_compute. reflexivity.
Defined.

(** The polling of the snapshot: no handler owns the attempt function, which goes with
    the thunk; the timer does not find it. *)
Lemma legacy_poll_loses_attempt_fn :
  (life_at legacy_poll_loop [EReturn; EReply false; EReturn; ETimer false]).(waits) = WLost /\
  (life_at legacy_poll_loop [EReturn]).(objects) !! AttemptFn = None.
Proof. split; vm_compute; reflexivity. Qed.

(** The clean-up of [poll_if] is a handler of its own: the user's callback is called
    while everything is still there. *)
Lemma poll_cleans_up_later :
  (life_at poll_loop [EReturn; EReply true; EReturn]).(objects) = poll_loop.(made) /\
  (life_at poll_loop [EReturn; EReply true; EReturn; EPosted; EReturn]).(objects) = ∅.
Proof. split; vm_compute; reflexivity. Qed.
