(* ===== verification/Protocol.v ===== *)
(** * Sequential protocols over asynchronous operations

    The network clients run one asynchronous operation at a time: the handler of
    each either starts the next one or ends the exchange.  A [protocol] is that
    shape as a state machine, and [protocol_runs] relates a body whose handlers
    follow it to the machine, for every schedule of the executor.  Timers that
    only cause [noise] may run in between, and a handler may set more of them: it
    only has to leave the executor as the machine does, up to what [alike] and
    [hushed] allow.  It may count on what the cells hold, as long as nobody changes
    them before the end ([TracksIn]). *)

From Stdlib Require Import ZArith Lia Ascii String.
From stdpp Require Import base list gmap strings.
From S2P Require Import Prelude Json ResultMonad Asio IoMonad.

Record protocol (O R X : Type) := mkProtocol {
  phase : Type;
  op : phase -> option O;            (** the operation waited for; [None] at the end *)
  says : phase -> list X;            (** what is observed on entering the phase *)
  next : phase -> R -> phase;
  handle : phase -> R -> prog O R X unit;
}.
Arguments phase {O R X} p.
Arguments op {O R X} p ph.
Arguments says {O R X} p ph.
Arguments next {O R X} p ph r.
Arguments handle {O R X} p ph r.

Section protocol.
Context {O R X : Type} (P : protocol O R X).
Abbreviation prg := (prog O R X).
Abbreviation wrld := (world O R X).

Fixpoint emit_all (xs : list X) (k : prg unit) : prg unit :=
  match xs with [] => k | x :: xs' => emit x;; emit_all xs' k end.

(** Entering a phase: say what it says, then start its operation. *)
Definition enter_with (h : R -> prg unit) (ph : P.(phase)) : prg unit :=
  emit_all (P.(says) ph)
    (match P.(op) ph with Some o => start o h | None => mret tt end).
Definition enter (ph : P.(phase)) : prg unit := enter_with (P.(handle) ph) ph.

(** Handlers that behave alike. *)
Definition alike (h h' : R -> prg unit) : Prop := forall r (w : wrld), exec (h r) w = exec (h' r) w.
#[export] Instance alike_equivalence : Equivalence alike.
Proof.
  split; [by intros h r w|by intros h h' H r w|].
  intros h1 h2 h3 H12 H23 r w. by rewrite (H12 r w).
Qed.

(** The handlers follow the machine. *)
Class Follows := follows ph r (w : wrld) :
  P.(op) ph <> None -> exec (P.(handle) ph r) w = exec (enter (P.(next) ph r)) w.

(** *** The machine on a list of replies *)

Fixpoint phases (rs : list R) (ph : P.(phase)) : P.(phase) :=
  match rs with [] => ph | r :: rs' => phases rs' (P.(next) ph r) end.

Fixpoint visited (rs : list R) (ph : P.(phase)) : list O :=
  option_list (P.(op) ph) ++
  match rs with [] => [] | r :: rs' => visited rs' (P.(next) ph r) end.

Fixpoint said (rs : list R) (ph : P.(phase)) : list X :=
  P.(says) ph ++
  match rs with [] => [] | r :: rs' => said rs' (P.(next) ph r) end.

(** No reply is given to an exchange that has ended. *)
Fixpoint proper (rs : list R) (ph : P.(phase)) : Prop :=
  match rs with [] => True | r :: rs' => P.(op) ph <> None /\ proper rs' (P.(next) ph r) end.

(** When only the end says anything, that is all that is said. *)
Lemma said_at_end rs ph :
  (forall ph', P.(op) ph' <> None -> P.(says) ph' = []) -> proper rs ph ->
  said rs ph = P.(says) (phases rs ph).
Proof.
  intros Hq. revert ph; induction rs as [|r rs IH]; intros ph Hp; simpl in *.
  - by rewrite app_nil_r.
  - destruct Hp as [Ho Hp]. rewrite (Hq ph Ho). by apply IH.
Qed.

(** Invariants of the machine. *)
Lemma phases_invariant (I : P.(phase) -> Prop) rs ph :
  (forall ph' r, I ph' -> P.(op) ph' <> None -> I (P.(next) ph' r)) ->
  proper rs ph -> I ph -> I (phases rs ph).
Proof.
  intros HI. revert ph; induction rs as [|r rs IH]; intros ph Hp Hph; simpl in *; [done|].
  destruct Hp as [Ho Hp]. apply IH; auto.
Qed.

(** A machine whose rank goes down with every reply comes to its end. *)
Lemma visited_rank (rank : P.(phase) -> nat) rs ph :
  (forall ph', P.(op) ph' <> None -> 0 < rank ph' /\ forall r, rank (P.(next) ph' r) < rank ph') ->
  proper rs ph -> length (visited rs ph) <= rank ph.
Proof.
  intros Hr. revert ph; induction rs as [|r rs IH]; intros ph Hp; simpl in *.
  - rewrite app_nil_r. destruct (P.(op) ph) eqn:Ho; simpl; [|lia]. apply Hr. by rewrite Ho.
  - destruct Hp as [Ho Hp]. specialize (IH _ Hp). destruct (Hr ph Ho) as [_ Hd]. specialize (Hd r).
    destruct (P.(op) ph); [|done]. simpl in *. lia.
Qed.

(** The replies, given one after the other. *)
Fixpoint schedule (i : nat) (rs : list R) : list (event R) :=
  match rs with [] => [] | r :: rs' => EvOp i r :: schedule (S i) rs' end.

Definition op_replies (es : list (event R)) : list R :=
  omap (fun e => match e with EvOp _ r => Some r | _ => None end) es.

Lemma op_replies_schedule i rs : op_replies (schedule i rs) = rs.
Proof.
  revert i; induction rs as [|r rs IH]; intros i; [done|].
  change (r :: op_replies (schedule (S i) rs) = r :: rs). by rewrite IH.
Qed.

(** *** Noise *)

Context {Y : Type} (obs : X -> option Y).

(** A timer handler that causes nothing observable. *)
Definition noise (h : error_code -> prg unit) : Prop :=
  forall ec (w : wrld), exists xs, omap obs xs = [] /\
    exec (h ec) w = (Returned tt, foldl (fun w x => w_emit x w) w xs).

(** The same executor, but for more timers that only cause noise, and the cells. *)
Record hushed (w w' : wrld) : Prop := {
  hu_ops : w'.(ops) = w.(ops);
  hu_nops : w'.(nops) = w.(nops);
  hu_started : w'.(started) = w.(started);
  hu_trace : w'.(trace) = w.(trace);
  hu_posted : w'.(posted) = w.(posted);
  hu_faulted : w'.(faulted) = w.(faulted);
  hu_escaped : w'.(escaped) = w.(escaped);
  hu_timers : Forall (fun t => noise t.2) w.(timers) -> Forall (fun t => noise t.2) w'.(timers);
}.

Lemma hushed_refl w : hushed w w.
Proof. by split. Qed.

Lemma hushed_timer d h w : noise h -> hushed w (w_timer d h w).
Proof. intros Hh. split; try done. intros Hw. simpl. apply Forall_app. by repeat constructor. Qed.

(** The handlers follow the machine, up to noise. *)
Definition tracks_up_to_noise : Prop := forall ph r (w : wrld),
  P.(op) ph <> None ->
  exists (w1 : wrld) h, hushed w w1 /\ alike h (P.(handle) (P.(next) ph r)) /\
    exec (P.(handle) ph r) w = exec (enter_with h (P.(next) ph r)) w1.
Class Tracks := tracks : tracks_up_to_noise.

(** The same, given that the cells are as [Q] says as long as an operation runs. *)
Class TracksIn (Q : list val -> Prop) := tracks_in : forall ph r (w : wrld),
  P.(op) ph <> None -> Q w.(heap) ->
  exists (w1 : wrld) h, hushed w w1 /\ (P.(op) (P.(next) ph r) <> None -> Q w1.(heap)) /\
    alike h (P.(handle) (P.(next) ph r)) /\
    exec (P.(handle) ph r) w = exec (enter_with h (P.(next) ph r)) w1.
Definition any_cells : list val -> Prop := fun _ => True.

#[export] Instance follows_tracks {F : Follows} : Tracks.
Proof.
  intros ph r w Hop. exists w, (P.(handle) (P.(next) ph r)).
  split_and!; [apply hushed_refl|reflexivity|by apply F].
Qed.

#[export] Instance tracks_any {T : Tracks} : TracksIn any_cells.
Proof. intros ph r w Hop _. destruct (T ph r w Hop) as (w1 & h & ? & ? & ?). by exists w1, h. Qed.

Context (Q : list val -> Prop).

Record in_phase (ph : P.(phase)) (path : list O) (heard : list Y) (w : wrld) : Prop := {
  ip_ops : match P.(op) ph with
           | Some _ => exists h, alike h (P.(handle) ph) /\ w.(ops) = [(length path, h)]
           | None => w.(ops) = []
           end;
  ip_nops : w.(nops) = length (path ++ option_list (P.(op) ph));
  ip_started : w.(started) = path ++ option_list (P.(op) ph);
  ip_trace : omap obs w.(trace) = heard;
  ip_timers : Forall (fun t => noise t.2) w.(timers);
  ip_posted : w.(posted) = [];
  ip_clean : w.(faulted) = false /\ w.(escaped) = [];
  ip_cells : P.(op) ph <> None -> Q w.(heap);
}.

Definition emits (xs : list X) (w : wrld) : wrld := foldl (fun w x => w_emit x w) w xs.

Lemma emits_fields xs (w : wrld) :
  (emits xs w).(trace) = w.(trace) ++ xs /\ (emits xs w).(ops) = w.(ops) /\
  (emits xs w).(nops) = w.(nops) /\ (emits xs w).(started) = w.(started) /\
  (emits xs w).(timers) = w.(timers) /\ (emits xs w).(posted) = w.(posted) /\
  (emits xs w).(faulted) = w.(faulted) /\ (emits xs w).(escaped) = w.(escaped) /\
  (emits xs w).(heap) = w.(heap).
Proof.
  revert w; induction xs as [|x xs IH]; intros w; simpl; [by rewrite app_nil_r|].
  destruct (IH (w_emit x w)) as (-> & -> & -> & -> & -> & -> & -> & -> & ->). simpl.
  by rewrite <- app_assoc.
Qed.

Lemma exec_emit_all xs k (w : wrld) : exec (emit_all xs k) w = exec k (emits xs w).
Proof. revert w; induction xs as [|x xs IH]; intros w; simpl; [done|]. apply IH. Qed.

Lemma enter_in_phase h ph path heard (w : wrld) :
  alike h (P.(handle) ph) -> w.(ops) = [] -> w.(nops) = length path -> w.(started) = path ->
  omap obs w.(trace) = heard -> Forall (fun t => noise t.2) w.(timers) ->
  w.(posted) = [] -> w.(faulted) = false -> w.(escaped) = [] -> (P.(op) ph <> None -> Q w.(heap)) ->
  in_phase ph path (heard ++ omap obs (P.(says) ph)) (run (enter_with h ph) w).
Proof.
  intros Hh H1 H2 H3 H4 H5 H6 H7 H8 H9. unfold run, enter_with. rewrite exec_emit_all.
  destruct (emits_fields (P.(says) ph) w) as (E1 & E2 & E3 & E4 & E5 & E6 & E7 & E8 & E9).
  destruct (P.(op) ph) as [o|] eqn:Ho; simpl; split; simpl;
    rewrite ?E1, ?E2, ?E3, ?E4, ?E5, ?E6, ?E7, ?E8, ?E9, ?H1, ?H2, ?H3, ?Ho, ?omap_app, ?H4, ?length_app;
    simpl; rewrite ?app_nil_r; try done; try lia; by exists h.
Qed.

Lemma take_id_Forall {B} (F : nat * B -> Prop) t (l : list (nat * B)) h r :
  Forall F l -> take_id t l = Some (h, r) -> (exists j, F (j, h)) /\ Forall F r.
Proof.
  revert r. induction l as [|[j g] l IH]; intros r Hall H; simpl in H; [done|].
  apply Forall_cons in Hall as [Hg Hall]. case_decide; simplify_eq; [eauto|].
  destruct (take_id t l) as [[h' r']|]; simplify_eq.
  destruct (IH _ Hall eq_refl) as [? Hr]. split; [done|]. by constructor.
Qed.

Lemma in_phase_timer ph path heard t ec (w w' : wrld) :
  in_phase ph path heard w -> step (EvTimer t ec) w = Some w' -> in_phase ph path heard w'.
Proof.
  intros [H1 H2 H3 H4 H5 H6 [H7 H8] H9] H. simpl in H.
  destruct (take_id t w.(timers)) as [[h r]|] eqn:E; simplify_eq.
  destruct (take_id_Forall _ _ _ _ _ H5 E) as [[j Hh] Hr]. simpl in Hh.
  destruct (Hh ec (w_timers (fun _ => r) w)) as (xs & Hxs & Hex). unfold run. rewrite Hex.
  destruct (emits_fields xs (w_timers (fun _ => r) w)) as (E1 & E2 & E3 & E4 & E5 & E6 & E7 & E8 & E9).
  unfold emits in *. split; rewrite ?E1, ?E2, ?E3, ?E4, ?E5, ?E6, ?E7, ?E8, ?E9; simpl; try done.
  by rewrite omap_app, Hxs, app_nil_r.
Qed.

Context {TI : TracksIn Q}.

Lemma in_phase_op ph path heard i r (w w' : wrld) :
  in_phase ph path heard w -> step (EvOp i r) w = Some w' ->
  exists o, P.(op) ph = Some o /\
    in_phase (P.(next) ph r) (path ++ [o]) (heard ++ omap obs (P.(says) (P.(next) ph r))) w'.
Proof using TI.
  intros [H1 H2 H3 H4 H5 H6 [H7 H8] H9] H. simpl in H.
  destruct (P.(op) ph) as [o|] eqn:Ho; [|by rewrite H1 in H]. exists o. split; [done|].
  destruct H1 as (h & Hh & H1). rewrite H1 in H. simpl in H. case_decide; simplify_eq.
  set (w0 := w_ops (fun _ => []) w).
  destruct (tracks_in ph r w0 ltac:(congruence) ltac:(by apply H9))
    as (w1 & h1 & [U1 U2 U3 U4 U5 U6 U7 U8] & HQ & Hh1 & Hex).
  assert (run (h r) w0 = run (enter_with h1 (P.(next) ph r)) w1) as ->
    by (unfold run; by rewrite (Hh r w0), Hex).
  subst w0. apply enter_in_phase; rewrite ?U1, ?U2, ?U3, ?U4, ?U5, ?U6, ?U7; simpl; auto; by rewrite H2.
Qed.

(** Replies that the machine can take can be given. *)
Lemma in_phase_schedule rs ph path heard (w : wrld) :
  in_phase ph path heard w -> proper rs ph -> exists w', steps (schedule (length path) rs) w = Some w'.
Proof using TI.
  revert ph path heard w. induction rs as [|r rs IH]; intros ph path heard w Hw Hp; [by exists w|].
  destruct Hp as [Ho Hp]. cbn [schedule steps].
  assert (exists w1, step (EvOp (length path) r) w = Some w1) as [w1 Hst].
  { pose proof (ip_ops _ _ _ _ Hw) as H1. destruct (P.(op) ph); [|done].
    destruct H1 as (h & _ & H1). simpl. rewrite H1. simpl. rewrite decide_True by done. by eexists. }
  destruct (in_phase_op _ _ _ _ _ _ _ Hw Hst) as (o & _ & Hw1). rewrite Hst.
  specialize (IH _ _ _ _ Hw1 Hp). by rewrite length_app, Nat.add_1_r in IH.
Qed.

Lemma in_phase_steps es ph path heard (w w' : wrld) :
  in_phase ph path heard w -> steps es w = Some w' ->
  exists path',
    in_phase (phases (op_replies es) ph) path'
      (heard ++ match op_replies es with
                | [] => []
                | r :: rs' => omap obs (said rs' (P.(next) ph r))
                end) w' /\
    proper (op_replies es) ph /\
    path' ++ option_list (P.(op) (phases (op_replies es) ph)) = path ++ visited (op_replies es) ph.
Proof using TI.
  revert ph path heard w. induction es as [|e es IH]; intros ph path heard w Hw Hs; simpl in Hs.
  - simplify_eq. exists path. simpl. by rewrite !app_nil_r.
  - destruct (step e w) as [w1|] eqn:Hst; [|done]. destruct e as [t ec|i r|].
    + apply (IH ph path heard w1); [by eapply in_phase_timer|done].
    + destruct (in_phase_op _ _ _ _ _ _ _ Hw Hst) as (o & Ho & Hw1).
      destruct (IH _ _ _ _ Hw1 Hs) as (path' & Hp & Hpr & Hv). exists path'. simpl.
      split_and!; [|congruence|done|].
      * destruct (op_replies es); cbn [said]; rewrite ?omap_app, ?app_nil_r;
          [rewrite app_nil_r in Hp|rewrite <- app_assoc in Hp]; exact Hp.
      * rewrite Ho. simpl. by rewrite Hv, <- app_assoc.
    + simpl in Hst. by rewrite (ip_posted _ _ _ _ Hw) in Hst.
Qed.

(** A body that enters [ph0] follows the machine under every schedule: what it
    started and what was observed are the machine's, on the replies given; it
    waits for at most one operation, and for none exactly at the machine's end. *)
Lemma protocol_runs_in (main : prg unit) (ph0 : P.(phase)) (wi w0 : wrld) es w :
  w0.(ops) = [] -> w0.(nops) = 0 -> w0.(started) = [] -> omap obs w0.(trace) = [] ->
  Forall (fun t => noise t.2) w0.(timers) -> w0.(posted) = [] -> w0.(faulted) = false ->
  w0.(escaped) = [] -> Q w0.(heap) ->
  run main wi = run (enter ph0) w0 ->
  steps es (run main wi) = Some w ->
  omap obs w.(trace) = omap obs (said (op_replies es) ph0) /\
  w.(started) = visited (op_replies es) ph0 /\
  (w.(ops) = [] <-> P.(op) (phases (op_replies es) ph0) = None) /\
  proper (op_replies es) ph0 /\
  w.(faulted) = false /\ w.(escaped) = [].
Proof using TI.
  intros H1 H2 H3 H4 H5 H6 H7 H8 H9 Hrun Hs. rewrite Hrun in Hs.
  pose proof (enter_in_phase (P.(handle) ph0) ph0 [] [] w0 ltac:(reflexivity) H1 H2 H3 H4 H5 H6 H7 H8
    ltac:(auto)) as Hin.
  destruct (in_phase_steps _ _ _ _ _ _ Hin Hs) as (path & [G1 G2 G3 G4 G5 G6 [G7 G8] _] & Hpr & Hv).
  simpl in *. split_and!; try done.
  - rewrite G4. destruct (op_replies es); simpl; by rewrite ?omap_app, ?app_nil_r.
  - by rewrite G3, Hv.
  - destruct (P.(op) _); [|done]. destruct G1 as (h & _ & ->). done.
Qed.
End protocol.

(** Without conditions on the cells, from the empty world. *)
Lemma protocol_runs {O R X} (P : protocol O R X) {Y} (obs : X -> option Y) {T : Tracks P obs}
    (main : prog O R X unit) (ph0 : P.(phase)) (w0 : world O R X) es w :
  w0.(ops) = [] -> w0.(nops) = 0 -> w0.(started) = [] -> omap obs w0.(trace) = [] ->
  Forall (fun t => noise obs t.2) w0.(timers) -> w0.(posted) = [] -> w0.(faulted) = false ->
  w0.(escaped) = [] ->
  run main world0 = run (enter P ph0) w0 ->
  steps es (run main world0) = Some w ->
  omap obs w.(trace) = omap obs (said P (op_replies es) ph0) /\
  w.(started) = visited P (op_replies es) ph0 /\
  (w.(ops) = [] <-> P.(op) (phases P (op_replies es) ph0) = None) /\
  proper P (op_replies es) ph0 /\
  w.(faulted) = false /\ w.(escaped) = [].
Proof. intros. by eapply (protocol_runs_in P obs any_cells main ph0 world0 w0). Qed.
Arguments Follows {O R X} P.
