(* ===== verification/Base64.v ===== *)
(** * Base64 ([src/src/base64.cpp])

    Bytes are characters; [byte] is their value.  The encoder's loop counter is
    a 32-bit [unsigned int], which wraps; [base64_encode] is the loop as
    written, and its theorem says for which lengths it terminates. *)

From Stdlib Require Import ZArith Lia Ascii String.
From stdpp Require Import base list gmap strings.
From S2P Require Import Prelude Json.

Definition byte (c : ascii) : Z := Z.of_nat (nat_of_ascii c).
(** [static_cast<std::string::value_type>]. *)
Definition to_char (z : Z) : ascii := ascii_of_nat (Z.to_nat (z mod 256)).

Definition base64_chars (url : bool) : str :=
  lit "ABCDEFGHIJKLMNOPQRSTUVWXYZabcdefghijklmnopqrstuvwxyz0123456789" ++
  (if url then lit "-_" else lit "+/").
Definition char_at (url : bool) (i : Z) : ascii := nth (Z.to_nat i) (base64_chars url) "0"%char.
Definition trailing_char (url : bool) : ascii := if url then "."%char else "="%char.

Definition invalid_base64 : exn := StdExn (lit "Input is not valid base64-encoded data.").
Definition out_of_range : exn := StdExn (lit "out_of_range").

Definition in_range (lo hi : ascii) (c : ascii) : bool :=
  (byte lo <=? byte c)%Z && (byte c <=? byte hi)%Z.

Definition pos_of_char (chr : ascii) : throws Z :=
  if in_range "A" "Z" chr then inr (byte chr - byte "A")%Z
  else if in_range "a" "z" chr then
    inr (byte chr - byte "a" + (byte "Z" - byte "A") + 1)%Z
  else if in_range "0" "9" chr then
    inr (byte chr - byte "0" + (byte "Z" - byte "A") + (byte "z" - byte "a") + 2)%Z
  else if bool_decide (chr = "+"%char) || bool_decide (chr = "-"%char) then inr 62%Z
  else if bool_decide (chr = "/"%char) || bool_decide (chr = "_"%char) then inr 63%Z
  else inl invalid_base64.

(** ** Encoding *)

Definition u32 (z : Z) : Z := z mod 2 ^ 32.
Definition byte_at (s : str) (pos : Z) : Z := byte (nth (Z.to_nat pos) s "000"%char).

(** [base64_encode(bytes, in_len, url)]: the [while] loop; [None] when it does
    not end within [fuel] rounds. *)
Fixpoint encode_loop (fuel : nat) (url : bool) (s : str) (pos : Z) (ret : str) : option str :=
  match fuel with
  | O => None
  | S fuel' =>
      let in_len := Z.of_nat (length s) in
      if (pos <? in_len)%Z then
        let b0 := byte_at s (u32 (pos + 0)) in
        let ret := ret ++ [char_at url (Z.shiftr (Z.land b0 252) 2)] in
        let ret :=
          if (u32 (pos + 1) <? in_len)%Z then
            let b1 := byte_at s (u32 (pos + 1)) in
            let ret := ret ++ [char_at url (Z.shiftl (Z.land b0 3) 4 +
                                            Z.shiftr (Z.land b1 240) 4)] in
            if (u32 (pos + 2) <? in_len)%Z then
              let b2 := byte_at s (u32 (pos + 2)) in
              (ret ++ [char_at url (Z.shiftl (Z.land b1 15) 2 + Z.shiftr (Z.land b2 192) 6)]) ++
              [char_at url (Z.land b2 63)]
            else (ret ++ [char_at url (Z.shiftl (Z.land b1 15) 2)]) ++ [trailing_char url]
          else
            ((ret ++ [char_at url (Z.shiftl (Z.land b0 3) 4)]) ++ [trailing_char url]) ++
            [trailing_char url] in
        encode_loop fuel' url s (u32 (pos + 3)) ret
      else Some ret
  end.

Definition base64_encode (s : str) (url : bool) : option str :=
  encode_loop (S (length s)) url s 0 [].

(** [str.insert(pos, '\n')] at every [distance] characters. *)
Fixpoint linebreak_loop (fuel : nat) (distance : nat) (pos : nat) (s : str) : str :=
  match fuel with
  | O => s
  | S fuel' =>
      if (pos <? length s)%nat
      then linebreak_loop fuel' distance (pos + (distance + 1)) (take pos s ++ "010"%char :: drop pos s)
      else s
  end.
Definition insert_linebreaks (s : str) (distance : nat) : str :=
  match s with
  | [] => []
  | _ => linebreak_loop (length s) distance distance s
  end.
Definition encode_with_line_breaks (s : str) (line_length : nat) : option str :=
  (fun e => insert_linebreaks e line_length) <$> base64_encode s false.
Definition base64_encode_pem (s : str) : option str := encode_with_line_breaks s 64.
Definition base64_encode_mime (s : str) : option str := encode_with_line_breaks s 76.

(** ** Decoding *)

Definition is_trailing (c : ascii) : bool :=
  bool_decide (c = "="%char) || bool_decide (c = "."%char).

(** The [while] loop, on what is left of the string; [at] throws past the end. *)
Fixpoint decode_loop (s : str) (ret : str) : throws str :=
  match s with
  | [] => inr ret
  | [_] => inl out_of_range
  | c0 :: c1 :: s' =>
      let! p1 := pos_of_char c1 in
      let! p0 := pos_of_char c0 in
      let ret := ret ++ [to_char (Z.shiftl p0 2 + Z.shiftr (Z.land p1 48) 4)] in
      match s' with
      | [] => inr ret
      | c2 :: s'' =>
          if is_trailing c2 then
            match s'' with [] => inr ret | _ :: rest => decode_loop rest ret end
          else
            let! p2 := pos_of_char c2 in
            let ret := ret ++ [to_char (Z.shiftl (Z.land p1 15) 4 + Z.shiftr (Z.land p2 60) 2)] in
            match s'' with
            | [] => inr ret
            | c3 :: rest =>
                if is_trailing c3 then decode_loop rest ret
                else
                  let! p3 := pos_of_char c3 in
                  decode_loop rest (ret ++ [to_char (Z.shiftl (Z.land p2 3) 6 + p3)])
            end
      end
  end.

Definition base64_decode (s : str) (remove_linebreaks : bool) : throws str :=
  match s with
  | [] => inr []
  | _ =>
      if remove_linebreaks
      then decode_loop (List.filter (fun c => negb (bool_decide (c = "010"%char))) s) []
      else decode_loop s []
  end.

(** ** The encoding as a function on triples *)

Fixpoint encode_ref (url : bool) (s : str) : str :=
  match s with
  | [] => []
  | [a] => [char_at url (byte a / 4); char_at url (byte a mod 4 * 16);
            trailing_char url; trailing_char url]
  | [a; b] => [char_at url (byte a / 4); char_at url (byte a mod 4 * 16 + byte b / 16);
               char_at url (byte b mod 16 * 4); trailing_char url]
  | a :: b :: c :: s' =>
      char_at url (byte a / 4) :: char_at url (byte a mod 4 * 16 + byte b / 16) ::
      char_at url (byte b mod 16 * 4 + byte c / 64) :: char_at url (byte c mod 64) ::
      encode_ref url s'
  end.

(** *** Facts on one byte, by enumeration *)

Lemma byte_range c : (0 <= byte c < 256)%Z.
Proof. unfold byte. pose proof (nat_ascii_bounded c). lia. Qed.

Lemma to_char_byte c : to_char (byte c) = c.
Proof. destruct c as [[] [] [] [] [] [] [] []]; reflexivity. Qed.

Lemma byte_masks c :
  Z.shiftr (Z.land (byte c) 252) 2 = (byte c / 4)%Z /\
  Z.shiftl (Z.land (byte c) 3) 4 = (byte c mod 4 * 16)%Z /\
  Z.shiftr (Z.land (byte c) 240) 4 = (byte c / 16)%Z /\
  Z.shiftl (Z.land (byte c) 15) 2 = (byte c mod 16 * 4)%Z /\
  Z.shiftr (Z.land (byte c) 192) 6 = (byte c / 64)%Z /\
  Z.land (byte c) 63 = (byte c mod 64)%Z.
Proof. destruct c as [[] [] [] [] [] [] [] []]; repeat split; reflexivity. Qed.

(** A property of the 64 indices. *)
Lemma sextet_ind (P : Z -> Prop) :
  (forall n, (n < 64)%nat -> P (Z.of_nat n)) -> forall i, (0 <= i < 64)%Z -> P i.
Proof. intros H i Hi. rewrite <- (Z2Nat.id i) by lia. apply H. lia. Qed.

Lemma pos_of_char_at url i :
  (0 <= i < 64)%Z ->
  pos_of_char (char_at url i) = inr i /\ is_trailing (char_at url i) = false.
Proof.
  revert i. apply sextet_ind. intros n Hn.
  do 64 (destruct n as [|n]; [destruct url; vm_compute; done|]). lia.
Qed.

Lemma sextet_masks i :
  (0 <= i < 64)%Z ->
  Z.shiftr (Z.land i 48) 4 = (i / 16)%Z /\ Z.shiftl (Z.land i 15) 4 = (i mod 16 * 16)%Z /\
  Z.shiftr (Z.land i 60) 2 = (i / 4)%Z /\ Z.shiftl (Z.land i 3) 6 = (i mod 4 * 64)%Z /\
  Z.shiftl i 2 = (i * 4)%Z.
Proof.
  revert i. apply sextet_ind. intros n Hn.
  do 64 (destruct n as [|n]; [vm_compute; done|]). lia.
Qed.

(** *** The three output bytes of a chunk *)

Definition sextet (x : Z) : Prop := (0 <= x < 64)%Z.

Lemma byte_sextets a b c :
  sextet (byte a / 4) /\ sextet (byte a mod 4 * 16 + byte b / 16) /\
  sextet (byte b mod 16 * 4 + byte c / 64) /\ sextet (byte c mod 64) /\
  sextet (byte a mod 4 * 16) /\ sextet (byte b mod 16 * 4).
Proof.
  unfold sextet. pose proof (byte_range a). pose proof (byte_range b). pose proof (byte_range c).
  split_and!; Z.div_mod_to_equations; lia.
Qed.

Lemma first_byte p0 p1 a :
  sextet p0 -> sextet p1 -> p0 = (byte a / 4)%Z -> (p1 / 16 = byte a mod 4)%Z ->
  to_char (Z.shiftl p0 2 + Z.shiftr (Z.land p1 48) 4) = a.
Proof.
  intros H0 H1 E0 E1. destruct (sextet_masks p0 H0) as (_ & _ & _ & _ & ->).
  destruct (sextet_masks p1 H1) as (-> & _). rewrite <- (to_char_byte a) at 1. f_equal.
  pose proof (byte_range a). Z.div_mod_to_equations. lia.
Qed.

Lemma second_byte p1 p2 b :
  sextet p1 -> sextet p2 -> (p1 mod 16 = byte b / 16)%Z -> (p2 / 4 = byte b mod 16)%Z ->
  to_char (Z.shiftl (Z.land p1 15) 4 + Z.shiftr (Z.land p2 60) 2) = b.
Proof.
  intros H1 H2 E1 E2. destruct (sextet_masks p1 H1) as (_ & -> & _).
  destruct (sextet_masks p2 H2) as (_ & _ & -> & _). rewrite <- (to_char_byte b) at 1. f_equal.
  pose proof (byte_range b). Z.div_mod_to_equations. lia.
Qed.

Lemma third_byte p2 p3 c :
  sextet p2 -> sextet p3 -> (p2 mod 4 = byte c / 64)%Z -> p3 = (byte c mod 64)%Z ->
  to_char (Z.shiftl (Z.land p2 3) 6 + p3) = c.
Proof.
  intros H2 H3 E2 E3. destruct (sextet_masks p2 H2) as (_ & _ & _ & -> & _).
  rewrite <- (to_char_byte c) at 1. f_equal.
  pose proof (byte_range c). Z.div_mod_to_equations. lia.
Qed.

(** Induction by triples. *)
Lemma triple_ind (P : str -> Prop) :
  P [] -> (forall a, P [a]) -> (forall a b, P [a; b]) ->
  (forall a b c s, P s -> P (a :: b :: c :: s)) -> forall s, P s.
Proof.
  intros H0 H1 H2 H3 s.
  enough (forall n s, (length s <= n)%nat -> P s) by eauto.
  intros n; induction n as [|n IH]; intros [|a [|b [|c t]]] Hl; simpl in Hl; auto; try lia.
  apply H3, IH. lia.
Qed.

Ltac quotient := pose_bytes; Z.div_mod_to_equations; lia
with pose_bytes :=
  repeat match goal with
  | c : ascii |- _ => lazymatch goal with
      | H : (0 <= byte c < 256)%Z |- _ => fail
      | _ => pose proof (byte_range c)
      end
  end.

Lemma decode_encode_ref url s ret :
  decode_loop (encode_ref url s) ret = inr (ret ++ s).
Proof.
  revert ret. induction s as [|a|a b|a b c s IH] using triple_ind; intros ret.
  - simpl. by rewrite app_nil_r.
  - destruct (byte_sextets a a a) as (S0 & _ & _ & _ & S1 & _).
    cbn [encode_ref decode_loop].
    destruct (pos_of_char_at url _ S0) as [-> _], (pos_of_char_at url _ S1) as [-> _].
    replace (is_trailing (trailing_char url)) with true by (by destruct url).
    rewrite (first_byte _ _ a); auto; quotient.
  - destruct (byte_sextets a b b) as (S0 & S1 & _ & _ & _ & S2).
    cbn [encode_ref decode_loop].
    destruct (pos_of_char_at url _ S0) as [-> _], (pos_of_char_at url _ S1) as [-> _],
      (pos_of_char_at url _ S2) as [-> ->].
    replace (is_trailing (trailing_char url)) with true by (by destruct url).
    rewrite (first_byte _ _ a), (second_byte _ _ b); auto; try quotient.
    by rewrite <- app_assoc.
  - destruct (byte_sextets a b c) as (S0 & S1 & S2 & S3 & _).
    cbn [encode_ref decode_loop].
    destruct (pos_of_char_at url _ S0) as [-> _], (pos_of_char_at url _ S1) as [-> _],
      (pos_of_char_at url _ S2) as [-> ->], (pos_of_char_at url _ S3) as [-> ->].
    rewrite (first_byte _ _ a), (second_byte _ _ b), (third_byte _ _ c); auto; try quotient.
    rewrite IH. by rewrite <- !app_assoc.
Qed.

(** *** The loop computes the reference *)

Lemma u32_small z : (0 <= z < 2 ^ 32)%Z -> u32 z = z.
Proof. intros H. unfold u32. by apply Z.mod_small. Qed.

Lemma byte_at_app pre s k :
  byte_at (pre ++ s) (Z.of_nat (length pre) + Z.of_nat k) = byte (nth k s "000"%char).
Proof.
  unfold byte_at. replace (Z.to_nat _) with (length pre + k)%nat by lia.
  by rewrite app_nth2_plus.
Qed.

Lemma encode_loop_end fuel url s pos ret :
  (Z.of_nat (length s) <= pos)%Z -> (0 < fuel)%nat -> encode_loop fuel url s pos ret = Some ret.
Proof.
  intros Hp Hf. destruct fuel as [|fuel]; [lia|]. cbn [encode_loop].
  by destruct (Z.ltb_spec pos (Z.of_nat (length s))); [lia|].
Qed.

Lemma encode_loop_ref url s pre fuel ret :
  (Z.of_nat (length (pre ++ s)) < 2 ^ 32 - 2)%Z -> (length s < fuel)%nat ->
  encode_loop fuel url (pre ++ s) (Z.of_nat (length pre)) ret = Some (ret ++ encode_ref url s).
Proof.
  revert pre fuel ret.
  induction s as [|a|a b|a b c s IH] using triple_ind; intros pre fuel ret Hlen Hf;
    (destruct fuel as [|fuel]; [simpl in Hf; lia|]); cbn [encode_loop];
    rewrite length_app in *; cbn [length] in *;
    rewrite ?(u32_small (Z.of_nat (length pre) + 0)), ?(u32_small (Z.of_nat (length pre) + 1)),
      ?(u32_small (Z.of_nat (length pre) + 2)), ?(u32_small (Z.of_nat (length pre) + 3)) by lia;
    repeat match goal with |- context [(?x <? ?y)%Z] => destruct (Z.ltb_spec x y); [|try lia] end;
    try lia;
    rewrite ?(byte_at_app pre _ 0), ?(byte_at_app pre _ 1), ?(byte_at_app pre _ 2); cbn [nth].
  - by rewrite app_nil_r.
  - rewrite encode_loop_end by (rewrite ?length_app; simpl; lia).
    destruct (byte_masks a) as (-> & -> & _). by rewrite <- !app_assoc.
  - rewrite encode_loop_end by (rewrite ?length_app; simpl; lia).
    destruct (byte_masks a) as (-> & -> & _), (byte_masks b) as (_ & _ & -> & -> & _).
    by rewrite <- !app_assoc.
  - replace (pre ++ a :: b :: c :: s) with ((pre ++ [a; b; c]) ++ s) by (by rewrite <- app_assoc).
    replace (Z.of_nat (length pre) + 3)%Z with (Z.of_nat (length (pre ++ [a; b; c])))
      by (rewrite length_app; simpl; lia).
    rewrite IH by (rewrite ?length_app; simpl; lia).
    destruct (byte_masks a) as (-> & -> & _), (byte_masks b) as (_ & _ & -> & -> & _),
      (byte_masks c) as (_ & _ & _ & _ & -> & ->).
    by rewrite <- !app_assoc.
Qed.

Lemma base64_encode_ref s url :
  (Z.of_nat (length s) < 2 ^ 32 - 2)%Z -> base64_encode s url = Some (encode_ref url s).
Proof. intros H. apply (encode_loop_ref url s []); simpl; lia. Qed.

(** C14: for inputs shorter than [2^32 - 2] bytes, which keep the 32-bit loop
    counter from wrapping, [base64_encode] terminates, its output is the standard
    encoding of the input in either alphabet and is a multiple of four long, and
    [base64_decode] gives the input back. *)
Theorem base64_roundtrip s url :
  (Z.of_nat (length s) < 2 ^ 32 - 2)%Z ->
  exists e, base64_encode s url = Some e /\ e = encode_ref url s /\
    length e = (4 * ((length s + 2) / 3))%nat /\ base64_decode e false = inr s.
Proof.
  intros H. exists (encode_ref url s). split_and!; [by apply base64_encode_ref|done| |].
  - clear H. induction s as [|a|a b|a b c s IH] using triple_ind; [done..|].
    cbn [encode_ref length]. rewrite IH.
    replace (S (S (S (length s))) + 2)%nat with (1 * 3 + (length s + 2))%nat by lia.
    rewrite Nat.div_add_l by lia. lia.
  - unfold base64_decode. destruct (encode_ref url s) eqn:E.
    + by destruct s as [|a [|b [|c s]]].
    + rewrite <- E. apply (decode_encode_ref url s []).
Qed.

Lemma base64_roundtrip_witness :
  base64_encode (lit "user:pass") false = Some (lit "dXNlcjpwYXNz") /\
  exists e, base64_encode (lit "user:pass") false = Some e /\ base64_decode e false = inr (lit "user:pass").
Proof.
  split; [vm_compute; reflexivity|].
  destruct (base64_roundtrip (lit "user:pass") false) as (e & H1 & _ & _ & H2); [vm_compute; done|].
  exists e. split; [exact H1|exact H2].
Defined.

(** ** Line breaks *)

Definition not_newline (c : ascii) : bool := negb (bool_decide (c = "010"%char)).

Lemma linebreak_loop_filter fuel d pos s :
  List.filter not_newline (linebreak_loop fuel d pos s) = List.filter not_newline s.
Proof.
  revert pos s; induction fuel as [|fuel IH]; intros pos s; simpl; [done|].
  destruct (pos <? length s)%nat; [|done]. rewrite IH, List.filter_app. simpl.
  by rewrite <- List.filter_app, take_drop.
Qed.

Lemma insert_linebreaks_filter s d :
  List.filter not_newline (insert_linebreaks s d) = List.filter not_newline s.
Proof. destruct s; [done|]. apply linebreak_loop_filter. Qed.

Lemma char_at_not_newline url i : sextet i -> not_newline (char_at url i) = true.
Proof.
  intros Hi. unfold not_newline. apply negb_true_iff, bool_decide_eq_false. intros Hc.
  destruct (pos_of_char_at url i Hi) as [Hp _]. by rewrite Hc in Hp.
Qed.

Lemma encode_ref_no_newline s :
  List.filter not_newline (encode_ref false s) = encode_ref false s.
Proof.
  induction s as [|a|a b|a b c s IH] using triple_ind; cbn [encode_ref List.filter]; [done|..].
  - destruct (byte_sextets a a a) as (S0 & _ & _ & _ & S1 & _).
    by rewrite !char_at_not_newline.
  - destruct (byte_sextets a b b) as (S0 & S1 & _ & _ & _ & S2).
    by rewrite !char_at_not_newline.
  - destruct (byte_sextets a b c) as (S0 & S1 & S2 & S3 & _).
    by rewrite !char_at_not_newline, IH.
Qed.

(** What [base64_encode_pem] and [base64_encode_mime] produce, line breaks
    included, is decoded back to the input when line breaks are removed. *)
Theorem base64_linebreaks_roundtrip s n :
  (Z.of_nat (length s) < 2 ^ 32 - 2)%Z ->
  exists e, encode_with_line_breaks s n = Some e /\ base64_decode e true = inr s.
Proof.
  intros H. unfold encode_with_line_breaks. rewrite base64_encode_ref by done. simpl.
  exists (insert_linebreaks (encode_ref false s) n). split; [done|].
  assert (Hd : decode_loop (List.filter not_newline
    (insert_linebreaks (encode_ref false s) n)) [] = inr s).
  { rewrite insert_linebreaks_filter, encode_ref_no_newline. apply (decode_encode_ref false s []). }
  unfold base64_decode. destruct (insert_linebreaks _ _) eqn:E; [|done].
  cbn in Hd. congruence.
Qed.

Lemma base64_linebreaks_roundtrip_witness :
  encode_with_line_breaks (lit "abcdef") 4 = Some (lit "YWJj" ++ "010"%char :: lit "ZGVm") /\
  exists e, encode_with_line_breaks (lit "abcdef") 4 = Some e /\ base64_decode e true = inr (lit "abcdef").
Proof.
  split; [vm_compute; reflexivity|].
  apply (base64_linebreaks_roundtrip (lit "abcdef") 4). vm_compute. done.
Defined.
