(* ===== verification/Http.v ===== *)
(** * HTTP messages and URLs

    The data of Beast's messages and of a parsed [boost::urls::url] that the
    clients read and write.  Parsing text into them is a library the sources
    only call: the interface [UrlLib]. *)

From Stdlib Require Import ZArith Lia Ascii String.
From stdpp Require Import base list gmap strings.
From S2P Require Import Prelude Json ResultMonad.

(** ** Fields *)

Abbreviation fields := (list (str * str)).

(** Field names compare without case. *)
Definition same_name (a b : str) : bool := bool_decide (to_lower a = to_lower b).

(** [fields.set(name, value)]: replaces every field of that name. *)
Definition set_field (name value : str) (f : fields) : fields :=
  List.filter (fun e => negb (same_name name e.1)) f ++ [(name, value)].
Definition erase_field (name : str) (f : fields) : fields :=
  List.filter (fun e => negb (same_name name e.1)) f.
(** [fields.find(name)], [fields[name]]. *)
Definition find_field (name : str) (f : fields) : option str :=
  snd <$> List.find (fun e => same_name name e.1) f.

Lemma find_field_app_none name f g :
  (forall e, e ∈ f -> same_name name e.1 = false) -> find_field name (f ++ g) = find_field name g.
Proof.
  unfold find_field. intros H. f_equal. induction f as [|e f IH]; simpl; [done|].
  rewrite H by set_solver. apply IH. set_solver.
Qed.

Lemma find_set_field name v f : find_field name (set_field name v f) = Some v.
Proof.
  unfold set_field. rewrite find_field_app_none.
  - unfold find_field, same_name. simpl. by rewrite bool_decide_true.
  - intros e He. apply list_elem_of_In, filter_In in He as [_ He]. by apply negb_true_iff in He.
Qed.

Lemma find_erase_field name f : find_field name (erase_field name f) = None.
Proof.
  unfold find_field, erase_field. destruct (List.find _ _) as [e|] eqn:E; [|done].
  apply find_some in E as [Hin Hs]. apply filter_In in Hin as [_ Hn].
  rewrite Hs in Hn. done.
Qed.

(** ** Messages *)

Record request := mkRequest {
  q_method : str;
  q_target : str;
  q_fields : fields;
  q_body : str;
  q_keep_alive : bool;
}.
Definition set_header name v (q : request) : request :=
  mkRequest q.(q_method) q.(q_target) (set_field name v q.(q_fields)) q.(q_body) q.(q_keep_alive).
Definition set_target t (q : request) : request :=
  mkRequest q.(q_method) t q.(q_fields) q.(q_body) q.(q_keep_alive).
Definition set_keep_alive b (q : request) : request :=
  mkRequest q.(q_method) q.(q_target) q.(q_fields) q.(q_body) b.

Record response := mkResponse {
  s_status : Z;
  s_fields : fields;
  s_body : str;
  s_keep_alive : bool;
}.

(** [http::empty_body], [http::string_body], [http::file_body]. *)
Inductive body_kind := EmptyBody | StringBody | FileBody.

(** ** URLs *)

(** The components of a [boost::urls::url]. *)
Record url := mkUrl {
  u_scheme : str;
  u_host : str;
  u_port : option str;       (** [None]: [has_port()] is false *)
  u_path : str;              (** decoded: [path()] *)
  u_encoded_path : str;
  u_encoded_query : str;     (** empty also when there is none *)
}.

(** [port()]. *)
Definition url_port (u : url) : str := default [] u.(u_port).

Class UrlLib := {
  (** [urls::parse_uri]: the URL, or the message of the error *)
  parse_uri : str -> str + url;
  (** [url.port_number()] *)
  port_number : url -> Z;
  (** [url.buffer()]: the text of the URL *)
  url_buffer : url -> str;
}.

(** [client_async]'s [ProxySetting], as the sessions read it. *)
Record ProxySetting := mkProxy {
  p_host : str;
  p_port : str;
  p_username : str;
  p_password : str;
  p_from_env : bool;
  p_disabled : bool;
}.
#[export] Instance ProxySetting_eq_dec : EqDecision ProxySetting.
Proof. solve_decision. Defined.
