(* ===== verification/ConnectionPool.v ===== *)
(** * The connection pool ([src/include/beast_connection_pool.hpp])

    Connections are shared objects: the pool's deques and the users hold the
    same one.  The store [conns] maps an identity to the connection's state, and
    the deques hold identities.  Every operation runs on the pool's strand, so
    an operation is one function of the pool; [now] is what
    [steady_clock::now()] returns.  [std::nullptr] is [None].

    The iteration order of [std::unordered_map] is unspecified: [order] is any
    function that permutes the entries. *)

From Stdlib Require Import ZArith Lia Ascii String.
From stdpp Require Import base list gmap strings.
From S2P Require Import Prelude Json ResultMonad.

Record Origin := mkOrigin { scheme : str; host : str; port : Z }.

#[export] Instance Origin_eq_dec : EqDecision Origin.
Proof. solve_decision. Defined.
#[export] Instance Origin_countable : Countable Origin.
Proof.
  refine (inj_countable' (fun o => (scheme o, host o, port o))
            (fun '(s, h, p) => mkOrigin s h p) _).
  by intros [].
Defined.

Definition is_https (o : Origin) : bool := bool_decide (scheme o = lit "https").

Record PoolConfig := mkPoolConfig {
  idle_reap_interval : Z;
  idle_keep_alive : Z;
  max_idle_per_origin : nat;
  max_total_idle : nat;
  pool_resolve_timeout : Z;
  pool_connect_timeout : Z;
  cfg_handshake_timeout : Z;
  cfg_io_timeout : Z;
}.
Definition default_config : PoolConfig := mkPoolConfig 15 60 6 512 10 10 10 30.

(** ** Connection *)

Record conn := mkConn {
  c_origin : Origin;
  c_ssl : bool;        (** [stream_] holds an [SslStream] *)
  c_open : bool;       (** the lowest socket is open *)
  c_busy : bool;
  c_last : Z;          (** [last_used_] *)
}.

(** The constructor: a plain stream, its socket not open. *)
Definition new_conn (origin : Origin) (now : Z) : conn := mkConn origin false false false now.

Definition prepare_stream (ssl_ctx : bool) (c : conn) : conn :=
  mkConn c.(c_origin) (is_https c.(c_origin) && ssl_ctx) false c.(c_busy) c.(c_last).

Definition set_busy (b : bool) (now : Z) (c : conn) : conn :=
  mkConn c.(c_origin) c.(c_ssl) c.(c_open) b (if b then c.(c_last) else now).

Definition is_expired (keep : Z) (now : Z) (c : conn) : bool := (keep <? now - c.(c_last))%Z.

Definition alive (c : conn) : bool := c.(c_open).

Definition close (c : conn) : conn :=
  mkConn c.(c_origin) c.(c_ssl) false c.(c_busy) c.(c_last).

(** [upgrade_to_ssl]: the new connection state, or [nullptr]. *)
Definition upgrade_to_ssl (ssl_ctx : bool) (c : conn) : option conn :=
  if c.(c_ssl) then Some c
  else if negb ssl_ctx then None
  else Some (mkConn c.(c_origin) true c.(c_open) c.(c_busy) c.(c_last)).

(** ** Pool *)

Record pool := mkPool {
  conns : gmap nat conn;
  next_id : nat;
  idle : gmap Origin (list nat);     (** front first *)
  reaper_armed : bool;
  reap_pending : bool;               (** a wait on [reap_timer_] is outstanding *)
}.
Definition empty_pool : pool := mkPool ∅ 0 ∅ false false.

Definition set_conns f (p : pool) :=
  mkPool (f p.(conns)) p.(next_id) p.(idle) p.(reaper_armed) p.(reap_pending).
Definition set_idle f (p : pool) :=
  mkPool p.(conns) p.(next_id) (f p.(idle)) p.(reaper_armed) p.(reap_pending).
Definition set_reaper armed pending (p : pool) :=
  mkPool p.(conns) p.(next_id) p.(idle) armed pending.

(** [if (c) c->close()]. *)
Definition close_id (i : nat) : gmap nat conn -> gmap nat conn := alter close i.

(** The number of idle connections over all origins. *)
Definition total_idle (m : gmap Origin (list nat)) : nat :=
  map_fold (fun _ dq n => length dq + n)%nat 0 m.

Section pool.
Context (cfg : PoolConfig) (ssl_ctx : bool).
Context (order : list (Origin * list nat) -> list (Origin * list nat)).

Definition usable (now : Z) (c : conn) : bool :=
  alive c && negb (is_expired cfg.(idle_keep_alive) now c).

(** The loop of [acquire] on the deque, back first. *)
Fixpoint acquire_scan (now : Z) (rdq : list nat) (cs : gmap nat conn) :
    option nat * list nat * gmap nat conn :=
  match rdq with
  | [] => (None, [], cs)
  | i :: rdq' =>
      match cs !! i with
      | Some c =>
          if usable now c then (Some i, rdq', <[i := set_busy true now c]> cs)
          else acquire_scan now rdq' (<[i := close c]> cs)
      | None => acquire_scan now rdq' cs
      end
  end.

Inductive acquired :=
  | Reused (i : nat)       (** [handler({}, c)] with an idle connection *)
  | Connecting (i : nat).  (** a new one, given to [do_resolve_connect] *)

Definition acquire (origin : Origin) (now : Z) (p : pool) : acquired * pool :=
  let dq := default [] (p.(idle) !! origin) in
  let '(hit, rdq, cs) := acquire_scan now (rev dq) p.(conns) in
  let m := <[origin := rev rdq]> p.(idle) in
  match hit with
  | Some i => (Reused i, mkPool cs p.(next_id) m p.(reaper_armed) p.(reap_pending))
  | None =>
      let i := p.(next_id) in
      let c := prepare_stream ssl_ctx (new_conn origin now) in
      (Connecting i, mkPool (<[i := c]> cs) (S i) m p.(reaper_armed) p.(reap_pending))
  end.

(** [do_resolve_connect] on the codes the library reports: what the handler is
    given, and the connection's state.  The handshake is run on a TLS stream
    only. *)
Definition do_resolve_connect (i : nat) (resolve connect handshake : option str) (now : Z)
    (p : pool) : (option str * option nat) * pool :=
  match resolve with
  | Some ec => ((Some ec, None), p)
  | None =>
      match connect with
      | Some ec => ((Some ec, None), p)
      | None =>
          match p.(conns) !! i with
          | None => ((None, None), p)
          | Some c =>
              let opened := mkConn c.(c_origin) c.(c_ssl) true c.(c_busy) c.(c_last) in
              match (if c.(c_ssl) then handshake else None) with
              | Some ec => ((Some ec, None), set_conns <[i := opened]> p)
              | None => ((None, Some i), set_conns <[i := set_busy true now opened]> p)
              end
          end
      end
  end.

(** [std::max_element] by the length of the deque: the first of the longest. *)
Fixpoint max_from (best : Origin * list nat) (l : list (Origin * list nat)) : Origin * list nat :=
  match l with
  | [] => best
  | e :: l' =>
      max_from (if (length best.2 <? length e.2)%nat then e else best) l'
  end.
Definition max_element (l : list (Origin * list nat)) : option (Origin * list nat) :=
  match l with [] => None | e :: l' => Some (max_from e l') end.

(** The loop of [shrink_global_if_needed]: each round removes one connection, so
    [total] rounds are enough. *)
Fixpoint shrink_loop (fuel total : nat) (p : pool) : pool :=
  match fuel with
  | 0 => p
  | S fuel' =>
      if (total <=? cfg.(max_total_idle))%nat then p else
      match max_element (order (map_to_list p.(idle))) with
      | Some (o, i :: dq) =>
          shrink_loop fuel' (total - 1)
            (set_idle (fun m => match dq with [] => delete o m | _ => <[o := dq]> m end)
               (set_conns (close_id i) p))
      | _ => p
      end
  end.

Definition shrink_global_if_needed (p : pool) : pool :=
  let total := total_idle p.(idle) in
  if (total <=? cfg.(max_total_idle))%nat then p else shrink_loop total total p.

Definition schedule_reap (p : pool) : pool :=
  if (cfg.(idle_reap_interval) <=? 0)%Z then set_reaper false p.(reap_pending) p
  else set_reaper p.(reaper_armed) true p.

Definition arm_reap_if_needed_locked (p : pool) : pool :=
  if (cfg.(idle_reap_interval) <=? 0)%Z then p
  else if p.(reaper_armed) then p
  else if (total_idle p.(idle) =? 0)%nat then p
  else schedule_reap (set_reaper true p.(reap_pending) p).

(** [release]; [None] when [dq.front()] is called on an empty deque. *)
Definition release (c : option nat) (can_reuse : bool) (now : Z) (p : pool) : option pool :=
  match c with
  | None => Some p
  | Some i =>
      match p.(conns) !! i with
      | None => Some p
      | Some k =>
          if negb can_reuse || negb (alive k) then Some (set_conns (close_id i) p)
          else
            let p1 := set_conns <[i := set_busy false now k]> p in
            let dq := default [] (p1.(idle) !! k.(c_origin)) in
            let push dq p := arm_reap_if_needed_locked (shrink_global_if_needed
              (set_idle <[k.(c_origin) := dq ++ [i]]> p)) in
            if (cfg.(max_idle_per_origin) <=? length dq)%nat then
              match dq with
              | [] => None
              | old :: dq' => Some (push dq' (set_conns (close_id old) p1))
              end
            else Some (push dq p1)
      end
  end.

(** The handler of the reap timer. *)
Definition reap_keep (now : Z) (cs : gmap nat conn) (i : nat) : bool :=
  match cs !! i with Some c => usable now c | None => false end.

Definition reap (now : Z) (p : pool) : pool :=
  let kept := (fun dq => List.filter (reap_keep now p.(conns)) dq) <$> p.(idle) in
  let cs := foldl (fun acc e => foldl (fun acc i =>
      if reap_keep now p.(conns) i then acc else close_id i acc) acc e.2)
      p.(conns) (map_to_list p.(idle)) in
  let pruned := filter (fun e => e.2 <> []) kept in
  let p1 := shrink_global_if_needed
    (mkPool cs p.(next_id) pruned p.(reaper_armed) false) in
  if (0 <? total_idle p1.(idle))%nat && (0 <? cfg.(idle_reap_interval))%Z
  then schedule_reap p1
  else set_reaper false p1.(reap_pending) p1.
End pool.

(** ** The number of idle connections *)

Definition deque_of (o : Origin) (m : gmap Origin (list nat)) : list nat := default [] (m !! o).

Lemma total_idle_fresh o dq m :
  m !! o = None -> total_idle (<[o := dq]> m) = (length dq + total_idle m)%nat.
Proof.
  intros Ho. unfold total_idle. rewrite map_fold_insert_L; [done| |done].
  intros. lia.
Qed.

Lemma total_idle_delete o m :
  (total_idle (delete o m) + length (deque_of o m) = total_idle m)%nat.
Proof.
  unfold deque_of. destruct (m !! o) as [dq|] eqn:Ho; simpl.
  - rewrite <- (insert_delete_id m o dq Ho) at 2.
    rewrite total_idle_fresh by apply lookup_delete_eq. lia.
  - rewrite delete_id by done. lia.
Qed.

Lemma total_idle_insert o dq m :
  (total_idle (<[o := dq]> m) + length (deque_of o m) = total_idle m + length dq)%nat.
Proof.
  rewrite <- insert_delete_eq, total_idle_fresh by apply lookup_delete_eq.
  pose proof (total_idle_delete o m). lia.
Qed.

Lemma total_idle_mono m1 m2 :
  (forall o, length (deque_of o m1) <= length (deque_of o m2))%nat ->
  (total_idle m1 <= total_idle m2)%nat.
Proof.
  revert m2. induction m1 as [|o dq m1 Ho IH] using map_ind; intros m2 H.
  - unfold total_idle at 1. rewrite map_fold_empty. lia.
  - rewrite total_idle_fresh by done. pose proof (total_idle_delete o m2) as Hd.
    pose proof (H o) as Hdq. unfold deque_of in Hdq at 1. rewrite lookup_insert_eq in Hdq.
    simpl in Hdq. enough (total_idle m1 <= total_idle (delete o m2))%nat by lia.
    apply IH. intros o'. specialize (H o'). unfold deque_of in *.
    destruct (decide (o = o')) as [<-|Hne].
    + rewrite Ho. simpl. lia.
    + by rewrite lookup_insert_ne in H; [rewrite lookup_delete_ne|].
Qed.

Lemma total_idle_pos m : (0 < total_idle m)%nat -> exists o i dq, m !! o = Some (i :: dq).
Proof.
  induction m as [|o dq m Ho IH] using map_ind; intros H.
  - unfold total_idle in H. rewrite map_fold_empty in H. lia.
  - rewrite total_idle_fresh in H by done. destruct dq as [|i dq].
    + destruct (IH H) as (o' & i & dq & Hm). exists o', i, dq.
      rewrite lookup_insert_ne; [done|]. congruence.
    + exists o, i, dq. apply lookup_insert_eq.
Qed.

(** ** [std::max_element] *)

Lemma max_from_spec best l :
  max_from best l ∈ best :: l /\
  Forall (fun e => length e.2 <= length (max_from best l).2)%nat (best :: l).
Proof.
  revert best; induction l as [|e l IH]; intros best; simpl.
  - split; [set_solver|]. by repeat constructor.
  - destruct (IH (if (length best.2 <? length e.2)%nat then e else best)) as [Hin Hall].
    rewrite Forall_cons in Hall. destruct Hall as [Hb Hall].
    destruct (Nat.ltb_spec (length best.2) (length e.2)); split; try set_solver;
      repeat constructor; auto; lia.
Qed.

Lemma max_element_spec l e :
  max_element l = Some e -> e ∈ l /\ Forall (fun e' => length e'.2 <= length e.2)%nat l.
Proof.
  destruct l as [|e0 l]; simpl; intros; simplify_eq. apply max_from_spec.
Qed.

Lemma max_element_None l : max_element l = None -> l = [].
Proof. by destruct l. Qed.

(** ** Invariant *)

Section invariant.
Context (cfg : PoolConfig) (ssl_ctx : bool).

(** Everything but the global cap. *)
Record pool_wf (p : pool) : Prop := {
  wf_cap o dq : p.(idle) !! o = Some dq -> (length dq <= cfg.(max_idle_per_origin))%nat;
  wf_owned o dq i : p.(idle) !! o = Some dq -> i ∈ dq ->
    exists c, p.(conns) !! i = Some c /\ c.(c_origin) = o /\ c.(c_busy) = false;
  wf_nodup o dq : p.(idle) !! o = Some dq -> NoDup dq;
  wf_fresh i c : p.(conns) !! i = Some c -> (i < p.(next_id))%nat;
}.

(** The reaper: its flag says whether a wait is outstanding, and there is one
    whenever there is something to reap. *)
Record reaper_ok (p : pool) : Prop := {
  ro_flag : p.(reaper_armed) = p.(reap_pending);
  ro_enabled : p.(reaper_armed) = true -> (0 < cfg.(idle_reap_interval))%Z;
  ro_armed : (0 < cfg.(idle_reap_interval))%Z -> (0 < total_idle p.(idle))%nat ->
    p.(reaper_armed) = true;
}.

Record pool_inv (p : pool) : Prop := {
  inv_wf : pool_wf p;
  inv_total : (total_idle p.(idle) <= cfg.(max_total_idle))%nat;
  inv_reaper : reaper_ok p;
}.

(** [p'] is [p] with some idle connections dropped from their deques and some
    connections closed. *)
Record shrunk (p p' : pool) : Prop := {
  sh_next : p'.(next_id) = p.(next_id);
  sh_armed : p'.(reaper_armed) = p.(reaper_armed);
  sh_pending : p'.(reap_pending) = p.(reap_pending);
  sh_conns i : p'.(conns) !! i = p.(conns) !! i \/ p'.(conns) !! i = close <$> p.(conns) !! i;
  sh_idle o dq' : p'.(idle) !! o = Some dq' ->
    exists dq, p.(idle) !! o = Some dq /\ dq' `sublist_of` dq;
}.

Lemma shrunk_refl p : shrunk p p.
Proof. split; eauto. Qed.

Lemma close_close c : close (close c) = close c.
Proof. done. Qed.

Lemma shrunk_trans p1 p2 p3 : shrunk p1 p2 -> shrunk p2 p3 -> shrunk p1 p3.
Proof.
  intros [a1 a2 a3 a4 a5] [b1 b2 b3 b4 b5]. split; try congruence.
  - intros i. destruct (a4 i) as [Ha|Ha], (b4 i) as [Hb|Hb]; rewrite Hb, Ha; auto.
    right. by destruct (p1.(conns) !! i).
  - intros o dq' H. destruct (b5 _ _ H) as (dq & Hp & Hsub).
    destruct (a5 _ _ Hp) as (dq0 & Hp' & Hsub'). exists dq0. split; [done|]. by trans dq.
Qed.

Lemma shrunk_wf p p' : shrunk p p' -> pool_wf p -> pool_wf p'.
Proof.
  intros [H1 H2 H3 H4 H5] [W1 W2 W3 W4]. split.
  - intros o dq Hdq. destruct (H5 _ _ Hdq) as (dq0 & Hp & Hsub). apply W1 in Hp.
    apply sublist_length in Hsub. lia.
  - intros o dq i Hdq Hi. destruct (H5 _ _ Hdq) as (dq0 & Hp & Hsub).
    destruct (W2 _ _ i Hp) as (c & Hc & Ho & Hb); [by eapply elem_of_sublist|].
    destruct (H4 i) as [Hi'|Hi']; rewrite Hi', Hc; simpl; eauto.
  - intros o dq Hdq. destruct (H5 _ _ Hdq) as (dq0 & Hp & Hsub). apply W3 in Hp.
    by eapply sublist_NoDup.
  - intros i c Hc. rewrite H1. destruct (H4 i) as [Hi'|Hi']; rewrite Hi' in Hc; eauto.
    destruct (p.(conns) !! i) eqn:E; simplify_eq/=; eauto.
Qed.

(** One round of the shrink loop. *)
Definition drop_front (o : Origin) (i : nat) (dq : list nat) (p : pool) : pool :=
  set_idle (fun m => match dq with [] => delete o m | _ => <[o := dq]> m end)
    (set_conns (close_id i) p).

Lemma drop_front_shrunk o i dq p :
  p.(idle) !! o = Some (i :: dq) -> shrunk p (drop_front o i dq p).
Proof.
  intros Ho. split; simpl; auto.
  - intros j. unfold close_id. destruct (decide (i = j)) as [<-|Hne].
    + right. by rewrite lookup_alter_eq.
    + left. by rewrite lookup_alter_ne.
  - intros o' dq'. destruct (decide (o = o')) as [<-|Hne].
    + destruct dq as [|j dq]; [by rewrite lookup_delete_eq|].
      rewrite lookup_insert_eq. intros; simplify_eq. eexists; split; [done|]. by constructor.
    + destruct dq; rewrite ?lookup_delete_ne, ?lookup_insert_ne by done; eauto.
Qed.

Lemma drop_front_total o i dq p :
  p.(idle) !! o = Some (i :: dq) ->
  (total_idle (drop_front o i dq p).(idle) + 1 = total_idle p.(idle))%nat.
Proof.
  intros Ho. simpl. pose proof (total_idle_delete o p.(idle)) as Hd.
  pose proof (total_idle_insert o dq p.(idle)) as Hi. unfold deque_of in *.
  rewrite Ho in *. simpl in *. destruct dq; simpl in *; lia.
Qed.

(** The scan of a deque: it closes what it skips and stops at the first usable
    connection. *)
Definition unusable (now : Z) (cs : gmap nat conn) (i : nat) : Prop :=
  forall c, cs !! i = Some c -> usable cfg now c = false.

Record scanned (now : Z) (rdq : list nat) (cs : gmap nat conn)
    (hit : option nat) (rest : list nat) (cs' : gmap nat conn) : Prop := {
  sc_split : exists skipped, rdq = skipped ++ option_list hit ++ rest /\
    Forall (unusable now cs) skipped /\ (hit = None -> rest = []) /\
    (forall j, j ∈ skipped -> cs' !! j = close <$> cs !! j) /\
    (forall j, j ∉ skipped -> Some j <> hit -> cs' !! j = cs !! j);
  sc_hit i : hit = Some i -> exists c, cs !! i = Some c /\ usable cfg now c = true /\
    cs' !! i = Some (set_busy true now c);
}.

Lemma acquire_scan_spec now rdq cs hit rest cs' :
  NoDup rdq -> acquire_scan cfg now rdq cs = (hit, rest, cs') ->
  scanned now rdq cs hit rest cs'.
Proof.
  revert cs. induction rdq as [|i rdq IH]; intros cs Hnd H; simpl in H.
  - simplify_eq. split; [|done]. exists []. split_and!; auto. set_solver.
  - apply NoDup_cons in Hnd as [Hni Hnd]. destruct (cs !! i) as [c|] eqn:Hc.
    + destruct (usable cfg now c) eqn:Hu.
      * simplify_eq. split.
        -- exists []. split_and!; try done; [set_solver|].
           intros j _ Hj. rewrite lookup_insert_ne; congruence.
        -- intros j ?; simplify_eq. exists c. by rewrite lookup_insert_eq.
      * destruct (IH _ Hnd H) as [(sk & -> & Hun & Hrest & Hcl & Hsame) Hhit].
        assert (i ∉ sk) by set_solver. split.
        -- exists (i :: sk). split_and!; auto.
           ++ constructor; [intros c' Hc'; congruence|].
              apply Forall_forall. intros j Hj c' Hc'. rewrite Forall_forall in Hun.
              apply (Hun j Hj). rewrite lookup_insert_ne; [done|set_solver].
           ++ intros j Hj. destruct (decide (j = i)) as [->|].
              ** rewrite Hsame; [by rewrite lookup_insert_eq, Hc|done|].
                 intros <-. set_solver.
              ** rewrite Hcl by set_solver. by rewrite lookup_insert_ne.
           ++ intros j Hj Hne. rewrite Hsame; [|set_solver|done].
              rewrite lookup_insert_ne; [done|set_solver].
        -- intros j Hj. destruct (Hhit j Hj) as (c' & Hc' & Hrest').
           assert (i <> j) by (intros ->; subst hit; set_solver).
           rewrite lookup_insert_ne in Hc' by done. eauto.
    + destruct (IH _ Hnd H) as [(sk & -> & Hun & Hrest & Hcl & Hsame) Hhit].
      assert (i ∉ sk) by set_solver. split; [|done].
      exists (i :: sk). split_and!; auto.
      * constructor; [intros c' Hc'; congruence|done].
      * intros j Hj. destruct (decide (j = i)) as [->|]; [|apply Hcl; set_solver].
        rewrite Hsame; [by rewrite Hc|done|]. intros <-. set_solver.
      * intros j Hj Hne. apply Hsame; set_solver.
Qed.

Lemma idle_deque p o i :
  i ∈ deque_of o p.(idle) -> exists dq, p.(idle) !! o = Some dq /\ i ∈ dq.
Proof. unfold deque_of. destruct (p.(idle) !! o); simpl; [eauto|set_solver]. Qed.

Lemma deque_nodup p o : pool_wf p -> NoDup (deque_of o p.(idle)).
Proof.
  intros Hwf. unfold deque_of. destruct (p.(idle) !! o) eqn:E; [by apply (wf_nodup _ Hwf) in E|constructor].
Qed.

(** What [acquire] hands out and what it does to the pool. *)
Lemma acquire_spec origin now p a p' :
  pool_wf p -> acquire cfg ssl_ctx origin now p = (a, p') ->
  exists skipped rest,
    deque_of origin p.(idle) = rest ++ option_list (match a with Reused i => Some i | _ => None end)
                               ++ skipped /\
    Forall (unusable now p.(conns)) skipped /\
    p'.(idle) = <[origin := rest]> p.(idle) /\
    p'.(reaper_armed) = p.(reaper_armed) /\ p'.(reap_pending) = p.(reap_pending) /\
    (forall j, j ∈ skipped -> p'.(conns) !! j = close <$> p.(conns) !! j) /\
    (forall j, j ∉ skipped -> (match a with Reused i | Connecting i => j <> i end) ->
       p'.(conns) !! j = p.(conns) !! j) /\
    match a with
    | Reused i => p'.(next_id) = p.(next_id) /\
        exists c, p.(conns) !! i = Some c /\ usable cfg now c = true /\
          p'.(conns) !! i = Some (set_busy true now c)
    | Connecting i => rest = [] /\ i = p.(next_id) /\ p'.(next_id) = S i /\
        p'.(conns) !! i = Some (prepare_stream ssl_ctx (new_conn origin now))
    end.
Proof.
  intros Hwf H. unfold acquire in H. fold (deque_of origin p.(idle)) in H.
  destruct (acquire_scan _ _ _ _) as [[hit rdq] cs] eqn:Hscan.
  apply acquire_scan_spec in Hscan as [(sk & Hsp & Hun & Hrest & Hcl & Hsame) Hhit];
    [|rewrite <- (Permutation_rev (deque_of origin p.(idle))); by apply deque_nodup].
  assert (Hdq : deque_of origin p.(idle) = rev rdq ++ option_list hit ++ rev sk).
  { rewrite <- (rev_involutive (deque_of origin p.(idle))), Hsp, !rev_app_distr.
    rewrite app_assoc. by destruct hit. }
  exists (rev sk), (rev rdq).
  assert (Hin : forall j, j ∈ rev sk <-> j ∈ sk) by (intros j; by rewrite <- (Permutation_rev sk)).
  assert (Hfor : Forall (unusable now p.(conns)) (rev sk)) by (by rewrite <- (Permutation_rev sk)).
  destruct hit as [i|]; simplify_eq/=.
  - split_and!; eauto.
    + intros j Hj. apply Hcl. by apply Hin.
    + intros j Hj Hne. apply Hsame; [by rewrite <- Hin|congruence].
  - rewrite (Hrest eq_refl) in *. simpl in *.
    assert (Hnew : forall j, j ∈ sk -> j <> p.(next_id)).
    { intros j Hj ->. apply Hin in Hj. rewrite <- Hdq in Hj.
      apply idle_deque in Hj as (dq & Hd & Hj).
      destruct (wf_owned _ Hwf _ _ _ Hd Hj) as (c & Hc & _). apply (wf_fresh _ Hwf) in Hc. lia. }
    split_and!; auto.
    + intros j Hj. apply Hin in Hj. rewrite lookup_insert_ne by (symmetry; auto). by apply Hcl.
    + intros j Hj Hne. rewrite lookup_insert_ne by done. apply Hsame; [by rewrite <- Hin|done].
    + apply lookup_insert_eq.
Qed.

Lemma acquire_wf origin now p a p' :
  pool_wf p -> acquire cfg ssl_ctx origin now p = (a, p') -> pool_wf p'.
Proof.
  intros Hwf H. pose proof (acquire_spec _ _ _ _ _ Hwf H)
    as (sk & rest & Hdq & _ & Hidle & _ & _ & Hcl & Hsame & Ha).
  pose proof (deque_nodup _ origin Hwf) as Hnd. rewrite Hdq in Hnd.
  (* a connection of a deque of [p'] is as in [p] *)
  assert (Hold : forall o dq, p'.(idle) !! o = Some dq ->
    (length dq <= length (deque_of o p.(idle)))%nat /\ NoDup dq /\
    forall i, i ∈ dq -> i ∈ deque_of o p.(idle) /\ p'.(conns) !! i = p.(conns) !! i).
  { intros o dq Ho. rewrite Hidle in Ho. destruct (decide (o = origin)) as [->|Hne].
    - rewrite lookup_insert_eq in Ho. simplify_eq. rewrite Hdq, length_app.
      apply NoDup_app in Hnd as (Hn1 & Hdis & _). split_and!; [lia|done|].
      intros i Hi. split; [set_solver|]. apply Hsame; [set_solver|].
      destruct a as [k|k]; [set_solver|]. destruct Ha as (-> & _). set_solver.
    - rewrite lookup_insert_ne in Ho by done. unfold deque_of. rewrite Ho. simpl.
      split_and!; [lia|by apply (wf_nodup _ Hwf) in Ho|]. intros i Hi. split; [done|].
      destruct (wf_owned _ Hwf _ _ _ Ho Hi) as (c & Hc & Hco & _).
      assert (Hnot : i ∉ deque_of origin p.(idle)).
      { intros Hin. apply idle_deque in Hin as (dq0 & Hd0 & Hin).
        destruct (wf_owned _ Hwf _ _ _ Hd0 Hin) as (c' & Hc' & Hco' & _). congruence. }
      rewrite Hdq in Hnot. apply Hsame; [set_solver|].
      destruct a as [k|k]; [set_solver|]. destruct Ha as (_ & -> & _).
      apply (wf_fresh _ Hwf) in Hc. lia. }
  split.
  - intros o dq Ho. destruct (Hold _ _ Ho) as (Hl & _ & _). unfold deque_of in Hl.
    destruct (p.(idle) !! o) eqn:E; simpl in Hl; [apply (wf_cap _ Hwf) in E|]; lia.
  - intros o dq i Ho Hi. destruct (Hold _ _ Ho) as (_ & _ & Hd). destruct (Hd _ Hi) as [Hin ->].
    apply idle_deque in Hin as (dq0 & Hd0 & Hin). by apply (wf_owned _ Hwf _ _ _ Hd0).
  - intros o dq Ho. by destruct (Hold _ _ Ho) as (_ & ? & _).
  - intros i c Hc. destruct (decide (i ∈ sk)) as [Hi|Hi].
    + rewrite Hcl in Hc by done. destruct (p.(conns) !! i) eqn:E; simplify_eq/=.
      apply (wf_fresh _ Hwf) in E. destruct a; [destruct Ha as [-> _]|destruct Ha as (_ & -> & -> & _)]; lia.
    + destruct a as [k|k]; [destruct Ha as (-> & c0 & Hk & _)|destruct Ha as (_ & -> & -> & _)].
      * destruct (decide (i = k)) as [->|]; [by apply (wf_fresh _ Hwf) in Hk|].
        rewrite Hsame in Hc by done. by apply (wf_fresh _ Hwf) in Hc.
      * destruct (decide (i = p.(next_id))) as [->|]; [lia|].
        rewrite Hsame in Hc by done. apply (wf_fresh _ Hwf) in Hc. lia.
Qed.

(** A connection in use is in no deque. *)
Definition not_idle (p : pool) (i : nat) : Prop :=
  forall o dq, p.(idle) !! o = Some dq -> i ∉ dq.

Lemma busy_not_idle p i c :
  pool_wf p -> p.(conns) !! i = Some c -> c.(c_busy) = true -> not_idle p i.
Proof.
  intros Hwf Hc Hb o dq Ho Hi. destruct (wf_owned _ Hwf _ _ _ Ho Hi) as (c' & Hc' & _ & Hb').
  congruence.
Qed.

(** Changing a connection that is in no deque. *)
Lemma set_conn_wf p i c :
  pool_wf p -> not_idle p i -> (i < p.(next_id))%nat -> pool_wf (set_conns <[i := c]> p).
Proof.
  intros Hwf Hn Hlt. split; simpl.
  - apply Hwf.
  - intros o dq j Ho Hj. rewrite lookup_insert_ne by (intros ->; by apply (Hn _ _ Ho)).
    by apply (wf_owned _ Hwf _ _ _ Ho).
  - apply Hwf.
  - intros j c' Hj. apply lookup_insert_Some in Hj as [[<- _]|[_ Hj]]; [done|].
    by apply (wf_fresh _ Hwf) in Hj.
Qed.

Lemma close_id_shrunk p i : shrunk p (set_conns (close_id i) p).
Proof.
  split; simpl; eauto.
  intros j. unfold close_id. destruct (decide (i = j)) as [<-|Hne].
  - right. by rewrite lookup_alter_eq.
  - left. by rewrite lookup_alter_ne.
Qed.

(** Putting a free connection at the back of what is left of its deque. *)
Lemma push_wf p i c pre dq :
  pool_wf p -> not_idle p i -> p.(conns) !! i = Some c -> c.(c_busy) = false ->
  deque_of c.(c_origin) p.(idle) = pre ++ dq ->
  (length dq < cfg.(max_idle_per_origin))%nat ->
  pool_wf (set_idle <[c.(c_origin) := dq ++ [i]]> p).
Proof.
  intros Hwf Hn Hc Hb Hdq Hlen. pose proof (deque_nodup _ c.(c_origin) Hwf) as Hnd.
  rewrite Hdq in Hnd. apply NoDup_app in Hnd as (_ & _ & Hnd).
  assert (Hin : forall j, j ∈ dq -> exists dq0, p.(idle) !! c.(c_origin) = Some dq0 /\ j ∈ dq0).
  { intros j Hj. apply idle_deque. rewrite Hdq. set_solver. }
  split; simpl.
  - intros o dq' Ho. apply lookup_insert_Some in Ho as [[<- <-]|[_ Ho]].
    + rewrite length_app. simpl. lia.
    + by apply (wf_cap _ Hwf) in Ho.
  - intros o dq' j Ho Hj. apply lookup_insert_Some in Ho as [[<- <-]|[_ Ho]].
    + apply elem_of_app in Hj as [Hj|Hj].
      * destruct (Hin _ Hj) as (dq0 & H0 & Hj0). by apply (wf_owned _ Hwf _ _ _ H0).
      * apply list_elem_of_singleton in Hj as ->. eauto.
    + by apply (wf_owned _ Hwf _ _ _ Ho).
  - intros o dq' Ho. apply lookup_insert_Some in Ho as [[<- <-]|[_ Ho]].
    + apply NoDup_app. split_and!; [done| |apply NoDup_singleton].
      intros j Hj Hj'. apply list_elem_of_singleton in Hj' as ->.
      destruct (Hin _ Hj) as (dq0 & H0 & Hj0). by apply (Hn _ _ H0).
    + by apply (wf_nodup _ Hwf) in Ho.
  - apply Hwf.
Qed.

Lemma arm_spec p :
  p.(reaper_armed) = p.(reap_pending) ->
  (p.(reaper_armed) = true -> (0 < cfg.(idle_reap_interval))%Z) ->
  let p' := arm_reap_if_needed_locked cfg p in
  p'.(conns) = p.(conns) /\ p'.(idle) = p.(idle) /\ p'.(next_id) = p.(next_id) /\ reaper_ok p'.
Proof.
  intros Hf He. unfold arm_reap_if_needed_locked, schedule_reap. cbv zeta.
  destruct (Z.leb_spec cfg.(idle_reap_interval) 0); [split_and!; try done; split; auto; lia|].
  destruct (reaper_armed p) eqn:Ha; [split_and!; try done; split; auto; congruence|].
  destruct (Nat.eqb_spec (total_idle p.(idle)) 0).
  - split_and!; try done. split; simpl; auto; [congruence|lia].
  - simpl. split_and!; try done.
Qed.

Lemma wf_ext p p' :
  p'.(conns) = p.(conns) -> p'.(idle) = p.(idle) -> p'.(next_id) = p.(next_id) ->
  pool_wf p -> pool_wf p'.
Proof. intros H1 H2 H3 [W1 W2 W3 W4]. split; rewrite ?H1, ?H2, ?H3; auto. Qed.

(** *** The reaper *)

Definition reap_closes (now : Z) (cs : gmap nat conn) (l : list nat) (acc : gmap nat conn) :
    gmap nat conn :=
  foldl (fun acc i => if reap_keep cfg now cs i then acc else close_id i acc) acc l.

Lemma reap_closes_lookup now cs l acc i :
  reap_closes now cs l acc !! i = acc !! i \/
  (reap_closes now cs l acc !! i = close <$> acc !! i /\ reap_keep cfg now cs i = false).
Proof.
  revert acc; induction l as [|j l IH]; intros acc; simpl; [by left|].
  destruct (reap_keep cfg now cs j) eqn:Hj; [apply IH|].
  destruct (decide (i = j)) as [->|Hne].
  - right. split; [|done]. destruct (IH (close_id j acc)) as [->|[-> _]]; unfold close_id;
      rewrite lookup_alter_eq; by destruct (acc !! j).
  - destruct (IH (close_id j acc)) as [->|[-> H]]; unfold close_id;
      rewrite lookup_alter_ne by done; auto.
Qed.

Lemma reap_all_lookup now cs (es : list (Origin * list nat)) acc i :
  foldl (fun acc e => reap_closes now cs e.2 acc) acc es !! i = acc !! i \/
  (foldl (fun acc e => reap_closes now cs e.2 acc) acc es !! i = close <$> acc !! i /\
   reap_keep cfg now cs i = false).
Proof.
  revert acc; induction es as [|e es IH]; intros acc; simpl; [by left|].
  destruct (IH (reap_closes now cs e.2 acc)) as [->|[-> H]];
    destruct (reap_closes_lookup now cs e.2 acc i) as [->|[-> H']]; auto.
  right. split; [|done]. by destruct (acc !! i).
Qed.

Lemma sublist_bfilter {A} (f : A -> bool) l : List.filter f l `sublist_of` l.
Proof. induction l as [|x l IH]; simpl; [done|]. destruct (f x); by constructor. Qed.

(** What the shrink loop leaves in a deque it has not closed. *)
Lemma drop_front_kept o i dq p o' dq' j :
  pool_wf p -> p.(idle) !! o = Some (i :: dq) ->
  (drop_front o i dq p).(idle) !! o' = Some dq' -> j ∈ dq' ->
  (drop_front o i dq p).(conns) !! j = p.(conns) !! j.
Proof.
  intros Hwf Ho Ho' Hj. simpl. unfold close_id. rewrite lookup_alter_ne; [done|].
  intros <-. pose proof (wf_nodup _ Hwf _ _ Ho) as Hnd. apply NoDup_cons in Hnd as [Hni _].
  assert (p.(idle) !! o' = Some dq' /\ o' <> o) as [Hp Hne].
  { simpl in Ho'. destruct (decide (o = o')) as [<-|Hne].
    - destruct dq; [by rewrite lookup_delete_eq in Ho'|].
      rewrite lookup_insert_eq in Ho'. by simplify_eq.
    - destruct dq; rewrite ?lookup_delete_ne, ?lookup_insert_ne in Ho' by done; done. }
  destruct (wf_owned _ Hwf _ _ i Ho) as (c & Hc & Hco & _); [set_solver|].
  destruct (wf_owned _ Hwf _ _ i Hp Hj) as (c' & Hc' & Hco' & _). congruence.
Qed.

Definition no_empty (p : pool) : Prop := forall o, p.(idle) !! o <> Some [].

Context (order : list (Origin * list nat) -> list (Origin * list nat)).
Context (Horder : forall l, order l ≡ₚ l).

Lemma max_element_idle p o dq :
  max_element (order (map_to_list p.(idle))) = Some (o, dq) -> p.(idle) !! o = Some dq /\
  forall o' dq', p.(idle) !! o' = Some dq' -> (length dq' <= length dq)%nat.
Proof using Horder.
  intros H. apply max_element_spec in H as [Hin Hall]. split.
  - apply elem_of_map_to_list. by rewrite <- (Horder (map_to_list p.(idle))).
  - intros o' dq' Ho'. rewrite (Horder (map_to_list p.(idle))), Forall_forall in Hall.
    apply (Hall (o', dq')). by apply elem_of_map_to_list.
Qed.

Lemma shrink_loop_spec fuel total p :
  total = total_idle p.(idle) -> (total <= fuel)%nat ->
  shrunk p (shrink_loop cfg order fuel total p) /\
  total_idle (shrink_loop cfg order fuel total p).(idle) = Nat.min total cfg.(max_total_idle).
Proof using Horder.
  revert total p. induction fuel as [|fuel IH]; intros total p Ht Hf; simpl.
  - split; [apply shrunk_refl|lia].
  - destruct (Nat.leb_spec total cfg.(max_total_idle)) as [Hle|Hlt].
    { split; [apply shrunk_refl|lia]. }
    destruct (total_idle_pos p.(idle)) as (o0 & i0 & dq0 & H0); [lia|].
    destruct (max_element _) as [[o [|i dq]]|] eqn:Hm.
    + apply max_element_idle in Hm as [_ Hmax]. apply Hmax in H0. simpl in H0. lia.
    + apply max_element_idle in Hm as [Ho _].
      pose proof (drop_front_total _ _ _ _ Ho) as Htot.
      destruct (IH (total - 1)%nat (drop_front o i dq p)) as [Hs Hn]; [lia|lia|].
      fold (drop_front o i dq p). split.
      * eapply shrunk_trans; [|exact Hs]. by apply drop_front_shrunk.
      * rewrite Hn. lia.
    + apply max_element_None in Hm.
      assert (Hnil : map_to_list p.(idle) = []) by (apply Permutation_nil_r; by rewrite <- Horder, Hm).
      apply map_to_list_empty_iff in Hnil. by rewrite Hnil in H0.
Qed.

Lemma shrink_spec p :
  shrunk p (shrink_global_if_needed cfg order p) /\
  total_idle (shrink_global_if_needed cfg order p).(idle) =
  Nat.min (total_idle p.(idle)) cfg.(max_total_idle).
Proof using Horder.
  unfold shrink_global_if_needed.
  destruct (Nat.leb_spec (total_idle p.(idle)) cfg.(max_total_idle)).
  - split; [apply shrunk_refl|lia].
  - by apply shrink_loop_spec.
Qed.

(** The tail of [release], after the push. *)
Lemma settle_inv p :
  pool_wf p -> p.(reaper_armed) = p.(reap_pending) ->
  (p.(reaper_armed) = true -> (0 < cfg.(idle_reap_interval))%Z) ->
  pool_inv (arm_reap_if_needed_locked cfg (shrink_global_if_needed cfg order p)).
Proof using Horder.
  intros Hwf Hf He. destruct (shrink_spec p) as [Hs Ht].
  set (q := shrink_global_if_needed cfg order p) in *.
  destruct (arm_spec q) as (H1 & H2 & H3 & Hr).
  - by rewrite (sh_armed _ _ Hs), (sh_pending _ _ Hs).
  - by rewrite (sh_armed _ _ Hs).
  - split; [|rewrite H2; lia|done].
    apply (wf_ext q); auto. by apply (shrunk_wf p).
Qed.

(** Giving back fails exactly when the per-origin cap is zero and the connection is to
    be kept. *)
Lemma release_none i k can_reuse now p :
  pool_wf p -> p.(conns) !! i = Some k ->
  release cfg order (Some i) can_reuse now p = None <->
  cfg.(max_idle_per_origin) = 0 /\ can_reuse = true /\ alive k = true.
Proof.
  intros Hwf Hk. unfold release. rewrite Hk. destruct can_reuse, (alive k); simpl; try (split; naive_solver).
  fold (deque_of (c_origin k) p.(idle)).
  assert (length (deque_of (c_origin k) p.(idle)) <= cfg.(max_idle_per_origin))%nat as Hlen.
  { unfold deque_of. destruct (p.(idle) !! _) eqn:E; simpl; [|lia]. by apply (wf_cap _ Hwf) in E. }
  destruct (Nat.leb_spec cfg.(max_idle_per_origin) (length (deque_of (c_origin k) p.(idle)))) as [Hle|Hlt];
    destruct (deque_of (c_origin k) p.(idle)); simpl in *; split; try done; try (intros [? _]; lia).
  intros _. split_and!; [lia|done..].
Qed.

Lemma release_keeps i k can_reuse now p p' :
  pool_inv p -> p.(conns) !! i = Some k -> k.(c_busy) = true ->
  release cfg order (Some i) can_reuse now p = Some p' -> pool_inv p'.
Proof using Horder.
  intros [Hwf Htot Hr] Hk Hb. unfold release. rewrite Hk.
  destruct (negb can_reuse || negb (alive k)).
  { intros [= <-]. split; [|done|].
    - eapply shrunk_wf; [apply close_id_shrunk|done].
    - destruct Hr; by split. }
  pose proof (busy_not_idle _ _ _ Hwf Hk Hb) as Hn.
  set (k' := set_busy false now k). set (p1 := set_conns <[i := k']> p).
  assert (Hwf1 : pool_wf p1).
  { apply set_conn_wf; auto. by apply (wf_fresh _ Hwf) in Hk. }
  change (c_origin k) with (c_origin k'). fold (deque_of (c_origin k') p1.(idle)).
  assert (Hi1 : p1.(conns) !! i = Some k') by apply lookup_insert_eq.
  destruct (Nat.leb_spec cfg.(max_idle_per_origin) (length (deque_of (c_origin k') p1.(idle))))
    as [Hfull|Hroom].
  - destruct (deque_of (c_origin k') p1.(idle)) as [|old dq] eqn:Hdq; [done|].
    intros [= <-]. apply settle_inv; [|apply Hr|apply Hr].
    assert (old <> i) as Hne.
    { intros ->. destruct (idle_deque p1 (c_origin k') i) as (dq0 & H0 & Hin);
        [rewrite Hdq; set_solver|]. by apply (Hn _ _ H0). }
    apply (push_wf _ i k' [old] dq); try done.
    + eapply shrunk_wf; [apply close_id_shrunk|done].
    + simpl. unfold close_id. by rewrite lookup_alter_ne, lookup_insert_eq by done.
    + assert (Hlen : (length (old :: dq) <= cfg.(max_idle_per_origin))%nat); [|simpl in Hlen; lia].
      rewrite <- Hdq. unfold deque_of. destruct (p1.(idle) !! _) eqn:E; simpl; [|lia].
      by apply (wf_cap _ Hwf1) in E.
  - intros [= <-]. apply settle_inv; [|apply Hr|apply Hr].
    by apply (push_wf _ i k' []).
Qed.

Lemma shrink_loop_kept fuel total p o dq j :
  pool_wf p -> (shrink_loop cfg order fuel total p).(idle) !! o = Some dq -> j ∈ dq ->
  (shrink_loop cfg order fuel total p).(conns) !! j = p.(conns) !! j /\
  exists dq0, p.(idle) !! o = Some dq0 /\ j ∈ dq0.
Proof using Horder.
  revert total p; induction fuel as [|fuel IH]; intros total p Hwf; simpl; [eauto|].
  destruct (_ <=? _)%nat; [eauto|].
  destruct (max_element _) as [[o1 [|i1 dq1]]|] eqn:Hm; eauto.
  apply max_element_idle in Hm as [Ho1 _]. fold (drop_front o1 i1 dq1 p). intros Ho Hj.
  pose proof (drop_front_shrunk _ _ _ _ Ho1) as Hsh.
  destruct (IH _ _ (shrunk_wf _ _ Hsh Hwf) Ho Hj) as (-> & dq0 & H0 & Hj0).
  split; [by eapply drop_front_kept|].
  destruct (sh_idle _ _ Hsh _ _ H0) as (dq2 & H2 & Hsub).
  exists dq2. split; [done|]. by eapply elem_of_sublist.
Qed.

Lemma shrink_loop_no_empty fuel total p :
  no_empty p -> no_empty (shrink_loop cfg order fuel total p).
Proof.
  revert total p; induction fuel as [|fuel IH]; intros total p Hp; simpl; [done|].
  destruct (_ <=? _)%nat; [done|].
  destruct (max_element _) as [[o1 [|i1 dq1]]|]; try done. apply IH.
  intros o Ho. simpl in Ho. destruct (decide (o1 = o)) as [<-|Hne].
  - destruct dq1; [by rewrite lookup_delete_eq in Ho|by rewrite lookup_insert_eq in Ho].
  - destruct dq1; rewrite ?lookup_delete_ne, ?lookup_insert_ne in Ho by done; by apply (Hp o).
Qed.

Lemma shrink_no_empty p : no_empty p -> no_empty (shrink_global_if_needed cfg order p).
Proof.
  intros Hp. unfold shrink_global_if_needed. destruct (_ <=? _)%nat; [done|].
  by apply shrink_loop_no_empty.
Qed.

Lemma reap_inv now p :
  pool_inv p -> p.(reap_pending) = true ->
  pool_inv (reap cfg order now p) /\
  forall o dq i, (reap cfg order now p).(idle) !! o = Some dq ->
    dq <> [] /\ (i ∈ dq -> exists c, (reap cfg order now p).(conns) !! i = Some c /\
                             usable cfg now c = true).
Proof using Horder.
  intros [Hwf Htot Hr] Hpd. unfold reap.
  set (cs := foldl _ _ _). set (pruned := filter _ _).
  set (q := mkPool cs p.(next_id) pruned p.(reaper_armed) false).
  assert (Hpr : forall o dq, pruned !! o = Some dq -> exists dq0, p.(idle) !! o = Some dq0 /\
    dq = List.filter (reap_keep cfg now p.(conns)) dq0 /\ dq <> []).
  { intros o dq H. apply map_lookup_filter_Some in H as [H Hne].
    rewrite lookup_fmap in H. destruct (p.(idle) !! o) as [dq0|]; simplify_eq/=. eauto. }
  assert (Hsh : shrunk (set_reaper p.(reaper_armed) false p) q).
  { split; simpl; auto.
    - intros i. destruct (reap_all_lookup now p.(conns) (map_to_list p.(idle)) p.(conns) i)
        as [H|[H _]]; [left|right]; exact H.
    - intros o dq H. destruct (Hpr _ _ H) as (dq0 & H0 & -> & _). eauto using sublist_bfilter. }
  assert (Hwfq : pool_wf q) by (apply (shrunk_wf _ _ Hsh), (wf_ext p); done).
  destruct (shrink_spec q) as [Hsq Htq].
  (* what survives is usable *)
  assert (Huse : forall o dq i, (shrink_global_if_needed cfg order q).(idle) !! o = Some dq -> i ∈ dq ->
    exists c, (shrink_global_if_needed cfg order q).(conns) !! i = Some c /\ usable cfg now c = true).
  { intros o dq i Ho Hi.
    assert ((shrink_global_if_needed cfg order q).(conns) !! i = q.(conns) !! i /\
      exists dq0, pruned !! o = Some dq0 /\ i ∈ dq0) as (-> & dq0 & H0 & Hi0).
    { unfold shrink_global_if_needed in *. destruct (_ <=? _)%nat; [eauto|].
      by eapply shrink_loop_kept. }
    destruct (Hpr _ _ H0) as (dq1 & H1 & -> & _).
    apply list_elem_of_In, filter_In in Hi0 as [_ Hk]. unfold reap_keep in Hk.
    destruct (p.(conns) !! i) as [c|] eqn:Hc; [|done]. exists c. split; [|done].
    destruct (reap_all_lookup now p.(conns) (map_to_list p.(idle)) p.(conns) i)
      as [H|[_ H]]; [by rewrite <- Hc|]. unfold reap_keep in H. rewrite Hc in H. congruence. }
  assert (Hne : no_empty (shrink_global_if_needed cfg order q)).
  { apply shrink_no_empty. intros o H. by destruct (Hpr _ _ H) as (? & _ & _ & ?). }
  assert (Hwf1 := shrunk_wf _ _ Hsq Hwfq). clear Hpr Hsh.
  set (p1 := shrink_global_if_needed cfg order q) in *.
  assert (Harm : p1.(reaper_armed) = p.(reaper_armed)) by apply (sh_armed _ _ Hsq).
  assert (Hpend : p1.(reap_pending) = false) by apply (sh_pending _ _ Hsq).
  assert (Hon : p.(reaper_armed) = true) by (by rewrite (ro_flag _ Hr)).
  pose proof (ro_enabled _ Hr Hon) as Hint.
  assert (Hrest : forall o dq i, p1.(idle) !! o = Some dq ->
    dq <> [] /\ (i ∈ dq -> exists c, p1.(conns) !! i = Some c /\ usable cfg now c = true)).
  { intros o dq i Ho. split; [intros ->; by apply (Hne o)|by apply (Huse o)]. }
  destruct ((0 <? total_idle p1.(idle))%nat && (0 <? cfg.(idle_reap_interval))%Z) eqn:Hcond.
  - unfold schedule_reap. destruct (Z.leb_spec cfg.(idle_reap_interval) 0); [lia|].
    split; [|exact Hrest]. split; simpl; [by apply (wf_ext p1)|lia|].
    split; simpl; try done; congruence.
  - split; [|exact Hrest]. split; simpl; [by apply (wf_ext p1)|lia|].
    split; simpl; [congruence|congruence|]. intros _ Hpos.
    apply andb_false_iff in Hcond as [Hc|Hc]; bool_to_prop; lia.
Qed.
End invariant.

(** ** The pool and its users

    A user that was given a connection holds it (it is busy) until it releases
    it; it may close it and upgrade it meanwhile. *)

Section steps.
Context (cfg : PoolConfig) (ssl_ctx : bool).
Context (order : list (Origin * list nat) -> list (Origin * list nat)).

Inductive pool_step : pool -> pool -> Prop :=
  | step_acquire origin now a p p' :
      acquire cfg ssl_ctx origin now p = (a, p') -> pool_step p p'
  | step_connect i rc cc hc now r p p' :
      not_idle p i -> do_resolve_connect i rc cc hc now p = (r, p') -> pool_step p p'
  | step_release i k can_reuse now p p' :
      p.(conns) !! i = Some k -> k.(c_busy) = true ->
      release cfg order (Some i) can_reuse now p = Some p' -> pool_step p p'
  | step_close i k p :
      p.(conns) !! i = Some k -> k.(c_busy) = true ->
      pool_step p (set_conns <[i := close k]> p)
  | step_upgrade i k k' p :
      p.(conns) !! i = Some k -> k.(c_busy) = true -> upgrade_to_ssl ssl_ctx k = Some k' ->
      pool_step p (set_conns <[i := k']> p)
  | step_reap now p :
      p.(reap_pending) = true -> pool_step p (reap cfg order now p).

Context (Horder : forall l, order l ≡ₚ l).

Lemma reaper_ok_ext p p' :
  p'.(reaper_armed) = p.(reaper_armed) -> p'.(reap_pending) = p.(reap_pending) ->
  (total_idle p'.(idle) <= total_idle p.(idle))%nat -> reaper_ok cfg p -> reaper_ok cfg p'.
Proof. intros H1 H2 H3 [R1 R2 R3]. split; rewrite ?H1, ?H2; auto. intros. apply R3; lia. Qed.

Lemma set_conn_inv p i c :
  pool_inv cfg p -> not_idle p i -> (i < p.(next_id))%nat ->
  pool_inv cfg (set_conns <[i := c]> p).
Proof.
  intros [Hwf Htot Hr] Hn Hlt. split; [by apply set_conn_wf|done|]. by apply (reaper_ok_ext p).
Qed.

Lemma pool_step_inv p p' : pool_inv cfg p -> pool_step p p' -> pool_inv cfg p'.
Proof using Horder.
  intros Hinv Hs. pose proof Hinv as [Hwf Htot Hr].
  destruct Hs as [origin now a p p' H|i rc cc hc now r p p' Hn H|i k cr now p p' Hk Hb H
                 |i k p Hk Hb|i k k' p Hk Hb Hu|now p Hpd].
  - pose proof (acquire_spec _ _ _ _ _ _ _ Hwf H)
      as (sk & rest & Hdq & _ & Hidle & Ha & Hp & _).
    assert (total_idle p'.(idle) <= total_idle p.(idle))%nat.
    { rewrite Hidle. pose proof (total_idle_insert origin rest p.(idle)) as Ht.
      rewrite Hdq, length_app in Ht. lia. }
    split; [exact (acquire_wf _ _ _ _ _ _ _ Hwf H)|lia|by apply (reaper_ok_ext p)].
  - unfold do_resolve_connect in H. destruct rc, cc; simplify_eq; try done.
    destruct (p.(conns) !! i) as [c|] eqn:Hc; [|by simplify_eq].
    apply (wf_fresh _ _ Hwf) in Hc.
    destruct (if c_ssl c then hc else None); simplify_eq; by apply set_conn_inv.
  - by eapply release_keeps.
  - apply set_conn_inv; [done|by eapply busy_not_idle|by apply (wf_fresh _ _ Hwf) in Hk].
  - apply set_conn_inv; [done|by eapply busy_not_idle|by apply (wf_fresh _ _ Hwf) in Hk].
  - by apply reap_inv.
Qed.

Lemma empty_pool_inv : pool_inv cfg empty_pool.
Proof.
  split; simpl.
  - split; simpl; intros *; rewrite lookup_empty; done.
  - unfold total_idle. rewrite map_fold_empty. lia.
  - split; simpl; try done. unfold total_idle. rewrite map_fold_empty. lia.
Qed.

Lemma pool_reachable_inv p : rtc pool_step empty_pool p -> pool_inv cfg p.
Proof using Horder.
  intros H. eapply (rtc_invariant _ (pool_inv cfg)); [|exact H|apply empty_pool_inv].
  intros a b. apply pool_step_inv.
Qed.

(** C2: whatever its users do, as long as each releases only a connection it
    holds, with any limits and in whatever order a hash map is walked, the pool keeps at
    most [max_idle_per_origin] idle connections per
    origin and [max_total_idle] overall, every idle connection is filed once,
    under its own origin, and is not in use, and the reaper is armed exactly
    when its timer is pending, and is armed whenever there is something to reap
    and the interval is positive.  Releasing a held connection is undefined exactly
    when [max_idle_per_origin] is zero and the connection is open and to be kept: the
    front of an empty deque is dropped. *)
Theorem pool_invariant p :
  rtc pool_step empty_pool p ->
  (forall o dq, p.(idle) !! o = Some dq ->
     (length dq <= cfg.(max_idle_per_origin))%nat /\ NoDup dq /\
     forall i, i ∈ dq -> exists c,
       p.(conns) !! i = Some c /\ c.(c_origin) = o /\ c.(c_busy) = false) /\
  (total_idle p.(idle) <= cfg.(max_total_idle))%nat /\
  p.(reaper_armed) = p.(reap_pending) /\
  ((0 < cfg.(idle_reap_interval))%Z -> (0 < total_idle p.(idle))%nat -> p.(reaper_armed) = true) /\
  (forall i k can_reuse now, p.(conns) !! i = Some k -> k.(c_busy) = true ->
     release cfg order (Some i) can_reuse now p = None <->
     cfg.(max_idle_per_origin) = 0 /\ can_reuse = true /\ alive k = true).
Proof using Horder.
  intros H. pose proof (pool_reachable_inv _ H) as Hinv. pose proof Hinv as [Hwf Htot Hr].
  split_and!; [|done|apply Hr|apply Hr|].
  - intros o dq Ho. split_and!; [by apply (wf_cap _ _ Hwf) in Ho|by apply (wf_nodup _ _ Hwf) in Ho|].
    intros i. by apply (wf_owned _ _ Hwf).
  - intros i k cr now Hk _. by apply release_none.
Qed.

(** C13: [acquire] reuses a connection only if it belongs to the requested
    origin, is open, has not been idle longer than [idle_keep_alive] and is in
    use by nobody; it takes the most recently released such connection of the
    origin, closes the stale ones released after it, and hands the connection
    over: in the pool after the call it is busy and in no deque. *)
Theorem acquire_reuses_exclusively p origin now i p' :
  rtc pool_step empty_pool p ->
  acquire cfg ssl_ctx origin now p = (Reused i, p') ->
  (exists c, p.(conns) !! i = Some c /\ c.(c_origin) = origin /\ alive c = true /\
     is_expired cfg.(idle_keep_alive) now c = false /\ c.(c_busy) = false) /\
  (exists older newer, deque_of origin p.(idle) = older ++ i :: newer /\
     p'.(idle) !! origin = Some older /\
     forall j, j ∈ newer -> (forall c, p.(conns) !! j = Some c -> usable cfg now c = false) /\
       p'.(conns) !! j = close <$> p.(conns) !! j) /\
  (exists c', p'.(conns) !! i = Some c' /\ c'.(c_busy) = true) /\ not_idle p' i.
Proof using Horder.
  intros Hr Hacq. pose proof (pool_reachable_inv _ Hr) as [Hwf _ _].
  pose proof (acquire_spec _ _ _ _ _ _ _ Hwf Hacq)
    as (sk & rest & Hdq & Hun & Hidle & _ & _ & Hcl & _ & _ & c & Hc & Hu & Hc').
  destruct (idle_deque p origin i) as (dq & Hd & Hi); [rewrite Hdq; set_solver|].
  destruct (wf_owned _ _ Hwf _ _ _ Hd Hi) as (c0 & Hc0 & Ho & Hb). simplify_eq.
  unfold usable in Hu. bool_to_prop. split_and!.
  - by exists c.
  - exists rest, sk. split_and!; [done|rewrite Hidle; apply lookup_insert_eq|].
    intros j Hj. split; [|by apply Hcl]. rewrite Forall_forall in Hun. by apply Hun.
  - eauto.
  - eapply busy_not_idle; [exact (acquire_wf _ _ _ _ _ _ _ Hwf Hacq)|done|done].
Qed.

(** C17: after the reaper has run, every idle connection is open and unexpired,
    no origin keeps an empty deque, the caps hold, and another wait is pending
    exactly when something is left to reap. *)
Theorem reap_leaves_only_usable p now :
  rtc pool_step empty_pool p -> p.(reap_pending) = true ->
  let p' := reap cfg order now p in
  (forall o dq, p'.(idle) !! o = Some dq -> dq <> [] /\
     forall i, i ∈ dq -> exists c, p'.(conns) !! i = Some c /\ alive c = true /\
       is_expired cfg.(idle_keep_alive) now c = false) /\
  (total_idle p'.(idle) <= cfg.(max_total_idle))%nat /\
  p'.(reap_pending) = bool_decide (0 < total_idle p'.(idle))%nat.
Proof using Horder.
  intros Hr Hp p'. pose proof (pool_reachable_inv _ Hr) as Hinv.
  destruct (reap_inv cfg order Horder now p Hinv Hp) as [[Hwf Htot Hre] Hu].
  pose proof Hinv as [_ _ Hre0].
  pose proof (ro_enabled _ _ Hre0) as Hint. rewrite (ro_flag _ _ Hre0) in Hint.
  split_and!; [|done|].
  - intros o dq Ho. split; [by apply (Hu o dq 0)|]. intros i Hi.
    destruct (Hu o dq i Ho) as [_ H]. destruct (H Hi) as (c & Hc & Hus).
    unfold usable in Hus. bool_to_prop. eauto.
  - fold p' in Hre. rewrite <- (ro_flag _ _ Hre). case_bool_decide as Ht.
    + by apply (ro_armed _ _ Hre); [apply Hint|].
    + subst p'. unfold reap in *. cbv zeta in *.
      destruct (_ && _) eqn:E; [|done]. bool_to_prop. unfold schedule_reap in Ht.
      destruct (_ <=? _)%Z; simpl in Ht; lia.
Qed.
End steps.

(** ** Monadic wrapper and one-shot request *)

(** The callback of [acquire_monad]; an error code is its value and message. *)
Definition acquire_monad_result (ec : option (Z * str)) (c : option nat) : Result nat Error :=
  match ec, c with
  | None, Some i => Ok i
  | Some (v, m), _ => Err (make_error v m)
  | None, None => Err (make_error 0 (lit "Success"))
  end.

Definition async_request_monad_result {A} (ec : option (Z * str)) (res : A) : Result A Error :=
  match ec with
  | Some (v, m) => Err (make_error v m)
  | None => Ok res
  end.

(** What [async_request] does, in order, with a connection it was given, on the
    codes of its write and of its read. *)
Inductive request_effect :=
  | EClose (i : nat)
  | ERelease (i : nat) (can_reuse : bool)
  | EResponse (ec : option str).

Definition async_request (acq : option str * option nat) (write_ec read_ec : option str)
    (keep_alive : bool) : list request_effect :=
  match acq with
  | (Some ec, _) => [EResponse (Some ec)]
  | (None, None) => []      (** not reached: a success comes with a connection *)
  | (None, Some i) =>
      match write_ec with
      | Some ec => [EClose i; ERelease i false; EResponse (Some ec)]
      | None =>
          let reusable := match read_ec with None => keep_alive | Some _ => false end in
          (if reusable then [] else [EClose i]) ++ [ERelease i reusable; EResponse read_ec]
      end
  end.

(** With a per-origin cap of zero, returning a reusable connection takes the
    front of an empty deque: undefined behaviour, which [None] stands for. *)
Lemma release_cap_zero_undefined cfg order i k now p :
  cfg.(max_idle_per_origin) = 0 -> p.(conns) !! i = Some k -> alive k = true ->
  p.(idle) !! k.(c_origin) = None ->
  release cfg order (Some i) true now p = None.
Proof. intros Hc Hk Ha Hi. unfold release. rewrite Hk, Ha. simpl. by rewrite Hi, Hc. Qed.

(** ** Witnesses: one connection made, returned, and reused *)

Definition demo_origin : Origin := mkOrigin (lit "http") (lit "h") 80.
Definition demo_pool1 : pool := (acquire default_config false demo_origin 0 empty_pool).2.
Definition demo_pool2 : pool := (do_resolve_connect 0 None None None 1 demo_pool1).2.
Definition demo_pool3 : pool :=
  default empty_pool (release default_config id (Some 0) true 2 demo_pool2).

Lemma demo_pool1_idle : map_Forall (fun _ dq => 0 ∉ dq) (idle demo_pool1).
Proof. apply (bool_decide_unpack _). vm_compute. exact I. Qed.

Lemma demo_reachable : rtc (pool_step default_config false id) empty_pool demo_pool3.
Proof.
  eapply rtc_l; [apply (step_acquire _ _ _ demo_origin 0 (Connecting 0) _ demo_pool1); reflexivity|].
  eapply rtc_l; [apply (step_connect _ _ _ 0 None None None 1 (None, Some 0) _ demo_pool2)|].
  - exact demo_pool1_idle.
  - vm_compute. reflexivity.
  - eapply rtc_l; [|apply rtc_refl].
    eapply (step_release _ _ _ 0 (mkConn demo_origin false true true 0) true 2); vm_compute; reflexivity.
Qed.

Lemma pool_invariant_witness :
  demo_pool3.(idle) !! demo_origin = Some [0] /\
  (total_idle demo_pool3.(idle) <= max_total_idle default_config)%nat.
Proof.
  split; [vm_compute; reflexivity|].
  apply (pool_invariant default_config false id
    (fun l => Permutation_refl l) demo_pool3 demo_reachable).
Defined.

Lemma acquire_reuses_exclusively_witness :
  exists p', acquire default_config false demo_origin 30 demo_pool3 = (Reused 0, p') /\
    not_idle p' 0.
Proof.
  exists (acquire default_config false demo_origin 30 demo_pool3).2.
  assert (H : acquire default_config false demo_origin 30 demo_pool3 =
    (Reused 0, (acquire default_config false demo_origin 30 demo_pool3).2))
    by (vm_compute; reflexivity).
  split; [exact H|].
  apply (acquire_reuses_exclusively default_config false id (fun l => Permutation_refl l)
    demo_pool3 demo_origin 30 0 _ demo_reachable H).
Defined.

(** An idle connection is reaped once it has expired. *)
Lemma reap_leaves_only_usable_witness :
  (reap default_config id 100 demo_pool3).(reap_pending) = false /\
  (total_idle (reap default_config id 100 demo_pool3).(idle) <= max_total_idle default_config)%nat.
Proof.
  split; [vm_compute; reflexivity|].
  apply (reap_leaves_only_usable default_config false id (fun l => Permutation_refl l)
    demo_pool3 100 demo_reachable). vm_compute. reflexivity.
Defined.
