(* ===== verification/HttpSession.v ===== *)
(** * One HTTP exchange ([src/include/http_session.hpp])

    [session] with its two derived classes: resolve, connect (through a proxy
    tunnel if there is one), handshake, write, read.  Every asynchronous
    operation of the library is an external operation; its reply carries the
    error code, and for the reads what was read.  Deadlines set with
    [expires_after] show up as error codes of the operations. *)

From Stdlib Require Import ZArith Lia Ascii String.
From stdpp Require Import base list gmap strings.
From S2P Require Import Prelude Json ResultMonad Asio IoMonad Protocol Base64 Http.

Record HttpClientRequestParams := mkParams {
  body_file : option str;
  follow_redirect : bool;
  no_modify_req : bool;
  accumulate_response_body : bool;
  prm_timeout : Z;
  resolve_timeout : Z;
  prm_connect_timeout : Z;
  prm_handshake_timeout : Z;
  prm_io_timeout : Z;
}.

(** [params] with every timeout at [t]. *)
Definition params_with_timeout (b : option str) (follow no_modify accumulate : bool) (t : Z) :
    HttpClientRequestParams :=
  mkParams b follow no_modify accumulate t t t t t.
Definition default_params : HttpClientRequestParams := params_with_timeout None true false true 30.

(** [http::error::body_limit], or any other error code. *)
Inductive net_error := BodyLimit | NetError (msg : str).

(** [deadline] is what [expires_after] was given just before. *)
Inductive net_op :=
  | NResolve (host port : str)
  | NConnect (deadline : Z)
  | NConnectProxy (deadline : Z)
  | NWriteProxy (q : request) (deadline : Z)
  | NReadProxyHeader (deadline : Z)
  | NHandshake (deadline : Z)
  | NWrite (q : request) (deadline : Z)
  | NReadHeader (deadline : Z)
  | NRead (limit deadline : Z)
  | NReadSome (limit : option Z) (deadline : Z).

Record net_reply := mkReply {
  n_ec : option net_error;
  n_status : Z;              (** the status of the proxy's answer *)
  n_response : response;     (** what the parser holds *)
  n_header_done : bool;      (** after [async_read_some]: is the header complete, *)
  n_appended : str;          (** what the body has grown by, *)
  n_done : bool;             (** and is the message complete *)
}.

(** What the outside sees: the user's callbacks, and the cancelled resolver. *)
Inductive session_obs :=
  | Deliver (r : option response) (code : Z)
  | GotHeaders (status : Z) (f : fields)
  | GotChunk (chunk : str)
  | CancelResolver.

(** ** Text *)

Definition bracket_ipv6 (h : str) : str :=
  match h with
  | [] => []
  | c :: _ =>
      if bool_decide (c = "["%char) then h
      else match find_char ":" h with
           | Some _ => "["%char :: h ++ ["]"%char]
           | None => h
           end
  end.

Definition is_ipv4_literal (s : str) : bool :=
  match s with
  | [] => false
  | _ =>
      match find_char ":" s, find_char "." s with
      | None, Some _ => forallb (fun c => is_digit c || bool_decide (c = "."%char)) s
      | _, _ => false
      end
  end.
Definition is_ipv6_literal (s : str) : bool :=
  match s with
  | [] => false
  | _ => match find_char ":" s with Some _ => true | None => false end
  end.

Section session.
Context (is_ssl : bool)                     (** [session_ssl] or [session_plain] *)
        (u : url) (params : HttpClientRequestParams)
        (proxy_setting : option ProxySetting)
        (req0 : request)                    (** given to [set_req] *)
        (set_tlsext_host_name : str -> bool).
Abbreviation prg := (prog net_op net_reply session_obs).
Context (callback : option response -> Z -> prg unit).

Definition default_port : str := if is_ssl then lit "443" else lit "80".

(** [op_timeout()]. *)
Definition op_timeout : Z := params.(prm_io_timeout).

(** Exceptions of the callback stop here. *)
Definition deliver (r : option response) (code : Z) : prg unit :=
  try_all (callback r code) (mret tt).

(** *** The exchange on a connected stream

    The derived class says how the answer is read. *)
Context (derived_do_read : prg unit).

Definition on_write (r : net_reply) : prg unit :=
  match r.(n_ec) with Some _ => deliver None 6 | None => derived_do_read end.
Definition do_request (req : request) : prg unit := start (NWrite req op_timeout) on_write.

Definition on_handshake (req : request) (r : net_reply) : prg unit :=
  match r.(n_ec) with Some _ => deliver None 10 | None => do_request req end.

(** SNI is set for names only; the plain session goes on at once. *)
Definition after_connect (req : request) : prg unit :=
  if is_ssl then
    let host := u.(u_host) in
    if negb (is_ipv4_literal host) && negb (is_ipv6_literal host) &&
       negb (set_tlsext_host_name host)
    then deliver None 9
    else start (NHandshake op_timeout) (on_handshake req)
  else do_request req.

(** *** Direct connection *)

Definition on_connect (req : request) (r : net_reply) : prg unit :=
  match r.(n_ec) with Some _ => deliver None 5 | None => after_connect req end.
Definition do_connect (req : request) : prg unit := start (NConnect params.(prm_connect_timeout)) (on_connect req).

(** The watchdog of the resolver. *)
Definition watchdog (ec : error_code) : prg unit :=
  match ec with None => emit CancelResolver | Some _ => mret tt end.

Definition on_resolve (t : nat) (req : request) (r : net_reply) : prg unit :=
  cancel t;;
  match r.(n_ec) with Some _ => deliver None 1 | None => do_connect req end.

Definition do_resolve (req : request) (host port : str) : prg unit :=
  t ← timer params.(resolve_timeout) watchdog;
  start (NResolve host port) (on_resolve t req).

(** *** Through a proxy *)

Definition proxy_auth (p : ProxySetting) (q : request) : request :=
  match p.(p_username), p.(p_password) with
  | [], _ | _, [] => q
  | _, _ =>
      let auth := p.(p_username) ++ ":"%char :: p.(p_password) in
      set_header (lit "Proxy-Authorization")
        (lit "Basic " ++ default [] (base64_encode auth false)) q
  end.

Definition connect_authority : str :=
  let port := match url_port u with [] => default_port | p => p end in
  bracket_ipv6 u.(u_host) ++ ":"%char :: port.

Definition connect_request (p : ProxySetting) : request :=
  proxy_auth p
    (set_header (lit "Host") connect_authority
       (mkRequest (lit "CONNECT") connect_authority [] [] true)).

Definition on_proxy_response (req : request) (r : net_reply) : prg unit :=
  match r.(n_ec) with
  | Some _ => deliver None 3
  | None => if (r.(n_status) =? 200)%Z then after_connect req else deliver None 4
  end.
Definition do_read_proxy_response (req : request) : prg unit :=
  start (NReadProxyHeader op_timeout) (on_proxy_response req).

Definition on_proxy_write (req : request) (r : net_reply) : prg unit :=
  match r.(n_ec) with Some _ => deliver None 2 | None => do_read_proxy_response req end.
Definition do_request_proxy (p : ProxySetting) (req : request) : prg unit :=
  start (NWriteProxy (connect_request p) op_timeout) (on_proxy_write req).

Definition on_proxy_connect (p : ProxySetting) (req : request) (r : net_reply) : prg unit :=
  match r.(n_ec) with Some _ => deliver None 1 | None => do_request_proxy p req end.
Definition do_connect_proxy_server (p : ProxySetting) (req : request) : prg unit :=
  start (NConnectProxy op_timeout) (on_proxy_connect p req).

Definition on_proxy_resolve (t : nat) (p : ProxySetting) (req : request) (r : net_reply) : prg unit :=
  cancel t;;
  match r.(n_ec) with Some _ => deliver None 1 | None => do_connect_proxy_server p req end.

Definition do_resolve_proxy (p : ProxySetting) (req : request) : prg unit :=
  t ← timer params.(resolve_timeout) watchdog;
  start (NResolve p.(p_host) p.(p_port)) (on_proxy_resolve t p req).

(** *** [run] *)

Definition host_header : str :=
  match url_port u with
  | [] => bracket_ipv6 u.(u_host)
  | p => bracket_ipv6 u.(u_host) ++ ":"%char :: p
  end.

Definition effective_port : str := match url_port u with [] => default_port | p => p end.

Definition session_run : prg unit :=
  if params.(no_modify_req) then do_resolve req0 u.(u_host) effective_port
  else
    let req := set_header (lit "Host") host_header req0 in
    match proxy_setting with
    | Some p => do_resolve_proxy p req
    | None => do_resolve req u.(u_host) effective_port
    end.
End session.

(** *** [do_read] of [session_ssl] and [session_plain] *)

Section read.
Context (params : HttpClientRequestParams) (response_body : body_kind).
Abbreviation prg := (prog net_op net_reply session_obs).
Context (callback : option response -> Z -> prg unit).

Definition body_limit : Z :=
  match response_body with
  | EmptyBody => 0
  | StringBody => 1024 * 1024 * 4
  | FileBody => 1024 * 1024 * 1024 * 10
  end.

Definition on_read (r : net_reply) : prg unit :=
  match r.(n_ec) with
  | Some ec =>
      match ec, response_body with
      | BodyLimit, EmptyBody =>
          deliver callback (Some (mkResponse r.(n_response).(s_status) r.(n_response).(s_fields) []
                           r.(n_response).(s_keep_alive))) 0
      | _, _ => deliver callback (Some r.(n_response)) 8
      end
  | None => deliver callback (Some r.(n_response)) 0
  end.

Definition do_read : prg unit :=
  match response_body with
  | FileBody =>
      match params.(body_file) with
      | None | Some [] => deliver callback None 7
      | Some _ => start (NRead body_limit (op_timeout params)) on_read
      end
  | EmptyBody => start (NReadHeader (op_timeout params)) on_read
  | StringBody => start (NRead body_limit (op_timeout params)) on_read
  end.
End read.

Definition client_session_run (is_ssl : bool) (u : url) (params : HttpClientRequestParams)
    (proxy_setting : option ProxySetting) (response_body : body_kind) (req0 : request)
    (set_tlsext_host_name : str -> bool)
    (callback : option response -> Z -> prog net_op net_reply session_obs unit) :
    prog net_op net_reply session_obs unit :=
  session_run is_ssl u params proxy_setting req0 set_tlsext_host_name callback
    (do_read params response_body callback).

(** ** The exchange as a state machine *)

Section machine.
Context (is_ssl : bool) (u : url) (params : HttpClientRequestParams)
        (proxy_setting : option ProxySetting) (response_body : body_kind)
        (req0 : request) (set_tlsext_host_name : str -> bool).
Abbreviation prg := (prog net_op net_reply session_obs).
Abbreviation wrld := (world net_op net_reply session_obs).

Definition record (r : option response) (code : Z) : prg unit := emit (Deliver r code).

(** What the session is waiting for. *)
Inductive sphase :=
  | SResolveProxy (p : ProxySetting)
  | SConnectProxy (p : ProxySetting)
  | SWriteProxy (p : ProxySetting)
  | SReadProxy
  | SResolve
  | SConnect
  | SHandshake
  | SWrite
  | SRead
  | SDone (r : option response) (code : Z).

Definition sent : request :=
  if params.(no_modify_req) then req0 else set_header (lit "Host") (host_header u) req0.

Definition op_of (ph : sphase) : net_op :=
  match ph with
  | SResolveProxy p => NResolve p.(p_host) p.(p_port)
  | SConnectProxy _ => NConnectProxy params.(prm_io_timeout)
  | SWriteProxy p => NWriteProxy (connect_request is_ssl u p) params.(prm_io_timeout)
  | SReadProxy => NReadProxyHeader params.(prm_io_timeout)
  | SResolve => NResolve u.(u_host) (effective_port is_ssl u)
  | SConnect => NConnect params.(prm_connect_timeout)
  | SHandshake => NHandshake params.(prm_io_timeout)
  | SWrite => NWrite sent params.(prm_io_timeout)
  | SRead | SDone _ _ =>
      match response_body with
      | EmptyBody => NReadHeader params.(prm_io_timeout)
      | _ => NRead (body_limit response_body) params.(prm_io_timeout)
      end
  end.

Definition start_phase : sphase :=
  if params.(no_modify_req) then SResolve
  else match proxy_setting with Some p => SResolveProxy p | None => SResolve end.

(** The stream is connected, directly or through the tunnel. *)
Definition connected : sphase :=
  if is_ssl then
    if negb (is_ipv4_literal u.(u_host)) && negb (is_ipv6_literal u.(u_host)) &&
       negb (set_tlsext_host_name u.(u_host))
    then SDone None 9 else SHandshake
  else SWrite.

Definition written : sphase :=
  match response_body, params.(body_file) with
  | FileBody, (None | Some []) => SDone None 7
  | _, _ => SRead
  end.

Definition fail_or (code : Z) (r : net_reply) (ok : sphase) : sphase :=
  match r.(n_ec) with Some _ => SDone None code | None => ok end.

Definition snext (ph : sphase) (r : net_reply) : sphase :=
  match ph with
  | SResolveProxy p => fail_or 1 r (SConnectProxy p)
  | SConnectProxy p => fail_or 1 r (SWriteProxy p)
  | SWriteProxy _ => fail_or 2 r SReadProxy
  | SReadProxy => fail_or 3 r (if (r.(n_status) =? 200)%Z then connected else SDone None 4)
  | SResolve => fail_or 1 r SConnect
  | SConnect => fail_or 5 r connected
  | SHandshake => fail_or 10 r SWrite
  | SWrite => fail_or 6 r written
  | SRead =>
      match r.(n_ec), response_body with
      | None, _ => SDone (Some r.(n_response)) 0
      | Some BodyLimit, EmptyBody =>
          SDone (Some (mkResponse r.(n_response).(s_status) r.(n_response).(s_fields) []
                         r.(n_response).(s_keep_alive))) 0
      | Some _, _ => SDone (Some r.(n_response)) 8
      end
  | SDone _ _ => ph
  end.

(** The handler installed for a phase, in a session that calls back [k] and reads with [D]. *)
Definition handler_of (k : option response -> Z -> prg unit) (D : prg unit) (ph : sphase) : net_reply -> prg unit :=
  match ph with
  | SResolveProxy p => on_proxy_resolve is_ssl u params set_tlsext_host_name k D 0 p sent
  | SConnectProxy p => on_proxy_connect is_ssl u params set_tlsext_host_name k D p sent
  | SWriteProxy _ => on_proxy_write is_ssl u params set_tlsext_host_name k D sent
  | SReadProxy => on_proxy_response is_ssl u params set_tlsext_host_name k D sent
  | SResolve => on_resolve is_ssl u params set_tlsext_host_name k D 0 sent
  | SConnect => on_connect is_ssl u params set_tlsext_host_name k D sent
  | SHandshake => on_handshake params k D sent
  | SWrite => on_write k D
  | SRead | SDone _ _ => on_read response_body k
  end.

(** Up to the write, and whatever comes after it. *)
Definition connecting (ph : sphase) : bool :=
  match ph with SRead | SDone _ _ => false | _ => true end.
Definition cnext (ph : sphase) (r : net_reply) : sphase :=
  match ph with SWrite => fail_or 6 r SRead | _ => snext ph r end.
Definition enter_session (k : option response -> Z -> prg unit) (D : prg unit) (ph : sphase) : prg unit :=
  match ph with
  | SRead => D
  | SDone r code => deliver k r code
  | _ => start (op_of ph) (handler_of k D ph)
  end.

Definition session_protocol : protocol net_op net_reply session_obs := {|
  phase := sphase;
  op := fun ph => match ph with SDone _ _ => None | _ => Some (op_of ph) end;
  says := fun ph => match ph with SDone r code => [Deliver r code] | _ => [] end;
  next := snext;
  handle := handler_of record (do_read params response_body record);
|}.
Abbreviation senter := (enter session_protocol).

Lemma deliver_exec r code (w : wrld) : exec (deliver record r code) w = exec (record r code) w.
Proof. unfold deliver, try_all. by rewrite exec_try_catch. Qed.

(** *** A session with any callback *)

Section callback.
Context (k : option response -> Z -> prg unit).

Lemma connected_exec D (w : wrld) :
  exec (after_connect is_ssl u params set_tlsext_host_name k D sent) w =
  exec (enter_session k D connected) w.
Proof.
  unfold after_connect, connected. destruct is_ssl; [|done].
  by destruct (negb (is_ipv4_literal _) && _ && _).
Qed.

(** The handlers of the connection phase, whatever the session reads with. *)
Lemma connect_follows D ph r (w : wrld) :
  connecting ph = true -> exec (handler_of k D ph r) w = exec (enter_session k D (cnext ph r)) w.
Proof.
  destruct r as [ec st resp hd ap dn]. intros Hc.
  destruct ph; try done; cbn [handler_of cnext snext];
    unfold on_proxy_resolve, on_proxy_connect, on_proxy_write, on_proxy_response, on_resolve,
      on_connect, on_handshake, on_write, fail_or; cbn [n_ec n_status n_response];
    try (by destruct ec).
  - destruct ec; [done|]. destruct (st =? 200)%Z; [apply connected_exec|done].
  - destruct ec; [done|apply connected_exec].
Qed.

(** Entering a phase of a session that reads the whole response. *)
Definition enter_client (ph : sphase) : prg unit :=
  match ph with
  | SDone r code => deliver k r code
  | _ => start (op_of ph) (handler_of k (do_read params response_body k) ph)
  end.

Lemma written_exec (w : wrld) : exec (do_read params response_body k) w = exec (enter_client written) w.
Proof.
  unfold do_read, written, body_limit.
  destruct response_body eqn:Hb; [cbn; by rewrite Hb|cbn; by rewrite Hb|].
  destruct params.(body_file) as [[|c f]|]; [done|cbn; by rewrite Hb|done].
Qed.

(** Every handler moves to the next phase. *)
Lemma client_follows ph r (w : wrld) :
  (forall x c, ph <> SDone x c) ->
  exec (handler_of k (do_read params response_body k) ph r) w = exec (enter_client (snext ph r)) w.
Proof.
  intros Hd. destruct (connecting ph) eqn:Hc.
  - rewrite connect_follows by done.
    destruct ph; try done; cbn [cnext snext];
      unfold fail_or, connected; repeat case_match; try done; apply written_exec.
  - destruct ph; [done..| |by destruct (Hd r0 code)]. destruct r as [ec st resp hd ap dn].
    cbn [handler_of snext]. unfold on_read. cbn [n_ec n_response].
    by destruct ec as [[]|], response_body.
Qed.

(** The launch: the watchdog is set and the first operation started. *)
Lemma session_starts D (w : wrld) : exists h,
  alike h (handler_of k D start_phase) /\
  (w.(ntimers) = 0 -> h = handler_of k D start_phase) /\
  exec (session_run is_ssl u params proxy_setting req0 set_tlsext_host_name k D) w =
  exec (start (op_of start_phase) h) (w_timer params.(resolve_timeout) watchdog w).
Proof.
  unfold session_run, start_phase.
  destruct params.(no_modify_req) eqn:Hn; [|destruct proxy_setting as [p|]]; cbn; unfold sent; rewrite Hn;
    (eexists; split_and!; [|intros Hw|reflexivity]; [by intros r w'|by rewrite Hw]).
Qed.
End callback.

#[export] Instance session_follows : Follows session_protocol.
Proof.
  intros ph r w Hop. cbn [handle next session_protocol].
  rewrite client_follows by (intros x c ->; done).
  by destruct (snext ph r).
Qed.

Definition delivery (x : session_obs) : option (option response * Z) :=
  match x with Deliver r c => Some (r, c) | _ => None end.

(** The watchdog only cancels the resolver. *)
Lemma watchdog_noise : noise delivery watchdog.
Proof. intros [m|] w; [by exists []|by exists [CancelResolver]]. Qed.

Lemma start_connecting : connecting start_phase = true.
Proof. unfold start_phase. destruct params.(no_modify_req); [done|]. by destruct proxy_setting. Qed.

(** The session's own code for an outcome: a response comes with 0, or with 8
    when reading it failed; every other code comes without one. *)
Definition code_ok (r : option response) (c : Z) : Prop :=
  match r with
  | Some _ => c = 0%Z \/ c = 8%Z
  | None => c ∈ [1; 2; 3; 4; 5; 6; 10]%Z \/ (c = 9%Z /\ is_ssl = true) \/
            (c = 7%Z /\ response_body = FileBody)
  end.

Definition phase_ok (ph : sphase) : Prop :=
  match ph with SDone x c => code_ok x c | _ => True end.

Lemma snext_ok ph r : phase_ok ph -> phase_ok (snext ph r).
Proof.
  destruct ph; simpl; unfold fail_or, connected, written; repeat case_match; simplify_eq/=; auto;
    intros _; first [set_solver | by auto | by right; auto].
Qed.

Definition outcome (ph : sphase) : list (option response * Z) :=
  match ph with SDone r c => [(r, c)] | _ => [] end.

(** C1: under every schedule of replies and of the resolver's watchdog, a session
    calls back at most once, and exactly once when it waits for nothing more;
    the result and the code are those of the state machine, so a response comes
    with code 0, or 8 for a failed read, and every other code without one; the
    operations it starts are those of the machine, one at a time and in order,
    and no exception of the callback escapes. *)
Theorem session_delivers_exactly_once es (w : wrld) :
  steps es (run (client_session_run is_ssl u params proxy_setting response_body req0
                   set_tlsext_host_name record) world0) = Some w ->
  let ph := phases session_protocol (op_replies es) start_phase in
  omap delivery w.(trace) = outcome ph /\
  (w.(ops) = [] <-> length (omap delivery w.(trace)) = 1) /\
  (forall r c, (r, c) ∈ omap delivery w.(trace) -> code_ok r c) /\
  w.(started) = visited session_protocol (op_replies es) start_phase /\
  w.(faulted) = false /\ w.(escaped) = [].
Proof.
  intros Hs ph.
  set (w0 := w_timer params.(resolve_timeout) watchdog world0).
  assert (run (client_session_run is_ssl u params proxy_setting response_body req0 set_tlsext_host_name record) world0 =
    run (senter start_phase) w0) as Hrun.
  { unfold client_session_run, run.
    destruct (session_starts record (do_read params response_body record) world0) as (h & _ & Hh & ->).
    rewrite Hh by done. pose proof start_connecting. unfold enter. by destruct start_phase. }
  destruct (protocol_runs session_protocol delivery _ start_phase w0 es w eq_refl eq_refl eq_refl eq_refl
    ltac:(by constructor; [apply watchdog_noise|constructor]) eq_refl eq_refl eq_refl Hrun Hs)
    as (Ht & Hst & Hops & Hpr & Hf & He).
  rewrite said_at_end in Ht; [|by intros []|done].
  assert (Hout : omap delivery w.(trace) = outcome ph) by (rewrite Ht; subst ph; by destruct (phases _ _ _)).
  assert (Hok : phase_ok ph).
  { apply (phases_invariant session_protocol phase_ok); auto using snext_ok.
    pose proof start_connecting. by destruct start_phase. }
  fold ph in Hops. clearbody ph. rewrite Hout, Hops. split_and!; try done.
  - destruct ph; simpl; split; done.
  - intros r c Hin. destruct ph; set_solver.
Qed.
End machine.

(** ** The tunnel request *)

Lemma bracket_ipv6_idemp h : bracket_ipv6 (bracket_ipv6 h) = bracket_ipv6 h.
Proof.
  destruct h as [|c h]; [done|]. unfold bracket_ipv6 at 2 3.
  case_bool_decide as Hc; simpl; [by rewrite bool_decide_true|].
  destruct (find_char ":" (c :: h)) eqn:E; [done|].
  unfold bracket_ipv6. by rewrite bool_decide_false, E.
Qed.

Lemma find_set_field_ne name name' v f :
  same_name name name' = false -> find_field name (set_field name' v f) = find_field name (erase_field name' f).
Proof.
  intros Hne. unfold find_field, set_field, erase_field. f_equal.
  induction (List.filter _ f) as [|e l IH]; simpl; [by rewrite Hne|].
  destruct (same_name name e.1); [done|apply IH].
Qed.

(** The CONNECT request asks the proxy for the target's authority, the host
    in brackets when it is an IPv6 literal and the port the URL's or the
    scheme's default, and names it in the Host field; it carries
    proxy credentials exactly when both user and password are set, and they
    decode to [user:password]. *)
Theorem connect_request_correct is_ssl u p :
  (Z.of_nat (length (p.(p_username) ++ ":"%char :: p.(p_password))) < 2 ^ 32 - 2)%Z ->
  let q := connect_request is_ssl u p in
  let authority := bracket_ipv6 u.(u_host) ++ ":"%char :: effective_port is_ssl u in
  q.(q_method) = lit "CONNECT" /\ q.(q_target) = authority /\
  find_field (lit "host") q.(q_fields) = Some authority /\
  if decide (p.(p_username) <> [] /\ p.(p_password) <> [])
  then exists e, find_field (lit "proxy-authorization") q.(q_fields) = Some (lit "Basic " ++ e) /\
         base64_decode e false = inr (p.(p_username) ++ ":"%char :: p.(p_password))
  else find_field (lit "proxy-authorization") q.(q_fields) = None.
Proof.
  intros Hlen. cbv zeta.
  assert (Ha : connect_authority is_ssl u =
    bracket_ipv6 u.(u_host) ++ ":"%char :: effective_port is_ssl u) by done.
  unfold connect_request, proxy_auth. rewrite <- Ha. clear Ha.
  destruct (base64_roundtrip _ false Hlen) as (e & He & _ & _ & Hd).
  destruct p as [ph pp pu pw pe pd]; simpl in *.
  destruct pu as [|c1 pu], pw as [|c2 pw]; cbn [set_header q_method q_target q_fields];
    split_and!; try done.
  rewrite He. case_decide as Hc; [|naive_solver].
  exists e. split; [done|]. exact Hd.
Qed.

Lemma connect_request_correct_witness :
  exists e, find_field (lit "proxy-authorization")
      (q_fields (connect_request true (mkUrl (lit "https") (lit "example.com") None (lit "/") (lit "/") [])
         (mkProxy (lit "proxy") (lit "3128") (lit "user") (lit "pass") false false)))
    = Some (lit "Basic " ++ e) /\ base64_decode e false = inr (lit "user:pass").
Proof.
  destruct (connect_request_correct true (mkUrl (lit "https") (lit "example.com") None (lit "/") (lit "/") [])
    (mkProxy (lit "proxy") (lit "3128") (lit "user") (lit "pass") false false)
    ltac:(vm_compute; reflexivity)) as (_ & _ & _ & H).
  rewrite decide_True in H by (split; discriminate). exact H.
Defined.

(** With [no_modify_req] the configured proxy is not used: the first thing
    resolved is the target itself. *)
Lemma no_modify_req_bypasses_proxy is_ssl u params proxy response_body req0 sni :
  params.(no_modify_req) = true ->
  (run (client_session_run is_ssl u params (Some proxy) response_body req0 sni record) world0).(started)
  = [NResolve u.(u_host) (effective_port is_ssl u)].
Proof. intros H. unfold client_session_run, session_run. by rewrite H. Qed.

(** A TLS exchange without a proxy, to the end. *)
Definition session_demo_url : url := mkUrl (lit "https") (lit "example.com") None (lit "/") (lit "/") [].
Definition session_demo_params : HttpClientRequestParams := default_params.
Definition session_demo_reply : net_reply := mkReply None 0 (mkResponse 200 [] (lit "hello") true) true [] true.
Definition session_demo_world : world net_op net_reply session_obs :=
  default world0 (steps [EvOp 0 session_demo_reply; EvTimer 0 (Some (lit "cancelled"));
                         EvOp 1 session_demo_reply; EvOp 2 session_demo_reply;
                         EvOp 3 session_demo_reply; EvOp 4 session_demo_reply]
    (run (client_session_run true session_demo_url session_demo_params None StringBody
            (mkRequest (lit "GET") (lit "/") [] [] false) (fun _ => true) record) world0)).

Lemma session_delivers_exactly_once_witness :
  omap delivery session_demo_world.(trace) = [(Some (mkResponse 200 [] (lit "hello") true), 0%Z)] /\
  (session_demo_world.(ops) = [] <-> length (omap delivery session_demo_world.(trace)) = 1).
Proof.
  split; [vm_compute; reflexivity|].
  apply (session_delivers_exactly_once true session_demo_url session_demo_params None StringBody
    (mkRequest (lit "GET") (lit "/") [] [] false) (fun _ => true)
    [EvOp 0 session_demo_reply; EvTimer 0 (Some (lit "cancelled"));
     EvOp 1 session_demo_reply; EvOp 2 session_demo_reply;
     EvOp 3 session_demo_reply; EvOp 4 session_demo_reply] session_demo_world).
  vm_compute. reflexivity.
Defined.
