(* ===== verification/HttpSessionPooled.v ===== *)
(** * One HTTP exchange on a pooled connection ([src/include/http_session_pooled.hpp])

    The session acquires a connection from the pool, tunnels through the proxy
    for https, writes, reads, and gives the connection back.  The pool is the
    one of [ConnectionPool]; acquiring is an external operation here, and what
    the session does to the connection is observed. *)

From Stdlib Require Import ZArith Lia Ascii String.
From stdpp Require Import base list gmap strings.
From S2P Require Import Prelude Json ResultMonad Asio IoMonad Protocol Base64 Http HttpSession ConnectionPool.

Inductive pooled_op :=
  | PAcquire (o : Origin)
  | PWriteConnect (q : request) (deadline : Z)
  | PReadProxyHeader (deadline : Z)
  | PHandshake (deadline : Z)
  | PWrite (q : request) (deadline : Z)
  | PRead (limit : option Z) (deadline : Z).

Record pooled_reply := mkPooledReply {
  pr_ec : option str;
  pr_conn : option nat;        (** the connection acquired *)
  pr_status : Z;
  pr_response : response;
}.

Inductive pooled_obs :=
  | PClose (c : nat)
  | PRelease (c : nat) (reusable : bool)
  | PSetSni (c : nat) (host : str)
  | PDeliver (r : option response) (code : Z).

Section session.
Context (origin : Origin) (proxy : option ProxySetting) (response_body : body_kind)
        (req : request)
        (upgrade_ok : nat -> bool)    (** [upgrade_to_ssl()] is not null *)
        (cfg : PoolConfig) (io_timeout_override : option Z).
Abbreviation prg := (prog pooled_op pooled_reply pooled_obs).

Definition pool_io_timeout : Z := default cfg.(cfg_io_timeout) io_timeout_override.
Definition pool_handshake_timeout : Z := cfg.(cfg_handshake_timeout).

(** [conn_] is [None] until the acquisition has succeeded. *)
Definition finish (conn : option nat) (res : option response) (code : Z) : prg unit :=
  let reusable := match res with Some r => r.(s_keep_alive) | None => false end in
  match conn with
  | Some c =>
      (if reusable then mret tt else emit (PClose c));;
      emit (PRelease c reusable);;
      emit (PDeliver res code)
  | None => emit (PDeliver res code)
  end.

Definition pooled_on_read (c : nat) (r : pooled_reply) : prg unit :=
  match r.(pr_ec) with
  | Some _ => finish (Some c) None 8
  | None => finish (Some c) (Some r.(pr_response)) 0
  end.

Definition read_limit : option Z :=
  match response_body with
  | EmptyBody => Some 0%Z
  | StringBody => Some (1024 * 1024 * 4)%Z
  | FileBody => None
  end.

Definition pooled_do_read (c : nat) : prg unit := start (PRead read_limit pool_io_timeout) (pooled_on_read c).

Definition pooled_on_write (c : nat) (r : pooled_reply) : prg unit :=
  match r.(pr_ec) with Some _ => finish (Some c) None 7 | None => pooled_do_read c end.
Definition pooled_do_write (c : nat) : prg unit := start (PWrite req pool_io_timeout) (pooled_on_write c).

Definition pooled_on_handshake (c : nat) (r : pooled_reply) : prg unit :=
  match r.(pr_ec) with Some _ => finish (Some c) None 6 | None => pooled_do_write c end.

Definition upgrade_to_tls_and_write (c : nat) : prg unit :=
  if upgrade_ok c then
    (if negb (is_ipv4_literal origin.(host)) && negb (is_ipv6_literal origin.(host))
     then emit (PSetSni c origin.(host)) else mret tt);;
    start (PHandshake pool_handshake_timeout) (pooled_on_handshake c)
  else finish (Some c) None 5.

Definition pooled_on_proxy_response (c : nat) (r : pooled_reply) : prg unit :=
  match r.(pr_ec) with
  | Some _ => finish (Some c) None 3
  | None =>
      if (r.(pr_status) =? 200)%Z then upgrade_to_tls_and_write c else finish (Some c) None 4
  end.
Definition do_proxy_read_response (c : nat) : prg unit :=
  start (PReadProxyHeader pool_io_timeout) (pooled_on_proxy_response c).

Definition pooled_connect_request (p : ProxySetting) : request :=
  let authority := bracket_ipv6 origin.(host) ++ ":"%char :: z_to_str origin.(port) in
  proxy_auth p (set_header (lit "Host") authority (mkRequest (lit "CONNECT") authority [] [] true)).

Definition pooled_on_proxy_write (c : nat) (r : pooled_reply) : prg unit :=
  match r.(pr_ec) with Some _ => finish (Some c) None 2 | None => do_proxy_read_response c end.
Definition do_proxy_connect (c : nat) (p : ProxySetting) : prg unit :=
  start (PWriteConnect (pooled_connect_request p) pool_io_timeout) (pooled_on_proxy_write c).

Definition on_acquire (r : pooled_reply) : prg unit :=
  match r.(pr_ec), r.(pr_conn) with
  | None, Some c =>
      match proxy with
      | Some p => if is_https origin then do_proxy_connect c p else pooled_do_write c
      | None => pooled_do_write c
      end
  | _, _ => finish None None 1
  end.

(** The origin asked of the pool: the proxy's, in the clear, when there is one. *)
Definition acquire_origin : throws Origin :=
  match proxy with
  | Some p =>
      let! n := stoi p.(p_port) in
      inr (mkOrigin (lit "http") p.(p_host) (to_u16 n))
  | None => inr origin
  end.

Definition pooled_run : prg unit :=
  match acquire_origin with
  | inl e => Throw e
  | inr o => start (PAcquire o) on_acquire
  end.

(** ** As a protocol *)

Inductive pphase :=
  | QAcquire (o : Origin)
  | QConnect (c : nat) (p : ProxySetting)
  | QProxy (c : nat)
  | QHandshake (c : nat)
  | QWrite (c : nat)
  | QRead (c : nat)
  | QDone (c : option nat) (r : option response) (code : Z).

Definition end_says (c : option nat) (r : option response) (code : Z) : list pooled_obs :=
  let reusable := match r with Some r => r.(s_keep_alive) | None => false end in
  match c with
  | Some c => (if reusable then [] else [PClose c]) ++ [PRelease c reusable; PDeliver r code]
  | None => [PDeliver r code]
  end.

Definition pfail (c : nat) (code : Z) (r : pooled_reply) (ok : pphase) : pphase :=
  match r.(pr_ec) with Some _ => QDone (Some c) None code | None => ok end.

Definition pnext (ph : pphase) (r : pooled_reply) : pphase :=
  match ph with
  | QAcquire _ =>
      match r.(pr_ec), r.(pr_conn) with
      | None, Some c =>
          match proxy with
          | Some p => if is_https origin then QConnect c p else QWrite c
          | None => QWrite c
          end
      | _, _ => QDone None None 1
      end
  | QConnect c _ => pfail c 2 r (QProxy c)
  | QProxy c =>
      pfail c 3 r (if (r.(pr_status) =? 200)%Z
                   then (if upgrade_ok c then QHandshake c else QDone (Some c) None 5)
                   else QDone (Some c) None 4)
  | QHandshake c => pfail c 6 r (QWrite c)
  | QWrite c => pfail c 7 r (QRead c)
  | QRead c => pfail c 8 r (QDone (Some c) (Some r.(pr_response)) 0)
  | QDone _ _ _ => ph
  end.

Definition pooled_protocol : protocol pooled_op pooled_reply pooled_obs := {|
  phase := pphase;
  op := fun ph =>
    match ph with
    | QAcquire o => Some (PAcquire o)
    | QConnect _ p => Some (PWriteConnect (pooled_connect_request p) pool_io_timeout)
    | QProxy _ => Some (PReadProxyHeader pool_io_timeout)
    | QHandshake _ => Some (PHandshake pool_handshake_timeout)
    | QWrite _ => Some (PWrite req pool_io_timeout)
    | QRead _ => Some (PRead read_limit pool_io_timeout)
    | QDone _ _ _ => None
    end;
  says := fun ph =>
    match ph with
    | QDone c r code => end_says c r code
    | QHandshake c =>
        if negb (is_ipv4_literal origin.(host)) && negb (is_ipv6_literal origin.(host))
        then [PSetSni c origin.(host)] else []
    | _ => []
    end;
  next := pnext;
  handle := fun ph =>
    match ph with
    | QAcquire _ => on_acquire
    | QConnect c _ => pooled_on_proxy_write c
    | QProxy c => pooled_on_proxy_response c
    | QHandshake c => pooled_on_handshake c
    | QWrite c => pooled_on_write c
    | QRead c => pooled_on_read c
    | QDone _ _ _ => fun _ => mret tt
    end;
|}.

Lemma finish_exec c r code w :
  exec (finish c r code) w = exec (enter pooled_protocol (QDone c r code)) w.
Proof.
  unfold finish, enter, enter_with. cbn [says op pooled_protocol]. unfold end_says.
  destruct c as [c|]; [|done]. destruct r as [r|]; [|done]. by destruct (s_keep_alive r).
Qed.

#[export] Instance pooled_follows : Follows pooled_protocol.
Proof.
  intros ph [ec cn st resp] w Hop. cbn in Hop.
  destruct ph; cbn [handle next pooled_protocol pnext]; try done;
    unfold on_acquire, pooled_on_proxy_write, pooled_on_proxy_response, pooled_on_handshake,
      pooled_on_write, pooled_on_read, pfail; cbn [pr_ec pr_conn pr_status pr_response];
    destruct ec as [ec|]; try apply finish_exec; try done.
  - destruct cn; [|apply finish_exec]. destruct proxy; [|done]. by destruct (is_https origin).
  - destruct (st =? 200)%Z; [|apply finish_exec]. unfold upgrade_to_tls_and_write.
    destruct (upgrade_ok c); [|apply finish_exec].
    cbn. by destruct (negb (is_ipv4_literal _) && _).
Qed.

(** ** Correctness *)

Definition not_sni (x : pooled_obs) : option pooled_obs :=
  match x with PSetSni _ _ => None | _ => Some x end.

(** The connection a phase works on. *)
Definition conn_of (ph : pphase) : option nat :=
  match ph with
  | QAcquire _ => None
  | QConnect c _ | QProxy c | QHandshake c | QWrite c | QRead c => Some c
  | QDone c _ _ => c
  end.

Definition pphase_ok (ph : pphase) : Prop :=
  match ph with
  | QDone c r code => (c = None <-> code = 1%Z) /\ (code = 0%Z <-> r <> None) /\ (0 <= code <= 8)%Z
  | _ => True
  end.

Lemma pnext_ok ph r : pphase_ok ph -> pphase_ok (pnext ph r).
Proof. destruct ph; simpl; unfold pfail; repeat case_match; simplify_eq/=; auto; naive_solver lia. Qed.

Lemma pnext_conn ph r c : conn_of ph = Some c -> conn_of (pnext ph r) = Some c.
Proof. intros H. destruct ph; simpl in *; unfold pfail; repeat case_match; simplify_eq/=; auto. Qed.

Lemma phases_conn rs ph c :
  conn_of ph = Some c -> conn_of (phases pooled_protocol rs ph) = Some c.
Proof.
  revert ph; induction rs as [|r rs IH]; intros ph Hc; [done|]. apply IH. by apply pnext_conn.
Qed.

Lemma said_pooled rs ph :
  proper pooled_protocol rs ph ->
  omap not_sni (said pooled_protocol rs ph) =
  match phases pooled_protocol rs ph with QDone c r code => end_says c r code | _ => [] end.
Proof.
  revert ph; induction rs as [|r rs IH]; intros ph Hp.
  - cbn [said phases]. rewrite app_nil_r. destruct ph; cbn; try done.
    + by destruct (negb (is_ipv4_literal _) && _).
    + unfold end_says. destruct c; [|done]. by destruct r as [r|]; [destruct (s_keep_alive r)|].
  - destruct Hp as [Ho Hp]. cbn [said phases]. rewrite omap_app, IH by done.
    replace (omap not_sni (says pooled_protocol ph)) with (@nil pooled_obs); [done|].
    destruct ph; cbn in *; try done. by destruct (negb (is_ipv4_literal _) && _).
Qed.

(** What a schedule shows of a session that has asked for the origin [o]. *)
Definition pooled_shows (o : Origin) (es : list (event pooled_reply)) (w : world pooled_op pooled_reply pooled_obs)
    : Prop :=
  let ph := phases pooled_protocol (op_replies es) (QAcquire o) in
  omap not_sni w.(trace) =
    match ph with QDone c r code => end_says c r code | _ => [] end /\
  (w.(ops) = [] <-> exists c r code, ph = QDone c r code) /\
  (forall c r code, ph = QDone c r code ->
     (c = None <-> code = 1%Z) /\ (code = 0%Z <-> r <> None) /\
     (forall i, c = Some i -> exists rep, head (op_replies es) = Some rep /\ rep.(pr_conn) = Some i)) /\
  w.(started) = visited pooled_protocol (op_replies es) (QAcquire o) /\
  w.(faulted) = false /\ w.(escaped) = [].

Lemma pooled_run_shows o es w :
  acquire_origin = inr o -> steps es (run pooled_run world0) = Some w -> pooled_shows o es w.
Proof.
  intros Ho Hs. unfold pooled_shows. set (ph := phases _ _ _).
  assert (Hrun : run pooled_run world0 = run (enter pooled_protocol (QAcquire o)) world0)
    by (unfold pooled_run; by rewrite Ho).
  destruct (protocol_runs pooled_protocol not_sni _ (QAcquire o) world0 es w
    eq_refl eq_refl eq_refl eq_refl ltac:(constructor) eq_refl eq_refl eq_refl Hrun Hs)
    as (Ht & Hst & Hops & Hpr & Hf & He).
  rewrite said_pooled in Ht by done. split_and!; try done.
  - rewrite Hops. fold ph. destruct ph; cbn; naive_solver.
  - assert (Hok : pphase_ok ph) by (by apply (phases_invariant pooled_protocol pphase_ok);
      [intros; by apply pnext_ok| |]).
    intros c r code Hph. rewrite Hph in Hok. destruct Hok as (H1 & H2 & _).
    split_and!; try done. intros i ->. subst ph.
    destruct (op_replies es) as [|rep rs]; [done|]. exists rep. split; [done|].
    cbn [phases next pooled_protocol pnext] in Hph.
    destruct (pr_ec rep), (pr_conn rep) as [j|]; cbn in Hph;
      try (clear -Hph; induction rs as [|? ? IH]; [done|by apply IH]).
    assert (Hj : conn_of (QDone (Some i) r code) = Some j).
    { rewrite <- Hph. apply phases_conn. destruct proxy; [|done]. by destruct (is_https origin). }
    cbn in Hj. congruence.
Qed.

(** When the port of the proxy is no number nothing is started: the exception leaves
    [run], and the callback is never called. *)
Lemma pooled_run_throws e es w :
  acquire_origin = inl e -> steps es (run pooled_run world0) = Some w ->
  es = [] /\ w.(trace) = [] /\ w.(started) = [] /\ w.(ops) = [] /\ w.(faulted) = false /\ w.(escaped) = [e].
Proof.
  intros He Hs. unfold pooled_run in Hs. rewrite He in Hs.
  destruct es as [|[] es]; [|done..]. simpl in Hs. by simplify_eq.
Qed.

(** C10: under every schedule a pooled session whose proxy, if any, has a port
    that is a number delivers at most once, and exactly
    once when it waits for nothing more.  The connection it was given is
    released exactly once, just before the delivery: as reusable only after a
    complete response that allows keep-alive, and otherwise closed first.
    Nothing is released when the acquisition failed, which is code 1; a response
    is delivered exactly with code 0.  With any other port the exception of [stoi]
    leaves [run]: nothing is started and the callback is never called. *)
Theorem pooled_session_correct es w :
  steps es (run pooled_run world0) = Some w ->
  match acquire_origin with
  | inr o =>
      let ph := phases pooled_protocol (op_replies es) (QAcquire o) in
      omap not_sni w.(trace) =
        match ph with QDone c r code => end_says c r code | _ => [] end /\
      (w.(ops) = [] <-> exists c r code, ph = QDone c r code) /\
      (forall c r code, ph = QDone c r code ->
         (c = None <-> code = 1%Z) /\ (code = 0%Z <-> r <> None) /\
         (forall i, c = Some i -> exists rep, head (op_replies es) = Some rep /\ rep.(pr_conn) = Some i)) /\
      w.(started) = visited pooled_protocol (op_replies es) (QAcquire o) /\
      w.(faulted) = false /\ w.(escaped) = []
  | inl e =>
      es = [] /\ w.(trace) = [] /\ w.(started) = [] /\ w.(ops) = [] /\ w.(faulted) = false /\ w.(escaped) = [e]
  end.
Proof.
  intros Hs. destruct acquire_origin as [e|o] eqn:Ho; [by apply pooled_run_throws|by apply pooled_run_shows].
Qed.

(** A proxy port that is no number makes [run] throw: the callback is never
    called. *)
Lemma pooled_bad_proxy_port e :
  acquire_origin = inl e ->
  (run pooled_run world0).(escaped) = [e] /\ (run pooled_run world0).(trace) = [] /\
  (run pooled_run world0).(ops) = [].
Proof. intros H. unfold pooled_run. by rewrite H. Qed.
End session.

(** ** Tunnels in the pool

    A session for an https origin behind a proxy acquires, and releases, the
    connection under the proxy's origin; by then the connection is a TLS stream
    to the target.  The next session behind the same proxy is given that stream,
    whatever its own target is. *)

Definition tunnel_proxy : ProxySetting :=
  mkProxy (lit "proxy") (lit "3128") [] [] false false.
Definition tunnel_a : Origin := mkOrigin (lit "https") (lit "a.example") 443.
Definition tunnel_b : Origin := mkOrigin (lit "http") (lit "b.example") 80.

(** Session A: acquire, connect, upgrade, release as reusable. *)
Definition tunnel_pool : pool :=
  let o := match acquire_origin tunnel_a (Some tunnel_proxy) with inr o => o | inl _ => tunnel_a end in
  let p1 := (acquire default_config true o 0 empty_pool).2 in
  let p2 := (do_resolve_connect 0 None None None 0 p1).2 in
  let p3 := set_conns (alter (fun c => default c (upgrade_to_ssl true c)) 0) p2 in
  default p3 (release default_config id (Some 0) true 1 p3).

Lemma pooled_tunnel_reused :
  match acquire_origin tunnel_b (Some tunnel_proxy) with
  | inr o =>
      let '(a, p) := acquire default_config true o 2 tunnel_pool in
      a = Reused 0 /\ c_ssl <$> p.(conns) !! 0 = Some true
  | inl _ => False
  end.
Proof. vm_compute. split; reflexivity. Qed.

Definition pooled_demo : list (event pooled_reply) :=
  [EvOp 0 (mkPooledReply None (Some 4) 0 (mkResponse 0 [] [] false));
   EvOp 1 (mkPooledReply None None 0 (mkResponse 0 [] [] false));
   EvOp 2 (mkPooledReply None None 0 (mkResponse 200 [] (lit "ok") true))].
Definition pooled_demo_request : request := mkRequest (lit "GET") (lit "/") [] [] true.
Definition pooled_demo_world : world pooled_op pooled_reply pooled_obs :=
  default world0 (steps pooled_demo
    (run (pooled_run tunnel_b None StringBody pooled_demo_request (fun _ => true) default_config None) world0)).

Definition bad_port_proxy : ProxySetting := mkProxy (lit "proxy") (lit "http") [] [] false false.
Definition bad_port_world : world pooled_op pooled_reply pooled_obs :=
  run (pooled_run tunnel_b (Some bad_port_proxy) StringBody pooled_demo_request (fun _ => true) default_config None)
    world0.

Lemma pooled_session_correct_witness :
  omap not_sni pooled_demo_world.(trace) =
    [PRelease 4 true; PDeliver (Some (mkResponse 200 [] (lit "ok") true)) 0] /\
  bad_port_world.(trace) = [] /\ bad_port_world.(escaped) <> [].
Proof.
  split; [|split; [|by vm_compute]].
  - assert (Hs : steps pooled_demo
      (run (pooled_run tunnel_b None StringBody pooled_demo_request (fun _ => true) default_config None) world0) =
      Some pooled_demo_world) by (vm_compute; reflexivity).
    destruct (pooled_session_correct tunnel_b None StringBody pooled_demo_request (fun _ => true)
      default_config None pooled_demo pooled_demo_world Hs) as (-> & _). vm_compute. reflexivity.
  - pose proof (pooled_session_correct tunnel_b (Some bad_port_proxy) StringBody pooled_demo_request (fun _ => true)
      default_config None [] bad_port_world eq_refl) as Hb.
    vm_compute in Hb |- *. apply Hb.
Defined.
