(* ===== verification/PoolClients.v ===== *)
(** * Clients of the connection pool ([src/include/http_session_pooled.hpp] over
    [src/include/beast_connection_pool.hpp])

    [ConnectionPool] assumes of its users that each releases only a connection it
    holds, and [HttpSessionPooled] shows of one session that it releases what it was
    given once.  Here any number of sessions run on one pool: acquisitions and
    releases are posted to the pool's strand, so another session's steps may come
    between any two of a session, and what a session does to its connection (closing
    it, turning it into a TLS stream) is done to the pool's shared object.  The
    invariant discharges the pool's assumption: nobody loses a connection it works
    on, and nobody leaks one. *)

From Stdlib Require Import ZArith Lia Ascii String.
From stdpp Require Import base list gmap strings.
From S2P Require Import Prelude Json ResultMonad Asio IoMonad Protocol Base64 Http HttpSession ConnectionPool HttpSessionPooled.

(** ** What the pool's operations leave alone

    Apart from the connections [x], an operation closes idle connections only: a
    connection that is in no deque stays as it is, and in no deque. *)

Record framed (x : nat -> Prop) (p p' : pool) : Prop := {
  fr_held j : ~ x j -> not_idle p j -> p'.(conns) !! j = p.(conns) !! j /\ not_idle p' j;
  fr_any j : ~ x j -> p'.(conns) !! j = p.(conns) !! j \/ p'.(conns) !! j = close <$> p.(conns) !! j;
  fr_next : p.(next_id) <= p'.(next_id);
}.

Lemma framed_refl x p : framed x p p.
Proof. split; auto. Qed.

Lemma framed_trans x p1 p2 p3 : framed x p1 p2 -> framed x p2 p3 -> framed x p1 p3.
Proof.
  intros [H1 A1 N1] [H2 A2 N2]. split; [| |lia].
  - intros j Hx Hn. destruct (H1 j Hx Hn) as [<- Hn']. by apply H2.
  - intros j Hx. destruct (A1 j Hx) as [E1|E1], (A2 j Hx) as [E2|E2]; rewrite E2, E1; auto.
    right. by destruct (conns p1 !! j) as [[]|].
Qed.

Lemma framed_weaken (x y : nat -> Prop) p p' : (forall j, x j -> y j) -> framed x p p' -> framed y p p'.
Proof. intros Hxy [H A N]. split; [intros j Hj; apply H; auto|intros j Hj; apply A; auto|done]. Qed.

(** Nothing is added to a deque, and only idle connections are closed. *)
Lemma framed_shrink x p p' :
  (forall o dq', p'.(idle) !! o = Some dq' -> exists dq, p.(idle) !! o = Some dq /\ dq' `sublist_of` dq) ->
  (forall j, p'.(conns) !! j = p.(conns) !! j \/ (p'.(conns) !! j = close <$> p.(conns) !! j /\ ~ not_idle p j)) ->
  p.(next_id) <= p'.(next_id) -> framed x p p'.
Proof.
  intros Hi Hc Hn. split; [| |done].
  - intros j _ Hj. split; [by destruct (Hc j) as [?|[_ ?]]|].
    intros o dq' Ho Hin. destruct (Hi _ _ Ho) as (dq & Hd & Hs).
    apply (Hj _ _ Hd). by eapply elem_of_submseteq; [|apply sublist_submseteq].
  - intros j _. destruct (Hc j) as [?|[? _]]; auto.
Qed.

Section frames.
Context (cfg : PoolConfig) (ssl_ctx : bool).

Lemma set_conns_framed i f p : framed (eq i) p (set_conns <[i := f]> p).
Proof.
  split; simpl; [|intros j Hj; left; by rewrite lookup_insert_ne by done|done].
  intros j Hj Hn. split; [by rewrite lookup_insert_ne by done|exact Hn].
Qed.

Lemma drop_front_framed x o i dq p :
  p.(idle) !! o = Some (i :: dq) -> framed x p (drop_front o i dq p).
Proof.
  intros Ho. apply framed_shrink; [apply (sh_idle _ _ (drop_front_shrunk o i dq p Ho))| |done].
  intros j. simpl. unfold close_id. destruct (decide (i = j)) as [<-|Hne].
  - right. rewrite lookup_alter_eq. split; [done|]. intros Hn. apply (Hn _ _ Ho). set_solver.
  - left. by rewrite lookup_alter_ne.
Qed.

Lemma arm_framed x p : framed x p (arm_reap_if_needed_locked cfg p).
Proof.
  unfold arm_reap_if_needed_locked, schedule_reap. repeat case_match; apply framed_refl || by split; auto.
Qed.

Lemma acquire_framed origin now p a p' :
  pool_wf cfg p -> acquire cfg ssl_ctx origin now p = (a, p') ->
  framed (eq match a with Reused i | Connecting i => i end) p p'.
Proof.
  intros Hwf H. destruct (acquire_spec _ _ _ _ _ _ _ Hwf H)
    as (sk & rest & Hdq & _ & Hidle & _ & _ & Hcl & Hsame & Ha).
  assert (Hsk : forall j, j ∈ sk -> ~ not_idle p j).
  { intros j Hj Hn. destruct (idle_deque p origin j) as (dq & Hd & Hin); [rewrite Hdq; set_solver|].
    by apply (Hn _ _ Hd). }
  split.
  - intros j Hx Hn. split.
    + apply Hsame; [intros Hj; by apply (Hsk j)|destruct a; congruence].
    + intros o dq Ho Hin. rewrite Hidle in Ho. destruct (decide (o = origin)) as [->|Hne].
      * rewrite lookup_insert_eq in Ho. simplify_eq.
        destruct (idle_deque p origin j) as (dq0 & Hd & Hin0); [rewrite Hdq; set_solver|]. by apply (Hn _ _ Hd).
      * rewrite lookup_insert_ne in Ho by done. by apply (Hn _ _ Ho).
  - intros j Hx. destruct (decide (j ∈ sk)) as [Hj|Hj]; [right; by apply Hcl|left].
    apply Hsame; [done|destruct a; congruence].
  - destruct a; [destruct Ha as [-> _]|destruct Ha as (_ & -> & -> & _)]; lia.
Qed.

Lemma connect_framed i rc cc hc now p r p' :
  do_resolve_connect i rc cc hc now p = (r, p') -> framed (eq i) p p'.
Proof.
  unfold do_resolve_connect. intros H. repeat case_match; simplify_eq;
    first [apply framed_refl|apply set_conns_framed].
Qed.

Lemma close_framed i p : framed (eq i) p (set_conns (close_id i) p).
Proof.
  unfold close_id. split; simpl; [| |done]; intros j Hj; rewrite lookup_alter_ne by done; auto.
Qed.

Lemma close_idle_framed o x old p :
  old ∈ deque_of o p.(idle) -> framed x p (set_conns (close_id old) p).
Proof.
  intros Hold. apply framed_shrink; simpl; [eauto| |done]. intros j. unfold close_id.
  destruct (decide (old = j)) as [<-|Hne]; [right|left; by rewrite lookup_alter_ne].
  rewrite lookup_alter_eq. split; [done|]. intros Hn.
  destruct (idle_deque p o old Hold) as (dq & Hd & Hin). by apply (Hn _ _ Hd).
Qed.

Lemma push_framed o i dq p :
  (forall j, j ∈ dq -> j ∈ deque_of o p.(idle)) -> framed (eq i) p (set_idle <[o := dq ++ [i]]> p).
Proof.
  intros Hdq. split; simpl; auto. intros j Hj Hn. split; [done|].
  intros o' dq' Ho Hin. simpl in Ho. apply lookup_insert_Some in Ho as [[<- <-]|[_ Ho]]; [|by apply (Hn _ _ Ho)].
  apply elem_of_app in Hin as [Hin|Hin]; [|by apply list_elem_of_singleton in Hin].
  destruct (idle_deque p o j (Hdq _ Hin)) as (dq0 & Hd & Hin0). by apply (Hn _ _ Hd).
Qed.

(** The reaper closes what it finds in a deque. *)
Lemma reap_closes_idle now cs (es : list (Origin * list nat)) acc j :
  let cs' := foldl (fun acc e => reap_closes cfg now cs e.2 acc) acc es in
  cs' !! j = acc !! j \/ (cs' !! j = close <$> acc !! j /\ exists e, e ∈ es /\ j ∈ e.2).
Proof.
  assert (Hone : forall l acc, reap_closes cfg now cs l acc !! j = acc !! j \/
    (reap_closes cfg now cs l acc !! j = close <$> acc !! j /\ j ∈ l)).
  { induction l as [|i l IH]; intros a; simpl; [by left|].
    destruct (reap_keep cfg now cs i); [destruct (IH a) as [?|[? ?]]; [by left|right; set_solver]|].
    destruct (IH (close_id i a)) as [E|[E Hj]]; unfold close_id in *; destruct (decide (i = j)) as [<-|Hne];
      rewrite ?lookup_alter_eq, ?lookup_alter_ne in E by done; [right; set_solver|by left| |right; set_solver].
    right. split; [|set_solver]. unfold reap_closes in *. rewrite E. by destruct (a !! i). }
  cbv zeta. revert acc. induction es as [|e es IH]; intros acc; simpl; [by left|].
  destruct (IH (reap_closes cfg now cs e.2 acc)) as [E|(E & e' & He' & Hj)], (Hone e.2 acc) as [E'|[E' Hj']];
    rewrite E, E'; [by left|right|right|right]; (split; [by destruct (acc !! j)|set_solver]).
Qed.

Context (order : list (Origin * list nat) -> list (Origin * list nat)).
Context (Horder : forall l, order l ≡ₚ l).

Lemma shrink_framed x p : framed x p (shrink_global_if_needed cfg order p).
Proof using Horder.
  unfold shrink_global_if_needed. destruct (_ <=? _)%nat; [apply framed_refl|].
  generalize (total_idle p.(idle)) at 2. generalize (total_idle p.(idle)). intros fuel.
  revert p. induction fuel as [|fuel IH]; intros p total; simpl; [apply framed_refl|].
  destruct (_ <=? _)%nat; [apply framed_refl|].
  destruct (max_element _) as [[o [|i dq]]|] eqn:Hm; try apply framed_refl.
  apply (max_element_idle _ Horder) in Hm as [Ho _].
  eapply framed_trans; [by apply (drop_front_framed x o i dq)|apply IH].
Qed.

Lemma release_framed i can_reuse now p p' :
  release cfg order (Some i) can_reuse now p = Some p' -> framed (eq i) p p'.
Proof using Horder.
  unfold release. intros H. destruct (p.(conns) !! i) as [k|] eqn:Hk; [|simplify_eq; apply framed_refl].
  destruct (negb can_reuse || negb (alive k)).
  { simplify_eq. apply close_framed. }
  set (k' := set_busy false now k) in *. set (p1 := set_conns <[i := k']> p) in *.
  assert (Hp1 : framed (eq i) p p1) by apply set_conns_framed.
  assert (Hpush : forall dq q, (forall j, j ∈ dq -> j ∈ deque_of (c_origin k) q.(idle)) ->
    framed (eq i) p q ->
    framed (eq i) p (arm_reap_if_needed_locked cfg (shrink_global_if_needed cfg order
      (set_idle <[c_origin k := dq ++ [i]]> q)))).
  { intros dq q Hdq Hq. eapply framed_trans; [exact Hq|].
    eapply framed_trans; [by apply push_framed|]. eapply framed_trans; [apply shrink_framed|apply arm_framed]. }
  fold (deque_of (c_origin k) p1.(idle)) in H. destruct (_ <=? _)%nat.
  - destruct (deque_of (c_origin k) p1.(idle)) as [|old dq] eqn:Hdq; [done|]. simplify_eq. apply Hpush.
    + intros j Hj. change (j ∈ deque_of (c_origin k) p1.(idle)). rewrite Hdq. set_solver.
    + eapply framed_trans; [exact Hp1|]. apply (close_idle_framed (c_origin k)). rewrite Hdq. set_solver.
  - simplify_eq. by apply Hpush.
Qed.

Lemma reap_framed x now p : framed x p (reap cfg order now p).
Proof using Horder.
  unfold reap. set (cs := foldl _ _ _). set (pruned := filter _ _).
  set (q := mkPool cs p.(next_id) pruned p.(reaper_armed) false).
  assert (Hq : framed x p q).
  { apply framed_shrink; [| |done].
    - intros o dq Ho. apply map_lookup_filter_Some in Ho as [Ho _].
      rewrite lookup_fmap in Ho. destruct (p.(idle) !! o) as [dq0|]; simplify_eq/=.
      eauto using sublist_bfilter.
    - intros j. destruct (reap_closes_idle now p.(conns) (map_to_list p.(idle)) p.(conns) j)
        as [E|(E & e & He & Hj)]; [left; exact E|right; split; [exact E|]].
      intros Hn. apply elem_of_map_to_list' in He. by apply (Hn _ _ He). }
  eapply framed_trans; [exact Hq|]. eapply framed_trans; [apply shrink_framed|].
  unfold schedule_reap. repeat case_match; by split; auto.
Qed.
End frames.

(** ** Sessions on one pool *)

(** A request on its way: what it asks for, and what its session waits for.  Between
    the acquisition and the reply the pool may be connecting; once the session is over
    its release waits for the strand. *)
Inductive client_state :=
  | CPhase (ph : pphase)
  | CConnect (i : nat)
  | CRelease (i : nat) (reusable : bool)
  | CEnded.

Record client := mkClient {
  cl_origin : Origin;
  cl_proxy : option ProxySetting;
  cl_state : client_state;
}.

Record system := mkSystem { sys_pool : pool; sys_clients : gmap nat client }.
Definition empty_system : system := mkSystem empty_pool ∅.

(** The connection a client works on. *)
Definition holds (c : client_state) : option nat :=
  match c with
  | CPhase ph => conn_of ph
  | CConnect i | CRelease i _ => Some i
  | CEnded => None
  end.

Section system.
Context (cfg : PoolConfig) (ssl_ctx : bool).
Context (order : list (Origin * list nat) -> list (Origin * list nat)).

(** [upgrade_to_ssl()] on the shared connection. *)
Definition upgrade_ok (p : pool) (i : nat) : bool :=
  match p.(conns) !! i with Some k => bool_decide (upgrade_to_ssl ssl_ctx k <> None) | None => false end.

(** What a session does to its connection, of what is observed of it. *)
Definition apply_obs (p : pool) (x : pooled_obs) : pool :=
  match x with PClose i => set_conns (close_id i) p | _ => p end.
Definition release_of (xs : list pooled_obs) : option (nat * bool) :=
  head (omap (fun x => match x with PRelease i b => Some (i, b) | _ => None end) xs).

(** Entering a phase. *)
Definition enter_phase (p : pool) (ph : pphase) : pool * client_state :=
  match ph with
  | QDone c r code =>
      let xs := end_says c r code in
      (foldl apply_obs p xs,
       match release_of xs with Some (i, b) => CRelease i b | None => CEnded end)
  | QHandshake i =>
      (set_conns (alter (fun k => default k (upgrade_to_ssl ssl_ctx k)) i) p, CPhase ph)
  | _ => (p, CPhase ph)
  end.

(** The session of [c] in phase [ph] gets the reply [r]. *)
Definition reply_step (c : client) (ph : pphase) (r : pooled_reply) (p : pool) : pool * client_state :=
  enter_phase p (pnext c.(cl_origin) c.(cl_proxy) (upgrade_ok p) ph r).

(** The pool's answer to an acquisition. *)
Definition acquired_reply (ec : option str) (i : option nat) : pooled_reply :=
  mkPooledReply ec i 0 (mkResponse 0 [] [] false).

Definition with_client (n : nat) (c : client) (st : client_state) (p : pool) (s : system) : system :=
  mkSystem p (<[n := mkClient c.(cl_origin) c.(cl_proxy) st]> s.(sys_clients)).

(** A request whose proxy port is no number throws before it asks the pool. *)
Inductive sys_step : system -> system -> Prop :=
  | sys_request n origin proxy o s :
      s.(sys_clients) !! n = None -> acquire_origin origin proxy = inr o ->
      sys_step s (mkSystem s.(sys_pool) (<[n := mkClient origin proxy (CPhase (QAcquire o))]> s.(sys_clients)))
  | sys_reuse n c o now i p' p'' st s :
      s.(sys_clients) !! n = Some c -> c.(cl_state) = CPhase (QAcquire o) ->
      acquire cfg ssl_ctx o now s.(sys_pool) = (Reused i, p') ->
      reply_step c (QAcquire o) (acquired_reply None (Some i)) p' = (p'', st) ->
      sys_step s (with_client n c st p'' s)
  | sys_create n c o now i p' s :
      s.(sys_clients) !! n = Some c -> c.(cl_state) = CPhase (QAcquire o) ->
      acquire cfg ssl_ctx o now s.(sys_pool) = (Connecting i, p') ->
      sys_step s (with_client n c (CConnect i) p' s)
  | sys_connect n c o i rc cc hc now r p' p'' st s :
      s.(sys_clients) !! n = Some c -> c.(cl_state) = CConnect i ->
      do_resolve_connect i rc cc hc now s.(sys_pool) = (r, p') ->
      reply_step c (QAcquire o) (acquired_reply r.1 r.2) p' = (p'', st) ->
      sys_step s (with_client n c st p'' s)
  | sys_reply n c ph r p' st s :
      s.(sys_clients) !! n = Some c -> c.(cl_state) = CPhase ph -> (forall o, ph <> QAcquire o) ->
      reply_step c ph r s.(sys_pool) = (p', st) ->
      sys_step s (with_client n c st p' s)
  | sys_release n c i b now p' s :
      s.(sys_clients) !! n = Some c -> c.(cl_state) = CRelease i b ->
      release cfg order (Some i) b now s.(sys_pool) = Some p' ->
      sys_step s (with_client n c CEnded p' s)
  | sys_reap now s :
      s.(sys_pool).(reap_pending) = true ->
      sys_step s (mkSystem (reap cfg order now s.(sys_pool)) s.(sys_clients)).

(** *** The invariant *)

Context (Horder : forall l, order l ≡ₚ l).

(** What is true of the connection a client works on. *)
Definition held_ok (p : pool) (st : client_state) (i : nat) : Prop :=
  not_idle p i /\
  exists k, p.(conns) !! i = Some k /\ k.(c_busy) = match st with CConnect _ => false | _ => true end.

Record sys_inv (s : system) : Prop := {
  si_pool : rtc (pool_step cfg ssl_ctx order) empty_pool s.(sys_pool);
  si_excl a b ca cb i :
    s.(sys_clients) !! a = Some ca -> s.(sys_clients) !! b = Some cb ->
    holds ca.(cl_state) = Some i -> holds cb.(cl_state) = Some i -> a = b;
  si_held a c i : s.(sys_clients) !! a = Some c -> holds c.(cl_state) = Some i ->
    held_ok s.(sys_pool) c.(cl_state) i;
  si_leak i k : s.(sys_pool).(conns) !! i = Some k -> k.(c_busy) = true -> k.(c_open) = true ->
    exists a c, s.(sys_clients) !! a = Some c /\ holds c.(cl_state) = Some i;
}.

Lemma update_inv n c st p' s :
  sys_inv s -> s.(sys_clients) !! n = Some c ->
  rtc (pool_step cfg ssl_ctx order) s.(sys_pool) p' ->
  framed (fun j => holds c.(cl_state) = Some j \/ holds st = Some j) s.(sys_pool) p' ->
  (forall i, holds st = Some i -> held_ok p' st i /\
     (holds c.(cl_state) = Some i \/
      forall a c', s.(sys_clients) !! a = Some c' -> holds c'.(cl_state) <> Some i)) ->
  (forall i k, holds c.(cl_state) = Some i -> p'.(conns) !! i = Some k ->
     k.(c_busy) = true -> k.(c_open) = true -> holds st = Some i) ->
  sys_inv (with_client n c st p' s).
Proof.
  intros [Hp Hx Hh Hl] Hn Hr Hf Hst Hfree.
  assert (Hother : forall a c' i, a <> n -> s.(sys_clients) !! a = Some c' -> holds c'.(cl_state) = Some i ->
    holds c.(cl_state) <> Some i /\ holds st <> Some i).
  { intros a c' i Hne Ha Hi. assert (holds c.(cl_state) <> Some i) as Hc.
    { intros Hci. by apply Hne, (Hx a n c' c i). }
    split; [done|]. intros Hs. destruct (Hst i Hs) as [_ [?|Hno]]; [done|by apply (Hno a c')]. }
  split; simpl.
  - by etrans.
  - intros a b ca cb i Ha Hb Hia Hib.
    apply lookup_insert_Some in Ha as [[<- <-]|[Hna Ha]];
      apply lookup_insert_Some in Hb as [[<- <-]|[Hnb Hb]]; simpl in *; try done.
    + by destruct (Hother b cb i) as [_ ?]; [congruence|..].
    + by destruct (Hother a ca i) as [_ ?]; [congruence|..].
    + by apply (Hx a b ca cb i).
  - intros a c' i Ha Hi. apply lookup_insert_Some in Ha as [[<- <-]|[Hna Ha]]; simpl in *.
    + by apply Hst.
    + destruct (Hh a c' i Ha Hi) as (Hni & k & Hk & Hb).
      destruct (fr_held _ _ _ Hf i) as [E Hni']; [|done|].
      * destruct (Hother a c' i) as [? ?]; [congruence|done|done|]. naive_solver.
      * split; [done|]. exists k. by rewrite E.
  - intros i k Hk Hb Ho. destruct (decide (holds st = Some i)) as [Hi|Hi].
    { exists n, (mkClient c.(cl_origin) c.(cl_proxy) st). split; [apply lookup_insert_eq|done]. }
    destruct (decide (holds c.(cl_state) = Some i)) as [Hci|Hci]; [by destruct (Hi (Hfree i k Hci Hk Hb Ho))|].
    destruct (fr_any _ _ _ Hf i) as [E|E]; [naive_solver| |].
    + rewrite E in Hk. destruct (Hl i k Hk Hb Ho) as (a & c' & Ha & Hia).
      exists a, c'. split; [|done]. rewrite lookup_insert_ne; [done|]. intros <-. congruence.
    + rewrite E in Hk. destruct ((sys_pool s).(conns) !! i); simplify_eq/=.
Qed.

(** A session works on its own connection, and keeps it until it is over. *)
Lemma phase_effect p i ph p' st :
  pool_wf cfg p -> not_idle p i -> (exists k, p.(conns) !! i = Some k /\ k.(c_busy) = true) ->
  conn_of ph = Some i ->
  (forall j, ph = QHandshake j -> upgrade_ok p j = true) ->
  enter_phase p ph = (p', st) ->
  rtc (pool_step cfg ssl_ctx order) p p' /\ framed (eq i) p p' /\ holds st = Some i /\ held_ok p' st i.
Proof.
  intros Hwf Hn (k & Hk & Hb) Hc Hup He.
  assert (Hstay : forall st, (match st with CConnect _ => False | _ => True end) -> held_ok p st i)
    by (intros []; repeat split; eauto; done).
  assert (Hset : forall k' st, k'.(c_busy) = true -> (match st with CConnect _ => False | _ => True end) ->
    held_ok (set_conns <[i := k']> p) st i).
  { intros k' st' Hb' Hst. split; [exact Hn|]. exists k'. simpl. rewrite lookup_insert_eq. split; [done|].
    by destruct st'. }
  destruct ph as [o|j pr|j|j|j|j|[j|] r code]; simplify_eq/=;
    try (split_and!; [apply rtc_refl|apply framed_refl|done|by apply Hstay]).
  - (* the upgrade *)
    specialize (Hup i eq_refl). unfold upgrade_ok in Hup. rewrite Hk in Hup.
    destruct (upgrade_to_ssl ssl_ctx k) as [k'|] eqn:Hk'; [|done].
    assert (set_conns (alter (fun k => default k (upgrade_to_ssl ssl_ctx k)) i) p = set_conns <[i := k']> p) as ->.
    { unfold set_conns. f_equal. apply map_eq. intros j. destruct (decide (i = j)) as [<-|Hne].
      - by rewrite lookup_alter_eq, Hk, lookup_insert_eq; simpl; rewrite Hk'.
      - by rewrite lookup_alter_ne, lookup_insert_ne by done. }
    split_and!; [apply rtc_once; by eapply step_upgrade|apply set_conns_framed|done|].
    apply Hset; [|done]. unfold upgrade_to_ssl in Hk'. repeat case_match; by simplify_eq/=.
  - (* the end *)
    assert (Hcl : set_conns (close_id i) p = set_conns <[i := close k]> p).
    { unfold set_conns, close_id. f_equal. apply map_eq. intros j. destruct (decide (i = j)) as [<-|Hne].
      - by rewrite lookup_alter_eq, Hk, lookup_insert_eq.
      - by rewrite lookup_alter_ne, lookup_insert_ne by done. }
    destruct (match r with Some r => s_keep_alive r | None => false end) eqn:Hr.
    + cbn. split_and!; [apply rtc_refl|apply framed_refl|done|by apply Hstay].
    + cbn. rewrite Hcl. split_and!; [apply rtc_once; by eapply step_close|apply set_conns_framed|done|by apply Hset].
Qed.

(** The upgrade was checked on the way to the handshake. *)
Lemma pnext_handshake o pr up ph r j : pnext o pr up ph r = QHandshake j -> up j = true.
Proof. destruct ph; cbn; unfold pfail; intros H; repeat case_match; by simplify_eq. Qed.

Lemma reply_effect c ph r p i p' st :
  pool_wf cfg p -> not_idle p i -> (exists k, p.(conns) !! i = Some k /\ k.(c_busy) = true) ->
  conn_of (pnext c.(cl_origin) c.(cl_proxy) (upgrade_ok p) ph r) = Some i ->
  reply_step c ph r p = (p', st) ->
  rtc (pool_step cfg ssl_ctx order) p p' /\ framed (eq i) p p' /\ holds st = Some i /\ held_ok p' st i.
Proof. intros Hwf Hn Hk Hc Hr. eapply phase_effect; eauto. intros j. apply pnext_handshake. Qed.

(** A connection that has been given back is free, or closed. *)
Lemma release_frees i b now p p' k :
  release cfg order (Some i) b now p = Some p' -> p'.(conns) !! i = Some k ->
  k.(c_busy) = false \/ k.(c_open) = false.
Proof using Horder.
  unfold release. intros H Hk. destruct (p.(conns) !! i) as [k0|] eqn:Hk0; [|simplify_eq; congruence].
  destruct (negb b || negb (alive k0)).
  { simplify_eq. simpl in Hk. unfold close_id in Hk. rewrite lookup_alter_eq, Hk0 in Hk. simplify_eq/=. by right. }
  assert (Htail : forall dq q, (exists k1, q.(conns) !! i = Some k1 /\ k1.(c_busy) = false) ->
    Some (arm_reap_if_needed_locked cfg (shrink_global_if_needed cfg order (set_idle <[c_origin k0 := dq ++ [i]]> q))) = Some p' ->
    k.(c_busy) = false \/ k.(c_open) = false).
  { intros dq q (k1 & Hk1 & Hb1) [= <-].
    pose proof (framed_trans _ _ _ _ (shrink_framed cfg order Horder (fun _ => False) (set_idle <[c_origin k0 := dq ++ [i]]> q))
      (arm_framed cfg (fun _ => False) _)) as Hf.
    destruct (fr_any _ _ _ Hf i) as [E|E]; [tauto|..]; rewrite E in Hk; simpl in Hk; rewrite Hk1 in Hk;
      simplify_eq/=; auto. }
  set (p1 := set_conns _ _) in H.
  assert (Hp1 : p1.(conns) !! i = Some (set_busy false now k0)) by apply lookup_insert_eq.
  destruct (_ <=? _)%nat; [|eapply Htail; [|exact H]; eauto].
  destruct (default _ _) as [|old dq]; [done|]. eapply Htail; [|exact H]. cbn [conns set_conns]. unfold close_id.
  destruct (decide (old = i)) as [->|Hne].
  - eexists. by rewrite lookup_alter_eq, Hp1.
  - eexists. by rewrite lookup_alter_ne, Hp1.
Qed.

Lemma empty_system_inv : sys_inv empty_system.
Proof. split; simpl; [done|intros *; by rewrite lookup_empty..]. Qed.

Lemma held_conn s a c i :
  sys_inv s -> s.(sys_clients) !! a = Some c -> holds c.(cl_state) = Some i ->
  not_idle s.(sys_pool) i /\ exists k, s.(sys_pool).(conns) !! i = Some k.
Proof. intros Hs Ha Hi. destruct (si_held _ Hs a c i Ha Hi) as (Hn & k & Hk & _). eauto. Qed.

(** Nobody holds an idle connection. *)
Lemma idle_not_held s i :
  sys_inv s -> (~ not_idle s.(sys_pool) i \/ s.(sys_pool).(conns) !! i = None) ->
  forall a c, s.(sys_clients) !! a = Some c -> holds c.(cl_state) <> Some i.
Proof.
  intros Hs Hi a c Ha Hc. destruct (held_conn s a c i Hs Ha Hc) as [Hn (k & Hk)].
  destruct Hi; [done|congruence].
Qed.

Lemma sys_pool_wf s : sys_inv s -> pool_wf cfg s.(sys_pool).
Proof using Horder.
  intros Hs. by destruct (pool_reachable_inv cfg ssl_ctx order Horder _ (si_pool _ Hs)).
Qed.

(** An acquisition that hits takes an idle connection and leaves it to the caller. *)
Lemma acquire_reused o now p i p' :
  pool_wf cfg p -> acquire cfg ssl_ctx o now p = (Reused i, p') ->
  ~ not_idle p i /\ not_idle p' i /\ exists k, p'.(conns) !! i = Some k /\ k.(c_busy) = true.
Proof.
  intros Hwf Ha. destruct (acquire_spec _ _ _ _ _ _ _ Hwf Ha)
    as (sk & rest & Hdq & _ & _ & _ & _ & _ & _ & _ & c & _ & _ & Hc').
  split_and!; [| |eauto].
  - intros Hn. destruct (idle_deque p o i) as (dq & Hd & Hin); [rewrite Hdq; set_solver|]. by apply (Hn _ _ Hd).
  - eapply busy_not_idle; [by eapply acquire_wf|exact Hc'|done].
Qed.

Lemma acquire_created o now p i p' :
  pool_wf cfg p -> acquire cfg ssl_ctx o now p = (Connecting i, p') ->
  p.(conns) !! i = None /\ held_ok p' (CConnect i) i.
Proof.
  intros Hwf Ha. destruct (acquire_spec _ _ _ _ _ _ _ Hwf Ha)
    as (sk & rest & Hdq & _ & Hidle & _ & _ & _ & _ & -> & Hi & _ & Hc').
  assert (Hnone : p.(conns) !! i = None).
  { destruct (p.(conns) !! i) as [c|] eqn:E; [|done]. apply (wf_fresh _ _ Hwf) in E. lia. }
  split; [done|]. split; [|by eexists].
  intros o' dq Ho Hin. rewrite Hidle in Ho. apply lookup_insert_Some in Ho as [[_ <-]|[_ Ho]]; [set_solver|].
  destruct (wf_owned _ _ Hwf _ _ _ Ho Hin) as (c & Hc & _). congruence.
Qed.

Lemma reuse_inv n c o now i p' p'' st s :
  sys_inv s -> s.(sys_clients) !! n = Some c -> c.(cl_state) = CPhase (QAcquire o) ->
  acquire cfg ssl_ctx o now s.(sys_pool) = (Reused i, p') ->
  reply_step c (QAcquire o) (acquired_reply None (Some i)) p' = (p'', st) ->
  sys_inv (with_client n c st p'' s).
Proof using Horder.
  intros Hs Hn Hc Ha Hr. pose proof (sys_pool_wf s Hs) as Hwf.
  destruct (acquire_reused _ _ _ _ _ Hwf Ha) as (Hidle & Hni & Hk).
  pose proof (acquire_wf _ _ _ _ _ _ _ Hwf Ha) as Hwf'.
  destruct (reply_effect c (QAcquire o) (acquired_reply None (Some i)) p' i p'' st Hwf' Hni Hk) as (Hrtc & Hf & Hst & Hok); [|done|].
  { cbn. destruct (cl_proxy c); [|done]. by destruct (is_https _). }
  apply update_inv; try done.
  - eapply rtc_l; [by eapply step_acquire|done].
  - apply (framed_weaken (eq i)); [intros j <-; by right|].
    eapply framed_trans; [exact (acquire_framed _ _ _ _ _ _ _ Hwf Ha)|exact Hf].
  - intros j Hj. rewrite Hst in Hj. simplify_eq. split; [done|right]. apply (idle_not_held s); auto.
  - intros j k Hj. rewrite Hc in Hj. done.
Qed.

Lemma create_inv n c o now i p' s :
  sys_inv s -> s.(sys_clients) !! n = Some c -> c.(cl_state) = CPhase (QAcquire o) ->
  acquire cfg ssl_ctx o now s.(sys_pool) = (Connecting i, p') ->
  sys_inv (with_client n c (CConnect i) p' s).
Proof using Horder.
  intros Hs Hn Hc Ha. pose proof (sys_pool_wf s Hs) as Hwf.
  destruct (acquire_created _ _ _ _ _ Hwf Ha) as (Hnone & Hok).
  apply update_inv; try done.
  - apply rtc_once. by eapply step_acquire.
  - apply (framed_weaken (eq i)); [intros j <-; by right|]. exact (acquire_framed _ _ _ _ _ _ _ Hwf Ha).
  - intros j [= <-]. split; [done|right]. apply (idle_not_held s); auto.
  - intros j k Hj. rewrite Hc in Hj. done.
Qed.

Lemma connect_inv n c o i rc cc hc now r p' p'' st s :
  sys_inv s -> s.(sys_clients) !! n = Some c -> c.(cl_state) = CConnect i ->
  do_resolve_connect i rc cc hc now s.(sys_pool) = (r, p') ->
  reply_step c (QAcquire o) (acquired_reply r.1 r.2) p' = (p'', st) ->
  sys_inv (with_client n c st p'' s).
Proof using Horder.
  intros Hs Hn Hc Hd Hr. pose proof (sys_pool_wf s Hs) as Hwf.
  destruct (si_held _ Hs n c i Hn) as (Hni & k & Hk & Hb); [by rewrite Hc|]. rewrite Hc in Hb.
  assert (Hstep : pool_step cfg ssl_ctx order s.(sys_pool) p') by (by eapply step_connect).
  pose proof (connect_framed _ _ _ _ _ _ _ _ Hd) as Hfd.
  assert (Hp' : (r.1 = None /\ r.2 = Some i /\ not_idle p' i /\ exists k, p'.(conns) !! i = Some k /\ k.(c_busy) = true) \/
    (r.1 <> None /\ exists k, p'.(conns) !! i = Some k /\ k.(c_busy) = false)).
  { unfold do_resolve_connect in Hd. rewrite Hk in Hd. repeat case_match; simplify_eq/=;
      rewrite ?lookup_insert_eq; first [by right; eauto|left; split_and!; eauto]. }
  destruct Hp' as [(H1 & H2 & Hni' & Hk')|(H1 & k' & Hk' & Hb')].
  - rewrite H1, H2 in Hr.
    assert (Hwf' : pool_wf cfg p').
    { apply (pool_step_inv cfg ssl_ctx order Horder _ p') in Hstep; [by destruct Hstep|].
      by apply (pool_reachable_inv cfg ssl_ctx order Horder), (si_pool _ Hs). }
    destruct (reply_effect c (QAcquire o) (acquired_reply None (Some i)) p' i p'' st Hwf' Hni' Hk') as (Hrtc & Hf & Hst & Hok); [|done|].
    { cbn. destruct (cl_proxy c); [|done]. by destruct (is_https _). }
    apply update_inv; try done.
    + by eapply rtc_l.
    + apply (framed_weaken (eq i)); [intros j <-; by right|]. by eapply framed_trans.
    + intros j Hj. rewrite Hst in Hj. simplify_eq. rewrite Hc. split; [done|by left].
    + intros j kj Hj _ _ _. rewrite Hc in Hj. by simplify_eq/=.
  - assert (reply_step c (QAcquire o) (acquired_reply r.1 r.2) p' = (p', CEnded)) as Hend
      by (unfold reply_step; cbn; by destruct r.1).
    rewrite Hend in Hr. simplify_eq. apply update_inv; try done.
    + by apply rtc_once.
    + apply (framed_weaken (eq i)); [intros j <-; left; by rewrite Hc|done].
    + intros j kj Hj Hkj Hbj _. rewrite Hc in Hj. simplify_eq/=. congruence.
Qed.

Lemma pnext_conn_acquired o pr up ph r i : conn_of ph = Some i -> conn_of (pnext o pr up ph r) = Some i.
Proof. intros H. destruct ph; simpl in *; unfold pfail; repeat case_match; simplify_eq/=; auto. Qed.

Lemma sys_step_inv s s' : sys_inv s -> sys_step s s' -> sys_inv s'.
Proof using Horder.
  intros Hs Hstep. pose proof (sys_pool_wf s Hs) as Hwf.
  destruct Hstep as [n origin proxy o s Hn Ho|n c o now i p' p'' st s Hn Hc Ha Hr|n c o now i p' s Hn Hc Ha
    |n c o i rc cc hc now r p' p'' st s Hn Hc Hd Hr|n c ph r p' st s Hn Hc Hph Hr|n c i b now p' s Hn Hc Hrel|now s Hpd].
  - destruct Hs as [Hp Hx Hh Hl]. split; simpl; [done| | |].
    + intros a b ca cb i Ha Hb Hia Hib.
      apply lookup_insert_Some in Ha as [[<- <-]|[Hna Ha]]; [done|].
      apply lookup_insert_Some in Hb as [[<- <-]|[Hnb Hb]]; [done|]. by apply (Hx a b ca cb i).
    + intros a c i Ha Hi. apply lookup_insert_Some in Ha as [[<- <-]|[Hna Ha]]; [done|]. by apply (Hh a c i).
    + intros i k Hk Hb Hop. destruct (Hl i k Hk Hb Hop) as (a & c & Ha & Hi). exists a, c.
      split; [|done]. rewrite lookup_insert_ne; [done|]. intros <-. congruence.
  - by eapply reuse_inv.
  - by eapply create_inv.
  - by eapply connect_inv.
  - (* a reply *)
    destruct (conn_of ph) as [i|] eqn:Hi.
    + destruct (si_held _ Hs n c i Hn) as (Hni & k & Hk & Hb); [by rewrite Hc|]. rewrite Hc in Hb.
      destruct (reply_effect c ph r s.(sys_pool) i p' st Hwf Hni) as (Hrtc & Hf & Hst & Hok); [eauto| |done|].
      { by apply pnext_conn_acquired. }
      apply update_inv; try done.
      * apply (framed_weaken (eq i)); [intros j <-; by right|done].
      * intros j Hj. rewrite Hst in Hj. simplify_eq. rewrite Hc. split; [done|by left].
      * intros j kj Hj _ _ _. rewrite Hc in Hj. simplify_eq/=. congruence.
    + destruct ph as [o| | | | | |[j|] resp code]; try done; [by destruct (Hph o)|].
      unfold reply_step in Hr. cbn in Hr. simplify_eq. apply update_inv; try done; [apply framed_refl|].
      intros j k Hj. by rewrite Hc in Hj.
  - (* a release *)
    destruct (si_held _ Hs n c i Hn) as (Hni & k & Hk & Hb); [by rewrite Hc|]. rewrite Hc in Hb.
    apply update_inv; try done.
    + apply rtc_once. by eapply step_release.
    + apply (framed_weaken (eq i)); [intros j <-; left; by rewrite Hc|by eapply release_framed].
    + intros j kj Hj Hkj Hbj Hoj. rewrite Hc in Hj. simplify_eq/=.
      destruct (release_frees _ _ _ _ _ _ Hrel Hkj); congruence.
  - (* the reaper *)
    pose proof (reap_framed cfg order Horder (fun _ => False) now s.(sys_pool)) as Hf.
    destruct Hs as [Hp Hx Hh Hl]. split; simpl; [|done| |].
    + eapply rtc_r; [exact Hp|by apply step_reap].
    + intros a c i Ha Hi. destruct (Hh a c i Ha Hi) as (Hni & k & Hk & Hb).
      destruct (fr_held _ _ _ Hf i) as [E Hni']; [tauto|done|]. split; [done|]. exists k. by rewrite E.
    + intros i k Hk Hb Hop. destruct (fr_any _ _ _ Hf i) as [E|E]; [tauto|..]; rewrite E in Hk; [by apply (Hl i k)|].
      destruct (conns (sys_pool s) !! i); by simplify_eq/=.
Qed.

Lemma sys_reachable_inv s : rtc sys_step empty_system s -> sys_inv s.
Proof using Horder.
  intros H. eapply (rtc_invariant _ sys_inv); [|exact H|apply empty_system_inv].
  intros s1 s2. apply sys_step_inv.
Qed.

(** *** Progress *)

(** How far a request is from its end. *)
Definition client_rank (st : client_state) : nat :=
  match st with
  | CPhase (QAcquire _) => 9 | CConnect _ => 8
  | CPhase (QConnect _ _) => 7 | CPhase (QProxy _) => 6 | CPhase (QHandshake _) => 5
  | CPhase (QWrite _) => 4 | CPhase (QRead _) => 3 | CPhase (QDone _ _ _) => 2
  | CRelease _ _ => 1 | CEnded => 0
  end.

Definition waiting (st : client_state) : Prop := forall c r code, st <> CPhase (QDone c r code).

Lemma enter_phase_rank p ph : client_rank (enter_phase p ph).2 <= client_rank (CPhase ph) /\
  waiting (enter_phase p ph).2.
Proof. destruct ph as [| | | | | |c r code]; cbn; split; try lia; try done; case_match; try (destruct p0); cbn; (lia || done). Qed.

Lemma reply_rank c ph r p :
  (forall x y z, ph <> QDone x y z) ->
  client_rank (reply_step c ph r p).2 < client_rank (CPhase ph) /\
  (forall o, ph = QAcquire o -> client_rank (reply_step c ph r p).2 < 8).
Proof.
  intros Hd. unfold reply_step.
  pose proof (enter_phase_rank p (pnext (cl_origin c) (cl_proxy c) (upgrade_ok p) ph r)) as [Hr _].
  split; [|intros o ->]; eapply Nat.le_lt_trans; try exact Hr; clear Hr.
  - destruct ph as [| | | | | |x y z]; [..|by destruct (Hd x y z)];
      cbn [pnext]; unfold pfail; repeat case_match; cbn; lia.
  - cbn [pnext]. repeat case_match; cbn; lia.
Qed.

Lemma sys_waiting s : rtc sys_step empty_system s ->
  forall n c, s.(sys_clients) !! n = Some c -> waiting c.(cl_state).
Proof.
  intros H. eapply (rtc_invariant _ (fun s => forall n c, s.(sys_clients) !! n = Some c -> waiting c.(cl_state)));
    [|exact H|simpl; intros n c Hn; by rewrite lookup_empty in Hn].
  clear H s. intros s s' Hw Hs m c' Hm.
  assert (Hrep : forall c ph r p p' st, reply_step c ph r p = (p', st) -> waiting st).
  { intros c ph r p p' st Hr. pose proof (enter_phase_rank p (pnext (cl_origin c) (cl_proxy c) (upgrade_ok p) ph r)) as [_ Hx].
    unfold reply_step in Hr. by rewrite Hr in Hx. }
  destruct Hs; simpl in Hm; try (apply lookup_insert_Some in Hm as [[<- <-]|[_ Hm]]; simpl);
    first [by eapply Hw|by eapply Hrep|done].
Qed.

(** A step moves one request nearer to its end, or none, and takes none away. *)
Lemma step_nearer s s' n c :
  (forall n c, s.(sys_clients) !! n = Some c -> waiting c.(cl_state)) -> sys_step s s' ->
  s.(sys_clients) !! n = Some c ->
  exists c', s'.(sys_clients) !! n = Some c' /\
    (c' = c \/ client_rank c'.(cl_state) < client_rank c.(cl_state)).
Proof.
  intros Hw Hs Hn.
  assert (Hone : forall m d st p', s.(sys_clients) !! m = Some d -> client_rank st < client_rank d.(cl_state) ->
    exists c', (with_client m d st p' s).(sys_clients) !! n = Some c' /\
      (c' = c \/ client_rank c'.(cl_state) < client_rank c.(cl_state))).
  { intros m d st p' Hm Hlt. simpl. destruct (decide (m = n)) as [<-|Hne].
    - simplify_eq. eexists. rewrite lookup_insert_eq. split; [done|]. by right.
    - exists c. rewrite lookup_insert_ne by done. auto. }
  assert (Hrep : forall d ph r p p' st, waiting (CPhase ph) -> reply_step d ph r p = (p', st) ->
    client_rank st < client_rank (CPhase ph) /\ (forall o, ph = QAcquire o -> client_rank st < 8)).
  { intros d ph r p p' st Hd Hr. pose proof (reply_rank d ph r p) as Hrank. rewrite Hr in Hrank. apply Hrank.
    intros x y z ->. by apply (Hd x y z). }
  destruct Hs as [m origin proxy o s Hm Ho|m d o now i p' p'' st s Hm Hc Ha Hr|m d o now i p' s Hm Hc Ha
    |m d o i rc cc hc now r p' p'' st s Hm Hc Hd Hr|m d ph r p' st s Hm Hc Hph Hr|m d i b now p' s Hm Hc Hrel|now s Hpd].
  - exists c. simpl. rewrite lookup_insert_ne by congruence. auto.
  - apply Hone; [done|]. rewrite Hc. by eapply Hrep.
  - apply Hone; [done|]. rewrite Hc. simpl. lia.
  - apply Hone; [done|]. rewrite Hc. simpl. by eapply (Hrep d (QAcquire o)).
  - apply Hone; [done|]. rewrite Hc. specialize (Hw m d Hm). rewrite Hc in Hw. by eapply Hrep.
  - apply Hone; [done|]. rewrite Hc. simpl. lia.
  - exists c. auto.
Qed.

Lemma client_progress s n c :
  (1 <= cfg.(max_idle_per_origin))%nat ->
  sys_inv s -> (forall n c, s.(sys_clients) !! n = Some c -> waiting c.(cl_state)) ->
  s.(sys_clients) !! n = Some c -> c.(cl_state) <> CEnded ->
  exists st p', sys_step s (with_client n c st p' s) /\ client_rank st < client_rank c.(cl_state).
Proof using Horder.
  intros Hcap Hs Hw Hn Hne. specialize (Hw n c Hn).
  set (r0 := acquired_reply None None).
  destruct (cl_state c) as [ph|i|i b|] eqn:Hc; [| | |done].
  - assert (Hd : forall x y z, ph <> QDone x y z) by (intros x y z ->; by apply (Hw x y z)).
    assert ((exists o, ph = QAcquire o) \/ forall o, ph <> QAcquire o) as [[o ->]|Hno]
      by (destruct ph; eauto).
    + destruct (acquire cfg ssl_ctx o 0 s.(sys_pool)) as [[i|i] p'] eqn:Ha.
      * destruct (reply_step c (QAcquire o) (acquired_reply None (Some i)) p') as [p'' st] eqn:Hr.
        pose proof (reply_rank c (QAcquire o) (acquired_reply None (Some i)) p' Hd) as [Hlt _].
        rewrite Hr in Hlt. exists st, p''. split; [by eapply sys_reuse|exact Hlt].
      * exists (CConnect i), p'. split; [by eapply sys_create|cbn; lia].
    + destruct (reply_step c ph r0 s.(sys_pool)) as [p' st] eqn:Hr.
      pose proof (reply_rank c ph r0 s.(sys_pool) Hd) as [Hlt _]. rewrite Hr in Hlt. exists st, p'.
      split; [|exact Hlt]. by eapply sys_reply.
  - destruct (do_resolve_connect i None None None 0 s.(sys_pool)) as [r p'] eqn:Hd.
    set (o := mkOrigin [] [] 0). destruct (reply_step c (QAcquire o) (acquired_reply r.1 r.2) p') as [p'' st] eqn:Hr.
    pose proof (reply_rank c (QAcquire o) (acquired_reply r.1 r.2) p' ltac:(done)) as [_ Hlt].
    specialize (Hlt o eq_refl). rewrite Hr in Hlt. exists st, p''. split; [by eapply sys_connect|exact Hlt].
  - destruct (si_held _ Hs n c i Hn) as (_ & k & Hk & Hb); [by rewrite Hc|]. rewrite Hc in Hb.
    destruct (release cfg order (Some i) b 0 s.(sys_pool)) as [p'|] eqn:Hrel.
    + exists CEnded, p'. split; [by eapply sys_release|cbn; lia].
    + apply (release_none cfg order i k) in Hrel; [lia|by apply sys_pool_wf|done].
Qed.

(** C4: Any number of pooled requests on one pool, however their steps, the pool's and
    the reaper's interleave, with any limits and in whatever order a hash map is walked:
    the pool is used as it requires, so that whatever it does is one of its own steps
    and its invariant holds; no two requests ever work on the same connection, and a
    connection that is worked on is in no deque; giving one back is undefined exactly
    when the per-origin cap is zero and the connection is open and to be kept; an
    open connection in use belongs to a request that has not ended, so none is left
    in use once all requests have ended; every step leaves each request where it is or
    brings it nearer to its end, at most nine times; and unless the cap is zero, a
    request that has not ended can always move. *)
Theorem pool_clients_correct s :
  rtc sys_step empty_system s ->
  rtc (pool_step cfg ssl_ctx order) empty_pool s.(sys_pool) /\
  (forall a b ca cb i, s.(sys_clients) !! a = Some ca -> s.(sys_clients) !! b = Some cb ->
     holds ca.(cl_state) = Some i -> holds cb.(cl_state) = Some i -> a = b) /\
  (forall a c i, s.(sys_clients) !! a = Some c -> holds c.(cl_state) = Some i -> not_idle s.(sys_pool) i) /\
  (forall a c i b now, s.(sys_clients) !! a = Some c -> c.(cl_state) = CRelease i b ->
     release cfg order (Some i) b now s.(sys_pool) = None <->
     cfg.(max_idle_per_origin) = 0 /\ b = true /\ (alive <$> s.(sys_pool).(conns) !! i) = Some true) /\
  ((forall a c, s.(sys_clients) !! a = Some c -> c.(cl_state) = CEnded) ->
     forall i k, s.(sys_pool).(conns) !! i = Some k -> k.(c_open) = true -> k.(c_busy) = false) /\
  (forall s' n c, sys_step s s' -> s.(sys_clients) !! n = Some c ->
     client_rank c.(cl_state) <= 9 /\
     exists c', s'.(sys_clients) !! n = Some c' /\
       (c' = c \/ client_rank c'.(cl_state) < client_rank c.(cl_state))) /\
  ((1 <= cfg.(max_idle_per_origin))%nat ->
     forall n c, s.(sys_clients) !! n = Some c -> c.(cl_state) <> CEnded ->
     exists st p', sys_step s (with_client n c st p' s) /\ client_rank st < client_rank c.(cl_state)).
Proof using Horder.
  intros H. pose proof (sys_reachable_inv s H) as Hs. pose proof Hs as [Hp Hx Hh Hl].
  split_and!; [done|done| | | | |].
  - intros a c i Ha Hi. by apply (Hh a c i).
  - intros a c i b now Ha Hc. destruct (Hh a c i Ha) as (_ & k & Hk & _); [by rewrite Hc|].
    rewrite (release_none cfg order i k) by (try apply sys_pool_wf; done). rewrite Hk. simpl.
    split; intros (? & ? & ?); split_and!; congruence.
  - intros Hend i k Hk Ho. destruct (c_busy k) eqn:Hb; [|done].
    destruct (Hl i k Hk Hb Ho) as (a & c & Ha & Hi). by rewrite (Hend a c Ha) in Hi.
  - intros s' n c Hstep Hn. split; [|by eapply step_nearer; [apply sys_waiting| |]].
    destruct (cl_state c) as [[]| | |]; cbn; lia.
  - intros Hcap n c. by apply client_progress; [done|done|apply sys_waiting].
Qed.
End system.

(** ** Witness: one request to its end, its connection back in the pool *)

Definition pc_client (st : client_state) : client := mkClient demo_origin None st.
Definition pc_reply : pooled_reply := mkPooledReply None None 200 (mkResponse 200 [] (lit "ok") true).
Definition pc_with (st : client_state) (p : pool) (s : system) : system := with_client 0 (pc_client CEnded) st p s.
Definition pc1 : system := mkSystem empty_pool {[0 := pc_client (CPhase (QAcquire demo_origin))]}.
Definition pc2 : system := Eval vm_compute in pc_with (CConnect 0) (acquire default_config false demo_origin 0 empty_pool).2 pc1.
Definition pc3 : system := Eval vm_compute in
  pc_with (CPhase (QWrite 0)) (do_resolve_connect 0 None None None 1 pc2.(sys_pool)).2 pc2.
Definition pc4 : system := Eval vm_compute in pc_with (CPhase (QRead 0)) pc3.(sys_pool) pc3.
Definition pc5 : system := Eval vm_compute in pc_with (CRelease 0 true) pc4.(sys_pool) pc4.
Definition pc6 : system := Eval vm_compute in
  pc_with CEnded (default empty_pool (release default_config id (Some 0) true 2 pc5.(sys_pool))) pc5.

Lemma step_to s s' s'' e :
  sys_step default_config false id s s' -> s' = s'' -> rtc (sys_step default_config false id) s'' e ->
  rtc (sys_step default_config false id) s e.
Proof. intros H <-. by apply rtc_l. Qed.

Lemma pc_reachable : rtc (sys_step default_config false id) empty_system pc6.
Proof.
  eapply (step_to _ _ pc1);
    [apply (sys_request _ _ _ 0 demo_origin None demo_origin); vm_compute; reflexivity|vm_compute; reflexivity|].
  eapply (step_to _ _ pc2);
    [apply (sys_create _ _ _ 0 (pc_client (CPhase (QAcquire demo_origin))) demo_origin 0 0 pc2.(sys_pool));
     vm_compute; reflexivity|vm_compute; reflexivity|].
  eapply (step_to _ _ pc3);
    [apply (sys_connect _ _ _ 0 (pc_client (CConnect 0)) demo_origin 0 None None None 1
       (None, Some 0) pc3.(sys_pool) pc3.(sys_pool) (CPhase (QWrite 0))); vm_compute; reflexivity
    |vm_compute; reflexivity|].
  eapply (step_to _ _ pc4);
    [apply (sys_reply _ _ _ 0 (pc_client (CPhase (QWrite 0))) (QWrite 0) pc_reply pc3.(sys_pool) (CPhase (QRead 0)));
     [vm_compute; reflexivity..|discriminate|vm_compute; reflexivity]|vm_compute; reflexivity|].
  eapply (step_to _ _ pc5);
    [apply (sys_reply _ _ _ 0 (pc_client (CPhase (QRead 0))) (QRead 0) pc_reply pc4.(sys_pool) (CRelease 0 true));
     [vm_compute; reflexivity..|discriminate|vm_compute; reflexivity]|vm_compute; reflexivity|].
  eapply (step_to _ _ pc6);
    [apply (sys_release _ _ _ 0 (pc_client (CRelease 0 true)) 0 true 2 pc6.(sys_pool)); vm_compute; reflexivity
    |vm_compute; reflexivity|].
  apply rtc_refl.
Qed.

Lemma pc6_clients : pc6.(sys_clients) = {[0 := pc_client CEnded]}.
Proof. vm_compute. reflexivity. Qed.

Lemma pool_clients_correct_witness :
  pc6.(sys_pool).(idle) !! demo_origin = Some [0] /\
  rtc (pool_step default_config false id) empty_pool pc6.(sys_pool) /\
  (forall k, pc6.(sys_pool).(conns) !! 0 = Some k -> k.(c_open) = true -> k.(c_busy) = false).
Proof.
  destruct (pool_clients_correct default_config false id (fun l => Permutation_refl l)
    pc6 pc_reachable) as (Hp & _ & _ & _ & Hend & _ & _).
  split; [vm_compute; reflexivity|]. split; [exact Hp|]. intros k. apply Hend.
  intros a c Ha. rewrite pc6_clients in Ha. by apply lookup_singleton_Some in Ha as [_ <-].
Defined.
