(* ===== verification/HttpSessionStream.v ===== *)
(** * Streaming sessions ([src/include/http_session_stream.hpp])

    [session_stream_ssl] and [session_stream_plain] connect as in [HttpSession]
    (their [after_connect] is the same) and replace [do_read] by a loop of
    [async_read_some].  The loop's handler is a function of the session's state
    and of what the read brought; [read_loop] runs it on any number of reads.
    The two classes have the same loop. *)

From Stdlib Require Import ZArith Lia Ascii String.
From stdpp Require Import base list gmap strings.
From S2P Require Import Prelude Json ResultMonad Http.

(** One completion of [async_read_some]: the error code, and what the parser
    holds after it. *)
Record read_some := mkReadSome {
  rs_ec : option str;
  rs_header_done : bool;
  rs_status : Z;
  rs_fields : fields;
  rs_appended : str;         (** bytes added to the parser's body *)
  rs_done : bool;
}.

Inductive stream_obs :=
  | OnHeaders (status : Z) (f : fields)
  | OnChunk (chunk : str)
  | StreamDeliver (status : Z) (f : fields) (body : str) (code : Z).

Record stream_state := mkStream {
  st_body : str;                  (** [parser_->get().body()] *)
  last_body_size : nat;
  headers_delivered : bool;
  st_ended : bool;                (** no read is outstanding *)
}.
Definition stream_start : stream_state := mkStream [] 0 false false.

(** The header given to [on_headers_]: every field of the response is [set]. *)
Definition copy_fields (f : fields) : fields :=
  foldl (fun acc e => set_field e.1 e.2 acc) [] f.

Section stream.
Context (accumulate_response_body has_on_headers has_on_chunk : bool).

(** [do_read]: [None] is no limit. *)
Definition stream_body_limit : option Z :=
  if accumulate_response_body then Some (1024 * 1024 * 64)%Z else None.

(** The two callbacks of the handler of [read_some_loop]: the headers, once they
    are complete, and what the body has grown by. *)
Definition give_headers (st : stream_state) (r : read_some) : bool * list stream_obs :=
  if negb st.(headers_delivered) && r.(rs_header_done)
  then (true, if has_on_headers then [OnHeaders r.(rs_status) (copy_fields r.(rs_fields))] else [])
  else (st.(headers_delivered), []).

Definition give_chunk (last : nat) (body : str) : str * nat * list stream_obs :=
  if (last <? length body)%nat && has_on_chunk
  then if accumulate_response_body
       then (body, length body, [OnChunk (drop last body)])
       else ([], 0, [OnChunk (drop last body)])
  else (body, last, []).

(** The handler: the new state and what it called. *)
Definition on_read_some (st : stream_state) (r : read_some) : stream_state * list stream_obs :=
  let body := st.(st_body) ++ r.(rs_appended) in
  match r.(rs_ec) with
  | Some _ =>
      (mkStream [] st.(last_body_size) st.(headers_delivered) true,
       [StreamDeliver r.(rs_status) r.(rs_fields) body 8])
  | None =>
      let '(hd, x1) := give_headers st r in
      let '(body', last', x2) := give_chunk st.(last_body_size) body in
      if r.(rs_done)
      then (mkStream [] last' hd true,
            x1 ++ x2 ++ [StreamDeliver r.(rs_status) r.(rs_fields) body' 0])
      else (mkStream body' last' hd false, x1 ++ x2)
  end.

(** The loop on the reads that complete; it starts none after its end. *)
Fixpoint read_loop (st : stream_state) (rs : list read_some) : stream_state * list stream_obs :=
  match rs with
  | [] => (st, [])
  | r :: rs' =>
      if st.(st_ended) then (st, [])
      else
        let '(st1, x) := on_read_some st r in
        let '(st2, x') := read_loop st1 rs' in
        (st2, x ++ x')
  end.

(** ** What is observed *)

Definition chunks (xs : list stream_obs) : list str :=
  omap (fun x => match x with OnChunk c => Some c | _ => None end) xs.
Definition header_calls (xs : list stream_obs) : list (Z * fields) :=
  omap (fun x => match x with OnHeaders s f => Some (s, f) | _ => None end) xs.
Definition stream_deliveries (xs : list stream_obs) : list (str * Z) :=
  omap (fun x => match x with StreamDeliver _ _ b c => Some (b, c) | _ => None end) xs.

(** The body bytes of the reads that completed without error. *)
Definition received (rs : list read_some) : str :=
  concat (map (fun r => match r.(rs_ec) with Some _ => [] | None => r.(rs_appended) end) rs).

(** A schedule of reads as the library gives them: none after an error or after
    the message is complete. *)
Fixpoint reads_ok (rs : list read_some) : Prop :=
  match rs with
  | [] => True
  | r :: rs' => ((r.(rs_ec) <> None \/ r.(rs_done) = true) -> rs' = []) /\ reads_ok rs'
  end.

(** Between reads: everything in the parser's body has been given out. *)
Definition stream_inv (st : stream_state) : Prop :=
  st.(last_body_size) = length st.(st_body) /\
  (accumulate_response_body = false -> st.(st_body) = []).

Lemma give_headers_quiet st r :
  chunks (give_headers st r).2 = [] /\ stream_deliveries (give_headers st r).2 = [] /\
  length (header_calls (give_headers st r).2) <= b2n (negb st.(headers_delivered)) /\
  (length (header_calls (give_headers st r).2) = 1 -> (give_headers st r).1 = true) /\
  (st.(headers_delivered) = true -> (give_headers st r).1 = true).
Proof.
  unfold give_headers. destruct st.(headers_delivered), r.(rs_header_done), has_on_headers;
    cbn; split_and!; auto; lia.
Qed.

Lemma give_chunk_spec (old appended : str) :
  has_on_chunk = true -> (accumulate_response_body = false -> old = []) ->
  let '(body, last, xs) := give_chunk (length old) (old ++ appended) in
  body = (if accumulate_response_body then old ++ appended else []) /\ last = length body /\
  concat (chunks xs) = appended /\ stream_deliveries xs = [] /\ header_calls xs = [].
Proof.
  intros Hc Hold. unfold give_chunk. rewrite Hc, andb_true_r, length_app.
  destruct (Nat.ltb_spec (length old) (length old + length appended)) as [Hlt|Hge].
  - rewrite drop_app_length. destruct accumulate_response_body; simpl;
      rewrite ?length_app, ?app_nil_r; done.
  - destruct appended; [|simpl in *; lia]. rewrite app_nil_r.
    destruct accumulate_response_body; [done|]. by rewrite Hold.
Qed.

(** The loop from a state in which [given] has been given out already. *)
Lemma read_loop_spec rs st :
  has_on_chunk = true -> st.(st_ended) = false -> stream_inv st -> reads_ok rs ->
  let '(st', xs) := read_loop st rs in
  concat (chunks xs) = received rs /\
  length (header_calls xs) <= b2n (negb st.(headers_delivered)) /\
  (st'.(st_ended) = true <-> length (stream_deliveries xs) = 1) /\
  length (stream_deliveries xs) <= 1 /\
  Forall (fun d => d.2 = 8%Z \/ (d.2 = 0%Z /\
            d.1 = if accumulate_response_body then st.(st_body) ++ received rs else []))
         (stream_deliveries xs).
Proof.
  intros Hc. revert st. induction rs as [|r rs IH]; intros st He [Hl Hb] Hrs.
  { cbn. rewrite He. split_and!; try done; lia. }
  cbn [read_loop]. rewrite He. destruct Hrs as [Hend Hrs].
  unfold received in *. cbn [map concat]. unfold on_read_some.
  destruct (rs_ec r) as [ec|] eqn:Hec.
  { rewrite Hend by (by left). cbn. split_and!; try done; try lia.
    constructor; [by left|constructor]. }
  pose proof (give_headers_quiet st r) as (Hh1 & Hh2 & Hh3 & Hh4 & Hh5).
  destruct (give_headers st r) as [hd x1]. cbn [fst snd] in *.
  pose proof (give_chunk_spec st.(st_body) r.(rs_appended) Hc Hb) as Hg. rewrite <- Hl in Hg.
  destruct (give_chunk st.(last_body_size) (st.(st_body) ++ r.(rs_appended))) as [[body' last'] x2].
  destruct Hg as (Hbody & Hlast & Hch & Hdel & Hhc).
  unfold chunks, stream_deliveries, header_calls in *.
  destruct (rs_done r) eqn:Hd.
  - rewrite Hend by (by right). cbn. rewrite !app_nil_r, !omap_app, Hh1, Hh2, Hdel, Hhc. cbn.
    rewrite !app_nil_r, Hch. split_and!; try done.
    constructor; [|constructor]. right. by rewrite Hbody.
  - destruct (read_loop (mkStream body' last' hd false) rs) as [st' xs] eqn:Hloop.
    specialize (IH (mkStream body' last' hd false)). rewrite Hloop in IH. cbn in IH.
    destruct IH as (I1 & I2 & I3 & I4 & I5); [done| |done|].
    { split; [done|]. intros Ha. by rewrite Hbody, Ha. }
    rewrite !omap_app, Hh1, Hh2, Hdel, Hhc. cbn. rewrite concat_app, Hch, I1, length_app, app_nil_r.
    split_and!; try done.
    + destruct (headers_delivered st); cbn in *.
      * rewrite (Hh5 eq_refl) in *. cbn in *. lia.
      * destruct hd; cbn in *; [lia|].
        assert (length (omap (fun x => match x with OnHeaders s f => Some (s, f) | _ => None end) x1) <> 1)
          by (intros H; by apply Hh4 in H). lia.
    + eapply Forall_impl; [exact I5|]. intros [b c]. cbn. intros [?|[-> ->]]; [by left|right].
      split; [done|]. rewrite Hbody. destruct accumulate_response_body; [|done].
      by rewrite <- app_assoc.
Qed.

(** Over any sequence of reads, the chunks given to [on_chunk], joined, are
    exactly the body bytes read without error, in order; the headers are given
    at most once; the final callback comes at most once, exactly when the loop
    ends, with code 8 after a failed read and otherwise code 0 with the whole
    body, or with an empty one when bodies are not accumulated. *)
Theorem stream_chunks_are_the_body rs :
  has_on_chunk = true -> reads_ok rs ->
  let '(st, xs) := read_loop stream_start rs in
  concat (chunks xs) = received rs /\
  length (header_calls xs) <= 1 /\
  length (stream_deliveries xs) <= 1 /\
  (st.(st_ended) = true <-> length (stream_deliveries xs) = 1) /\
  Forall (fun d => d.2 = 8%Z \/ (d.2 = 0%Z /\
            d.1 = if accumulate_response_body then received rs else []))
         (stream_deliveries xs).
Proof.
  intros Hc Hrs. pose proof (read_loop_spec rs stream_start Hc eq_refl) as H.
  destruct (read_loop stream_start rs) as [st xs].
  destruct H as (H1 & H2 & H3 & H4 & H5); done.
Qed.
End stream.

(** The header given to [on_headers] has one field per name: [set] replaces, so
    of a repeated field such as [Set-Cookie] only the last one is left. *)
Lemma copy_fields_drops_repeats :
  copy_fields [(lit "Set-Cookie", lit "a=1"); (lit "Set-Cookie", lit "b=2")] =
  [(lit "Set-Cookie", lit "b=2")].
Proof. reflexivity. Qed.

(** A body in two pieces, not accumulated. *)
Definition stream_demo : list read_some :=
  [mkReadSome None true 200 [] (lit "hel") false; mkReadSome None true 200 [] (lit "lo") true].

Lemma stream_chunks_are_the_body_witness :
  concat (chunks (read_loop false true true stream_start stream_demo).2) = lit "hello".
Proof.
  exact (proj1 (stream_chunks_are_the_body false true true stream_demo eq_refl
    ltac:(cbn; split_and!; try done; intros [?|?]; done))).
Defined.
