(* ===== verification/HttpManager.v ===== *)
(** * The client manager ([src/include/http_client_manager.hpp])

    [http_request] runs sessions one after the other, following redirects; a
    session is one external operation here, whose reply is what the session
    delivers ([HttpSession] shows that it does so once). *)

From Stdlib Require Import ZArith Lia Ascii String.
From stdpp Require Import base list gmap strings.
From S2P Require Import Prelude Json ResultMonad Asio IoMonad Protocol Http HttpSession ConnectionPool.

Definition is_redirect_status (status_code : Z) : bool :=
  (status_code =? 301)%Z || (status_code =? 302)%Z || (status_code =? 303)%Z ||
  (status_code =? 307)%Z || (status_code =? 308)%Z.

Section manager.
Context `{UrlLib}.

Definition parse_abs (s : str) : option url :=
  match parse_uri s with inr u => Some u | inl _ => None end.

(** [scheme://host[:port]]. *)
Definition base_origin (base : url) : str :=
  base.(u_scheme) ++ lit "://" ++ base.(u_host) ++
  match base.(u_port) with Some p => ":"%char :: p | None => [] end.

(** The directory of the base path. *)
Definition base_directory (base : url) : str :=
  match rfind_char "/" base.(u_path) with
  | None => lit "/"
  | Some slash => take (slash + 1) base.(u_path)
  end.

(** The text given to the parser. *)
Definition redirect_text (base : url) (location : str) : str :=
  if starts_with (lit "http://") location || starts_with (lit "https://") location then location
  else if starts_with (lit "//") location then base.(u_scheme) ++ ":"%char :: location
  else if starts_with (lit "/") location then base_origin base ++ location
  else
    let dir := base_directory base in
    base_origin base ++ (if starts_with (lit "/") dir then [] else lit "/") ++ dir ++ location.

Definition resolve_redirect_url (base : url) (location : str) : option url :=
  match location with
  | [] => None
  | _ => parse_abs (redirect_text base location)
  end.

Definition target_for_url (u : url) : str :=
  (match u.(u_encoded_path) with [] => lit "/" | p => p end) ++
  (match u.(u_encoded_query) with [] => [] | q => "?"%char :: q end).
Definition update_request_target_for_url (q : request) (u : url) : request :=
  set_target (target_for_url u) q.

(** ** [http_request] *)

Inductive session_kind := Ssl | Plain.
(** Running a session for [u]. *)
Record session_op := mkSessionOp {
  so_kind : session_kind;
  so_url : url;
  so_request : request;
  so_proxy : option ProxySetting;
}.
(** [(response, error code)] *)
Abbreviation session_reply := (option response * Z)%type.
Section request.
Context {X : Type}.
Abbreviation prg := (prog session_op session_reply X).
Context (req_template : request) (params : HttpClientRequestParams)
        (proxy_setting : option ProxySetting)
        (user_cb : session_reply -> prg unit).

(** The URL of the next request, or [None] to deliver. *)
Definition redirect_next (redirects_left : nat) (u : url) (rep : session_reply) : option url :=
  match rep with
  | (Some resp, 0%Z) =>
      if negb params.(follow_redirect) || (redirects_left =? 0)%nat then None
      else if negb (bool_decide (req_template.(q_method) = lit "GET") ||
                    bool_decide (req_template.(q_method) = lit "HEAD")) then None
      else if negb (is_redirect_status resp.(s_status)) then None
      else match find_field (lit "Location") resp.(s_fields) with
           | None => None
           | Some loc => resolve_redirect_url u loc
           end
  | _ => None
  end.

Definition request_for (u : url) : request :=
  if params.(no_modify_req) then req_template
  else update_request_target_for_url req_template u.

Definition session_for (u : url) : session_op :=
  mkSessionOp (if bool_decide (u.(u_scheme) = lit "https") then Ssl else Plain)
    u (request_for u) proxy_setting.

(** [*step]: the recursion is through [redirects_left -= 1]. *)
Fixpoint redirect_step (redirects_left : nat) (u : url) : prg unit :=
  start (session_for u) (fun rep =>
    match redirect_next redirects_left u rep with
    | None => user_cb rep
    | Some next =>
        match redirects_left with
        | 0 => Fault                      (** excluded by [redirect_next] *)
        | S left' => redirect_step left' next
        end
    end).

Definition http_request (u : url) : prg unit := redirect_step 5 u.
End request.

(** ** [http_request_pooled] *)

(** How a pooled request is served. *)
Inductive pooled_route :=
  | ByHttpRequest                 (** the redirect loop above *)
  | Refused (code : Z)            (** [callback(std::nullopt, code)] *)
  | ByPool (origin : Origin) (proxy : option ProxySetting).

Definition pool_origin (u : url) : Origin :=
  mkOrigin u.(u_scheme) u.(u_host)
    match u.(u_port) with
    | Some _ => to_u16 (port_number u)
    | None => if bool_decide (u.(u_scheme) = lit "https") then 443 else 80
    end.

Definition http_request_pooled (copyable : bool) (params : HttpClientRequestParams) (u : url)
    (proxy_setting : option ProxySetting) : pooled_route :=
  if params.(follow_redirect) then (if copyable then ByHttpRequest else Refused 9)
  else ByPool (pool_origin u) proxy_setting.

(** ** Lemmas *)

Lemma rfind_char_Some c s i :
  rfind_char c s = Some i -> exists a b, s = a ++ c :: b /\ length a = i /\ c ∉ b.
Proof.
  revert i; induction s as [|d s IH]; intros i Hi; simplify_eq/=.
  destruct (rfind_char c s) as [j|] eqn:E; simplify_eq.
  - destruct (IH j eq_refl) as (a & b & -> & <- & Hb). by exists (d :: a), b.
  - case_bool_decide; simplify_eq. exists [], s. split_and!; try done.
    clear IH. induction s as [|e s IH]; [set_solver|]. simpl in E.
    destruct (rfind_char c s); [done|]. case_bool_decide; simplify_eq. set_solver.
Qed.

(** The directory ends at the last slash. *)
Lemma base_directory_spec base :
  exists d, base_directory base = d ++ lit "/" /\
    (rfind_char "/" base.(u_path) <> None -> exists rest, base.(u_path) = base_directory base ++ rest /\
       "/"%char ∉ rest).
Proof.
  unfold base_directory. destruct (rfind_char "/" base.(u_path)) as [i|] eqn:E.
  - destruct (rfind_char_Some _ _ _ E) as (a & b & Hp & Hl & Hb). exists a.
    assert (Ht : take (i + 1) base.(u_path) = a ++ lit "/").
    { rewrite Hp. subst i. rewrite take_app_add. done. }
    rewrite Ht. split; [done|]. intros _. exists b. split; [|done].
    rewrite Hp. by rewrite <- app_assoc.
  - exists []. by split.
Qed.

(** The text a redirect resolves to.  An absolute location is taken as it is;
    a location starting with ["//"] keeps the scheme only; every other location
    stays on the base's origin: an absolute path replaces the path, and a
    relative one is appended to the base's directory, which starts and ends with
    a slash. *)
Theorem redirect_text_correct base location :
  let text := redirect_text base location in
  if starts_with (lit "http://") location || starts_with (lit "https://") location
  then text = location
  else if starts_with (lit "//") location then text = base.(u_scheme) ++ lit ":" ++ location
  else exists path, text = base_origin base ++ path /\ starts_with (lit "/") path = true /\
    if starts_with (lit "/") location then path = location
    else exists d, path = d ++ lit "/" ++ location /\
      (starts_with (lit "/") base.(u_path) = true ->
         exists rest, base.(u_path) = d ++ lit "/" ++ rest /\ "/"%char ∉ rest).
Proof.
  cbv zeta. unfold redirect_text.
  destruct (starts_with (lit "http://") location || starts_with (lit "https://") location); [done|].
  destruct (starts_with (lit "//") location); [done|].
  destruct (starts_with (lit "/") location) eqn:Hl; [by exists location|].
  destruct (base_directory_spec base) as (d & Hd & Hpath). rewrite Hd in *.
  eexists; split; [reflexivity|]. destruct (starts_with (lit "/") (d ++ lit "/")) eqn:Hs.
  - split; [destruct d; [done|exact Hs]|]. exists d. split; [by rewrite <- app_assoc|].
    intros Hp. destruct Hpath as (rest & Hp' & Hr).
    + destruct (u_path base) as [|c p] eqn:Ep; [done|]. simpl in *.
      bool_to_prop. subst c. by destruct (rfind_char _ p).
    + exists rest. by rewrite <- app_assoc in Hp'.
  - split; [done|]. exists (lit "/" ++ d). split; [by rewrite <- !app_assoc|].
    intros Hp. destruct Hpath as (rest & Hp' & Hr).
    + destruct (u_path base) as [|c p] eqn:Ep; [done|]. simpl in *.
      bool_to_prop. subst c. by destruct (rfind_char _ p).
    + rewrite Hp', <- app_assoc in Hp. destruct d as [|c d]; [done|].
      simpl in Hp, Hs. congruence.
Qed.

(** ** The redirect loop as a protocol *)

Section redirects.
Context (req_template : request) (params : HttpClientRequestParams)
        (proxy_setting : option ProxySetting).
Abbreviation prg := (prog session_op session_reply session_reply).
Abbreviation wrld := (world session_op session_reply session_reply).
Abbreviation hop := (redirect_next req_template params).
Abbreviation sess := (session_for req_template params proxy_setting).

Inductive rphase :=
  | Fetching (redirects_left : nat) (u : url)
  | Answered (rep : session_reply).

Definition redirect_handler (rl : nat) (u : url) (rep : session_reply) : prg unit :=
  match hop rl u rep with
  | None => emit rep
  | Some n =>
      match rl with
      | 0 => Fault
      | S rl' => redirect_step req_template params proxy_setting emit rl' n
      end
  end.

Definition redirect_protocol : protocol session_op session_reply session_reply := {|
  phase := rphase;
  op := fun ph => match ph with Fetching _ u => Some (sess u) | Answered _ => None end;
  says := fun ph => match ph with Answered rep => [rep] | _ => [] end;
  next := fun ph rep =>
    match ph with
    | Fetching rl u =>
        match hop rl u rep, rl with
        | Some n, S rl' => Fetching rl' n
        | _, _ => Answered rep
        end
    | Answered _ => ph
    end;
  handle := fun ph => match ph with Fetching rl u => redirect_handler rl u | Answered _ => emit end;
|}.

Lemma hop_zero u rep : hop 0 u rep = None.
Proof.
  unfold redirect_next. destruct rep as [[resp|] [|z|z]]; try done.
  by rewrite orb_true_r.
Qed.

#[export] Instance redirect_follows : Follows redirect_protocol.
Proof.
  intros [rl u|rep'] rep w Hop; [|done]. cbn [handle next redirect_protocol].
  unfold redirect_handler. destruct rl as [|rl].
  - rewrite hop_zero. done.
  - destruct (hop (S rl) u rep) as [n|]; [|done]. by destruct rl.
Qed.

(** *** The loop on a list of replies *)

(** The URLs requested. *)
Fixpoint url_chain (rl : nat) (u : url) (rs : list session_reply) : list url :=
  u :: match rs with
       | [] => []
       | r :: rs' =>
           match hop rl u r with Some n => url_chain (rl - 1) n rs' | None => [] end
       end.

(** The reply delivered. *)
Fixpoint final_reply (rl : nat) (u : url) (rs : list session_reply) : option session_reply :=
  match rs with
  | [] => None
  | r :: rs' =>
      match hop rl u r with Some n => final_reply (rl - 1) n rs' | None => Some r end
  end.

Lemma url_chain_bound rl u rs : (length (url_chain rl u rs) <= S rl)%nat.
Proof.
  revert rl u; induction rs as [|r rs IH]; intros rl u; simpl; [lia|].
  destruct (hop rl u r) as [n|] eqn:E; simpl; [|lia]. destruct rl as [|rl].
  - by rewrite hop_zero in E.
  - specialize (IH rl n). simpl. rewrite Nat.sub_0_r. lia.
Qed.

Lemma redirect_phases rl u rs :
  proper redirect_protocol rs (Fetching rl u) ->
  visited redirect_protocol rs (Fetching rl u) = map sess (url_chain rl u rs) /\
  said redirect_protocol rs (Fetching rl u) = option_list (final_reply rl u rs) /\
  (op redirect_protocol (phases redirect_protocol rs (Fetching rl u)) = None <->
   final_reply rl u rs <> None).
Proof.
  revert rl u; induction rs as [|r rs IH]; intros rl u Hp; simpl; [done|].
  destruct Hp as [_ Hp]. simpl in Hp. destruct (hop rl u r) as [n|] eqn:E.
  - destruct rl as [|rl]; [by rewrite hop_zero in E|]. simpl. rewrite Nat.sub_0_r.
    destruct (IH rl n Hp) as (-> & -> & ->). done.
  - destruct rs as [|r' rs]; [done|]. simpl in Hp. by destruct Hp.
Qed.

(** *** The loop with any callback

    The callback may change cells and observe; it starts nothing. *)

Definition quiet {A X} (p : prog session_op session_reply X A) : Prop := forall w,
  let w' := (exec p w).2 in
  w'.(ops) = w.(ops) /\ w'.(timers) = w.(timers) /\ w'.(posted) = w.(posted).

Lemma quiet_run {X} (p : prog session_op session_reply X unit) w :
  quiet p ->
  (run p w).(ops) = w.(ops) /\ (run p w).(timers) = w.(timers) /\ (run p w).(posted) = w.(posted).
Proof. intros Hq. specialize (Hq w). unfold run. by destruct (exec p w) as [[]]. Qed.

Lemma quiet_bind {A B X} (p : prog session_op session_reply X A) (f : A -> prog _ _ X B) :
  quiet p -> (forall a, quiet (f a)) -> quiet (p ≫= f).
Proof.
  intros Hp Hf w. rewrite exec_mbind. specialize (Hp w).
  destruct (exec p w) as [[a| |] w1]; [|done|done]. destruct Hp as (<- & <- & <-). apply Hf.
Qed.

Lemma quiet_read {T} `{Enc T} {X} l : quiet (X := X) (read (T := T) l).
Proof.
  intros w. unfold read. cbn [exec]. destruct (_ !! l) as [v|]; [|done]. by destruct (dec v).
Qed.

Lemma quiet_write {T} `{Enc T} {X} l x : quiet (X := X) (write (T := T) l x).
Proof. intros w. unfold write. cbn [exec]. by case_decide. Qed.

Lemma quiet_emit {X} (x : X) : quiet (emit x).
Proof. by intros w. Qed.

(** The world once the sessions [os] have been run. *)
Definition after_sessions {X} (os : list session_op) (w : world session_op session_reply X) :
    world session_op session_reply X :=
  mkWorld w.(heap) w.(timers) w.(ntimers) [] (w.(nops) + length os) w.(posted) w.(armed)
    (w.(started) ++ os) w.(trace) w.(escaped) w.(faulted).

Lemma redirect_loop_runs {X} (k : session_reply -> prog session_op session_reply X unit) es :
  forall rl u (w0 w : world session_op session_reply X),
  (forall rep, quiet (k rep)) ->
  w0.(ops) = [] -> w0.(timers) = [] -> w0.(posted) = [] ->
  steps es (run (redirect_step req_template params proxy_setting k rl u) w0) = Some w ->
  let rs := op_replies es in
  let w1 := after_sessions (map sess (url_chain rl u rs)) w0 in
  match final_reply rl u rs with
  | Some rep => w = run (k rep) w1
  | None => exists o, w = w_ops (fun _ => [o]) w1
  end.
Proof.
  induction es as [|e es IH]; intros rl u w0 w Hq Ho Ht Hp Hs.
  - simpl in Hs. simplify_eq. destruct w0; simpl in *; subst. destruct rl; simpl;
      eexists; unfold run, w_start, w_ops, after_sessions; simpl; by rewrite Nat.add_1_r.
  - remember (redirect_step _ _ _ k rl u) as p eqn:Ep.
    assert (Hp1 : exists h, p = start (sess u) h /\
      forall r, h r = match hop rl u r with
                      | None => k r
                      | Some n => match rl with
                                  | 0 => Fault
                                  | S rl' => redirect_step req_template params proxy_setting k rl' n
                                  end
                      end) by (subst p; destruct rl; by eexists).
    destruct Hp1 as (h & -> & Hh). clear Ep. destruct e as [t ec|i r|]; simpl in Hs;
      rewrite ?Ht, ?Hp, ?Ho in Hs; try done. simpl in Hs. case_decide as Hi; [|done].
    rewrite Hh in Hs. cbn [op_replies omap list_omap]. fold (op_replies es).
    cbn [url_chain final_reply]. destruct (hop rl u r) as [n|] eqn:En.
    + destruct rl as [|rl]; [by rewrite hop_zero in En|].
      change (run (start (sess u) h) w0) with (w_start (sess u) h w0) in Hs.
      specialize (IH rl n (w_ops (fun _ => []) (w_start (sess u) h w0)) w Hq eq_refl Ht Hp Hs).
      simpl. rewrite Nat.sub_0_r. cbv zeta in IH.
      assert (Hw : after_sessions (map sess (url_chain rl n (op_replies es)))
                (w_ops (fun _ => []) (w_start (sess u) h w0)) =
              after_sessions (sess u :: map sess (url_chain rl n (op_replies es))) w0).
      { unfold after_sessions, w_ops, w_start; simpl. rewrite <- app_assoc. f_equal. lia. }
      unfold op_replies in *. by rewrite <- Hw.
    + change (run (start (sess u) h) w0) with (w_start (sess u) h w0) in Hs.
      set (w1 := w_ops (fun _ => []) (w_start (sess u) h w0)) in *.
      destruct (quiet_run (k r) w1 (Hq r)) as (Q1 & Q2 & Q3). destruct es as [|e es].
      * simpl in Hs. simplify_eq. simpl. f_equal. unfold w1, after_sessions, w_ops, w_start; simpl.
        by rewrite Nat.add_1_r.
      * exfalso. simpl in Hs. destruct e; simpl in Hs; rewrite ?Q1, ?Q2, ?Q3 in Hs;
          unfold w1 in Hs; simpl in Hs; rewrite ?Ht, ?Hp in Hs; done.
Qed.

(** Replies that the loop can take can be given. *)
Lemma redirect_loop_schedule {X} (k : session_reply -> prog session_op session_reply X unit) rs :
  forall rl u (w0 : world session_op session_reply X),
  proper redirect_protocol rs (Fetching rl u) -> w0.(ops) = [] ->
  exists w, steps (schedule w0.(nops) rs) (run (redirect_step req_template params proxy_setting k rl u) w0) = Some w.
Proof.
  induction rs as [|r rs IH]; intros rl u w0 Hp Ho; [by eexists|].
  assert (Hst : exists h, run (redirect_step req_template params proxy_setting k rl u) w0 = w_start (sess u) h w0 /\
    forall r w, run (h r) w = run (match hop rl u r with
                      | None => k r
                      | Some n => match rl with
                                  | 0 => Fault
                                  | S rl' => redirect_step req_template params proxy_setting k rl' n
                                  end
                      end) w) by (destruct rl; by eexists).
  destruct Hst as (h & -> & Hh). cbn [schedule steps step]. cbn [w_start Asio.ops]. rewrite Ho. cbn [app take_id].
  rewrite decide_True by done. rewrite Hh. destruct Hp as [_ Hp]. cbn [next redirect_protocol] in Hp.
  destruct (hop rl u r) as [n|] eqn:En.
  - destruct rl as [|rl]; [by rewrite hop_zero in En|].
    destruct (IH rl n (w_ops (fun _ => []) (w_start (sess u) h w0)) Hp eq_refl) as [w Hw].
    by exists w.
  - destruct rs as [|r' rs]; [by eexists|]. by destruct Hp.
Qed.

(** C7: under every schedule, [http_request] runs at most six sessions, one after
    the other, each for the URL the previous answer redirected to; it calls back
    at most once, and exactly once when no session is running, with the first
    answer that is not a redirect it follows; it follows none when redirects are
    off or the method is neither GET nor HEAD. *)
Theorem http_request_follows_redirects u es (w : wrld) :
  steps es (run (http_request req_template params proxy_setting emit u) world0) = Some w ->
  let rs := op_replies es in
  w.(started) = map sess (url_chain 5 u rs) /\ (length w.(started) <= 6)%nat /\
  w.(trace) = option_list (final_reply 5 u rs) /\
  (w.(ops) = [] <-> length w.(trace) = 1) /\
  (params.(follow_redirect) = false \/
   (req_template.(q_method) <> lit "GET" /\ req_template.(q_method) <> lit "HEAD") ->
   w.(started) = [sess u]) /\
  w.(faulted) = false /\ w.(escaped) = [].
Proof.
  intros Hs. cbv zeta.
  assert (Hid : forall l : list session_reply, omap Some l = l).
  { intros l. induction l as [|x l IH]; [done|].
    change (x :: omap Some l = x :: l). by rewrite IH. }
  destruct (protocol_runs redirect_protocol Some _ (Fetching 5 u) world0 es w
    eq_refl eq_refl eq_refl eq_refl ltac:(constructor) eq_refl eq_refl eq_refl eq_refl Hs)
    as (Ht & Hst & Hops & Hpr & Hf & He).
  destruct (redirect_phases 5 u (op_replies es) Hpr) as (Hv & Hsa & Hend).
  rewrite !Hid, Hsa in Ht. rewrite Hst, Hv. split_and!; try done.
  - rewrite length_map. apply url_chain_bound.
  - rewrite Hops, Hend, Ht. by destruct (final_reply 5 u (op_replies es)).
  - intros Hno. destruct (op_replies es) as [|r rs]; [done|]. simpl.
    replace (hop 5 u r) with (@None url); [done|]. unfold redirect_next.
    destruct r as [[resp|] [|z|z]]; try done. destruct Hno as [->|[H1 H2]]; [done|].
    destruct (negb (follow_redirect params) || _); [done|].
    by rewrite !bool_decide_false.
Qed.
End redirects.
End manager.

(** ** Witness: one redirect, followed *)

Definition demo_urls : UrlLib := {|
  parse_uri := fun s => inr (mkUrl (lit "http") (lit "h") None s s []);
  port_number := fun _ => 80%Z;
  url_buffer := fun u => u.(u_encoded_path);
|}.
Definition demo_url : url := mkUrl (lit "http") (lit "h") None (lit "/a") (lit "/a") [].
Definition demo_get : request := mkRequest (lit "GET") (lit "/a") [] [] false.
Definition demo_moved : response := mkResponse 302 [(lit "location", lit "/b")] [] false.
Definition demo_found : response := mkResponse 200 [] (lit "ok") false.
Definition redirect_demo : list (event (option response * Z)) :=
  [EvOp 0 (Some demo_moved, 0%Z); EvOp 1 (Some demo_found, 0%Z)].
Definition redirect_demo_world : world session_op (option response * Z) (option response * Z) :=
  default world0 (steps redirect_demo
    (run (http_request (H := demo_urls) demo_get default_params None emit demo_url)
       world0)).

Lemma http_request_follows_redirects_witness :
  redirect_demo_world.(trace) = [(Some demo_found, 0%Z)] /\
  (length redirect_demo_world.(started) <= 6)%nat.
Proof.
  split; [vm_compute; reflexivity|].
  apply (http_request_follows_redirects (H := demo_urls) demo_get default_params
    None demo_url redirect_demo redirect_demo_world).
  vm_compute. reflexivity.
Defined.
