(* ===== verification/RedirectSessions.v ===== *)
(** * A request down to the network ([src/include/http_client_manager.hpp], [http_request],
    over [src/include/http_session.hpp])

    In [HttpManager] a session is one operation of the redirect loop.  Here the loop
    runs the sessions themselves: the callback of each session is the lambda of
    [http_request], which starts the next session from inside the last handler of
    the one before it.  The theorem is a refinement: whatever the network answers
    and whenever the resolvers' watchdogs fire, there is a run of the loop of
    [HttpManager] in which the sessions reply what the sessions of the network
    replied, and the request delivers what that run delivers. *)

From Stdlib Require Import ZArith Lia Ascii String.
From stdpp Require Import base list gmap strings.
From S2P Require Import Prelude Json ResultMonad Asio IoMonad Protocol Http HttpSession ConnectionPool HttpManager.

Section net.
Context `{UrlLib}.
Context (req_template : request) (params : HttpClientRequestParams)
        (proxy_setting : option ProxySetting) (response_body : body_kind)
        (set_tlsext_host_name : str -> bool).
Abbreviation prg := (prog net_op net_reply session_obs).
Abbreviation wrld := (world net_op net_reply session_obs).
Abbreviation hop := (redirect_next req_template params).
Abbreviation req_one := (request_for req_template params).
Abbreviation session_reply := (option response * Z)%type.

Abbreviation rproto := (redirect_protocol req_template params proxy_setting).
Abbreviation chain := (url_chain req_template params).
Abbreviation final := (final_reply req_template params).

Definition is_https (u : url) : bool := bool_decide (u.(u_scheme) = lit "https").

(** [*step], with the session it makes and the session's callback. *)
Fixpoint net_step (user_cb : option response -> Z -> prg unit) (redirects_left : nat) (u : url) : prg unit :=
  client_session_run (is_https u) u params proxy_setting response_body (req_one u) set_tlsext_host_name
    (fun resp ec =>
       match hop redirects_left u (resp, ec) with
       | None => user_cb resp ec
       | Some next =>
           match redirects_left with
           | 0 => Fault                    (** excluded by [redirect_next] *)
           | S left' => net_step user_cb left' next
           end
       end).

Definition net_http_request (user_cb : option response -> Z -> prg unit) (u : url) : prg unit :=
  net_step user_cb 5 u.

(** ** The sessions of the loop as one protocol

    For a user's callback that observes what [given] says, provided the cells are as
    [Q] says; it may change them. *)

Section loop.
Context (user_cb : option response -> Z -> prg unit).
Context (given : session_reply -> list session_obs) (Q : list val -> Prop).
Class Gives := gives : forall x c (w : wrld), Q w.(heap) -> exists h,
  exec (user_cb x c) w = (Returned tt, emits (given (x, c)) (w_heap (fun _ => h) w)).

(** The callback of the session for [u]. *)
Definition net_callback (rl : nat) (u : url) (resp : option response) (ec : Z) : prg unit :=
  match hop rl u (resp, ec) with
  | None => user_cb resp ec
  | Some next => match rl with 0 => Fault | S left' => net_step user_cb left' next end
  end.

Abbreviation sproto u :=
  (session_protocol (is_https u) u params response_body (req_one u) set_tlsext_host_name).
Abbreviation start_of := (start_phase params proxy_setting).

Lemma net_step_run rl u :
  net_step user_cb rl u =
  client_session_run (is_https u) u params proxy_setting response_body (req_one u) set_tlsext_host_name
    (net_callback rl u).
Proof. by destruct rl. Qed.

Inductive nphase :=
  | InSession (redirects_left : nat) (u : url) (ph : sphase)
  | Given (rep : session_reply).

(** A session that has ended is followed by the next one, or by the end. *)
Definition settle (rl : nat) (u : url) (ph : sphase) : nphase :=
  match ph with
  | SDone x c =>
      match hop rl u (x, c), rl with
      | Some n, S left' => InSession left' n start_of
      | _, _ => Given (x, c)
      end
  | _ => InSession rl u ph
  end.

Definition net_protocol : protocol net_op net_reply session_obs := {|
  phase := nphase;
  op := fun ph => match ph with InSession _ u ph => op (sproto u) ph | Given _ => None end;
  says := fun ph => match ph with InSession _ _ _ => [] | Given rep => given rep end;
  next := fun ph r =>
    match ph with
    | InSession rl u ph => settle rl u (next (sproto u) ph r)
    | Given _ => ph
    end;
  handle := fun ph =>
    match ph with
    | InSession rl u ph =>
        handler_of (is_https u) u params response_body (req_one u) set_tlsext_host_name (net_callback rl u)
          (do_read params response_body (net_callback rl u)) ph
    | Given _ => fun _ => mret tt
    end;
|}.

(** A session started from a callback: its watchdog has an identity of its own. *)
Lemma net_step_enter rl u (w : wrld) : exists h,
  alike h (handle net_protocol (InSession rl u start_of)) /\
  (w.(ntimers) = 0 -> h = handle net_protocol (InSession rl u start_of)) /\
  exec (net_step user_cb rl u) w =
  exec (enter_with net_protocol h (InSession rl u start_of)) (w_timer params.(resolve_timeout) watchdog w).
Proof.
  rewrite net_step_run. unfold client_session_run.
  destruct (session_starts (is_https u) u params proxy_setting response_body (req_one u) set_tlsext_host_name
    (net_callback rl u) (do_read params response_body (net_callback rl u)) w) as (h & Hh & H0 & ->).
  exists h. split_and!; [exact Hh|exact H0|].
  pose proof (start_connecting params proxy_setting). by destruct start_of.
Qed.

(** What cannot throw runs in the [try] of the session's callback as it is. *)
Lemma exec_try_returns {A} (p q : prg A) w a w' :
  exec p w = (Returned a, w') -> exec (try_all p q) w = exec p w.
Proof. unfold try_all. intros Hp. by rewrite exec_try_catch, Hp. Qed.

#[export] Instance net_tracks `{Gives} : TracksIn net_protocol delivery Q.
Proof.
  intros [rl u ph|rep] r w Hop HQ; [|done]. cbn [handle next op net_protocol] in *.
  rewrite client_follows by (intros x c ->; done).
  cbn [next session_protocol]. set (ph' := snext _ _ _ _ _ _ _). clearbody ph'. clear Hop ph r.
  destruct ph' as [p|p|p| | | | | | |x c]; cbn [settle enter_client];
    try (eexists w, _; split_and!; [apply hushed_refl|done|reflexivity|reflexivity]).
  unfold deliver. destruct (hop rl u (x, c)) as [n|] eqn:En; [destruct rl as [|rl]; [by rewrite hop_zero in En|]|].
  - destruct (net_step_enter rl n w) as (h & Hh & _ & Hex).
    eexists _, h. split_and!; [by apply (hushed_timer delivery), watchdog_noise|done|exact Hh|].
    rewrite <- Hex. assert (net_callback (S rl) u x c = net_step user_cb rl n) as ->
      by (unfold net_callback; by rewrite En).
    assert (exists w', exec (net_step user_cb rl n) w = (Returned tt, w')) as [w' Hw']
      by (rewrite Hex; unfold enter_with; simpl; destruct (match start_of with SDone _ _ => _ | _ => _ end); eauto).
    by eapply exec_try_returns.
  - assert (net_callback rl u x c = user_cb x c) as -> by (unfold net_callback; by rewrite En).
    destruct (gives x c w HQ) as [h Hg]. exists (w_heap (fun _ => h) w), (fun _ => mret tt).
    rewrite (exec_try_returns _ _ _ _ _ Hg), Hg.
    split_and!; [by split|by destruct rl|by destruct rl|].
    unfold enter_with. rewrite exec_emit_all. by destruct rl.
Qed.

(** *** What the sessions did *)

(** A session: its URL, and the replies its operations got. *)
Abbreviation session_run_of := (url * list net_reply)%type.
Definition session_answer (s : session_run_of) : list session_reply :=
  outcome (phases (sproto s.1) s.2 start_of).
Definition session_ops (s : session_run_of) : list net_op := visited (sproto s.1) s.2 start_of.


Lemma loop_hop rl u n rep reps :
  hop (S rl) u rep = Some n ->
  chain (S rl) u (rep :: reps) = u :: chain rl n reps /\
  final (S rl) u (rep :: reps) = final rl n reps /\
  next rproto (Fetching (S rl) u) rep = Fetching rl n.
Proof. intros En. cbn. by rewrite En, Nat.sub_0_r. Qed.

(** The replies fall into those of the session running and those of the sessions
    after it. *)
Lemma net_sessions rs : forall rl u ph,
  op (sproto u) ph <> None -> proper net_protocol rs (InSession rl u ph) ->
  exists seg rest,
    let reps := outcome (phases (sproto u) seg ph) ++ concat (map session_answer rest) in
    seg ++ concat (map snd rest) = rs /\
    u :: map fst rest = chain rl u reps /\
    visited net_protocol rs (InSession rl u ph) =
      visited (sproto u) seg ph ++ concat (map session_ops rest) /\
    said net_protocol rs (InSession rl u ph) = default [] (given <$> final rl u reps) /\
    (op net_protocol (phases net_protocol rs (InSession rl u ph)) = None <-> final rl u reps <> None) /\
    proper rproto reps (Fetching rl u) /\
    Forall (fun s => proper (sproto s.1) s.2 start_of) rest /\ proper (sproto u) seg ph.
Proof.
  induction rs as [|r rs IH]; intros rl u ph Hop Hp.
  - exists [], []. cbn. destruct ph; try done; cbn; split_and!; try done.
  - destruct Hp as [_ Hp]. cbn [next net_protocol] in Hp.
    destruct (op (sproto u) (next (sproto u) ph r)) as [o'|] eqn:Hnext.
    + assert (settle rl u (next (sproto u) ph r) = InSession rl u (next (sproto u) ph r)) as Hset
        by (by destruct (next (sproto u) ph r)).
      rewrite Hset in Hp. destruct (IH rl u _ ltac:(by rewrite Hnext) Hp)
        as (seg & rest & H1 & H2 & H3 & H4 & H5 & H6 & H7 & H8).
      exists (r :: seg), rest. cbn [phases visited said next net_protocol says op app proper] in *.
      rewrite Hset. split_and!; try done; [by rewrite <- H1|by rewrite H3, <- !app_assoc].
    + destruct (next (sproto u) ph r) as [| | | | | | | | |x c] eqn:Hd; try done.
      cbn [settle] in *. destruct (hop rl u (x, c)) as [n|] eqn:En; [destruct rl as [|rl]; [by rewrite hop_zero in En|]|].
      * destruct (IH rl n start_of) as (seg & rest & H1 & H2 & H3 & H4 & H5 & H6 & H7 & H8); [..|exact Hp|].
        { pose proof (start_connecting params proxy_setting). by destruct start_of. }
        exists [r], ((n, seg) :: rest). cbn zeta in *.
        assert (outcome (phases (sproto u) [r] ph) = [(x, c)]) as -> by (cbn in Hd |- *; by rewrite Hd).
        change (concat (map session_answer ((n, seg) :: rest)))
          with (outcome (phases (sproto n) seg start_of) ++ concat (map session_answer rest)).
        set (reps := outcome _ ++ _) in *. cbn [app].
        destruct (loop_hop rl u n (x, c) reps En) as (-> & -> & Hnx).
        cbn [phases visited said next net_protocol says app proper] in *. rewrite Hd. cbn [settle]. rewrite En.
        cbn [visited said says phases op net_protocol app map concat fst snd]. rewrite H3, Hnx, <- H2.
        split_and!; try done; [by rewrite <- H1|by rewrite <- !app_assoc|by constructor].
      * destruct rs as [|r' rs]; [|by destruct Hp]. exists [r], [].
        cbn zeta. assert (outcome (phases (sproto u) [r] ph) = [(x, c)]) as -> by (cbn in Hd |- *; by rewrite Hd).
        cbn [phases visited said next net_protocol says app proper map concat url_chain final_reply] in *.
        rewrite Hd. cbn [settle app url_chain final_reply]. rewrite En. cbn. by rewrite !app_nil_r.
Qed.

(** A session takes at most seven operations. *)
Definition ops_left (ph : sphase) : nat :=
  match ph with
  | SResolveProxy _ => 7 | SConnectProxy _ => 6 | SWriteProxy _ => 5 | SReadProxy => 4
  | SResolve => 5 | SConnect => 4 | SHandshake => 3 | SWrite => 2 | SRead => 1
  | SDone _ _ => 0
  end.

Lemma session_ops_bound seg u ph : proper (sproto u) seg ph -> length (visited (sproto u) seg ph) <= ops_left ph.
Proof.
  apply (visited_rank (sproto u) ops_left). intros ph' Hop. cbn in Hop. split; [destruct ph'; try done; cbn; lia|].
  intros r. destruct ph'; try done; cbn [next session_protocol snext]; unfold fail_or, connected, written;
    repeat case_match; cbn; lia.
Qed.

Lemma sessions_bound (l : list session_run_of) :
  Forall (fun s => proper (sproto s.1) s.2 start_of) l -> length (concat (map session_ops l)) <= 7 * length l.
Proof.
  assert (ops_left start_of <= 7) as H7
    by (unfold start_phase; destruct params.(no_modify_req), proxy_setting; cbn; lia).
  induction 1 as [|[u seg] l Hs Hl IH]; [done|]. cbn [map concat length]. rewrite length_app.
  pose proof (session_ops_bound seg u start_of Hs). unfold session_ops at 1. cbn [fst snd] in *. lia.
Qed.

(** A world at rest, with these cells. *)
Definition world_at {O R X} (h : list val) : world O R X := mkWorld h [] 0 [] 0 [] [] [] [] [] false.

(** A request from such a world, session by session. *)
Lemma net_request_runs `{Gives} u es h (w : wrld) :
  Q h -> steps es (run (net_http_request user_cb u) (world_at h)) = Some w ->
  exists sessions : list session_run_of,
    let reps := concat (map session_answer sessions) in
    concat (map snd sessions) = op_replies es /\ map fst sessions = chain 5 u reps /\
    w.(started) = concat (map session_ops sessions) /\
    omap delivery w.(trace) = omap delivery (default [] (given <$> final 5 u reps)) /\
    (w.(ops) = [] <-> final 5 u reps <> None) /\
    proper rproto reps (Fetching 5 u) /\
    length sessions <= 6 /\ length w.(started) <= 42 /\
    w.(faulted) = false /\ w.(escaped) = [].
Proof.
  intros HQ Hs. set (w0 := w_timer params.(resolve_timeout) watchdog (world_at h : wrld)).
  destruct (net_step_enter 5 u (world_at h)) as (h0 & _ & Hh & Hex). rewrite Hh in Hex by done.
  assert (Hrun : run (net_http_request user_cb u) (world_at h) =
    run (enter net_protocol (InSession 5 u start_of)) w0) by (unfold run, net_http_request; by rewrite Hex).
  destruct (protocol_runs_in net_protocol delivery Q _ (InSession 5 u start_of) (world_at h) w0 es w
    eq_refl eq_refl eq_refl eq_refl ltac:(by constructor; [apply watchdog_noise|constructor])
    eq_refl eq_refl eq_refl HQ Hrun Hs) as (Ht & Hst & Hops & Hpr & Hf & He).
  destruct (net_sessions (op_replies es) 5 u start_of) as (seg & rest & H1 & H2 & H3 & H4 & H5 & H6 & H7 & H8);
    [pose proof (start_connecting params proxy_setting); by destruct start_of|done|].
  exists ((u, seg) :: rest). cbn zeta in *.
  change (concat (map session_answer ((u, seg) :: rest)))
    with (outcome (phases (sproto u) seg start_of) ++ concat (map session_answer rest)).
  set (reps := outcome _ ++ _) in *.
  assert (Hlen : length ((u, seg) :: rest) <= 6).
  { pose proof (url_chain_bound req_template params 5 u reps) as Hb. rewrite <- H2 in Hb.
    cbn in Hb |- *. by rewrite length_map in Hb. }
  rewrite Ht, H4, Hops, H5, Hst, H3.
  split_and!; try done.
  change (length (concat (map session_ops ((u, seg) :: rest))) <= 42).
  apply (Nat.le_trans _ (7 * length ((u, seg) :: rest))); [|lia].
  apply sessions_bound. by constructor.
Qed.
End loop.

#[export] Instance record_gives : Gives record (fun rep => [Deliver rep.1 rep.2]) any_cells.
Proof. intros x c w _. exists w.(heap). by destruct w. Qed.

(** C3: A request with its redirects, down to the network: under every schedule of
    replies and of the resolvers' watchdogs, the replies split among at most six
    sessions, each of which starts the operations of its own machine; the run of
    the redirect loop in which every session answers what its machine answers
    exists, runs these sessions in this order and delivers exactly what the
    request delivered; nothing is left to wait for in the one exactly when nothing
    is in the other, and then the callback has been called once.  Every request
    ends: it starts at most forty-two operations. *)
Theorem http_request_over_network_refines u es (w : wrld) :
  steps es (run (net_http_request record u) world0) = Some w ->
  exists (sessions : list (url * list net_reply)) (w' : world session_op session_reply session_reply),
    concat (map snd sessions) = op_replies es /\
    w.(started) = concat (map session_ops sessions) /\
    steps (schedule 0 (concat (map session_answer sessions)))
      (run (http_request req_template params proxy_setting emit u) world0) = Some w' /\
    w'.(started) = map (session_for req_template params proxy_setting) (map fst sessions) /\
    w'.(trace) = omap delivery w.(trace) /\
    (w.(ops) = [] <-> w'.(ops) = []) /\ (w.(ops) = [] <-> length (omap delivery w.(trace)) = 1) /\
    length sessions <= 6 /\ length w.(started) <= 42 /\
    w.(faulted) = false /\ w.(escaped) = [].
Proof.
  intros Hs. destruct (net_request_runs record _ any_cells u es [] w I Hs)
    as (sessions & H1 & H2 & H3 & H4 & H5 & H6 & H7 & H8 & H9 & H10).
  exists sessions. set (reps := concat (map session_answer sessions)) in *.
  destruct (redirect_loop_schedule req_template params proxy_setting emit reps 5 u world0 H6) as [w' Hw'];
    [done..|]. exists w'.
  pose proof (redirect_loop_runs req_template params proxy_setting emit _ 5 u world0 w' quiet_emit
    eq_refl eq_refl eq_refl Hw') as Hl.
  cbv zeta in Hl. change (nops world0) with 0 in Hw'. rewrite op_replies_schedule in Hl.
  assert (Hsplit : w'.(started) = map (session_for req_template params proxy_setting) (chain 5 u reps) /\
    w'.(trace) = option_list (final 5 u reps) /\ (w'.(ops) = [] <-> final 5 u reps <> None)).
  { destruct (final 5 u reps); [by subst w'|]. by destruct Hl as [o ->]. }
  destruct Hsplit as (-> & -> & ->). rewrite H4, H5, <- H2. split_and!; try done; by destruct (final 5 u reps) as [[]|].
Qed.
End net.

(** ** Witness: one redirect, over two plain connections *)

Definition net_demo_ok : net_reply := mkReply None 0 demo_found true [] true.
Definition net_demo_moved : net_reply := mkReply None 0 demo_moved true [] true.
Definition net_demo_schedule : list (event net_reply) :=
  [EvOp 0 net_demo_ok; EvOp 1 net_demo_ok; EvTimer 0 None; EvOp 2 net_demo_ok; EvOp 3 net_demo_moved;
   EvOp 4 net_demo_ok; EvOp 5 net_demo_ok; EvOp 6 net_demo_ok; EvTimer 1 None; EvOp 7 net_demo_ok].
Definition net_demo_world : world net_op net_reply session_obs :=
  default world0 (steps net_demo_schedule
    (run (net_http_request (H := demo_urls) demo_get default_params None StringBody (fun _ => true) record demo_url)
       world0)).

Lemma http_request_over_network_refines_witness :
  omap delivery net_demo_world.(trace) = [(Some demo_found, 0%Z)] /\
  length net_demo_world.(started) = 8 /\ length net_demo_world.(started) <= 42.
Proof.
  split_and!; [vm_compute; reflexivity|vm_compute; reflexivity|].
  edestruct (http_request_over_network_refines (H := demo_urls) demo_get default_params None StringBody
    (fun _ => true) demo_url net_demo_schedule net_demo_world)
    as (? & ? & _ & _ & _ & _ & _ & _ & _ & _ & Hlen & _); [vm_compute; reflexivity|exact Hlen].
Defined.
