(* ===== verification/StreamRequest.v ===== *)
(** * Streaming requests ([src/include/http_client_manager.hpp], [http_request_stream],
    and [src/include/http_session_stream.hpp])

    The whole of a streaming request: the manager starts a session that connects as
    in [HttpSession] and then reads with [read_some_loop]; the handler of a read is
    proved to do what the function [HttpSessionStream.on_read_some] says.  The loop
    reads for as long as the server sends: the model follows it for [fuel] reads and
    then looks no further, and the theorem is about schedules with fewer replies. *)

From Stdlib Require Import ZArith Lia Ascii String.
From stdpp Require Import base list gmap strings.
From S2P Require Import Prelude Json ResultMonad Asio IoMonad Protocol Http HttpSession HttpSessionStream ConnectionPool HttpManager.

Section session_stream.
Abbreviation prg := (prog net_op net_reply session_obs).
Context (params : HttpClientRequestParams).
Context (on_headers : option (Z -> fields -> prg unit)) (on_chunk : option (str -> prg unit)).
Context (callback : option response -> Z -> prg unit).
Abbreviation accumulate := params.(accumulate_response_body).

(** [parser_->release()]. *)
Definition release_response (r : net_reply) (body : str) : response :=
  mkResponse r.(n_response).(s_status) r.(n_response).(s_fields) body r.(n_response).(s_keep_alive).

Definition call_on_headers (delivered : bool) (r : net_reply) : prg bool :=
  if negb delivered && r.(n_header_done) then
    match on_headers with
    | Some f => f r.(n_response).(s_status) (copy_fields r.(n_response).(s_fields))
    | None => mret tt
    end;;
    mret true
  else mret delivered.

(** The body kept in the parser and [last_body_size_]. *)
Definition call_on_chunk (last : nat) (body : str) : prg (str * nat) :=
  match on_chunk with
  | Some f =>
      if (last <? length body)%nat then
        f (drop last body);;
        mret (if accumulate then (body, length body) else ([], 0))
      else mret (body, last)
  | None => mret (body, last)
  end.

Fixpoint read_some_loop (fuel : nat) (st : stream_state) : prg unit :=
  match fuel with
  | 0 => mret tt
  | S fuel' =>
      start (NReadSome (stream_body_limit accumulate) (op_timeout params)) (fun r =>
        let body := st.(st_body) ++ r.(n_appended) in
        match r.(n_ec) with
        | Some _ => deliver callback (Some (release_response r body)) 8
        | None =>
            hd ← call_on_headers st.(headers_delivered) r;
            kept ← call_on_chunk st.(last_body_size) body;
            if r.(n_done) then deliver callback (Some (release_response r kept.1)) 0
            else read_some_loop fuel' (mkStream kept.1 kept.2 hd false)
        end)
  end.

Definition stream_do_read (fuel : nat) : prg unit := read_some_loop fuel stream_start.

Definition stream_session_run (fuel : nat) (is_ssl : bool) (u : url) (proxy_setting : option ProxySetting)
    (req0 : request) (set_tlsext_host_name : str -> bool) : prg unit :=
  session_run is_ssl u params proxy_setting req0 set_tlsext_host_name callback (stream_do_read fuel).
End session_stream.

(** Redirects are never followed. *)
Definition no_redirect (params : HttpClientRequestParams) : HttpClientRequestParams :=
  mkParams params.(body_file) false params.(no_modify_req) params.(accumulate_response_body) params.(prm_timeout)
    params.(resolve_timeout) params.(prm_connect_timeout) params.(prm_handshake_timeout) params.(prm_io_timeout).

Definition http_request_stream (fuel : nat) (set_tlsext_host_name : str -> bool) (u : url) (req : request)
    (on_headers : option (Z -> fields -> prog net_op net_reply session_obs unit))
    (on_chunk : option (str -> prog net_op net_reply session_obs unit))
    (callback : option response -> Z -> prog net_op net_reply session_obs unit)
    (params : HttpClientRequestParams) (proxy_setting : option ProxySetting) : prog net_op net_reply session_obs unit :=
  let params := if params.(follow_redirect) then no_redirect params else params in
  let req := if params.(no_modify_req) then req else update_request_target_for_url req u in
  stream_session_run params on_headers on_chunk callback fuel (bool_decide (u.(u_scheme) = lit "https")) u
    proxy_setting req set_tlsext_host_name.

(** ** The request as a state machine *)

Section machine.
Context (is_ssl : bool) (u : url) (params : HttpClientRequestParams)
        (proxy_setting : option ProxySetting) (req0 : request) (set_tlsext_host_name : str -> bool).
Context (has_on_headers has_on_chunk : bool) (fuel0 : nat).
Abbreviation prg := (prog net_op net_reply session_obs).
Abbreviation wrld := (world net_op net_reply session_obs).
Abbreviation accumulate := params.(accumulate_response_body).

Definition record_headers : option (Z -> fields -> prg unit) :=
  if has_on_headers then Some (fun s f => emit (GotHeaders s f)) else None.
Definition record_chunk : option (str -> prg unit) :=
  if has_on_chunk then Some (fun c => emit (GotChunk c)) else None.
Abbreviation loop := (read_some_loop params record_headers record_chunk record).

(** A reply as the functional loop sees it, and what that loop calls. *)
Definition some_of (r : net_reply) : read_some :=
  mkReadSome (match r.(n_ec) with Some (NetError m) => Some m | Some BodyLimit => Some [] | None => None end)
    r.(n_header_done) r.(n_response).(s_status) r.(n_response).(s_fields) r.(n_appended) r.(n_done).
Definition obs_of (r : net_reply) (x : stream_obs) : session_obs :=
  match x with
  | OnHeaders s f => GotHeaders s f
  | OnChunk c => GotChunk c
  | StreamDeliver _ _ body code => Deliver (Some (release_response r body)) code
  end.
Abbreviation read_one := (on_read_some accumulate has_on_headers has_on_chunk).

(** [TReading] and [TEnded] carry what is called on the way there. *)
Inductive tphase :=
  | TConnecting (ph : sphase)
  | TReading (fuel : nat) (st : stream_state) (calls : list session_obs)
  | TEnded (calls : list session_obs).

Definition tnext_read (fuel : nat) (st : stream_state) (r : net_reply) : tphase :=
  let '(st', xs) := read_one st (some_of r) in
  if st'.(st_ended) then TEnded (map (obs_of r) xs) else TReading fuel st' (map (obs_of r) xs).

Definition tnext (ph : tphase) (r : net_reply) : tphase :=
  match ph with
  | TConnecting ph =>
      match cnext is_ssl u params StringBody set_tlsext_host_name ph r with
      | SRead => TReading fuel0 stream_start []
      | ph' => TConnecting ph'
      end
  | TReading (S fuel) st _ => tnext_read fuel st r
  | _ => ph
  end.

Definition thandle (ph : tphase) (r : net_reply) : prg unit :=
  match ph with
  | TConnecting ph => handler_of is_ssl u params StringBody req0 set_tlsext_host_name record (loop fuel0 stream_start) ph r
  | TReading (S fuel) st _ =>
      let body := st.(st_body) ++ r.(n_appended) in
      match r.(n_ec) with
      | Some _ => deliver record (Some (release_response r body)) 8
      | None =>
          hd ← call_on_headers record_headers st.(headers_delivered) r;
          kept ← call_on_chunk params record_chunk st.(last_body_size) body;
          if r.(n_done) then deliver record (Some (release_response r kept.1)) 0
          else loop fuel (mkStream kept.1 kept.2 hd false)
      end
  | _ => mret tt
  end.

Definition stream_protocol : protocol net_op net_reply session_obs := {|
  phase := tphase;
  op := fun ph =>
    match ph with
    | TConnecting ph => if connecting ph then Some (op_of is_ssl u params StringBody req0 ph) else None
    | TReading (S _) _ _ => Some (NReadSome (stream_body_limit accumulate) (op_timeout params))
    | _ => None
    end;
  says := fun ph =>
    match ph with
    | TConnecting (SDone r code) => [Deliver r code]
    | TConnecting _ => []
    | TReading _ _ xs | TEnded xs => xs
    end;
  next := tnext;
  handle := thandle;
|}.

Lemma enter_reading fuel st xs (w : wrld) :
  exec (enter stream_protocol (TReading fuel st xs)) w = exec (emit_all xs (loop fuel st)) w.
Proof. unfold enter, enter_with. cbn [says op stream_protocol]. rewrite !exec_emit_all. by destruct fuel. Qed.

(** The handler of a read does what the functional loop says. *)
Lemma thandle_read fuel st calls r (w : wrld) :
  exec (thandle (TReading (S fuel) st calls) r) w = exec (enter stream_protocol (tnext_read fuel st r)) w.
Proof.
  unfold tnext_read, on_read_some. destruct r as [ec stat resp hd ap dn].
  cbn [thandle n_ec n_appended n_done some_of rs_ec rs_done rs_appended rs_status rs_fields].
  destruct ec as [ec|]; [rewrite deliver_exec; by destruct ec|].
  unfold call_on_headers, call_on_chunk, give_headers, give_chunk, record_headers, record_chunk.
  cbn [n_header_done rs_header_done n_response some_of]. rewrite (andb_comm _ has_on_chunk).
  destruct (negb (headers_delivered st) && hd), has_on_headers eqn:Eh, has_on_chunk eqn:Ec; cbn [andb];
    try (destruct (last_body_size st <? length (st_body st ++ ap)));
    destruct accumulate, dn; cbn [st_ended]; rewrite ?enter_reading; cbn; rewrite ?deliver_exec;
    unfold record_headers, record_chunk; rewrite ?Eh, ?Ec; reflexivity.
Qed.

#[export] Instance stream_follows : Follows stream_protocol.
Proof.
  intros ph r w Hop. destruct ph as [ph|[|fuel] st calls|calls]; try done.
  - cbn [op stream_protocol] in Hop. destruct (connecting ph) eqn:Hc; [|done].
    cbn [handle next stream_protocol thandle tnext]. rewrite connect_follows by done.
    destruct (cnext _ _ _ _ _ ph r); try done. by rewrite enter_reading.
  - apply thandle_read.
Qed.

(** *** What the machine says *)

Definition seen (x : session_obs) : option session_obs :=
  match x with CancelResolver => None | _ => Some x end.
Definition chunk_seen (x : session_obs) : option str := match x with GotChunk c => Some c | _ => None end.
Definition headers_seen (x : session_obs) : option (Z * fields) :=
  match x with GotHeaders s f => Some (s, f) | _ => None end.
(** A delivery with a response, by its body. *)
Definition body_seen (x : session_obs) : option (str * Z) :=
  match x with Deliver (Some r) c => Some (r.(s_body), c) | _ => None end.
Definition lost_seen (x : session_obs) : option Z := match x with Deliver None c => Some c | _ => None end.

Abbreviation reading_loop := (read_loop accumulate has_on_headers has_on_chunk).

(** The calls of the functional loop, as observations. *)
Definition agree (zs : list session_obs) (ys : list stream_obs) : Prop :=
  omap chunk_seen zs = chunks ys /\ omap headers_seen zs = header_calls ys /\
  omap body_seen zs = stream_deliveries ys /\ omap lost_seen zs = [] /\ omap seen zs = zs.

Lemma agree_obs r ys : agree (map (obs_of r) ys) ys.
Proof.
  unfold agree, chunks, header_calls, stream_deliveries.
  induction ys as [|y ys (H1 & H2 & H3 & H4 & H5)]; [done|]. by destruct y; csimpl; rewrite ?H1, ?H2, ?H3, ?H4, ?H5.
Qed.
Lemma agree_app zs zs' ys ys' : agree zs ys -> agree zs' ys' -> agree (zs ++ zs') (ys ++ ys').
Proof.
  intros (H1 & H2 & H3 & H4 & H5) (H1' & H2' & H3' & H4' & H5').
  unfold agree, chunks, header_calls, stream_deliveries in *.
  by rewrite !omap_app, H1, H2, H3, H4, H5, H1', H2', H3', H4', H5'.
Qed.

Lemma read_one_ended st r :
  (read_one st r).1.(st_ended) = true <-> rs_ec r <> None \/ rs_done r = true.
Proof.
  unfold on_read_some. destruct (rs_ec r); [split; [by left|done]|].
  destruct (give_headers _ _ _), (give_chunk _ _ _ _) as [[? ?] ?].
  destruct (rs_done r); cbn; split; auto; try done. intros [|]; done.
Qed.

Lemma said_reading rs : forall fuel st xs,
  st.(st_ended) = false -> length rs < fuel -> proper stream_protocol rs (TReading fuel st xs) ->
  exists zs, said stream_protocol rs (TReading fuel st xs) = xs ++ zs /\
    agree zs (reading_loop st (map some_of rs)).2 /\ reads_ok (map some_of rs) /\
    (op stream_protocol (phases stream_protocol rs (TReading fuel st xs)) = None <->
     (reading_loop st (map some_of rs)).1.(st_ended) = true).
Proof.
  induction rs as [|r rs IH]; intros [|fuel] st xs He Hl Hp; cbn [length] in Hl; try lia.
  - exists []. cbn. by rewrite He.
  - cbn [proper] in Hp. destruct Hp as [_ Hp].
    cbn [said phases map read_loop reads_ok next stream_protocol tnext says] in *. rewrite He.
    pose proof (read_one_ended st (some_of r)) as Hend. unfold tnext_read in *.
    destruct (read_one st (some_of r)) as [st1 ys]. cbn [fst] in Hend. destruct (st_ended st1) eqn:He1.
    + destruct rs as [|r' rs]; [|by destruct Hp]. exists (map (obs_of r) ys). cbn. rewrite !app_nil_r.
      split_and!; try done; apply agree_obs.
    + destruct (IH fuel st1 (map (obs_of r) ys) He1 ltac:(lia) Hp) as (zs & Hs & Ha & Hr & Ho).
      exists (map (obs_of r) ys ++ zs). rewrite Hs.
      destruct (reading_loop st1 (map some_of rs)) as [st2 ys2]. cbn [fst snd] in *. split_and!; try done.
      * apply agree_app; [apply agree_obs|exact Ha].
      * intros Hx. by apply Hend in Hx.
Qed.

(** The replies that come after the request has been written. *)
Fixpoint reads_after (rs : list net_reply) (ph : sphase) : list net_reply :=
  match rs with
  | [] => []
  | r :: rs' =>
      match cnext is_ssl u params StringBody set_tlsext_host_name ph r with
      | SRead => rs'
      | ph' => reads_after rs' ph'
      end
  end.

Lemma cnext_done ph r x c :
  connecting ph = true -> cnext is_ssl u params StringBody set_tlsext_host_name ph r = SDone x c ->
  x = None /\ code_ok is_ssl StringBody None c.
Proof.
  unfold code_ok. intros Hc. destruct ph; try done; cbn; unfold fail_or, connected; repeat case_match; intros [=]; subst;
    (split; [done|]); first [left; set_solver|by right; left].
Qed.

(** A request is still connecting, has failed to, or reads. *)
Lemma said_connecting rs : forall ph,
  connecting ph = true -> proper stream_protocol rs (TConnecting ph) ->
  (exists ph', connecting ph' = true /\ phases stream_protocol rs (TConnecting ph) = TConnecting ph' /\
     said stream_protocol rs (TConnecting ph) = [] /\ reads_after rs ph = []) \/
  (exists c, code_ok is_ssl StringBody None c /\ phases stream_protocol rs (TConnecting ph) = TConnecting (SDone None c) /\
     said stream_protocol rs (TConnecting ph) = [Deliver None c] /\ reads_after rs ph = []) \/
  (phases stream_protocol rs (TConnecting ph) = phases stream_protocol (reads_after rs ph) (TReading fuel0 stream_start []) /\
   said stream_protocol rs (TConnecting ph) = said stream_protocol (reads_after rs ph) (TReading fuel0 stream_start []) /\
   proper stream_protocol (reads_after rs ph) (TReading fuel0 stream_start []) /\ length (reads_after rs ph) <= length rs).
Proof.
  induction rs as [|r rs IH]; intros ph Hc Hp.
  - left. exists ph. split_and!; try done. cbn. rewrite app_nil_r. by destruct ph.
  - destruct Hp as [_ Hp]. cbn [said phases reads_after next stream_protocol tnext] in *.
    assert (says stream_protocol (TConnecting ph) = []) as -> by (by destruct ph). cbn [app].
    destruct (connecting (cnext is_ssl u params StringBody set_tlsext_host_name ph r)) eqn:Hc'.
    + specialize (IH _ Hc'). destruct (cnext is_ssl u params StringBody set_tlsext_host_name ph r); try done;
        (destruct (IH Hp) as [H|[H|(H1 & H2 & H3 & H4)]]; [by left|by right; left|right; right; split_and!; try done; cbn; lia]).
    + destruct (cnext is_ssl u params StringBody set_tlsext_host_name ph r) eqn:Hn; try done.
      * right; right. split_and!; try done. cbn. lia.
      * destruct (cnext_done _ _ _ _ Hc Hn) as [-> Hcode].
        destruct rs as [|r' rs]; [|by destruct Hp]. right; left. by exists code.
Qed.
End machine.

(** *** From the launch on *)

Lemma omap_seen {Y} (f : session_obs -> option Y) (l : list session_obs) :
  f CancelResolver = None -> omap f (omap seen l) = omap f l.
Proof. intros Hf. induction l as [|x l IH]; [done|]. destruct x; csimpl; rewrite ?Hf, ?IH; done. Qed.

Lemma deliveries_split (l : list session_obs) :
  length (omap delivery l) = length (omap body_seen l) + length (omap lost_seen l).
Proof. induction l as [|x l IH]; [done|]. destruct x as [[r|] c| | |]; csimpl; lia. Qed.

Lemma watchdog_unseen : noise seen watchdog.
Proof. intros [m|] w; [by exists []|by exists [CancelResolver]]. Qed.

Lemma visited_Forall {O R X} (P : protocol O R X) (Q : O -> Prop) rs ph :
  (forall ph' o, op P ph' = Some o -> Q o) -> Forall Q (visited P rs ph).
Proof.
  intros HQ. revert ph. induction rs as [|r rs IH]; intros ph; cbn; apply Forall_app; split; auto;
    destruct (op P ph) eqn:E; cbn; repeat constructor; by eapply HQ.
Qed.

(** The parameters and the request the session gets. *)
Definition stream_params (params : HttpClientRequestParams) : HttpClientRequestParams :=
  if params.(follow_redirect) then no_redirect params else params.
Definition stream_target (params : HttpClientRequestParams) (u : url) (req : request) : request :=
  if params.(no_modify_req) then req else update_request_target_for_url req u.

Section correct.
Context (fuel : nat) (set_tlsext_host_name : str -> bool) (u : url) (req : request)
        (params : HttpClientRequestParams) (proxy_setting : option ProxySetting) (has_on_headers : bool).
Abbreviation wrld := (world net_op net_reply session_obs).
Abbreviation is_ssl := (bool_decide (u.(u_scheme) = lit "https")).

Definition stream_launch : wrld :=
  run (http_request_stream fuel set_tlsext_host_name u req (record_headers has_on_headers) (record_chunk true)
         record params proxy_setting) world0.

(** The reads, given the replies to all the operations. *)
Definition reads_of (rs : list net_reply) : list read_some :=
  map some_of (reads_after is_ssl u (stream_params params) set_tlsext_host_name rs
                 (start_phase (stream_params params) proxy_setting)).

Abbreviation proto :=
  (stream_protocol is_ssl u (stream_params params) (stream_target params u req) set_tlsext_host_name
     has_on_headers true fuel).

Lemma stream_params_no_modify : (stream_params params).(no_modify_req) = params.(no_modify_req).
Proof. unfold stream_params. by destruct (follow_redirect params). Qed.

Lemma stream_starts :
  stream_launch =
  run (enter proto (TConnecting (start_phase (stream_params params) proxy_setting)))
    (w_timer (stream_params params).(resolve_timeout) watchdog world0).
Proof.
  unfold stream_launch, http_request_stream. fold (stream_params params).
  pose proof stream_params_no_modify as Hn. rewrite Hn. fold (stream_target params u req).
  unfold stream_session_run, stream_do_read.
  unfold run. edestruct (session_starts is_ssl u (stream_params params) proxy_setting StringBody
    (stream_target params u req) set_tlsext_host_name record) as (h & _ & Hh & ->).
  rewrite Hh by done. pose proof (start_connecting (stream_params params) proxy_setting).
  unfold enter. by destruct (start_phase _ _).
Qed.

(** C12: A streaming request to its end, under every schedule of replies and of the
    resolver's watchdog: the chunks given to [on_chunk], joined, are the body
    bytes read without error, headers come at most once, and the callback is called
    at most once, exactly when the session waits for nothing more - with the whole
    body and code 0, or without it when bodies are not accumulated, with code 8
    after a failed read, or without a response and with the code of a failed
    connection, and then no chunk was given.  The request written is the one given,
    with the target of the URL and the Host field unless they must not be changed. *)
Theorem stream_request_correct es (w : wrld) :
  steps es stream_launch = Some w -> length (op_replies es) < fuel ->
  let reads := reads_of (op_replies es) in
  concat (omap chunk_seen w.(trace)) = received reads /\
  length (omap headers_seen w.(trace)) <= 1 /\
  length (omap delivery w.(trace)) <= 1 /\
  (w.(ops) = [] <-> length (omap delivery w.(trace)) = 1) /\
  (forall b c, (b, c) ∈ omap body_seen w.(trace) ->
     c = 8%Z \/ (c = 0%Z /\ b = if params.(accumulate_response_body) then received reads else [])) /\
  (forall c, c ∈ omap lost_seen w.(trace) ->
     code_ok is_ssl StringBody None c /\ omap chunk_seen w.(trace) = []) /\
  Forall (fun o => match o with
                   | NWrite q _ => q = sent u params (stream_target params u req)
                   | _ => True
                   end) w.(started) /\
  w.(faulted) = false /\ w.(escaped) = [].
Proof.
  intros Hs Hfuel reads.
  set (ph0 := start_phase (stream_params params) proxy_setting).
  set (w0 := w_timer (stream_params params).(resolve_timeout) watchdog world0).
  pose proof stream_starts as Hrun. fold ph0 w0 in Hrun. unfold stream_launch in Hrun, Hs.
  destruct (protocol_runs proto seen _ (TConnecting ph0) w0 es w eq_refl eq_refl eq_refl eq_refl
    ltac:(by constructor; [apply watchdog_unseen|constructor]) eq_refl eq_refl eq_refl Hrun Hs)
    as (Ht & Hst & Hops & Hpr & Hf & He).
  assert (forall Y (f : session_obs -> option Y), f CancelResolver = None ->
    omap f w.(trace) = omap f (said proto (op_replies es) (TConnecting ph0))) as Hobs.
  { intros Y f Hc. by rewrite <- (omap_seen f (trace w)), Ht, (omap_seen f) by done. }
  rewrite deliveries_split, !Hobs by done. rewrite Hops.
  assert (sent u (stream_params params) (stream_target params u req) = sent u params (stream_target params u req)) as Hsent.
  { unfold sent. by rewrite stream_params_no_modify. }
  assert ((stream_params params).(accumulate_response_body) = params.(accumulate_response_body)) as Hacc.
  { unfold stream_params. by destruct (follow_redirect params). }
  assert (Forall (fun o => match o with NWrite q _ => q = sent u params (stream_target params u req) | _ => True end)
    w.(started)) as Hwrite.
  { rewrite Hst. apply visited_Forall. intros ph' o Ho. destruct ph' as [ph'|[|f] ? ?|?]; cbn in Ho; simplify_eq/=; try done.
    destruct ph'; simplify_eq/=; done. }
  pose proof (start_connecting (stream_params params) proxy_setting) as Hconn. fold ph0 in Hconn.
  destruct (said_connecting is_ssl u (stream_params params) (stream_target params u req) set_tlsext_host_name
    has_on_headers true fuel _ _ Hconn Hpr)
    as [(ph' & Hc' & Hp & Hsd & Hr)|[(c & Hcode & Hp & Hsd & Hr)|(Hp & Hsd & Hpr' & Hlen)]];
    subst reads; unfold reads_of; fold ph0.
  - rewrite Hsd, Hp, Hr. cbn. rewrite Hc'. split_and!; try done; set_solver.
  - rewrite Hsd, Hp, Hr. cbn. split_and!; try done; try set_solver.
  - destruct (said_reading is_ssl u (stream_params params) (stream_target params u req) set_tlsext_host_name
      has_on_headers true fuel _ fuel stream_start [] eq_refl (Nat.le_lt_trans _ _ _ Hlen Hfuel) Hpr')
      as (zs & Hz & (A1 & A2 & A3 & A4 & A5) & Hok & Hend).
    rewrite Hsd, Hz, Hp, Hend. cbn [app]. rewrite A1, A2, A3, A4.
    pose proof (read_loop_spec (stream_params params).(accumulate_response_body) has_on_headers true _ stream_start
      eq_refl eq_refl ltac:(by split) Hok) as Hspec.
    destruct (read_loop _ _ _ _ _) as [st xs]. cbn [fst snd] in *. rewrite Hacc in Hspec.
    destruct Hspec as (S1 & S2 & S3 & S4 & S5). cbn [length] in *. rewrite Nat.add_0_r. split_and!; try done.
    + intros b c Hb. rewrite Forall_forall in S5. exact (S5 _ Hb).
    + set_solver.
Qed.
End correct.

(** A plain request whose body comes in two pieces and is not accumulated. *)
Definition stream_request_params : HttpClientRequestParams := params_with_timeout None true false false 30.
Definition stream_request_url : url := mkUrl (lit "http") (lit "example.com") None (lit "/") (lit "/") [].
Definition stream_request_template : request := mkRequest (lit "GET") (lit "/") [] [] false.
Definition stream_ok : net_reply := mkReply None 0 (mkResponse 200 [] [] true) false [] false.
Definition stream_piece (text : str) (last : bool) : net_reply :=
  mkReply None 0 (mkResponse 200 [] [] true) true text last.
Definition stream_schedule : list (event net_reply) :=
  [EvOp 0 stream_ok; EvTimer 0 None; EvOp 1 stream_ok; EvOp 2 stream_ok;
   EvOp 3 (stream_piece (lit "hel") false); EvOp 4 (stream_piece (lit "lo") true)].
Definition stream_request_world : world net_op net_reply session_obs :=
  default world0 (steps stream_schedule
    (stream_launch 9 (fun _ => true) stream_request_url stream_request_template stream_request_params None true)).

Lemma stream_request_correct_witness :
  concat (omap chunk_seen stream_request_world.(trace)) = lit "hello" /\
  length (omap delivery stream_request_world.(trace)) = 1 /\ stream_request_world.(ops) = [].
Proof.
  destruct (stream_request_correct 9 (fun _ => true) stream_request_url stream_request_template
    stream_request_params None true stream_schedule stream_request_world) as (Hc & _ & _ & Hd & _).
  { vm_compute. reflexivity. }
  { vm_compute. repeat constructor. }
  split; [exact Hc|]. split; [vm_compute; reflexivity|]. apply Hd. vm_compute. reflexivity.
Defined.
