(* ===== verification/ProxyPool.v ===== *)
(** * The proxy pool ([src/include/proxy_pool.hpp])

    A list of proxies handed out in turn, and a blacklist with expiry times.
    Every public operation takes the pool's mutex, so an operation is one
    function of the pool.  [steady_clock::now()] is read several times during
    [next]: [clock k] is the [k]-th reading.  Indexing the vector out of range
    is undefined behaviour, which [None] stands for. *)

From Stdlib Require Import ZArith Lia Ascii String.
From stdpp Require Import base list gmap fin_maps strings.
From S2P Require Import Prelude Json ResultMonad Http.

#[export] Instance ProxySetting_countable : Countable ProxySetting.
Proof.
  refine (inj_countable'
    (fun p => (p.(p_host), p.(p_port), p.(p_username), p.(p_password), p.(p_from_env), p.(p_disabled)))
    (fun t => let '(h, po, u, pw, e, d) := t in mkProxy h po u pw e d) _).
  by intros [].
Defined.

(** ** State *)

Record ProxyPool := mkProxyPool {
  proxies : option (list ProxySetting);     (** [None]: a null pointer *)
  blacklist_ : gmap ProxySetting Z;         (** when each entry expires *)
  index_ : nat;
}.

Definition init_pool (selected : list ProxySetting) : ProxyPool :=
  mkProxyPool (Some selected) ∅ 0.

Definition entries_copy (p : ProxyPool) : list ProxySetting := default [] p.(proxies).
Definition proxies_size (p : ProxyPool) : nat :=
  match p.(proxies) with Some l => length l | None => 0 end.
Definition proxies_empty (p : ProxyPool) : bool :=
  match p.(proxies) with Some [] | None => true | _ => false end.

(** ** Operations *)

Definition replace_entries (entries : list ProxySetting) (p : ProxyPool) : ProxyPool :=
  mkProxyPool (Some entries) p.(blacklist_) 0.

(** The loop of [merge_entries]: [seen.insert(p).second]. *)
Fixpoint merge_loop (additions : list ProxySetting) (seen : gset ProxySetting)
    (current : list ProxySetting) : list ProxySetting :=
  match additions with
  | [] => current
  | a :: rest =>
      if decide (a ∈ seen) then merge_loop rest seen current
      else merge_loop rest ({[a]} ∪ seen) (current ++ [a])
  end.

Definition merge_entries (additions : list ProxySetting) (p : ProxyPool) : ProxyPool :=
  let current := default [] p.(proxies) in
  let merged := merge_loop additions (list_to_set current) current in
  mkProxyPool (Some merged) p.(blacklist_)
    (match merged with [] => 0 | _ => p.(index_) mod length merged end).

Definition is_blacklisted (bl : gmap ProxySetting Z) (now : Z) (x : ProxySetting) : bool :=
  match bl !! x with
  | None => false
  | Some expiry => (now <? expiry)%Z
  end.

Definition clean_expired (now : Z) (bl : gmap ProxySetting Z) : gmap ProxySetting Z :=
  filter (fun e => ~ (e.2 <= now)%Z) bl.

(** The [while] loop of [next]: [left] is the number of tries that remain. *)
Fixpoint next_loop (l : list ProxySetting) (bl : gmap ProxySetting Z) (clock : nat -> Z)
    (left tries i : nat) : option (option ProxySetting * nat) :=
  match left with
  | 0 => Some (None, i)
  | S left' =>
      match l !! i with
      | None => None
      | Some x =>
          let i' := (i + 1) mod length l in
          if is_blacklisted bl (clock (S tries)) x
          then next_loop l bl clock left' (S tries) i'
          else Some (Some x, i')
      end
  end.

Definition next (clock : nat -> Z) (p : ProxyPool) : option (option ProxySetting * ProxyPool) :=
  match p.(proxies) with
  | None | Some [] => Some (None, p)
  | Some l =>
      let bl := clean_expired (clock 0) p.(blacklist_) in
      '(r, i) ← next_loop l bl clock (length l) 0 p.(index_);
      Some (r, mkProxyPool (Some l) bl i)
  end.

Definition blacklist (x : ProxySetting) (timeout now : Z) (p : ProxyPool) : ProxyPool :=
  mkProxyPool p.(proxies) (<[x := (now + timeout)%Z]> p.(blacklist_)) p.(index_).

Definition reset_blacklist (p : ProxyPool) : ProxyPool :=
  mkProxyPool p.(proxies) ∅ p.(index_).

(** ** Histories *)

Inductive pool_op :=
  | OpReplace (entries : list ProxySetting)
  | OpMerge (additions : list ProxySetting)
  | OpNext (clock : nat -> Z)
  | OpBlacklist (x : ProxySetting) (timeout now : Z)
  | OpReset.

(** One operation, with what [next] returned. *)
Definition run_op (o : pool_op) (p : ProxyPool) : option (list (option ProxySetting) * ProxyPool) :=
  match o with
  | OpReplace l => Some ([], replace_entries l p)
  | OpMerge l => Some ([], merge_entries l p)
  | OpNext clock => '(r, p') ← next clock p; Some ([r], p')
  | OpBlacklist x t now => Some ([], blacklist x t now p)
  | OpReset => Some ([], reset_blacklist p)
  end.

Fixpoint run_ops (os : list pool_op) (p : ProxyPool) : option (list (option ProxySetting) * ProxyPool) :=
  match os with
  | [] => Some ([], p)
  | o :: os' =>
      '(r, p1) ← run_op o p;
      '(rs, p2) ← run_ops os' p1;
      Some (r ++ rs, p2)
  end.

(** ** The index stays in range *)

Definition pool_ok (p : ProxyPool) : Prop :=
  match p.(proxies) with
  | None => True
  | Some l => l = [] \/ p.(index_) < length l
  end.

Lemma next_loop_spec l bl clock left : forall tries i,
  i < length l ->
  exists r i', next_loop l bl clock left tries i = Some (r, i') /\
  match r with
  | Some x => exists k, k < left /\ l !! ((i + k) mod length l) = Some x /\
      is_blacklisted bl (clock (S (tries + k))) x = false /\
      i' = (i + k + 1) mod length l /\
      (forall j y, j < k -> l !! ((i + j) mod length l) = Some y ->
        is_blacklisted bl (clock (S (tries + j))) y = true)
  | None => i' = (i + left) mod length l /\
      (forall j y, j < left -> l !! ((i + j) mod length l) = Some y ->
        is_blacklisted bl (clock (S (tries + j))) y = true)
  end.
Proof.
  induction left as [|left IH]; intros tries i Hi; simpl.
  - exists None, i. split_and!; [done| |lia]. rewrite Nat.add_0_r, Nat.mod_small; lia.
  - destruct (lookup_lt_is_Some_2 l i Hi) as [x Hx]. rewrite Hx.
    set (n := length l) in *. assert (Hn : n <> 0) by lia.
    destruct (is_blacklisted bl (clock (S tries)) x) eqn:Eb.
    + destruct (IH (S tries) ((i + 1) mod n)) as (r & i' & Hr & Hs);
        [by apply Nat.mod_upper_bound|].
      exists r, i'. split; [done|].
      assert (Hshift : forall k, ((i + 1) mod n + k) mod n = (i + S k) mod n).
      { intros k. rewrite Nat.Div0.add_mod_idemp_l. f_equal. lia. }
      assert (Hprev : forall m, (forall j y, j < m -> l !! (((i + 1) mod n + j) mod n) = Some y ->
                is_blacklisted bl (clock (S (S tries + j))) y = true) ->
              forall j y, j < S m -> l !! ((i + j) mod n) = Some y ->
                is_blacklisted bl (clock (S (tries + j))) y = true).
      { intros m H [|j] y Hj Hy.
        - rewrite Nat.add_0_r, Nat.mod_small in Hy by lia. rewrite Nat.add_0_r. naive_solver.
        - rewrite <- Hshift in Hy. replace (tries + S j) with (S tries + j) by lia. eauto with lia. }
      destruct r as [y|].
      * destruct Hs as (k & Hk & Hy & Hb & -> & Hp). exists (S k).
        rewrite Hshift in Hy. split_and!; [lia|done| | |by apply Hprev].
        -- by replace (tries + S k) with (S tries + k) by lia.
        -- rewrite <- Nat.add_assoc, Hshift. f_equal. lia.
      * destruct Hs as (-> & Hp). rewrite Hshift. split; [done|by apply Hprev].
    + exists (Some x), ((i + 1) mod n). split; [done|]. exists 0.
      rewrite !Nat.add_0_r, (Nat.mod_small i) by lia. split_and!; auto with lia.
Qed.

(** What [next] does on a non-empty pool, as one statement. *)
Lemma next_spec clock p l :
  p.(proxies) = Some l -> p.(index_) < length l ->
  let bl := clean_expired (clock 0) p.(blacklist_) in
  exists r i', next clock p = Some (r, mkProxyPool (Some l) bl i') /\ i' < length l /\
  match r with
  | Some x => exists k, k < length l /\ l !! ((p.(index_) + k) mod length l) = Some x /\
      is_blacklisted bl (clock (S k)) x = false /\
      i' = (p.(index_) + k + 1) mod length l /\
      (forall j y, j < k -> l !! ((p.(index_) + j) mod length l) = Some y ->
        is_blacklisted bl (clock (S j)) y = true)
  | None => i' = p.(index_) /\
      (forall j y, j < length l -> l !! ((p.(index_) + j) mod length l) = Some y ->
        is_blacklisted bl (clock (S j)) y = true)
  end.
Proof.
  intros Hp Hi bl. unfold next. rewrite Hp.
  destruct (next_loop_spec l bl clock (length l) 0 p.(index_) Hi) as (r & i' & Hr & Hs).
  exists r, i'. fold bl. rewrite Hr. split; [destruct l; [simpl in Hi; lia|done]|].
  destruct r as [x|].
  - destruct Hs as (k & Hk & Hx & Hb & -> & Hj).
    split; [apply Nat.mod_upper_bound; lia|]. by exists k.
  - destruct Hs as [-> Hj]. rewrite <- Nat.Div0.add_mod_idemp_r, Nat.Div0.mod_same, Nat.add_0_r,
      Nat.mod_small by lia. auto.
Qed.

Lemma next_empty clock p : proxies_empty p = true -> next clock p = Some (None, p).
Proof. unfold proxies_empty, next. by destruct p.(proxies) as [[|]|]. Qed.

Lemma pool_ok_cases p :
  pool_ok p -> proxies_empty p = true \/ exists l, p.(proxies) = Some l /\ p.(index_) < length l.
Proof.
  unfold pool_ok, proxies_empty. destruct p.(proxies) as [[|a l]|]; eauto.
  intros [?|?]; [done|eauto].
Qed.

Lemma run_op_ok o p : pool_ok p -> exists r p', run_op o p = Some (r, p') /\ pool_ok p'.
Proof.
  intros H. destruct o as [l|l|clock|x t now|]; simpl; eauto.
  - eexists _, _; split; [done|]. unfold pool_ok; simpl. destruct l; simpl; auto with lia.
  - eexists _, _; split; [done|]. unfold pool_ok, merge_entries; cbn [proxies index_].
    destruct (merge_loop _ _ _) as [|a m] eqn:E; [by left|right].
    apply Nat.mod_upper_bound. done.
  - destruct (pool_ok_cases p H) as [He|(l & Hl & Hi)].
    + rewrite (next_empty _ _ He). simpl. eauto.
    + destruct (next_spec clock p l Hl Hi) as (r & i' & -> & Hi' & _). simpl.
      eexists _, _; split; [done|]. by right.
Qed.

Lemma run_ops_ok os : forall p, pool_ok p -> exists rs p', run_ops os p = Some (rs, p') /\ pool_ok p'.
Proof.
  induction os as [|o os IH]; intros p H; simpl; [eauto|].
  destruct (run_op_ok o p H) as (r & p1 & -> & H1). simpl.
  destruct (IH p1 H1) as (rs & p2 & -> & H2). simpl. eauto.
Qed.

Lemma init_pool_ok l : pool_ok (init_pool l).
Proof. unfold pool_ok; simpl. destruct l; simpl; auto with lia. Qed.

(** ** Merging *)

Lemma merge_loop_spec additions : forall seen current,
  (forall x, x ∈ seen <-> x ∈ current) ->
  exists new, merge_loop additions seen current = current ++ new /\ NoDup new /\
    new `sublist_of` additions /\
    (forall x, x ∈ new <-> x ∈ additions /\ x ∉ current).
Proof.
  induction additions as [|a rest IH]; intros seen current Hs; simpl.
  - exists []. rewrite app_nil_r. split_and!; [done|constructor|constructor|].
    intros x. rewrite !elem_of_nil. naive_solver.
  - destruct (decide (a ∈ seen)) as [Ha|Ha].
    + destruct (IH seen current Hs) as (new & E & Hn & Hsub & Hin). exists new.
      split_and!; [done|done|by constructor|]. intros x. rewrite Hin, elem_of_cons.
      rewrite Hs in Ha. naive_solver.
    + destruct (IH ({[a]} ∪ seen) (current ++ [a])) as (new & E & Hn & Hsub & Hin).
      { intros x. rewrite elem_of_union, elem_of_singleton, elem_of_app, list_elem_of_singleton, Hs.
        tauto. }
      exists (a :: new). rewrite E, <- app_assoc. split_and!; [done| |by constructor|].
      * constructor; [|done]. rewrite Hin, elem_of_app, list_elem_of_singleton. tauto.
      * rewrite Hs in Ha. intros x.
        rewrite !elem_of_cons, Hin, elem_of_app, list_elem_of_singleton.
        destruct (decide (x = a)); naive_solver.
Qed.

Lemma merge_entries_spec additions p :
  exists new, entries_copy (merge_entries additions p) = entries_copy p ++ new /\ NoDup new /\
    new `sublist_of` additions /\
    (forall x, x ∈ new <-> x ∈ additions /\ x ∉ entries_copy p).
Proof.
  unfold entries_copy, merge_entries; cbn [proxies]. apply merge_loop_spec.
  intros x. by rewrite elem_of_list_to_set.
Qed.

(** ** What [next] can return *)

Section within.
Context (Q : ProxySetting -> Prop).

Definition adds_within (o : pool_op) : Prop :=
  match o with OpReplace l | OpMerge l => Forall Q l | _ => True end.
Definition given_within (r : option ProxySetting) : Prop := forall x, r = Some x -> Q x.

Lemma next_within clock p r p' : pool_ok p -> Forall Q (entries_copy p) -> next clock p = Some (r, p') ->
  given_within r /\ entries_copy p' = entries_copy p.
Proof.
  intros Hok Hq Hn. destruct (pool_ok_cases p Hok) as [He|(l & Hl & Hi)].
  - rewrite (next_empty _ _ He) in Hn. simplify_eq. by split.
  - destruct (next_spec clock p l Hl Hi) as (r' & i' & E & _ & Hs). rewrite E in Hn. simplify_eq.
    unfold entries_copy in *. rewrite Hl in *. split; [|done]. intros x ->.
    destruct Hs as (k & _ & Hx & _). eapply Forall_lookup_1; [done|exact Hx].
Qed.

Lemma run_op_within o p rs p' : pool_ok p -> Forall Q (entries_copy p) -> adds_within o ->
  run_op o p = Some (rs, p') -> Forall Q (entries_copy p') /\ Forall given_within rs.
Proof.
  intros Hok Hq Ho Hr. destruct o; simpl in *; simplify_eq; try by split.
  - split; [|constructor]. destruct (merge_entries_spec additions p) as (new & -> & _ & Hsub & _).
    apply Forall_app. split; [done|]. apply Forall_forall. intros x Hx.
    rewrite Forall_forall in Ho. by eapply Ho, elem_of_sublist.
  - destruct (next clock p) as [[r p1]|] eqn:En; [|done]. simplify_eq/=.
    destruct (next_within clock p r p' Hok Hq En) as [Hg ->]. split; [done|]. by repeat constructor.
Qed.

Lemma run_ops_within os : forall p rs p', pool_ok p -> Forall Q (entries_copy p) -> Forall adds_within os ->
  run_ops os p = Some (rs, p') -> Forall Q (entries_copy p') /\ Forall given_within rs.
Proof.
  induction os as [|o os IH]; intros p rs p' Hok Hq Hos Hr; simpl in Hr; [by simplify_eq|].
  apply Forall_cons in Hos as [Ho Hos]. destruct (run_op_ok o p Hok) as (r1 & p1 & E1 & Hok1).
  rewrite E1 in Hr. simpl in Hr. destruct (run_op_within o p r1 p1 Hok Hq Ho E1) as [Hq1 Hr1].
  destruct (run_ops os p1) as [[rs2 p2]|] eqn:E2; [|done]. simplify_eq/=.
  destruct (IH p1 rs2 p' Hok1 Hq1 Hos E2). split; [done|]. by apply Forall_app.
Qed.
End within.

(** ** The blacklist *)

Lemma clean_expired_lookup now bl x e :
  bl !! x = Some e -> (now < e)%Z -> clean_expired now bl !! x = Some e.
Proof. intros H Hn. apply map_lookup_filter_Some_2; [done|]. simpl. lia. Qed.

(** An operation that leaves an entry blacklisted until [e] alone. *)
Definition respects (x : ProxySetting) (e : Z) (o : pool_op) : Prop :=
  match o with
  | OpReset => False
  | OpBlacklist y t now => y = x -> (e <= now + t)%Z
  | OpNext clock => forall k, (clock k < e)%Z
  | _ => True
  end.

Definition blocked (x : ProxySetting) (e : Z) (p : ProxyPool) : Prop :=
  exists e', (e <= e')%Z /\ p.(blacklist_) !! x = Some e'.

Lemma run_op_blocked x e o p r p' :
  respects x e o -> pool_ok p -> blocked x e p -> run_op o p = Some (r, p') ->
  blocked x e p' /\ Some x ∉ r.
Proof.
  intros Hr Hok (e' & He & Hb) Hrun. destruct o as [l|l|clock|y t now|]; simpl in *; simplify_eq.
  - split; [by exists e'|set_solver].
  - split; [by exists e'|set_solver].
  - destruct (pool_ok_cases p Hok) as [Hemp|(l & Hl & Hi)].
    + rewrite (next_empty _ _ Hemp) in Hrun. simplify_eq/=. split; [by exists e'|set_solver].
    + assert (Hcl : clean_expired (clock 0) p.(blacklist_) !! x = Some e')
        by (apply clean_expired_lookup; [done|]; specialize (Hr 0); lia).
      destruct (next_spec clock p l Hl Hi) as (res & i' & E & _ & Hs).
      rewrite E in Hrun. simplify_eq/=. split; [by exists e'|].
      intros Hin. apply list_elem_of_singleton in Hin as <-.
      destruct Hs as (k & _ & _ & Hnb & _).
      unfold is_blacklisted in Hnb. rewrite Hcl in Hnb.
      apply Z.ltb_ge in Hnb. specialize (Hr (S k)). lia.
  - split; [|set_solver]. unfold blocked; simpl. destruct (decide (y = x)) as [->|Hne].
    + rewrite lookup_insert. rewrite decide_True by done. eauto.
    + rewrite lookup_insert_ne by done. eauto.
  - done.
Qed.

Lemma run_ops_blocked x e os : forall p rs p',
  Forall (respects x e) os -> pool_ok p -> blocked x e p -> run_ops os p = Some (rs, p') ->
  Some x ∉ rs.
Proof.
  induction os as [|o os IH]; intros p rs p' Hf Hok Hb Hrun; simpl in Hrun; [simplify_eq; set_solver|].
  inversion_clear Hf as [|?? Hr Hf'].
  destruct (run_op_ok o p Hok) as (r & p1 & E & Hok1). rewrite E in Hrun. simpl in Hrun.
  destruct (run_op_blocked _ _ _ _ _ _ Hr Hok Hb E) as [Hb1 Hn].
  destruct (run_ops os p1) as [[rs1 p2]|] eqn:E1; simpl in Hrun; simplify_eq.
  rewrite elem_of_app. intros [?|?]; [done|by eapply IH].
Qed.

Lemma round_robin_from l clocks : forall i,
  i < length l ->
  exists i', run_ops (OpNext <$> clocks) (mkProxyPool (Some l) ∅ i) =
    Some ((fun j => l !! ((i + j) mod length l)) <$> seq 0 (length clocks),
          mkProxyPool (Some l) ∅ i').
Proof.
  induction clocks as [|c clocks IH]; intros i Hi; [by exists i|].
  destruct (next_spec c (mkProxyPool (Some l) ∅ i) l eq_refl Hi) as (r & i' & E & Hi' & Hs).
  unfold clean_expired in *. cbn [blacklist_ index_] in *. rewrite map_filter_empty in *.
  assert (Hnb : forall now y, is_blacklisted ∅ now y = false)
    by (intros; unfold is_blacklisted; by rewrite lookup_empty).
  cbn [fmap list_fmap run_ops run_op]. rewrite E. cbn [mbind option_bind].
  destruct (IH i' Hi') as (i'' & E'). rewrite E'. cbn [mbind option_bind]. exists i''. do 2 f_equal.
  assert (r = l !! (i mod length l) /\ i' = (i + 1) mod length l) as [-> ->].
  { destruct r as [x|].
    - destruct Hs as ([|k] & Hk & Hx & _ & -> & Hprev).
      + by rewrite Nat.add_0_r in *.
      + destruct (lookup_lt_is_Some_2 l ((i + 0) mod length l)) as [y Hy];
          [apply Nat.mod_upper_bound; lia|].
        specialize (Hprev 0 y ltac:(lia) Hy). by rewrite Hnb in Hprev.
    - destruct Hs as [-> Hprev]. destruct (lookup_lt_is_Some_2 l ((i + 0) mod length l)) as [y Hy];
        [apply Nat.mod_upper_bound; lia|].
      specialize (Hprev 0 y ltac:(lia) Hy). by rewrite Hnb in Hprev. }
  simpl. rewrite Nat.add_0_r. f_equal. rewrite <- fmap_S_seq, <- list_fmap_compose.
  apply list_fmap_ext. intros _ j _. simpl. rewrite Nat.Div0.add_mod_idemp_l. do 2 f_equal. lia.
Qed.

(** ** Properties *)

(** C18: From its construction on, whatever sequence of replacements, merges,
    blacklistings and [next]s runs, the pool never indexes its vector out of
    range; and [next] returns the first proxy in turn whose blacklisting has
    expired, and moves the turn just past it, or returns none only when every
    proxy is blacklisted. *)
Theorem proxy_next_in_turn selected os clock :
  exists rs p, run_ops os (init_pool selected) = Some (rs, p) /\
  exists r p', next clock p = Some (r, p') /\ p'.(proxies) = p.(proxies) /\
  let l := entries_copy p in
  let bl := clean_expired (clock 0) p.(blacklist_) in
  let turn j := l !! ((p.(index_) + j) mod length l) in
  match r with
  | Some x => exists k, k < length l /\ turn k = Some x /\
      is_blacklisted bl (clock (S k)) x = false /\
      p'.(index_) = (p.(index_) + k + 1) mod length l /\
      (forall j y, j < k -> turn j = Some y -> is_blacklisted bl (clock (S j)) y = true)
  | None => p'.(index_) = p.(index_) /\
      (forall j y, j < length l -> turn j = Some y -> is_blacklisted bl (clock (S j)) y = true)
  end.
Proof.
  destruct (run_ops_ok os (init_pool selected) (init_pool_ok selected)) as (rs & p & E & Hok).
  exists rs, p. split; [done|]. destruct (pool_ok_cases p Hok) as [He|(l & Hl & Hi)].
  - exists None, p. split; [by apply next_empty|]. split; [done|]. cbn zeta. split; [done|].
    unfold proxies_empty, entries_copy in *. destruct p.(proxies) as [[|]|]; simpl in *; done.
  - destruct (next_spec clock p l Hl Hi) as (r & i' & En & _ & Hs).
    unfold entries_copy. rewrite Hl. by exists r, (mkProxyPool (Some l) (clean_expired (clock 0) p.(blacklist_)) i').
Qed.

(** Once a proxy is blacklisted for [timeout], no [next] returns it before
    that time is over, whatever else is done to the pool in between short of
    resetting the blacklist or shortening the entry. *)
Theorem blacklisted_proxy_not_returned selected before x timeout now after rs0 p rs p' :
  run_ops before (init_pool selected) = Some (rs0, p) ->
  Forall (respects x (now + timeout)) after ->
  run_ops after (blacklist x timeout now p) = Some (rs, p') ->
  Some x ∉ rs.
Proof.
  intros H0 Hf Hrun. eapply run_ops_blocked; [exact Hf| | |exact Hrun].
  - destruct (run_ops_ok before _ (init_pool_ok selected)) as (? & ? & E & Hok).
    rewrite H0 in E. by simplify_eq.
  - exists (now + timeout)%Z. split; [lia|]. simpl. by rewrite lookup_insert, decide_True.
Qed.

(** With nothing blacklisted, successive [next]s hand out the proxies in
    rotation: as many calls as there are proxies return each of them once, in
    the order of the list. *)
Theorem proxy_round_robin l clocks :
  l <> [] -> length clocks = length l ->
  exists p, run_ops (OpNext <$> clocks) (init_pool l) = Some (Some <$> l, p) /\
    p.(proxies) = Some l.
Proof.
  intros Hl Hc. destruct (round_robin_from l clocks 0) as (i' & E).
  { destruct l; simpl; [done|lia]. }
  exists (mkProxyPool (Some l) ∅ i'). split; [|done]. unfold init_pool. rewrite E. do 2 f_equal. rewrite Hc.
  apply list_eq. intros j. rewrite !list_lookup_fmap.
  destruct (decide (j < length l)) as [Hj|Hj].
  - rewrite lookup_seq_lt by done. simpl. rewrite Nat.mod_small by done.
    destruct (lookup_lt_is_Some_2 l j Hj) as [x Hx]. by rewrite Hx.
  - rewrite lookup_seq_ge, lookup_ge_None_2 by lia. done.
Qed.

(** ** Witnesses *)

Definition demo_proxy (h : string) : ProxySetting := mkProxy (lit h) (lit "8080") [] [] false false.

Definition demo_nexts : list pool_op := [OpNext (fun _ => 5%Z); OpNext (fun _ => 6%Z)].

Lemma blacklisted_proxy_not_returned_witness :
  exists rs p', run_ops demo_nexts
    (blacklist (demo_proxy "a") 10 0 (init_pool [demo_proxy "a"; demo_proxy "b"])) = Some (rs, p') /\
  Some (demo_proxy "a") ∉ rs.
Proof.
  destruct (run_ops_ok demo_nexts
    (blacklist (demo_proxy "a") 10 0 (init_pool [demo_proxy "a"; demo_proxy "b"])))
    as (rs & p' & E & _); [right; simpl; lia|].
  exists rs, p'. split; [exact E|].
  apply (blacklisted_proxy_not_returned [demo_proxy "a"; demo_proxy "b"] [] (demo_proxy "a") 10 0
    demo_nexts [] (init_pool [demo_proxy "a"; demo_proxy "b"]) rs p'); [reflexivity| |exact E].
  repeat constructor; simpl; lia.
Defined.

Lemma proxy_round_robin_witness :
  exists p, run_ops [OpNext (fun _ => 5%Z); OpNext (fun _ => 6%Z)]
      (init_pool [demo_proxy "a"; demo_proxy "b"]) =
    Some ([Some (demo_proxy "a"); Some (demo_proxy "b")], p) /\
    p.(proxies) = Some [demo_proxy "a"; demo_proxy "b"].
Proof.
  apply (proxy_round_robin [demo_proxy "a"; demo_proxy "b"] [(fun _ => 5%Z); (fun _ => 6%Z)]);
    [discriminate|reflexivity].
Defined.
