(* ===== verification/HttpExchange.v ===== *)
(** * An HTTP exchange ([src/include/http_client_monad.hpp], [HttpExchange])

    A request with what is needed to send it, and the response once there is
    one: building the request, reading status, cookies and JSON.  Parsing and
    printing of JSON is the interface [JsonLib]; the conversion
    [json::value_to<T>] of a user type is an argument.  [DEBUG_PRINT] and the
    log are left out. *)

From Stdlib Require Import ZArith Lia Ascii String.
From stdpp Require Import base list gmap strings.
From S2P Require Import Prelude Json ResultMonad Http.

Record HttpExchange := mkExchange {
  ex_body_file : option str;
  ex_follow_redirect : bool;
  ex_no_modify_req : bool;
  ex_no_proxy_pool : bool;
  ex_proxy : option ProxySetting;
  ex_request : request;
  ex_response : option response;
  ex_response_file : option str;
  ex_url : url;
  ex_timeout : Z;
}.

Definition new_exchange (u : url) (q : request) : HttpExchange :=
  mkExchange None true false false None q None None u 30.

Definition with_request (q : request) (ex : HttpExchange) : HttpExchange :=
  mkExchange ex.(ex_body_file) ex.(ex_follow_redirect) ex.(ex_no_modify_req) ex.(ex_no_proxy_pool)
    ex.(ex_proxy) q ex.(ex_response) ex.(ex_response_file) ex.(ex_url) ex.(ex_timeout).
Definition with_response (r : option response) (ex : HttpExchange) : HttpExchange :=
  mkExchange ex.(ex_body_file) ex.(ex_follow_redirect) ex.(ex_no_modify_req) ex.(ex_no_proxy_pool)
    ex.(ex_proxy) ex.(ex_request) r ex.(ex_response_file) ex.(ex_url) ex.(ex_timeout).
Definition with_proxy (p : option ProxySetting) (ex : HttpExchange) : HttpExchange :=
  mkExchange ex.(ex_body_file) ex.(ex_follow_redirect) ex.(ex_no_modify_req) ex.(ex_no_proxy_pool)
    p ex.(ex_request) ex.(ex_response) ex.(ex_response_file) ex.(ex_url) ex.(ex_timeout).

Definition JSON_ERR_MALFORMED : Z := 9000.
Definition JSON_ERR_DECODE : Z := 9001.
Definition JSON_ERR_TYPE_MISMATCH : Z := 9003.
Definition JSON_ERR_MISSING_FIELD : Z := 9004.
Definition JSON_ERR_INVALID_SCHEMA : Z := 9005.

Definition make_preview (text : str) : str :=
  if (length text <=? 512)%nat then text else take 512 text ++ lit "...".

(** ** Building the request *)

Definition on_request (f : request -> request) (ex : HttpExchange) : HttpExchange :=
  with_request (f ex.(ex_request)) ex.

Definition setRequestHeader (name value : str) : HttpExchange -> HttpExchange :=
  on_request (set_header name value).

Definition contentTypeJson : HttpExchange -> HttpExchange :=
  on_request (set_header (lit "Content-Type") (lit "application/json")).

(** Both overloads: the map's entries come in the order of their keys. *)
Definition addRequestHeaders (headers : list (str * str)) (ex : HttpExchange) : HttpExchange :=
  foldl (fun ex h => setRequestHeader h.1 h.2 ex) ex headers.

(** [path[?query]] in encoded form. *)
Definition raw_target (u : url) : str :=
  let target := match u.(u_encoded_path) with [] => lit "/" | p => p end in
  match u.(u_encoded_query) with [] => target | q => target ++ lit "?" ++ q end.

Definition setHostTargetRaw (ex : HttpExchange) : HttpExchange :=
  let u := ex.(ex_url) in
  let host_header :=
    u.(u_host) ++ match u.(u_port) with Some p => ":"%char :: p | None => [] end in
  on_request (set_header (lit "Host") host_header)
    (on_request (set_target (raw_target u)) ex).

Definition createRequestCookie (cookies : list (str * str)) : str :=
  (foldl (fun '(result, first) '(key, value) =>
     (result ++ (if first : bool then [] else lit "; ") ++ key ++ lit "=" ++ value, false))
     ([], true) cookies).1.

(** [message::prepare_payload] of Beast sets the length fields from the body. *)
Class PayloadLib := { prepare_payload : request -> request }.
Class PayloadLaws `{PayloadLib} := { prepare_payload_body q : (prepare_payload q).(q_body) = q.(q_body) }.

Definition set_body (b : str) (q : request) : request :=
  mkRequest q.(q_method) q.(q_target) q.(q_fields) b q.(q_keep_alive).

Section json.
Context `{PayloadLib} `{JsonLib}.

Definition setRequestJsonBodyFromString (json_str : str) (ex : HttpExchange) : HttpExchange :=
  contentTypeJson (on_request prepare_payload (on_request (set_body json_str) ex)).
Definition setRequestJsonBody (jv : json) : HttpExchange -> HttpExchange :=
  setRequestJsonBodyFromString (json_serialize jv).
End json.

(** ** Reading the response *)

Definition response_status_of (ex : HttpExchange) : Z :=
  match ex.(ex_response) with Some r => r.(s_status) | None => 0 end.
Definition response_body_of (ex : HttpExchange) : str :=
  match ex.(ex_response) with Some r => r.(s_body) | None => [] end.

Definition is_2xx (ex : HttpExchange) : bool :=
  match ex.(ex_response) with
  | None => false
  | Some r => (200 <=? r.(s_status))%Z && (r.(s_status) <? 300)%Z
  end.
Definition not_2xx (ex : HttpExchange) : bool :=
  match ex.(ex_response) with
  | None => true
  | Some r => (r.(s_status) <? 200)%Z || (300 <=? r.(s_status))%Z
  end.

Section reading.
Context `{UrlLib}.

(** [string_body] says whether the response has a string body. *)
Definition expect_2xx (string_body : bool) (ex : HttpExchange) : MyVoidResult :=
  match ex.(ex_response) with
  | None =>
      void_err (make_error 400 (lit "Response is not available, url=" ++ url_buffer ex.(ex_url)))
  | Some r =>
      let status := r.(s_status) in
      if (status <? 200)%Z || (300 <=? status)%Z then
        let body_preview :=
          if string_body then match r.(s_body) with [] => [] | b => make_preview b end else [] in
        let text := lit "Expected 2xx response, got " ++ z_to_str status ++
                    lit ", url=" ++ url_buffer ex.(ex_url) in
        match body_preview with
        | [] => void_err (make_error status text)
        | _ => void_err (make_error status (text ++ lit ", body=" ++ body_preview))
        end
      else void_ok
  end.
End reading.

(** *** Cookies *)

(** One [token] of a [Set-Cookie] field. *)
Definition cookie_of_token (cookie_name token : str) : option str :=
  let token := ltrim_by is_blank token in
  let prefix := cookie_name ++ lit "=" in
  if starts_with prefix token then
    let value := drop (length cookie_name + 1) token in
    Some (match value with
          | "034"%char :: _ =>
              if bool_decide (List.last value "000"%char = "034"%char)
              then take (length value - 2) (drop 1 value) else value
          | _ => value
          end)
  else None.

Fixpoint first_some {A B} (f : A -> option B) (l : list A) : option B :=
  match l with
  | [] => None
  | x :: l' => match f x with Some y => Some y | None => first_some f l' end
  end.

Definition getResponseCookie (cookie_name : str) (ex : HttpExchange) : option str :=
  match ex.(ex_response) with
  | None => None
  | Some r =>
      first_some (fun f => first_some (cookie_of_token cookie_name) (getlines ";" f.2))
        (List.filter (fun f => same_name (lit "Set-Cookie") f.1) r.(s_fields))
  end.

(** *** JSON *)

(** [err.response_status = status; err.params["response_body_preview"] = preview]. *)
Definition body_error (c : Z) (what : str) (status : Z) (preview : str) : Error :=
  mkError c what [] status [(lit "response_body_preview", JString preview)]
    (lit "application/json") None.

Section parse.
Context `{JsonLib}.

Definition getJsonResponse (ex : HttpExchange) : MyResult json :=
  match ex.(ex_response) with
  | None =>
      Err (mkError JSON_ERR_DECODE
             (lit "Failed to decode/parse JSON (low-level): response is not available")
             [] 0 [] (lit "application/json") None)
  | Some r =>
      match r.(s_body) with
      | [] => Err (body_error JSON_ERR_MALFORMED
                     (lit "Malformed JSON text: response body is empty")
                     r.(s_status) (make_preview []))
      | body =>
          match json_parse body with
          | inr j => Ok j
          | inl w => Err (body_error JSON_ERR_DECODE
                            (lit "Failed to decode/parse JSON (low-level): " ++ w)
                            r.(s_status) (make_preview body))
          end
      end
  end.

(** The preview of an error about a parsed body. *)
Definition preview_or (ex : HttpExchange) (jv : json) : str :=
  match make_preview (response_body_of ex) with
  | [] => make_preview (json_serialize jv)
  | p => p
  end.
Definition parse_error (ex : HttpExchange) (jv : json) (c : Z) (what : str) : Error :=
  body_error c what (response_status_of ex) (preview_or ex jv).

Section value_to.
Context {T : Type} (value_to : json -> throws T).

(** An exception that is no [std::exception] leaves these functions. *)
Definition parseJsonResponse (ex : HttpExchange) : throws (MyResult T) :=
  match getJsonResponse ex with
  | Err e => inr (Err e)
  | Ok jv =>
      match value_to jv with
      | inr v => inr (Ok v)
      | inl (StdExn w) =>
          inr (Err (parse_error ex jv JSON_ERR_TYPE_MISMATCH (lit "JSON type mismatch: " ++ w)))
      | inl e => inl e
      end
  end.

Definition parseJsonDataResponse (ex : HttpExchange) : throws (MyResult T) :=
  match getJsonResponse ex with
  | Err e => inr (Err e)
  | Ok jv =>
      match if_object jv with
      | None =>
          inr (Err (parse_error ex jv JSON_ERR_INVALID_SCHEMA
                      (lit "JSON does not conform to expected schema")))
      | Some obj =>
          match obj_find (lit "data") obj with
          | None =>
              inr (Err (parse_error ex jv JSON_ERR_MISSING_FIELD
                          (lit "Required JSON field missing: 'data'")))
          | Some d =>
              match value_to d with
              | inr v => inr (Ok v)
              | inl (StdExn w) =>
                  inr (Err (parse_error ex jv JSON_ERR_TYPE_MISMATCH
                              (lit "JSON type mismatch: " ++ w)))
              | inl e => inl e
              end
          end
      end
  end.
End value_to.

(** [value_to] gives the result the document encodes. *)
Definition parseJsonResponseResult {T} (value_to : json -> throws (MyResult T))
    (ex : HttpExchange) : throws (MyResult T) :=
  match getJsonResponse ex with
  | Err e => inr (Err e)
  | Ok jv =>
      match value_to jv with
      | inr r => inr r
      | inl (StdExn w) =>
          inr (Err (parse_error ex jv JSON_ERR_INVALID_SCHEMA
                      (lit "JSON does not conform to expected schema: " ++ w)))
      | inl e => inl e
      end
  end.
End parse.

(** ** Cookies are read back *)

(** The text of one cookie of a request. *)
Definition cookie_text (c : str * str) : str := c.1 ++ lit "=" ++ c.2.

(** A cookie that can be written: no separator in it, no blank before the name,
    no quote before the value. *)
Definition cookie_ok (c : str * str) : Prop :=
  ";"%char ∉ c.1 /\ "="%char ∉ c.1 /\ ";"%char ∉ c.2 /\
  match c.1 with a :: _ => is_blank a = false | [] => True end /\
  match c.2 with a :: _ => a <> "034"%char | [] => True end.

Lemma createRequestCookie_cons c cs :
  createRequestCookie (c :: cs) = cookie_text c ++ concat (map (fun c => lit "; " ++ cookie_text c) cs).
Proof.
  assert (Hgen : forall acc, (foldl (fun '(result, first) '(key, value) =>
     (result ++ (if first : bool then [] else lit "; ") ++ key ++ lit "=" ++ value, false))
     (acc, false) cs).1 = acc ++ concat (map (fun c => lit "; " ++ cookie_text c) cs)).
  { induction cs as [|[k v] cs IH]; intros acc; cbn -[lit]; [by rewrite app_nil_r|].
    rewrite IH. unfold cookie_text. cbn [fst snd]. by rewrite <- !app_assoc. }
  unfold createRequestCookie. destruct c as [k v]. apply Hgen.
Qed.

Lemma cookie_text_no_semicolon c : cookie_ok c -> ";"%char ∉ cookie_text c.
Proof.
  intros (H1 & _ & H2 & _). unfold cookie_text. rewrite !elem_of_app. intros [?|[H|?]]; try done.
  simpl in H. by apply list_elem_of_singleton in H.
Qed.

Lemma cookie_text_nonempty c : cookie_text c <> [].
Proof. unfold cookie_text. destruct c as [[|a k] v]; done. Qed.

Lemma split_cookies c cs :
  cookie_ok c -> Forall cookie_ok cs ->
  split_on ";" (createRequestCookie (c :: cs)) =
    cookie_text c :: map (fun c => " "%char :: cookie_text c) cs.
Proof.
  intros Hc Hcs. rewrite createRequestCookie_cons.
  assert (Hgen : forall t, ";"%char ∉ t ->
    split_on ";" (t ++ concat (map (fun c => lit "; " ++ cookie_text c) cs)) =
      t :: map (fun c => " "%char :: cookie_text c) cs).
  { clear c Hc. induction cs as [|c cs IH]; intros t Ht; simpl.
    - rewrite app_nil_r. by apply split_on_none.
    - inversion_clear Hcs as [|?? Hc Hcs'].
      change (lit "; " ++ cookie_text c) with (";"%char :: " "%char :: cookie_text c).
      simpl app. rewrite split_on_app by done. f_equal.
      change (" "%char :: (cookie_text c ++ ?x)) with ((" "%char :: cookie_text c) ++ x).
      apply IH; [done|]. rewrite not_elem_of_cons. split; [done|].
      by apply cookie_text_no_semicolon. }
  by apply Hgen, cookie_text_no_semicolon.
Qed.

Lemma last_cookie_nonempty c cs :
  List.last (cookie_text c :: map (fun c => " "%char :: cookie_text c) cs) [] <> [].
Proof.
  destruct (exists_last (l := cookie_text c :: map (fun c => " "%char :: cookie_text c) cs))
    as (l & x & E); [done|]. rewrite E, last_last.
  assert (Hin : In x (cookie_text c :: map (fun c => " "%char :: cookie_text c) cs))
    by (rewrite E; apply in_or_app; right; by left).
  destruct Hin as [<-|Hin]; [apply cookie_text_nonempty|].
  apply in_map_iff in Hin as (c' & <- & _). done.
Qed.

Lemma getlines_cookies c cs :
  cookie_ok c -> Forall cookie_ok cs ->
  getlines ";" (createRequestCookie (c :: cs)) =
    cookie_text c :: map (fun c => " "%char :: cookie_text c) cs.
Proof.
  intros Hc Hcs. unfold getlines. rewrite (split_cookies c cs Hc Hcs).
  pose proof (last_cookie_nonempty c cs). by destruct (List.last _ _).
Qed.

Lemma starts_with_key name k v :
  "="%char ∉ name -> "="%char ∉ k ->
  starts_with (name ++ lit "=") (k ++ lit "=" ++ v) = bool_decide (k = name).
Proof.
  revert k; induction name as [|a name IH]; intros [|b k] Hn Hk;
    change (lit "=") with ["="%char] in *; cbn [starts_with app].
  - done.
  - rewrite not_elem_of_cons in Hk. destruct Hk as [Hk _].
    by rewrite (bool_decide_false ("="%char = b)) by congruence.
  - rewrite not_elem_of_cons in Hn. destruct Hn as [Hn _].
    by rewrite (bool_decide_false (a = "="%char)) by congruence.
  - rewrite not_elem_of_cons in Hn, Hk. destruct Hn as [? Hn], Hk as [? Hk].
    change (b :: k ++ ?x) with (b :: (k ++ x)). rewrite IH by done.
    destruct (decide (a = b)) as [->|Hne].
    + rewrite (bool_decide_true (b = b)) by done. apply bool_decide_ext. split; congruence.
    + rewrite (bool_decide_false (a = b)) by done.
      by rewrite (bool_decide_false (b :: k = a :: name)) by congruence.
Qed.

Lemma cookie_of_token_text name c :
  "="%char ∉ name -> cookie_ok c ->
  forall pad, forallb is_blank pad = true ->
  cookie_of_token name (pad ++ cookie_text c) = if decide (c.1 = name) then Some c.2 else None.
Proof.
  intros Hn (H1 & H2 & H3 & H4 & H5) pad Hp. unfold cookie_of_token.
  assert (Ht : ltrim_by is_blank (pad ++ cookie_text c) = cookie_text c).
  { induction pad as [|a pad IH]; simpl in *.
    - unfold cookie_text. destruct c as [[|a k] v]; simpl in *; [done|by rewrite H4].
    - apply andb_true_iff in Hp as [-> Hp]. auto. }
  rewrite Ht. unfold cookie_text. rewrite starts_with_key by done.
  destruct c as [k v]; simpl in *. case_bool_decide as Hk.
  - subst k. rewrite decide_True by done. f_equal.
    rewrite drop_app_ge by lia. replace (length name + 1 - length name) with 1 by lia. simpl.
    rewrite drop_0. destruct v as [|a v]; [done|]. by destruct a as [[] [] [] [] [] [] [] []].
  - by rewrite decide_False.
Qed.

(** The first cookie of that name. *)
Fixpoint lookup_cookie (name : str) (cs : list (str * str)) : option str :=
  match cs with
  | [] => None
  | c :: cs' => if decide (c.1 = name) then Some c.2 else lookup_cookie name cs'
  end.

Lemma first_some_cookies name cs :
  "="%char ∉ name -> Forall cookie_ok cs ->
  first_some (cookie_of_token name) (map (fun c => " "%char :: cookie_text c) cs) =
    lookup_cookie name cs.
Proof.
  intros Hn. induction 1 as [|c cs Hc Hcs IH]; simpl; [done|].
  change (" "%char :: cookie_text c) with (lit " " ++ cookie_text c).
  rewrite (cookie_of_token_text name c Hn Hc (lit " ") eq_refl). by case_decide.
Qed.

(** A response whose [Set-Cookie] field is what [createRequestCookie] writes
    for some cookies gives back, under each name, the value of the first cookie
    of that name, and nothing under any other name. *)
Theorem cookies_read_back name cookies ex r :
  "="%char ∉ name -> Forall cookie_ok cookies ->
  ex.(ex_response) = Some r ->
  List.filter (fun f => same_name (lit "Set-Cookie") f.1) r.(s_fields) =
    [(lit "Set-Cookie", createRequestCookie cookies)] ->
  getResponseCookie name ex = lookup_cookie name cookies.
Proof.
  intros Hn Hc Hr Hf. unfold getResponseCookie. rewrite Hr, Hf.
  destruct cookies as [|c cs]; [done|]. inversion_clear Hc as [|?? Hc1 Hcs].
  cbn [first_some snd]. rewrite (getlines_cookies c cs Hc1 Hcs). cbn [first_some lookup_cookie].
  pose proof (cookie_of_token_text name c Hn Hc1 [] eq_refl) as H0. simpl in H0.
  rewrite H0, (first_some_cookies name cs Hn Hcs).
  destruct (decide (c.1 = name)); [done|]. by destruct (lookup_cookie name cs).
Qed.

(** ** JSON bodies *)

Lemma make_preview_length t : length (make_preview t) <= 515.
Proof.
  unfold make_preview. destruct (Nat.leb_spec (length t) 512); [lia|].
  rewrite length_app, length_take. change (length (lit "...")) with 3. lia.
Qed.

Lemma make_preview_nil t : make_preview t = [] <-> t = [].
Proof.
  unfold make_preview. destruct (length t <=? 512)%nat eqn:E; [done|].
  split; [|by intros ->]. destruct t; done.
Qed.

(** A JSON document put into a request with [setRequestJsonBody] and sent
    back by the server as the body of the response is read back by
    [getJsonResponse], with the integers in the kind the parser gives them; the
    request says its content is JSON. *)
Theorem json_body_roundtrip `{PayloadLaws} `{JsonLibLaws} j ex r :
  json_wf j -> printable 32 j = true ->
  let ex' := setRequestJsonBody j ex in
  r.(s_body) = ex'.(ex_request).(q_body) ->
  getJsonResponse (with_response (Some r) ex') = Ok (reparsed j) /\
  find_field (lit "Content-Type") ex'.(ex_request).(q_fields) = Some (lit "application/json").
Proof.
  intros Hj Hp ex' Hr. split; [|apply find_set_field].
  assert (Hb : r.(s_body) = json_serialize j).
  { rewrite Hr. subst ex'. simpl. by rewrite prepare_payload_body. }
  unfold getJsonResponse, with_response; cbn [ex_response]. rewrite Hb.
  pose proof (json_serialize_nonempty j).
  destruct (json_serialize j) as [|a s] eqn:E; [done|].
  rewrite <- E, json_parse_serialize by done. done.
Qed.

(** Why a response did not yield a value, and the code that says so. *)
Inductive data_failure {T} `{JsonLib} (value_to : json -> throws T) (ex : HttpExchange) : Z -> Prop :=
  | NoResponse : ex.(ex_response) = None -> data_failure value_to ex 9001
  | EmptyBodyText r : ex.(ex_response) = Some r -> r.(s_body) = [] -> data_failure value_to ex 9000
  | NotJson r w : ex.(ex_response) = Some r -> r.(s_body) <> [] -> json_parse r.(s_body) = inl w ->
      data_failure value_to ex 9001
  | NotObject r jv : ex.(ex_response) = Some r -> json_parse r.(s_body) = inr jv ->
      if_object jv = None -> data_failure value_to ex 9005
  | NoData r m : ex.(ex_response) = Some r -> json_parse r.(s_body) = inr (JObject m) ->
      obj_find (lit "data") m = None -> data_failure value_to ex 9004
  | WrongType r m d w : ex.(ex_response) = Some r -> json_parse r.(s_body) = inr (JObject m) ->
      obj_find (lit "data") m = Some d -> value_to d = inl (StdExn w) -> data_failure value_to ex 9003.

(** The errors of this file carry at most a bounded part of the body. *)
Definition bounded_preview (e : Error) : Prop :=
  e.(params) = [] \/
  exists p, e.(params) = [(lit "response_body_preview", JString p)] /\ length p <= 515.

Lemma parse_error_facts `{JsonLib} ex jv c w :
  (parse_error ex jv c w).(code) = c /\
  (parse_error ex jv c w).(response_status) = response_status_of ex /\
  bounded_preview (parse_error ex jv c w).
Proof.
  split_and!; [done|done|]. right. eexists; split; [reflexivity|]. unfold preview_or.
  pose proof (make_preview_length (response_body_of ex)).
  pose proof (make_preview_length (json_serialize jv)).
  by destruct (make_preview (response_body_of ex)).
Qed.

Lemma getJsonResponse_cases `{JsonLib} {T} (value_to : json -> throws T) ex :
  (exists r jv, ex.(ex_response) = Some r /\ json_parse r.(s_body) = inr jv /\
     getJsonResponse ex = Ok jv) \/
  (exists e, getJsonResponse ex = Err e /\ data_failure value_to ex e.(code) /\
     e.(response_status) = response_status_of ex /\ bounded_preview e).
Proof.
  unfold getJsonResponse, response_status_of.
  destruct (ex_response ex) as [r|] eqn:Er.
  - destruct (s_body r) as [|a b] eqn:Eb.
    + right. eexists; split_and!; [reflexivity| |done|].
      * by eapply EmptyBodyText.
      * right. eexists; split; [reflexivity|apply make_preview_length].
    + destruct (json_parse (a :: b)) as [w|jv] eqn:Ep.
      * right. eexists; split_and!; [reflexivity| |done|].
        -- eapply NotJson; [done|by rewrite Eb|by rewrite Eb].
        -- right. eexists; split; [reflexivity|apply make_preview_length].
      * left. exists r, jv. by rewrite Eb.
  - right. eexists; split_and!; [reflexivity|by apply NoResponse|done|by left].
Qed.

(** C21: [parseJsonDataResponse] gives the value of the [data] member exactly when
    the response has a JSON object with one that converts; every other response
    gives an error whose code says what was wrong, with the status of the
    response and at most 515 characters of its body.  It throws only what is no
    [std::exception]. *)
Theorem json_data_response_classified `{JsonLib} {T} (value_to : json -> throws T) ex :
  (forall j, value_to j <> inl OtherExn) ->
  exists res, parseJsonDataResponse value_to ex = inr res /\
  match res with
  | Ok v => exists r m d, ex.(ex_response) = Some r /\ json_parse r.(s_body) = inr (JObject m) /\
      obj_find (lit "data") m = Some d /\ value_to d = inr v
  | Err e => data_failure value_to ex e.(code) /\
      e.(response_status) = response_status_of ex /\ bounded_preview e
  end.
Proof.
  intros Hv. unfold parseJsonDataResponse.
  destruct (getJsonResponse_cases value_to ex) as [(r & jv & Hr & Hp & ->)|(e & -> & He)];
    [|by exists (Err e)].
  assert (Hfail : forall c w, data_failure value_to ex c ->
    exists res, @inr exn _ (Err (parse_error ex jv c w)) = inr res /\
    match res with
    | Ok v => exists r m d, ex.(ex_response) = Some r /\ json_parse r.(s_body) = inr (JObject m) /\
        obj_find (lit "data") m = Some d /\ value_to d = inr v
    | Err e => data_failure value_to ex e.(code) /\
        e.(response_status) = response_status_of ex /\ bounded_preview e
    end).
  { intros c w Hc. eexists; split; [reflexivity|].
    destruct (parse_error_facts ex jv c w) as (-> & ? & ?). done. }
  destruct (if_object jv) as [obj|] eqn:Eo; [|by apply Hfail; eapply NotObject].
  assert (jv = JObject obj) as -> by (destruct jv; by simplify_eq/=).
  destruct (obj_find (lit "data") obj) as [d|] eqn:Ed; [|by apply Hfail; eapply NoData].
  destruct (value_to d) as [[w|]|v] eqn:Ev.
  - by apply Hfail; eapply WrongType.
  - by destruct (Hv d).
  - eexists; split; [reflexivity|]. by exists r, obj, d.
Qed.

(** ** Witnesses *)

Definition demo_json : JsonLib := {|
  json_parse := fun s => match s with "1"%char :: _ => inr (JInt64 1) | _ => inr (JObject [(lit "data", JNull)]) end;
  json_serialize := fun j => match j with JInt64 _ => lit "1" | _ => lit "{}" end;
  to_number_int64 := fun _ => inr 0%Z;
  to_number_uint64 := fun _ => inr 0%Z;
  to_number_int := fun _ => inr 0%Z;
  double_to_str := fun _ => [];
  bad_kind := fun _ => [];
  missing_key := fun _ => [];
|}.
Definition demo_exchange (body : string) : HttpExchange :=
  with_response (Some (mkResponse 200
      [(lit "Set-Cookie", createRequestCookie [(lit "a", lit "1"); (lit "b", lit "2")])] (lit body) true))
    (new_exchange (mkUrl (lit "http") (lit "h") None [] [] []) (mkRequest (lit "GET") [] [] [] false)).

Lemma json_data_response_classified_witness :
  exists res, parseJsonDataResponse (H := demo_json) (T := unit) (fun _ => inl (StdExn (lit "w")))
    (demo_exchange "{}") = inr res /\ is_err res = true.
Proof.
  destruct (json_data_response_classified (H := demo_json) (T := unit)
    (fun _ => inl (StdExn (lit "w"))) (demo_exchange "{}")) as (res & E & Hres); [discriminate|].
  exists res. split; [exact E|]. destruct res as [v|e]; [|reflexivity].
  destruct Hres as (r & m & d & _ & _ & _ & Hd). discriminate.
Defined.

Lemma cookies_read_back_witness :
  getResponseCookie (lit "b") (demo_exchange "") =
    lookup_cookie (lit "b") [(lit "a", lit "1"); (lit "b", lit "2")].
Proof.
  eapply (cookies_read_back (lit "b") [(lit "a", lit "1"); (lit "b", lit "2")] (demo_exchange ""));
    [| |reflexivity|reflexivity].
  - vm_compute. intros H. inversion H as [|? ? ? H']. inversion H'.
  - repeat constructor; vm_compute; try (intros H; repeat (inversion H as [|? ? ? H']; clear H; rename H' into H));
      try discriminate; try reflexivity.
Defined.

Definition demo_payload : PayloadLib := {| prepare_payload := fun q => q |}.
Lemma demo_payload_laws : @PayloadLaws demo_payload.
Proof. split. intros q. reflexivity. Qed.

Lemma json_body_roundtrip_witness :
  let j := JObject [(lit "data", JBool true)] in
  let ex' := setRequestJsonBody (H := demo_payload) (H0 := BinaryJson.lib) j (demo_exchange "") in
  getJsonResponse (H := BinaryJson.lib)
    (with_response (Some (mkResponse 200 [] ex'.(ex_request).(q_body) true)) ex') = Ok j.
Proof.
  intros j ex'.
  refine (proj1 (json_body_roundtrip (H := demo_payload) (H0 := demo_payload_laws)
    (H1 := BinaryJson.lib) (H2 := BinaryJson.laws) j (demo_exchange "")
    (mkResponse 200 [] ex'.(ex_request).(q_body) true) _ eq_refl eq_refl)).
  split; [|done]. apply NoDup_singleton.
Defined.
