(* ===== verification/QueryParams.v ===== *)
(** * Query parameters ([src/include/http_client_monad.hpp], [set_query_param])

    The exchange edits the query of its URL through the container
    [url.params()] of Boost.URL, which reads the decoded parameters and writes
    them back encoded: the interface [QueryLib]. *)

From Stdlib Require Import ZArith Lia Ascii String.
From stdpp Require Import base list gmap strings.
From S2P Require Import Prelude Json ResultMonad Http HttpExchange.

(** [urls::param], decoded. *)
Record param := mkParam { p_key : str; p_value : str; p_has_value : bool }.
#[export] Instance param_eq_dec : EqDecision param.
Proof. solve_decision. Defined.

Class QueryLib := {
  url_params : url -> list param;
  (** the URL with these parameters *)
  url_set_params : list param -> url -> url;
}.
(** Writing changes the query only, and what was written is read. *)
Class QueryLaws `{QueryLib} := {
  params_set l u : url_params (url_set_params l u) = l;
  set_params_rest l u :
    let u' := url_set_params l u in
    u'.(u_scheme) = u.(u_scheme) /\ u'.(u_host) = u.(u_host) /\ u'.(u_port) = u.(u_port) /\
    u'.(u_path) = u.(u_path) /\ u'.(u_encoded_path) = u.(u_encoded_path);
}.

Definition with_url (u : url) (ex : HttpExchange) : HttpExchange :=
  mkExchange ex.(ex_body_file) ex.(ex_follow_redirect) ex.(ex_no_modify_req) ex.(ex_no_proxy_pool)
    ex.(ex_proxy) ex.(ex_request) ex.(ex_response) ex.(ex_response_file) u ex.(ex_timeout).

Section query.
Context `{QueryLib}.

(** [params.replace(it, std::next(it), {p})] and [params.insert(params.end(), p)]. *)
Definition params_replace (it : nat) (p : param) (u : url) : url :=
  let l := url_params u in url_set_params (take it l ++ p :: drop (S it) l) u.
Definition params_insert_end (p : param) (u : url) : url := url_set_params (url_params u ++ [p]) u.

(** The loop: [left] are the parameters from [it] on. *)
Fixpoint set_query_loop (key value : str) (it : nat) (left : list param) (u : url) : url :=
  match left with
  | [] => params_insert_end (mkParam key value true) u
  | p :: left' =>
      if bool_decide (p.(p_key) = key) then params_replace it (mkParam key value true) u
      else set_query_loop key value (S it) left' u
  end.

Definition set_query_param (key value : str) (ex : HttpExchange) : HttpExchange :=
  with_url (set_query_loop key value 0 (url_params ex.(ex_url)) ex.(ex_url)) ex.

(** ** What it does to the parameters *)

Definition has_key (key : str) (p : param) : bool := bool_decide (p.(p_key) = key).
(** The first value of a key. *)
Definition query_value (key : str) (l : list param) : option str := p_value <$> List.find (has_key key) l.

Context {L : QueryLaws}.

Lemma set_query_loop_spec key value u l pre :
  url_params u = pre ++ l -> Forall (fun p => has_key key p = false) pre ->
  (exists a old b, l = a ++ old :: b /\ Forall (fun p => has_key key p = false) a /\ has_key key old = true /\
     set_query_loop key value (length pre) l u = url_set_params (pre ++ a ++ mkParam key value true :: b) u) \/
  (Forall (fun p => has_key key p = false) l /\
     set_query_loop key value (length pre) l u = url_set_params (pre ++ l ++ [mkParam key value true]) u).
Proof.
  revert pre. induction l as [|p l IH]; intros pre Hu Hpre.
  - right. split; [done|]. cbn. unfold params_insert_end. by rewrite Hu, app_nil_r.
  - cbn [set_query_loop]. fold (has_key key p). destruct (has_key key p) eqn:Hp.
    + left. exists [], p, l. split_and!; try done. unfold params_replace. rewrite Hu, take_app_length.
      cbn [app]. change (pre ++ p :: l) with (pre ++ [p] ++ l). rewrite app_assoc.
      replace (S (length pre)) with (length (pre ++ [p])) by (rewrite length_app; simpl; lia).
      by rewrite drop_app_length.
    + replace (S (length pre)) with (length (pre ++ [p])) by (rewrite length_app; simpl; lia).
      destruct (IH (pre ++ [p])) as [(a & old & b & -> & Ha & Ho & ->)|[Hl ->]];
        [by rewrite <- app_assoc|by apply Forall_app; repeat constructor| |].
      * left. exists (p :: a), old, b. rewrite <- app_assoc. split_and!; try done. by constructor.
      * right. rewrite <- app_assoc. split; [by constructor|done].
Qed.

Lemma find_skip key a l :
  Forall (fun p => has_key key p = false) a -> List.find (has_key key) (a ++ l) = List.find (has_key key) l.
Proof. induction 1 as [|p a Hp Ha IH]; [done|]. cbn. by rewrite Hp. Qed.

Lemma has_key_self key value : has_key key (mkParam key value true) = true.
Proof. unfold has_key. by apply bool_decide_true. Qed.

(** The parameters after it, by what they were before. *)
Definition query_update (key value : str) (l l' : list param) : Prop :=
  (exists a old b, l = a ++ old :: b /\ Forall (fun p => has_key key p = false) a /\ has_key key old = true /\
     l' = a ++ mkParam key value true :: b) \/
  (Forall (fun p => has_key key p = false) l /\ l' = l ++ [mkParam key value true]).

Lemma set_query_update key value ex :
  exists l', (set_query_param key value ex).(ex_url) = url_set_params l' ex.(ex_url) /\
    query_update key value (url_params ex.(ex_url)) l'.
Proof.
  destruct (set_query_loop_spec key value ex.(ex_url) (url_params ex.(ex_url)) [] eq_refl ltac:(constructor))
    as [(a & old & b & Hl & Ha & Ho & E)|[Hl E]]; cbn [length app] in E.
  - exists (a ++ mkParam key value true :: b). split; [exact E|]. left. by exists a, old, b.
  - eexists. split; [exact E|]. by right.
Qed.

Lemma query_update_value key value l l' k :
  query_update key value l l' ->
  query_value k l' = if decide (k = key) then Some value else query_value k l.
Proof.
  unfold query_value. intros [(a & old & b & -> & Ha & Ho & ->)|[Hl ->]].
  - case_decide as Hk; [subst k; rewrite find_skip by done; cbn; by rewrite has_key_self|].
    assert (has_key k old = false /\ has_key k (mkParam key value true) = false) as [H1 H2].
    { unfold has_key in *. apply bool_decide_eq_true in Ho. split; apply bool_decide_false; simpl; congruence. }
    clear Ha. induction a as [|p a IH]; cbn; [by rewrite H1, H2|]. by destruct (has_key k p).
  - case_decide as Hk; [subst k; rewrite find_skip by done; cbn; by rewrite has_key_self|].
    assert (has_key k (mkParam key value true) = false) as H2
      by (unfold has_key; apply bool_decide_false; simpl; congruence).
    clear Hl. induction l as [|p l IH]; cbn; [by rewrite H2|]. by destruct (has_key k p).
Qed.

Lemma query_update_others key value l l' :
  query_update key value l l' ->
  List.filter (fun p => negb (has_key key p)) l' = List.filter (fun p => negb (has_key key p)) l.
Proof.
  intros [(a & old & b & -> & Ha & Ho & ->)|[Hl ->]]; rewrite ?List.filter_app; cbn;
    rewrite ?Ho, has_key_self; cbn; by rewrite ?app_nil_r.
Qed.

Lemma first_split key a a' p p' b b' :
  a ++ p :: b = a' ++ p' :: b' ->
  Forall (fun p => has_key key p = false) a -> Forall (fun p => has_key key p = false) a' ->
  has_key key p = true -> has_key key p' = true -> a = a' /\ b = b'.
Proof.
  revert a'. induction a as [|q a IH]; intros [|q' a'] E Ha Ha' Hp Hp'; simplify_eq/=; try done;
    inversion Ha; inversion Ha'; subst; try congruence.
  by destruct (IH a') as [-> ->].
Qed.

Lemma query_update_fun key v l l1 l2 : query_update key v l l1 -> query_update key v l l2 -> l1 = l2.
Proof.
  intros [(a & old & b & -> & Ha & Ho & ->)|[Hl ->]] [(a' & old' & b' & E & Ha' & Ho' & ->)|[Hl' ->]]; [| | |done].
  - by destruct (first_split key _ _ _ _ _ _ E Ha Ha' Ho Ho') as [-> ->].
  - exfalso. apply Forall_app in Hl' as [_ Hl']. inversion Hl'. congruence.
  - exfalso. subst l. apply Forall_app in Hl as [_ Hl]. inversion Hl. congruence.
Qed.

Lemma query_update_again key v v' l l' l'' :
  query_update key v l l' -> query_update key v' l' l'' -> query_update key v' l l''.
Proof.
  intros [(a & old & b & -> & Ha & Ho & ->)|[Hl ->]] [(a' & old' & b' & E & Ha' & Ho' & ->)|[Hl' ->]].
  - destruct (first_split key _ _ _ _ _ _ E Ha Ha') as [-> ->]; [apply has_key_self|done|]. left. by exists a', old, b'.
  - exfalso. apply Forall_app in Hl' as [_ Hl']. inversion Hl'. by rewrite has_key_self in *.
  - right. split; [done|]. destruct (first_split key l a' (mkParam key v true) old' [] b') as [-> <-];
      [exact E|done|done|apply has_key_self|done|done].
  - exfalso. apply Forall_app in Hl' as [_ Hl']. inversion Hl'. by rewrite has_key_self in *.
Qed.

(** C20: [set_query_param] sets one parameter and nothing else.  Reading a key
    afterwards gives the new value for that key and what it gave before for every
    other one; the parameters with other keys are the same, in the same order, and
    one parameter is added exactly when the key was not there; setting it once more
    leaves what setting only the last value would leave; the rest of the URL and of
    the exchange, the request's target included, does not change. *)
Theorem set_query_param_correct key value ex :
  let ex' := set_query_param key value ex in
  let l := url_params ex.(ex_url) in
  let l' := url_params ex'.(ex_url) in
  (forall k, query_value k l' = if decide (k = key) then Some value else query_value k l) /\
  List.filter (fun p => negb (has_key key p)) l' = List.filter (fun p => negb (has_key key p)) l /\
  length l' = length l + (if query_value key l then 0 else 1) /\
  (forall v, url_params (set_query_param key v ex').(ex_url) = url_params (set_query_param key v ex).(ex_url)) /\
  ex'.(ex_request) = ex.(ex_request) /\ ex'.(ex_response) = ex.(ex_response) /\
  ex'.(ex_url).(u_host) = ex.(ex_url).(u_host) /\ ex'.(ex_url).(u_port) = ex.(ex_url).(u_port) /\
  ex'.(ex_url).(u_scheme) = ex.(ex_url).(u_scheme) /\
  ex'.(ex_url).(u_encoded_path) = ex.(ex_url).(u_encoded_path).
Proof.
  cbv zeta. destruct (set_query_update key value ex) as (l' & E & Hup). rewrite E, params_set.
  destruct (set_params_rest l' ex.(ex_url)) as (H1 & H2 & H3 & H4 & H5).
  split_and!; try done.
  - intros k. by apply query_update_value.
  - by eapply query_update_others.
  - unfold query_value. destruct Hup as [(a & old & b & -> & Ha & Ho & ->)|[Hl ->]].
    + rewrite find_skip by done. cbn. rewrite Ho, !length_app. cbn. lia.
    + rewrite <- (app_nil_r (url_params _)), find_skip, !length_app by done. cbn. lia.
  - intros v. destruct (set_query_update key v (set_query_param key value ex)) as (l1 & -> & H1').
    destruct (set_query_update key v ex) as (l2 & -> & H2'). rewrite !params_set.
    rewrite E, params_set in H1'. pose proof (query_update_again _ _ _ _ _ _ Hup H1') as H3'.
    by eapply query_update_fun.
Qed.
End query.

(** ** Witness: parameters kept in a self-delimiting form *)

Module FramedQuery.

Definition put_str (s : str) : str := concat (map (fun c => ["x"%char; c]) s) ++ ["."%char].
Fixpoint get_str (s : str) : str * str :=
  match s with
  | "x"%char :: c :: s' => let '(a, r) := get_str s' in (c :: a, r)
  | _ :: s' => ([], s')
  | [] => ([], [])
  end.
Lemma get_put s r : get_str (put_str s ++ r) = (s, r).
Proof. induction s as [|c s IH]; [done|]. cbn. fold (put_str s). by rewrite IH. Qed.

Definition put_param (p : param) : str :=
  (if p.(p_has_value) then "1"%char else "0"%char) :: put_str p.(p_key) ++ put_str p.(p_value).
Fixpoint get_params (fuel : nat) (s : str) : list param :=
  match fuel, s with
  | S fuel', c :: s' =>
      let '(k, r) := get_str s' in
      let '(v, r') := get_str r in
      mkParam k v (bool_decide (c = "1"%char)) :: get_params fuel' r'
  | _, _ => []
  end.
Definition put_params (l : list param) : str := concat (map put_param l).

Lemma get_put_params l fuel : length l <= fuel -> get_params fuel (put_params l) = l.
Proof.
  revert fuel. induction l as [|p l IH]; intros [|fuel] Hf; simpl in Hf; try lia; [done..|].
  cbn. rewrite <- app_assoc, get_put, get_put. fold (put_params l). rewrite IH by lia.
  by destruct p as [k v []].
Qed.

Lemma put_params_length l : length l <= length (put_params l).
Proof. induction l as [|p l IH]; [done|]. cbn. rewrite length_app. unfold put_params in IH. lia. Qed.

Definition lib : QueryLib := {|
  url_params := fun u => get_params (length u.(u_encoded_query)) u.(u_encoded_query);
  url_set_params := fun l u =>
    mkUrl u.(u_scheme) u.(u_host) u.(u_port) u.(u_path) u.(u_encoded_path) (put_params l);
|}.
Lemma query_laws : @QueryLaws lib.
Proof. split; [|done]. intros l u. cbn. apply get_put_params, put_params_length. Qed.
End FramedQuery.

Lemma set_query_param_correct_witness :
  let ex := set_query_param (H := FramedQuery.lib) (lit "page") (lit "1") (demo_exchange "") in
  query_value (lit "page") (url_params (QueryLib := FramedQuery.lib)
    (set_query_param (H := FramedQuery.lib) (lit "page") (lit "2") ex).(ex_url)) = Some (lit "2").
Proof.
  cbv zeta. set (ex := set_query_param _ _ _).
  destruct (set_query_param_correct (H := FramedQuery.lib) (L := FramedQuery.query_laws) (lit "page") (lit "2") ex) as (Hv & _).
  etransitivity; [exact (Hv (lit "page"))|reflexivity].
Defined.
