(* ===== verification/HttpMonad.v ===== *)
(** * Requests as IOs ([src/include/http_client_monad.hpp])

    [http_io] builds an exchange for a URL; [http_request_io] sends it: it picks
    the proxy ([ProxyPool], [NO_PROXY]), runs [HttpClientManager::http_request]
    ([HttpManager]) and stores the response in the exchange ([HttpExchange]).
    The exchange and the manager's proxy pool are shared objects: cells.
    [clock k] is the [k]-th reading of [steady_clock], and [ticks] counts the
    readings; the environment is an argument. *)

From Stdlib Require Import ZArith Lia Ascii String.
From stdpp Require Import base list gmap fin_maps strings.
From S2P Require Import Prelude Json ResultMonad Asio IoMonad Protocol Http HttpSession ConnectionPool.
From S2P Require Import HttpManager ProxyPool HttpExchange.

(** ** NO_PROXY *)

Definition trim_ws (s : str) : str := rtrim_by is_ws (ltrim_by is_ws s).

(** [std::getenv]. *)
Definition environment : Type := str -> option str.

(** The port of a token is cut off when it is a number. *)
Definition strip_port (token : str) : str :=
  match rfind_char ":" token with
  | None => token
  | Some pos =>
      let port_part := drop (pos + 1) token in
      match port_part with
      | [] => token
      | _ => if forallb is_digit port_part then trim_ws (take pos token) else token
      end
  end.

(** Whether one trimmed token excludes the host from proxying. *)
Definition token_bypasses (host_lc token : str) : bool :=
  match token with
  | [] => false
  | _ =>
      if bool_decide (token = lit "*") then true
      else
        let token_lc := to_lower (strip_port token) in
        match token_lc with
        | [] => false
        | _ =>
            if bool_decide (host_lc = token_lc) then true
            else
              let '(suffix, require_dot) :=
                match token_lc with
                | "."%char :: s => (s, true)
                | _ => (token_lc, false)
                end in
              match suffix with
              | [] => false
              | _ =>
                  if (length suffix <? length host_lc)%nat && ends_with suffix host_lc then
                    let dot_pos := length host_lc - length suffix in
                    negb require_dot ||
                    ((0 <? dot_pos)%nat && bool_decide (host_lc !! (dot_pos - 1) = Some "."%char))
                  else false
              end
        end
  end.

(** The loop over the list; a turn drops at least one character. *)
Fixpoint no_proxy_loop (fuel : nat) (host_lc lst : str) : bool :=
  match fuel with
  | 0 => false
  | S f =>
      match lst with
      | [] => false
      | _ =>
          let comma := find_char "," lst in
          let token := trim_ws (match comma with None => lst | Some i => take i lst end) in
          if token_bypasses host_lc token then true
          else match comma with
               | None => false
               | Some i => no_proxy_loop f host_lc (drop (i + 1) lst)
               end
      end
  end.

Definition getenv_nonempty (env : environment) (name : str) : option str :=
  match env name with Some (c :: s) => Some (c :: s) | _ => None end.

Definition no_proxy_list (env : environment) : option str :=
  match getenv_nonempty env (lit "NO_PROXY") with
  | Some l => Some l
  | None => getenv_nonempty env (lit "no_proxy")
  end.

Definition should_bypass_env_proxy (env : environment) (u : url) : bool :=
  match no_proxy_list env with
  | None => false
  | Some lst =>
      match u.(u_host) with
      | [] => false
      | h => no_proxy_loop (S (length lst)) (to_lower h) lst
      end
  end.

(** ** [http_io] *)

Inductive tag := GetStringTag | GetStatusTag | PostJsonTag | GetFileTag | GetHeaderTag | DeleteTag.

(** [TagTraits<Tag>::Response]. *)
Definition response_body_of_tag (t : tag) : body_kind :=
  match t with
  | GetStringTag | PostJsonTag => StringBody
  | GetFileTag => FileBody
  | GetStatusTag | GetHeaderTag | DeleteTag => EmptyBody
  end.

Definition tag_method (t : tag) : str :=
  match t with
  | GetStatusTag | GetHeaderTag => lit "HEAD"
  | GetStringTag | GetFileTag => lit "GET"
  | DeleteTag => lit "DELETE"
  | PostJsonTag => lit "POST"
  end.

Definition tag_request (t : tag) : request :=
  let q := mkRequest (tag_method t) [] [] [] true in
  match t with
  | PostJsonTag => set_header (lit "Content-Type") (lit "application/json") q
  | _ => q
  end.

(** ** Shared objects *)

#[export] Instance enc_ProxySetting : Enc ProxySetting.
Proof.
  refine (enc_via
    (fun p => (p.(p_host), p.(p_port), p.(p_username), p.(p_password), p.(p_from_env), p.(p_disabled)))
    (fun '(h, po, u, pw, e, d) => mkProxy h po u pw e d) _).
  by intros [].
Defined.

#[export] Instance enc_ProxyPool : Enc ProxyPool.
Proof.
  refine (enc_via (fun p => (p.(proxies), map_to_list p.(blacklist_), Z.of_nat p.(index_)))
    (fun '(l, m, i) => mkProxyPool l (list_to_map m) (Z.to_nat i)) _).
  intros [l m i]. simpl. by rewrite list_to_map_to_list, Nat2Z.id.
Defined.

#[export] Instance enc_request : Enc request.
Proof.
  refine (enc_via
    (fun q => (q.(q_method), q.(q_target), q.(q_fields), q.(q_body), q.(q_keep_alive)))
    (fun '(m, t, f, b, k) => mkRequest m t f b k) _).
  by intros [].
Defined.

#[export] Instance enc_response : Enc response.
Proof.
  refine (enc_via (fun r => (r.(s_status), r.(s_fields), r.(s_body), r.(s_keep_alive)))
    (fun '(s, f, b, k) => mkResponse s f b k) _).
  by intros [].
Defined.

#[export] Instance enc_url : Enc url.
Proof.
  refine (enc_via
    (fun u => (u.(u_scheme), u.(u_host), u.(u_port), u.(u_path), u.(u_encoded_path), u.(u_encoded_query)))
    (fun '(s, h, p, pa, ep, eq) => mkUrl s h p pa ep eq) _).
  by intros [].
Defined.

#[export] Instance enc_HttpExchange : Enc HttpExchange.
Proof.
  refine (enc_via
    (fun e => (e.(ex_body_file), e.(ex_follow_redirect), e.(ex_no_modify_req), e.(ex_no_proxy_pool),
               e.(ex_proxy), e.(ex_request), e.(ex_response), e.(ex_response_file), e.(ex_url),
               e.(ex_timeout)))
    (fun '(b, f, n, np, p, q, r, rf, u, t) => mkExchange b f n np p q r rf u t) _).
  by intros [].
Defined.

(** ** [http_request_io] *)

Abbreviation session_reply := (option response * Z)%type.

(** The effects of the transport are left open: the manager's sessions here, the
    network in [RequestOverNetwork]. *)
Section request.
Context `{UrlLib} {O R X : Type} (env : environment) (clock : nat -> Z) (beast_version : str).
Abbreviation prg := (prog O R X).
Context (ticks : loc) (proxy_pool : option loc).

(** [http_io<Tag>(url)]: each run makes a new exchange. *)
Definition http_io (t : tag) (u : url) : IO O R X loc := fun cb =>
  ex ← new (new_exchange u (tag_request t));
  cb (Ok ex).

(** The readings of the clock during an operation that reads it at most [n] times. *)
Definition readings (n : nat) : prg (nat -> Z) :=
  k ← read (T := Z) ticks;
  write ticks (k + Z.of_nat n)%Z;;
  mret (fun j => clock (Z.to_nat k + j)).

Definition has_proxy_pool : prg bool :=
  match proxy_pool with
  | None => mret false
  | Some l => p ← read l; mret (negb (proxies_empty p))
  end.

Definition borrow_proxy : prg (option ProxySetting) :=
  match proxy_pool with
  | None => mret None
  | Some l =>
      p ← read l;
      c ← readings (S (proxies_size p));
      match next c p with
      | None => Fault
      | Some (r, p') => write l p';; mret r
      end
  end.

Definition request_params (e : HttpExchange) : HttpClientRequestParams :=
  params_with_timeout e.(ex_body_file) e.(ex_follow_redirect) e.(ex_no_modify_req) true e.(ex_timeout).

(** [req]: a copy, with the agent and the target set. *)
Definition outgoing_request (e : HttpExchange) : request :=
  if e.(ex_no_modify_req) then e.(ex_request)
  else set_target (raw_target e.(ex_url))
         (set_header (lit "User-Agent") beast_version e.(ex_request)).

(** A missing proxy is borrowed; one from the environment gives way to NO_PROXY. *)
Definition choose_proxy (ex : loc) : prg unit :=
  e ← read ex;
  has ← (match e.(ex_proxy) with
         | Some _ => mret false
         | None => if e.(ex_no_proxy_pool) then mret false else has_proxy_pool
         end);
  (if has : bool then p ← borrow_proxy; write ex (with_proxy p e) else mret tt);;
  e ← read ex;
  match e.(ex_proxy) with
  | Some p =>
      if p.(p_from_env) && should_bypass_env_proxy env e.(ex_url)
      then write ex (with_proxy None e) else mret tt
  | None => mret tt
  end.

Definition on_response (ex : loc) (cb : callback O R X loc) (rep : session_reply) : prg unit :=
  e ← read ex;
  match rep with
  | (Some resp, 0%Z) => write ex (with_response (Some resp) e);; cb (Ok ex)
  | (_, err) =>
      cb (Err (make_error err (lit "http_request_io failed, url: " ++ url_buffer e.(ex_url))))
  end.

(** [request]: what the manager does with what it is given. *)
Definition request_io (request : request -> HttpClientRequestParams -> option ProxySetting ->
    (session_reply -> prg unit) -> url -> prg unit) (ex : loc) : IO O R X loc := fun cb =>
  choose_proxy ex;;
  e ← read ex;
  request (outgoing_request e) (request_params e) e.(ex_proxy) (on_response ex cb) e.(ex_url).
End request.

Definition http_request_io `{UrlLib} {X} (env : environment) (clock : nat -> Z) (beast_version : str)
    (ticks : loc) (proxy_pool : option loc) (ex : loc) : IO session_op session_reply X loc :=
  request_io env clock beast_version ticks proxy_pool http_request ex.

(** ** NO_PROXY: which hosts are excluded *)

(** A host is excluded by an entry when the entry, without its port and without
    regard to case, is ["*"], the host itself, a domain with a leading dot that
    the host is in, or a text without a leading dot that the host ends with. *)
Definition excludes (host_lc token : str) : Prop :=
  token = lit "*" \/
  (token <> [] /\
   let t := to_lower (strip_port token) in
   t <> [] /\
   (host_lc = t \/
    (exists domain pre, t = "."%char :: domain /\ domain <> [] /\
        host_lc = pre ++ "."%char :: domain) \/
    (t !! 0 <> Some "."%char /\ exists pre, pre <> [] /\ host_lc = pre ++ t))).

Lemma ends_with_spec p s :
  (length p <? length s)%nat && ends_with p s = true <-> exists pre, pre <> [] /\ s = pre ++ p.
Proof.
  unfold ends_with. split.
  - intros H. bool_to_prop. exists (take (length s - length p) s). split.
    + intros E. apply (f_equal length) in E. rewrite length_take in E. simpl in E. lia.
    + rewrite <- (take_drop (length s - length p) s) at 1. congruence.
  - intros (pre & Hne & ->). rewrite length_app.
    assert (0 < length pre) by (destruct pre; simpl; [done|lia]).
    rewrite (proj2 (Nat.ltb_lt _ _)) by lia. rewrite (proj2 (Nat.leb_le _ _)) by lia.
    replace (length pre + length p - length p) with (length pre) by lia.
    simpl. apply bool_decide_eq_true. by rewrite drop_app_length.
Qed.

(** A proper suffix preceded by a dot. *)
Lemma dotted_suffix_spec p s :
  p <> [] ->
  (length p <? length s)%nat && ends_with p s = true /\
  (0 <? length s - length p)%nat && bool_decide (s !! (length s - length p - 1) = Some "."%char) = true
  <-> exists pre, s = pre ++ "."%char :: p.
Proof.
  intros Hp. rewrite ends_with_spec. split.
  - intros [(pre & Hne & ->) H]. bool_to_prop. rewrite length_app in *.
    replace (length pre + length p - length p - 1) with (length pre - 1) in * by lia.
    destruct (exists_last Hne) as (pre' & c & ->). rewrite length_app in *. simpl in *.
    rewrite <- app_assoc in *. rewrite lookup_app_r in * by lia.
    replace (length pre' + 1 - 1 - length pre') with 0 in * by lia. simplify_eq/=. by exists pre'.
  - intros (pre & ->). split.
    + exists (pre ++ lit "."). split; [by destruct pre|]. by rewrite <- app_assoc.
    + rewrite length_app. simpl. rewrite andb_true_iff, Nat.ltb_lt, bool_decide_eq_true.
      split; [lia|]. rewrite lookup_app_r by lia.
      by replace (length pre + S (length p) - length p - 1 - length pre) with 0 by lia.
Qed.

Lemma token_bypasses_spec host_lc token :
  host_lc <> [] -> (token_bypasses host_lc token = true <-> excludes host_lc token).
Proof.
  intros Hh. unfold token_bypasses, excludes. destruct token as [|c token'] eqn:Etok.
  { split; [done|]. intros [?|[? _]]; done. }
  rewrite <- Etok. case_bool_decide as Hstar; [tauto|].
  assert (Hne : token <> []) by congruence.
  destruct (to_lower (strip_port token)) as [|d t] eqn:Et; [naive_solver|].
  case_bool_decide as Heq; [naive_solver|].
  destruct (decide (d = "."%char)) as [->|Hd].
  - split.
    + intros H. right. split; [done|]. split; [done|]. right; left.
      destruct t as [|e t]; [done|].
      destruct ((length (e :: t) <? length host_lc)%nat && ends_with (e :: t) host_lc) eqn:E1; [|done].
      cbn [negb orb] in H.
      destruct (proj1 (dotted_suffix_spec (e :: t) host_lc ltac:(done)) (conj E1 H)) as (pre & ->).
      by exists (e :: t), pre.
    + intros [?|(_ & _ & [?|[(dom & pre & E & Hdom & ->)|[? _]]])]; try done.
      simplify_eq. destruct dom as [|e dom]; [done|].
      destruct (proj2 (dotted_suffix_spec (e :: dom) (pre ++ "."%char :: e :: dom) Hdom)
                  (ex_intro _ pre eq_refl)) as [E1 E2].
      rewrite E1. exact E2.
  - assert (Hs : match d :: t with "."%char :: s => (s, true) | _ => (d :: t, false) end =
                 (d :: t, false)).
    { destruct d as [[] [] [] [] [] [] [] []]; try reflexivity; done. }
    rewrite Hs. cbn [negb orb].
    split.
    + intros H. right. split; [done|]. split; [done|]. right; right. split; [intros [= ?]; done|].
      apply ends_with_spec. by destruct (_ && _).
    + intros [?|(_ & _ & [?|[(dom & pre & E & _)|[_ Hex]]])]; try done; [congruence|].
      apply ends_with_spec in Hex. by rewrite Hex.
Qed.

Lemma no_proxy_loop_spec host_lc fuel : forall lst,
  length lst < fuel ->
  no_proxy_loop fuel host_lc lst = existsb (token_bypasses host_lc) (map trim_ws (split_on "," lst)).
Proof.
  induction fuel as [|fuel IH]; intros lst Hf; [lia|].
  assert (Hnil : token_bypasses host_lc (trim_ws []) = false) by done.
  destruct lst as [|c lst']; [done|]. set (lst := c :: lst') in *. cbn [no_proxy_loop].
  unfold lst at 1. fold lst. destruct (find_char "," lst) as [i|] eqn:E.
  - destruct (find_char_Some _ _ _ E) as (a & b & El & Hl & Ha). clearbody lst. subst lst i.
    rewrite split_on_app by done. cbn [map existsb]. rewrite take_app_length.
    rewrite IH.
    + rewrite drop_app_add. simpl. by destruct (token_bypasses host_lc (trim_ws a)).
    + rewrite length_drop. rewrite length_app in *. simpl in *. lia.
  - apply find_char_None in E. clearbody lst. rewrite split_on_none by done. cbn [map existsb].
    by destruct (token_bypasses host_lc (trim_ws lst)).
Qed.

(** ** One run of [http_request_io] *)

(** The proxy a run uses, and the pool it leaves. *)
Definition proxy_choice (env : environment) (clock : nat -> Z) (e : HttpExchange)
    (pool : option ProxyPool) : option (option ProxySetting * option ProxyPool) :=
  '(p, pool') ←
    (match e.(ex_proxy), pool with
     | None, Some pp =>
         if e.(ex_no_proxy_pool) || proxies_empty pp then Some (None, pool)
         else '(r, pp') ← next clock pp; Some (r, Some pp')
     | p, _ => Some (p, pool)
     end);
  Some (match p with
        | Some x => if x.(p_from_env) && should_bypass_env_proxy env e.(ex_url) then None else Some x
        | None => None
        end, pool').

(** The readings of the clock from the [k]-th on. *)
Definition from_tick (clock : nat -> Z) (k : Z) : nat -> Z := fun j => clock (Z.to_nat k + j).

(** The cells of a run: the exchange, the tick counter and the pool. *)
Record cells (ticks ex : loc) (pl : option loc) (k : Z) (e : HttpExchange) (pool : option ProxyPool)
    (h : list val) : Prop := {
  cell_ticks : h !! ticks = Some (enc k);
  cell_ex : h !! ex = Some (enc e);
  cell_pool : match pl, pool with
              | Some l, Some pp => h !! l = Some (enc pp) /\ l <> ex /\ l <> ticks
              | None, None => True
              | _, _ => False
              end;
  cell_ne : ex <> ticks;
}.

Lemma cells_set_ex ticks ex pl k e e' pool h :
  cells ticks ex pl k e pool h -> cells ticks ex pl k e' pool (<[ex := enc e']> h).
Proof.
  intros [Ht Hx Hp Hn]. pose proof (lookup_lt_Some _ _ _ Hx). split; try done.
  - by rewrite list_lookup_insert_ne.
  - by rewrite list_lookup_insert_eq.
  - destruct pl, pool; try done. destruct Hp as (? & ? & ?). by rewrite list_lookup_insert_ne.
Qed.

Lemma cells_set_ticks ticks ex pl k k' e pool h :
  cells ticks ex pl k e pool h -> cells ticks ex pl k' e pool (<[ticks := enc k']> h).
Proof.
  intros [Ht Hx Hp Hn]. pose proof (lookup_lt_Some _ _ _ Ht). split; try done.
  - by rewrite list_lookup_insert_eq.
  - by rewrite list_lookup_insert_ne.
  - destruct pl, pool; try done. destruct Hp as (? & ? & ?). by rewrite list_lookup_insert_ne.
Qed.

Lemma cells_set_pool ticks ex l k e pp pp' h :
  cells ticks ex (Some l) k e (Some pp) h ->
  cells ticks ex (Some l) k e (Some pp') (<[l := enc pp']> h).
Proof.
  intros [Ht Hx (Hl & ? & ?) Hn]. pose proof (lookup_lt_Some _ _ _ Hl). split; try done.
  - by rewrite list_lookup_insert_ne.
  - by rewrite list_lookup_insert_ne.
  - by rewrite list_lookup_insert_eq.
Qed.

Section run.
Context `{UrlLib} {O R X : Type} (env : environment) (clock : nat -> Z) (beast_version : str).
Context (ticks ex : loc).
Abbreviation wrld := (world O R X).

Definition with_heap (h : list val) (w : wrld) : wrld := w_heap (fun _ => h) w.

Lemma with_heap_self w : with_heap w.(heap) w = w.
Proof. by destruct w. Qed.

Lemma borrow_exec k e pp l (w : wrld) r pp' :
  cells ticks ex (Some l) k e (Some pp) w.(heap) ->
  next (from_tick clock k) pp = Some (r, pp') ->
  exists h k', exec (borrow_proxy clock ticks (Some l)) w = (Returned r, with_heap h w) /\
    cells ticks ex (Some l) k' e (Some pp') h.
Proof.
  intros Hc Hnext. unfold borrow_proxy, readings. rewrite !exec_mbind.
  destruct (cell_pool _ _ _ _ _ _ _ Hc) as (Hl & ? & ?).
  rewrite (exec_read _ pp) by done. rewrite !exec_mbind.
  rewrite (exec_read _ k) by apply Hc. rewrite exec_mbind.
  rewrite exec_write by (eapply lookup_lt_Some, Hc). cbn [exec mret prog_ret].
  fold (from_tick clock k). rewrite Hnext. rewrite exec_mbind, exec_write.
  - eexists _, _. split; [reflexivity|]. apply cells_set_pool with (pp := pp).
    apply cells_set_ticks with (k := k). exact Hc.
  - simpl. rewrite length_insert. by eapply lookup_lt_Some.
Qed.

Lemma has_proxy_exec l pp (w : wrld) :
  w.(heap) !! l = Some (enc pp) ->
  exec (has_proxy_pool (Some l)) w = (Returned (negb (proxies_empty pp)), w).
Proof. intros Hl. unfold has_proxy_pool. by rewrite exec_mbind, (exec_read _ pp). Qed.

Lemma choose_proxy_exec pl k e pool (w : wrld) px pool' :
  cells ticks ex pl k e pool w.(heap) ->
  proxy_choice env (from_tick clock k) e pool = Some (px, pool') ->
  exists h k', exec (choose_proxy env clock ticks pl ex) w = (Returned tt, with_heap h w) /\
    cells ticks ex pl k' (with_proxy px e) pool' h.
Proof.
  intros Hc Hch. unfold choose_proxy. rewrite exec_mbind, (exec_read _ e) by apply Hc.
  (* the borrowed proxy *)
  assert (Hb : exists p1 h1 k1, (forall A (K : prog O R X A),
      exec (has ← (match e.(ex_proxy) with
                   | Some _ => mret false
                   | None => if e.(ex_no_proxy_pool) then mret false else has_proxy_pool pl
                   end);
            (if has : bool then p ← borrow_proxy clock ticks pl; write ex (with_proxy p e) else mret tt);; K) w =
      exec K (with_heap h1 w)) /\
    cells ticks ex pl k1 (with_proxy p1 e) pool' h1 /\
    px = match p1 with
         | Some x => if x.(p_from_env) && should_bypass_env_proxy env e.(ex_url) then None else Some x
         | None => None
         end).
  { assert (Hself : with_proxy e.(ex_proxy) e = e) by (by destruct e).
    unfold proxy_choice in Hch. destruct e.(ex_proxy) as [x|] eqn:Ex.
    - simpl in Hch. simplify_eq. exists (Some x), w.(heap), k. rewrite Hself, with_heap_self.
      by split_and!.
    - pose proof (cell_pool _ _ _ _ _ _ _ Hc) as Hp. destruct pool as [pp|], pl as [l|]; try done.
      + destruct (e.(ex_no_proxy_pool)) eqn:En.
        { simpl in Hch. simplify_eq. exists None, w.(heap), k. rewrite Hself, with_heap_self.
          by split_and!. }
        destruct (proxies_empty pp) eqn:Ee.
        { simpl in Hch. simplify_eq. exists None, w.(heap), k. rewrite Hself, with_heap_self.
          split_and!; [|done|done]. intros A K. rewrite exec_mbind, (has_proxy_exec _ pp) by apply Hp. by rewrite Ee. }
        simpl in Hch. destruct (next (from_tick clock k) pp) as [[r pp']|] eqn:Enx; [|done].
        simpl in Hch. simplify_eq.
        destruct (borrow_exec k e pp l w r pp' Hc Enx) as (h & k' & E & Hc').
        exists r, (<[ex := enc (with_proxy r e)]> h), k'. split_and!; [|by eapply cells_set_ex|done].
        intros A K. rewrite exec_mbind, (has_proxy_exec _ pp), Ee by apply Hp.
        cbn [negb]. rewrite !exec_mbind, E. rewrite exec_write; [done|].
        eapply lookup_lt_Some, Hc'.
      + simpl in Hch. simplify_eq. exists None, w.(heap), k. rewrite Hself, with_heap_self.
        split_and!; [|done|done]. intros A K. by destruct (e.(ex_no_proxy_pool)). }
  destruct Hb as (p1 & h1 & k1 & Hex & Hc1 & ->). rewrite Hex.
  rewrite exec_mbind, (exec_read _ (with_proxy p1 e)) by apply Hc1.
  cbn [ex_proxy with_proxy ex_url]. destruct p1 as [x|]; [|by exists h1, k1].
  destruct (p_from_env x && should_bypass_env_proxy env (ex_url e)); [|by exists h1, k1].
  rewrite exec_write by (eapply lookup_lt_Some, Hc1).
  eexists _, k1. split; [reflexivity|]. apply (cells_set_ex _ _ _ _ _ (with_proxy None e)) in Hc1. exact Hc1.
Qed.

(** The request once the proxy is chosen. *)
Lemma request_io_starts request pl k e pool cb (w : wrld) px pool' :
  cells ticks ex pl k e pool w.(heap) ->
  proxy_choice env (from_tick clock k) e pool = Some (px, pool') ->
  exists h k', cells ticks ex pl k' (with_proxy px e) pool' h /\
    exec (request_io env clock beast_version ticks pl request ex cb) w =
    exec (request (outgoing_request beast_version e) (request_params e) px (on_response ex cb) e.(ex_url))
      (with_heap h w).
Proof.
  intros Hc Hpx. destruct (choose_proxy_exec pl k e pool w px pool' Hc Hpx) as (h & k' & Hex & Hc').
  exists h, k'. split; [done|]. unfold request_io. rewrite exec_mbind, Hex.
  by rewrite exec_mbind, (exec_read _ (with_proxy px e)) by apply Hc'.
Qed.

(** A caller's callback that observes [f] of the exchange or of the error. *)
Definition observing (f : Result HttpExchange Error -> X) : callback O R X loc := fun r =>
  match r with
  | Ok l => e ← read (T := HttpExchange) l; emit (f (Ok e))
  | Err er => emit (f (Err er))
  end.

(** What a run ends with, for the last reply. *)
Definition exchange_result (e : HttpExchange) (rep : session_reply) : Result HttpExchange Error :=
  match rep with
  | (Some resp, 0%Z) => Ok (with_response (Some resp) e)
  | (_, err) =>
      Err (make_error err (lit "http_request_io failed, url: " ++ url_buffer e.(ex_url)))
  end.

Lemma on_response_exec f e rep (w : wrld) :
  w.(heap) !! ex = Some (enc e) ->
  exists h, exec (on_response ex (observing f) rep) w =
    (Returned tt, w_emit (f (exchange_result e rep)) (with_heap h w)).
Proof.
  intros Hx. pose proof (lookup_lt_Some _ _ _ Hx) as Hlt.
  unfold on_response, exchange_result. rewrite exec_mbind, (exec_read _ e) by done.
  destruct rep as [[resp|] [|z|z]];
    try (exists w.(heap); rewrite with_heap_self; done).
  rewrite exec_mbind, exec_write by done. eexists. unfold observing.
  rewrite exec_mbind, (exec_read _ (with_response (Some resp) e)); [reflexivity|].
  simpl. by rewrite list_lookup_insert_eq.
Qed.
End run.

(** The caller's callback, as the tests observe it: the exchange, or the error. *)
Definition observe : callback session_op session_reply (Result HttpExchange Error) loc := observing id.

Section correct.
Context `{UrlLib} (env : environment) (clock : nat -> Z) (beast_version : str).
Context (ticks ex : loc) (pl : option loc).
Abbreviation wrld := (world session_op session_reply (Result HttpExchange Error)).

Lemma on_response_quiet rep : quiet (on_response ex observe rep).
Proof.
  apply quiet_bind; [apply quiet_read|]. intros e.
  destruct rep as [[resp|] [|z|z]]; try apply quiet_emit.
  apply quiet_bind; [apply quiet_write|]. intros [].
  apply quiet_bind; [apply quiet_read|]. intros e'. apply quiet_emit.
Qed.

Lemma on_response_run e rep (w : wrld) :
  w.(heap) !! ex = Some (enc e) ->
  exists h, run (on_response ex observe rep) w = w_emit (exchange_result e rep) (with_heap h w).
Proof.
  intros Hx. destruct (on_response_exec ex id e rep w Hx) as (h & Hex). exists h. unfold run, observe. by rewrite Hex.
Qed.

Lemma proxy_choice_total e pool c :
  (forall pp, pool = Some pp -> pool_ok pp) ->
  exists px pool', proxy_choice env c e pool = Some (px, pool').
Proof.
  intros Hp. unfold proxy_choice. destruct e.(ex_proxy) as [x|]; [simpl; eauto|].
  destruct pool as [pp|]; [|simpl; eauto].
  destruct (e.(ex_no_proxy_pool) || proxies_empty pp) eqn:E; [simpl; eauto|].
  apply orb_false_iff in E as [_ E].
  destruct (pool_ok_cases pp (Hp _ eq_refl)) as [Hem|(l & Hl & Hi)]; [congruence|].
  destruct (next_spec c pp l Hl Hi) as (r & i' & -> & _). simpl. eauto.
Qed.

Lemma proxy_choice_direct e pool c px pool' :
  e.(ex_proxy) = None -> e.(ex_no_proxy_pool) = true ->
  proxy_choice env c e pool = Some (px, pool') -> px = None.
Proof. unfold proxy_choice. intros -> ->. destruct pool; simpl; congruence. Qed.

(** C11: One run of [http_request_io], under every schedule: the proxy is the
    exchange's own or, unless it asks for none, the next of the manager's pool,
    and one that came from the environment gives way to NO_PROXY; with that
    proxy [http_request] is run on the exchange's URL, with its timeout for
    every step; the callback comes at most once, and exactly once when no
    session is running: with the exchange, now holding the response, or with an
    error carrying the session's code and the URL.  An exchange that refuses the
    pool and has no proxy connects directly. *)
Theorem http_request_io_runs k e pool es (w0 w : wrld) :
  w0.(ops) = [] -> w0.(timers) = [] -> w0.(posted) = [] -> w0.(started) = [] ->
  w0.(trace) = [] -> w0.(faulted) = false -> w0.(escaped) = [] ->
  cells ticks ex pl k e pool w0.(heap) ->
  (forall pp, pool = Some pp -> pool_ok pp) ->
  steps es (run (http_request_io env clock beast_version ticks pl ex observe) w0) = Some w ->
  exists px pool', proxy_choice env (from_tick clock k) e pool = Some (px, pool') /\
  let rs := op_replies es in
  let q := outgoing_request beast_version e in
  let ps := request_params e in
  w.(started) = map (session_for q ps px) (url_chain q ps 5 e.(ex_url) rs) /\
  w.(trace) = (exchange_result (with_proxy px e) <$> option_list (final_reply q ps 5 e.(ex_url) rs)) /\
  (w.(ops) = [] <-> length w.(trace) = 1) /\
  (e.(ex_proxy) = None -> e.(ex_no_proxy_pool) = true ->
     Forall (fun o => o.(so_proxy) = None) w.(started)) /\
  w.(faulted) = false /\ w.(escaped) = [].
Proof.
  intros Ho Ht Hp Hst Htr Hf He Hc Hpool Hs.
  destruct (proxy_choice_total e pool (from_tick clock k) Hpool) as (px & pool' & Hpx).
  exists px, pool'. split; [done|]. cbv zeta.
  destruct (request_io_starts env clock beast_version ticks ex http_request pl k e pool observe w0 px pool' Hc Hpx)
    as (h & k' & Hc' & Hex).
  assert (Hrun : run (http_request_io env clock beast_version ticks pl ex observe) w0 =
    run (redirect_step (outgoing_request beast_version e) (request_params e) px
           (on_response ex observe) 5 e.(ex_url)) (with_heap h w0)).
  { unfold run, http_request_io. by rewrite Hex. }
  rewrite Hrun in Hs.
  pose proof (redirect_loop_runs _ _ _ _ es 5 e.(ex_url) (with_heap h w0) w
    on_response_quiet Ho Ht Hp Hs) as Hw. cbv zeta in Hw.
  assert (Hdir : forall us, e.(ex_proxy) = None -> e.(ex_no_proxy_pool) = true ->
    Forall (fun o => o.(so_proxy) = None)
      (map (session_for (outgoing_request beast_version e) (request_params e) px) us)).
  { intros us H1 H2. rewrite (proxy_choice_direct _ _ _ _ _ H1 H2 Hpx). apply Forall_map, Forall_true. done. }
  destruct (final_reply _ _ 5 (ex_url e) (op_replies es)) as [rep|].
  - destruct (on_response_run (with_proxy px e) rep (after_sessions
      (map (session_for (outgoing_request beast_version e) (request_params e) px)
         (url_chain (outgoing_request beast_version e) (request_params e) 5 e.(ex_url) (op_replies es)))
      (with_heap h w0))) as (h' & Hr); [apply Hc'|].
    rewrite Hr in Hw. subst w. simpl. rewrite Hst, Htr. split_and!; try done. by apply Hdir.
  - destruct Hw as (o & ->). simpl. rewrite Hst, Htr. split_and!; try done. by apply Hdir.
Qed.
End correct.

(** C19: [NO_PROXY] (or [no_proxy] when that is empty) excludes the host of a URL
    exactly when one of its comma-separated entries does: ["*"], the host
    itself, a domain written with a leading dot that the host is in, or a text
    the host ends with; case, blanks around an entry and its port are
    ignored. *)
Theorem no_proxy_excludes env u :
  should_bypass_env_proxy env u = true <->
  exists lst, no_proxy_list env = Some lst /\ u.(u_host) <> [] /\
    exists entry, entry ∈ split_on "," lst /\ excludes (to_lower u.(u_host)) (trim_ws entry).
Proof.
  unfold should_bypass_env_proxy. destruct (no_proxy_list env) as [lst|]; [|naive_solver].
  destruct u.(u_host) as [|c h] eqn:Eh; [naive_solver|].
  rewrite no_proxy_loop_spec by lia. rewrite existsb_exists. split.
  - intros (t & Hin & Hb). apply in_map_iff in Hin as (entry & <- & Hin).
    apply token_bypasses_spec in Hb; [|done].
    exists lst. split_and!; try done. exists entry. by rewrite list_elem_of_In.
  - intros (lst' & [= ->] & _ & entry & Hin & Hx). exists (trim_ws entry).
    split; [apply in_map; by rewrite <- list_elem_of_In|]. by apply token_bypasses_spec.
Qed.

(** An entry without a leading dot also excludes hosts outside the domain. *)
Lemma no_proxy_excludes_other_domains :
  token_bypasses (lit "notexample.com") (lit "example.com") = true.
Proof. reflexivity. Qed.

(** An IPv6 address is taken for a host with a port: the entry excludes nothing. *)
Lemma no_proxy_ignores_ipv6 : strip_port (lit "::1") = lit ":".
Proof. reflexivity. Qed.

(** ** Witness: a GET through the pool's proxy *)

Definition io_demo_exchange : HttpExchange := new_exchange demo_url (tag_request GetStringTag).
Definition io_demo_pool : ProxyPool := init_pool [demo_proxy "p"].
Definition io_demo_start : world session_op session_reply (Result HttpExchange Error) :=
  mkWorld [enc 0%Z; enc io_demo_exchange; enc io_demo_pool] [] 0 [] 0 [] [] [] [] [] false.
Definition io_demo_events : list (event session_reply) := [EvOp 0 (Some demo_found, 0%Z)].
Definition io_demo_world : world session_op session_reply (Result HttpExchange Error) :=
  default io_demo_start (steps io_demo_events
    (run (http_request_io (H := demo_urls) (fun _ => None) (fun _ => 0%Z) (lit "beast") 0 (Some 2) 1
            observe) io_demo_start)).

Lemma http_request_io_runs_witness :
  map so_proxy io_demo_world.(started) = [Some (demo_proxy "p")] /\
  (io_demo_world.(ops) = [] <-> length io_demo_world.(trace) = 1).
Proof.
  split; [vm_compute; reflexivity|].
  assert (Hs : steps io_demo_events
    (run (http_request_io (H := demo_urls) (fun _ => None) (fun _ => 0%Z) (lit "beast") 0 (Some 2) 1
            observe) io_demo_start) = Some io_demo_world) by (vm_compute; reflexivity).
  assert (Hc : cells 0 1 (Some 2) 0 io_demo_exchange (Some io_demo_pool) io_demo_start.(heap)).
  { split; [reflexivity|reflexivity| |discriminate]. split_and!; [reflexivity|discriminate|discriminate]. }
  destruct (http_request_io_runs (H := demo_urls) (fun _ => None) (fun _ => 0%Z) (lit "beast") 0 1
    (Some 2) 0 io_demo_exchange (Some io_demo_pool) io_demo_events io_demo_start io_demo_world
    eq_refl eq_refl eq_refl eq_refl eq_refl eq_refl eq_refl Hc
    ltac:(intros pp [= <-]; right; simpl; lia) Hs) as (px & pool' & _ & _ & _ & Hd & _).
  exact Hd.
Defined.
