(* ===== verification/RequestOverNetwork.v ===== *)
(** * [http_request_io] down to the network ([src/include/http_client_monad.hpp] over
    [src/include/http_client_manager.hpp] and [src/include/http_session.hpp])

    [HttpMonad] runs a request through the manager, one operation per session;
    [RedirectSessions] runs the manager's sessions on the network.  Here the two are
    one program: the callback of the last session stores the response in the
    exchange, in the handler of the last read.  The theorem is the refinement of the
    whole by the run of [HttpMonad]. *)

From Stdlib Require Import ZArith Lia Ascii String.
From stdpp Require Import base list gmap strings.
From S2P Require Import Prelude Json ResultMonad Asio IoMonad Protocol Http HttpSession ConnectionPool HttpManager.
From S2P Require Import RedirectSessions ProxyPool HttpExchange HttpMonad.

(** What a session to [u] may do on the network with the proxy [px]: look up [u]'s host
    or the proxy's, and ask no other proxy for a tunnel. *)
Definition allowed (px : option ProxySetting) (u : url) (o : net_op) : Prop :=
  match o with
  | NResolve host port =>
      (host = u.(u_host) /\ port = effective_port (is_https u) u) \/
      (exists p, px = Some p /\ host = p.(p_host) /\ port = p.(p_port))
  | NWriteProxy q _ => exists p, px = Some p /\ q = connect_request (is_https u) u p
  | NConnectProxy _ | NReadProxyHeader _ => px <> None
  | _ => True
  end.

Section proxy.
Context (px : option ProxySetting) (u : url) (params : HttpClientRequestParams) (response_body : body_kind)
        (req0 : request) (set_tlsext_host_name : str -> bool).
Abbreviation proto := (session_protocol (is_https u) u params response_body req0 set_tlsext_host_name).

(** The phases of the tunnel know no other proxy. *)
Definition phase_through (ph : sphase) : Prop :=
  match ph with
  | SResolveProxy p | SConnectProxy p | SWriteProxy p => px = Some p
  | SReadProxy => px <> None
  | _ => True
  end.

Lemma next_through ph r : phase_through ph -> phase_through (Protocol.next proto ph r).
Proof.
  destruct ph; simpl; unfold fail_or, connected, written; intros Hp; repeat case_match; simpl; congruence || done.
Qed.

Lemma op_allowed ph o : phase_through ph -> op proto ph = Some o -> allowed px u o.
Proof.
  intros Hp Ho. destruct ph; simpl in *; simplify_eq; simpl; eauto; try done.
  by destruct response_body.
Qed.

Lemma visited_allowed rs : forall ph, phase_through ph -> Forall (allowed px u) (visited proto rs ph).
Proof.
  assert (Hop : forall ph, phase_through ph -> Forall (allowed px u) (option_list (op proto ph))).
  { intros ph Hph. destruct (op proto ph) as [o|] eqn:Eo; repeat constructor. by apply (op_allowed ph). }
  induction rs as [|r rs IH]; intros ph Hph; cbn [visited]; apply Forall_app; split; auto.
  by apply IH, next_through.
Qed.

Lemma session_allowed rs : Forall (allowed px u) (visited proto rs (start_phase params px)).
Proof. apply visited_allowed. unfold start_phase. destruct (no_modify_req params); [done|]. by destruct px eqn:E. Qed.
End proxy.

Section net.
Context `{UrlLib} (env : environment) (clock : nat -> Z) (beast_version : str).
Context (ticks ex : loc) (pl : option loc) (response_body : body_kind) (set_tlsext_host_name : str -> bool).
Abbreviation prg := (prog net_op net_reply session_obs).
Abbreviation wrld := (world net_op net_reply session_obs).

(** [http_request_io], with the sessions of the manager. *)
Definition net_request_io : IO net_op net_reply session_obs loc :=
  request_io env clock beast_version ticks pl
    (fun q ps px cb u => net_http_request q ps px response_body set_tlsext_host_name (fun resp ec => cb (resp, ec)) u)
    ex.

(** What the caller is told: the response stored in the exchange, or the code. *)
Definition told (r : Result HttpExchange Error) : option response * Z :=
  match r with Ok e => (e.(ex_response), 0%Z) | Err er => (None, er.(code)) end.
Definition report (r : Result HttpExchange Error) : session_obs := Deliver (told r).1 (told r).2.

#[export] Instance response_gives e :
  Gives (fun resp ec => on_response ex (observing report) (resp, ec))
    (fun rep => [report (exchange_result e rep)]) (fun h => h !! ex = Some (enc e)).
Proof.
  intros x c w Hx. destruct (on_response_exec ex report e (x, c) w Hx) as (h & Hex).
  exists h. rewrite Hex. by destruct w.
Qed.

Lemma delivered_reports (l : list (Result HttpExchange Error)) : omap delivery (map report l) = map told l.
Proof. induction l as [|r l IH]; [done|]. csimpl. rewrite IH. by destruct (told r). Qed.

(** The request once the proxy is chosen. *)
Lemma net_request_io_starts k e pool h px pool' :
  cells ticks ex pl k e pool h ->
  proxy_choice env (from_tick clock k) e pool = Some (px, pool') ->
  exists h', h' !! ex = Some (enc (with_proxy px e)) /\
    run (net_request_io (observing report)) (world_at h) =
    run (net_http_request (outgoing_request beast_version e) (request_params e) px response_body
           set_tlsext_host_name (fun resp ec => on_response ex (observing report) (resp, ec)) e.(ex_url))
      (world_at h').
Proof.
  intros Hc Hpx.
  destruct (request_io_starts env clock beast_version ticks ex
    (fun q ps px cb u => net_http_request q ps px response_body set_tlsext_host_name (fun resp ec => cb (resp, ec)) u)
    pl k e pool (observing report) (world_at h) px pool' Hc Hpx) as (h1 & k1 & Hc1 & Hex).
  exists h1. split; [by apply Hc1|]. unfold run, net_request_io. by rewrite Hex.
Qed.

Lemma sessions_allowed q ps px (sessions : list (url * list net_reply)) :
  Forall (fun o => exists s, s ∈ sessions /\ allowed px s.1 o)
    (concat (map (session_ops q ps px response_body set_tlsext_host_name) sessions)).
Proof.
  apply Forall_forall. intros o Ho. apply list_elem_of_In, in_concat in Ho as (os & Hos & Ho).
  apply in_map_iff in Hos as (s & <- & Hin). exists s. split; [by apply list_elem_of_In|].
  apply list_elem_of_In in Ho. revert o Ho. apply Forall_forall, session_allowed.
Qed.

(** C8: [http_request_io] down to the network, under every schedule of replies and of
    the resolvers' watchdogs: a proxy is chosen as [proxy_choice] says, and there is a
    run of [http_request_io] over abstract sessions, with that proxy, in which every
    session answers what its own machine answers to its share of the replies; the
    network operations are those of the sessions of that run, in order; the caller is
    told what it is told in that run, the response in the exchange or the error's
    code, once, exactly when nothing is left to wait for in either.  Only the hosts of
    these sessions and of that proxy are looked up, only that proxy is asked for a
    tunnel, and the request ends after at most forty-two operations. *)
Theorem http_request_io_over_network k e pool es h (w : wrld) :
  cells ticks ex pl k e pool h ->
  (forall pp, pool = Some pp -> pool_ok pp) ->
  steps es (run (net_request_io (observing report)) (world_at h)) = Some w ->
  exists px pool' (sessions : list (url * list net_reply))
         (w' : world session_op session_reply (Result HttpExchange Error)),
    proxy_choice env (from_tick clock k) e pool = Some (px, pool') /\
    let q := outgoing_request beast_version e in
    let ps := request_params e in
    concat (map snd sessions) = op_replies es /\
    w.(started) = concat (map (session_ops q ps px response_body set_tlsext_host_name) sessions) /\
    steps (schedule 0 (concat (map (session_answer q ps px response_body set_tlsext_host_name) sessions)))
      (run (http_request_io env clock beast_version ticks pl ex observe) (world_at h)) = Some w' /\
    w'.(started) = map (session_for q ps px) (map fst sessions) /\
    omap delivery w.(trace) = map told w'.(trace) /\
    (w.(ops) = [] <-> w'.(ops) = []) /\ (w.(ops) = [] <-> length (omap delivery w.(trace)) = 1) /\
    Forall (fun o => exists s, s ∈ sessions /\ allowed px s.1 o) w.(started) /\
    length w.(started) <= 42 /\ w.(faulted) = false /\ w.(escaped) = [].
Proof.
  intros Hc Hpool Hs.
  destruct (proxy_choice_total env e pool (from_tick clock k) Hpool) as (px & pool' & Hpx).
  set (q := outgoing_request beast_version e) in *. set (ps := request_params e) in *.
  (* the run on the network *)
  destruct (net_request_io_starts k e pool h px pool' Hc Hpx) as (h1 & Hx1 & Hrun). rewrite Hrun in Hs.
  destruct (net_request_runs q ps px response_body set_tlsext_host_name _ _ _ e.(ex_url) es h1 w
    Hx1 Hs) as (sessions & H1 & H2 & H3 & H4 & H5 & H6 & H7 & H8 & H9 & H10).
  (* the run over abstract sessions *)
  destruct (request_io_starts env clock beast_version ticks ex http_request pl k e pool observe
    (world_at h) px pool' Hc Hpx) as (h2 & k2 & Hc2 & Hex2).
  exists px, pool', sessions. cbv zeta in *.
  set (reps := concat (map (session_answer q ps px response_body set_tlsext_host_name) sessions)) in *.
  destruct (redirect_loop_schedule q ps px (on_response ex observe) reps 5 e.(ex_url) (world_at h2) H6 eq_refl)
    as [w' Hw'].
  exists w'. change (nops _) with 0 in Hw'.
  assert (Hrun2 : run (http_request_io env clock beast_version ticks pl ex observe) (world_at h) =
    run (redirect_step q ps px (on_response ex observe) 5 e.(ex_url)) (world_at h2))
    by (unfold run, http_request_io; by rewrite Hex2).
  rewrite Hrun2.
  pose proof (redirect_loop_runs q ps px (on_response ex observe) _ 5 e.(ex_url) (world_at h2) w'
    (on_response_quiet ex) eq_refl eq_refl eq_refl Hw') as Hl.
  cbv zeta in Hl. rewrite op_replies_schedule in Hl.
  assert (Hend : w'.(started) = map (session_for q ps px) (url_chain q ps 5 e.(ex_url) reps) /\
    w'.(trace) = exchange_result (with_proxy px e) <$> option_list (final_reply q ps 5 e.(ex_url) reps) /\
    (w'.(ops) = [] <-> final_reply q ps 5 e.(ex_url) reps <> None)).
  { destruct (final_reply q ps 5 e.(ex_url) reps) as [rep|]; [|by destruct Hl as [o ->]].
    destruct (on_response_run ex (with_proxy px e) rep (after_sessions
      (map (session_for q ps px) (url_chain q ps 5 e.(ex_url) reps)) (world_at h2))) as (h' & Hr); [apply Hc2|].
    rewrite Hr in Hl. by subst w'. }
  destruct Hend as (-> & Htr & ->). rewrite H2, H5, H4, Htr.
  assert (Htold : omap delivery (default [] ((fun rep => [report (exchange_result (with_proxy px e) rep)]) <$>
      final_reply q ps 5 e.(ex_url) reps)) =
    map told (exchange_result (with_proxy px e) <$> option_list (final_reply q ps 5 e.(ex_url) reps))).
  { destruct (final_reply q ps 5 e.(ex_url) reps) as [rep|]; [|done]. apply (delivered_reports [_]). }
  rewrite Htold. split_and!; try done.
  - by destruct (final_reply q ps 5 e.(ex_url) reps).
  - rewrite H3. apply sessions_allowed.
Qed.
End net.

(** ** Witness: a GET, redirected once, with the response in the exchange *)

Definition net_io_start : list val := [enc 0%Z; enc io_demo_exchange].
Definition net_io_world : world net_op net_reply session_obs :=
  default (world_at net_io_start) (steps net_demo_schedule
    (run (net_request_io (H := demo_urls) (fun _ => None) (fun _ => 0%Z) (lit "beast") 0 1 None StringBody
            (fun _ => true) (observing report)) (world_at net_io_start))).

Lemma http_request_io_over_network_witness :
  omap delivery net_io_world.(trace) = [(Some demo_found, 0%Z)] /\
  length net_io_world.(started) = 8 /\ length net_io_world.(started) <= 42.
Proof.
  split; [vm_compute; reflexivity|]. split; [vm_compute; reflexivity|].
  assert (Hs : steps net_demo_schedule
    (run (net_request_io (H := demo_urls) (fun _ => None) (fun _ => 0%Z) (lit "beast") 0 1 None StringBody
            (fun _ => true) (observing report)) (world_at net_io_start)) = Some net_io_world)
    by (vm_compute; reflexivity).
  assert (Hc : cells 0 1 None 0 io_demo_exchange None net_io_start)
    by (split; [reflexivity|reflexivity|exact I|discriminate]).
  destruct (http_request_io_over_network (H := demo_urls) (fun _ => None) (fun _ => 0%Z) (lit "beast") 0 1 None
    StringBody (fun _ => true) 0 io_demo_exchange None net_demo_schedule net_io_start net_io_world Hc
    ltac:(discriminate) Hs) as (px & pool' & sessions & w' & _ & _ & _ & _ & _ & _ & _ & _ & _ & Hlen & _).
  exact Hlen.
Defined.
