(* ===== verification/Backoff.v ===== *)
(** * Backoff delays ([src/include/backoff_utils.hpp])

    [JitteredExponentialBackoff]: delays that double up to a cap, plus a random
    jitter.  Delays are counted in milliseconds in a 64-bit signed integer; an
    operation whose result does not fit is undefined, which [None] stands for.
    [dist] is what [uniform_int_distribution(0, jitter)] draws. *)

From Stdlib Require Import ZArith Lia Ascii String.
From stdpp Require Import base list gmap strings.
From S2P Require Import Prelude.

(** A signed 64-bit result. *)
Definition int64 (z : Z) : option Z := if decide (in_int64 z) then Some z else None.

Lemma int64_ok z : in_int64 z -> int64 z = Some z.
Proof. intros H. unfold int64. by rewrite decide_True. Qed.

Record ExponentialBackoffOptions := mkBackoffOptions {
  initial_delay : Z;
  max_delay : Z;
  jitter : Z;
}.
Definition default_backoff : ExponentialBackoffOptions := mkBackoffOptions 100 30000 0.

Record JitteredExponentialBackoff := mkBackoff {
  options_ : ExponentialBackoffOptions;
  current_delay_ : Z;
}.

Definition Sanitize (o : ExponentialBackoffOptions) : ExponentialBackoffOptions :=
  let i := if (o.(initial_delay) <=? 0)%Z then 1%Z else o.(initial_delay) in
  let m := if (o.(max_delay) <? i)%Z then i else o.(max_delay) in
  let j := if (o.(jitter) <? 0)%Z then 0%Z else o.(jitter) in
  mkBackoffOptions i m j.

Definition new_backoff (o : ExponentialBackoffOptions) : JitteredExponentialBackoff :=
  mkBackoff (Sanitize o) 0.

Definition UpdateOptions (o : ExponentialBackoffOptions) (b : JitteredExponentialBackoff) :
    JitteredExponentialBackoff :=
  let o' := Sanitize o in
  mkBackoff o' (if (o'.(max_delay) <? b.(current_delay_))%Z then o'.(max_delay) else b.(current_delay_)).

Definition Reset_backoff (b : JitteredExponentialBackoff) : JitteredExponentialBackoff :=
  mkBackoff b.(options_) 0.

Section delays.
(** The distribution: what the [n]-th draw from [[0, hi]] gives. *)
Context (dist : Z -> Z).

Definition SampleJitter (o : ExponentialBackoffOptions) : Z :=
  if (o.(jitter) <=? 0)%Z then 0%Z else dist o.(jitter).

Definition NextDelay (b : JitteredExponentialBackoff) : option (Z * JitteredExponentialBackoff) :=
  let o := b.(options_) in
  current ←
    (if (b.(current_delay_) <=? 0)%Z then Some o.(initial_delay)
     else twice ← int64 (b.(current_delay_) * 2); Some (o.(max_delay) `min` twice)%Z);
  d ← int64 (current + SampleJitter o);
  Some (d, mkBackoff o current).
End delays.

(** One call per distribution of the list. *)
Fixpoint next_delays (dists : list (Z -> Z)) (b : JitteredExponentialBackoff) :
    option (list Z * JitteredExponentialBackoff) :=
  match dists with
  | [] => Some ([], b)
  | dist :: ds =>
      '(d, b1) ← NextDelay dist b;
      '(rest, b2) ← next_delays ds b1;
      Some (d :: rest, b2)
  end.

(** ** Lemmas *)

(** What [Sanitize] establishes and the operations keep. *)
Definition options_ok (o : ExponentialBackoffOptions) : Prop :=
  (1 <= o.(initial_delay) <= o.(max_delay))%Z /\ (0 <= o.(jitter))%Z.
Definition backoff_ok (b : JitteredExponentialBackoff) : Prop :=
  options_ok b.(options_) /\ (0 <= b.(current_delay_) <= b.(options_).(max_delay))%Z.

(** Sums and doubles of the delays fit. *)
Definition fits (o : ExponentialBackoffOptions) : Prop :=
  (2 * o.(max_delay) <= INT64_MAX /\ o.(max_delay) + o.(jitter) <= INT64_MAX)%Z.

Lemma Sanitize_ok o : options_ok (Sanitize o).
Proof.
  unfold options_ok, Sanitize; simpl.
  destruct (Z.leb_spec (initial_delay o) 0), (Z.ltb_spec (jitter o) 0);
    match goal with |- context [(?a <? ?b)%Z] => destruct (Z.ltb_spec a b) end; lia.
Qed.

Lemma Sanitize_idemp o : options_ok o -> Sanitize o = o.
Proof.
  destruct o as [i m j]. unfold options_ok, Sanitize; simpl. intros H.
  destruct (Z.leb_spec i 0); [lia|]. destruct (Z.ltb_spec m i); [lia|].
  destruct (Z.ltb_spec j 0); [lia|done].
Qed.

Lemma backoff_ops_ok b o :
  backoff_ok b -> backoff_ok (new_backoff o) /\ backoff_ok (UpdateOptions o b) /\ backoff_ok (Reset_backoff b).
Proof.
  intros [Ho Hc]. pose proof (Sanitize_ok o) as Hs. unfold backoff_ok, new_backoff, UpdateOptions, Reset_backoff.
  cbn [options_ current_delay_]. destruct Hs as [Hs1 Hs2]. unfold options_ok in *.
  destruct (Z.ltb_spec (max_delay (Sanitize o)) (current_delay_ b)); lia.
Qed.

(** The [n]-th base delay. *)
Definition base_delay (o : ExponentialBackoffOptions) (n : nat) : Z :=
  (o.(max_delay) `min` (o.(initial_delay) * 2 ^ Z.of_nat n))%Z.

Lemma base_delay_S o n :
  options_ok o -> base_delay o (S n) = (o.(max_delay) `min` (base_delay o n * 2))%Z.
Proof.
  intros Ho. unfold options_ok, base_delay in *. rewrite Nat2Z.inj_succ, Z.pow_succ_r by lia.
  assert (0 < 2 ^ Z.of_nat n)%Z by (apply Z.pow_pos_nonneg; lia). lia.
Qed.

Lemma base_delay_range o n : options_ok o -> (1 <= base_delay o n <= o.(max_delay))%Z.
Proof.
  intros Ho. unfold options_ok, base_delay in *.
  assert (0 < 2 ^ Z.of_nat n)%Z by (apply Z.pow_pos_nonneg; lia). nia.
Qed.

Definition fair (o : ExponentialBackoffOptions) (dist : Z -> Z) : Prop :=
  (0 <= dist o.(jitter) <= o.(jitter))%Z.

Lemma SampleJitter_range o dist :
  options_ok o -> fair o dist -> (0 <= SampleJitter dist o <= o.(jitter))%Z.
Proof.
  unfold options_ok, fair, SampleJitter. intros Ho Hd. destruct (Z.leb_spec (jitter o) 0); lia.
Qed.

Lemma NextDelay_spec dist o c n :
  options_ok o -> fits o -> fair o dist ->
  (c = 0%Z /\ n = 0) \/ (exists m, n = S m /\ c = base_delay o m) ->
  NextDelay dist (mkBackoff o c) =
    Some ((base_delay o n + SampleJitter dist o)%Z, mkBackoff o (base_delay o n)).
Proof.
  intros Ho Hf Hd Hc. pose proof (SampleJitter_range o dist Ho Hd) as Hj.
  pose proof (base_delay_range o n Ho) as Hr.
  unfold NextDelay; cbn [current_delay_ options_].
  assert (Hcur : (if (c <=? 0)%Z then Some o.(initial_delay)
      else twice ← int64 (c * 2); Some (o.(max_delay) `min` twice)%Z) = Some (base_delay o n)).
  { destruct Hc as [[-> ->]|(m & -> & ->)].
    - simpl. f_equal. unfold base_delay, options_ok in *. simpl. lia.
    - pose proof (base_delay_range o m Ho). destruct (Z.leb_spec (base_delay o m) 0); [lia|].
      rewrite int64_ok; [simpl; f_equal; by rewrite base_delay_S|].
      unfold fits, in_int64, INT64_MIN, INT64_MAX in *. lia. }
  rewrite Hcur. cbn [mbind option_bind]. rewrite int64_ok; [done|].
  unfold fits, options_ok, in_int64, INT64_MIN, INT64_MAX in *. lia.
Qed.

Lemma next_delays_from o dists : forall c n,
  options_ok o -> fits o -> Forall (fair o) dists ->
  (c = 0%Z /\ n = 0) \/ (exists m, n = S m /\ c = base_delay o m) ->
  exists c', next_delays dists (mkBackoff o c) =
    Some (zip_with (fun k dist => base_delay o k + SampleJitter dist o)%Z (seq n (length dists)) dists,
          mkBackoff o c').
Proof.
  induction dists as [|dist dists IH]; intros c n Ho Hf Hd Hc; [by exists c|].
  inversion_clear Hd as [|?? Hd1 Hd2]. cbn [next_delays].
  rewrite (NextDelay_spec dist o c n Ho Hf Hd1 Hc). cbn [mbind option_bind].
  destruct (IH (base_delay o n) (S n) Ho Hf Hd2) as (c' & ->); [right; eauto|].
  exists c'. done.
Qed.

(** ** Property *)

(** C35: From its construction or a [Reset], the [n]-th delay of a backoff is
    [initial_delay * 2^n], capped by [max_delay], plus a jitter between zero and
    the bound: it is positive and at most [max_delay + jitter].  No step
    overflows as long as twice the cap, and the cap plus the jitter, are 64-bit
    integers; whatever options are given, they are sanitized first. *)
Theorem backoff_delays options dists :
  let o := Sanitize options in
  fits o -> Forall (fair o) dists ->
  exists ds b, next_delays dists (new_backoff options) = Some (ds, b) /\
    length ds = length dists /\
    (forall n d, ds !! n = Some d ->
       (base_delay o n <= d <= base_delay o n + o.(jitter))%Z /\
       (1 <= d <= o.(max_delay) + o.(jitter))%Z) /\
    next_delays dists (Reset_backoff b) = Some (ds, b).
Proof.
  intros o Hf Hd. pose proof (Sanitize_ok options) as Ho. fold o in Ho.
  destruct (next_delays_from o dists 0 0 Ho Hf Hd ltac:(by left)) as (c' & E).
  eexists _, (mkBackoff o c'). split; [exact E|]. split.
  { rewrite length_zip_with, length_seq. lia. }
  split; [|exact E].
  intros n d. rewrite lookup_zip_with_Some. intros (k & dist & -> & Hk & Hdist).
  apply lookup_seq in Hk as [-> _]. rewrite Nat.add_0_l. clearbody o.
  pose proof (Forall_lookup_1 _ _ _ _ Hd Hdist) as Hfair.
  pose proof (SampleJitter_range o dist Ho Hfair). pose proof (base_delay_range o n Ho). lia.
Qed.

(** A cap above half of the 64-bit range makes the doubling overflow. *)
Lemma backoff_doubling_overflows :
  let o := mkBackoffOptions (2 ^ 62) (2 ^ 62) 0 in
  (NextDelay (fun _ => 0%Z) (new_backoff o) ≫= fun p => NextDelay (fun _ => 0%Z) p.2) = None.
Proof. vm_compute. reflexivity. Qed.

Lemma backoff_delays_witness :
  next_delays (replicate 3 (fun hi => hi)) (new_backoff (mkBackoffOptions 100 300 5)) =
    Some ([105; 205; 305]%Z, mkBackoff (mkBackoffOptions 100 300 5) 300).
Proof.
  destruct (backoff_delays (mkBackoffOptions 100 300 5) (replicate 3 (fun hi => hi)))
    as (ds & b & E & _); [vm_compute; split; discriminate| |].
  - repeat constructor; vm_compute; discriminate.
  - rewrite E. rewrite <- E. vm_compute. reflexivity.
Defined.
