(* ===== verification/MiscUtil.v ===== *)
(** * Rate limiting, deduplication and notification ([src/include/misc_util.hpp])

    Times are readings of [steady_clock] in nanoseconds.  The maps are guarded
    by one mutex, so an operation is one function of the map; its readings of
    the clock are arguments, in order.  [int] has 32 bits: an operation that
    overflows it is undefined, which [None] stands for, and [static_cast<int>]
    wraps. *)

From Stdlib Require Import ZArith Lia Ascii String.
From stdpp Require Import base list gmap fin_maps strings.
From S2P Require Import Prelude.

(** A signed 32-bit result, and [static_cast<int>]. *)
Definition int32 (z : Z) : option Z := if decide (in_int32 z) then Some z else None.
Definition cast_int (z : Z) : Z := ((z + 2 ^ 31) mod 2 ^ 32 - 2 ^ 31)%Z.

Lemma int32_ok z : in_int32 z -> int32 z = Some z.
Proof. intros H. unfold int32. by rewrite decide_True. Qed.

Lemma cast_int_id z : in_int32 z -> cast_int z = z.
Proof.
  unfold in_int32, INT_MIN, INT_MAX, cast_int. intros H. rewrite Z.mod_small; lia.
Qed.

(** [duration_cast<seconds>]: towards zero. *)
Definition NS : Z := 1000000000.
Definition seconds (d : Z) : Z := Z.quot d NS.

Lemma seconds_div d : (0 <= d)%Z -> seconds d = (d / NS)%Z.
Proof. intros H. unfold seconds, NS. rewrite Z.quot_div_nonneg; lia. Qed.

(** Whole seconds of a span are at least those of its parts. *)
Lemma seconds_split a b c :
  (a <= b <= c)%Z -> (seconds (b - a) + seconds (c - b) <= seconds (c - a))%Z.
Proof.
  intros H. rewrite !seconds_div by lia. unfold NS.
  pose proof (Z.div_mod (b - a) 1000000000 ltac:(lia)).
  pose proof (Z.div_mod (c - b) 1000000000 ltac:(lia)).
  pose proof (Z.mod_pos_bound (b - a) 1000000000 ltac:(lia)).
  pose proof (Z.mod_pos_bound (c - b) 1000000000 ltac:(lia)).
  apply Z.div_le_lower_bound; lia.
Qed.

Lemma seconds_nonneg a b : (a <= b)%Z -> (0 <= seconds (b - a))%Z.
Proof. intros H. rewrite seconds_div by lia. apply Z.div_pos; unfold NS; lia. Qed.

Lemma seconds_mono a b c : (a <= b <= c)%Z -> (seconds (b - a) <= seconds (c - a))%Z.
Proof.
  intros H. pose proof (seconds_split a b c H). pose proof (seconds_nonneg b c). lia.
Qed.

(** ** RateLimiter *)

Record UserData := mkUserData {
  tokens : Z;
  lastRequest : Z;
}.

Section limiter.
Context {K : Type} `{Countable K} `{!Inhabited K}.
Context (maxTokens consumeRate refillRate : Z).

Definition refillTokens (now : Z) (d : UserData) : option UserData :=
  let elapsed := seconds (now - d.(lastRequest)) in
  if (0 <? elapsed)%Z then
    t ← int32 (d.(tokens) + cast_int (elapsed * refillRate));
    Some (mkUserData (maxTokens `min` t)%Z now)
  else Some d.

Definition remove_older_than_300s (now : Z) (m : gmap K UserData) : gmap K UserData :=
  filter (fun e => ~ (300 < seconds (now - e.2.(lastRequest)))%Z) m.

(** A new entry is zero-initialised; a zero [lastRequest] marks it. *)
Definition init_user (now : Z) (o : option UserData) : UserData :=
  let d := default (mkUserData 0 0) o in
  if (d.(lastRequest) =? 0)%Z then mkUserData maxTokens now else d.

Record readings := mkReadings { at_remove : Z; at_init : Z; at_refill : Z }.

Definition allowRequest (t : readings) (userID : K) (m : gmap K UserData) :
    option (bool * gmap K UserData) :=
  let m1 := remove_older_than_300s t.(at_remove) m in
  d ← refillTokens t.(at_refill) (init_user t.(at_init) (m1 !! userID));
  left ← int32 (d.(tokens) - consumeRate);
  Some ((0 <? d.(tokens))%Z, <[userID := mkUserData left d.(lastRequest)]> m1).

(** A history of requests, with the answers. *)
Fixpoint run_requests (rs : list (K * readings)) (m : gmap K UserData) :
    option (list bool * gmap K UserData) :=
  match rs with
  | [] => Some ([], m)
  | (u, t) :: rs' =>
      '(b, m1) ← allowRequest t u m;
      '(bs, m2) ← run_requests rs' m1;
      Some (b :: bs, m2)
  end.

(** The requests of [u] that were allowed. *)
Fixpoint allowed (u : K) (rs : list (K * readings)) (bs : list bool) : Z :=
  match rs, bs with
  | (v, _) :: rs', b :: bs' => (if decide (v = u) then Z.b2z b else 0) + allowed u rs' bs'
  | _, _ => 0
  end%Z.

(** The clock does not go back. *)
Fixpoint monotone (t0 : Z) (rs : list (K * readings)) : Prop :=
  match rs with
  | [] => True
  | (_, t) :: rs' =>
      (t0 <= t.(at_remove) <= t.(at_init))%Z /\ (t.(at_init) <= t.(at_refill))%Z /\
      monotone t.(at_refill) rs'
  end.
Fixpoint last_reading (t0 : Z) (rs : list (K * readings)) : Z :=
  match rs with [] => t0 | (_, t) :: rs' => last_reading t.(at_refill) rs' end.

Lemma last_reading_ge rs : forall t0, monotone t0 rs -> (t0 <= last_reading t0 rs)%Z.
Proof.
  induction rs as [|[u t] rs IH]; intros t0; simpl; [lia|].
  intros (? & ? & Hm). specialize (IH _ Hm). lia.
Qed.

Context (Hmax : (0 <= maxTokens)%Z) (Hconsume : (1 <= consumeRate)%Z) (Hrefill : (0 <= refillRate)%Z).

(** *** No overflow *)

(** After [k] requests, an entry has lost at most [k] times the rate. *)
Definition entries_ok (k t : Z) (m : gmap K UserData) : Prop :=
  forall u d, m !! u = Some d ->
    (0 < d.(lastRequest) <= t)%Z /\ (- (consumeRate * k) <= d.(tokens) <= maxTokens)%Z.

Lemma removed_lookup now m u :
  remove_older_than_300s now m !! u =
    match m !! u with
    | Some d => if decide (300 < seconds (now - d.(lastRequest)))%Z then None else Some d
    | None => None
    end.
Proof.
  unfold remove_older_than_300s. rewrite map_lookup_filter. destruct (m !! u) as [d|]; [|done].
  simpl. case_decide; case_guard; try done; exfalso; auto.
Qed.

(** One request of [u], from what it finds to what it leaves. *)
Lemma allowRequest_spec k t0 t u m :
  entries_ok k t0 m -> (0 < t0)%Z -> (0 <= k)%Z ->
  (t0 <= t.(at_remove) <= t.(at_init))%Z -> (t.(at_init) <= t.(at_refill))%Z ->
  (consumeRate * (k + 1) <= INT_MAX)%Z ->
  (maxTokens + refillRate * seconds (t.(at_refill) - 0) <= INT_MAX)%Z ->
  let m1 := remove_older_than_300s t.(at_remove) m in
  let d := init_user t.(at_init) (m1 !! u) in
  exists d2, (d.(lastRequest) <= d2.(lastRequest) <= t.(at_refill))%Z /\ (0 < d.(lastRequest))%Z /\
    (d.(tokens) <= maxTokens)%Z /\
    (- (consumeRate * k) <= d2.(tokens) <= maxTokens)%Z /\
    (d2.(tokens) <= d.(tokens) + refillRate * seconds (d2.(lastRequest) - d.(lastRequest)))%Z /\
    allowRequest t u m = Some ((0 <? d2.(tokens))%Z,
      <[u := mkUserData (d2.(tokens) - consumeRate) d2.(lastRequest)]> m1) /\
    entries_ok (k + 1) t.(at_refill)
      (<[u := mkUserData (d2.(tokens) - consumeRate) d2.(lastRequest)]> m1).
Proof.
  intros Hok Ht0 Hk H1 H2 Hc Hr m1 d.
  assert (Hok1 : entries_ok k t0 m1).
  { intros v e. unfold m1. rewrite removed_lookup. destruct (m !! v) as [e'|] eqn:E; [|done].
    case_decide; [done|]. intros [= <-]. by apply (Hok v). }
  assert (Hd : (0 < d.(lastRequest) <= t.(at_init))%Z /\ (- (consumeRate * k) <= d.(tokens) <= maxTokens)%Z).
  { unfold d, init_user. destruct (m1 !! u) as [e|] eqn:E; simpl.
    - destruct (Hok1 u e E) as [He1 He2]. destruct (Z.eqb_spec (lastRequest e) 0); [lia|]. lia.
    - nia. }
  destruct Hd as [Hd1 Hd2].
  set (el := seconds (t.(at_refill) - d.(lastRequest))).
  assert (Hel : (0 <= el <= seconds (t.(at_refill) - 0))%Z).
  { split; [apply seconds_nonneg; lia|]. unfold el.
    pose proof (seconds_split 0 d.(lastRequest) t.(at_refill) ltac:(lia)).
    pose proof (seconds_nonneg 0 d.(lastRequest) ltac:(lia)). lia. }
  assert (Hre : exists d2, refillTokens t.(at_refill) d = Some d2 /\
      (d.(lastRequest) <= d2.(lastRequest) <= t.(at_refill))%Z /\
      (- (consumeRate * k) <= d2.(tokens) <= maxTokens)%Z /\
      (d2.(tokens) <= d.(tokens) + refillRate * seconds (d2.(lastRequest) - d.(lastRequest)))%Z).
  { unfold refillTokens. fold el. destruct (Z.ltb_spec 0 el) as [Hp|Hp].
    - assert (Hadd : (0 <= el * refillRate <= refillRate * seconds (t.(at_refill) - 0))%Z) by nia.
      rewrite cast_int_id by (unfold in_int32, INT_MIN, INT_MAX in *; lia).
      rewrite int32_ok by (unfold in_int32, INT_MIN, INT_MAX in *; lia).
      eexists; split; [reflexivity|]. cbn [lastRequest tokens]. fold el. split; [lia|]. split; [lia|].
      rewrite (Z.mul_comm refillRate el). lia.
    - eexists; split; [reflexivity|]. rewrite Z.sub_diag. unfold seconds. rewrite Z.quot_0_l by done. lia. }
  destruct Hre as (d2 & Hd2e & Hl & Ht & Hgain). exists d2.
  assert (Hall : allowRequest t u m = Some ((0 <? d2.(tokens))%Z,
      <[u := mkUserData (d2.(tokens) - consumeRate) d2.(lastRequest)]> m1)).
  { unfold allowRequest. fold m1 d. rewrite Hd2e. cbn [mbind option_bind].
    assert (0 <= refillRate * seconds (t.(at_refill) - 0))%Z by nia.
    rewrite int32_ok; [done|]. unfold in_int32, INT_MIN, INT_MAX in *. lia. }
  split_and!; try lia; [exact Hall|].
  intros v e. destruct (decide (v = u)) as [->|Hne].
  - rewrite lookup_insert, decide_True by done. intros [= <-]. simpl. lia.
  - rewrite lookup_insert_ne by done. intros He. destruct (Hok1 v e He). nia.
Qed.

(** *** The budget of a user *)

Section budget.
Context (u : K) (start : Z).

Definition secs (t : Z) : Z := seconds (t - start).

(** What [u] may have been allowed by [t], times the rate. *)
Definition budget (t : Z) : Z :=
  ((maxTokens + consumeRate - 1) * (secs t / 301) + refillRate * secs t)%Z.

(** The credit of an entry: what it can still be allowed. *)
Definition credit (d : UserData) : Z := (0 `max` (d.(tokens) + consumeRate - 1))%Z.

(** [a] requests allowed so far. *)
Definition within_budget (a t : Z) (m : gmap K UserData) : Prop :=
  match m !! u with
  | Some d => (start <= d.(lastRequest))%Z /\
      (consumeRate * a + credit d <= budget d.(lastRequest) + (maxTokens + consumeRate - 1))%Z
  | None => (consumeRate * a <= budget t)%Z
  end.

Lemma budget_mono t t' : (start <= t <= t')%Z -> (budget t <= budget t')%Z.
Proof.
  intros Ht. unfold budget, secs. pose proof (seconds_mono start t t' Ht).
  pose proof (Z.div_le_mono (seconds (t - start)) (seconds (t' - start)) 301 ltac:(lia) ltac:(lia)). nia.
Qed.

Lemma budget_refill t t' :
  (start <= t <= t')%Z -> (budget t + refillRate * seconds (t' - t) <= budget t')%Z.
Proof.
  intros Ht. unfold budget, secs. pose proof (seconds_split start t t' Ht).
  pose proof (seconds_nonneg t t' ltac:(lia)).
  pose proof (Z.div_le_mono (seconds (t - start)) (seconds (t' - start)) 301 ltac:(lia) ltac:(lia)). nia.
Qed.

Lemma budget_removed t t' :
  (start <= t <= t')%Z -> (300 < seconds (t' - t))%Z ->
  (budget t + (maxTokens + consumeRate - 1) <= budget t')%Z.
Proof.
  intros Ht Hs. unfold budget, secs. pose proof (seconds_split start t t' Ht).
  assert (seconds (t - start) / 301 + 1 <= seconds (t' - start) / 301)%Z; [|nia].
  rewrite <- (Z.div_add _ 1 301) by lia. apply Z.div_le_mono; lia.
Qed.

Lemma within_budget_step k a t0 v t m :
  entries_ok k t0 m -> within_budget a t0 m -> (0 < t0)%Z -> (start <= t0)%Z -> (0 <= k)%Z ->
  (t0 <= t.(at_remove) <= t.(at_init))%Z -> (t.(at_init) <= t.(at_refill))%Z ->
  (consumeRate * (k + 1) <= INT_MAX)%Z ->
  (maxTokens + refillRate * seconds (t.(at_refill) - 0) <= INT_MAX)%Z ->
  exists b m', allowRequest t v m = Some (b, m') /\ entries_ok (k + 1) t.(at_refill) m' /\
    within_budget (a + (if decide (v = u) then Z.b2z b else 0)) t.(at_refill) m'.
Proof.
  intros Hok Hw Ht0 Hst Hk H1 H2 Hc Hr.
  set (m1 := remove_older_than_300s t.(at_remove) m).
  assert (Hw1 : within_budget a t.(at_remove) m1).
  { unfold within_budget in *. unfold m1. rewrite removed_lookup.
    destruct (m !! u) as [d|] eqn:E.
    - destruct Hw as [Hs Hw]. destruct (Hok u d E) as [He _]. case_decide as Hold.
      + pose proof (budget_removed d.(lastRequest) t.(at_remove) ltac:(lia) Hold).
        unfold credit in Hw. lia.
      + split; [lia|done].
    - pose proof (budget_mono t0 t.(at_remove) ltac:(lia)). lia. }
  destruct (allowRequest_spec k t0 t v m Hok Ht0 Hk H1 H2 Hc Hr)
    as (d2 & Hl & Hpos & Hcap & Htok & Hgain & Hall & Hok').
  eexists _, _. split; [exact Hall|]. split; [exact Hok'|].
  unfold within_budget. case_decide as Hv.
  - subst v. rewrite lookup_insert, decide_True by done. fold m1 in Hl, Hpos, Hcap, Hgain |- *.
    set (d := init_user t.(at_init) (m1 !! u)) in *.
    assert (Hd : (start <= d.(lastRequest))%Z /\
      (consumeRate * a + credit d <= budget d.(lastRequest) + (maxTokens + consumeRate - 1))%Z).
    { unfold within_budget in Hw1. unfold d, init_user. destruct (m1 !! u) as [e|] eqn:E; simpl.
      - destruct (Z.eqb_spec (lastRequest e) 0) as [Hz|]; [|done].
        unfold m1 in E. rewrite removed_lookup in E. destruct (m !! u) as [e'|] eqn:E'; [|done].
        case_decide; simplify_eq. destruct (Hok u e E'). lia.
      - split; [lia|]. pose proof (budget_mono t.(at_remove) t.(at_init) ltac:(lia)).
        unfold credit; simpl. lia. }
    destruct Hd as [Hds Hdb]. cbn [lastRequest]. split; [lia|].
    pose proof (budget_refill d.(lastRequest) d2.(lastRequest) ltac:(lia)).
    pose proof (seconds_nonneg d.(lastRequest) d2.(lastRequest) ltac:(lia)).
    assert (0 <= refillRate * seconds (d2.(lastRequest) - d.(lastRequest)))%Z by nia.
    unfold credit in *; cbn [tokens]. destruct (Z.ltb_spec 0 d2.(tokens)); cbn [Z.b2z]; lia.
  - rewrite lookup_insert_ne by done. fold m1. unfold within_budget in Hw1.
    destruct (m1 !! u) as [d|]; [rewrite Z.add_0_r; done|].
    pose proof (budget_mono t.(at_remove) t.(at_refill) ltac:(lia)). lia.
Qed.

Lemma run_requests_budget rs : forall k a t0 m,
  entries_ok k t0 m -> within_budget a t0 m -> (0 < t0)%Z -> (start <= t0)%Z -> (0 <= k)%Z ->
  monotone t0 rs ->
  (consumeRate * (k + Z.of_nat (length rs)) <= INT_MAX)%Z ->
  (maxTokens + refillRate * seconds (last_reading t0 rs - 0) <= INT_MAX)%Z ->
  exists bs m', run_requests rs m = Some (bs, m') /\ length bs = length rs /\
    within_budget (a + allowed u rs bs) (last_reading t0 rs) m' /\
    entries_ok (k + Z.of_nat (length rs)) (last_reading t0 rs) m'.
Proof.
  induction rs as [|[v t] rs IH]; intros k a t0 m Hok Hw Ht0 Hst Hk Hm Hc Hr.
  - exists [], m. simpl. rewrite !Z.add_0_r. done.
  - destruct Hm as (H1 & H2 & Hm). cbn [length last_reading] in *. rewrite Nat2Z.inj_succ in Hc.
    pose proof (last_reading_ge _ _ Hm).
    pose proof (seconds_mono 0 t.(at_refill) (last_reading t.(at_refill) rs) ltac:(lia)).
    destruct (within_budget_step k a t0 v t m Hok Hw Ht0 Hst Hk H1 H2 ltac:(nia) ltac:(nia))
      as (b & m1 & Hall & Hok1 & Hw1).
    destruct (IH (k + 1)%Z _ t.(at_refill) m1 Hok1 Hw1 ltac:(lia) ltac:(lia) ltac:(lia) Hm ltac:(lia) Hr)
      as (bs & m2 & Hrun & Hlen & Hw2 & Hok2).
    exists (b :: bs), m2. cbn [run_requests]. rewrite Hall. cbn [mbind option_bind]. rewrite Hrun.
    cbn [mbind option_bind]. split; [done|]. split; [simpl; congruence|]. cbn [allowed].
    rewrite Z.add_assoc. split; [done|]. rewrite Nat2Z.inj_succ. by replace (k + Z.succ (Z.of_nat (length rs)))%Z with (k + 1 + Z.of_nat (length rs))%Z by lia.
Qed.
End budget.

(** C34: The rate limiter keeps its contract.  From an empty limiter, under a
    clock that does not go back, as long as the tokens taken and the tokens a
    user could have gained stay in 32 bits, every request gets an answer (no
    overflow), one per request, and what any user [u] was allowed, times the
    tokens a request consumes, is at most the initial grant plus the refill
    over the elapsed seconds - where the grant is renewed once for every 301
    seconds, as an entry that is idle for more than 300 seconds is forgotten. *)
Theorem rate_limit (rs : list (K * readings)) (t0 : Z) :
  (0 < t0)%Z -> monotone t0 rs ->
  (consumeRate * Z.of_nat (length rs) <= INT_MAX)%Z ->
  (maxTokens + refillRate * seconds (last_reading t0 rs) <= INT_MAX)%Z ->
  exists bs m, run_requests rs ∅ = Some (bs, m) /\ length bs = length rs /\
    let elapsed := seconds (last_reading t0 rs - t0) in
    forall u, (consumeRate * allowed u rs bs <=
         (maxTokens + consumeRate - 1) * (1 + elapsed / 301) + refillRate * elapsed)%Z.
Proof.
  intros Ht0 Hm Hc Hr.
  assert (Hall : forall u, exists bs m, run_requests rs ∅ = Some (bs, m) /\ length bs = length rs /\
      within_budget u t0 (0 + allowed u rs bs) (last_reading t0 rs) m /\
      entries_ok (0 + Z.of_nat (length rs)) (last_reading t0 rs) m).
  { intros u. apply run_requests_budget; try done; try lia; [|by rewrite Z.sub_0_r].
    unfold within_budget, budget, secs. rewrite lookup_empty, Z.sub_diag.
    change (seconds 0) with 0%Z. change (0 / 301)%Z with 0%Z. lia. }
  destruct (Hall inhabitant) as (bs & m & Hrun & Hlen & _).
  exists bs, m. split_and!; [done..|]. intros elapsed u.
  destruct (Hall u) as (bs' & m' & Hrun' & _ & Hw & Hok). rewrite Hrun in Hrun'.
  injection Hrun' as <- <-. rewrite Z.add_0_l in Hw. pose proof (last_reading_ge _ _ Hm).
  assert (Hb : (consumeRate * allowed u rs bs <=
    budget t0 (last_reading t0 rs) + (maxTokens + consumeRate - 1))%Z); [|unfold budget, secs in Hb; fold elapsed in Hb; lia].
  unfold within_budget in Hw. destruct (m !! u) as [d|] eqn:E; [|lia].
  destruct Hw as [Hs Hw]. destruct (Hok u d E) as [He _].
  pose proof (budget_mono t0 d.(lastRequest) (last_reading t0 rs) ltac:(lia)).
  unfold credit in Hw. lia.
Qed.
End limiter.

Section limiter_demo.
Definition at_sec (s : Z) : readings := mkReadings (s * NS) (s * NS) (s * NS).

Lemma rate_limit_witness :
  exists bs m, run_requests 2 1 1 [("a", at_sec 1); ("a", at_sec 1); ("a", at_sec 1); ("b", at_sec 1); ("a", at_sec 4)]%string ∅ = Some (bs, m) /\
    bs = [true; true; false; true; true] /\
    (allowed "a"%string [("a", at_sec 1); ("a", at_sec 1); ("a", at_sec 1); ("b", at_sec 1); ("a", at_sec 4)]%string bs <= 5)%Z.
Proof.
  destruct (rate_limit (K := string) 2 1 1 ltac:(lia) ltac:(lia) ltac:(lia)
    [("a", at_sec 1); ("a", at_sec 1); ("a", at_sec 1); ("b", at_sec 1); ("a", at_sec 4)]%string (1 * NS)
    ltac:(unfold NS; lia) ltac:(unfold NS; simpl; unfold NS; lia) ltac:(unfold INT_MAX; simpl; lia)
    ltac:(vm_compute; discriminate)) as (bs & m & Hrun & _ & Hb).
  exists bs, m. split; [exact Hrun|]. split.
  - vm_compute in Hrun. injection Hrun as <- _. reflexivity.
  - specialize (Hb "a"%string). change (seconds _) with 3%Z in Hb. change (3 / 301)%Z with 0%Z in Hb. lia.
Defined.

(** A refused request still takes its tokens, so a user who keeps asking falls
    behind without bound - after five requests at once with three tokens the
    entry is at -2 - and at the end of the range the next request is undefined. *)
Lemma denied_requests_take_tokens :
  (exists m, run_requests 3 1 1 (replicate 5 ((), at_sec 1)) ∅ =
     Some ([true; true; true; false; false], m) /\ tokens <$> (m !! tt) = Some (-2)%Z) /\
  allowRequest 3 1 1 (at_sec 1) tt {[ () := mkUserData INT_MIN (1 * NS) ]} = None.
Proof.
  split; [|by vm_compute]. eexists. split; [by vm_compute|]. by vm_compute.
Qed.
End limiter_demo.

(** ** TaskDeduplicator *)

Section dedup.
Context {K : Type} `{Countable K}.
Context (ttl : Z).

(** [now - it->second > _ttl], with the time to live in seconds. *)
Definition evacuate (now : Z) (m : gmap K Z) : gmap K Z :=
  filter (fun e => ~ (ttl * NS < now - e.2)%Z) m.

Definition is_running_or_mark (key : K) (now : Z) (m : gmap K Z) : bool * gmap K Z :=
  let m1 := evacuate now m in
  match m1 !! key with
  | Some _ => (true, m1)
  | None => (false, <[key := now]> m1)
  end.

Definition unmark (key : K) (m : gmap K Z) : gmap K Z := delete key m.

Inductive dedup_op :=
  | op_mark (key : K) (now : Z)
  | op_unmark (key : K).

(** The answers of a history, each with its key. *)
Fixpoint run_dedup (ops : list dedup_op) (m : gmap K Z) : list (K * bool) :=
  match ops with
  | [] => []
  | op_mark k now :: ops' =>
      let '(b, m') := is_running_or_mark k now m in (k, b) :: run_dedup ops' m'
  | op_unmark k :: ops' => run_dedup ops' (unmark k m)
  end.

Fixpoint dedup_clock (t0 : Z) (ops : list dedup_op) : Prop :=
  match ops with
  | [] => True
  | op_mark _ now :: ops' => (t0 <= now)%Z /\ dedup_clock now ops'
  | op_unmark _ :: ops' => dedup_clock t0 ops'
  end.

(** *** One key, with a cell for when it was marked *)

Fixpoint run_cell (key : K) (ops : list dedup_op) (c : option Z) : list bool :=
  match ops with
  | [] => []
  | op_mark k now :: ops' =>
      if decide (k = key) then
        match c with
        | Some t => if (now - t <=? ttl * NS)%Z then true :: run_cell key ops' c
                    else false :: run_cell key ops' (Some now)
        | None => false :: run_cell key ops' (Some now)
        end
      else run_cell key ops' c
  | op_unmark k :: ops' => run_cell key ops' (if decide (k = key) then None else c)
  end.

Definition answers_of (key : K) (l : list (K * bool)) : list bool :=
  omap (fun e => if decide (e.1 = key) then Some e.2 else None) l.

(** The map holds the cell, or has lost it because it had expired. *)
Definition cell_of (key : K) (now : Z) (m : gmap K Z) (c : option Z) : Prop :=
  m !! key = c \/ (m !! key = None /\ exists t, c = Some t /\ (ttl * NS < now - t)%Z).

Lemma evacuated_lookup now m k :
  evacuate now m !! k =
    match m !! k with
    | Some t => if decide (ttl * NS < now - t)%Z then None else Some t
    | None => None
    end.
Proof.
  unfold evacuate. rewrite map_lookup_filter. destruct (m !! k) as [t|]; [|done].
  simpl. case_decide; case_guard; try done; exfalso; auto.
Qed.

Lemma evacuate_cell key t0 now m c :
  (t0 <= now)%Z -> cell_of key t0 m c -> cell_of key now (evacuate now m) c.
Proof.
  intros Ht [Hm|(Hm & t & -> & He)]; unfold cell_of; rewrite evacuated_lookup, Hm.
  - destruct c as [t|]; [|by left]. case_decide; [|by left]. right; eauto.
  - right. split; [done|]. exists t. split; [done|lia].
Qed.

(** C37: The deduplicator treats keys independently.  Under a clock that does
    not go back, what [is_running_or_mark] answers for a key over any history
    of marks and unmarks of all keys is what one cell for that key answers:
    "running" exactly while the mark is at most the time to live old and was not
    taken back; evacuating expired entries on the calls for other keys is
    never visible. *)
Theorem dedup_refines_cell (ops : list dedup_op) (key : K) (t0 : Z) :
  dedup_clock t0 ops ->
  answers_of key (run_dedup ops ∅) = run_cell key ops None.
Proof.
  intros Hc. assert (Hcell : cell_of key t0 ∅ None) by (left; apply lookup_empty).
  revert Hcell. generalize (∅ : gmap K Z) (None : option Z). revert t0 Hc.
  induction ops as [|[k now|k] ops IH]; intros t0 Hc m c Hcell; [done| |].
  - destruct Hc as [Ht Hc]. pose proof (evacuate_cell key t0 now m c Ht Hcell) as He.
    cbn [run_dedup run_cell]. unfold is_running_or_mark. set (m1 := evacuate now m) in *.
    assert (Hlive : forall t, m1 !! k = Some t -> ~ (ttl * NS < now - t)%Z).
    { intros t. unfold m1. rewrite evacuated_lookup. destruct (m !! k); [|done]. case_decide; [done|congruence]. }
    case_decide as Hk.
    + subst k. destruct (m1 !! key) as [t|] eqn:E; cbn [answers_of omap list_omap fst snd]; rewrite decide_True by done.
      * destruct He as [<-|[? _]]; [|congruence]. rewrite E.
        destruct (Z.leb_spec (now - t) (ttl * NS)); [|exfalso; eapply Hlive; [done|lia]].
        f_equal. apply (IH now Hc). by left.
      * assert (Hnew : cell_of key now (<[key := now]> m1) (Some now)).
        { left. by rewrite lookup_insert, decide_True. }
        destruct He as [He|(_ & t & -> & He)].
        -- rewrite E in He. subst c. f_equal. by apply (IH now Hc).
        -- destruct (Z.leb_spec (now - t) (ttl * NS)); [lia|]. f_equal. by apply (IH now Hc).
    + destruct (m1 !! k) as [t|]; cbn [answers_of omap list_omap fst snd]; rewrite decide_False by done;
        apply (IH now Hc); [done|]. unfold cell_of. by rewrite lookup_insert_ne.
  - cbn [run_dedup run_cell]. apply (IH t0 Hc). unfold cell_of, unmark in *. case_decide as Hk.
    + subst k. left. by rewrite lookup_delete, decide_True.
    + by rewrite lookup_delete_ne.
Qed.
End dedup.

Lemma dedup_refines_cell_witness :
  answers_of 1%Z (run_dedup 5 [op_mark 1 0; op_mark 2 (3 * NS); op_mark 1 (4 * NS); op_mark 2 (6 * NS); op_mark 1 (7 * NS);
    op_unmark 1; op_mark 1 (8 * NS)]%Z (∅ : gmap Z Z)) = [false; true; false; false].
Proof. rewrite (dedup_refines_cell 5 _ 1%Z 0%Z) by (simpl; unfold NS; lia). vm_compute. reflexivity. Defined.

(** ** ThreadNotifier

    The threads blocked in [condition_.wait], those that were woken and have
    yet to take the mutex and test the predicate, and the notifying threads
    between [notified_ = true] and [notify_one].  A blocked thread may wake at
    any time (spuriously, or by [wait_for]'s timeout); the model leaves which
    one [notify_one] picks open. *)
Module Notifier.

Record state := mkState {
  notified_ : bool;
  blocked : list nat;
  woken : list nat;
  notifying : nat;
  passed : nat;      (* waits that returned having consumed a notification *)
  notifications : nat;  (* calls of notify so far *)
}.
Definition start (b : bool) : state := mkState b [] [] 0 0 (Nat.b2n b).

Section steps.
(** [milliseconds_ != 0]. *)
Context (timed : bool).

Inductive step : state -> state -> Prop :=
  | wait_passes s :
      s.(notified_) = true ->
      step s (mkState false s.(blocked) s.(woken) s.(notifying) (S s.(passed)) s.(notifications))
  | wait_blocks i s :
      s.(notified_) = false -> i ∉ s.(blocked) -> i ∉ s.(woken) ->
      step s (mkState false (i :: s.(blocked)) s.(woken) s.(notifying) s.(passed) s.(notifications))
  | wakes_up i s l1 l2 :
      s.(blocked) = l1 ++ i :: l2 ->
      step s (mkState s.(notified_) (l1 ++ l2) (i :: s.(woken)) s.(notifying) s.(passed) s.(notifications))
  | woken_passes i s l1 l2 :
      s.(woken) = l1 ++ i :: l2 -> s.(notified_) = true ->
      step s (mkState false s.(blocked) (l1 ++ l2) s.(notifying) (S s.(passed)) s.(notifications))
  | woken_blocks i s l1 l2 :
      s.(woken) = l1 ++ i :: l2 -> s.(notified_) = false ->
      step s (mkState false (i :: s.(blocked)) (l1 ++ l2) s.(notifying) s.(passed) s.(notifications))
  | woken_gives_up i s l1 l2 :
      timed = true -> s.(woken) = l1 ++ i :: l2 -> s.(notified_) = false ->
      step s (mkState false s.(blocked) (l1 ++ l2) s.(notifying) s.(passed) s.(notifications))
  | resets s :
      step s (mkState false s.(blocked) s.(woken) s.(notifying) s.(passed) s.(notifications))
  | notify_sets s :
      step s (mkState true s.(blocked) s.(woken) (S s.(notifying)) s.(passed) (S s.(notifications)))
  | notify_one_wakes i s l1 l2 n :
      s.(notifying) = S n -> s.(blocked) = l1 ++ i :: l2 ->
      step s (mkState s.(notified_) (l1 ++ l2) (i :: s.(woken)) n s.(passed) s.(notifications))
  | notify_one_nobody s n :
      s.(notifying) = S n -> s.(blocked) = [] ->
      step s (mkState s.(notified_) [] s.(woken) n s.(passed) s.(notifications)).

Definition good (s : state) : Prop :=
  s.(passed) + Nat.b2n s.(notified_) <= s.(notifications) /\
  (s.(notified_) = true -> s.(blocked) <> [] -> s.(woken) <> [] \/ 0 < s.(notifying)).

Lemma step_good s s' : step s s' -> good s -> good s'.
Proof.
  intros Hs [Hc Hw]. destruct Hs; unfold good; cbn [notified_ blocked woken notifying passed notifications Nat.b2n] in *;
    repeat match goal with E : notified_ _ = _ |- _ => rewrite E in * end; cbn [Nat.b2n] in *;
    (split; [destruct (notified_ s); simpl in *; lia|]); try done; intros; auto; try (right; lia); try (left; discriminate).
Qed.

(** C38: A notification wakes a waiter and is consumed once.  In every state
    the notifier can reach, by any interleaving of waits, wake-ups (spurious
    ones and timeouts included), resets and notifications, no more waits have
    returned with a notification than were sent, and a pending notification is
    never lost on the blocked threads: some thread is on its way to test it, or
    its sender has yet to call [notify_one]. *)
Theorem notifier_no_lost_wakeup (s : state) :
  rtc step (start false) s ->
  s.(passed) <= s.(notifications) /\
  (s.(notified_) = true -> s.(blocked) <> [] -> s.(woken) <> [] \/ 0 < s.(notifying)).
Proof.
  intros Hr. assert (Hg : good s).
  { assert (H0 : good (start false)) by (split; [simpl; lia|done]).
    revert H0. induction Hr; eauto using step_good. }
  destruct Hg as [Hc Hw]. split; [lia|exact Hw].
Qed.
End steps.

Lemma notifier_no_lost_wakeup_witness :
  let s := mkState true [7] [8] 0 0 1 in
  rtc (step false) (start false) s /\ (s.(woken) <> [] \/ 0 < s.(notifying)).
Proof.
  intros s.
  assert (Hr : rtc (step false) (start false) s).
  { apply (rtc_l _ _ (mkState false [8] [] 0 0 0)).
    { apply (wait_blocks false 8 (start false)); [done|apply not_elem_of_nil..]. }
    apply (rtc_l _ _ (mkState false [7; 8] [] 0 0 0)).
    { apply (wait_blocks false 7 (mkState false [8] [] 0 0 0)); [done|cbn; set_solver|apply not_elem_of_nil]. }
    apply (rtc_l _ _ (mkState true [7; 8] [] 1 0 1)); [apply (notify_sets false (mkState false [7; 8] [] 0 0 0))|].
    apply rtc_once. by apply (notify_one_wakes false 8 (mkState true [7; 8] [] 1 0 1) [7] [] 0). }
  split; [exact Hr|]. apply (notifier_no_lost_wakeup false s Hr); done.
Defined.
End Notifier.

(** ** Blocker

    A latch: threads wait until [stop] has been called, from then on nobody
    waits. *)

Module Blocker.

Record state := mkState { stop_ : bool; waiting : list nat }.
Definition start : state := mkState false [].

(** [wait()] of thread [i] up to its return or its blocking. *)
Definition wait (i : nat) (s : state) : bool * state :=
  if s.(stop_) then (true, s) else (false, mkState s.(stop_) (i :: s.(waiting))).
(** A blocked thread wakes up and tests the predicate again. *)
Definition wake (i : nat) (s : state) : option (bool * state) :=
  if decide (i ∈ s.(waiting)) then
    Some (if s.(stop_) then (true, mkState s.(stop_) (remove Nat.eq_dec i s.(waiting))) else (false, s))
  else None.
(** [stop()]; the threads [notify_all] wakes are those of [waiting]. *)
Definition stop (s : state) : state := mkState true s.(waiting).

Lemma stop_releases s i :
  (wait i (stop s)).1 = true /\
  (i ∈ s.(waiting) -> exists s', wake i (stop s) = Some (true, s') /\ i ∉ s'.(waiting)) /\
  (s.(stop_) = false -> (wait i s).1 = false /\ forall b s', wake i s = Some (b, s') -> b = false /\ s' = s).
Proof.
  split; [done|]. split.
  - intros Hi. unfold wake, stop. simpl. rewrite decide_True by done. eexists. split; [done|]. simpl.
    rewrite list_elem_of_In. apply remove_In.
  - intros Hs. unfold wait, wake. rewrite Hs. split; [done|]. intros b s'. case_decide; [|done]. by intros [= <- <-].
Qed.
End Blocker.

(** ** The typed data of [ThreadNotifier]

    [std::unordered_map<std::type_index, std::any>]: the types are named by [ty],
    and an [any] is a value with its type. *)

Module NotifierData.
Section data.
Context {ty : Type} `{Countable ty} (denote : ty -> Type).

Definition any : Type := {t : ty & denote t}.
Abbreviation data := (gmap ty any).

(** [std::any_cast<T>(&a)]: null when the types differ. *)
Definition any_cast (t : ty) (a : any) : option (denote t) :=
  match decide (projT1 a = t) with
  | left e => Some (eq_rect _ denote (projT2 a) _ e)
  | right _ => None
  end.

Definition set (t : ty) (value : denote t) (d : data) : data := <[t := existT t value]> d.
(** The pointer, by what it points to. *)
Definition get (t : ty) (d : data) : option (denote t) :=
  match d !! t with Some a => any_cast t a | None => None end.

Lemma any_cast_same t (v : denote t) : any_cast t (existT t v) = Some v.
Proof.
  unfold any_cast. simpl. destruct (decide (t = t)) as [e|]; [|done].
  by rewrite (proof_irrel e eq_refl).
Qed.

(** What was set last for a type is got back, and only for that type. *)
Lemma get_set t t' (v : denote t) d :
  get t' (set t v d) =
  match decide (t = t') with left e => Some (eq_rect t denote v t' e) | right _ => get t' d end.
Proof.
  unfold get, set. destruct (decide (t = t')) as [e|Hne].
  - subst t'. by rewrite lookup_insert_eq, any_cast_same.
  - by rewrite lookup_insert_ne.
Qed.

(** An entry is always of the type it is filed under: once set, [get] is never null. *)
Definition well_typed (d : data) : Prop := forall t a, d !! t = Some a -> projT1 a = t.

Lemma set_well_typed t v d : well_typed d -> well_typed (set t v d).
Proof. unfold set. intros Hd t' a Ha. apply lookup_insert_Some in Ha as [[<- <-]|[_ Ha]]; [done|by apply Hd]. Qed.

Lemma get_not_null t a d : well_typed d -> d !! t = Some a -> get t d <> None.
Proof.
  intros Hd Ha. unfold get. rewrite Ha. specialize (Hd t a Ha). destruct a as [t' v]. simpl in Hd. subst t'.
  by rewrite any_cast_same.
Qed.
End data.
End NotifierData.
