(* ===== verification/EnvExpand.v ===== *)
(** * Placeholders in configuration strings

    The sources expand ["${VAR}"] and ["${VAR:-default}"] twice over a
    configuration: [ConfigSources::expand_env_in_string]
    ([src/include/simple_data.hpp]) scans the text and writes a new one,
    [replace_env_var] ([src/src/json_util.cpp]) edits the text in place.  Both
    are shown to compute the relation [expands], which says what the expansion
    of a text is.  The process environment is a function; the name given to
    [getenv] ends at its first NUL character. *)

From Stdlib Require Import ZArith Lia Ascii String.
From stdpp Require Import base list gmap strings.
From S2P Require Import Prelude.

(** [s.c_str()] read as a C string. *)
Fixpoint c_str (s : str) : str :=
  match s with
  | c :: s' => if decide (c = "000"%char) then [] else c :: c_str s'
  | [] => []
  end.

Abbreviation environment := (str -> option str).

(** [std::map<std::string, std::string>]. *)
Abbreviation smap := (gmap str str).

Section code.
Context (getenv : environment).

(** [getenv] when it gives a non-empty value. *)
Definition getenv_set (name : str) : option str :=
  match getenv (c_str name) with
  | Some (c :: v) => Some (c :: v)
  | _ => None
  end.

(** ** [ConfigSources::expand_env_in_string] *)

Definition resolve_env_var (cli_overrides_ env_overrides_ : smap) (key : str) : option str :=
  match cli_overrides_ !! key with
  | Some v => Some v
  | None =>
      match getenv_set key with
      | Some v => Some v
      | None => env_overrides_ !! key
      end
  end.

(** The variable and the default of a placeholder. *)
Definition token_parts (token : str) : str * option str :=
  match find_sub (lit ":-") token with
  | Some delim => (substr token 0 delim, Some (substr_from token (delim + 2)))
  | None => (token, None)
  end.

Definition expand_token (cli env : smap) (token : str) : option str :=
  let '(var, default_val) := token_parts token in
  match resolve_env_var cli env var with
  | Some resolved => Some resolved
  | None => default_val
  end.

(** The scan of [in] from [i]; [rest] is [in] from [i] on. *)
Fixpoint expand_scan (fuel : nat) (cli env : smap) (rest out : str) : option str :=
  match fuel with
  | O => None
  | S f =>
      match rest with
      | [] => Some out
      | c :: rest' =>
          if starts_with (lit "${") rest then
            match find_char_at "}" 2 rest with
            | Some end_ =>
                let token := substr rest 2 (end_ - 2) in
                let piece := default (substr rest 0 (end_ + 1)) (expand_token cli env token) in
                expand_scan f cli env (substr_from rest (end_ + 1)) (out ++ piece)
            | None => expand_scan f cli env rest' (out ++ [c])
            end
          else expand_scan f cli env rest' (out ++ [c])
      end
  end.

Definition expand_env_in_string (cli env : smap) (in_ : str) : option str :=
  expand_scan (S (length in_)) cli env in_ [].

(** ** [replace_env_var] *)

Definition replacement_of (cli_map properties_map : smap) (token : str) : option str :=
  let '(var, default_val) :=
    match find_sub (lit ":-") token with
    | Some delim => (substr token 0 delim, substr_from token (delim + 2))
    | None => (token, [])
    end in
  match cli_map !! var with
  | Some v => Some v
  | None =>
      match getenv_set var with
      | Some v => Some v
      | None =>
          match properties_map !! var with
          | Some v => Some v
          | None => if decide (default_val = []) then None else Some default_val
          end
      end
  end.

Fixpoint replace_loop (fuel : nat) (cli props : smap) (output : str) (pos : nat) : option str :=
  match fuel with
  | O => None
  | S f =>
      match find_sub_at (lit "${") pos output with
      | None => Some output
      | Some start =>
          match find_char_at "}" (start + 2) output with
          | None => Some output
          | Some end_ =>
              let token := substr output (start + 2) (end_ - start - 2) in
              match replacement_of cli props token with
              | Some r =>
                  replace_loop f cli props
                    (take start output ++ r ++ drop (end_ + 1) output) (start + length r)
              | None => replace_loop f cli props output (end_ + 1)
              end
          end
      end
  end.

Definition replace_env_var (input : str) (cli_map properties_map : smap) : option str :=
  replace_loop (S (length input)) cli_map properties_map input 0.
End code.

(** ** What an expansion is *)

Definition hole (token : str) : str := lit "${" ++ token ++ lit "}".

(** [expands value s t]: reading [s] from the left, every placeholder whose
    token has a value is replaced by it, and everything else is kept. *)
Inductive expands (value : str -> option str) : str -> str -> Prop :=
  | expands_nil : expands value [] []
  | expands_hole token s t :
      "}"%char ∉ token -> expands value s t ->
      expands value (hole token ++ s) (default (hole token) (value token) ++ t)
  | expands_char c s t :
      (forall token s', "}"%char ∉ token -> c :: s <> hole token ++ s') ->
      expands value s t -> expands value (c :: s) (c :: t).

(** The first ["}"] ends the token. *)
Lemma hole_inj t1 t2 s1 s2 :
  "}"%char ∉ t1 -> "}"%char ∉ t2 -> hole t1 ++ s1 = hole t2 ++ s2 -> t1 = t2 /\ s1 = s2.
Proof.
  unfold hole. intros H1 H2. simpl. rewrite <- !app_assoc. intros [= E]. revert t2 H2 E.
  induction t1 as [|c t1 IH]; intros [|d t2] H2 E; simpl in E.
  - by injection E as E.
  - injection E as <- _. exfalso. apply H2. by left.
  - injection E as -> _. exfalso. apply H1. by left.
  - injection E as <- E. rewrite not_elem_of_cons in H1, H2.
    destruct (IH (proj2 H1) t2 (proj2 H2) E) as [-> ->]. done.
Qed.

Lemma hole_cons token s : hole token ++ s = "$"%char :: "{"%char :: token ++ "}"%char :: s.
Proof. unfold hole. simpl. by rewrite <- app_assoc. Qed.

Lemma hole_nonempty token s : hole token ++ s <> [].
Proof. by rewrite hole_cons. Qed.

Lemma expands_det value s t1 t2 : expands value s t1 -> expands value s t2 -> t1 = t2.
Proof.
  intros H1. revert t2. induction H1 as [|token s t Ht Hs IH|c s t Hn Hs IH]; intros t2 H2.
  - by inversion H2.
  - remember (hole token ++ s) as u eqn:E. destruct H2 as [|token' s' t' Ht' Hs'|c s' t' Hn Hs'].
    + by destruct (hole_nonempty token s).
    + destruct (hole_inj _ _ _ _ Ht' Ht E) as [-> ->]. f_equal. auto.
    + by destruct (Hn token s Ht).
  - remember (c :: s) as u eqn:E. destruct H2 as [|token' s' t' Ht' Hs'|c' s' t' Hn' Hs']; [done| |].
    + by destruct (Hn token' s').
    + injection E as -> ->. f_equal. auto.
Qed.

(** Only the tokens that occur matter. *)
Lemma expands_ext v1 v2 s t :
  expands v1 s t ->
  (forall a token b, "}"%char ∉ token -> s = a ++ hole token ++ b -> v1 token = v2 token) ->
  expands v2 s t.
Proof.
  induction 1 as [|token s t Ht Hs IH|c s t Hn Hs IH]; intros Hv.
  - constructor.
  - rewrite (Hv [] token s Ht eq_refl). constructor; [done|]. apply IH.
    intros a tk b Htk ->. apply (Hv (hole token ++ a) tk b Htk). by rewrite !app_assoc.
  - constructor; [done|]. apply IH. intros a tk b Htk ->. by apply (Hv (c :: a) tk b Htk).
Qed.

(** A text without a complete placeholder is its own expansion. *)
Lemma expands_plain value s :
  (forall a token b, "}"%char ∉ token -> s <> a ++ hole token ++ b) -> expands value s s.
Proof.
  induction s as [|c s IH]; intros H; constructor.
  - intros token s' Ht. by apply (H [] token s').
  - apply IH. intros a token b Ht ->. by apply (H (c :: a) token b Ht).
Qed.

(** A prefix in which no placeholder begins is kept. *)
Lemma expands_prefix value a s t :
  expands value s t ->
  (forall a1 c a2 token b, a = a1 ++ c :: a2 -> "}"%char ∉ token -> c :: a2 ++ s <> hole token ++ b) ->
  expands value (a ++ s) (a ++ t).
Proof.
  intros Hs. induction a as [|c a IH]; intros H; [done|]. simpl. constructor.
  - intros token b Ht. by apply (H [] c a).
  - apply IH. intros a1 d a2 token b -> Ht. by apply (H (c :: a1) d a2).
Qed.

(** ** Searching *)

Lemma find_char_at_Some c pos s i :
  find_char_at c pos s = Some i ->
  exists a b, drop pos s = a ++ c :: b /\ c ∉ a /\ i = pos + length a.
Proof.
  unfold find_char_at. intros H. apply find_index_from_Some in H as (a & d & b & E & Hi & Hd & Ha).
  apply bool_decide_eq_true in Hd as ->. exists a, b. split_and!; [done| |done].
  rewrite forallb_forall in Ha. rewrite list_elem_of_In. intros Hin.
  apply Ha in Hin. by rewrite bool_decide_true in Hin.
Qed.

Lemma find_char_at_None c pos s : find_char_at c pos s = None -> c ∉ drop pos s.
Proof.
  unfold find_char_at. rewrite find_index_from_None, forallb_forall, list_elem_of_In.
  intros Ha Hin. apply Ha in Hin. by rewrite bool_decide_true in Hin.
Qed.

(** [find] gives the leftmost occurrence. *)
Lemma find_sub_from_leftmost pat i s j :
  find_sub_from pat i s = Some j ->
  forall a b, s = a ++ pat ++ b -> j <= i + length a.
Proof.
  revert i. induction s as [|c s IH]; intros i H a b E; cbn -[starts_with] in H.
  - destruct (starts_with pat []); simplify_eq. lia.
  - destruct (starts_with pat (c :: s)) eqn:Hs; simplify_eq; [lia|].
    destruct a as [|c' a]; simpl in E.
    + rewrite E in Hs. by rewrite starts_with_app in Hs.
    + injection E as -> E. specialize (IH _ H a b E). simpl. lia.
Qed.

Lemma find_sub_from_None pat i s :
  find_sub_from pat i s = None -> forall a b, s <> a ++ pat ++ b.
Proof.
  revert i. induction s as [|c s IH]; intros i H a b E; cbn -[starts_with] in H.
  - destruct (starts_with pat []) eqn:Hs; [done|].
    symmetry in E. apply app_nil in E as [-> E]. apply app_nil in E as [-> ->]. done.
  - destruct (starts_with pat (c :: s)) eqn:Hs; [done|]. destruct a as [|c' a]; simpl in E.
    + rewrite E in Hs. by rewrite starts_with_app in Hs.
    + injection E as -> E. by apply (IH _ H a b).
Qed.

(** ** Both routines compute it *)

Lemma starts_with_open s : starts_with (lit "${") s = true <-> exists r, s = "$"%char :: "{"%char :: r.
Proof. rewrite starts_with_spec. split; intros [r ->]; by exists r. Qed.

(** The pieces of a text cut around a placeholder. *)
Lemma cut_hole a token b :
  let s := a ++ hole token ++ b in
  substr s (length a + 2) (length token) = token /\ take (length a) s = a /\
  drop (length a + 2 + length token + 1) s = b /\
  take (length token + 3) (hole token ++ b) = hole token.
Proof.
  assert (Hl : length (hole token) = length token + 3) by (unfold hole; rewrite !length_app; simpl; lia).
  intros s. unfold s, substr. split_and!.
  - rewrite hole_cons.
    replace (a ++ _) with ((a ++ lit "${") ++ token ++ "}"%char :: b) by (by rewrite <- app_assoc).
    rewrite drop_app_length' by (rewrite length_app; done). by rewrite take_app_length.
  - by rewrite take_app_length.
  - rewrite app_assoc. apply drop_app_length'. rewrite length_app, Hl. lia.
  - apply take_app_length'. lia.
Qed.

Section routines.
Context (getenv : environment) (cli env : smap).

Lemma expand_scan_correct fuel : forall rest out,
  length rest < fuel ->
  exists t, expand_scan getenv fuel cli env rest out = Some (out ++ t) /\
    expands (expand_token getenv cli env) rest t.
Proof.
  induction fuel as [|fuel IH]; intros rest out Hf; [lia|]. cbn [expand_scan].
  destruct rest as [|c rest]; [exists []; split; [by rewrite app_nil_r|constructor]|].
  assert (Hchar : (forall token s', "}"%char ∉ token -> c :: rest <> hole token ++ s') ->
    exists t, expand_scan getenv fuel cli env rest (out ++ [c]) = Some (out ++ t) /\
      expands (expand_token getenv cli env) (c :: rest) t).
  { intros Hn. destruct (IH rest (out ++ [c])) as (t & -> & Ht); [simpl in Hf; lia|].
    exists (c :: t). split; [by rewrite <- app_assoc|]. by constructor. }
  destruct (starts_with _ _) eqn:Ho.
  - apply starts_with_open in Ho as [r Hr]. rewrite Hr.
    destruct (find_char_at "}" 2 _) as [e|] eqn:He.
    + apply find_char_at_Some in He as (token & b & E & Ht & ->). rewrite skipn_cons, skipn_cons, drop_0 in E. subst r.
      rewrite <- (hole_cons token b). destruct (cut_hole [] token b) as (H1 & _ & H3 & H4).
      change ([] ++ hole token ++ b) with (hole token ++ b) in H1, H3.
      change (length [] + 2) with 2 in H1, H3.
      replace (2 + length token - 2) with (length token) by lia. rewrite H1.
      unfold substr_from. rewrite H3. replace (2 + length token + 1) with (length token + 3) by lia.
      unfold substr. rewrite drop_0, H4.
      destruct (IH b (out ++ default (hole token) (expand_token getenv cli env token))) as (t & -> & Hx).
      { apply (f_equal length) in Hr. rewrite <- hole_cons, length_app in Hr. simpl in *.
        unfold hole in Hr. rewrite !length_app in Hr. simpl in Hr. lia. }
      eexists. split; [by rewrite <- app_assoc|]. by constructor.
    + rewrite <- Hr. apply Hchar. intros token s' Ht E. apply find_char_at_None in He.
      rewrite hole_cons in E. rewrite E in Hr. injection Hr as <-. apply He. simpl. set_solver.
  - apply Hchar. intros token s' Ht E. rewrite hole_cons in E. rewrite E in Ho.
    assert (starts_with (lit "${") ("$"%char :: "{"%char :: token ++ "}"%char :: s') = true)
      by (apply starts_with_open; eauto). congruence.
Qed.

Lemma elem_of_drop_l {A} (x : A) n l1 l2 : n <= length l1 -> x ∈ l2 -> x ∈ drop n (l1 ++ l2).
Proof. intros Hn Hx. rewrite drop_app_le by lia. set_solver. Qed.

Lemma replace_loop_correct fuel : forall done_ rest,
  length rest < fuel ->
  exists t, replace_loop getenv fuel cli env (done_ ++ rest) (length done_) = Some (done_ ++ t) /\
    expands (replacement_of getenv cli env) rest t.
Proof.
  induction fuel as [|fuel IH]; intros done_ rest Hf; [lia|]. cbn [replace_loop].
  unfold find_sub_at. rewrite length_app. rewrite (proj2 (Nat.leb_le _ _)) by lia.
  rewrite drop_app_length. destruct (find_sub_from _ _ rest) as [start|] eqn:Hs.
  2:{ exists rest. split; [done|]. apply expands_plain. intros a token b _ ->.
      refine (find_sub_from_None _ _ _ Hs a (token ++ lit "}" ++ b) _). unfold hole. by rewrite <- !app_assoc. }
  pose proof (find_sub_from_leftmost _ _ _ _ Hs) as Hleft.
  apply find_sub_from_Some in Hs as (a & r & E & ->).
  assert (Hd : drop (length done_ + length a + 2) (done_ ++ rest) = r).
  { rewrite E, !app_assoc. apply drop_app_length'. rewrite !length_app. simpl. lia. }
  destruct (find_char_at _ _ _) as [e|] eqn:He.
  2:{ exists rest. split; [done|]. apply expands_plain. intros a' token b Ht E'.
      apply find_char_at_None in He. rewrite Hd in He. apply He.
      assert (Ha : length a <= length a').
      { specialize (Hleft a' (token ++ lit "}" ++ b)). rewrite E' in Hleft. unfold hole in Hleft.
        rewrite <- !app_assoc in Hleft. specialize (Hleft eq_refl). lia. }
      rewrite <- Hd, E'. unfold hole. rewrite <- !app_assoc.
      replace (done_ ++ a' ++ lit "${" ++ token ++ lit "}" ++ b)
        with ((done_ ++ a' ++ lit "${") ++ token ++ lit "}" ++ b) by (by rewrite <- !app_assoc).
      apply elem_of_drop_l; [rewrite !length_app; simpl; lia|set_solver]. }
  apply find_char_at_Some in He as (token & b & E' & Ht & ->). rewrite Hd in E'. rewrite E' in E.
  assert (Hrest : rest = a ++ hole token ++ b) by (rewrite hole_cons; exact E).
  clear E E' Hd r. subst rest.
  assert (Hpre : forall t, expands (replacement_of getenv cli env) b t ->
    expands (replacement_of getenv cli env) (a ++ hole token ++ b)
      (a ++ default (hole token) (replacement_of getenv cli env token) ++ t)).
  { intros t Hx. apply expands_prefix; [by constructor|]. intros a1 c a2 tk b' -> Htk E.
    assert (Hl : length (a1 ++ c :: a2) <= length a1); [|rewrite length_app in Hl; simpl in Hl; lia].
    enough (length done_ + length (a1 ++ c :: a2) <= length done_ + length a1) by lia.
    apply (Hleft a1 (tk ++ lit "}" ++ b')). rewrite <- app_assoc.
    change ((c :: a2) ++ hole token ++ b) with (c :: a2 ++ hole token ++ b). rewrite E.
    unfold hole. by rewrite <- !app_assoc. }
  destruct (cut_hole (done_ ++ a) token b) as (H1 & H2 & H3 & _). cbv zeta in H1, H2, H3.
  rewrite length_app in H1, H2, H3. rewrite app_assoc.
  replace (length done_ + length a + 2 + length token - (length done_ + length a) - 2)
    with (length token) by lia.
  rewrite H1, H2, H3. rewrite !length_app in Hf. simpl in Hf.
  assert (Hhole : length (hole token) = length token + 3) by (unfold hole; rewrite !length_app; simpl; lia).
  destruct (replacement_of getenv cli env token) as [v|].
  - destruct (IH ((done_ ++ a) ++ v) b) as (t & Hrun & Hx); [lia|].
    rewrite !length_app, <- !app_assoc in Hrun. rewrite <- !app_assoc.
    rewrite Hrun. eexists. split; [done|]. by apply Hpre.
  - destruct (IH ((done_ ++ a) ++ hole token) b) as (t & Hrun & Hx); [lia|].
    replace (length ((done_ ++ a) ++ hole token)) with (length done_ + length a + 2 + length token + 1)
      in Hrun by (rewrite !length_app; lia).
    rewrite <- !app_assoc in Hrun. rewrite <- !app_assoc. rewrite Hrun. eexists. split; [done|]. by apply Hpre.
Qed.

(** C32: Both expansions of configuration text terminate and compute the
    relation [expands]: every placeholder, read from the left, is replaced by
    the value of its token - command line first, then a non-empty variable of the
    process environment, then the properties, then the default it carries - and
    an unresolved or unclosed one stays.  The value of a placeholder is not
    expanded again.  The scanner and the in-place editor therefore agree on every
    text in which no placeholder has an empty default. *)
Theorem env_expansions_agree (s : str) :
  exists t1 t2,
    expand_env_in_string getenv cli env s = Some t1 /\ expands (expand_token getenv cli env) s t1 /\
    replace_env_var getenv s cli env = Some t2 /\ expands (replacement_of getenv cli env) s t2 /\
    ((forall a b, s <> a ++ lit ":-}" ++ b) -> t1 = t2).
Proof.
  destruct (expand_scan_correct (S (length s)) s [] ltac:(lia)) as (t1 & H1 & Hx1).
  destruct (replace_loop_correct (S (length s)) [] s ltac:(lia)) as (t2 & H2 & Hx2).
  exists t1, t2. split_and!; [done..|]. intros Hs.
  apply (expands_det (replacement_of getenv cli env) s); [|done].
  apply (expands_ext _ _ _ _ Hx1). intros a token b _ E.
  unfold expand_token, token_parts, replacement_of.
  destruct (find_sub (lit ":-") token) as [d|] eqn:Ed.
  - unfold resolve_env_var. destruct (cli !! _); [done|]. destruct (getenv_set _ _); [done|].
    destruct (env !! _); [done|]. case_decide as Hn; [|done]. exfalso.
    apply find_sub_from_Some in Ed as (p & q & -> & ->). unfold substr_from in Hn.
    rewrite app_assoc, Nat.add_0_l in Hn. rewrite drop_app_length' in Hn by (rewrite length_app; done). subst q.
    apply (Hs (a ++ lit "${" ++ p) b). rewrite E. unfold hole. rewrite app_nil_r. by rewrite <- !app_assoc.
  - unfold resolve_env_var. destruct (cli !! _); [done|]. destruct (getenv_set _ _); [done|].
    by destruct (env !! _).
Qed.
End routines.

(** With an empty default they differ: the scanner inserts it, the editor
    leaves the placeholder. *)
Lemma empty_default_differs :
  expand_env_in_string (fun _ => None) ∅ ∅ (lit "x${A:-}y") = Some (lit "xy") /\
  replace_env_var (fun _ => None) (lit "x${A:-}y") ∅ ∅ = Some (lit "x${A:-}y").
Proof. by vm_compute. Qed.
