(* ===== verification/JsonUtil.v ===== *)
(** * JSON helpers ([src/src/json_util.cpp])

    Typed access to members with an error that says what is missing, booleans
    read from several kinds of value, environment substitution over a whole
    value, and the two pretty printers.  What [std::move] leaves in the argument
    of the [consume_] functions is not modelled: no caller looks at it. *)

From Stdlib Require Import ZArith Lia Ascii String.
From stdpp Require Import base list gmap strings.
From S2P Require Import Prelude Json ResultMonad EnvExpand.

Definition json_kind_name (jv : json) : str :=
  match jv with
  | JNull => lit "null"
  | JBool _ => lit "bool"
  | JInt64 _ => lit "int64"
  | JUint64 _ => lit "uint64"
  | JDouble _ => lit "double"
  | JString _ => lit "string"
  | JArray _ => lit "array"
  | JObject _ => lit "object"
  end.

Definition one_of (s : str) (l : list string) : bool := existsb (fun w => bool_decide (s = lit w)) l.

Definition parse_bool_like (jv : json) : option bool :=
  match jv with
  | JBool b => Some b
  | JInt64 value | JUint64 value =>
      if (value =? 0)%Z then Some false else if (value =? 1)%Z then Some true else None
  | JString s =>
      let normalized := to_lower s in
      if one_of normalized ["true"; "1"; "yes"; "on"] then Some true
      else if one_of normalized ["false"; "0"; "no"; "off"] then Some false
      else None
  | _ => None
  end.

Section code.
Context `{JsonLib}.

Definition not_an_object (val : json) : Error :=
  make_error 1 (lit "Expect object but not an object. body: " ++ json_serialize val).

Definition consume_object_at (val : json) (k1 : str) : Result jobject Error :=
  match val with
  | JObject ob =>
      match obj_find k1 ob with
      | Some (JObject o) => Ok o
      | _ => Err (not_an_object val)
      end
  | _ => Err (not_an_object val)
  end.

Definition reference_object_at (val : json) (k1 : str) : Result jobject Error :=
  match val with
  | JObject ob =>
      match obj_find k1 ob with
      | Some (JObject o) => Ok o
      | _ => Err (not_an_object val)
      end
  | _ => Err (not_an_object val)
  end.

Definition consume_value_at (val : json) (k1 : str) : Result json Error :=
  match val with
  | JObject ob => match obj_find k1 ob with Some v => Ok v | None => Err (not_an_object val) end
  | _ => Err (not_an_object val)
  end.

Definition reference_value_at (val : json) (k1 : str) : Result json Error :=
  match val with
  | JObject ob => match obj_find k1 ob with Some v => Ok v | None => Err (not_an_object val) end
  | _ => Err (not_an_object val)
  end.

Definition expect_object_at2 (val : json) (k1 k2 : str) : Result jobject Error :=
  match val with
  | JObject obj1 =>
      match obj_find k1 obj1 with
      | None => Err (make_error 2 (lit "Key not found: " ++ k1))
      | Some (JObject obj2) =>
          match obj_find k2 obj2 with
          | None => Err (make_error 4 (lit "Key not found: " ++ k2))
          | Some (JObject o) => Ok o
          | Some _ => Err (make_error 5 (lit "Expected json::object at key: " ++ k2))
          end
      | Some _ => Err (make_error 3 (lit "Expected json::object at key: " ++ k1))
      end
  | _ => Err (make_error 1 (lit "Not an json::object at root"))
  end.

Definition expect_object_at3 (val : json) (k1 k2 k3 : str) : Result jobject Error :=
  match val with
  | JObject obj1 =>
      match obj_find k1 obj1 with
      | None => Err (make_error 2 (lit "Key not found: " ++ k1))
      | Some (JObject obj2) =>
          match obj_find k2 obj2 with
          | None => Err (make_error 4 (lit "Key not found: " ++ k2))
          | Some (JObject obj3) =>
              match obj_find k3 obj3 with
              | None => Err (make_error 6 (lit "Key not found: " ++ k3))
              | Some (JObject o) => Ok o
              | Some _ => Err (make_error 7 (lit "Expected json::object at key: " ++ k3))
              end
          | Some _ => Err (make_error 5 (lit "Expected json::object at key: " ++ k2))
          end
      | Some _ => Err (make_error 3 (lit "Expected json::object at key: " ++ k1))
      end
  | _ => Err (make_error 1 (lit "Not an json::object at root"))
  end.

Definition expect_true_at (val : json) (k1 : str) : VoidResult Error :=
  match val with
  | JObject jo =>
      match obj_find k1 jo with
      | Some (JBool true) => void_ok
      | _ => void_err (make_error 1 (lit "Expected true at key: " ++ k1))
      end
  | _ => void_err (make_error 1 (lit "Expected true at key: " ++ k1))
  end.

Definition bool_from_json_ob (jv : json) (key : str) : bool :=
  let jv_p :=
    if decide (key = []) then Some jv
    else match jv with JObject m => obj_find key m | _ => None end in
  match jv_p with
  | Some (JBool b) => b
  | Some (JString s) => one_of s ["true"; "1"; "yes"; "on"]
  | _ => false
  end.

Definition bool_with_context (jv : json) (field_path : str) : Result bool Error :=
  match parse_bool_like jv with
  | Some b => Ok b
  | None =>
      Err (make_error 1 (lit "Invalid boolean for '" ++ field_path ++ lit "': got " ++
        json_kind_name jv ++ lit " value " ++ json_serialize jv))
  end.

Definition bool_with_context_in (obj : jobject) (field_name : str) : Result bool Error :=
  match obj_find field_name obj with
  | Some value => bool_with_context value field_name
  | None => Err (make_error 1 (lit "Missing boolean field '" ++ field_name ++ lit "'"))
  end.

Definition bool_or_throw (jv : json) (field_path : str) : throws bool :=
  match bool_with_context jv field_path with
  | Ok b => inr b
  | Err e => inl (StdExn e.(what))
  end.

Definition bool_or_throw_in (obj : jobject) (field_name : str) : throws bool :=
  match bool_with_context_in obj field_name with
  | Ok b => inr b
  | Err e => inl (StdExn e.(what))
  end.

(** ** Environment substitution *)

Section envs.
Context (getenv : environment) (cli_map properties_map : smap).

Definition substituted_string (s : str) : json :=
  let substituted := default [] (replace_env_var getenv (c_str s) cli_map properties_map) in
  if decide (substituted = lit "true") then JBool true
  else if decide (substituted = lit "false") then JBool false
  else JString substituted.

Fixpoint substitue_envs (jv : json) : json :=
  match jv with
  | JObject obj => JObject (map (fun kv => (kv.1, substitue_envs kv.2)) obj)
  | JArray arr => JArray (map substitue_envs arr)
  | JString s => substituted_string s
  | _ => jv
  end.
End envs.

(** ** Printing *)

Definition quoted_key (k : str) : str := json_serialize (JString k).

(** The text [pretty_print] writes with the given indentation, which it leaves as
    it found it. *)
Fixpoint pretty_print_at (jv : json) (indent : str) : str :=
  let body :=
    match jv with
    | JObject obj =>
        let inner := indent ++ lit "    " in
        lit "{" ++ nl ++
        (fix go (m : jobject) : str :=
           match m with
           | [] => []
           | [kv] => inner ++ quoted_key kv.1 ++ lit " : " ++ pretty_print_at kv.2 inner
           | kv :: m' =>
               inner ++ quoted_key kv.1 ++ lit " : " ++ pretty_print_at kv.2 inner ++ lit "," ++ nl ++ go m'
           end) obj ++
        nl ++ indent ++ lit "}"
    | JArray arr =>
        let inner := indent ++ lit "    " in
        lit "[" ++ nl ++
        (fix go (l : list json) : str :=
           match l with
           | [] => []
           | [v] => inner ++ pretty_print_at v inner
           | v :: l' => inner ++ pretty_print_at v inner ++ lit "," ++ nl ++ go l'
           end) arr ++
        nl ++ indent ++ lit "]"
    | JBool b => if b then lit "true" else lit "false"
    | JNull => lit "null"
    | _ => json_serialize jv
    end in
  body ++ (if decide (indent = []) then nl else []).

Definition pretty_print (jv : json) : str := pretty_print_at jv [].

Definition indent (level : nat) : str := replicate (level * 2) " "%char.

Fixpoint prettyPrint (val : json) (level : nat) : str :=
  match val with
  | JNull => lit "null"
  | JBool b => if b then lit "true" else lit "false"
  | JInt64 z => z_to_str z
  | JUint64 z => z_to_str z
  | JDouble d => double_to_str d
  | JString s => ["034"%char] ++ s ++ ["034"%char]
  | JArray [] => lit "[]"
  | JArray arr =>
      lit "[" ++ nl ++
      (fix go (l : list json) : str :=
         match l with
         | [] => []
         | [v] => indent (level + 1) ++ prettyPrint v (level + 1) ++ nl
         | v :: l' => indent (level + 1) ++ prettyPrint v (level + 1) ++ lit "," ++ nl ++ go l'
         end) arr ++
      indent level ++ lit "]"
  | JObject [] => lit "{}"
  | JObject obj =>
      lit "{" ++ nl ++
      (fix go (m : jobject) : str :=
         match m with
         | [] => []
         | [kv] => indent (level + 1) ++ ["034"%char] ++ kv.1 ++ ["034"%char] ++ lit ": " ++
             prettyPrint kv.2 (level + 1) ++ nl
         | kv :: m' => indent (level + 1) ++ ["034"%char] ++ kv.1 ++ ["034"%char] ++ lit ": " ++
             prettyPrint kv.2 (level + 1) ++ lit "," ++ nl ++ go m'
         end) obj ++
      indent level ++ lit "}"
  end.
End code.

(** ** Paths *)

Abbreviation jpath := (list (str + nat)).

Definition jstep (s : str + nat) (j : json) : option json :=
  match s, j with
  | inl k, JObject m => obj_find k m
  | inr i, JArray l => l !! i
  | _, _ => None
  end.

Fixpoint jget (p : jpath) (j : json) : option json :=
  match p with
  | [] => Some j
  | s :: p' => jstep s j ≫= jget p'
  end.

(** What [expect_object_at] finds is what the path leads to, and its error code
    tells the step that failed: odd for a value that is no object, even for a
    missing key. *)
Lemma expect_object_at_finds j k1 k2 k3 o :
  expect_object_at3 j k1 k2 k3 = Ok o <-> jget [inl k1; inl k2; inl k3] j = Some (JObject o).
Proof.
  unfold expect_object_at3. simpl. destruct j as [| | | | | | |m1]; try done. simpl.
  destruct (obj_find k1 m1) as [[| | | | | | |m2]|]; try done. simpl.
  destruct (obj_find k2 m2) as [[| | | | | | |m3]|]; try done. simpl.
  destruct (obj_find k3 m3) as [[| | | | | | |m4]|]; try done. simpl. split; congruence.
Qed.

Lemma expect_object_at_extends j k1 k2 k3 :
  expect_object_at3 j k1 k2 k3 =
    and_then (fun o => match obj_find k3 o with
                       | None => Err (make_error 6 (lit "Key not found: " ++ k3))
                       | Some (JObject o') => Ok o'
                       | Some _ => Err (make_error 7 (lit "Expected json::object at key: " ++ k3))
                       end) (expect_object_at2 j k1 k2).
Proof.
  unfold expect_object_at3, expect_object_at2. destruct j as [| | | | | | |m1]; try done.
  destruct (obj_find k1 m1) as [[| | | | | | |m2]|]; try done.
  by destruct (obj_find k2 m2) as [[| | | | | | |m3]|].
Qed.

(** ** Substitution is pointwise *)

Section subst.
Context (getenv : environment) (cli props : smap).
Local Abbreviation sub := (substitue_envs getenv cli props).

Lemma obj_find_map k (m : jobject) (f : json -> json) :
  obj_find k (map (fun kv => (kv.1, f kv.2)) m) = f <$> obj_find k m.
Proof. induction m as [|[k' v] m IH]; simpl; [done|]. by case_decide. Qed.

Lemma jget_substitue p : forall j,
  (forall q s, q `prefix_of` p -> jget q j = Some (JString s) -> q = p) ->
  jget p (sub j) = sub <$> jget p j.
Proof.
  induction p as [|st p IH]; intros j Hs; [done|]. cbn [jget].
  destruct (jstep st j) as [j'|] eqn:E.
  - assert (Hj : jstep st (sub j) = Some (sub j')).
    { destruct st as [k|i], j; simplify_eq/=.
      - by rewrite obj_find_map, E.
      - by rewrite list_lookup_fmap, E. }
    rewrite Hj. simpl. apply IH. intros q s Hq Hg.
    assert (Hq' : st :: q = st :: p); [|congruence].
    apply (Hs _ s); [by apply prefix_cons|]. simpl. by rewrite E.
  - assert (Hj : jstep st (sub j) = None); [|by rewrite Hj].
    destruct st as [k|i], j as [| | | | |s|l|m]; simpl in E |- *; try done.
    + unfold substituted_string. repeat case_decide; done.
    + by rewrite obj_find_map, E.
    + unfold substituted_string. repeat case_decide; done.
    + by rewrite list_lookup_fmap, E.
Qed.

(** The path to a value below goes through no string. *)
Lemma jget_through_no_string p j v q s :
  jget p j = Some v -> q `prefix_of` p -> jget q j = Some (JString s) -> q = p.
Proof.
  intros Hp [r ->] Hq. assert (Hr : jget r (JString s) = Some v).
  { revert j Hp Hq. induction q as [|st q IH]; intros j; simpl; [by intros ? [= ->]|].
    destruct (jstep st j); simpl; [apply IH|done]. }
  destruct r as [|st r]; [by rewrite app_nil_r|]. by destruct st.
Qed.

(** Environment substitution rewrites a configuration value point by point:
    objects keep their keys in order, arrays their length, numbers, booleans and
    null are untouched, and every string - up to its first NUL character -
    becomes its expansion, which is turned into a boolean when it spells one.
    It never fails. *)
Theorem substitue_envs_pointwise (jv : json) (p : jpath) (v : json) :
  jget p jv = Some v ->
  match v with
  | JString s =>
      exists t, expands (replacement_of getenv cli props) (c_str s) t /\
        jget p (sub jv) = Some (if decide (t = lit "true") then JBool true
                                else if decide (t = lit "false") then JBool false
                                else JString t)
  | JArray l => exists l', jget p (sub jv) = Some (JArray l') /\ length l' = length l
  | JObject m => exists m', jget p (sub jv) = Some (JObject m') /\ map fst m' = map fst m
  | _ => jget p (sub jv) = Some v
  end.
Proof.
  intros Hv. assert (Hsub : jget p (sub jv) = Some (sub v)).
  { rewrite jget_substitue, Hv; [done|]. intros. by eapply jget_through_no_string. }
  destruct v as [| | | | |s|l|m]; try done.
  - destruct (env_expansions_agree getenv cli props (c_str s)) as (_ & t & _ & _ & Ht & Hx & _).
    exists t. split; [done|]. rewrite Hsub. simpl. unfold substituted_string. by rewrite Ht.
  - eexists. split; [done|]. by rewrite length_map.
  - eexists. split; [done|]. by rewrite map_map.
Qed.

Lemma substitue_envs_wf j : json_wf j -> json_wf (sub j).
Proof.
  induction j as [| | | | |s|l IH|m IH] using json_ind'; simpl; try done.
  - intros _. unfold substituted_string. repeat case_decide; done.
  - induction IH as [|x l Hx Hl IHl]; simpl; [done|]. intros [? Hr]. split; [by apply Hx|exact (IHl Hr)].
  - intros [Hd Hm]. split; [by rewrite map_map|]. clear Hd.
    induction IH as [|[k x] m Hx Hl IHl]; simpl in *; [done|]. destruct Hm as [? Hr]. split; [by apply Hx|exact (IHl Hr)].
Qed.
End subst.

Lemma substitue_envs_pointwise_witness :
  let jv := JObject [(lit "proxy", JArray [JString (lit "${P:-on}"); JInt64 3])] in
  jget [inl (lit "proxy"); inr 1] (substitue_envs (fun _ => None) ∅ ∅ jv) = Some (JInt64 3) /\
  exists t, jget [inl (lit "proxy"); inr 0] (substitue_envs (fun _ => None) ∅ ∅ jv) = Some (JString t) /\ t = lit "on".
Proof.
  intros jv. split.
  - apply (substitue_envs_pointwise (fun _ => None) ∅ ∅ jv [inl (lit "proxy"); inr 1] (JInt64 3)). reflexivity.
  - exists (lit "on"). split; [|done]. by vm_compute.
Defined.
