(* ===== verification/EnvFile.v ===== *)
(** * Environment files ([src/include/env_file_parser.hpp])

    [parse_env_file]: lines [KEY=VALUE] with an optional [export], comments,
    bare or quoted values.  The stream is the content of the file, or nothing
    when it cannot be opened. *)

From Stdlib Require Import ZArith Lia Ascii String.
From stdpp Require Import base list gmap fin_maps strings.
From S2P Require Import Prelude Json ResultMonad EnvExpand.

Definition dquote : ascii := "034"%char.
Definition squote : ascii := "'"%char.
Definition newline : ascii := "010"%char.

Definition ltrim (s : str) : str := ltrim_by is_blank s.
Definition rtrim (s : str) : str := rtrim_by is_blank s.
Definition trim (s : str) : str := ltrim (rtrim s).

Definition skipped (line : str) : bool :=
  match line with
  | [] => true
  | c :: _ => bool_decide (c = "#"%char)
  end.

Definition drop_cr (line : str) : str :=
  match last line with
  | Some c => if decide (c = "013"%char) then removelast line else line
  | None => line
  end.

Definition drop_export (line : str) : str :=
  if starts_with (lit "export") line then
    match drop 6 line with
    | [] => []
    | c :: rest => if is_blank c then ltrim (c :: rest) else line
    end
  else line.

(** The end of the key: an equals sign, a blank or the end of the line. *)
Fixpoint span_key (line : str) : str * str :=
  match line with
  | [] => ([], [])
  | c :: rest =>
      if bool_decide (c = "="%char) || is_blank c then ([], line)
      else let '(k, r) := span_key rest in (c :: k, r)
  end.

(** A quoted value: a backslash takes the next character as it is; the value
    ends at the quote, or at the end of the line. *)
Fixpoint quoted_value (quote : ascii) (escape : bool) (s : str) : str :=
  match s with
  | [] => []
  | c :: s' =>
      if escape then c :: quoted_value quote false s'
      else if decide (c = "\"%char) then quoted_value quote true s'
      else if decide (c = quote) then []
      else c :: quoted_value quote false s'
  end.

Definition bare_value (s : str) : str :=
  match find_char "#" s with
  | Some k => trim (take k s)
  | None => trim s
  end.

Definition value_of (s : str) : str :=
  match s with
  | [] => []
  | c :: s' =>
      if decide (c = dquote \/ c = squote) then quoted_value c false s' else bare_value s
  end.

Definition drop_plus (key : str) : str :=
  match last key with
  | Some c => if decide (c = "+"%char) then removelast key else key
  | None => key
  end.

(** One iteration of the loop: the binding of a line, if it has one. *)
Definition parse_line (line : str) : option (str * str) :=
  let line := ltrim (drop_cr line) in
  if skipped line then None
  else
    let line := drop_export line in
    if skipped line then None
    else
      let '(key, rest) := span_key line in
      let key := rtrim key in
      if decide (key = []) then None
      else
        match ltrim rest with
        | c :: rest' =>
            if decide (c = "="%char) then Some (drop_plus key, value_of (ltrim rest')) else None
        | [] => None
        end.

Definition parse_lines (lines : list str) : smap :=
  foldl (fun env line => match parse_line line with
                         | Some (key, value) => <[key := value]> env
                         | None => env
                         end) ∅ lines.

Definition parse_env_file (env_path : str) (content : option str) : Result smap Error :=
  match content with
  | None => Err (make_error 5019 (lit "Failed to open env file: " ++ env_path))
  | Some text => Ok (parse_lines (getlines newline text))
  end.

(** ** Written files read back *)

(** A value in double quotes, and a line that binds it. *)
Fixpoint escaped (v : str) : str :=
  match v with
  | [] => []
  | c :: v' =>
      if decide (c = "\"%char \/ c = dquote) then "\"%char :: c :: escaped v' else c :: escaped v'
  end.

Record env_line := mkEnvLine {
  l_export : bool;
  l_key : str;
  l_value : str;
}.

Definition print_line (l : env_line) : str :=
  (if l.(l_export) then lit "export " else []) ++ l.(l_key) ++ lit "=" ++
  [dquote] ++ escaped l.(l_value) ++ [dquote].

Definition print_file (ls : list env_line) : str := concat (map (fun l => print_line l ++ [newline]) ls).

(** A key as a shell has it, except that it may contain almost anything: no
    blank, no equals sign, no line break, no comment sign in front, no plus sign
    at the end. *)
Definition key_ok (k : str) : Prop :=
  k <> [] /\ Forall (fun c => is_blank c = false /\ c <> "="%char /\ c <> newline) k /\
  head k <> Some "#"%char /\ last k <> Some "+"%char.

Definition line_ok (l : env_line) : Prop := key_ok l.(l_key) /\ newline ∉ l.(l_value).

(** *** Lines of a text *)

Lemma split_on_lines c (ls : list str) :
  Forall (fun l => c ∉ l) ls ->
  split_on c (concat (map (fun l => l ++ [c]) ls)) = ls ++ [[]].
Proof.
  induction 1 as [|l ls Hl _ IH]; [done|]. simpl. rewrite <- app_assoc. simpl.
  rewrite split_on_app by done. by rewrite IH.
Qed.

Lemma getlines_lines c ls :
  Forall (fun l => c ∉ l) ls -> getlines c (concat (map (fun l => l ++ [c]) ls)) = ls.
Proof.
  intros H. unfold getlines. rewrite split_on_lines by done.
  rewrite List.last_last. apply removelast_last.
Qed.

(** *** One line *)

Lemma quoted_escaped v rest : quoted_value dquote false (escaped v ++ dquote :: rest) = v.
Proof.
  induction v as [|c v IH]; cbn [escaped app quoted_value].
  - reflexivity.
  - case_decide as Hc; cbn [app quoted_value].
    + by rewrite IH.
    + rewrite !decide_False by tauto. by rewrite IH.
Qed.

Lemma escaped_no_newline v : newline ∉ v -> newline ∉ escaped v.
Proof.
  induction v as [|c v IH]; simpl; [done|]. rewrite not_elem_of_cons. intros [Hc Hv].
  case_decide; rewrite ?not_elem_of_cons; split_and?; auto.
Qed.

Lemma span_key_ok k r :
  Forall (fun c => is_blank c = false /\ c <> "="%char /\ c <> newline) k ->
  span_key (k ++ "="%char :: r) = (k, "="%char :: r).
Proof.
  induction 1 as [|c k (Hb & He & _) _ IH]; simpl; [done|].
  rewrite bool_decide_false by done. rewrite Hb. simpl. by rewrite IH.
Qed.

Lemma ltrim_first c s : is_blank c = false -> ltrim (c :: s) = c :: s.
Proof. unfold ltrim. simpl. by intros ->. Qed.

Lemma rtrim_ok k : Forall (fun c => is_blank c = false /\ c <> "="%char /\ c <> newline) k -> rtrim k = k.
Proof.
  intros H. unfold rtrim, rtrim_by. apply Forall_rev in H. destruct (rev k) as [|c r] eqn:E.
  - simpl. by rewrite <- (rev_involutive k), E.
  - inversion_clear H as [|?? [Hb _] _]. rewrite <- (rev_involutive k), E. f_equal.
    by apply ltrim_first.
Qed.

(** A text that begins with a key is neither skipped nor trimmed, and loses no
    [export]. *)
Lemma key_starts k r :
  key_ok k -> ltrim (k ++ "="%char :: r) = k ++ "="%char :: r /\ skipped (k ++ "="%char :: r) = false /\
    drop_export (k ++ "="%char :: r) = k ++ "="%char :: r.
Proof.
  intros (Hne & Hall & Hh & _). destruct k as [|c k]; [done|]. split_and!.
  - inversion_clear Hall as [|?? [Hb _] _]. by apply ltrim_first.
  - simpl. apply bool_decide_false. intros ->. done.
  - unfold drop_export. destruct (starts_with _ _) eqn:Hs; [|done].
    apply starts_with_spec in Hs as [s Hs]. rewrite Hs. change (drop 6 (lit "export" ++ s)) with (drop 0 s).
    rewrite drop_0. destruct s as [|d s].
    + exfalso. assert (Hin : "="%char ∈ lit "export") by (rewrite app_nil_r in Hs; rewrite <- Hs; set_solver).
      revert Hin. apply (bool_decide_unpack (¬ _)). vm_compute. exact I.
    + destruct (is_blank d) eqn:Hd; [|done]. exfalso.
      (* the seventh character belongs to the key, or is its equals sign *)
      assert (H6 : ((c :: k) ++ "="%char :: r) !! 6 = Some d) by (rewrite Hs; done).
      assert (Hpre : forall i x, lit "export" !! i = Some x -> i < length (c :: k) \/ x = "="%char).
      { intros i x Hx. assert (Hi : ((c :: k) ++ "="%char :: r) !! i = Some x).
        { rewrite Hs. by apply lookup_app_l_Some. }
        destruct (decide (i < length (c :: k))) as [|Hge]; [by left|].
        destruct (decide (i = length (c :: k))) as [->|Hgt].
        - right. rewrite list_lookup_middle in Hi by done. congruence.
        - exfalso. assert (Heq : ((c :: k) ++ "="%char :: r) !! length (c :: k) = Some "="%char)
            by (by rewrite list_lookup_middle).
          rewrite Hs in Heq. assert (Hlt : i < 6) by (apply lookup_lt_Some in Hx; done).
          rewrite lookup_app_l in Heq by (change (length (lit "export")) with 6; lia).
          apply list_elem_of_lookup_2 in Heq. revert Heq.
          apply (bool_decide_unpack (¬ _)). vm_compute. exact I. }
      assert (Hlen : 6 <= length (c :: k)).
      { destruct (Hpre 5 "t"%char eq_refl) as [Hlt|Hq]; [lia|discriminate]. }
      destruct (decide (6 = length (c :: k))) as [E|E].
      * rewrite list_lookup_middle in H6 by done. injection H6 as <-. done.
      * rewrite lookup_app_l in H6 by lia. rewrite Forall_lookup in Hall.
        destruct (Hall 6 d H6) as [Hb _]. congruence.
Qed.

Lemma drop_cr_quoted s : drop_cr (s ++ [dquote]) = s ++ [dquote].
Proof. unfold drop_cr. rewrite last_snoc. by rewrite decide_False. Qed.

Lemma parse_key_line k v : 
  key_ok k -> forall pre, (pre = [] \/ pre = lit "export ") ->
  parse_line (pre ++ k ++ lit "=" ++ [dquote] ++ escaped v ++ [dquote]) = Some (k, v).
Proof.
  intros Hk pre Hpre. set (r := dquote :: escaped v ++ [dquote]).
  change (lit "=" ++ [dquote] ++ escaped v ++ [dquote]) with ("="%char :: r).
  destruct (key_starts k r Hk) as (Hl & Hsk & Hex).
  assert (Hcr : drop_cr (pre ++ k ++ "="%char :: r) = pre ++ k ++ "="%char :: r).
  { unfold r. change ("="%char :: dquote :: escaped v ++ [dquote])
      with (("="%char :: dquote :: escaped v) ++ [dquote]).
    rewrite !app_assoc. apply drop_cr_quoted. }
  assert (Hkey : drop_plus (rtrim k) = k).
  { destruct Hk as (_ & Hall & _ & Hp). rewrite rtrim_ok by done. unfold drop_plus.
    destruct (last k); [|done]. rewrite decide_False; [done|congruence]. }
  assert (Hmain : (let '(key, rest) := span_key (k ++ "="%char :: r) in
      let key := rtrim key in
      if decide (key = []) then None
      else match ltrim rest with
           | c :: rest' => if decide (c = "="%char) then Some (drop_plus key, value_of (ltrim rest')) else None
           | [] => None
           end) = Some (k, v)).
  { rewrite span_key_ok by (by destruct Hk as (_ & ? & _)). cbv zeta. rewrite Hkey.
    rewrite rtrim_ok by (by destruct Hk as (_ & ? & _)).
    rewrite decide_False by (by destruct Hk). rewrite ltrim_first by done.
    rewrite decide_True by done. unfold r. rewrite ltrim_first by done.
    unfold value_of. rewrite decide_True by (by left). by rewrite quoted_escaped. }
  unfold parse_line. rewrite Hcr. destruct Hpre as [->| ->].
  - rewrite app_nil_l, Hl, Hsk, Hex, Hsk. exact Hmain.
  - assert (He : ltrim (lit "export " ++ k ++ "="%char :: r) = lit "export " ++ k ++ "="%char :: r)
      by (by apply ltrim_first).
    rewrite He. assert (Hs : skipped (lit "export " ++ k ++ "="%char :: r) = false) by done. rewrite Hs.
    assert (Hd : drop_export (lit "export " ++ k ++ "="%char :: r) = ltrim (k ++ "="%char :: r)) by done.
    rewrite Hd, Hl, Hsk. exact Hmain.
Qed.

Lemma print_line_no_newline l : line_ok l -> newline ∉ print_line l.
Proof.
  intros [(_ & Hk & _) Hv]. unfold print_line. rewrite !not_elem_of_app. split_and!.
  - destruct (l_export l); apply (bool_decide_unpack (¬ _)); vm_compute; exact I.
  - intros Hin. rewrite Forall_forall in Hk. by destruct (Hk _ Hin) as (_ & _ & ?).
  - apply (bool_decide_unpack (¬ _)); vm_compute; exact I.
  - apply (bool_decide_unpack (¬ _)); vm_compute; exact I.
  - by apply escaped_no_newline.
  - apply (bool_decide_unpack (¬ _)); vm_compute; exact I.
Qed.

(** C33: An environment file that binds keys to quoted values reads back as those
    bindings: whatever characters the values have apart from line breaks
    (quotes and backslashes are escaped, hash signs, blanks and carriage
    returns are kept), with or without [export], and of several bindings of a
    key the last one counts. *)
Theorem env_file_roundtrip (path : str) (ls : list env_line) :
  Forall line_ok ls ->
  parse_env_file path (Some (print_file ls)) =
    Ok (foldl (fun env l => <[l.(l_key) := l.(l_value)]> env) ∅ ls).
Proof.
  intros Hls. unfold parse_env_file, print_file. f_equal.
  assert (Hmap : concat (map (fun l => print_line l ++ [newline]) ls) =
    concat (map (fun s => s ++ [newline]) (map print_line ls))) by (by rewrite map_map).
  rewrite Hmap, getlines_lines.
  2:{ apply Forall_map. eapply Forall_impl; [exact Hls|]. apply print_line_no_newline. }
  clear Hmap. unfold parse_lines. generalize (∅ : smap).
  induction Hls as [|l ls [Hk Hv] _ IH]; intros env; [done|].
  assert (Hl : parse_line (print_line l) = Some (l_key l, l_value l)).
  { apply parse_key_line; [done|]. destruct (l_export l); auto. }
  cbn [map foldl]. rewrite Hl. apply IH.
Qed.

Definition demo_lines : list env_line :=
  [mkEnvLine false (lit "HOST") (lit "a b#c"); mkEnvLine true (lit "HOST") (lit "say 'hi' \")].

Lemma env_file_roundtrip_witness :
  exists m, parse_env_file [] (Some (print_file demo_lines)) = Ok m /\ m !! lit "HOST" = Some (lit "say 'hi' \").
Proof.
  eexists. split.
  - apply env_file_roundtrip. repeat constructor; try done;
      try (apply (bool_decide_unpack (¬ _)); vm_compute; exact I); vm_compute; discriminate.
  - by vm_compute.
Defined.

(** A bare value ends at a comment sign and loses its blanks, a line without an
    equals sign is skipped, and [KEY+=value] binds [KEY]; a lone [+] as key
    binds the empty name. *)
Lemma env_lines_demo :
  map parse_line [lit "  A = b c  # d"; lit "export"; lit "B"; lit "C+=1"; lit "+=1"] =
    [Some (lit "A", lit "b c"); None; None; Some (lit "C", lit "1"); Some ([], lit "1")].
Proof. by vm_compute. Qed.
