(* ===== verification/Yaml.v ===== *)
(** * YAML configuration ([src/include/simple_data.hpp], [yaml_to_json])

    The tree that rapidyaml parsed, as far as the conversion asks it: the kind of
    a node, its key and children, the text of a scalar and whether it was
    quoted, the references it makes and, by name, the nodes that define an
    anchor, in the order of the tree.  [stod] is the conversion of the C
    library: the number and how many characters it took.

    The conversion follows references with nothing that stops it at a cycle, so
    it takes fuel; [None] stands for a recursion that does not end. *)

From Stdlib Require Import ZArith Lia Ascii String.
From Stdlib Require Import SpecFloat.
From stdpp Require Import base list gmap strings.
From S2P Require Import Prelude Json.

(** ** [deep_merge_json] *)

Fixpoint deep_merge_json (dst src : json) {struct src} : json :=
  match dst, src with
  | JObject d, JObject m =>
      JObject
        ((fix go (m d : jobject) : jobject :=
            match m with
            | [] => d
            | (key, val) :: m' =>
                go m' (match val, obj_find key d with
                       | JObject _, Some (JObject e) => obj_set key (deep_merge_json (JObject e) val) d
                       | _, _ => obj_set key val d
                       end)
            end) m d)
  | _, _ => dst
  end.

(** ** Nodes *)

Inductive ynode :=
  | YNode (ykey : str) (key_ref : option str) (content : ycontent)
with ycontent :=
  | YSeq (l : list ynode)
  | YMap (l : list ynode)
  | YScalar (v : str) (quoted : bool)
  | YAlias (name text : str)
  | YNone.

Definition ykey (n : ynode) : str := let '(YNode k _ _) := n in k.
Definition ycontent_of (n : ynode) : ycontent := let '(YNode _ _ c) := n in c.

Section convert.
Context (stod : str -> option (spec_float * nat)).
Context (anchors : list (str * ynode)).

Fixpoint find_anchor (ref : str) (l : list (str * ynode)) : option ynode :=
  match l with
  | [] => None
  | (name, n) :: l' => if decide (name = ref) then Some n else find_anchor ref l'
  end.

(** The reference of a node: that of its value before that of its key. *)
Definition node_ref (n : ynode) : option str :=
  match n with
  | YNode _ _ (YAlias name _) => Some name
  | YNode _ key_ref _ => key_ref
  end.

Definition resolve_ref (n : ynode) : ynode :=
  match node_ref n with
  | None | Some [] => n
  | Some ref => default n (find_anchor ref anchors)
  end.

Definition is_number (s : str) : bool :=
  match s with
  | [] => false
  | c :: s' =>
      let digits := if bool_decide (c = "-"%char \/ c = "+"%char) then s' else s in
      negb (bool_decide (digits = [])) && forallb is_digit digits
  end.

(** [std::stoll] on a text that [is_number]. *)
Definition stoll (s : str) : option Z :=
  let v := match s with
           | "-"%char :: s' => (- digits_value 0 s')%Z
           | "+"%char :: s' => digits_value 0 s'
           | _ => digits_value 0 s
           end in
  if decide (in_int64 v) then Some v else None.

(** The whole text as a floating-point number. *)
Definition stod_all (s : str) : option spec_float :=
  match stod s with
  | Some (d, idx) => if decide (idx = length s) then Some d else None
  | None => None
  end.

(** A scalar as the value of a map entry, and anywhere else. *)
Definition entry_scalar (sval : str) (quoted : bool) : json :=
  if quoted then JString sval
  else if decide (sval = lit "true" \/ sval = lit "True") then JBool true
  else if decide (sval = lit "false" \/ sval = lit "False") then JBool false
  else if is_number sval then
    match stoll sval with Some z => JInt64 z | None => JString sval end
  else match stod_all sval with Some d => JDouble d | None => JString sval end.

Definition plain_scalar (sval : str) (quoted : bool) : json :=
  if quoted then JString sval
  else if decide (sval = lit "true" \/ sval = lit "True") then JBool true
  else if decide (sval = lit "false" \/ sval = lit "False") then JBool false
  else
    match (if is_number sval then stoll sval else None) with
    | Some z => JInt64 z
    | None => match stod_all sval with Some d => JDouble d | None => JString sval end
    end.

(** [dstv = obj; deep_merge_json(dstv, merged); obj = dstv.as_object()]. *)
Definition merge_into (obj : jobject) (merged : json) : jobject :=
  match deep_merge_json (JObject obj) merged with JObject o => o | _ => obj end.

Section conv.
(** The recursive call. *)
Context (conv : ynode -> option json).

Fixpoint seq_items (l : list ynode) : option (list json) :=
  match l with
  | [] => Some []
  | ch :: l' => j ← conv (resolve_ref ch); js ← seq_items l'; Some (j :: js)
  end.

Fixpoint merge_sequence (l : list ynode) (obj : jobject) : option jobject :=
  match l with
  | [] => Some obj
  | entry :: l' => merged ← conv (resolve_ref entry); merge_sequence l' (merge_into obj merged)
  end.

Definition merge_key (chv : ynode) (obj : jobject) : option jobject :=
  match ycontent_of chv with
  | YSeq l => merge_sequence l obj
  | YMap _ => merged ← conv chv; Some (merge_into obj merged)
  | _ => Some obj
  end.

Definition entry_value (chv : ynode) : option json :=
  match ycontent_of chv with
  | YSeq _ | YMap _ => conv chv
  | YScalar v quoted => Some (entry_scalar v quoted)
  | YAlias _ text => Some (entry_scalar text false)
  | YNone => Some JNull
  end.

Fixpoint map_items (l : list ynode) (obj : jobject) : option jobject :=
  match l with
  | [] => Some obj
  | ch :: l' =>
      let chv := resolve_ref ch in
      obj' ←
        (if decide (ykey ch = lit "<<") then merge_key chv obj
         else val ← entry_value chv; Some (obj_set (ykey ch) val obj));
      map_items l' obj'
  end.
End conv.

Fixpoint convert (fuel : nat) (n : ynode) : option json :=
  match fuel with
  | O => None
  | S f =>
      match ycontent_of (resolve_ref n) with
      | YSeq l => JArray <$> seq_items (convert f) l
      | YMap l => JObject <$> map_items (convert f) l []
      | YScalar v quoted => Some (plain_scalar v quoted)
      | YAlias _ text => Some (plain_scalar text false)
      | YNone => Some JNull
      end
  end.

(** ** Merging keeps keys unique *)

Fixpoint merge_members (m d : jobject) : jobject :=
  match m with
  | [] => d
  | (key, val) :: m' =>
      merge_members m' (match val, obj_find key d with
                        | JObject _, Some (JObject e) => obj_set key (deep_merge_json (JObject e) val) d
                        | _, _ => obj_set key val d
                        end)
  end.

Lemma deep_merge_members m d : deep_merge_json (JObject d) (JObject m) = JObject (merge_members m d).
Proof. reflexivity. Qed.
End convert.

Lemma deep_merge_wf src : forall dst, json_wf dst -> json_wf src -> json_wf (deep_merge_json dst src).
Proof.
  induction src as [| | | | | | |m IH] using json_ind'; intros dst Hd Hs; try (by destruct dst).
  destruct dst as [| | | | | | |d]; try done. rewrite deep_merge_members.
  apply json_wf_object in Hs as [_ Hs]. revert d Hd.
  induction IH as [|[k v] m Hv _ IHm]; intros d Hd; [done|]. cbn [merge_members].
  assert (Hwv : json_wf v) by (apply (Hs k); by left).
  apply IHm; [intros k' v' Hin; apply (Hs k'); by right|].
  destruct v as [| | | | | | |mv]; try (by apply obj_set_wf).
  destruct (obj_find k d) as [[| | | | | | |e]|] eqn:E; try (by apply obj_set_wf).
  apply obj_set_wf; [done|]. apply Hv; [|done]. exact (obj_find_wf _ _ _ Hd E).
Qed.

(** ** The conversion *)

Section correct.
Context (stod : str -> option (spec_float * nat)) (anchors : list (str * ynode)).
Local Abbreviation conv := (convert stod anchors).
Local Abbreviation res := (resolve_ref anchors).

Definition ykids (n : ynode) : list ynode :=
  match ycontent_of n with YSeq l | YMap l => l | _ => [] end.

(** A call of the conversion on [n] makes a call on [c]: [c] is what a child
    refers to, or an item of it when the child is merged in. *)
Inductive calls (n : ynode) : ynode -> Prop :=
  | calls_child ch : ch ∈ ykids (res n) -> calls n (res ch)
  | calls_merged ch entry :
      ch ∈ ykids (res n) -> entry ∈ ykids (res ch) -> calls n (res entry).

Lemma entry_scalar_wf v q : json_wf (entry_scalar stod v q).
Proof. unfold entry_scalar. repeat case_match; done. Qed.
Lemma plain_scalar_wf v q : json_wf (plain_scalar stod v q).
Proof. unfold plain_scalar. repeat case_match; done. Qed.

Lemma merge_into_wf obj j : json_wf (JObject obj) -> json_wf j -> json_wf (JObject (merge_into obj j)).
Proof.
  intros Ho Hj. unfold merge_into. pose proof (deep_merge_wf j (JObject obj) Ho Hj) as H.
  by destruct (deep_merge_json _ _).
Qed.

Section steps.
Context (f : ynode -> option json) (P : ynode -> Prop).
Context (Hf : forall n, P n -> exists j, f n = Some j /\ json_wf j).

Lemma seq_items_ok l :
  (forall ch, ch ∈ l -> P (res ch)) -> exists js, seq_items anchors f l = Some js /\ Forall json_wf js.
Proof.
  induction l as [|ch l IH]; intros Hl; [by exists []|]. cbn [seq_items].
  destruct (Hf (res ch)) as (j & -> & Hj); [apply Hl; by left|].
  destruct IH as (js & -> & Hjs); [intros; apply Hl; by right|]. exists (j :: js). by split; [|constructor].
Qed.

Lemma merge_sequence_ok l obj :
  (forall ch, ch ∈ l -> P (res ch)) -> json_wf (JObject obj) ->
  exists o, merge_sequence anchors f l obj = Some o /\ json_wf (JObject o).
Proof.
  revert obj. induction l as [|ch l IH]; intros obj Hl Ho; [by exists obj|]. cbn [merge_sequence].
  destruct (Hf (res ch)) as (j & -> & Hj); [apply Hl; by left|].
  apply IH; [intros; apply Hl; by right|by apply merge_into_wf].
Qed.

Lemma map_items_ok l obj :
  (forall ch, ch ∈ l -> P (res ch)) ->
  (forall ch entry, ch ∈ l -> entry ∈ ykids (res ch) -> P (res entry)) ->
  json_wf (JObject obj) ->
  exists o, map_items stod anchors f l obj = Some o /\ json_wf (JObject o).
Proof.
  revert obj. induction l as [|ch l IH]; intros obj Hl Hm Ho; [by exists obj|]. cbn [map_items].
  assert (Hstep : exists o,
    (if decide (ykey ch = lit "<<") then merge_key anchors f (res ch) obj
     else val ← entry_value stod f (res ch); Some (obj_set (ykey ch) val obj)) = Some o /\ json_wf (JObject o)).
  { destruct (Hf (res ch)) as (j & Hj & Hwj); [apply Hl; by left|]. case_decide.
    - unfold merge_key. destruct (ycontent_of (res ch)) eqn:Hc; try (by exists obj).
      + apply merge_sequence_ok; [|done]. intros e He. apply (Hm ch); [by left|].
        unfold ykids. by rewrite Hc.
      + rewrite Hj. eexists. split; [done|]. by apply merge_into_wf.
    - unfold entry_value. destruct (ycontent_of (res ch)); rewrite ?Hj; eexists; split; try done;
        apply obj_set_wf; try done; apply entry_scalar_wf. }
  destruct Hstep as (o & -> & Hwo). cbn [mbind option_bind].
  apply IH; [intros; apply Hl; by right|intros; eapply Hm; [by right|done]|done].
Qed.
End steps.

(** A check that the references end, to a given depth. *)
Fixpoint ends_within (depth : nat) (n : ynode) : bool :=
  match depth with
  | O => false
  | S d =>
      forallb (fun ch => ends_within d (res ch) &&
                         forallb (fun e => ends_within d (res e)) (ykids (res ch)))
        (ykids (res n))
  end.

Lemma ends_within_Acc depth : forall n, ends_within depth n = true -> Acc (fun c n => calls n c) n.
Proof.
  induction depth as [|d IH]; intros n H; [done|]. cbn [ends_within] in H.
  rewrite forallb_forall in H. constructor. intros c Hc. destruct Hc as [ch Hch|ch e Hch He].
  - apply list_elem_of_In in Hch. apply H, andb_true_iff in Hch as [Hch _]. auto.
  - apply list_elem_of_In in Hch. apply H, andb_true_iff in Hch as [_ Hch].
    rewrite forallb_forall in Hch. apply IH, Hch. by apply list_elem_of_In.
Qed.

(** More fuel gives the same value. *)
Section mono.
Context (f g : ynode -> option json) (Hfg : forall n j, f n = Some j -> g n = Some j).

Lemma seq_items_mono l js : seq_items anchors f l = Some js -> seq_items anchors g l = Some js.
Proof.
  revert js. induction l as [|ch l IH]; intros js; [done|]. cbn [seq_items].
  destruct (f (res ch)) as [j|] eqn:Ej; [|done]. rewrite (Hfg _ _ Ej). cbn [mbind option_bind].
  destruct (seq_items anchors f l) as [js'|]; [|done]. by rewrite (IH js' eq_refl).
Qed.

Lemma merge_sequence_mono l obj o :
  merge_sequence anchors f l obj = Some o -> merge_sequence anchors g l obj = Some o.
Proof.
  revert obj. induction l as [|ch l IH]; intros obj; [done|]. cbn [merge_sequence].
  destruct (f (res ch)) as [j|] eqn:Ej; [|done]. rewrite (Hfg _ _ Ej). apply IH.
Qed.

Lemma map_items_mono l obj o :
  map_items stod anchors f l obj = Some o -> map_items stod anchors g l obj = Some o.
Proof.
  revert obj. induction l as [|ch l IH]; intros obj; [done|]. cbn [map_items].
  intros H. apply bind_Some in H as (o1 & H1 & H2).
  assert (H1' : (if decide (ykey ch = lit "<<") then merge_key anchors g (res ch) obj
     else val ← entry_value stod g (res ch); Some (obj_set (ykey ch) val obj)) = Some o1).
  { case_decide.
    - unfold merge_key in *. destruct (ycontent_of (res ch)); try done; [by apply merge_sequence_mono|].
      apply bind_Some in H1 as (j & Hj & H1). by rewrite (Hfg _ _ Hj).
    - apply bind_Some in H1 as (j & Hj & H1). unfold entry_value in *.
      destruct (ycontent_of (res ch)); simplify_eq/=; try done; by rewrite (Hfg _ _ Hj). }
  rewrite H1'. cbn [mbind option_bind]. auto.
Qed.
End mono.

Lemma convert_more fuel : forall n j, conv fuel n = Some j -> conv (S fuel) n = Some j.
Proof.
  induction fuel as [|fuel IH]; intros n j; [done|]. remember (S fuel) as fuel' eqn:E.
  cbn [convert]. rewrite E at 1. cbn [convert]. destruct (ycontent_of (res n)); try done.
  - intros H. apply fmap_Some in H as (js & Hjs & ->).
    by rewrite (seq_items_mono _ _ IH _ _ Hjs).
  - intros H. apply fmap_Some in H as (o & Ho & ->).
    by rewrite (map_items_mono _ _ IH _ _ _ Ho).
Qed.

Lemma convert_add fuel more n j : conv fuel n = Some j -> conv (fuel + more) n = Some j.
Proof.
  intros H. induction more as [|more IH]; [by rewrite Nat.add_0_r|].
  rewrite Nat.add_succ_r. by apply convert_more.
Qed.

(** One fuel for finitely many nodes. *)
Lemma common_fuel (L : list ynode) :
  (forall c, c ∈ L -> exists fuel j, conv fuel c = Some j /\ json_wf j) ->
  exists fuel, forall c, c ∈ L -> exists j, conv fuel c = Some j /\ json_wf j.
Proof.
  induction L as [|c L IH]; intros H.
  - exists 0. intros c Hc. by apply not_elem_of_nil in Hc.
  - destruct IH as (f1 & H1); [intros; apply H; by right|].
    destruct (H c) as (f2 & j & Hj & Hw); [by left|]. exists (f1 + f2).
    intros d Hd. apply elem_of_cons in Hd as [->|Hd].
    + exists j. split; [|done]. rewrite Nat.add_comm. by apply convert_add.
    + destruct (H1 d Hd) as (j' & Hj' & Hw'). exists j'. split; [by apply convert_add|done].
Qed.

(** *** Whatever is converted has unique keys *)
Section unique.
Context (f : ynode -> option json) (Hf : forall n j, f n = Some j -> json_wf j).

Lemma seq_items_wf l js : seq_items anchors f l = Some js -> Forall json_wf js.
Proof.
  revert js. induction l as [|ch l IH]; intros js; [intros [= <-]; constructor|]. cbn [seq_items].
  intros H. apply bind_Some in H as (j & Hj & H). apply bind_Some in H as (js' & Hjs & [= <-]).
  constructor; eauto.
Qed.

Lemma merge_sequence_wf l obj o :
  json_wf (JObject obj) -> merge_sequence anchors f l obj = Some o -> json_wf (JObject o).
Proof.
  revert obj. induction l as [|ch l IH]; intros obj Ho; [by intros [= <-]|]. cbn [merge_sequence].
  intros H. apply bind_Some in H as (j & Hj & H). eapply IH; [|exact H]. apply merge_into_wf; eauto.
Qed.

Lemma map_items_wf l obj o :
  json_wf (JObject obj) -> map_items stod anchors f l obj = Some o -> json_wf (JObject o).
Proof.
  revert obj. induction l as [|ch l IH]; intros obj Ho; [by intros [= <-]|]. cbn [map_items].
  intros H. apply bind_Some in H as (o1 & H1 & H). eapply IH; [|exact H]. case_decide.
  - unfold merge_key in H1. destruct (ycontent_of (res ch)); simplify_eq; try done.
    + by eapply merge_sequence_wf.
    + apply bind_Some in H1 as (j & Hj & [= <-]). apply merge_into_wf; eauto.
  - apply bind_Some in H1 as (j & Hj & [= <-]). apply obj_set_wf; [done|]. unfold entry_value in Hj.
    destruct (ycontent_of (res ch)); simplify_eq; try done; eauto; apply entry_scalar_wf.
Qed.
End unique.

Lemma convert_wf fuel : forall n j, conv fuel n = Some j -> json_wf j.
Proof.
  induction fuel as [|fuel IH]; intros n j; [done|]. cbn [convert].
  destruct (ycontent_of (res n)) as [l|l|v q|name text|];
    [| |intros [= <-]; apply (plain_scalar_wf v q)|intros [= <-]; apply (plain_scalar_wf text false)|by intros [= <-]].
  - intros H. apply fmap_Some in H as (js & Hjs & ->). apply json_wf_array. by eapply seq_items_wf.
  - intros H. apply fmap_Some in H as (o & Ho & ->). eapply map_items_wf; [done| |done].
    simpl. split; [constructor|done].
Qed.

(** C30: A YAML document whose references do not go round in a circle is converted,
    with finitely many nested calls, to a JSON value with unique keys, merge
    keys ([<<]) included. *)
Theorem yaml_conversion_terminates (n : ynode) :
  Acc (fun c n => calls n c) n ->
  exists fuel j, (forall more, conv (fuel + more) n = Some j) /\ json_wf j.
Proof.
  intros Ha. enough (exists fuel j, conv fuel n = Some j /\ json_wf j) as (fuel & j & Hj & Hw).
  { exists fuel, j. split; [|done]. intros more. by apply convert_add. }
  induction Ha as [n _ IH].
  set (kids := ykids (res n)).
  destruct (common_fuel (map res kids ++ concat (map (fun ch => map res (ykids (res ch))) kids)))
    as (fuel & Hfuel).
  { intros c Hc. apply IH. apply elem_of_app in Hc as [Hc|Hc].
    - apply list_elem_of_fmap in Hc as (ch & -> & Hch). by constructor.
    - apply list_elem_of_In, in_concat in Hc as (l & Hl & Hc). apply in_map_iff in Hl as (ch & <- & Hch).
      apply in_map_iff in Hc as (e & <- & He). rewrite <- list_elem_of_In in *. by eapply calls_merged. }
  assert (Hkid : forall ch, ch ∈ kids ->
    res ch ∈ map res kids ++ concat (map (fun ch => map res (ykids (res ch))) kids)).
  { intros ch Hch. apply elem_of_app. left. by apply list_elem_of_fmap_2. }
  exists (S fuel). cbn [convert]. unfold kids, ykids in *. destruct (ycontent_of (res n)) as [l|l|v q|nm t|].
  - destruct (seq_items_ok (conv fuel) _ Hfuel l Hkid) as (js & -> & Hjs).
    eexists. split; [done|]. by apply json_wf_array.
  - destruct (map_items_ok (conv fuel) _ Hfuel l []) as (o & -> & Ho); [done| | |by eexists].
    + intros ch e Hch He. apply elem_of_app. right. apply list_elem_of_In, in_concat.
      exists (map res (ykids (res ch))). split; apply in_map_iff; eexists; (split; [done|]);
        by apply list_elem_of_In.
    + simpl. split; [constructor|done].
  - eexists. split; [done|]. apply plain_scalar_wf.
  - eexists. split; [done|]. apply plain_scalar_wf.
  - by eexists.
Qed.
End correct.

Definition leaf_node (k v : string) : ynode := YNode (lit k) None (YScalar (lit v) false).

(** [base: &b {x: 1}] and [use: {<<: *b, y: yes, z: "2"}]. *)
Definition demo_base : ynode := YNode (lit "base") None (YMap [leaf_node "x" "1"]).
Definition demo_doc : ynode :=
  YNode [] None (YMap [demo_base;
    YNode (lit "use") None (YMap [YNode (lit "<<") None (YAlias (lit "b") (lit "*b")); leaf_node "y" "yes";
      YNode (lit "z") None (YScalar (lit "2") true)])]).

Lemma yaml_conversion_terminates_witness :
  exists fuel, convert (fun _ => None) [(lit "b", demo_base)] fuel demo_doc =
    Some (JObject [(lit "base", JObject [(lit "x", JInt64 1)]);
                   (lit "use", JObject [(lit "x", JInt64 1); (lit "y", JString (lit "yes")); (lit "z", JString (lit "2"))])]).
Proof.
  destruct (yaml_conversion_terminates (fun _ => None) [(lit "b", demo_base)] demo_doc) as (fuel & j & Hj & _).
  - apply (ends_within_Acc _ 4). vm_compute. reflexivity.
  - exists (fuel + 5). specialize (Hj 5).
    assert (H5 : convert (fun _ => None) [(lit "b", demo_base)] 5 demo_doc =
      Some (JObject [(lit "base", JObject [(lit "x", JInt64 1)]);
        (lit "use", JObject [(lit "x", JInt64 1); (lit "y", JString (lit "yes")); (lit "z", JString (lit "2"))])]))
      by (vm_compute; reflexivity).
    rewrite Nat.add_comm. by apply convert_add.
Defined.

(** A document that refers to itself ([a: &x {b: *x}]) is never converted. *)
Lemma yaml_cycle_never_ends fuel stod :
  let x := YNode (lit "a") None (YMap [YNode (lit "b") None (YAlias (lit "x") (lit "*x"))]) in
  convert stod [(lit "x", x)] fuel x = None.
Proof.
  intros x. induction fuel as [|fuel IH]; [done|].
  transitivity (JObject <$> (obj' ← (val ← convert stod [(lit "x", x)] fuel x; Some (obj_set (lit "b") val [])); Some obj'));
    [reflexivity|]. by rewrite IH.
Qed.

(** A number too large for 64 bits is text as the value of an entry and a double
    as an item of a list. *)
Lemma yaml_large_numbers_differ d :
  let big := lit "9223372036854775808" in
  let stod := fun s => Some (d, length s) in
  entry_scalar stod big false = JString big /\ plain_scalar stod big false = JDouble d.
Proof. by vm_compute. Qed.
