(* ===== verification/ConfigSources.v ===== *)
(** * Configuration sources ([src/include/simple_data.hpp])

    [ConfigSources]: the layered configuration files of an application,
    [LoggingConfig] and [AppProperties].  The file system is a function from
    paths to what is there; parsing JSON text, rapidyaml and [stod] are
    parameters.  A query of the file system that fails throws
    [filesystem_error], except in the constructor's first loop, which asks with
    an [error_code].  What is written to [std::cerr] is left out. *)

From Stdlib Require Import ZArith Lia Ascii String.
From Stdlib Require Import SpecFloat.
From stdpp Require Import base list gmap fin_maps strings.
From S2P Require Import Prelude Json ResultMonad EnvExpand EnvFile JsonUtil Yaml.

(** ** The file system *)

Inductive node :=
  | Missing
  | Denied                      (* the query fails *)
  | Directory (entries : list str)
  | Regular (content : option str)   (* [None]: it cannot be opened *)
  | Special.

Abbreviation files := (str -> node).

(** [root / name], for a relative name. *)
Definition path_join (root name : str) : str :=
  match last root with
  | None => name
  | Some c => if decide (c = "/"%char) then root ++ name else root ++ lit "/" ++ name
  end.

Definition filename (p : str) : str :=
  match rfind_char "/" p with Some i => drop (S i) p | None => p end.

(** [p.extension()]. *)
Definition extension (p : str) : str :=
  let f := filename p in
  if decide (f = lit "..") then []
  else match rfind_char "." f with Some (S i) => drop (S i) f | _ => [] end.

Definition filesystem_error : exn := StdExn (lit "filesystem error").

Section fs.
Context (fs : files).

(** [fs::exists], [fs::is_regular_file], [fs::is_directory] and the open of an
    [ifstream]. *)
Definition fs_exists (p : str) : throws bool :=
  match fs p with Denied => inl filesystem_error | Missing => inr false | _ => inr true end.
Definition fs_is_regular_file (p : str) : throws bool :=
  match fs p with Denied => inl filesystem_error | Regular _ => inr true | _ => inr false end.
Definition fs_is_directory (p : str) : throws bool :=
  match fs p with Denied => inl filesystem_error | Directory _ => inr true | _ => inr false end.
Definition fs_open (p : str) : option str :=
  match fs p with Regular content => content | _ => None end.
Definition fs_entries (p : str) : list str :=
  match fs p with Directory es => es | _ => [] end.
End fs.

(** ** LoggingConfig *)

Record LoggingConfig := mkLoggingConfig {
  level : str;
  log_dir : str;
  log_file : str;
  rotation_size : Z;
  also_stderr : bool;
}.

Section logging.
Context `{JsonLib}.

Fixpoint check_fields (names : list str) (jo : jobject) : throws unit :=
  match names with
  | [] => inr tt
  | field_name :: names' =>
      if obj_contains field_name jo then check_fields names' jo
      else inl (StdExn (field_name ++ lit " not found in json LoggingConfig"))
  end.

Definition to_LoggingConfig (jv : json) : throws LoggingConfig :=
  let! jo := as_object jv in
  let! _ := check_fields [lit "level"; lit "log_dir"; lit "log_file"; lit "rotation_size"] jo in
  let! l := (let! v := at_key (lit "level") jv in as_string v) in
  let! d := (let! v := at_key (lit "log_dir") jv in as_string v) in
  let! f := (let! v := at_key (lit "log_file") jv in as_string v) in
  let! r := (let! v := at_key (lit "rotation_size") jv in lift_std (to_number_uint64 v)) in
  let! e :=
    (if obj_contains (lit "also_stderr") jo
     then let! v := at_key (lit "also_stderr") jv in as_bool v
     else inr false) in
  inr (mkLoggingConfig l d f r e).
End logging.

(** ** ConfigSources *)

Record ConfigSources := mkConfigSources {
  paths_ : list str;
  profiles : list str;
  application_json : option json;
  cli_overrides_ : smap;
  env_overrides_ : smap;
}.

(** The order of the layers of one directory. *)
Definition append_layers (profiles : list str) (root base : str) (out : list str) : list str :=
  let three (stem : str) :=
    [path_join root (stem ++ lit ".json"); path_join root (stem ++ lit ".yaml"); path_join root (stem ++ lit ".yml")] in
  out ++ three base ++
  concat (map (fun profile => three (base ++ lit "." ++ profile)) profiles) ++
  three (base ++ lit ".override").

Definition ordered_paths (paths profiles : list str) (base : str) : list str :=
  foldl (fun out path => append_layers profiles path base out) [] paths.

Section config.
Context `{JsonLib}.
Context (fs : files) (getenv : environment).
(** rapidyaml, and the fuel the conversion of a document gets: a recursion that
    does not end is no exception of [std]. *)
Context (ryml_parse : str -> throws (list (str * ynode) * ynode)).
Context (stod : str -> option (spec_float * nat)) (yaml_fuel : nat).
(** [fs::absolute], which depends on the working directory. *)
Context (absolute : str -> str).

(** A path as [operator<<] writes it. *)
Definition quoted_path (p : str) : str := [dquote] ++ escaped p ++ [dquote].

Definition yaml_to_json (content : str) : throws json :=
  let! doc := ryml_parse content in
  match convert stod doc.1 yaml_fuel doc.2 with
  | Some j => inr j
  | None => inl OtherExn
  end.

Definition parse_file_to_json (p : str) : throws (option json) :=
  let! ex := fs_exists fs p in
  if negb ex then inr None
  else
    let! reg := fs_is_regular_file fs p in
    if negb reg then inr None
    else
      match fs_open fs p with
      | None => inr None
      | Some content =>
          catch_std
            (let ext := extension p in
             if decide (ext = lit ".yaml" \/ ext = lit ".yml") then
               let! j := yaml_to_json content in inr (Some j)
             else match json_parse content with inr j => inr (Some j) | inl _ => inr None end)
            (fun _ => inr None)
      end.

(** *** Construction *)

Fixpoint load_application (paths : list str) (acc : option json) : throws (option json) :=
  match paths with
  | [] => inr acc
  | app_path :: paths' =>
      let! jv_opt := parse_file_to_json app_path in
      match jv_opt with
      | None => load_application paths' acc
      | Some jv =>
          load_application paths'
            (Some (match acc with Some a => deep_merge_json a jv | None => jv end))
      end
  end.

(** The process counts its instances; a second one is refused outside debug
    builds. *)
Definition new_config_sources (debug_build : bool) (instance_count : Z)
    (paths profiles : list str) (cli_overrides : smap) : throws ConfigSources * Z :=
  let instance_count := (instance_count + 1)%Z in
  ((if (1 <? instance_count)%Z && negb debug_build
    then inl (StdExn (lit "ConfigSources should only be instantiated once."))
    else
      let filtered :=
        List.filter (fun p => match fs p with Directory _ => true | _ => false end) paths in
      if decide (filtered = [])
      then inl (StdExn (lit "ConfigSources paths_ cannot be empty, forget to bind the ConfigSources in DI?"))
      else
        let! app := load_application (ordered_paths filtered profiles (lit "application")) None in
        inr (mkConfigSources filtered profiles app cli_overrides ∅)),
   instance_count).

Definition set_cli_override (key value : str) (c : ConfigSources) : ConfigSources :=
  mkConfigSources c.(paths_) c.(profiles) c.(application_json) (<[key := value]> c.(cli_overrides_)) c.(env_overrides_).
Definition merge_cli_overrides (overrides : smap) (c : ConfigSources) : ConfigSources :=
  mkConfigSources c.(paths_) c.(profiles) c.(application_json) (overrides ∪ c.(cli_overrides_)) c.(env_overrides_).
Definition merge_env_overrides (overrides : smap) (c : ConfigSources) : ConfigSources :=
  mkConfigSources c.(paths_) c.(profiles) c.(application_json) c.(cli_overrides_) (overrides ∪ c.(env_overrides_)).

(** *** The content of a configuration *)

Fixpoint expand_env (c : ConfigSources) (v : json) : json :=
  match v with
  | JObject m => JObject (map (fun kv => (kv.1, expand_env c kv.2)) m)
  | JArray l => JArray (map (expand_env c) l)
  | JString s => JString (default [] (expand_env_in_string getenv c.(cli_overrides_) c.(env_overrides_) s))
  | _ => v
  end.

Fixpoint merge_files (paths : list str) (merged_json : json) : throws json :=
  match paths with
  | [] => inr merged_json
  | path :: paths' =>
      let! jv_opt := parse_file_to_json path in
      match jv_opt with
      | None => merge_files paths' merged_json
      | Some jv =>
          let merged_json := match merged_json with JObject m => JObject m | _ => JObject [] end in
          merge_files paths' (deep_merge_json merged_json jv)
      end
  end.

Definition base_layer (c : ConfigSources) (filename : str) : json :=
  match c.(application_json) with
  | Some (JObject a) =>
      match obj_find filename a with Some (JObject f) => JObject f | _ => JObject [] end
  | _ => JObject []
  end.

Definition not_found_error (c : ConfigSources) (filename : str) : Error :=
  make_error 5019
    (lit "Failed to find config file: " ++ filename ++ lit ", in: " ++
     concat (map (fun path => lit "Failed to find config for '" ++ filename ++ lit "' in: " ++ quoted_path (absolute path) ++ nl) c.(paths_))).

Definition json_content (c : ConfigSources) (filename : str) : throws (Result json Error) :=
  let! merged_json := merge_files (ordered_paths c.(paths_) c.(profiles) filename) (base_layer c filename) in
  match merged_json with
  | JObject (kv :: m) => inr (Ok (expand_env c (JObject (kv :: m))))
  | _ => inr (Err (not_found_error c filename))
  end.

Definition logging_config (c : ConfigSources) : throws (Result LoggingConfig Error) :=
  let! r := json_content c (lit "log_config") in
  match r with
  | Err e => inr (Err e)
  | Ok jv =>
      match to_LoggingConfig jv with
      | inr lc => inr (Ok lc)
      | inl (StdExn w) => inr (Err (make_error 5019 w))
      | inl OtherExn => inl OtherExn
      end
  end.
End config.

(** ** AppProperties *)

Record AppProperties := mkAppProperties {
  properties : smap;
  processed_files : list str;
  failed_files : list str;
}.

Definition count_dots (s : str) : nat := countb (fun c => bool_decide (c = "."%char)) s.

Definition is_module_file (filename : str) : bool :=
  ends_with (lit ".properties") filename && negb (bool_decide (filename = lit "application.properties")) &&
  negb (starts_with (lit "application.") filename) && (count_dots filename =? 1)%nat.

Definition is_profile_file (filename profile : str) : bool :=
  negb (bool_decide (filename = lit "application." ++ profile ++ lit ".properties")) &&
  ends_with (lit "." ++ profile ++ lit ".properties") filename && (count_dots filename =? 2)%nat.

Section properties.
Context (fs : files).

(** The paths of the list that exist. *)
Fixpoint existing (paths : list str) : throws (list str) :=
  match paths with
  | [] => inr []
  | p :: paths' =>
      let! ex := fs_exists fs p in
      let! rest := existing paths' in
      inr (if ex then p :: rest else rest)
  end.

(** The regular files of a directory, once for each test of [keep] they pass. *)
Fixpoint selected (root : str) (entries : list str) (keep : str -> list bool) : throws (list str) :=
  match entries with
  | [] => inr []
  | e :: entries' =>
      let! reg := fs_is_regular_file fs (path_join root e) in
      let! rest := selected root entries' keep in
      inr (if reg then map (fun _ => path_join root e) (List.filter id (keep e)) ++ rest else rest)
  end.

Definition directory_files (profiles : list str) (path : str) : throws (list str) :=
  let! ex := fs_exists fs path in
  if negb ex then inr []
  else
    let! dir := fs_is_directory fs path in
    if negb dir then inr []
    else
      let! app := existing (path_join path (lit "application.properties") ::
        map (fun profile => path_join path (lit "application." ++ profile ++ lit ".properties")) profiles) in
      let! modules := selected path (fs_entries fs path) (fun f => [is_module_file f]) in
      let! by_profile := selected path (fs_entries fs path) (fun f => map (is_profile_file f) profiles) in
      inr (app ++ modules ++ by_profile).

Fixpoint ordered_files (profiles paths : list str) : throws (list str) :=
  match paths with
  | [] => inr []
  | path :: paths' =>
      let! here := directory_files profiles path in
      let! rest := ordered_files profiles paths' in
      inr (here ++ rest)
  end.

Fixpoint process_files (paths : list str) (a : AppProperties) : throws AppProperties :=
  match paths with
  | [] => inr a
  | path :: paths' =>
      let! ex := fs_exists fs path in
      let! reg := (if ex then fs_is_regular_file fs path else inr false) in
      if reg then
        match parse_env_file path (fs_open fs path) with
        | Ok env =>
            process_files paths' (mkAppProperties (env ∪ a.(properties)) (a.(processed_files) ++ [path]) a.(failed_files))
        | Err _ =>
            process_files paths' (mkAppProperties a.(properties) a.(processed_files) (a.(failed_files) ++ [path]))
        end
      else process_files paths' a
  end.

(** The constructor, with what it leaves in the configuration it refers to. *)
Definition new_app_properties (c : ConfigSources) : throws (AppProperties * ConfigSources) :=
  let! paths := ordered_files c.(profiles) c.(paths_) in
  let! a := process_files paths (mkAppProperties ∅ [] []) in
  let a' := mkAppProperties (c.(cli_overrides_) ∪ (c.(env_overrides_) ∪ a.(properties)))
              a.(processed_files) a.(failed_files) in
  inr (a', merge_env_overrides a'.(properties) c).
End properties.

(** ** Layers *)

(** What a value says about the path [p]: the value there when it is no object,
    that there can be none (an object is there, or the path goes through
    something else), or nothing (a key of the path is missing). *)
Fixpoint sets (p : list str) (j : json) : option (option json) :=
  match p with
  | [] => Some (match j with JObject _ => None | v => Some v end)
  | k :: p' =>
      match j with
      | JObject m => match obj_find k m with None => None | Some v => sets p' v end
      | _ => Some None
      end
  end.

Definition leaf (p : list str) (j : json) : option json :=
  match sets p j with Some (Some v) => Some v | _ => None end.

(** The last layer that says something decides. *)
Fixpoint last_word (p : list str) (layers : list json) (before : option json) : option json :=
  match layers with
  | [] => before
  | j :: layers' => last_word p layers' (match sets p j with Some o => o | None => before end)
  end.

Definition is_object (j : json) : bool := match j with JObject _ => true | _ => false end.

Lemma merge_members_find m d k :
  NoDup (map fst m) ->
  obj_find k (merge_members m d) =
    match obj_find k m with
    | None => obj_find k d
    | Some v =>
        Some (match v, obj_find k d with
              | JObject _, Some (JObject e) => deep_merge_json (JObject e) v
              | _, _ => v
              end)
    end.
Proof.
  revert d. induction m as [|[k0 v] m IH]; intros d Hd; [done|].
  apply NoDup_cons in Hd as [Hk0 Hd]. cbn [merge_members obj_find]. rewrite IH by done.
  set (d' := match v, obj_find k0 d with
             | JObject _, Some (JObject e) => obj_set k0 (deep_merge_json (JObject e) v) d
             | _, _ => obj_set k0 v d
             end).
  case_decide as Hk.
  - subst k0. rewrite (proj2 (obj_find_None k m)) by done. unfold d'.
    destruct v; rewrite ?obj_find_set_eq; try done.
    destruct (obj_find k d) as [[]|]; by rewrite obj_find_set_eq.
  - assert (Hd' : obj_find k d' = obj_find k d).
    { unfold d'. destruct v; rewrite ?obj_find_set_ne by done; try done.
      destruct (obj_find k0 d) as [[]|]; by rewrite obj_find_set_ne. }
    by rewrite Hd'.
Qed.

(** Merging is overlaying, path by path. *)
Lemma leaf_merge p : forall d src,
  json_wf src -> is_object src = true ->
  leaf p (deep_merge_json (JObject d) src) =
    match sets p src with Some o => o | None => leaf p (JObject d) end.
Proof.
  induction p as [|k p IH]; intros d src Hw Ho; destruct src as [| | | | | | |m]; try done.
  unfold leaf. rewrite deep_merge_members. cbn [sets].
  apply json_wf_object in Hw as [Hnd Hw].
  rewrite merge_members_find by done. destruct (obj_find k m) as [v|] eqn:Em; [|done].
  destruct v as [| | | | | | |mv]; try (by destruct p).
  assert (Hwv : json_wf (JObject mv)) by (apply (Hw k); by apply obj_find_in).
  destruct (obj_find k d) as [[| | | | | | |e]|] eqn:Ed;
    try (destruct (sets p (JObject mv)) as [[]|] eqn:E; try done; by destruct p).
  exact (IH e (JObject mv) Hwv eq_refl).
Qed.

Section layers.
Context `{JsonLibLaws}.
Context (fs : files) (getenv : environment) (ryml_parse : str -> throws (list (str * ynode) * ynode)).
Context (stod : str -> option (spec_float * nat)) (yaml_fuel : nat) (absolute : str -> str).
Local Abbreviation parse_file := (parse_file_to_json fs ryml_parse stod yaml_fuel).
Local Abbreviation merged := (merge_files fs ryml_parse stod yaml_fuel).
Local Abbreviation content := (json_content fs getenv ryml_parse stod yaml_fuel absolute).

(** The values of the files that are there and parse, in order. *)
Fixpoint read_layers (paths : list str) : throws (list json) :=
  match paths with
  | [] => inr []
  | path :: paths' =>
      let! jv_opt := parse_file path in
      let! rest := read_layers paths' in
      inr (match jv_opt with Some jv => jv :: rest | None => rest end)
  end.

Lemma parse_file_wf p j : parse_file p = inr (Some j) -> json_wf j.
Proof.
  unfold parse_file_to_json. destruct (fs_exists fs p) as [|[]]; try done. simpl.
  destruct (fs_is_regular_file fs p) as [|[]]; try done. simpl.
  destruct (fs_open fs p) as [text|]; [|done]. unfold yaml_to_json. case_decide.
  - destruct (ryml_parse text) as [[]|[anchors n]]; try done. simpl.
    destruct (convert _ _ _ _) eqn:E; simpl; [|done]. intros [= ->]. by eapply convert_wf.
  - destruct (json_parse text) eqn:E; simpl; [done|]. intros [= ->]. by eapply json_parse_wf.
Qed.

Lemma merge_files_layers paths : forall m j,
  merged paths (JObject m) = inr j ->
  exists layers, read_layers paths = inr layers /\ Forall json_wf layers /\
    j = foldl deep_merge_json (JObject m) layers.
Proof.
  induction paths as [|path paths IH]; intros m j; [intros [= <-]; by exists []|].
  cbn [merge_files read_layers]. destruct (parse_file path) as [er|[jv|]] eqn:E; [done| |].
  - intros Hm. assert (Ho : exists m', deep_merge_json (JObject m) jv = JObject m').
    { destruct jv; eauto. }
    destruct Ho as [m' Hm']. rewrite Hm' in Hm. destruct (IH _ _ Hm) as (layers & -> & Hw & ->).
    exists (jv :: layers). split; [done|]. split; [constructor; [by eapply parse_file_wf|done]|].
    cbn [foldl]. by rewrite Hm'.
  - intros Hm. destruct (IH _ _ Hm) as (layers & -> & Hw & ->). by exists layers.
Qed.

Lemma leaf_foldl p layers : forall m,
  Forall json_wf layers ->
  leaf p (foldl deep_merge_json (JObject m) layers) =
    last_word p (List.filter is_object layers) (leaf p (JObject m)).
Proof.
  induction layers as [|j layers IH]; intros m Hw; [done|]. inversion_clear Hw as [|?? Hj Hl].
  cbn [foldl List.filter]. destruct (is_object j) eqn:Ho.
  - destruct j as [| | | | | | |mj]; try done. rewrite deep_merge_members. rewrite IH by done.
    cbn [last_word]. rewrite <- deep_merge_members. by rewrite leaf_merge.
  - by destruct j; try done; apply IH.
Qed.

Lemma merge_members_nil m d : merge_members m d = [] -> m = [] /\ d = [].
Proof.
  assert (Hs : forall k v d, obj_set k v d <> []).
  { intros k v [|[k0 v0] d0]; simpl; [done|]. by case_decide. }
  revert d. induction m as [|[k v] m IH]; intros d; [done|]. cbn [merge_members]. intros Hm.
  apply IH in Hm as [_ Hm]. exfalso. destruct v; try by apply Hs in Hm.
  destruct (obj_find k d) as [[]|]; by apply Hs in Hm.
Qed.

Lemma foldl_merge_object layers : forall m, exists m', foldl deep_merge_json (JObject m) layers = JObject m'.
Proof.
  induction layers as [|j layers IH]; intros m; [by exists m|]. cbn [foldl].
  destruct j; apply IH.
Qed.

Lemma foldl_merge_empty layers : forall m,
  foldl deep_merge_json (JObject m) layers = JObject [] ->
  m = [] /\ Forall (fun j => is_object j = true -> j = JObject []) layers.
Proof.
  induction layers as [|j layers IH]; intros m; [by intros [= ->]|]. cbn [foldl].
  destruct j as [| | | | | | |mj]; try (intros Hf; apply IH in Hf as [-> Hf]; by split; [|constructor]).
  rewrite deep_merge_members. intros Hf. apply IH in Hf as [Hm Hf].
  apply merge_members_nil in Hm as [-> ->]. split; [done|]. by constructor.
Qed.

Lemma leaf_expand_env c p : forall j, leaf p (expand_env getenv c j) = expand_env getenv c <$> leaf p j.
Proof.
  induction p as [|k p IH]; intros j; [by destruct j|].
  destruct j as [| | | | | | |m]; try done. specialize (IH (default JNull (obj_find k m))).
  unfold leaf in *. cbn [expand_env sets]. rewrite obj_find_map.
  destruct (obj_find k m) as [v|]; [exact IH|done].
Qed.

(** C28: The content of a configuration is decided path by path by the last
    layer that says something about the path: the section of the application
    file first, then, directory by directory, the files of the base name, of the
    profiles in their order and of the override, [.json] before [.yaml] before
    [.yml]; files that are absent, do not parse or hold no object do not count,
    and every string of the result is expanded.  It is an error exactly when no
    layer has a member. *)
Theorem json_content_last_layer_wins (c : ConfigSources) (name : str) (r : Result json Error) :
  content c name = inr r ->
  exists layers,
    read_layers (ordered_paths c.(paths_) c.(profiles) name) = inr layers /\
    match r with
    | Ok v =>
        is_object v = true /\
        forall p, leaf p v = expand_env getenv c <$>
                    last_word p (List.filter is_object layers) (leaf p (base_layer c name))
    | Err e =>
        e = not_found_error absolute c name /\ base_layer c name = JObject [] /\
        Forall (fun j => is_object j = true -> j = JObject []) layers
    end.
Proof.
  assert (Hb : exists b, base_layer c name = JObject b).
  { unfold base_layer. repeat case_match; eauto. }
  destruct Hb as [b Hb]. unfold json_content. rewrite Hb.
  destruct (merged _ _) as [|j] eqn:E; [done|]. intros Hr.
  destruct (merge_files_layers _ _ _ E) as (layers & Hread & Hw & ->).
  exists layers. split; [done|]. destruct (foldl_merge_object layers b) as [m Hm]. rewrite Hm in Hr.
  destruct m as [|kv m].
  - injection Hr as <-. destruct (foldl_merge_empty _ _ Hm) as [-> He]. done.
  - assert (r = Ok (expand_env getenv c (JObject (kv :: m)))) as -> by congruence. split; [done|]. intros p. rewrite leaf_expand_env, <- Hm. by rewrite leaf_foldl.
Qed.
End layers.

(** ** What the properties are *)

Section precedence.
Context (fs : files).

(** The bindings of a file; a file that cannot be read has none. *)
Definition file_bindings (path : str) : smap :=
  match parse_env_file path (fs_open fs path) with Ok env => env | Err _ => ∅ end.

(** The last file of the list that binds the key. *)
Fixpoint last_binding (k : str) (paths : list str) (before : option str) : option str :=
  match paths with
  | [] => before
  | p :: paths' => last_binding k paths' (match file_bindings p !! k with Some v => Some v | None => before end)
  end.

Lemma process_files_correct paths : forall a a',
  process_files fs paths a = inr a' ->
  exists done_, a'.(processed_files) = a.(processed_files) ++ done_ /\ done_ `sublist_of` paths /\
    (forall k, a'.(properties) !! k = last_binding k done_ (a.(properties) !! k)).
Proof.
  induction paths as [|path paths IH]; intros a a'; cbn [process_files].
  - intros [= <-]. exists []. split; [by rewrite app_nil_r|]. by split; [constructor|].
  - destruct (fs_exists fs path) as [|ex]; [done|].
    destruct (if ex then fs_is_regular_file fs path else inr false) as [|[]]; [done| |].
    + destruct (parse_env_file path (fs_open fs path)) as [env|e] eqn:E; intros Hp;
        apply IH in Hp as (done_ & Hd & Hs & Hk); cbn [processed_files properties] in *.
      * exists (path :: done_). split; [by rewrite Hd, <- app_assoc|]. split; [by constructor|].
        intros k. rewrite Hk. cbn [last_binding]. unfold file_bindings. rewrite E.
        rewrite lookup_union. by destruct (env !! k), (properties a !! k).
      * exists done_. split; [done|]. split; [by apply sublist_cons|done].
    + intros Hp. apply IH in Hp as (done_ & Hd & Hs & Hk). exists done_. split; [done|].
      split; [by apply sublist_cons|done].
Qed.

(** A property is what the command line says, else what the configuration was
    given, else the last binding in the processed files, which are taken in
    discovery order; later expansions of placeholders see exactly these. *)
Lemma app_properties_precedence (c c' : ConfigSources) (a : AppProperties) :
  new_app_properties fs c = inr (a, c') ->
  exists paths, ordered_files fs c.(profiles) c.(paths_) = inr paths /\
    a.(processed_files) `sublist_of` paths /\
    (forall k, a.(properties) !! k =
       match c.(cli_overrides_) !! k with
       | Some v => Some v
       | None => match c.(env_overrides_) !! k with
                 | Some v => Some v
                 | None => last_binding k a.(processed_files) None
                 end
       end) /\
    c'.(env_overrides_) = a.(properties).
Proof.
  unfold new_app_properties. destruct (ordered_files _ _ _) as [|paths]; [done|]. cbn.
  destruct (process_files _ _ _) as [|b] eqn:E; [done|]. intros [= <- <-].
  destruct (process_files_correct _ _ _ E) as (done_ & Hd & Hs & Hk). simpl in Hd. subst done_.
  exists paths. cbn. split_and!; [done|done| |].
  - intros k. rewrite !lookup_union, Hk. cbn [properties]. rewrite lookup_empty.
    by destruct (cli_overrides_ c !! k), (env_overrides_ c !! k), (last_binding k _ None).
  - apply map_eq. intros k. rewrite !lookup_union.
    by destruct (cli_overrides_ c !! k), (env_overrides_ c !! k), (properties b !! k).
Qed.
End precedence.

(** ** Demonstration *)

Definition demo_text (j : json) : option str := Some (json_serialize (JsonLib := BinaryJson.lib) j).
Definition demo_layer1 : json := JObject [(lit "host", JString (lit "${H:-a}")); (lit "port", JInt64 1)].
Definition demo_layer2 : json := JObject [(lit "port", JInt64 2)].
Definition demo_fs (p : str) : node :=
  if decide (p = lit "c/http.json") then Regular (demo_text demo_layer1)
  else if decide (p = lit "c/http.dev.json") then Regular (demo_text demo_layer2)
  else if decide (p = lit "c") then Directory [lit "http.json"; lit "http.dev.json"]
  else Missing.
Definition demo_config : ConfigSources := mkConfigSources [lit "c"] [lit "dev"] None ∅ ∅.
Definition demo_content : throws (Result json Error) :=
  json_content (H := BinaryJson.lib) demo_fs (fun _ => None) (fun _ => inl OtherExn) (fun _ => None) 0 id
    demo_config (lit "http").

Lemma json_content_last_layer_wins_witness :
  exists v, demo_content = inr (Ok v) /\ leaf [lit "port"] v = Some (JInt64 2) /\
    leaf [lit "host"] v = Some (JString (lit "a")).
Proof.
  assert (Hc : exists v, demo_content = inr (Ok v)).
  { eexists. vm_compute. reflexivity. }
  destruct Hc as [v Hv]. exists v. split; [exact Hv|].
  destruct (json_content_last_layer_wins (H := BinaryJson.lib) (H0 := BinaryJson.laws) demo_fs (fun _ => None)
    (fun _ => inl OtherExn) (fun _ => None) 0 id demo_config (lit "http") (Ok v) Hv) as (layers & Hl & _ & Hp).
  assert (Hr : @inr exn _ [demo_layer1; demo_layer2] = inr layers).
  { rewrite <- Hl. vm_compute. reflexivity. }
  injection Hr as <-. split; rewrite Hp; vm_compute; reflexivity.
Defined.
