(* ===== verification/SessionData.v ===== *)
(** * Session attributes ([src/include/simple_data.hpp])

    [Permission] and [SessionAttributes] with their JSON forms, and the small
    strong types at the end of the file. *)

From Stdlib Require Import ZArith Lia Ascii String.
From stdpp Require Import base list gmap strings.
From S2P Require Import Prelude Json.

(** ** Permission *)

Record Permission := mkPermission {
  obtype : str;
  obid : str;
  actions : list str;
}.
#[export] Instance Permission_eq_dec : EqDecision Permission.
Proof. solve_decision. Defined.

Definition isAll (p : Permission) : bool :=
  bool_decide (p.(obtype) = lit "*") && bool_decide (p.(obid) = lit "*") &&
  bool_decide (p.(actions) = [lit "*"]).
Definition All : Permission := mkPermission (lit "*") (lit "*") [lit "*"].

Definition from_strings (l : list str) : json := JArray (map JString l).

Definition from_Permission (p : Permission) : json :=
  JObject [(lit "obtype", JString p.(obtype)); (lit "obid", JString p.(obid));
           (lit "actions", from_strings p.(actions))].

(** ** SessionAttributes *)

(** [AuthBy], an enumeration over [int]. *)
Definition USERNAME_PASSWORD : Z := 0.
Definition API_KEY : Z := 1.
Definition JWT_TOKEN : Z := 2.

Record SessionAttributes := mkSession {
  user_id : option Z;
  apikey_id : option Z;
  user_name : option str;
  user_email : option str;
  created_at : option Z;
  user_roles : list str;
  user_permissions : list Permission;
  country_of_residence : option str;
  preferred_market_id : option str;
  preferred_locale : option str;
  preferred_currency : option str;
  user_state : option str;
  email_verified_at : option Z;
  email_verified : option bool;
  phone_verified_at : option Z;
  phone_verified : option bool;
  auth_by : Z;
  amr : list str;
  acr : option str;
  auth_time : option Z;
  mfa : option bool;
  webauthn_platform : option bool;
  credential_id : option str;
  attestation_verified : option bool;
}.

Definition default_session : SessionAttributes :=
  mkSession None None None None None [] [] None None None None None None None None None
    USERNAME_PASSWORD [] None None None None None None.

Definition user_id_or_throw (sa : SessionAttributes) : throws Z :=
  match sa.(user_id) with Some id => inr id | None => inl (StdExn (lit "user_id is not set")) end.

Definition is_admin (sa : SessionAttributes) : bool := bool_decide (lit "admin" ∈ sa.(user_roles)).

(** The members in the order they are written, with what is written. *)
Definition unless_empty {A} (f : list A -> json) (l : list A) : option json :=
  match l with [] => None | _ => Some (f l) end.

Definition session_members (sa : SessionAttributes) : list (string * option json) :=
  [("user_id", JInt64 <$> sa.(user_id));
   ("apikey_id", JInt64 <$> sa.(apikey_id));
   ("user_name", JString <$> sa.(user_name));
   ("user_email", JString <$> sa.(user_email));
   ("created_at", JInt64 <$> sa.(created_at));
   ("user_roles", unless_empty from_strings sa.(user_roles));
   ("user_permissions", unless_empty (fun l => JArray (map from_Permission l)) sa.(user_permissions));
   ("auth_by", Some (JInt64 sa.(auth_by)));
   ("amr", unless_empty from_strings sa.(amr));
   ("acr", JString <$> sa.(acr));
   ("auth_time", JInt64 <$> sa.(auth_time));
   ("mfa", JBool <$> sa.(mfa));
   ("webauthn_platform", JBool <$> sa.(webauthn_platform));
   ("credential_id", JString <$> sa.(credential_id));
   ("attestation_verified", JBool <$> sa.(attestation_verified));
   ("country_of_residence", JString <$> sa.(country_of_residence));
   ("preferred_market_id", JString <$> sa.(preferred_market_id));
   ("preferred_locale", JString <$> sa.(preferred_locale));
   ("preferred_currency", JString <$> sa.(preferred_currency));
   ("user_state", JString <$> sa.(user_state));
   ("email_verified_at", JInt64 <$> sa.(email_verified_at));
   ("email_verified", JBool <$> sa.(email_verified));
   ("phone_verified_at", JInt64 <$> sa.(phone_verified_at));
   ("phone_verified", JBool <$> sa.(phone_verified))]%string.

Fixpoint write_members (l : list (string * option json)) (jo : jobject) : jobject :=
  match l with
  | [] => jo
  | (k, Some v) :: l' => write_members l' (obj_set (lit k) v jo)
  | (_, None) :: l' => write_members l' jo
  end.

Definition from_SessionAttributes (sa : SessionAttributes) : json :=
  JObject (write_members (session_members sa) []).

Section read.
Context `{JsonLib}.

Definition to_Permission (jv : json) : throws Permission :=
  let! t := (let! v := at_key (lit "obtype") jv in as_string v) in
  let! i := (let! v := at_key (lit "obid") jv in as_string v) in
  let! a := (let! v := at_key (lit "actions") jv in as_vector as_string v) in
  inr (mkPermission t i a).

Definition parse_optional_bool (k : string) (jo : jobject) : option bool :=
  match obj_find (lit k) jo with
  | Some (JBool b) => Some b
  | Some (JInt64 z) | Some (JUint64 z) => Some (negb (z =? 0)%Z)
  | Some (JString s) =>
      if decide (s = lit "true" \/ s = lit "1") then Some true
      else if decide (s = lit "false" \/ s = lit "0") then Some false
      else None
  | _ => None
  end.

(** A member that is read with [f] when [if_contains] finds it. *)
Definition opt_member {A} (k : string) (jo : jobject) (f : json -> throws A) : throws (option A) :=
  match obj_find (lit k) jo with
  | Some v => let! a := f v in inr (Some a)
  | None => inr None
  end.
Definition member_or {A} (k : string) (jo : jobject) (absent : A) (f : json -> throws A) : throws A :=
  match obj_find (lit k) jo with Some v => f v | None => inr absent end.

Definition number_of (v : json) : throws Z := lift_std (to_number_int64 v).

Definition to_SessionAttributes (jv : json) : throws SessionAttributes :=
  match jv with
  | JObject jo =>
      let! user_id := opt_member "user_id" jo number_of in
      let! apikey_id := opt_member "apikey_id" jo number_of in
      let! user_name := opt_member "user_name" jo as_string in
      let! user_email := opt_member "user_email" jo as_string in
      let! created_at := opt_member "created_at" jo number_of in
      let! user_roles := member_or "user_roles" jo [] (as_vector as_string) in
      let! user_permissions := member_or "user_permissions" jo [] (as_vector to_Permission) in
      let! auth_by := member_or "auth_by" jo USERNAME_PASSWORD (fun v => lift_std (to_number_int v)) in
      let! amr := member_or "amr" jo [] (as_vector as_string) in
      let! acr := opt_member "acr" jo as_string in
      let! auth_time := opt_member "auth_time" jo number_of in
      let mfa := parse_optional_bool "mfa" jo in
      let webauthn_platform := parse_optional_bool "webauthn_platform" jo in
      let! credential_id := opt_member "credential_id" jo as_string in
      let attestation_verified := parse_optional_bool "attestation_verified" jo in
      let! country_of_residence := opt_member "country_of_residence" jo as_string in
      let! preferred_market_id := opt_member "preferred_market_id" jo as_string in
      let! preferred_locale := opt_member "preferred_locale" jo as_string in
      let! preferred_currency := opt_member "preferred_currency" jo as_string in
      let! user_state := opt_member "user_state" jo as_string in
      let! email_verified_at := opt_member "email_verified_at" jo number_of in
      let email_verified := parse_optional_bool "email_verified" jo in
      let! phone_verified_at := opt_member "phone_verified_at" jo number_of in
      let phone_verified := parse_optional_bool "phone_verified" jo in
      inr (mkSession user_id apikey_id user_name user_email created_at user_roles user_permissions
             country_of_residence preferred_market_id preferred_locale preferred_currency user_state
             email_verified_at email_verified phone_verified_at phone_verified auth_by amr acr auth_time
             mfa webauthn_platform credential_id attestation_verified)
  | _ => inr default_session
  end.

Definition set_user_permissions (l : list Permission) (sa : SessionAttributes) : SessionAttributes :=
  mkSession sa.(user_id) sa.(apikey_id) sa.(user_name) sa.(user_email) sa.(created_at) sa.(user_roles) l
    sa.(country_of_residence) sa.(preferred_market_id) sa.(preferred_locale) sa.(preferred_currency)
    sa.(user_state) sa.(email_verified_at) sa.(email_verified) sa.(phone_verified_at) sa.(phone_verified)
    sa.(auth_by) sa.(amr) sa.(acr) sa.(auth_time) sa.(mfa) sa.(webauthn_platform) sa.(credential_id)
    sa.(attestation_verified).

Definition add_permissions_from_string (json_perms_str : str) (sa : SessionAttributes) : throws SessionAttributes :=
  if decide (json_perms_str = [] \/ json_perms_str = lit "{}") then inr sa
  else
    catch_std
      (let! jv := lift_std (json_parse json_perms_str) in
       let! l := as_vector to_Permission jv in
       inr (set_user_permissions (sa.(user_permissions) ++ l) sa))
      (fun _ => inr sa).
End read.

(** ** Round trips *)

Section roundtrip.
Context `{JsonLibLaws}.

(** What is written under a key. *)
Fixpoint written (k : string) (l : list (string * option json)) : option json :=
  match l with
  | [] => None
  | (k', o) :: l' => if String.eqb k' k then o else written k l'
  end.

Lemma lit_inj a b : lit a = lit b -> a = b.
Proof.
  intros Hab. apply (f_equal string_of_list_ascii) in Hab. unfold lit in Hab.
  by rewrite !string_of_list_ascii_of_string in Hab.
Qed.

Lemma written_None k l : k ∉ map fst l -> written k l = None.
Proof.
  induction l as [|[k' o] l IH]; [done|]. cbn [map fst written]. rewrite not_elem_of_cons. intros [Hk Hl].
  destruct (String.eqb_spec k' k); [by subst|auto].
Qed.

Lemma write_members_find k l : forall jo,
  NoDup (map fst l) ->
  obj_find (lit k) (write_members l jo) =
    match written k l with Some v => Some v | None => obj_find (lit k) jo end.
Proof.
  induction l as [|[k0 o] l IH]; intros jo Hd; [done|]. cbn [map fst] in Hd.
  apply NoDup_cons in Hd as [Hk0 Hd]. cbn [written write_members].
  destruct (String.eqb_spec k0 k) as [->|Hne]; destruct o as [v|]; rewrite IH by done.
  - by rewrite written_None, obj_find_set_eq.
  - by rewrite written_None.
  - rewrite obj_find_set_ne; [done|]. intros E. by apply Hne, lit_inj.
  - done.
Qed.

Lemma strings_roundtrip l : map_throws as_string (map JString l) = inr l.
Proof. apply map_throws_inr, Forall2_fmap_l, Forall_Forall2_diag, Forall_forall. done. Qed.

Lemma to_from_Permission p : to_Permission (from_Permission p) = inr p.
Proof.
  destruct p as [t i a]. unfold to_Permission, at_key, obj_at, from_Permission, as_vector, from_strings. simpl.
  by rewrite strings_roundtrip.
Qed.

Lemma permissions_roundtrip l : map_throws to_Permission (map from_Permission l) = inr l.
Proof. apply map_throws_inr, Forall2_fmap_l, Forall_Forall2_diag, Forall_forall. intros. apply to_from_Permission. Qed.

Definition session_ok (sa : SessionAttributes) : Prop :=
  Forall (fun o => from_option in_int64 True o)
    [sa.(user_id); sa.(apikey_id); sa.(created_at); sa.(auth_time); sa.(email_verified_at); sa.(phone_verified_at)] /\
  in_int32 sa.(auth_by).

(** Reading back one member. *)
Lemma read_number k jo o :
  obj_find (lit k) jo = JInt64 <$> o -> from_option in_int64 True o -> opt_member k jo number_of = inr o.
Proof.
  unfold opt_member, number_of. intros ->. destruct o as [z|]; [|done]. simpl. intros Hz.
  by rewrite to_number_int64_ok.
Qed.
Lemma read_text k jo o : obj_find (lit k) jo = JString <$> o -> opt_member k jo as_string = inr o.
Proof. unfold opt_member. intros ->. by destruct o. Qed.
Lemma read_flag k jo o : obj_find (lit k) jo = JBool <$> o -> parse_optional_bool k jo = o.
Proof. unfold parse_optional_bool. intros ->. by destruct o. Qed.
Lemma read_list {A} k jo (f : list A -> json) (g : json -> throws (list A)) l :
  obj_find (lit k) jo = unless_empty f l -> g (f l) = inr l -> member_or k jo [] g = inr l.
Proof. unfold member_or. intros ->. by destruct l. Qed.

(** C27: Session attributes survive their JSON form: whatever members are set -
    identifiers and times in 64 bits, roles, permissions, flags - reading back
    what was written gives the same attributes. *)
Theorem session_roundtrip (sa : SessionAttributes) :
  session_ok sa -> to_SessionAttributes (from_SessionAttributes sa) = inr sa.
Proof.
  intros [Hn Ha]. unfold to_SessionAttributes, from_SessionAttributes.
  assert (Hd : NoDup (map fst (session_members sa))).
  { assert (Hk : map fst (session_members sa) = map fst (session_members default_session)) by done.
    rewrite Hk. apply (bool_decide_unpack _). vm_compute. exact I. }
  assert (Hfind : forall k, obj_find (lit k) (write_members (session_members sa) []) = written k (session_members sa)).
  { intros k. rewrite write_members_find by done. by destruct (written k _). }
  clear Hd. revert Hfind. generalize (write_members (session_members sa) []). intros jo Hfind.
  repeat match goal with H : Forall _ (_ :: _) |- _ => apply Forall_cons in H as [? H] end.
  rewrite (read_number "user_id" jo (user_id sa)), (read_number "apikey_id" jo (apikey_id sa)),
    (read_text "user_name" jo (user_name sa)), (read_text "user_email" jo (user_email sa)),
    (read_number "created_at" jo (created_at sa)),
    (read_list "user_roles" jo from_strings _ (user_roles sa)),
    (read_list "user_permissions" jo (fun l => JArray (map from_Permission l)) _ (user_permissions sa))
    by (try (rewrite Hfind; reflexivity); try assumption; try apply strings_roundtrip; apply permissions_roundtrip).
  assert (Hauth : member_or "auth_by" jo USERNAME_PASSWORD (fun v => lift_std (to_number_int v)) = inr (auth_by sa)).
  { unfold member_or. rewrite Hfind. cbn [written session_members]. cbn. by rewrite to_number_int_ok. }
  rewrite Hauth, (read_list "amr" jo from_strings _ (amr sa)), (read_text "acr" jo (acr sa)),
    (read_number "auth_time" jo (auth_time sa)), (read_text "credential_id" jo (credential_id sa)),
    (read_text "country_of_residence" jo (country_of_residence sa)),
    (read_text "preferred_market_id" jo (preferred_market_id sa)),
    (read_text "preferred_locale" jo (preferred_locale sa)),
    (read_text "preferred_currency" jo (preferred_currency sa)), (read_text "user_state" jo (user_state sa)),
    (read_number "email_verified_at" jo (email_verified_at sa)),
    (read_number "phone_verified_at" jo (phone_verified_at sa))
    by (try (rewrite Hfind; reflexivity); try assumption; apply strings_roundtrip).
  rewrite (read_flag "mfa" jo (mfa sa)), (read_flag "webauthn_platform" jo (webauthn_platform sa)),
    (read_flag "attestation_verified" jo (attestation_verified sa)),
    (read_flag "email_verified" jo (email_verified sa)), (read_flag "phone_verified" jo (phone_verified sa))
    by (rewrite Hfind; reflexivity).
  by destruct sa.
Qed.

(** The JSON of a permission has its own keys only and no unsigned integer. *)
Lemma from_Permission_wf p : json_wf (from_Permission p).
Proof.
  split; [apply (bool_decide_unpack _); vm_compute; exact I|]. split_and!; try exact I.
  apply json_wf_array, Forall_map, Forall_forall. by intros.
Qed.

Lemma permissions_reparsed l :
  reparsed (JArray (map from_Permission l)) = JArray (map from_Permission l).
Proof.
  apply reparsed_id. apply forallb_forall. intros j (p & <- & _)%in_map_iff. cbn.
  rewrite andb_true_r. apply forallb_forall. by intros k (s & <- & _)%in_map_iff.
Qed.

(** Permissions from text: the text of a list of permissions in UTF-8 adds them. *)
Lemma add_permissions_correct l sa :
  l <> [] -> printable 32 (JArray (map from_Permission l)) = true ->
  json_serialize (JArray (map from_Permission l)) <> lit "{}" ->
  add_permissions_from_string (json_serialize (JArray (map from_Permission l))) sa =
    inr (set_user_permissions (sa.(user_permissions) ++ l) sa).
Proof.
  intros Hl Hp Hs. unfold add_permissions_from_string. rewrite decide_False.
  2:{ intros [E|E]; [by apply json_serialize_nonempty in E|done]. }
  rewrite json_parse_serialize, permissions_reparsed; [|apply json_wf_array, Forall_map, Forall_forall|done].
  - cbn [lift_std as_vector]. by rewrite permissions_roundtrip.
  - intros p _. apply from_Permission_wf.
Qed.
End roundtrip.

Definition demo_session : SessionAttributes :=
  mkSession (Some 7%Z) None (Some (lit "n")) None None [lit "admin"] [All] None None None None None
    (Some 100%Z) (Some true) None None API_KEY [lit "pwd"] None None (Some false) None None None.

Lemma session_roundtrip_witness :
  to_SessionAttributes (H := BinaryJson.lib) (from_SessionAttributes demo_session) = inr demo_session.
Proof.
  apply (session_roundtrip (H := BinaryJson.lib) (H0 := BinaryJson.laws)). split.
  - unfold in_int64, INT64_MIN, INT64_MAX. repeat constructor; simpl; lia.
  - unfold in_int32, INT_MIN, INT_MAX. simpl. unfold API_KEY. lia.
Defined.

(** ** The integer types at the end of the header *)

Record ExitCode := mkExitCode { exit_value : Z }.
Definition ExitCode_OK : ExitCode := mkExitCode 0.

Record StrongInt := mkStrongInt { strong_value : Z }.
Definition StrongInt_ZERO : StrongInt := mkStrongInt 0.
Definition StrongInt_ONE : StrongInt := mkStrongInt 1.
Definition PRINT_NONE : StrongInt := mkStrongInt 0.
Definition PRINT_DEFAULT : StrongInt := mkStrongInt 1.
Definition PRINT_TABLE : StrongInt := mkStrongInt 2.
Definition PRINT_JSON : StrongInt := mkStrongInt 3.

Record HowDetail := mkHowDetail { detail_value : Z }.
Definition Least : HowDetail := mkHowDetail INT_MIN.
Definition Most : HowDetail := mkHowDetail INT_MAX.
Definition is_least (d : HowDetail) : bool := (d.(detail_value) =? INT_MIN)%Z.
Definition is_most (d : HowDetail) : bool := (d.(detail_value) =? INT_MAX)%Z.
Definition is_gt (d : HowDetail) (v : Z) : bool := (v <? d.(detail_value))%Z.
Definition is_lt (d : HowDetail) (v : Z) : bool := (d.(detail_value) <? v)%Z.

(** [Least] and [Most] are the ends of the order. *)
Lemma detail_ends d v :
  in_int32 d.(detail_value) -> in_int32 v ->
  is_lt Least v = negb (v =? INT_MIN)%Z /\ is_gt Most v = negb (v =? INT_MAX)%Z /\
  (is_least d = true <-> d = Least) /\ (is_most d = true <-> d = Most).
Proof.
  intros Hd Hv. unfold is_lt, is_gt, is_least, is_most, Least, Most, in_int32 in *. destruct d as [x]. simpl in *.
  split_and!.
  - destruct (Z.eqb_spec v INT_MIN), (Z.ltb_spec INT_MIN v); simpl; lia.
  - destruct (Z.eqb_spec v INT_MAX), (Z.ltb_spec v INT_MAX); simpl; lia.
  - rewrite Z.eqb_eq. split; [by intros ->|by intros [=]].
  - rewrite Z.eqb_eq. split; [by intros ->|by intros [=]].
Qed.
