(* ===== verification/ConfigProvider.v ===== *)
(** * Configuration of the HTTP client ([src/include/http_client_config_provider.hpp])

    [ProxySetting], certificates and [HttpclientConfig] read from JSON, and
    [HttpclientConfigProviderFile]: the named profiles, and the proxy of the
    process environment that profiles without a proxy inherit.  The log line
    about it is left out. *)

From Stdlib Require Import ZArith Lia Ascii String.
From Stdlib Require Import SpecFloat.
From stdpp Require Import base list gmap fin_maps strings.
From S2P Require Import Prelude Json ResultMonad Http EnvExpand JsonUtil Yaml ConfigSources.

(** ** TLS methods *)

Inductive ssl_method :=
  | sslv2 | sslv2_client | sslv2_server | sslv3 | sslv3_client | sslv3_server
  | tlsv1 | tlsv1_client | tlsv1_server | sslv23 | sslv23_client | sslv23_server
  | tlsv11 | tlsv11_client | tlsv11_server | tlsv12 | tlsv12_client | tlsv12_server
  | tlsv13 | tlsv13_client | tlsv13_server | tls | tls_client | tls_server.
#[export] Instance ssl_method_eq_dec : EqDecision ssl_method.
Proof. solve_decision. Defined.

Definition kMethodMap : list (str * ssl_method) :=
  map (fun '(n, m) => (lit n, m))
    [("sslv2", sslv2); ("sslv2_client", sslv2_client); ("sslv2_server", sslv2_server);
     ("sslv3", sslv3); ("sslv3_client", sslv3_client); ("sslv3_server", sslv3_server);
     ("tlsv1", tlsv1); ("tlsv1_client", tlsv1_client); ("tlsv1_server", tlsv1_server);
     ("sslv23", sslv23); ("sslv23_client", sslv23_client); ("sslv23_server", sslv23_server);
     ("tlsv11", tlsv11); ("tlsv11_client", tlsv11_client); ("tlsv11_server", tlsv11_server);
     ("tlsv12", tlsv12); ("tlsv12_client", tlsv12_client); ("tlsv12_server", tlsv12_server);
     ("tlsv13", tlsv13); ("tlsv13_client", tlsv13_client); ("tlsv13_server", tlsv13_server);
     ("tls", tls); ("tls_client", tls_client); ("tls_server", tls_server)]%string.

Fixpoint assoc {A} (k : str) (l : list (str * A)) : option A :=
  match l with
  | [] => None
  | (k', a) :: l' => if decide (k' = k) then Some a else assoc k l'
  end.

Definition ssl_method_from_string (name : str) : throws ssl_method :=
  match assoc name kMethodMap with
  | Some m => inr m
  | None => inl (StdExn (lit "Invalid SSL method name: " ++ name))
  end.

(** ** Settings *)

Record HttpclientCertificate := mkCertificate {
  cert_content : str;
  cert_format : str;
}.
Record HttpclientCertificateFile := mkCertificateFile {
  cert_path : str;
  cert_file_format : str;
}.

Record HttpclientConfig := mkHttpclientConfig {
  ssl_method_ : ssl_method;
  threads_num : Z;
  default_verify_path : bool;
  insecure_skip_verify : bool;
  verify_paths : list str;
  certificates : list HttpclientCertificate;
  certificate_files : list HttpclientCertificateFile;
  proxy_pool : list ProxySetting;
}.

(** [s.find("${") != npos]. *)
Definition has_unresolved_env (s : str) : bool :=
  match find_sub (lit "${") s with Some _ => true | None => false end.

Section parse.
Context `{JsonLib}.

(** [jo->at(k).as_string().c_str()]. *)
Definition c_str_at (k : string) (jo : jobject) : throws str :=
  let! v := obj_at (lit k) jo in let! s := as_string v in inr (c_str s).

Definition port_of (jo : jobject) : throws str :=
  match obj_find (lit "port") jo with
  | None => inr []
  | Some (JString s) => inr (c_str s)
  | Some (JInt64 _ as v) | Some (JUint64 _ as v) | Some (JDouble _ as v) =>
      let! z := lift_std (to_number_int64 v) in inr (z_to_str z)
  | Some _ => inl (StdExn (lit "Invalid port type in ProxySetting"))
  end.

Definition to_ProxySetting (jv : json) : throws ProxySetting :=
  match jv with
  | JObject jo =>
      let! host := c_str_at "host" jo in
      let! port := port_of jo in
      let! username := c_str_at "username" jo in
      let! password := c_str_at "password" jo in
      let! disabled :=
        match obj_find (lit "disabled") jo with
        | Some v => bool_or_throw v (lit "httpclient_config.proxy_pool[].disabled")
        | None => inr false
        end in
      inr (mkProxy host port username password false disabled)
  | _ => inl (StdExn (lit "Invalid JSON for ProxySetting"))
  end.

Definition to_Certificate (jv : json) : throws HttpclientCertificate :=
  match jv with
  | JObject jo =>
      let! content := c_str_at "cert_content" jo in
      let! format := c_str_at "file_format" jo in
      inr (mkCertificate content format)
  | _ => inl (StdExn (lit "Invalid JSON for HttpclientCertificate"))
  end.

Definition to_CertificateFile (jv : json) : throws HttpclientCertificateFile :=
  match jv with
  | JObject jo =>
      let! path := c_str_at "cert_path" jo in
      let! format := c_str_at "file_format" jo in
      inr (mkCertificateFile path format)
  | _ => inl (StdExn (lit "Invalid JSON for HttpclientCertificateFile"))
  end.

(** A member that may be absent, and what to read it with. *)
Definition optional_at {A} (k : string) (jo : jobject) (absent : A) (f : json -> throws A) : throws A :=
  match obj_find (lit k) jo with Some v => f v | None => inr absent end.

Definition usable_proxies (l : list ProxySetting) : list ProxySetting :=
  List.filter (fun p => negb (has_unresolved_env p.(p_username) || has_unresolved_env p.(p_password)))
    (List.filter (fun p => negb p.(p_disabled)) l).

Definition read_HttpclientConfig (jv : json) : throws HttpclientConfig :=
  match jv with
  | JObject jo =>
      let! method := optional_at "ssl_method" jo tlsv12_client
        (fun v => let! s := as_string v in ssl_method_from_string s) in
      let! threads := (let! v := at_key (lit "threads_num") jv in lift_std (to_number_int v)) in
      if (threads <? 0)%Z then inl (StdExn (lit "threads_num must be non-negative"))
      else
        let! paths := optional_at "verify_paths" jo [] (as_vector as_string) in
        let! insecure := optional_at "insecure_skip_verify" jo false
          (fun v => bool_or_throw v (lit "httpclient_config.insecure_skip_verify")) in
        let! certs := optional_at "certificates" jo [] (as_vector to_Certificate) in
        let! cert_files := optional_at "certificate_files" jo [] (as_vector to_CertificateFile) in
        let! pool := optional_at "proxy_pool" jo [] (as_vector to_ProxySetting) in
        inr (mkHttpclientConfig method threads true insecure paths certs cert_files (usable_proxies pool))
  | _ => inl (StdExn (lit "HttpclientConfig must be an object."))
  end.

Definition to_HttpclientConfig (jv : json) : throws HttpclientConfig :=
  catch_std (read_HttpclientConfig jv) (fun w => inl (StdExn (lit "Invalid JSON for HttpclientConfig: " ++ w))).
End parse.

Definition get_threads_num (hardware_concurrency : Z) (c : HttpclientConfig) : Z :=
  if (c.(threads_num) =? 0)%Z then hardware_concurrency
  else if (hardware_concurrency <? c.(threads_num))%Z then hardware_concurrency else c.(threads_num).

Definition set_proxy_pool (l : list ProxySetting) (c : HttpclientConfig) : HttpclientConfig :=
  mkHttpclientConfig c.(ssl_method_) c.(threads_num) c.(default_verify_path) c.(insecure_skip_verify)
    c.(verify_paths) c.(certificates) c.(certificate_files) l.

Definition inherit_env_proxy_if_empty (proxy : ProxySetting) (c : HttpclientConfig) : HttpclientConfig :=
  if proxy.(p_disabled) then c
  else
    let proxy := mkProxy proxy.(p_host) proxy.(p_port) proxy.(p_username) proxy.(p_password) true proxy.(p_disabled) in
    match c.(proxy_pool) with
    | [] => set_proxy_pool [proxy] c
    | _ => c
    end.

(** ** The proxy of the environment *)

Definition is_truthy (v : str) : bool :=
  match v with
  | [] => false
  | _ => one_of (to_lower v) ["1"; "true"; "yes"; "on"]
  end.

Fixpoint getenv_any_named (getenv : environment) (names : list string) : option (str * str) :=
  match names with
  | [] => None
  | name :: names' =>
      match getenv (lit name) with
      | Some (c :: v) => Some (lit name, c :: v)
      | _ => getenv_any_named getenv names'
      end
  end.

Definition socks_error (scheme_lc env_name : str) : exn :=
  StdExn (lit "Unsupported proxy scheme '" ++ scheme_lc ++ lit "' in environment" ++
    (if decide (env_name = []) then [] else lit " variable '" ++ env_name ++ lit "'") ++
    lit ". Only HTTP proxies are supported. Use an http:// proxy, or pass --ignore-env-proxy.").

(** The credentials before the last at sign. *)
Definition split_auth (raw : str) : str * str :=
  match rfind_char "@" raw with
  | Some i => (take i raw, drop (S i) raw)
  | None => ([], raw)
  end.

Definition user_and_password (auth_part : str) : str * str :=
  match find_char ":" auth_part with
  | Some colon => (take colon auth_part, drop (S colon) auth_part)
  | None => (auth_part, [])
  end.

(** [host[:port]], with a literal IPv6 address in brackets. *)
Definition host_and_port (host_part : str) : option (str * str) :=
  if decide (head host_part = Some "["%char) then
    match find_char "]" host_part with
    | None => None
    | Some rb =>
        Some (substr host_part 1 (rb - 1),
              if bool_decide (host_part !! (rb + 1) = Some ":"%char) then substr_from host_part (rb + 2) else [])
    end
  else
    match rfind_char ":" host_part with
    | Some colon =>
        if (colon + 1 <? length host_part)%nat then Some (take colon host_part, drop (S colon) host_part)
        else Some (host_part, [])
    | None => Some (host_part, [])
    end.

Definition parse_authority (raw : str) : option ProxySetting :=
  let raw := match find_char "/" raw with Some slash => take slash raw | None => raw end in
  let '(auth_part, host_part) := split_auth raw in
  let '(username, password) := user_and_password auth_part in
  match host_and_port host_part with
  | None => None
  | Some (host, port) =>
      if decide (host = []) then None
      else Some (mkProxy host (if decide (port = []) then lit "80" else port) username password false false)
  end.

Definition parse_proxy_env_value (raw env_name_for_error : str) : throws (option ProxySetting) :=
  let raw := rtrim_by is_ws (ltrim_by is_ws raw) in
  if decide (raw = []) then inr None
  else
    match find_sub (lit "://") raw with
    | Some pos =>
        let scheme_lc := to_lower (substr raw 0 pos) in
        if starts_with (lit "socks") scheme_lc then inl (socks_error scheme_lc env_name_for_error)
        else inr (parse_authority (drop (pos + 3) raw))
    | None => inr (parse_authority raw)
    end.

(** ** The provider *)

Record Provider := mkProvider {
  configs_ : gmap str HttpclientConfig;
  ordered_names_ : list str;
  default_name_ : str;
}.

Definition proxy_variables : list string :=
  ["HTTPS_PROXY"; "https_proxy"; "HTTP_PROXY"; "http_proxy"; "ALL_PROXY"; "all_proxy"].

Definition known_keys : list string :=
  ["threads_num"; "ssl_method"; "verify_paths"; "certificates"; "certificate_files"; "proxy_pool"].

Definition looks_like_single_config (jo : jobject) : bool :=
  existsb (fun key => obj_contains (lit key) jo) known_keys.

Section provider.
Context `{JsonLib}.
Context (getenv : environment).

Fixpoint parse_entries (root : jobject) (p : Provider) : throws Provider :=
  match root with
  | [] => inr p
  | (k, v) :: root' =>
      match v with
      | JObject _ =>
          let key := c_str k in
          if decide (is_Some (p.(configs_) !! key))
          then inl (StdExn (lit "Duplicate httpclient config entry: " ++ key))
          else
            let! c := to_HttpclientConfig v in
            parse_entries root' (mkProvider (<[key := c]> p.(configs_)) (p.(ordered_names_) ++ [key]) p.(default_name_))
      | _ => inl (StdExn (lit "Each httpclient config entry must be an object."))
      end
  end.

Definition parse_configs (jv : json) (p : Provider) : throws Provider :=
  match jv with
  | JObject root =>
      if looks_like_single_config root then
        let! c := to_HttpclientConfig jv in
        inr (mkProvider (match p.(configs_) !! lit "default" with
                         | Some _ => p.(configs_) | None => <[lit "default" := c]> p.(configs_) end)
               (p.(ordered_names_) ++ [lit "default"]) (lit "default"))
      else
        let! p1 := parse_entries root p in
        if decide (p1.(configs_) = ∅) then inl (StdExn (lit "No httpclient configurations provided."))
        else
          match p1.(configs_) !! lit "default" with
          | Some _ => inr (mkProvider p1.(configs_) p1.(ordered_names_) (lit "default"))
          | None =>
              match p1.(ordered_names_) with
              | n :: _ => inr (mkProvider p1.(configs_) p1.(ordered_names_) n)
              | [] => inl OtherExn
              end
          end
  | _ => inl (StdExn (lit "Httpclient config root must be an object (map of profiles)."))
  end.

Definition inherit_env_proxy_if_enabled (cli : smap) (p : Provider) : throws Provider :=
  if match cli !! lit "ignore_env_proxy" with Some v => is_truthy v | None => false end then inr p
  else
    match getenv_any_named getenv proxy_variables with
    | None => inr p
    | Some (name, value) =>
        let! proxy_opt := parse_proxy_env_value value name in
        match proxy_opt with
        | None => inr p
        | Some proxy =>
            inr (mkProvider (inherit_env_proxy_if_empty proxy <$> p.(configs_)) p.(ordered_names_) p.(default_name_))
        end
    end.

(** The constructor, given what the sources hold for [httpclient_config]. *)
Definition new_provider (content : throws (Result json Error)) (cli properties : smap) : throws Provider :=
  let! r := content in
  match r with
  | Err e => inl (StdExn (lit "Failed to load HTTP client config: " ++ e.(what)))
  | Ok jv =>
      let! p := parse_configs (substitue_envs getenv cli properties jv) (mkProvider ∅ [] []) in
      inherit_env_proxy_if_enabled cli p
  end.
End provider.

(** [get()], [get(name)], [names()]. *)
Definition get_named (name : str) (p : Provider) : throws HttpclientConfig :=
  match p.(configs_) !! name with
  | Some c => inr c
  | None => inl (StdExn (lit "Unknown httpclient config profile: " ++ name))
  end.
Definition get_default (p : Provider) : throws HttpclientConfig :=
  match p.(configs_) !! p.(default_name_) with
  | Some c => inr c
  | None => inl (StdExn (lit "unordered_map::at"))
  end.
Definition names (p : Provider) : list str := p.(ordered_names_).

(** ** The environment's proxy is read as written *)

Record proxy_url := mkProxyUrl {
  u_scheme : option str;
  u_auth : option (str * option str);
  u_host : str;
  u_ipv6 : bool;
  u_port : option str;
  u_path : option str;
}.

Definition print_auth (a : option (str * option str)) : str :=
  match a with
  | Some (user, Some password) => user ++ lit ":" ++ password ++ lit "@"
  | Some (user, None) => user ++ lit "@"
  | None => []
  end.
Definition print_host (u : proxy_url) : str :=
  (if u.(u_ipv6) then lit "[" ++ u.(u_host) ++ lit "]" else u.(u_host)) ++
  match u.(u_port) with Some port => lit ":" ++ port | None => [] end.
Definition print_authority (u : proxy_url) : str :=
  print_auth u.(u_auth) ++ print_host u ++
  match u.(u_path) with Some path => lit "/" ++ path | None => [] end.
Definition print_url (u : proxy_url) : str :=
  match u.(u_scheme) with Some scheme => scheme ++ lit "://" | None => [] end ++ print_authority u.

Definition auth_ok (a : option (str * option str)) : Prop :=
  match a with
  | Some (user, password) => "/"%char ∉ user /\ ":"%char ∉ user /\ "/"%char ∉ default [] password
  | None => True
  end.
Definition host_ok (u : proxy_url) : Prop :=
  u.(u_host) <> [] /\ "/"%char ∉ u.(u_host) /\ "@"%char ∉ u.(u_host) /\
  if u.(u_ipv6) then "]"%char ∉ u.(u_host)
  else ":"%char ∉ u.(u_host) /\ head u.(u_host) <> Some "["%char.
Definition port_ok (u : proxy_url) : Prop :=
  match u.(u_port) with
  | Some port => port <> [] /\ "/"%char ∉ port /\ "@"%char ∉ port /\ (u.(u_ipv6) = false -> ":"%char ∉ port)
  | None => True
  end.
Definition scheme_ok (u : proxy_url) : Prop :=
  match u.(u_scheme) with
  | Some scheme => ":"%char ∉ scheme /\ starts_with (lit "socks") (to_lower scheme) = false
  | None => forall a b, print_authority u <> a ++ lit "://" ++ b
  end.

Lemma find_char_first c a b : c ∉ a -> find_char c (a ++ c :: b) = Some (length a).
Proof.
  intros Ha. unfold find_char. rewrite find_index_from_app; [done| |by rewrite bool_decide_true].
  apply forallb_forall. intros d Hd. rewrite bool_decide_false; [done|]. intros ->.
  by apply Ha, list_elem_of_In.
Qed.

Lemma find_char_absent c a : c ∉ a -> find_char c a = None.
Proof.
  intros Ha. unfold find_char. apply find_index_from_None, forallb_forall. intros d Hd.
  rewrite bool_decide_false; [done|]. intros ->. by apply Ha, list_elem_of_In.
Qed.

Lemma rfind_char_absent c a : c ∉ a -> rfind_char c a = None.
Proof.
  induction a as [|d a IH]; [done|]. rewrite not_elem_of_cons. intros [Hd Ha]. simpl.
  rewrite IH by done. by rewrite bool_decide_false.
Qed.

Lemma rfind_char_last c a b : c ∉ b -> rfind_char c (a ++ c :: b) = Some (length a).
Proof.
  intros Hb. induction a as [|d a IH]; simpl.
  - rewrite rfind_char_absent by done. by rewrite bool_decide_true.
  - by rewrite IH.
Qed.

Lemma drop_S_app_length {A} (a b : list A) x : drop (S (length a)) (a ++ x :: b) = b.
Proof.
  change (x :: b) with ([x] ++ b). rewrite app_assoc. apply drop_app_length'. rewrite length_app. simpl. lia.
Qed.

(** The character [c] cuts a text at its first occurrence. *)
Lemma take_at c a rest :
  c ∉ a -> (rest = [] \/ exists b, rest = c :: b) ->
  match find_char c (a ++ rest) with Some i => take i (a ++ rest) | None => a ++ rest end = a.
Proof.
  intros Ha [->|[b ->]].
  - by rewrite app_nil_r, find_char_absent.
  - rewrite find_char_first by done. by rewrite take_app_length.
Qed.

Lemma host_and_port_correct u :
  host_ok u -> port_ok u -> host_and_port (print_host u) = Some (u.(u_host), default [] u.(u_port)).
Proof.
  destruct u as [sch au host v6 port path]. unfold host_ok, port_ok, print_host, host_and_port; simpl.
  intros (Hne & _ & _ & Hv) Hp. destruct v6.
  - rewrite decide_True by (by destruct port).
    set (pt := match port with Some p => _ | None => [] end).
    assert (Hs : ("["%char :: host ++ ["]"%char]) ++ pt = ("["%char :: host) ++ "]"%char :: pt)
      by (simpl; by rewrite <- app_assoc).
    rewrite Hs, find_char_first by (apply not_elem_of_cons; done).
    f_equal. f_equal.
    + unfold substr. change (drop 1 (("["%char :: host) ++ "]"%char :: pt)) with (host ++ "]"%char :: pt).
      apply take_app_length'. simpl. lia.
    + replace (length ("["%char :: host) + 1) with (S (length ("["%char :: host))) by lia.
      replace (length ("["%char :: host) + 2) with (S (S (length ("["%char :: host)))) by lia.
      rewrite lookup_app_r by lia. rewrite Nat.sub_succ_l, Nat.sub_diag by lia. unfold substr_from.
      rewrite drop_app_ge by lia. rewrite !Nat.sub_succ_l, Nat.sub_diag by lia.
      unfold pt. destruct port as [port|]; [|done]. simpl. by rewrite drop_0.
  - destruct Hv as [Hc Hh]. destruct host as [|h host]; [done|]. rewrite decide_False by done.
    destruct port as [port|]; simpl (default _ _).
    + destruct Hp as (Hpn & _ & _ & Hpc). change (lit ":" ++ port) with (":"%char :: port).
      rewrite rfind_char_last by auto. rewrite (proj2 (Nat.ltb_lt _ _)).
      2:{ rewrite length_app. destruct port; [done|]. simpl. lia. }
      f_equal. f_equal; [by rewrite take_app_length|].
      change (":"%char :: port) with ([":"%char] ++ port). rewrite app_assoc.
      apply drop_app_length'. rewrite length_app. simpl. lia.
    + by rewrite app_nil_r, rfind_char_absent.
Qed.

Lemma print_host_no u c : host_ok u -> port_ok u -> c = "/"%char \/ c = "@"%char -> c ∉ print_host u.
Proof.
  unfold host_ok, port_ok, print_host. intros (_ & Hh1 & Hh2 & _) Hp Hc. rewrite not_elem_of_app. split.
  - assert (c ∉ u_host u) by (destruct Hc; by subst).
    destruct (u_ipv6 u); [|done]. rewrite !not_elem_of_app. split_and!; [|done|];
      intros Hin; apply list_elem_of_singleton in Hin; destruct Hc; by subst.
  - destruct (u_port u) as [port|]; [|apply not_elem_of_nil]. destruct Hp as (_ & Hp1 & Hp2 & _).
    rewrite not_elem_of_app. split; [intros Hin; apply list_elem_of_singleton in Hin|]; destruct Hc; by subst.
Qed.

Lemma print_auth_no_slash a : auth_ok a -> "/"%char ∉ print_auth a.
Proof.
  assert (Hl : forall d, d <> "/"%char -> "/"%char ∉ [d]).
  { intros d Hd Hin. apply list_elem_of_singleton in Hin. congruence. }
  destruct a as [[user [password|]]|]; unfold auth_ok, print_auth; [| |intros _; apply not_elem_of_nil].
  - intros (H1 & _ & H2). rewrite !not_elem_of_app. split_and!; [done|by apply Hl|done|by apply Hl].
  - intros (H1 & _ & _). rewrite !not_elem_of_app. split_and!; [done|by apply Hl].
Qed.

Lemma split_auth_correct u :
  auth_ok u.(u_auth) -> host_ok u -> port_ok u ->
  let '(auth, host) := split_auth (print_auth u.(u_auth) ++ print_host u) in
  host = print_host u /\
  user_and_password auth = (from_option fst [] u.(u_auth), default [] (u.(u_auth) ≫= snd)).
Proof.
  intros Ha Hh Hp. pose proof (print_host_no u "@" Hh Hp (or_intror eq_refl)) as Hat.
  unfold split_auth, user_and_password. destruct (u_auth u) as [[user [password|]]|]; simpl in *.
  - destruct Ha as (_ & Hc & _).
    replace ((user ++ ":"%char :: password ++ ["@"%char]) ++ print_host u)
      with ((user ++ ":"%char :: password) ++ "@"%char :: print_host u)
      by (rewrite <- !app_assoc; simpl; by rewrite <- app_assoc).
    rewrite rfind_char_last by done. rewrite take_app_length.
    rewrite drop_S_app_length. split; [done|]. rewrite find_char_first by done.
    by rewrite take_app_length, drop_S_app_length.
  - destruct Ha as (_ & Hc & _). rewrite <- app_assoc. change (["@"%char] ++ print_host u) with ("@"%char :: print_host u).
    rewrite rfind_char_last by done. rewrite take_app_length, drop_S_app_length.
    split; [done|]. by rewrite find_char_absent.
  - rewrite rfind_char_absent by done. done.
Qed.

Lemma print_host_nonempty u : host_ok u -> print_host u <> [].
Proof.
  intros (Hne & _) E. unfold print_host in E. apply app_nil in E as [E _]. by destruct (u_ipv6 u).
Qed.

Lemma parse_authority_correct u :
  auth_ok u.(u_auth) -> host_ok u -> port_ok u ->
  parse_authority (print_authority u) =
    Some (mkProxy u.(u_host) (default (lit "80") u.(u_port)) (from_option fst [] u.(u_auth))
            (default [] (u.(u_auth) ≫= snd)) false false).
Proof.
  intros Ha Hh Hp. unfold parse_authority, print_authority. rewrite app_assoc.
  rewrite take_at.
  2:{ rewrite not_elem_of_app. split; [by apply print_auth_no_slash|]. apply print_host_no; auto. }
  2:{ destruct (u_path u); [right; by eexists|by left]. }
  pose proof (split_auth_correct u Ha Hh Hp) as Hs.
  destruct (split_auth _) as [auth host]. destruct Hs as [-> ->].
  rewrite host_and_port_correct by done. rewrite decide_False by (by destruct Hh).
  unfold port_ok in Hp. destruct (u_port u) as [port|]; [|done]. simpl. rewrite decide_False; [done|].
  by destruct Hp.
Qed.

Lemma find_scheme scheme rest :
  ":"%char ∉ scheme -> find_sub (lit "://") (scheme ++ lit "://" ++ rest) = Some (length scheme).
Proof.
  intros Hs. unfold find_sub. destruct (find_sub_from (lit "://") 0 (scheme ++ lit "://" ++ rest)) as [j|] eqn:E.
  - pose proof (find_sub_from_leftmost _ _ _ _ E scheme rest eq_refl) as Hj.
    apply find_sub_from_Some in E as (a & b & E & ->). f_equal. simpl.
    destruct (decide (length a < length scheme)) as [Hlt|]; [|simpl in Hj; lia]. exfalso.
    assert (Hc : (scheme ++ lit "://" ++ rest) !! length a = Some ":"%char).
    { rewrite E. by apply list_lookup_middle. }
    rewrite lookup_app_l in Hc by done. by apply list_elem_of_lookup_2 in Hc.
  - by destruct (find_sub_from_None _ _ _ E scheme rest).
Qed.

(** C31: A proxy written in the environment as a URL - a scheme that is not
    SOCKS or none, credentials with a password or without, a host name, an IPv4
    or a bracketed IPv6 address, a port, a path, white space around - is read as
    those parts: the password may hold colons and at signs, a missing port is
    80, and the path is dropped. *)
Theorem proxy_env_roundtrip (u : proxy_url) (before after env_name : str) :
  auth_ok u.(u_auth) -> host_ok u -> port_ok u -> scheme_ok u ->
  rtrim_by is_ws (ltrim_by is_ws (before ++ print_url u ++ after)) = print_url u ->
  parse_proxy_env_value (before ++ print_url u ++ after) env_name =
    inr (Some (mkProxy u.(u_host) (default (lit "80") u.(u_port)) (from_option fst [] u.(u_auth))
                 (default [] (u.(u_auth) ≫= snd)) false false)).
Proof.
  intros Ha Hh Hp Hs Htrim. unfold parse_proxy_env_value. rewrite Htrim. clear Htrim.
  assert (Hne : print_url u <> []).
  { unfold print_url, print_authority. intros E. apply app_nil in E as [_ E].
    apply app_nil in E as [_ E]. apply app_nil in E as [E _]. by apply (print_host_nonempty u). }
  rewrite decide_False by done. unfold print_url, scheme_ok in *. destruct (u_scheme u) as [scheme|].
  - destruct Hs as [Hc Hso]. rewrite <- app_assoc. rewrite find_scheme by done.
    unfold substr. rewrite drop_0, take_app_length, Hso. f_equal.
    rewrite app_assoc. rewrite drop_app_length' by (rewrite length_app; done).
    by apply parse_authority_correct.
  - rewrite app_nil_l. destruct (find_sub _ _) as [j|] eqn:E.
    + apply find_sub_from_Some in E as (a & b & E & _). by destruct (Hs a b).
    + f_equal. by apply parse_authority_correct.
Qed.

Lemma proxy_env_roundtrip_witness :
  parse_proxy_env_value (lit " http://user:p:w@[::1]:8080/x ") (lit "HTTP_PROXY") =
    inr (Some (mkProxy (lit "::1") (lit "8080") (lit "user") (lit "p:w") false false)).
Proof.
  apply (proxy_env_roundtrip
    (mkProxyUrl (Some (lit "http")) (Some (lit "user", Some (lit "p:w"))) (lit "::1") true (Some (lit "8080")) (Some (lit "x")))
    (lit " ") (lit " ") (lit "HTTP_PROXY"));
    repeat split; try (by vm_compute); try (apply (bool_decide_unpack (¬ _)); vm_compute; exact I).
Defined.

(** A port left empty stays in the host. *)
Lemma proxy_env_empty_port :
  parse_proxy_env_value (lit "http://proxy:/") [] =
    inr (Some (mkProxy (lit "proxy:") (lit "80") [] [] false false)).
Proof. by vm_compute. Qed.

(** ** A provider that was constructed can be used *)

Definition proxy_usable (p : ProxySetting) : Prop :=
  p.(p_disabled) = false /\
  (p.(p_from_env) = true \/
   (has_unresolved_env p.(p_username) = false /\ has_unresolved_env p.(p_password) = false)).

Definition config_ok (c : HttpclientConfig) : Prop :=
  (0 <= c.(threads_num) <= INT_MAX)%Z /\ Forall proxy_usable c.(proxy_pool).

Definition provider_ok (p : Provider) : Prop :=
  (forall n c, p.(configs_) !! n = Some c -> config_ok c) /\
  (forall n, n ∈ p.(ordered_names_) <-> is_Some (p.(configs_) !! n)) /\
  NoDup p.(ordered_names_).

Section ready.
Context `{JsonLibLaws}.

Lemma usable_proxies_ok l : Forall proxy_usable (usable_proxies l).
Proof.
  apply Forall_forall. intros p Hp. apply list_elem_of_In in Hp. unfold usable_proxies in Hp.
  apply filter_In in Hp as [Hp Hu]. apply filter_In in Hp as [_ Hd].
  apply negb_true_iff in Hu. apply orb_false_iff in Hu as [? ?]. apply negb_true_iff in Hd.
  split; auto.
Qed.

Lemma to_HttpclientConfig_ok jv c : to_HttpclientConfig jv = inr c -> config_ok c.
Proof.
  unfold to_HttpclientConfig, catch_std. destruct (read_HttpclientConfig jv) as [[]|c'] eqn:E; try done.
  intros [= <-]. unfold read_HttpclientConfig in E. destruct jv as [| | | | | | |jo]; try done.
  destruct (optional_at "ssl_method" jo _ _) as [|method]; [done|].
  destruct (let! v := at_key _ _ in _) as [|threads] eqn:Et; [done|].
  destruct (Z.ltb_spec threads 0) as [|Hpos]; [done|].
  destruct (optional_at "verify_paths" jo _ _); [done|].
  destruct (optional_at "insecure_skip_verify" jo _ _); [done|].
  destruct (optional_at "certificates" jo _ _); [done|].
  destruct (optional_at "certificate_files" jo _ _); [done|].
  destruct (optional_at "proxy_pool" jo _ _) as [|pool]; [done|]. injection E as <-.
  split; [|apply usable_proxies_ok]. cbn [threads_num].
  destruct (at_key _ _) as [|v]; [done|]. destruct (to_number_int v) as [|z] eqn:Ez; [done|].
  injection Et as ->. apply to_number_int_range in Ez. unfold in_int32 in Ez. lia.
Qed.

Lemma parse_entries_ok root : forall p p',
  provider_ok p -> parse_entries root p = inr p' -> provider_ok p'.
Proof.
  induction root as [|[k v] root IH]; intros p p' (Hc & Hn & Hd); [by intros [= <-]|].
  cbn [parse_entries]. destruct v as [| | | | | | |m]; try done. case_decide as Hdup; [done|].
  destruct (to_HttpclientConfig _) as [|c] eqn:Ec; [done|]. apply IH.
  unfold provider_ok; cbn [configs_ ordered_names_]. split_and!.
  - intros n c'. destruct (decide (n = c_str k)) as [->|Hne].
    + rewrite lookup_insert, decide_True by done. intros [= <-]. by eapply to_HttpclientConfig_ok.
    + rewrite lookup_insert_ne by done. apply Hc.
  - intros n. rewrite elem_of_app, list_elem_of_singleton, Hn, lookup_insert_is_Some. 
    destruct (decide (n = c_str k)) as [->|]; naive_solver.
  - apply NoDup_app. split_and!; [done| |apply NoDup_singleton].
    intros n Hin. rewrite list_elem_of_singleton. intros ->. by apply Hdup, Hn.
Qed.

Lemma parse_configs_ok jv p :
  parse_configs jv (mkProvider ∅ [] []) = inr p ->
  provider_ok p /\ is_Some (p.(configs_) !! p.(default_name_)) /\
  (is_Some (p.(configs_) !! lit "default") -> p.(default_name_) = lit "default").
Proof.
  assert (Hempty : provider_ok (mkProvider ∅ [] [])).
  { split_and!; simpl; [intros n c; by rewrite lookup_empty| |constructor].
    intros n. rewrite lookup_empty. split; [by intros ?%not_elem_of_nil|by intros []]. }
  unfold parse_configs. destruct jv as [| | | | | | |root]; try done. destruct (looks_like_single_config root).
  - destruct (to_HttpclientConfig _) as [|c] eqn:Ec; [done|]. cbn [configs_ ordered_names_]. rewrite lookup_empty. intros Hp.
    apply (inj inr) in Hp. subst p.
    cbn [configs_ default_name_].
    rewrite lookup_insert, decide_True by done. split_and!; [split_and!| |done].
    + intros n c'. cbn [configs_]. destruct (decide (n = lit "default")) as [->|Hne].
      * rewrite lookup_insert, decide_True by done. intros [= <-]. by eapply to_HttpclientConfig_ok.
      * by rewrite lookup_insert_ne, lookup_empty.
    + intros n. cbn [configs_ ordered_names_]. rewrite app_nil_l, list_elem_of_singleton, lookup_insert_is_Some, lookup_empty.
      split; [intros ->; by left|]. intros [->|[_ []]]; done.
    + apply NoDup_singleton.
    + by eexists.
  - destruct (parse_entries root _) as [|p1] eqn:Ep; [done|].
    pose proof (parse_entries_ok _ _ _ Hempty Ep) as Hok. case_decide as He; [done|].
    destruct (configs_ p1 !! lit "default") as [c|] eqn:Ed.
    + intros Hp. apply (inj inr) in Hp. subst p. split; [exact Hok|]. cbn [configs_ default_name_].
      rewrite Ed. split; [by eexists|done].
    + destruct (ordered_names_ p1) as [|n ns] eqn:En; [done|]. intros [= <-].
      destruct Hok as (Hc & Hn & Hd). rewrite En in Hn, Hd.
      split; [split_and!; [exact Hc|exact Hn|exact Hd]|]. cbn [configs_ default_name_]. rewrite Ed.
      split; [|by intros []]. apply Hn. by left.
Qed.

Lemma inherit_ok proxy c : config_ok c -> config_ok (inherit_env_proxy_if_empty proxy c).
Proof.
  intros [Ht Hp]. unfold inherit_env_proxy_if_empty. destruct (p_disabled proxy) eqn:Ed; [done|].
  destruct (proxy_pool c) eqn:E; [|split; [done|by rewrite E]]. split; [done|]. cbn.
  constructor; [|constructor]. split; [done|by left].
Qed.

(** What the constructor establishes. *)
Lemma new_provider_ok getenv content cli properties p :
  new_provider getenv content cli properties = inr p ->
  provider_ok p /\ is_Some (p.(configs_) !! p.(default_name_)) /\
  (is_Some (p.(configs_) !! lit "default") -> p.(default_name_) = lit "default").
Proof.
  unfold new_provider. destruct content as [|[jv|e]]; [done| |done].
  destruct (parse_configs _ _) as [|p0] eqn:Ep; [done|].
  apply parse_configs_ok in Ep as (Hok & Hdef & Hname). unfold inherit_env_proxy_if_enabled.
  destruct (match cli !! _ with Some v => is_truthy v | None => false end); [by intros [= <-]|].
  destruct (getenv_any_named _ _) as [[name value]|]; [|by intros [= <-]].
  destruct (parse_proxy_env_value _ _) as [|[proxy|]]; [done| |by intros [= <-]].
  intros [= <-]. destruct Hok as (Hc & Hn & Hd). unfold provider_ok; cbn [configs_ ordered_names_ default_name_].
  rewrite !lookup_fmap, !fmap_is_Some. split_and!; try done.
  - intros n c. rewrite lookup_fmap. destruct (configs_ p0 !! n) eqn:E; [|done]. intros [= <-].
    apply inherit_ok. by eapply Hc.
  - intros n. by rewrite Hn, lookup_fmap, fmap_is_Some.
Qed.

Lemma get_named_names p n : provider_ok p -> n ∈ names p <-> exists c, get_named n p = inr c.
Proof.
  intros (_ & Hn & _). unfold get_named, names. rewrite Hn.
  destruct (configs_ p !! n); split; intros [? Hx]; try discriminate; by eexists.
Qed.

Lemma get_named_ok p n c : provider_ok p -> get_named n p = inr c -> config_ok c.
Proof.
  intros (Hc & _) Hg. unfold get_named in Hg. destruct (configs_ p !! n) eqn:E; simplify_eq. by eapply Hc.
Qed.

Lemma get_default_named p : is_Some (p.(configs_) !! p.(default_name_)) ->
  exists c, get_default p = inr c /\ get_named p.(default_name_) p = inr c.
Proof. intros [c Hc]. exists c. unfold get_default, get_named. by rewrite Hc. Qed.

(** C29: A configuration provider that was constructed is usable: the default
    profile is there - the one called [default] if there is one -, exactly the
    names it lists are there, each once, and in every profile the number of
    threads is a non-negative [int] and no proxy is disabled or, unless it comes
    from the environment, has a placeholder left in its credentials. *)
Theorem provider_ready (getenv : environment) (content : throws (Result json Error)) (cli properties : smap)
    (p : Provider) :
  new_provider getenv content cli properties = inr p ->
  (exists c, get_default p = inr c) /\
  (forall n, n ∈ names p <-> exists c, get_named n p = inr c) /\ NoDup (names p) /\
  (lit "default" ∈ names p -> p.(default_name_) = lit "default") /\
  (forall n c, get_named n p = inr c -> config_ok c).
Proof.
  intros (Hok & Hdef & Hname)%new_provider_ok. pose proof Hok as (_ & Hn & Hd). split_and!.
  - destruct (get_default_named p Hdef) as (c & Hc & _). by exists c.
  - intros n. by apply get_named_names.
  - done.
  - by rewrite Hn.
  - intros n c. by apply get_named_ok.
Qed.

Lemma get_threads_num_bounds hw c :
  (0 <= hw)%Z -> config_ok c -> (0 <= get_threads_num hw c <= hw)%Z.
Proof.
  intros Hhw [Ht _]. unfold get_threads_num. destruct (Z.eqb_spec (threads_num c) 0); [lia|].
  destruct (Z.ltb_spec hw (threads_num c)); lia.
Qed.
End ready.

Definition demo_json : json :=
  JObject [(lit "threads_num", JInt64 2);
           (lit "proxy_pool", JArray [JObject [(lit "host", JString (lit "p")); (lit "port", JInt64 3128);
              (lit "username", JString (lit "${U}")); (lit "password", JString [])]])].
Definition demo_env (name : str) : option str :=
  if decide (name = lit "http_proxy") then Some (lit "http://e") else None.

Lemma provider_ready_witness :
  exists p c, new_provider (H := BinaryJson.lib) demo_env (inr (Ok demo_json)) ∅ ∅ = inr p /\
    get_default p = inr c /\ config_ok c /\ c.(proxy_pool) = [mkProxy (lit "e") (lit "80") [] [] true false].
Proof.
  assert (Hp : exists p, new_provider (H := BinaryJson.lib) demo_env (inr (Ok demo_json)) ∅ ∅ = inr p).
  { eexists. vm_compute. reflexivity. }
  destruct Hp as [p Hp].
  destruct (provider_ready (H := BinaryJson.lib) (H0 := BinaryJson.laws) _ _ _ _ _ Hp) as ([c Hc] & _ & _ & _ & Hall).
  exists p, c. split_and!; [exact Hp|exact Hc| |].
  - apply (Hall p.(default_name_)). unfold get_default, get_named in *.
    destruct (configs_ p !! default_name_ p); [exact Hc|discriminate].
  - vm_compute in Hp. injection Hp as <-. vm_compute in Hc. injection Hc as <-. reflexivity.
Defined.
