(* ===== verification/SslContext.v ===== *)
(** * The TLS context of the client ([src/include/client_ssl_ctx.hpp])

    The constructor of [ClientSSLContext] as the calls it makes on the context.
    What a call throws is the TLS library's business: a parameter.  On the platform
    of the model [load_platform_root_certificates] does nothing; the Windows
    version ([src/src/client_ssl_ctx.cpp]) only talks to the system's store. *)

From Stdlib Require Import ZArith Lia Ascii String.
From stdpp Require Import base list gmap strings.
From S2P Require Import Prelude Json ConfigProvider.

Inductive ssl_call :=
  | SetVerifyMode (peer : bool)
  | SetDefaultVerifyPaths
  | AddVerifyPath (path : str)
  | LoadVerifyFile (path : str)
  | AddCertificateAuthority (pem : str).
#[export] Instance ssl_call_eq_dec : EqDecision ssl_call.
Proof. solve_decision. Defined.

(** The context: its method and the calls made on it. *)
Record ssl_context := mkSslContext { x_method : ssl_method; x_calls : list ssl_call }.

Section context.
(** What a call throws, if it fails. *)
Context (call_fails : ssl_call -> option str).

Definition on_context (c : ssl_call) (x : ssl_context) : throws ssl_context :=
  match call_fails c with
  | Some e => inl (StdExn e)
  | None => inr (mkSslContext x.(x_method) (x.(x_calls) ++ [c]))
  end.

(** A [for] loop with one call per item it keeps. *)
Fixpoint for_calls {A} (call : A -> option ssl_call) (l : list A) (x : ssl_context) : throws ssl_context :=
  match l with
  | [] => inr x
  | a :: l' =>
      match call a with
      | Some c => let! x' := on_context c x in for_calls call l' x'
      | None => for_calls call l' x
      end
  end.

Definition file_call (f : HttpclientCertificateFile) : option ssl_call :=
  match f.(cert_path) with [] => None | _ => Some (LoadVerifyFile f.(cert_path)) end.
Definition certificate_call (c : HttpclientCertificate) : option ssl_call :=
  match c.(cert_content) with [] => None | _ => Some (AddCertificateAuthority c.(cert_content)) end.

Definition load_platform_root_certificates (x : ssl_context) : ssl_context := x.

Definition new_ClientSSLContext (cfg : HttpclientConfig) : throws ssl_context :=
  let x := mkSslContext cfg.(ssl_method_) [] in
  if cfg.(insecure_skip_verify) then on_context (SetVerifyMode false) x
  else
    let! x := if cfg.(default_verify_path) then on_context SetDefaultVerifyPaths x else inr x in
    let! x := for_calls (fun p => Some (AddVerifyPath p)) cfg.(verify_paths) x in
    let! x := for_calls file_call cfg.(certificate_files) x in
    let! x := for_calls certificate_call cfg.(certificates) x in
    let! x := on_context (SetVerifyMode true) x in
    inr (load_platform_root_certificates x).

Definition add_certificate_authority (pem_str : str) (x : ssl_context) : throws ssl_context :=
  match pem_str with
  | [] => inl (StdExn (lit "Certificate authority string is empty."))
  | _ => on_context (AddCertificateAuthority pem_str) x
  end.

(** ** The context verifies the server *)

(** The mode the last [set_verify_mode] leaves; [verify_none] is the default. *)
Fixpoint verify_mode (calls : list ssl_call) (mode : bool) : bool :=
  match calls with
  | [] => mode
  | SetVerifyMode peer :: calls' => verify_mode calls' peer
  | _ :: calls' => verify_mode calls' mode
  end.

(** What the configuration asks to trust, in the order of the constructor. *)
Definition trust_calls (cfg : HttpclientConfig) : list ssl_call :=
  (if cfg.(default_verify_path) then [SetDefaultVerifyPaths] else []) ++
  map AddVerifyPath cfg.(verify_paths) ++
  omap file_call cfg.(certificate_files) ++ omap certificate_call cfg.(certificates).

Definition wanted_calls (cfg : HttpclientConfig) : list ssl_call :=
  if cfg.(insecure_skip_verify) then [SetVerifyMode false] else trust_calls cfg ++ [SetVerifyMode true].

(** Several calls in a row: the first that fails is the exception. *)
Fixpoint do_calls (l : list ssl_call) (x : ssl_context) : throws ssl_context :=
  match l with
  | [] => inr x
  | c :: l' => let! x' := on_context c x in do_calls l' x'
  end.

Lemma do_calls_app l1 l2 x : do_calls (l1 ++ l2) x = let! x' := do_calls l1 x in do_calls l2 x'.
Proof.
  revert x. induction l1 as [|c l1 IH]; intros x; simpl; [done|].
  destruct (on_context c x); simpl; [done|apply IH].
Qed.

Lemma for_calls_do {A} (call : A -> option ssl_call) l x : for_calls call l x = do_calls (omap call l) x.
Proof.
  revert x. induction l as [|a l IH]; intros x; simpl; [done|].
  destruct (call a) as [c|]; simpl; [|apply IH]. destruct (on_context c x); simpl; [done|apply IH].
Qed.

Lemma omap_total {A B} (f : A -> B) l : omap (fun a => Some (f a)) l = map f l.
Proof. induction l as [|a l IH]; csimpl; congruence. Qed.

Lemma new_ClientSSLContext_calls cfg :
  new_ClientSSLContext cfg = do_calls (wanted_calls cfg) (mkSslContext cfg.(ssl_method_) []).
Proof.
  unfold new_ClientSSLContext, wanted_calls, trust_calls, load_platform_root_certificates.
  destruct (insecure_skip_verify cfg); simpl; [by destruct (on_context _ _)|].
  rewrite <- !app_assoc, !do_calls_app.
  destruct (default_verify_path cfg); simpl; [destruct (on_context _ _) as [|x]; simpl; [done|]|];
    rewrite for_calls_do, omap_total, do_calls_app;
    destruct (do_calls (map _ _) _) as [|x1]; simpl; try done; rewrite for_calls_do, do_calls_app;
    destruct (do_calls (omap file_call _) _) as [|x2]; simpl; try done; rewrite for_calls_do, do_calls_app;
    destruct (do_calls (omap certificate_call _) _) as [|x3]; simpl; try done; by destruct (on_context _ _).
Qed.

Lemma do_calls_inr l x x' :
  do_calls l x = inr x' ->
  Forall (fun c => call_fails c = None) l /\ x' = mkSslContext x.(x_method) (x.(x_calls) ++ l).
Proof.
  revert x. induction l as [|c l IH]; intros x; simpl.
  - intros [= <-]. rewrite app_nil_r. by destruct x.
  - unfold on_context. destruct (call_fails c) eqn:Hc; simpl; [done|]. intros Hl.
    destruct (IH _ Hl) as [Hf ->]. simpl. rewrite <- app_assoc. by split; [constructor|].
Qed.

Lemma do_calls_inl l x e :
  do_calls l x = inl e -> exists c w, c ∈ l /\ call_fails c = Some w /\ e = StdExn w.
Proof.
  revert x. induction l as [|c l IH]; intros x; simpl; [done|].
  unfold on_context. destruct (call_fails c) as [w|] eqn:Hc; simpl.
  - intros [= <-]. exists c, w. split; [apply list_elem_of_here|done].
  - intros Hl. destruct (IH _ Hl) as (c' & w & Hin & Hw). exists c', w. split; [by apply list_elem_of_further|done].
Qed.

Lemma verify_mode_snoc l b mode : verify_mode (l ++ [SetVerifyMode b]) mode = b.
Proof. revert mode. induction l as [|c l IH]; intros mode; [done|]. by destruct c; simpl. Qed.

(** The context is secure unless the configuration says otherwise: a
    constructed context verifies its peer exactly when [insecure_skip_verify] is
    not set, and has then loaded everything the configuration trusts, in order,
    skipping only empty entries; a certificate or path that cannot be loaded makes
    the constructor throw. *)
Theorem ssl_context_verifies (cfg : HttpclientConfig) :
  match new_ClientSSLContext cfg with
  | inr x =>
      x.(x_method) = cfg.(ssl_method_) /\
      verify_mode x.(x_calls) false = negb cfg.(insecure_skip_verify) /\
      (cfg.(insecure_skip_verify) = false ->
         x.(x_calls) = trust_calls cfg ++ [SetVerifyMode true] /\
         (forall p, p ∈ cfg.(verify_paths) -> AddVerifyPath p ∈ x.(x_calls)) /\
         (forall f, f ∈ cfg.(certificate_files) -> f.(cert_path) <> [] -> LoadVerifyFile f.(cert_path) ∈ x.(x_calls)) /\
         (forall c, c ∈ cfg.(certificates) -> c.(cert_content) <> [] ->
            AddCertificateAuthority c.(cert_content) ∈ x.(x_calls)))
  | inl e => exists c w, c ∈ wanted_calls cfg /\ call_fails c = Some w /\ e = StdExn w
  end.
Proof.
  rewrite new_ClientSSLContext_calls. destruct (do_calls _ _) as [e|x] eqn:Hd; [by eapply do_calls_inl|].
  apply do_calls_inr in Hd as [_ ->]. simpl. unfold wanted_calls.
  split; [done|]. split.
  - destruct (insecure_skip_verify cfg); simpl; [done|]. apply verify_mode_snoc.
  - intros ->. split; [done|]. unfold trust_calls. split_and!.
    + intros p Hp. rewrite !elem_of_app. left. right. left. by apply list_elem_of_fmap_2.
    + intros f Hf Hne. rewrite !elem_of_app. left. right. right. left. apply list_elem_of_omap.
      exists f. split; [done|]. unfold file_call. by destruct (cert_path f).
    + intros c Hc Hne. rewrite !elem_of_app. left. right. right. right. apply list_elem_of_omap.
      exists c. split; [done|]. unfold certificate_call. by destruct (cert_content c).
Qed.

Lemma add_certificate_authority_ok pem x x' :
  add_certificate_authority pem x = inr x' -> pem <> [] /\ x'.(x_calls) = x.(x_calls) ++ [AddCertificateAuthority pem].
Proof.
  unfold add_certificate_authority, on_context. destruct pem; [done|].
  destruct (call_fails _); [done|]. by intros [= <-].
Qed.
End context.

Lemma new_ClientSSLContext_demo :
  new_ClientSSLContext (fun c => if decide (c = LoadVerifyFile (lit "/nowhere")) then Some (lit "no such file") else None)
    (mkHttpclientConfig tls_client 1 true false [] [] [mkCertificateFile [] []; mkCertificateFile (lit "/nowhere") []] [])
  = inl (StdExn (lit "no such file")).
Proof. vm_compute. reflexivity. Qed.
