(* ===== verification/IoContexts.v ===== *)
(** * Threads that run an io_context

    [IocConfig] and its provider ([src/include/ioc_manager_config_provider.hpp]),
    [IoContextManager] ([src/include/io_context_manager.hpp]), the threads of
    [HttpClientManager] ([src/include/http_client_manager.hpp]), [InFlightCounter]
    and [StopIndicator] ([src/include/in_flight_counter.hpp]).

    Threads are interleaved action by action.  Of the [io_context] the model keeps
    what its documentation says of [run], [stop] and [restart]: [run] returns when
    the context is stopped or has no work left, which stops it; an exception of a
    handler leaves [run]; [restart] clears the stopped state. *)

From Stdlib Require Import ZArith Lia Ascii String.
From stdpp Require Import base list gmap strings.
From S2P Require Import Prelude Json ResultMonad Http EnvExpand JsonUtil ProxyPool ConfigProvider.

(** ** IocConfig *)

Record IocConfig := mkIocConfig { ioc_threads : Z; ioc_name : str }.

(** The constructor with arguments checks the number; reading JSON does not. *)
Definition new_IocConfig (threads_num : Z) (name : str) : throws IocConfig :=
  if (threads_num <? 0)%Z then inl (StdExn (lit "threads_num must be non-negative"))
  else inr (mkIocConfig threads_num name).

Definition ioc_threads_num (hardware_concurrency : Z) (c : IocConfig) : Z :=
  if (c.(ioc_threads) =? 0)%Z then hardware_concurrency
  else if (hardware_concurrency <? c.(ioc_threads))%Z then hardware_concurrency else c.(ioc_threads).

(** The configuration when there is no file. *)
Definition fallback_config (hardware_concurrency : Z) : throws IocConfig :=
  let cores := Z.quot hardware_concurrency 2 in
  new_IocConfig (if (cores <? 1)%Z then 1 else cores)%Z (lit "main").

Section config.
Context `{JsonLib}.

Definition to_IocConfig (jv : json) : throws IocConfig :=
  let! t := at_key (lit "threads_num") jv in
  let! n := lift_std (to_number_int t) in
  let! obj := as_object jv in
  match obj_find (lit "name") obj with
  | Some name => let! s := as_string name in inr (mkIocConfig n s)
  | None => inr (mkIocConfig n (lit "net"))
  end.

(** [IocConfigProviderFile], given what the sources hold for [ioc_config]. *)
Definition new_ioc_provider (getenv : str -> option str) (hardware_concurrency : Z)
    (content : throws (Result json Error)) (cli properties : smap) : throws IocConfig :=
  let! r := content in
  match r with
  | Err _ => fallback_config hardware_concurrency
  | Ok jv => to_IocConfig (substitue_envs getenv cli properties jv)
  end.

Lemma ioc_threads_num_bounds hw c :
  (0 <= hw)%Z -> (0 <= c.(ioc_threads))%Z -> (0 <= ioc_threads_num hw c <= hw)%Z.
Proof.
  intros Hhw Hc. unfold ioc_threads_num. destruct (Z.eqb_spec (ioc_threads c) 0); [lia|].
  destruct (Z.ltb_spec hw (ioc_threads c)); lia.
Qed.


(** A number below zero is refused by the constructor and taken from a file. *)
Lemma negative_threads_from_json `{!JsonLibLaws} z hw :
  in_int32 z -> (z < 0)%Z -> (0 <= hw)%Z ->
  new_IocConfig z (lit "net") = inl (StdExn (lit "threads_num must be non-negative")) /\
  exists c, to_IocConfig (JObject [(lit "threads_num", JInt64 z)]) = inr c /\ ioc_threads_num hw c = z.
Proof.
  intros Hr Hz Hhw. split.
  - unfold new_IocConfig. by destruct (Z.ltb_spec z 0); [|lia].
  - exists (mkIocConfig z (lit "net")). split.
    + transitivity (let! n := lift_std (to_number_int (JInt64 z)) in inr (mkIocConfig n (lit "net"))); [reflexivity|].
      by rewrite to_number_int_ok.
    + unfold ioc_threads_num; cbn [ioc_threads]. destruct (Z.eqb_spec z 0); [lia|].
      destruct (Z.ltb_spec hw z); lia.
Qed.

(** The fallback asks for at least one thread; when the number of cores is not
    known, which is reported as 0, there is none all the same. *)
Lemma fallback_without_threads :
  exists c, fallback_config 0 = inr c /\ c.(ioc_threads) = 1%Z /\ ioc_threads_num 0 c = 0%Z.
Proof. by eexists. Qed.
End config.

(** ** IoContextManager *)

(** How [ioc_.run()] is left. *)
Inductive exit_kind := RunReturned | StdException | UnknownException.
#[export] Instance exit_kind_eq_dec : EqDecision exit_kind.
Proof. solve_decision. Defined.

(** Where a worker thread is in its loop. *)
Inductive worker :=
  | AtTop                   (** at the test of [stopped_] *)
  | InRun                   (** inside [ioc_.run()] *)
  | LeftRun (k : exit_kind) (** at the second test of [stopped_] *)
  | AtCount (k : exit_kind) (** at [restart_count_.fetch_add] *)
  | AtRestart               (** at [ioc_.restart()]; it then sleeps after an exception *)
  | Ended.
#[export] Instance worker_eq_dec : EqDecision worker.
Proof. solve_decision. Defined.

(** [io_work]: the handlers and operations under way. *)
Record io_state := mkIo { io_stopped : bool; io_guard : bool; io_work : nat }.

(** Where the first call of [stop()] is. *)
Inductive stopping := NotCalled | FlagSet | GuardReset | JoiningAt (i : nat) | StopDone.
#[export] Instance stopping_eq_dec : EqDecision stopping.
Proof. solve_decision. Defined.

Record manager := mkManager {
  stopped_ : bool;
  restart_count_ : Z;
  ctx : io_state;
  workers : list worker;
  stop_caller : option nat;  (** the worker whose handler calls [stop()], if it is one *)
  stage : stopping;
  detached : list nat;
}.

Definition UINT64 : Z := (2 ^ 64)%Z.

(** The constructor: [instance_count_] is a member, so it counts from 0 in every
    manager; [length_error] is what [reserve] throws. *)
Definition new_manager (length_error : str) (threads_num : Z) : throws manager :=
  let instance_count := 0%Z in
  if (0 <? instance_count)%Z then inl (StdExn (lit "Only one instance of IoContextManager is allowed."))
  else if (threads_num <? 0)%Z then inl (StdExn length_error)
  else inr (mkManager false 0 (mkIo false true 0) (replicate (Z.to_nat threads_num) AtTop) None NotCalled []).

Definition set_worker (i : nat) (w : worker) (m : manager) : manager :=
  mkManager m.(stopped_) m.(restart_count_) m.(ctx) (<[i := w]> m.(workers)) m.(stop_caller) m.(stage) m.(detached).
Definition set_ctx (c : io_state) (m : manager) : manager :=
  mkManager m.(stopped_) m.(restart_count_) c m.(workers) m.(stop_caller) m.(stage) m.(detached).
Definition set_stage (s : stopping) (m : manager) : manager :=
  mkManager m.(stopped_) m.(restart_count_) m.(ctx) m.(workers) m.(stop_caller) s m.(detached).

Definition is_joining (s : stopping) : bool := match s with JoiningAt _ => true | _ => false end.
Definition in_progress (s : stopping) : bool :=
  match s with NotCalled | StopDone => false | _ => true end.

(** A worker that is inside [stop()] does nothing else. *)
Definition busy_stopping (i : nat) (m : manager) : bool :=
  bool_decide (m.(stop_caller) = Some i) && in_progress m.(stage).

(** [run] may be left that way, and what that does to the context. *)
Definition leave_run (k : exit_kind) (c : io_state) : option io_state :=
  match k with
  | RunReturned =>
      if c.(io_stopped) then Some c
      else if negb c.(io_guard) && (c.(io_work) =? 0)%nat then Some (mkIo true c.(io_guard) 0) else None
  | StdException | UnknownException =>
      match c.(io_work) with 0 => None | S n => Some (mkIo c.(io_stopped) c.(io_guard) n) end
  end.

(** One action of worker [i]; [k] says how [run] ends. *)
Definition worker_step (i : nat) (k : exit_kind) (m : manager) : option manager :=
  if busy_stopping i m then None
  else
    match m.(workers) !! i with
    | Some AtTop => Some (set_worker i (if m.(stopped_) then Ended else InRun) m)
    | Some InRun => c ← leave_run k m.(ctx); Some (set_worker i (LeftRun k) (set_ctx c m))
    | Some (LeftRun k') => Some (set_worker i (if m.(stopped_) then Ended else AtCount k') m)
    | Some (AtCount _) =>
        Some (mkManager m.(stopped_) ((m.(restart_count_) + 1) mod UINT64)%Z m.(ctx)
                (<[i := AtRestart]> m.(workers)) m.(stop_caller) m.(stage) m.(detached))
    | Some AtRestart =>
        Some (set_worker i AtTop (set_ctx (mkIo false m.(ctx).(io_guard) m.(ctx).(io_work)) m))
    | _ => None
    end.

(** [stop()] is called, by the handler of a worker or by another thread. *)
Definition call_stop (who : option nat) (m : manager) : option manager :=
  if match who with Some i => bool_decide (m.(workers) !! i = Some InRun) | None => true end then
    Some (if m.(stopped_) then m
          else mkManager true m.(restart_count_) m.(ctx) m.(workers) who FlagSet m.(detached))
  else None.

(** The rest of [stop()]: [join] returns when the thread has ended. *)
Definition stop_step (m : manager) : option manager :=
  match m.(stage) with
  | FlagSet => Some (set_stage GuardReset (set_ctx (mkIo m.(ctx).(io_stopped) false m.(ctx).(io_work)) m))
  | GuardReset => Some (set_stage (JoiningAt 0) (set_ctx (mkIo true m.(ctx).(io_guard) m.(ctx).(io_work)) m))
  | JoiningAt i =>
      match m.(workers) !! i with
      | None => Some (set_stage StopDone m)
      | Some w =>
          if decide (m.(stop_caller) = Some i) then
            Some (mkManager m.(stopped_) m.(restart_count_) m.(ctx) m.(workers) m.(stop_caller)
                    (JoiningAt (S i)) (m.(detached) ++ [i]))
          else if decide (w = Ended) then Some (set_stage (JoiningAt (S i)) m) else None
      end
  | _ => None
  end.

(** Work is posted; a handler returns. *)
Definition add_work (m : manager) : manager :=
  set_ctx (mkIo m.(ctx).(io_stopped) m.(ctx).(io_guard) (S m.(ctx).(io_work))) m.
Definition finish_work (m : manager) : option manager :=
  match m.(ctx).(io_work) with
  | 0 => None
  | S n => Some (set_ctx (mkIo m.(ctx).(io_stopped) m.(ctx).(io_guard) n) m)
  end.

Inductive action := Worker (i : nat) (k : exit_kind) | CallStop (who : option nat) | StopStep | AddWork | FinishWork.

Definition act (a : action) (m : manager) : option manager :=
  match a with
  | Worker i k => worker_step i k m
  | CallStop who => call_stop who m
  | StopStep => stop_step m
  | AddWork => Some (add_work m)
  | FinishWork => finish_work m
  end.
Fixpoint acts (l : list action) (m : manager) : option manager :=
  match l with
  | [] => Some m
  | a :: l' => m' ← act a m; acts l' m'
  end.

(** An action of the manager's own threads or of [stop()]. *)
Definition own_action (a : action) : bool :=
  match a with Worker _ _ | StopStep => true | _ => false end.

(** *** Invariant *)

(** A worker past the test, on its way to [restart]. *)
Definition restarting (w : worker) : bool :=
  match w with AtCount _ | AtRestart => true | _ => false end.

Definition joined_ok (m : manager) (i : nat) : Prop :=
  m.(workers) !! i = Some Ended \/ m.(stop_caller) = Some i.

Record manager_ok (n : nat) (m : manager) : Prop := {
  ok_workers : length m.(workers) = n;
  ok_stopped : m.(stopped_) = bool_decide (m.(stage) <> NotCalled);
  ok_ended : m.(stopped_) = false -> Forall (fun w => w <> Ended) m.(workers);
  ok_joined : match m.(stage) with
              | JoiningAt i => forall j, j < i -> joined_ok m j
              | StopDone => forall j, j < n -> joined_ok m j
              | _ => True
              end;
  ok_caller : forall i, m.(stop_caller) = Some i -> in_progress m.(stage) = true -> m.(workers) !! i = Some InRun;
}.

Lemma new_manager_ok le n m : new_manager le n = inr m -> manager_ok (Z.to_nat n) m.
Proof.
  unfold new_manager. simpl. destruct (n <? 0)%Z; [done|]. intros [= <-]. split; simpl; try done.
  - by rewrite length_replicate.
  - intros _. by apply Forall_replicate.
Qed.

(** What an action does to the workers: one of them moves, and none that has
    ended. *)
Lemma worker_step_inv i k m m' :
  worker_step i k m = Some m' ->
  busy_stopping i m = false /\ exists w w', m.(workers) !! i = Some w /\ w <> Ended /\
    m'.(workers) = <[i := w']> m.(workers) /\ (m.(stopped_) = false -> w' <> Ended) /\
    m'.(stopped_) = m.(stopped_) /\ m'.(stop_caller) = m.(stop_caller) /\ m'.(stage) = m.(stage).
Proof.
  unfold worker_step. destruct (busy_stopping i m) eqn:Hb; [done|].
  destruct (workers m !! i) as [w|] eqn:Hw; [|done]. intros Hs. split; [done|]. exists w.
  destruct w; simplify_eq/=;
    repeat match goal with H : context [leave_run ?k ?c ≫= _] |- _ => destruct (leave_run k c); simplify_eq/= end;
    (eexists; split; [done|]; split; [done|]; split; [reflexivity|]; simpl;
     split; [intros Hst; rewrite ?Hst; done|done]).
Qed.

Lemma joined_ok_insert m m' i w w' j :
  m.(workers) !! i = Some w -> w <> Ended -> m'.(workers) = <[i := w']> m.(workers) ->
  m'.(stop_caller) = m.(stop_caller) -> joined_ok m j -> joined_ok m' j.
Proof.
  intros Hi Hw Hm Hc [Hj|Hj]; unfold joined_ok; rewrite Hm, Hc; [|by right]. left.
  destruct (decide (i = j)) as [<-|]; [congruence|]. by rewrite list_lookup_insert_ne.
Qed.

Lemma worker_step_ok n i k m m' : manager_ok n m -> worker_step i k m = Some m' -> manager_ok n m'.
Proof.
  intros [H1 H2 H3 H4 H5] Hs.
  destruct (worker_step_inv _ _ _ _ Hs) as (Hb & w & w' & Hw & Hne & Hws & Hne' & Hst & Hc & Hstage).
  split.
  - by rewrite Hws, length_insert.
  - by rewrite Hst, Hstage.
  - rewrite Hst. intros Hf. rewrite Hws. apply Forall_insert; auto.
  - rewrite Hstage. destruct (stage m); try done; intros j Hj; by eapply joined_ok_insert; eauto.
  - rewrite Hstage, Hc, Hws. intros j Hj Hp. destruct (decide (i = j)) as [<-|].
    + unfold busy_stopping in Hb. rewrite Hp, bool_decide_true in Hb by done. done.
    + rewrite list_lookup_insert_ne by done. auto.
Qed.

Lemma act_ok n a m m' : manager_ok n m -> act a m = Some m' -> manager_ok n m'.
Proof.
  intros Hok Hs. destruct a as [i k|who| | |]; simpl in Hs.
  - by eapply worker_step_ok.
  - unfold call_stop in Hs. destruct Hok as [H1 H2 H3 H4 H5].
    destruct (match who with Some i => _ | None => _ end) eqn:Hw; [|done].
    destruct (stopped_ m) eqn:Hst; simplify_eq/=; [by split; rewrite ?Hst|].
    split; simpl; try done. intros i -> _. by apply bool_decide_eq_true in Hw.
  - unfold stop_step in Hs. destruct Hok as [H1 H2 H3 H4 H5].
    destruct (stage m) as [| | |i|] eqn:Hst; simplify_eq/=; try (split; simpl; rewrite ?Hst; try done; fail).
    + split; simpl; rewrite ?Hst in *; try done. lia.
    + destruct (workers m !! i) as [w|] eqn:Hw; simplify_eq/=.
      * assert (joined_ok m i -> (forall j, j < S i -> joined_ok m j)) as Hnext.
        { intros Hi j Hj. destruct (decide (j = i)) as [->|]; [done|]. apply H4. lia. }
        case_decide as Hc; [|case_decide]; simplify_eq/=; split; simpl; rewrite ?Hst in *; try done;
          apply Hnext; [by right|by left].
      * split; simpl; rewrite ?Hst in *; try done. apply lookup_ge_None in Hw. intros j Hj. apply H4. lia.
  - simplify_eq. by destruct Hok.
  - unfold finish_work in Hs. destruct (io_work (ctx m)); simplify_eq. by destruct Hok.
Qed.

Lemma acts_ok n l : forall m m', manager_ok n m -> acts l m = Some m' -> manager_ok n m'.
Proof.
  induction l as [|a l IH]; intros m m' Hok Hs; simpl in Hs; [by simplify_eq|].
  destruct (act a m) as [m1|] eqn:Ha; simplify_eq/=. eapply IH; [|done]. by eapply act_ok.
Qed.

(** *** stop() ends *)

Definition quiet (m : manager) : Prop :=
  m.(stopped_) = true /\ m.(ctx).(io_stopped) = true /\
  Forall (fun w => restarting w = false) m.(workers) /\
  (is_joining m.(stage) = true \/ m.(stage) = StopDone).

(** The actions a worker, and [stop()], have left. *)
Definition worker_left (w : worker) : nat :=
  match w with AtTop | LeftRun _ => 1 | InRun => 2 | _ => 0 end.
Definition stop_left (m : manager) : nat :=
  match m.(stage) with JoiningAt i => S (length m.(workers) - i) | _ => 0 end.
Definition actions_left (m : manager) : nat := sum_list_with worker_left m.(workers) + stop_left m.

Lemma sum_insert {A} (f : A -> nat) l i x y :
  l !! i = Some y -> sum_list_with f (<[i := x]> l) + f y = sum_list_with f l + f x.
Proof.
  revert i. induction l as [|z l IH]; intros [|i] Hi; simplify_eq/=; [lia|].
  specialize (IH i Hi). lia.
Qed.

Lemma quiet_set_worker i w m :
  quiet m -> restarting w = false -> quiet (set_worker i w m).
Proof. intros (H1 & H2 & H3 & H4) Hw. split_and!; try done. by apply Forall_insert. Qed.

Lemma left_set_worker i w w' m :
  m.(workers) !! i = Some w' -> worker_left w' = S (worker_left w) ->
  S (actions_left (set_worker i w m)) = actions_left m.
Proof.
  intros Hi Hl. pose proof (sum_insert worker_left _ _ w _ Hi) as Hs.
  unfold actions_left, stop_left, set_worker. simpl. rewrite length_insert. lia.
Qed.

Lemma quiet_worker i k m m' :
  quiet m -> worker_step i k m = Some m' -> quiet m' /\ S (actions_left m') = actions_left m.
Proof.
  intros Hq Hs. pose proof Hq as (Hst & Hio & Hw & Hstage). unfold worker_step in Hs.
  destruct (busy_stopping i m); [done|]. destruct (workers m !! i) as [w|] eqn:Hi; [|done].
  assert (restarting w = false) as Hr by (by eapply (Forall_lookup_1 _ _ _ _ Hw)).
  rewrite Hst in Hs. destruct w; simplify_eq/=.
  - split; [by apply quiet_set_worker|by eapply left_set_worker].
  - destruct (leave_run k (ctx m)) as [c|] eqn:Hc; simplify_eq/=.
    assert (io_stopped c = true) as Hc'.
    { destruct k; simpl in Hc; rewrite ?Hio in Hc; simplify_eq/=; try done; by destruct (io_work _); simplify_eq/=. }
    split; [apply quiet_set_worker; [|done]; by split_and!|].
    by rewrite (left_set_worker i (LeftRun k) InRun (set_ctx c m) Hi).
  - split; [by apply quiet_set_worker|by eapply left_set_worker].
Qed.

Lemma quiet_stop m m' :
  quiet m -> stop_step m = Some m' -> quiet m' /\ actions_left m' < actions_left m.
Proof.
  intros (Hst & Hio & Hw & Hstage) Hs. unfold stop_step in Hs.
  destruct (stage m) as [| | |i|] eqn:E; try (by destruct Hstage).
  destruct (workers m !! i) as [w|] eqn:Hi.
  - apply lookup_lt_Some in Hi. case_decide; [|case_decide]; simplify_eq/=;
      (split; [by split_and!; auto|unfold actions_left, stop_left; simpl; rewrite E; lia]).
  - simplify_eq/=. split; [by split_and!; auto|]. unfold actions_left, stop_left; simpl. rewrite E. lia.
Qed.

Lemma quiet_act a m m' :
  quiet m -> act a m = Some m' -> quiet m' /\ Nat.b2n (own_action a) + actions_left m' <= actions_left m.
Proof.
  intros Hq Hs. destruct a as [i k|who| | |]; simpl in *.
  - destruct (quiet_worker _ _ _ _ Hq Hs). split; [done|lia].
  - destruct Hq as (Hst & Hq). unfold call_stop in Hs. rewrite Hst in Hs.
    destruct (match who with Some i => _ | None => _ end); simplify_eq. by split; [split|].
  - destruct (quiet_stop _ _ Hq Hs). split; [done|lia].
  - simplify_eq. by split.
  - unfold finish_work in Hs. destruct (io_work (ctx m)); simplify_eq. by split.
Qed.

Lemma quiet_acts l : forall m m',
  quiet m -> acts l m = Some m' ->
  quiet m' /\ length (filter (fun a => own_action a = true) l) + actions_left m' <= actions_left m.
Proof.
  induction l as [|a l IH]; intros m m' Hq Hs; simpl in Hs; [by simplify_eq|].
  destruct (act a m) as [m1|] eqn:Ha; simplify_eq/=. destruct (quiet_act _ _ _ Hq Ha) as [Hq1 H1].
  destruct (IH _ _ Hq1 Hs) as [Hq' H2]. split; [done|].
  rewrite filter_cons. destruct (own_action a) eqn:Ho; simpl in *.
  - lia.
  - lia.
Qed.

(** [stop()] or the worker it waits for can act. *)
Lemma quiet_progress n m :
  manager_ok n m -> quiet m -> m.(stage) <> StopDone -> exists a, own_action a = true /\ is_Some (act a m).
Proof.
  intros Hok (Hst & Hio & Hw & Hstage) Hne. destruct Hstage as [Hj|]; [|done].
  destruct (stage m) as [| | |i|] eqn:E; try done.
  destruct (workers m !! i) as [w|] eqn:Hi; [|exists StopStep; simpl; unfold stop_step; rewrite E, Hi; by eauto].
  destruct (decide (m.(stop_caller) = Some i)) as [Hc|Hc];
    [exists StopStep; simpl; unfold stop_step; rewrite E, Hi, decide_True by done; by eauto|].
  destruct (decide (w = Ended)) as [->|He];
    [exists StopStep; simpl; unfold stop_step; rewrite E, Hi, decide_False, decide_True by done; by eauto|].
  exists (Worker i RunReturned). split; [done|]. simpl. unfold worker_step, busy_stopping.
  rewrite bool_decide_false by done. simpl. rewrite Hi.
  assert (restarting w = false) as Hr by (by eapply (Forall_lookup_1 _ _ _ _ Hw)).
  destruct w; try done; simpl; rewrite ?Hio; by eauto.
Qed.

Lemma actions_left_bound m : actions_left m <= 3 * length m.(workers) + 1.
Proof.
  assert (sum_list_with worker_left m.(workers) <= 2 * length m.(workers)).
  { induction (workers m) as [|w l IH]; simpl; [lia|]. destruct w; simpl; lia. }
  unfold actions_left, stop_left. destruct (stage m); lia.
Qed.

(** C39: Workers and [stop()].  Whatever the interleaving, no worker ends before
    [stop()] is called - exceptions of handlers and a context that runs out of
    work included - and when [stop()] returns every worker has ended, but the one
    whose handler called it.  [stop()] returns: if no worker is on its way to
    [restart()] when the context is stopped, the workers and [stop()] have at most
    [3n + 2] actions left together, and one of them can act until it is done. *)
Theorem manager_stops (length_error : str) (threads_num : Z) m0 l0 m :
  new_manager length_error threads_num = inr m0 -> acts l0 m0 = Some m ->
  length m.(workers) = Z.to_nat threads_num /\
  (Ended ∈ m.(workers) -> m.(stopped_) = true) /\
  (m.(stage) = StopDone -> forall i, (i < Z.to_nat threads_num)%nat ->
     m.(workers) !! i = Some Ended \/ m.(stop_caller) = Some i) /\
  (m.(stage) = GuardReset -> Forall (fun w => restarting w = false) m.(workers) ->
   forall l m', acts (StopStep :: l) m = Some m' ->
     (length (filter (fun a => own_action a = true) l) <= 3 * Z.to_nat threads_num + 1)%nat /\
     (m'.(stage) = StopDone \/ exists a, own_action a = true /\ is_Some (act a m'))).
Proof.
  intros Hn Hl. pose proof (acts_ok _ _ _ _ (new_manager_ok _ _ _ Hn) Hl) as Hok.
  pose proof Hok as [Hlen Hst Hend Hj Hc]. split_and!.
  - done.
  - intros He. destruct (stopped_ m) eqn:E; [done|]. specialize (Hend eq_refl).
    rewrite Forall_forall in Hend. by destruct (Hend _ He).
  - intros E. rewrite E in Hj. exact Hj.
  - intros E Hw l m' Hs. simpl in Hs. unfold stop_step in Hs. rewrite E in Hs. simpl in Hs.
    set (m1 := set_stage _ _) in Hs.
    assert (quiet m1) as Hq1.
    { split_and!; [|done|done|by left]. simpl. rewrite Hst, E. done. }
    destruct (quiet_acts _ _ _ Hq1 Hs) as [Hq' Hle].
    pose proof (actions_left_bound m1) as Hb. simpl in Hb. split; [lia|].
    destruct (decide (stage m' = StopDone)) as [|Hne]; [by left|right].
    eapply (quiet_progress (Z.to_nat threads_num)); try done. eapply (acts_ok _ (StopStep :: l)); [exact Hok|].
    simpl. unfold stop_step. by rewrite E.
Qed.

(** Two workers in [run], work under way, [stop()] from another thread. *)
Definition stop_prefix : list action :=
  [Worker 0 RunReturned; Worker 1 RunReturned; AddWork; CallStop None; StopStep].
Definition stop_rest : list action :=
  [Worker 1 RunReturned; Worker 0 RunReturned; Worker 0 RunReturned; StopStep; Worker 1 RunReturned;
   StopStep; StopStep].

Definition two_workers : manager :=
  mkManager false 0 (mkIo false true 0) [AtTop; AtTop] None NotCalled [].
Definition stopping_two : manager := default two_workers (acts stop_prefix two_workers).
Definition stopped_two : manager := default two_workers (acts (StopStep :: stop_rest) stopping_two).

Lemma manager_stops_witness :
  stopped_two.(stage) = StopDone /\ stopped_two.(workers) = [Ended; Ended] /\
  (length (filter (fun a => own_action a = true) stop_rest) <= 7)%nat.
Proof.
  split; [vm_compute; reflexivity|]. split; [vm_compute; reflexivity|].
  destruct (manager_stops [] 2 two_workers stop_prefix stopping_two eq_refl) as (_ & _ & _ & Hend).
  { vm_compute. reflexivity. }
  destruct (Hend eq_refl ltac:(vm_compute; repeat constructor) stop_rest stopped_two) as [Hlen _].
  { vm_compute. reflexivity. }
  exact Hlen.
Defined.

(** A worker that tested [stopped_] before [stop()] was called restarts the
    context after [stop()] has stopped it; a worker still inside [run] then stays
    there as long as there is work, and [stop()] waits for it. *)
Definition restart_race : list action :=
  [Worker 0 RunReturned; Worker 1 RunReturned; AddWork; AddWork; Worker 1 StdException; Worker 1 RunReturned;
   CallStop None; StopStep; StopStep; Worker 1 RunReturned; Worker 1 RunReturned; Worker 1 RunReturned].

Lemma stop_waits_for_work :
  exists m0 m, new_manager [] 2 = inr m0 /\ acts restart_race m0 = Some m /\
    m.(stage) = JoiningAt 0 /\ m.(workers) = [InRun; Ended] /\ m.(ctx) = mkIo false false 1 /\
    forall a, own_action a = true -> is_Some (act a m) -> exists k, a = Worker 0 k /\ k <> RunReturned.
Proof.
  eexists _, _. split; [vm_compute; reflexivity|]. split; [vm_compute; reflexivity|].
  split; [reflexivity|]. split; [reflexivity|]. split; [reflexivity|].
  intros [i k|who| | |] Ho [m' Hs]; try done.
  destruct i as [|[|i]]; [|done|done]. exists k. split; [done|]. by destruct k.
Qed.

(** Every manager passes the check for a single instance. *)
Lemma second_instance_allowed le n :
  (0 <= n)%Z -> exists m, new_manager le n = inr m /\ length m.(workers) = Z.to_nat n.
Proof.
  intros Hn. unfold new_manager. simpl. destruct (Z.ltb_spec n 0); [lia|].
  eexists. split; [reflexivity|]. simpl. by rewrite length_replicate.
Qed.

(** ** The threads of HttpClientManager

    Each thread is one call of [ioc->run()]; an exception that leaves it, or one
    thrown by [join] of the calling thread itself, ends the program. *)

Module Client.

Record state := mkState {
  c_stopped : bool;
  c_ctx : io_state;
  c_threads : list bool;      (** still inside [run] *)
  c_caller : option nat;
  c_stage : stopping;
  c_terminated : bool;
}.

(** The part of the constructor that starts the threads. *)
Definition start (threads : nat) : state :=
  mkState false (mkIo false true 0) (replicate threads true) None NotCalled false.

(** *** The rest of the constructor, and the proxy pool of the manager *)

(** [ProxyPool::select_proxies]. *)
Definition select_proxies (p : Provider) (profile : str) : throws (list ProxySetting) :=
  let! cfg := match profile with [] => get_default p | _ => get_named profile p end in
  inr cfg.(proxy_pool).

(** The profile's name, the threads and the proxies. *)
Definition new_client (hardware_concurrency : Z) (p : Provider) (profile : str) : throws (str * state * ProxyPool) :=
  let profile_name := match profile with [] => p.(default_name_) | _ => profile end in
  let! cfg := get_named profile_name p in
  let! selected := select_proxies p profile_name in
  inr (profile_name, start (Z.to_nat (get_threads_num hardware_concurrency cfg)), init_pool selected).

(** Absent a pool, the operations on it do nothing. *)
Definition proxy_pool_entries (proxy_pool_ : option ProxyPool) : list ProxySetting :=
  match proxy_pool_ with Some p => entries_copy p | None => [] end.
Definition replace_proxy_pool (entries : list ProxySetting) (proxy_pool_ : option ProxyPool) : option ProxyPool :=
  replace_entries entries <$> proxy_pool_.
Definition merge_proxy_pool (entries : list ProxySetting) (proxy_pool_ : option ProxyPool) : option ProxyPool :=
  merge_entries entries <$> proxy_pool_.
Definition blacklist_proxy (x : ProxySetting) (timeout now : Z) (proxy_pool_ : option ProxyPool) : option ProxyPool :=
  blacklist x timeout now <$> proxy_pool_.
Definition reset_proxy_blacklist (proxy_pool_ : option ProxyPool) : option ProxyPool :=
  reset_blacklist <$> proxy_pool_.

(** A manager for a known profile has its threads and its proxies; the default
    one is used when no profile is named. *)
Lemma new_client_known hw p profile c :
  p.(default_name_) <> [] ->
  get_named (match profile with [] => p.(default_name_) | _ => profile end) p = inr c ->
  exists name m pool, new_client hw p profile = inr (name, m, pool) /\
    length m.(c_threads) = Z.to_nat (get_threads_num hw c) /\ entries_copy pool = c.(proxy_pool).
Proof.
  intros Hd Hc. unfold new_client, select_proxies. destruct profile as [|a profile].
  - rewrite Hc. destruct (default_name_ p) as [|b d] eqn:E; [done|]. simpl.
    eexists _, _, _. split; [reflexivity|]. split; [by apply length_replicate|done].
  - rewrite Hc. simpl. eexists _, _, _. split; [reflexivity|]. split; [by apply length_replicate|done].
Qed.

Definition client_set_stage (s : stopping) (m : state) : state :=
  mkState m.(c_stopped) m.(c_ctx) m.(c_threads) m.(c_caller) s m.(c_terminated).
Definition client_set_ctx (c : io_state) (m : state) : state :=
  mkState m.(c_stopped) c m.(c_threads) m.(c_caller) m.(c_stage) m.(c_terminated).
Definition terminate (m : state) : state :=
  mkState m.(c_stopped) m.(c_ctx) m.(c_threads) m.(c_caller) m.(c_stage) true.

Definition client_thread_step (i : nat) (k : exit_kind) (m : state) : option state :=
  if bool_decide (m.(c_caller) = Some i) && in_progress m.(c_stage) then None
  else
    match m.(c_threads) !! i with
    | Some true =>
        c ← leave_run k m.(c_ctx);
        Some (match k with
              | RunReturned => mkState m.(c_stopped) c (<[i := false]> m.(c_threads)) m.(c_caller) m.(c_stage) m.(c_terminated)
              | _ => terminate (client_set_ctx c m)
              end)
    | _ => None
    end.

Definition client_call_stop (who : option nat) (m : state) : option state :=
  if match who with Some i => bool_decide (m.(c_threads) !! i = Some true) | None => true end then
    Some (if m.(c_stopped) then m else mkState true m.(c_ctx) m.(c_threads) who FlagSet m.(c_terminated))
  else None.

Definition client_stop_step (m : state) : option state :=
  match m.(c_stage) with
  | FlagSet => Some (client_set_stage GuardReset (client_set_ctx (mkIo m.(c_ctx).(io_stopped) false m.(c_ctx).(io_work)) m))
  | GuardReset => Some (client_set_stage (JoiningAt 0) (client_set_ctx (mkIo true m.(c_ctx).(io_guard) m.(c_ctx).(io_work)) m))
  | JoiningAt i =>
      match m.(c_threads) !! i with
      | None => Some (client_set_stage StopDone m)
      | Some running =>
          if decide (m.(c_caller) = Some i) then Some (terminate m)
          else if (running : bool) then None else Some (client_set_stage (JoiningAt (S i)) m)
      end
  | _ => None
  end.

Definition client_act (a : action) (m : state) : option state :=
  if m.(c_terminated) then None
  else
    match a with
    | Worker i k => client_thread_step i k m
    | CallStop who => client_call_stop who m
    | StopStep => client_stop_step m
    | AddWork => Some (client_set_ctx (mkIo m.(c_ctx).(io_stopped) m.(c_ctx).(io_guard) (S m.(c_ctx).(io_work))) m)
    | FinishWork =>
        match m.(c_ctx).(io_work) with
        | 0 => None
        | S n => Some (client_set_ctx (mkIo m.(c_ctx).(io_stopped) m.(c_ctx).(io_guard) n) m)
        end
    end.
Fixpoint client_acts (l : list action) (m : state) : option state :=
  match l with
  | [] => Some m
  | a :: l' => m' ← client_act a m; client_acts l' m'
  end.

(** [stop()] called by a handler: the join of its own thread ends the program
    once the threads before it have returned. *)
Lemma stop_from_handler_terminates :
  exists m, client_acts [AddWork; CallStop (Some 1); StopStep; StopStep; Worker 0 RunReturned; StopStep; StopStep] (start 2) = Some m /\
    m.(c_terminated) = true.
Proof. eexists. split; [vm_compute; reflexivity|reflexivity]. Qed.

(** Called by another thread, and with handlers that do not throw, [stop()]
    returns and the threads have ended. *)
Record client_ok (n : nat) (m : state) : Prop := {
  cl_len : length m.(c_threads) = n;
  cl_stopped : m.(c_stopped) = bool_decide (m.(c_stage) <> NotCalled);
  cl_io : is_joining m.(c_stage) = true -> m.(c_ctx).(io_stopped) = true;
  cl_joined : match m.(c_stage) with
              | JoiningAt i => forall j, j < i -> m.(c_threads) !! j = Some false
              | StopDone => forall j, j < n -> m.(c_threads) !! j = Some false
              | _ => True
              end;
  cl_caller : m.(c_caller) = None;
  cl_terminated : m.(c_terminated) = false;
}.

(** Neither an exception nor a call of [stop()] by a handler. *)
Definition tame (a : action) : bool :=
  match a with
  | Worker _ k => bool_decide (k = RunReturned)
  | CallStop who => bool_decide (who = None)
  | _ => true
  end.

Lemma start_ok n : client_ok n (start n).
Proof. split; simpl; try done. by rewrite length_replicate. Qed.

Lemma thread_returns i m m' :
  client_thread_step i RunReturned m = Some m' ->
  exists c, leave_run RunReturned m.(c_ctx) = Some c /\ m.(c_threads) !! i = Some true /\
    m' = mkState m.(c_stopped) c (<[i := false]> m.(c_threads)) m.(c_caller) m.(c_stage) m.(c_terminated).
Proof.
  unfold client_thread_step. destruct (_ && _); [done|]. destruct (c_threads m !! i) as [[]|] eqn:Hi; [|done|done].
  destruct (leave_run _ _) as [c|] eqn:Hc; [|done]. intros [= <-]. eauto.
Qed.

Lemma leave_run_stopped c c' : leave_run RunReturned c = Some c' -> c'.(io_stopped) = true.
Proof.
  simpl. destruct (io_stopped c) eqn:E; [by intros [= <-]|]. destruct (_ && _); [|done]. by intros [= <-].
Qed.

Lemma client_act_ok n a m m' :
  client_ok n m -> tame a = true -> client_act a m = Some m' -> client_ok n m'.
Proof.
  intros [H1 H2 H3 H4 H5 H6] Ht Hs. unfold client_act in Hs. rewrite H6 in Hs. destruct a as [i k|who| | |]; simpl in Ht.
  - apply bool_decide_eq_true in Ht as ->. apply thread_returns in Hs as (c & Hc & Hi & ->).
    split; simpl; try done.
    + by rewrite length_insert.
    + intros _. by eapply leave_run_stopped.
    + destruct (c_stage m); try done; intros j Hj; specialize (H4 j Hj);
        (rewrite list_lookup_insert_ne; [done|congruence]).
  - apply bool_decide_eq_true in Ht as ->. unfold client_call_stop in Hs. simplify_eq.
    destruct (c_stopped m) eqn:E; [by split; rewrite ?E|]. by split.
  - unfold client_stop_step in Hs. destruct (c_stage m) as [| | |i|] eqn:E; simplify_eq/=; try (split; simpl; rewrite ?E; done).
    + split; simpl; rewrite ?E in *; try done. lia.
    + destruct (c_threads m !! i) as [[]|] eqn:Hi; [by rewrite H5 in Hs| |]; rewrite ?H5 in Hs; simplify_eq/=;
        split; simpl; rewrite ?E in *; try done.
      * intros j Hj. destruct (decide (j = i)) as [->|]; [done|]. apply H4. lia.
      * apply lookup_ge_None in Hi. intros j Hj. apply H4. lia.
  - simplify_eq. split; simpl; auto.
  - destruct (io_work (c_ctx m)); simplify_eq. split; simpl; auto.
Qed.

Lemma client_acts_ok n l : forall m m',
  client_ok n m -> forallb tame l = true -> client_acts l m = Some m' -> client_ok n m'.
Proof.
  induction l as [|a l IH]; intros m m' Hok Ht Hs; simpl in *; [by simplify_eq|].
  apply andb_true_iff in Ht as [Ha Ht]. destruct (client_act a m) as [m1|] eqn:E; simplify_eq/=.
  eapply IH; [by eapply client_act_ok|done|done].
Qed.

(** While [stop()] is joining, it or the thread it waits for can act. *)
Lemma client_stop_progress n l m :
  forallb tame l = true -> client_acts l (start n) = Some m ->
  (m.(c_stage) = StopDone -> m.(c_threads) = replicate n false) /\
  (is_joining m.(c_stage) = true ->
     is_Some (client_act StopStep m) \/ exists i, is_Some (client_act (Worker i RunReturned) m)).
Proof.
  intros Ht Hs. pose proof (client_acts_ok n _ _ _ (start_ok n) Ht Hs) as [H1 H2 H3 H4 H5 H6]. split.
  - intros E. rewrite E in H4. apply list_eq. intros j. destruct (decide (j < n)) as [Hj|Hj].
    + by rewrite (H4 j Hj), lookup_replicate_2.
    + rewrite !lookup_ge_None_2; [done| |]; rewrite ?length_replicate; lia.
  - intros Hj. specialize (H3 Hj). unfold client_act. rewrite H6. unfold client_stop_step.
    destruct (c_stage m) as [| | |i|] eqn:E; try done. rewrite H5.
    destruct (c_threads m !! i) as [[]|] eqn:Hi; [|left; by eauto|left; by eauto].
    right. exists i. unfold client_thread_step. rewrite H5, Hi. simpl. rewrite H3. by eauto.
Qed.
End Client.

(** ** InFlightCounter, StopIndicator *)

(** [std::atomic<int>] wraps around. *)
Definition wrap_int32 (z : Z) : Z := ((z + 2 ^ 31) mod 2 ^ 32 - 2 ^ 31)%Z.
Definition increment (counter : Z) : Z := wrap_int32 (counter + 1).
Definition decrement (counter : Z) : Z := wrap_int32 (counter - 1).

(** [wait_until_zero]: [value i] is what look [i] finds; the waits made. *)
Fixpoint wait_from (value : nat -> Z) (i fuel : nat) : nat :=
  match fuel with
  | 0 => 0
  | S fuel' => if (value i =? 0)%Z then 0 else S (wait_from value (S i) fuel')
  end.
Definition wait_until_zero (value : nat -> Z) (max_retries : Z) : nat := wait_from value 0 (Z.to_nat max_retries).

(** [Guard]s that are all gone leave the counter where it was. *)
Lemma guards_balance n counter :
  in_int32 counter -> Nat.iter n decrement (Nat.iter n increment counter) = counter.
Proof.
  intros Hc.
  assert (forall z, in_int32 z -> in_int32 (increment z) /\ decrement (increment z) = z) as Hstep.
  { intros z Hz. unfold in_int32, INT_MIN, INT_MAX, increment, decrement, wrap_int32 in *.
    pose proof (Z.mod_pos_bound (z + 1 + 2 ^ 31) (2 ^ 32) ltac:(lia)). split; [lia|].
    destruct (Z.eq_dec z (2 ^ 31 - 1)%Z) as [->|]; [reflexivity|].
    rewrite (Z.mod_small (z + 1 + 2 ^ 31)) by lia. rewrite Z.mod_small by lia. lia. }
  revert counter Hc. induction n as [|n IH]; intros c Hc; [done|].
  rewrite (Nat.iter_succ_r n increment c), Nat.iter_succ. destruct (Hstep c Hc) as [Hi Hd]. by rewrite (IH _ Hi).
Qed.

(** The wait ends after at most [max_retries] pauses, at a look that found zero
    or after the last pause. *)
Lemma wait_until_zero_ends value max_retries :
  let k := wait_until_zero value max_retries in
  (k <= Z.to_nat max_retries)%nat /\ (forall i, (i < k)%nat -> value i <> 0%Z) /\
  ((k < Z.to_nat max_retries)%nat -> value k = 0%Z).
Proof.
  unfold wait_until_zero. generalize (Z.to_nat max_retries) as fuel. intros fuel.
  assert (forall i, (wait_from value i fuel <= fuel)%nat /\
    (forall j, (j < wait_from value i fuel)%nat -> value (i + j)%nat <> 0%Z) /\
    ((wait_from value i fuel < fuel)%nat -> value (i + wait_from value i fuel)%nat = 0%Z)) as H; [|apply (H 0)].
  induction fuel as [|fuel IH]; intros i; simpl; [split_and!; intros; lia|].
  destruct (Z.eqb_spec (value i) 0) as [Hz|Hz]; [rewrite Nat.add_0_r; split_and!; [lia|intros; lia|done]|].
  destruct (IH (S i)) as (H1 & H2 & H3). split_and!; [lia| |].
  - intros [|j] Hj; [by rewrite Nat.add_0_r|]. rewrite Nat.add_succ_r. apply H2. lia.
  - intros Hlt. rewrite Nat.add_succ_r. apply H3. lia.
Qed.

(** [StopIndicator]. *)
Record StopIndicator := mkStop { stop_requested : bool }.
Definition stop_indicator : StopIndicator := mkStop false.
Definition request_stop (s : StopIndicator) : StopIndicator := mkStop true.
Definition is_stopped (s : StopIndicator) : bool := s.(stop_requested).
