(* ===== verification/ClientFromConfig.v ===== *)
(** * From the configuration files to the network

    The parts in the order a program builds them: the application properties
    ([src/include/simple_data.hpp]), the profiles ([src/include/http_client_config_provider.hpp]),
    the manager with its threads and its proxies ([src/include/http_client_manager.hpp],
    [src/include/proxy_pool.hpp]), and a request through it
    ([src/include/http_client_monad.hpp]).  The theorem follows a proxy all the way:
    what the files may say, and what is asked for a tunnel. *)

From Stdlib Require Import ZArith Lia Ascii String Floats.SpecFloat.
From stdpp Require Import base list gmap strings.
From S2P Require Import Prelude Json ResultMonad Asio IoMonad Protocol Http HttpSession HttpManager RedirectSessions.
From S2P Require Import ProxyPool HttpExchange HttpMonad RequestOverNetwork Yaml ConfigSources ConfigProvider IoContexts.

Section client.
Context `{JsonLibLaws} `{UrlLib}.
Context (fs : files) (getenv : environment) (ryml_parse : str -> throws (list (str * ynode) * ynode)).
Context (stod : str -> option (spec_float * nat)) (yaml_fuel : nat) (absolute : str -> str).
Context (hardware_concurrency : Z).

(** The properties first: they are what the placeholders of the files are expanded with. *)
Definition provider_from_config (c : ConfigSources) : throws Provider :=
  let! ac := new_app_properties fs c in
  new_provider getenv
    (json_content fs getenv ryml_parse stod yaml_fuel absolute ac.2 (lit "httpclient_config"))
    ac.2.(cli_overrides_) ac.1.(properties).

Definition client_from_config (c : ConfigSources) (profile : str)
    : throws (Provider * (str * Client.state * ProxyPool)) :=
  let! p := provider_from_config c in
  let! m := Client.new_client hardware_concurrency p profile in
  inr (p, m).

(** The profile and the proxies of a manager. *)
Lemma new_client_inv p profile name m pool :
  Client.new_client hardware_concurrency p profile = inr (name, m, pool) ->
  name = match profile with [] => p.(default_name_) | _ => profile end /\
  exists cfg, get_named name p = inr cfg /\ pool = init_pool cfg.(proxy_pool) /\
    m = Client.start (Z.to_nat (get_threads_num hardware_concurrency cfg)).
Proof.
  unfold Client.new_client, Client.select_proxies. set (n := match profile with [] => _ | _ => _ end).
  destruct (get_named n p) as [|cfg] eqn:Ec; [done|]. intros Hm.
  assert (Hs : match n with [] => get_default p | _ => inr cfg end = inr cfg).
  { destruct n as [|a n'] eqn:En; [|done]. unfold get_named, get_default in *.
    destruct profile as [|b profile]; [|done]. subst n. rewrite En.
    by destruct (configs_ p !! []). }
  rewrite Hs in Hm. simpl in Hm. simplify_eq. split; [done|]. by exists cfg.
Qed.

Lemma new_client_unknown p profile : profile <> [] -> provider_ok p -> profile ∉ names p ->
  exists x, Client.new_client hardware_concurrency p profile = inl x.
Proof.
  intros Hp Hok Hn. unfold Client.new_client. rewrite get_named_names in Hn by done.
  destruct profile as [|a profile]; [done|]. destruct (get_named (a :: profile) p) as [x|cfg] eqn:E; [by exists x|].
  destruct Hn. by exists cfg.
Qed.

Lemma proxy_choice_inv e clock pool px pool' :
  e.(ex_proxy) = None -> pool_ok pool -> proxy_choice getenv clock e (Some pool) = Some (px, pool') ->
  forall (Q : ProxySetting -> Prop), Forall Q (entries_copy pool) ->
  forall x, px = Some x -> Q x /\ (x.(p_from_env) = true -> should_bypass_env_proxy getenv e.(ex_url) = false).
Proof.
  intros Hx Hok Hc Q Hq x ->. unfold proxy_choice in Hc. rewrite Hx in Hc.
  destruct (ex_no_proxy_pool e || proxies_empty pool); [done|].
  destruct (next clock pool) as [[r pool1]|] eqn:En; [|done]. simpl in Hc.
  destruct (next_within Q clock pool r pool1 Hok Hq En) as [Hg _].
  destruct r as [y|]; [|done]. destruct (p_from_env y && should_bypass_env_proxy getenv (ex_url e)) eqn:Eb; [done|].
  simplify_eq. split; [by apply Hg|]. intros Hf. by rewrite Hf in Eb.
Qed.

(** C9: From the configuration files to the network: a manager that was built from them
    is that of one of their profiles, the default one when none is named, and an
    unknown profile builds none; it has at most as many threads as the hardware; and
    after any history of its proxy pool in which only usable proxies were added, a
    request that names no proxy itself goes to the network directly or through a
    proxy that is not disabled, has no placeholder left in its credentials unless it
    is the one of the environment, and then is not excluded by NO_PROXY: on every
    schedule only the hosts of the request's own chain and of that proxy are looked
    up and no other proxy is asked for a tunnel. *)
Theorem configured_requests (c : ConfigSources) (profile : str) p name m pool :
  (0 <= hardware_concurrency)%Z ->
  client_from_config c profile = inr (p, (name, m, pool)) ->
  name = match profile with [] => p.(default_name_) | _ => profile end /\ name ∈ names p /\
  (forall other, other <> [] -> other ∉ names p ->
     exists x, client_from_config c other = inl x) /\
  (Z.of_nat (length m.(Client.c_threads)) <= hardware_concurrency)%Z /\
  forall os, Forall (adds_within proxy_usable) os ->
  exists given pool1, run_ops os pool = Some (given, pool1) /\
  forall clock beast_version ticks ex l body tlsext k e es h w,
    e.(ex_proxy) = None -> cells ticks ex (Some l) k e (Some pool1) h ->
    steps es (run (net_request_io getenv clock beast_version ticks ex (Some l) body tlsext (observing report))
                (world_at h)) = Some w ->
    exists px (sessions : list (url * list net_reply)),
      (forall x, px = Some x -> proxy_usable x /\
         (x.(p_from_env) = true -> should_bypass_env_proxy getenv e.(ex_url) = false)) /\
      map fst sessions = url_chain (outgoing_request beast_version e) (request_params e) 5 e.(ex_url)
        (concat (map (session_answer (outgoing_request beast_version e) (request_params e) px body tlsext) sessions)) /\
      Forall (fun o => exists s, s ∈ sessions /\ allowed px s.1 o) w.(started) /\
      length w.(started) <= 42 /\ w.(faulted) = false.
Proof.
  intros Hhw Hc. unfold client_from_config in *.
  destruct (provider_from_config c) as [|p0] eqn:Ep; [done|].
  destruct (Client.new_client hardware_concurrency p0 profile) as [|[[name0 m0] pool0]] eqn:Em; [done|].
  simpl in Hc. simplify_eq. unfold provider_from_config in Ep.
  destruct (new_app_properties fs c) as [|ac]; [done|]. apply new_provider_ok in Ep as (Hok & _ & _).
  destruct (new_client_inv p profile name m pool Em) as (Hname & cfg & Hcfg & -> & ->).
  pose proof (get_named_ok p name cfg Hok Hcfg) as Hcok. split_and!.
  - done.
  - apply get_named_names; [done|]. by exists cfg.
  - intros other Ho Hn. destruct (new_client_unknown p other Ho Hok Hn) as [x Hx]. exists x. simpl. by rewrite Hx.
  - cbn. rewrite length_replicate. pose proof (get_threads_num_bounds _ cfg Hhw Hcok). lia.
  - intros os Hos. destruct (run_ops_ok os _ (init_pool_ok cfg.(proxy_pool))) as (rs & pool1 & E & Hok1).
    exists rs, pool1. split; [done|]. intros clock bv ticks ex l body tls k e es h w Hx Hcells Hs.
    destruct (run_ops_within proxy_usable os _ rs pool1 (init_pool_ok _) (proj2 Hcok) Hos E) as [Hq _].
    destruct (proxy_choice_total getenv e (Some pool1) (from_tick clock k)) as (px & pool2 & Hpx);
      [by intros pp [= <-]|].
    destruct (net_request_io_starts getenv clock bv ticks ex (Some l) body tls k e (Some pool1) h px pool2 Hcells Hpx)
      as (h1 & Hh1 & Hrun). rewrite Hrun in Hs.
    destruct (net_request_runs _ _ px body tls _ _ _ e.(ex_url) es h1 w Hh1 Hs)
      as (sessions & _ & H2 & H3 & _ & _ & _ & _ & H8 & H9 & _).
    exists px, sessions. split; [by apply (proxy_choice_inv e _ pool1 px pool2 Hx Hok1 Hpx)|].
    split; [exact H2|]. rewrite H3. split_and!; [apply sessions_allowed|by rewrite <- H3|done].
Qed.
End client.

(** ** Witness: a file with two proxies, one of them disabled, and a request through the other *)

Definition demo_profile : json :=
  JObject [(lit "threads_num", JInt64 2);
           (lit "proxy_pool", JArray [
              JObject [(lit "host", JString (lit "off")); (lit "port", JInt64 1);
                       (lit "username", JString []); (lit "password", JString []); (lit "disabled", JBool true)];
              JObject [(lit "host", JString (lit "p")); (lit "port", JInt64 3128);
                       (lit "username", JString (lit "u")); (lit "password", JString (lit "${W:-w}"))]])].
Definition client_demo_fs (p : str) : node :=
  if decide (p = lit "c/httpclient_config.json") then Regular (demo_text demo_profile)
  else if decide (p = lit "c") then Directory [lit "httpclient_config.json"]
  else Missing.
Definition demo_sources : ConfigSources := mkConfigSources [lit "c"] [] None ∅ ∅.
Definition demo_client : throws (Provider * (str * Client.state * ProxyPool)) :=
  client_from_config (H := BinaryJson.lib) client_demo_fs (fun _ => None) (fun _ => inl OtherExn) (fun _ => None) 0 id 4
    demo_sources [].
Definition client_pool : ProxyPool := match demo_client with inr (_, (_, _, pool)) => pool | _ => init_pool [] end.

(** The tunnel, then the request in it. *)
Definition client_demo_start : list val := [enc 0%Z; enc io_demo_exchange; enc client_pool].
Definition client_demo_schedule : list (event net_reply) :=
  [EvOp 0 net_demo_ok; EvOp 1 net_demo_ok; EvOp 2 net_demo_ok; EvOp 3 (mkReply None 200 demo_found true [] true);
   EvOp 4 net_demo_ok; EvOp 5 net_demo_ok].
Definition client_demo_run (w : world net_op net_reply session_obs) : option (world net_op net_reply session_obs) :=
  steps client_demo_schedule
    (run (net_request_io (H := demo_urls) (fun _ => None) (fun _ => 0%Z) (lit "beast") 0 1 (Some 2) StringBody
            (fun _ => true) (observing report)) w).
Definition client_demo_world : world net_op net_reply session_obs :=
  default (world_at client_demo_start) (client_demo_run (world_at client_demo_start)).

Lemma configured_requests_witness :
  client_demo_world.(trace) = [Deliver (Some demo_found) 0] /\
  client_demo_world.(started) !! 0 = Some (NResolve (lit "p") (lit "3128")) /\
  length client_demo_world.(started) = 6 /\ length client_demo_world.(started) <= 42.
Proof.
  split; [vm_compute; reflexivity|]. split; [vm_compute; reflexivity|]. split; [vm_compute; reflexivity|].
  assert (Hc : exists p name m, demo_client = inr (p, (name, m, client_pool)))
    by (eexists _, _, _; vm_compute; reflexivity).
  destruct Hc as (p & name & m & Hc).
  destruct (configured_requests (H := BinaryJson.lib) (H0 := BinaryJson.laws) (H1 := demo_urls) client_demo_fs
    (fun _ => None) (fun _ => inl OtherExn) (fun _ => None) 0 id 4 demo_sources [] p name m client_pool
    ltac:(lia) Hc) as (_ & _ & _ & _ & Hops).
  destruct (Hops [] ltac:(constructor)) as (given & pool1 & Hrun & Hreq).
  apply (f_equal (fmap snd)), (inj Some) in Hrun. change (client_pool = pool1) in Hrun. subst pool1.
  destruct (Hreq (fun _ => 0%Z) (lit "beast") 0 1 2 StringBody (fun _ => true) 0%Z io_demo_exchange
    client_demo_schedule client_demo_start client_demo_world) as (px & sessions & _ & _ & _ & Hlen & _).
  - reflexivity.
  - split; [reflexivity|reflexivity| |discriminate]. split_and!; [reflexivity|discriminate|discriminate].
  - vm_compute. reflexivity.
  - exact Hlen.
Defined.
