(* ===== verification/ApiResponse.v ===== *)
(** * API responses ([src/include/api_handler_base.hpp],
    [src/include/api_response_result.hpp], [src/include/resp_datastruct.hpp])

    What a handler answers with, the HTTP response generated from it, and how a
    client reads a JSON answer back.  [T] is the type of the items, with its JSON
    form.  [prepare_payload] of Beast sets the length fields of a response. *)

From Stdlib Require Import ZArith Lia Ascii String.
From stdpp Require Import base list gmap strings.
From S2P Require Import Prelude Json ResultMonad Asio IoMonad Http.

(** ** Data *)

Record DataMeta := mkMeta {
  total : Z;
  offset : Z;
  limit : Z;
}.
#[export] Instance DataMeta_eq_dec : EqDecision DataMeta.
Proof. solve_decision. Defined.

Definition from_DataMeta (m : DataMeta) : json :=
  JObject [(lit "total", JInt64 m.(total)); (lit "offset", JUint64 m.(offset)); (lit "limit", JUint64 m.(limit))].

(** [std::variant<std::monostate, T, std::vector<T>>]. *)
Inductive api_data (T : Type) :=
  | NoData
  | One (x : T)
  | Many (l : list T).
Arguments NoData {T}.
Arguments One {T} x.
Arguments Many {T} l.

Record ApiDataResponse (T : Type) := mkApiData {
  a_data : api_data T;
  a_meta : option DataMeta;
  a_content_type : str;
}.
Arguments mkApiData {T} a_data a_meta a_content_type.
Arguments a_data {T} _.
Arguments a_meta {T} _.
Arguments a_content_type {T} _.

(** [static_cast<int64_t>(vec.size())]; sizes are below [2^63]. *)
Definition meta_of_size (n : nat) : DataMeta := mkMeta (Z.of_nat n) 0 (Z.of_nat n).

Record ListResult (T : Type) := mkListResult {
  l_data : list T;
  l_meta : DataMeta;
}.
Arguments mkListResult {T} l_data l_meta.
Arguments l_data {T} _.
Arguments l_meta {T} _.

Definition list_result {T} (data : list T) : ListResult T := mkListResult data (meta_of_size (length data)).

(** The constructors of [ApiDataResponse]. *)
Definition api_one {T} (x : T) (content_type : str) : ApiDataResponse T := mkApiData (One x) None content_type.
Definition api_many_meta {T} (l : list T) (m : DataMeta) (content_type : str) : ApiDataResponse T :=
  mkApiData (Many l) (Some m) content_type.
Definition api_many {T} (l : list T) (content_type : str) : ApiDataResponse T :=
  api_many_meta l (meta_of_size (length l)) content_type.
Definition api_list {T} (r : ListResult T) : ApiDataResponse T :=
  mkApiData (Many r.(l_data)) (Some r.(l_meta)) (lit "application/json").

Record Success := mkSuccess { s_code : Z; s_message : str }.
Record DownloadInline := mkInline { d_content : str; d_content_type : str; d_filename : str }.
Record DownloadFile := mkDownload { f_path : str; f_content_type : str; f_filename : str }.
Record Redirect := mkRedirect { r_location : str; r_status : Z }.

Definition from_Success (s : Success) : json :=
  JObject [(lit "code", JInt64 s.(s_code)); (lit "message", JString s.(s_message))].

(** The JSON form of the items. *)
Class JsonForm (T : Type) := {
  to_json : T -> json;
  from_json : json -> throws T;
}.
Class ResponsePayload := { prepare_response : response -> response }.
Class ResponsePayloadLaws `{ResponsePayload} := {
  prepare_response_body r : (prepare_response r).(s_body) = r.(s_body);
  prepare_response_status r : (prepare_response r).(s_status) = r.(s_status);
}.

(** A generated response; the body of a download is read from its file. *)
Record generated := mkGenerated {
  g_response : response;
  g_file : option str;
}.

Section code.
Context `{JsonLib}.

(** ** JSON *)

Definition to_DataMeta (jv : json) : throws DataMeta :=
  match jv with
  | JObject jo =>
      let! t := match obj_find (lit "total") jo with Some v => lift_std (to_number_int64 v) | None => inr 0%Z end in
      let! o := match obj_find (lit "offset") jo with Some v => lift_std (to_number_uint64 v) | None => inr 0%Z end in
      let! l := match obj_find (lit "limit") jo with Some v => lift_std (to_number_uint64 v) | None => inr 0%Z end in
      inr (mkMeta t o l)
  | _ => inr (mkMeta 0 0 0)
  end.

Section items.
Context {T : Type} `{JsonForm T}.

Definition from_ApiDataResponse (resp : ApiDataResponse T) : json :=
  let data :=
    match resp.(a_data) with
    | One x => to_json x
    | Many l => JArray (map to_json l)
    | NoData => JNull
    end in
  JObject ((lit "data", data) ::
    match resp.(a_meta) with Some m => [(lit "meta", from_DataMeta m)] | None => [] end).

Definition to_ApiDataResponse (jv : json) : throws (ApiDataResponse T) :=
  match jv with
  | JObject jo =>
      let! data :=
        match obj_find (lit "data") jo with
        | Some (JArray l) => let! xs := map_throws from_json l in inr (Many xs)
        | Some v => let! x := from_json v in inr (One x)
        | None => inr NoData
        end in
      let! meta :=
        match obj_find (lit "meta") jo with
        | Some v => let! m := to_DataMeta v in inr (Some m)
        | None => inr None
        end in
      inr (mkApiData data meta (lit "application/json"))
  | _ => inr (mkApiData NoData None (lit "application/json"))
  end.

(** ** Reading an answer *)

Definition to_Error (jv : json) : throws Error :=
  let! obj := as_object jv in
  let! c := match obj_find (lit "code") obj with
            | Some v => lift_std (to_number_int v)
            | None => inl (StdExn (lit "Missing 'code' field for Error"))
            end in
  let! w := match obj_find (lit "what") obj with Some v => as_string v | None => inr [] end in
  let! k := match obj_find (lit "key") obj with Some v => as_string v | None => inr [] end in
  let! s := match obj_find (lit "response_status") obj with
            | Some v => lift_std (to_number_int v) | None => inr 500%Z end in
  let! p := match obj_find (lit "params") obj with Some v => as_object v | None => inr [] end in
  let! t := match obj_find (lit "content_type") obj with
            | Some v => as_string v | None => inr (lit "application/json") end in
  inr (mkError c w k s p t (obj_find (lit "alternative_body") obj)).

Definition invalid_schema : Z := 9000.
Definition malformed : Z := 9001.

Definition make_result_error (jv : json) (code : Z) (msg : str) : Result (ApiDataResponse T) Error :=
  Err (make_error code (msg ++ lit ", json: " ++ json_serialize jv)).

Definition to_ApiResponseResult (jv : json) : throws (Result (ApiDataResponse T) Error) :=
  catch_std
    match jv with
    | JObject obj =>
        match obj_find (lit "error") obj with
        | Some e => let! err := to_Error e in inr (Err err)
        | None =>
            if obj_contains (lit "data") obj
            then let! r := to_ApiDataResponse jv in inr (Ok r)
            else inr (make_result_error jv invalid_schema (lit "Neither data nor error field found in ApiResponse"))
        end
    | _ => inr (make_result_error jv invalid_schema (lit "ApiResponse is not an object"))
    end
    (fun w => inr (make_result_error jv malformed (lit "error in parsing ApiResponse: " ++ w))).
End items.

(** ** ResponseGenerator *)

Section generate.
Context `{ResponsePayload}.

Definition plain_response (status : Z) (f : fields) (body : str) : response := mkResponse status f body true.

Definition attachment (filename : str) : str := lit "attachment; filename=" ++ ["034"%char] ++ filename ++ ["034"%char].

Definition generate_data {T} `{JsonForm T} (resp : ApiDataResponse T) (status : Z) : generated :=
  let body := json_serialize (from_ApiDataResponse resp) in
  mkGenerated (prepare_response
    (plain_response status (set_field (lit "Content-Type") (lit "application/json") []) body)) None.

Definition generate_inline (d : DownloadInline) (status : Z) : generated :=
  let f := set_field (lit "Content-Type") d.(d_content_type) [] in
  mkGenerated (prepare_response
    (plain_response status (set_field (lit "Content-Disposition") (attachment d.(d_filename)) f) d.(d_content))) None.

Definition DOWNLOAD_FILE_OPEN_FAILED : Z := 4999.

(** [can_open]: the file body opens the path. *)
Definition generate_file (can_open : str -> bool) (d : DownloadFile) (status : Z) : Result generated Error :=
  if can_open d.(f_path) then
    let f := set_field (lit "Content-Type") d.(f_content_type) [] in
    Ok (mkGenerated (prepare_response
      (plain_response status (set_field (lit "Content-Disposition") (attachment d.(f_filename)) f) []))
      (Some d.(f_path)))
  else Err (make_error DOWNLOAD_FILE_OPEN_FAILED (lit "open download file failed.")).

(** [content_length(0)] and [keep_alive(false)]. *)
Definition generate_redirect (r : Redirect) : generated :=
  let f := set_field (lit "Location") r.(r_location) [] in
  mkGenerated (prepare_response
    (mkResponse r.(r_status) (set_field (lit "Content-Length") (lit "0") f) [] false)) None.

Definition generate_no_content : generated := mkGenerated (plain_response 204 [] []) None.

Definition generate_success (s : Success) (status : Z) : generated :=
  mkGenerated (prepare_response
    (plain_response status (set_field (lit "Content-Type") (lit "application/json") [])
      (json_serialize (from_Success s)))) None.
End generate.
End code.

(** ** A client reads what a handler answered *)

Section roundtrip.
Context `{JsonLibLaws} {T : Type} `{JsonForm T} `{ResponsePayloadLaws}.

Definition meta_ok (m : DataMeta) : Prop :=
  in_int64 m.(total) /\ in_uint64 m.(offset) /\ in_uint64 m.(limit).

(** An item whose text, [depth] levels deep at most, is read back as the item. *)
Definition item_ok (depth : nat) (x : T) : Prop :=
  json_wf (to_json x) /\ printable depth (to_json x) = true /\ from_json (reparsed (to_json x)) = inr x.

(** Data that can be told from its JSON: something, and no single item that is
    written as an array.  The parser's 32 levels leave 31 for one item and 30
    for those of a list. *)
Definition data_ok (resp : ApiDataResponse T) : Prop :=
  match resp.(a_data) with
  | One x => item_ok 31 x /\ match to_json x with JArray _ => False | _ => True end
  | Many l => Forall (item_ok 30) l
  | NoData => False
  end.

(** The unsigned members are parsed as signed ones when they fit, and read the
    same. *)
Lemma reparsed_uint64 z : in_uint64 z -> to_number_uint64 (reparsed (JUint64 z)) = inr z.
Proof.
  intros Hz. simpl. destruct (Z.leb_spec z INT64_MAX); [|by apply to_number_uint64_ok].
  apply to_number_uint64_int64. unfold in_uint64 in Hz. lia.
Qed.

Lemma to_from_DataMeta m : meta_ok m -> to_DataMeta (reparsed (from_DataMeta m)) = inr m.
Proof.
  destruct m as [t o l]. intros (Ht & Ho & Hl).
  transitivity (let! t' := lift_std (to_number_int64 (JInt64 t)) in
    let! o' := lift_std (to_number_uint64 (reparsed (JUint64 o))) in
    let! l' := lift_std (to_number_uint64 (reparsed (JUint64 l))) in inr (mkMeta t' o' l')); [reflexivity|].
  by rewrite to_number_int64_ok, !reparsed_uint64.
Qed.

Lemma meta_json_ok m :
  meta_ok m -> json_wf (from_DataMeta m) /\ printable 31 (from_DataMeta m) = true.
Proof.
  intros (Ht & Ho & Hl). split.
  - split; [apply (bool_decide_unpack _); vm_compute; exact I|by repeat split].
  - cbn -[in_int64 in_uint64 utf8]. by rewrite !bool_decide_true.
Qed.

Lemma items_roundtrip d l :
  Forall (item_ok d) l -> map_throws from_json (map reparsed (map to_json l)) = inr l.
Proof.
  intros Hl. rewrite map_map. apply map_throws_inr, Forall2_fmap_l, Forall_Forall2_diag.
  eapply Forall_impl; [exact Hl|]. by intros x (_ & _ & Hx).
Qed.

Definition data_json (d : api_data T) : json :=
  match d with One x => to_json x | Many l => JArray (map to_json l) | NoData => JNull end.
Definition meta_json (m : option DataMeta) : jobject :=
  match m with Some m => [(lit "meta", from_DataMeta m)] | None => [] end.

Lemma from_ApiDataResponse_shape resp :
  from_ApiDataResponse resp = JObject ((lit "data", data_json resp.(a_data)) :: meta_json resp.(a_meta)).
Proof. reflexivity. Qed.

Lemma reparsed_shape resp :
  reparsed (from_ApiDataResponse resp) =
    JObject ((lit "data", reparsed (data_json resp.(a_data))) :: reparsed_members (meta_json resp.(a_meta))).
Proof. reflexivity. Qed.

Lemma meta_read meta :
  (forall m, meta = Some m -> meta_ok m) ->
  match obj_find (lit "meta") (reparsed_members (meta_json meta)) with
  | Some v => let! m := to_DataMeta v in inr (Some m)
  | None => inr None
  end = @inr exn _ meta.
Proof.
  intros Hm. destruct meta as [m|]; [|done]. cbn [meta_json reparsed_members map fst snd obj_find].
  rewrite decide_True by done. by rewrite to_from_DataMeta by auto.
Qed.

Lemma data_read resp :
  data_ok resp ->
  match Some (reparsed (data_json resp.(a_data))) with
  | Some (JArray l) => let! xs := map_throws from_json l in inr (Many xs)
  | Some v => let! x := from_json v in inr (One x)
  | None => inr NoData
  end = inr resp.(a_data).
Proof.
  unfold data_ok. destruct (a_data resp) as [|x|l]; cbn [data_json]; [done| |].
  - intros [(_ & _ & Hx) Ha]. destruct (to_json x) as [| | |z| | | |]; try done; cbn [reparsed] in *;
      try (by rewrite Hx). destruct (z <=? INT64_MAX)%Z; by rewrite Hx.
  - intros Hl. cbn [reparsed]. by rewrite (items_roundtrip 30).
Qed.

Lemma to_from_ApiDataResponse resp :
  data_ok resp -> (forall m, resp.(a_meta) = Some m -> meta_ok m) ->
  to_ApiDataResponse (reparsed (from_ApiDataResponse resp)) =
    inr (mkApiData resp.(a_data) resp.(a_meta) (lit "application/json")).
Proof.
  intros Hd Hm. rewrite reparsed_shape. unfold to_ApiDataResponse.
  change (obj_find (lit "meta") ((lit "data", reparsed (data_json resp.(a_data))) ::
    reparsed_members (meta_json resp.(a_meta))))
    with (obj_find (lit "meta") (reparsed_members (meta_json resp.(a_meta)))).
  rewrite (meta_read _ Hm). cbn [obj_find]. rewrite decide_True by done.
  by rewrite (data_read _ Hd).
Qed.

Lemma data_json_ok resp :
  data_ok resp -> json_wf (data_json resp.(a_data)) /\ printable 31 (data_json resp.(a_data)) = true.
Proof.
  unfold data_ok. destruct (a_data resp) as [|x|l]; cbn [data_json]; [done| |].
  - by intros [(? & ? & _) _].
  - intros Hl. rewrite json_wf_array. split.
    + apply Forall_map. eapply Forall_impl; [exact Hl|]. by intros x (? & _).
    + cbn [printable]. apply forallb_forall. intros j (x & <- & Hx)%in_map_iff.
      rewrite Forall_forall in Hl. by destruct (Hl x) as (_ & ? & _); [apply list_elem_of_In|].
Qed.

Lemma from_ApiDataResponse_ok resp :
  data_ok resp -> (forall m, resp.(a_meta) = Some m -> meta_ok m) ->
  json_wf (from_ApiDataResponse resp) /\ printable 32 (from_ApiDataResponse resp) = true.
Proof.
  intros Hd Hm. destruct (data_json_ok _ Hd) as [Hw Hp]. rewrite from_ApiDataResponse_shape, json_wf_object.
  destruct (a_meta resp) as [m|]; cbn [meta_json].
  - destruct (meta_json_ok m (Hm m eq_refl)) as [Hmw Hmp]. split; [split|].
    + apply (bool_decide_unpack _); vm_compute; exact I.
    + intros k v. rewrite !elem_of_cons. by intros [[= -> ->]|[[= -> ->]|?%elem_of_nil]].
    + change (printable 31 (data_json resp.(a_data)) && (printable 31 (from_DataMeta m) && true) = true).
      by rewrite Hp, Hmp.
  - split; [split|].
    + apply (bool_decide_unpack _); vm_compute; exact I.
    + intros k v. rewrite !elem_of_cons. by intros [[= -> ->]|?%elem_of_nil].
    + change (printable 31 (data_json resp.(a_data)) && true = true). by rewrite Hp.
Qed.

(** An error whose text parses. *)
Definition error_ok (e : Error) : Prop :=
  in_int32 e.(code) /\ utf8 e.(what) = true /\ utf8 e.(key) = true /\
  json_wf (JObject e.(params)) /\ printable 30 (JObject e.(params)) = true /\
  e.(content_type) = lit "application/json" /\ e.(alternative_body) = None.

(** What the client holds of an error: the status and the content type are not
    in its text. *)
Definition error_read (e : Error) : Error :=
  mkError e.(code) e.(what) e.(key) 500 (reparsed_members e.(params)) (lit "application/json") None.

Lemma in_int32_64 z : in_int32 z -> in_int64 z.
Proof. unfold in_int32, in_int64, INT_MIN, INT_MAX, INT64_MIN, INT64_MAX. lia. Qed.

Lemma value_from_ErrorResponse_ok e :
  error_ok e ->
  json_wf (value_from_ErrorResponse e) /\ printable 32 (value_from_ErrorResponse e) = true.
Proof.
  intros (Hc & Hwh & Hk & Hw & Hp & _). split.
  - apply obj_set_wf; [by repeat constructor|]. unfold value_from_Error.
    repeat apply obj_set_wf; try done. by repeat constructor.
  - change (bool_decide (in_int64 e.(code)) && (utf8 e.(what) && (utf8 e.(key) &&
      (printable 30 (JObject e.(params)) && true))) && true = true).
    rewrite bool_decide_true by (by apply in_int32_64). by rewrite Hwh, Hk, Hp.
Qed.

Lemma to_Error_reparsed e :
  error_ok e -> to_Error (reparsed (value_from_Error e)) = inr (error_read e).
Proof.
  intros (Hc & _). transitivity (let! c := lift_std (to_number_int (JInt64 e.(code))) in
    @inr exn _ (mkError c e.(what) e.(key) 500 (reparsed_members e.(params)) (lit "application/json") None));
    [reflexivity|].
  by rewrite to_number_int_ok.
Qed.

(** C23: What a handler answers reaches the client: the body of the response
    generated for data - one item or a list, with its meta data - parses and is
    read as that data; and the JSON text of an error, with its code, message,
    key and parameters, is read as an error with those.  The text is parsed under
    the parser's default options, so that the parsed document is not the one
    written: an unsigned integer that fits the signed type comes back signed,
    the offset and limit of the meta data among them, which are read all the
    same.  What is written has to survive that: items nested at most 30 levels
    deep (31 for a single one, which is no array), without floating-point
    numbers and in UTF-8, each read back from its parsed form; an error with
    message and key in UTF-8 and such parameters, whose unsigned integers come
    back signed when they fit. *)
Theorem api_response_roundtrip :
  (forall resp status, data_ok resp -> (forall m, resp.(a_meta) = Some m -> meta_ok m) ->
     exists j, json_parse (generate_data resp status).(g_response).(s_body) = inr j /\
       j = reparsed (from_ApiDataResponse resp) /\
       (generate_data resp status).(g_response).(s_status) = status /\
       to_ApiResponseResult j = inr (Ok (mkApiData resp.(a_data) resp.(a_meta) (lit "application/json")))) /\
  (forall e, error_ok e ->
     exists j, json_parse (error_to_response e) = inr j /\
       j = reparsed (value_from_ErrorResponse e) /\
       to_ApiResponseResult (T := T) j = inr (Err (error_read e))).
Proof.
  split.
  - intros resp status Hd Hm. exists (reparsed (from_ApiDataResponse resp)). split_and!; [|done| |].
    + unfold generate_data; cbn [g_response]. rewrite prepare_response_body. cbn [s_body plain_response].
      by apply json_parse_serialize; apply from_ApiDataResponse_ok.
    + unfold generate_data; cbn [g_response]. by rewrite prepare_response_status.
    + pose proof (to_from_ApiDataResponse resp Hd Hm) as Hr. rewrite reparsed_shape in *.
      unfold to_ApiResponseResult, catch_std.
      assert (He : forall d, obj_find (lit "error") ((lit "data", d) ::
        reparsed_members (meta_json (a_meta resp))) = None) by (intros d; by destruct (a_meta resp)).
      rewrite He. unfold obj_contains. cbn [obj_find]. rewrite decide_True by done. by rewrite Hr.
  - intros e He. exists (reparsed (value_from_ErrorResponse e)). split_and!; [|done|].
    + destruct (value_from_ErrorResponse_ok e He) as [Hw Hp]. destruct He as (_ & _ & _ & _ & _ & Ht & Ha).
      unfold error_to_response. rewrite Ha, decide_True by done. by apply json_parse_serialize.
    + pose proof (to_Error_reparsed e He) as Hr.
      unfold to_ApiResponseResult.
      change (reparsed (value_from_ErrorResponse e)) with
        (JObject [(lit "error", reparsed (value_from_Error e))]).
      cbn [obj_find]. rewrite decide_True by done. by rewrite Hr.
Qed.

(** A response without data is written with [null] and cannot be read back when
    [null] is no item. *)
Lemma empty_response_not_read w :
  from_json JNull = @inl exn T (StdExn w) ->
  exists e, to_ApiResponseResult (T := T) (from_ApiDataResponse (mkApiData (T := T) NoData None [])) = inr (Err e) /\
    e.(code) = malformed.
Proof.
  intros Hn. exists (make_error malformed ((lit "error in parsing ApiResponse: " ++ w) ++ lit ", json: " ++
    json_serialize (JObject [(lit "data", JNull)]))). split; [|reflexivity].
  change (from_ApiDataResponse (mkApiData NoData None [])) with (JObject [(lit "data", JNull)]).
  assert (Hr : to_ApiDataResponse (T := T) (JObject [(lit "data", JNull)]) = inl (StdExn w)).
  { unfold to_ApiDataResponse. cbn [obj_find]. rewrite decide_True by done. by rewrite Hn. }
  transitivity (catch_std (let! r := to_ApiDataResponse (T := T) (JObject [(lit "data", JNull)]) in inr (Ok r))
    (fun w => inr (make_result_error (T := T) (JObject [(lit "data", JNull)]) malformed
                     (lit "error in parsing ApiResponse: " ++ w)))); [reflexivity|].
  rewrite Hr. reflexivity.
Qed.
End roundtrip.

(** The content type given to a response is not used. *)
Lemma content_type_ignored `{JsonLib} `{ResponsePayload} {T} `{JsonForm T} (d : api_data T) m ct1 ct2 status :
  generate_data (mkApiData d m ct1) status = generate_data (mkApiData d m ct2) status.
Proof. reflexivity. Qed.

#[local] Instance str_form : JsonForm str := {| to_json := JString; from_json := fun j => match j with JString s => inr s | _ => inl (StdExn []) end |}.
#[local] Instance demo_response_payload : ResponsePayload := {| prepare_response := fun r => r |}.
#[local] Instance demo_response_payload_laws : ResponsePayloadLaws.
Proof. by split. Qed.

#[local] Definition error_with (params : jobject) : Error :=
  mkError 9001 (lit "bad") (lit "k") 500 params (lit "application/json") None.

Lemma api_response_roundtrip_witness :
  (exists j, json_parse (JsonLib := BinaryJson.lib)
      (generate_data (H := BinaryJson.lib) (api_many [lit "a"; lit "b"] []) 200).(g_response).(s_body) = inr j /\
    obj_find (lit "limit") (match j with JObject [_; (_, JObject m)] => m | _ => [] end) = Some (JInt64 2) /\
    to_ApiResponseResult (H := BinaryJson.lib) (T := str) j =
      inr (Ok (mkApiData (Many [lit "a"; lit "b"]) (Some (mkMeta 2 0 2)) (lit "application/json")))) /\
  (exists j, json_parse (JsonLib := BinaryJson.lib)
      (error_to_response (H := BinaryJson.lib) (error_with [(lit "n", JUint64 7)])) = inr j /\
    to_ApiResponseResult (H := BinaryJson.lib) (T := str) j =
      inr (Err (error_with [(lit "n", JInt64 7)]))).
Proof.
  destruct (api_response_roundtrip (H := BinaryJson.lib) (H0 := BinaryJson.laws) (T := str)) as [Hdata Herr].
  split.
  - destruct (Hdata (api_many [lit "a"; lit "b"] []) 200%Z) as (j & Hj & Ej & _ & Hr).
    + by repeat constructor.
    + intros m [= <-]. unfold meta_ok, in_int64, in_uint64, INT64_MIN, INT64_MAX, UINT64_MAX. simpl. lia.
    + exists j. split; [exact Hj|]. split; [by subst j|exact Hr].
  - destruct (Herr (error_with [(lit "n", JUint64 7)])) as (j & Hj & _ & Hr).
    + split_and!; try reflexivity; [vm_compute; by split|]. apply (bool_decide_unpack _). vm_compute. exact I.
    + exists j. split; [exact Hj|exact Hr].
Defined.
