(* ===== verification/LogStream.v ===== *)
(** * Log streams ([src/include/log_stream.hpp], [src/include/i_output.hpp])

    Streams that put a prefix in front of each line.  The thread-safe one
    collects a line and writes it under the mutex of the console; the other one
    writes as it goes.  A value is the text [operator<<] gives it, a manipulator
    is [std::endl] or the text another one adds. *)

From Stdlib Require Import ZArith Lia Ascii String.
From stdpp Require Import base list gmap strings.
From S2P Require Import Prelude Json ResultMonad.

Inductive piece :=
  | Val (text : str)
  | Endl
  | Manip (text : str).

(** ** PrefixedStreamThreadSafe *)

Record safe_stream := mkSafe {
  prefix_ : str;
  enabled_ : bool;
  buffer_ : str;
  first_ : bool;
}.

Definition new_safe (prefix : str) (enabled : bool) : safe_stream := mkSafe prefix enabled [] true.

Definition maybe_prefix (s : safe_stream) : safe_stream :=
  if s.(first_) then mkSafe s.(prefix_) s.(enabled_) (s.(buffer_) ++ s.(prefix_)) false else s.

Definition append (t : str) (s : safe_stream) : safe_stream :=
  mkSafe s.(prefix_) s.(enabled_) (s.(buffer_) ++ t) s.(first_).

(** What is written to the console, and the stream afterwards. *)
Definition flush (s : safe_stream) : str * safe_stream :=
  (s.(buffer_) ++ nl, mkSafe s.(prefix_) s.(enabled_) [] true).

Definition write_safe (p : piece) (s : safe_stream) : str * safe_stream :=
  if negb s.(enabled_) then ([], s)
  else
    match p with
    | Val t => ([], append t (maybe_prefix s))
    | Endl => flush s
    | Manip t => ([], append t s)
    end.

(** ** PrefixedStream *)

Record direct_stream := mkDirect {
  d_prefix : str;
  d_enabled : bool;
  d_first : bool;
}.

Definition new_direct (prefix : str) (enabled : bool) : direct_stream := mkDirect prefix enabled true.

Definition write_direct (p : piece) (s : direct_stream) : str * direct_stream :=
  if negb s.(d_enabled) then ([], s)
  else
    match p with
    | Val t => ((if s.(d_first) then s.(d_prefix) else []) ++ t, mkDirect s.(d_prefix) s.(d_enabled) false)
    | Endl => (nl, mkDirect s.(d_prefix) s.(d_enabled) true)
    | Manip t => (t, s)
    end.

(** ** LogStream and the console *)

(** [ImplPrefixed] or [ImplNull]. *)
Inductive log_impl :=
  | ImplPrefixed (stream : safe_stream)
  | ImplNull.

Definition make_enabled (prefix : str) : log_impl := ImplPrefixed (new_safe prefix true).
Definition make_disabled : log_impl := ImplNull.

Definition write_log (p : piece) (l : log_impl) : str * log_impl :=
  match l with
  | ImplPrefixed s => let '(out, s') := write_safe p s in (out, ImplPrefixed s')
  | ImplNull => ([], ImplNull)
  end.

Definition is_enabled (l : log_impl) : bool :=
  match l with ImplPrefixed s => s.(enabled_) | ImplNull => false end.

Definition ESC : ascii := "027"%char.
Definition ansi (s : string) : str := ESC :: lit s.
Definition RESET : str := ansi "[0m".
Definition RED : str := ansi "[31m".
Definition YELLOW : str := ansi "[33m".
Definition GREEN : str := ansi "[32m".
Definition CYAN : str := ansi "[36m".
Definition GRAY : str := ansi "[90m".

Definition color_prefix (prefix color : str) : str := color ++ prefix ++ RESET.

(** Text between an escape and the next [m] is dropped. *)
Fixpoint remove_color_from (skip : bool) (s : str) : str :=
  match s with
  | [] => []
  | c :: s' =>
      if decide (c = ESC) then remove_color_from true s'
      else if skip && bool_decide (c = "m"%char) then remove_color_from false s'
      else if skip then remove_color_from skip s'
      else c :: remove_color_from skip s'
  end.
Definition remove_color (s : str) : str := remove_color_from false s.

Definition make_stream (use_color : bool) (prefix : str) (enabled : bool) : log_impl :=
  if enabled && negb use_color then make_enabled (remove_color prefix)
  else if enabled then make_enabled prefix
  else make_disabled.

Inductive log_level := LError | LWarning | LInfo | LDebug | LTrace.

Definition level_name (l : log_level) : str :=
  match l with
  | LError => lit "[error]: " | LWarning => lit "[warning]: " | LInfo => lit "[info]: "
  | LDebug => lit "[debug]: " | LTrace => lit "[trace]: "
  end.
Definition level_color (l : log_level) : str :=
  match l with LError => RED | LWarning => YELLOW | LInfo => GREEN | LDebug => CYAN | LTrace => GRAY end.
Definition level_verbosity (l : log_level) : nat :=
  match l with LError => 1 | LWarning => 2 | LInfo => 3 | LDebug => 4 | LTrace => 5 end.

(** [error()], [warning()], [info()], [debug()], [trace()]. *)
Definition console_stream (use_color : bool) (verbosity : nat) (l : log_level) : log_impl :=
  make_stream use_color (color_prefix (level_name l) (level_color l)) (level_verbosity l <=? verbosity)%nat.

(** *** The outputs of i_output.hpp

    [ConsoleOutput], [OsstringOutput] and [FileOutput] differ in where they write
    and in the verbosity a level needs. *)

Definition plain_stream (prefix : str) (enabled : bool) : log_impl :=
  if enabled then make_enabled prefix else make_disabled.
Definition ConsoleOutput (verbosity : nat) (l : log_level) : log_impl :=
  plain_stream (level_name l) (level_verbosity l <=? verbosity)%nat.
Definition OsstringOutput (verbosity : nat) (l : log_level) : log_impl :=
  plain_stream (level_name l) (level_verbosity l <=? verbosity)%nat.
Definition file_level_verbosity (l : log_level) : nat :=
  match l with LError => 1 | LWarning => 1 | LInfo => 2 | LDebug => 3 | LTrace => 4 end.
(** [opens]: the file is open after [ofs_.open]. *)
Definition FileOutput (opens : str -> bool) (verbosity : nat) (file_path : str) : throws (log_level -> log_impl) :=
  if opens file_path
  then inr (fun l => plain_stream (level_name l) (file_level_verbosity l <=? verbosity)%nat)
  else inl (StdExn (lit "Failed to open output file: " ++ file_path)).

(** What an [OsstringOutput] holds: [str()] and [clear()]. *)
Definition oss_write (text : str) (os : str) : str := os ++ text.
Definition oss_clear (os : str) : str := [].

(** ** Several threads, one console *)

(** A history: which stream gets which piece, in the order it happens. *)
Fixpoint run_streams (evs : list (nat * piece)) (ss : list safe_stream) : str * list safe_stream :=
  match evs with
  | [] => ([], ss)
  | (i, p) :: evs' =>
      match ss !! i with
      | None => run_streams evs' ss
      | Some s =>
          let '(out, s') := write_safe p s in
          let '(rest, ss') := run_streams evs' (<[i := s']> ss) in
          (out ++ rest, ss')
      end
  end.

(** The lines a stream completes on its own. *)
Fixpoint lines_of (ps : list piece) (s : safe_stream) : list str :=
  match ps with
  | [] => []
  | p :: ps' =>
      let '(out, s') := write_safe p s in
      match out with [] => lines_of ps' s' | _ => out :: lines_of ps' s' end
  end.

Definition pieces_of (i : nat) (evs : list (nat * piece)) : list piece :=
  omap (fun e => if decide (e.1 = i) then Some e.2 else None) evs.
Definition own_lines (i : nat) (ls : list (nat * str)) : list str :=
  omap (fun e => if decide (e.1 = i) then Some e.2 else None) ls.

(** A write gives nothing or one whole line. *)
Lemma write_safe_line p s :
  (write_safe p s).1 = [] \/ exists t, (write_safe p s).1 = t ++ nl.
Proof.
  unfold write_safe, flush. destruct (negb _); [by left|]. destruct p; [by left|right; by eexists|by left].
Qed.

(** Lines of concurrent streams do not mix.  Whatever the order in which
    threads write pieces to their streams, what the console receives is a
    sequence of whole lines, each of one stream, and the lines of each stream
    are those it would have written alone. *)
Theorem console_lines_do_not_mix (evs : list (nat * piece)) (ss : list safe_stream) :
  exists ls : list (nat * str),
    (run_streams evs ss).1 = concat (map snd ls) /\
    Forall (fun l => exists t, l.2 = t ++ nl) ls /\
    forall i s, ss !! i = Some s -> own_lines i ls = lines_of (pieces_of i evs) s.
Proof.
  revert ss. induction evs as [|[i p] evs IH]; intros ss; [exists []; by repeat constructor|].
  cbn [run_streams]. destruct (ss !! i) as [s|] eqn:Es.
  - destruct (IH (<[i := (write_safe p s).2]> ss)) as (ls & Hout & Hl & Hown).
    pose proof (write_safe_line p s) as Hline. destruct (write_safe p s) as [out s'] eqn:Ew. cbn [fst snd] in *.
    destruct (run_streams evs _) as [rest ss'] eqn:Er. cbn [fst] in *. subst rest.
    assert (Hi : <[i:=s']> ss !! i = Some s') by (by eapply list_lookup_insert_eq, lookup_lt_Some).
    destruct out as [|c out].
    + exists ls. split_and!; [done|done|]. intros j sj Hj. cbn [pieces_of omap list_omap fst snd].
      case_decide as Hij; cbn [fst] in Hij.
      * subst j. replace sj with s in * by congruence. rewrite (Hown i s') by done.
        cbn [lines_of]. by rewrite Ew.
      * apply Hown. by rewrite list_lookup_insert_ne.
    + destruct Hline as [?|Hline]; [done|]. exists ((i, c :: out) :: ls). split_and!.
      * done.
      * by constructor.
      * intros j sj Hj. cbn [own_lines pieces_of omap list_omap fst snd].
        case_decide as Hij; cbn [fst] in Hij.
        -- subst j. replace sj with s in * by congruence. cbn [lines_of]. rewrite Ew.
           f_equal. by apply Hown.
        -- apply Hown. by rewrite list_lookup_insert_ne.
  - destruct (IH ss) as (ls & Hout & Hl & Hown). exists ls. split_and!; [done|done|].
    intros j sj Hj. cbn [pieces_of omap list_omap fst snd]. rewrite decide_False by congruence. by apply Hown.
Qed.

(** The direct stream writes, line by line, what the thread-safe one does. *)
Fixpoint run_direct (ps : list piece) (s : direct_stream) : str :=
  match ps with
  | [] => []
  | p :: ps' => let '(out, s') := write_direct p s in out ++ run_direct ps' s'
  end.

Lemma direct_agrees_gen pre ps : forall buf first,
  buf ++ run_direct (ps ++ [Endl]) (mkDirect pre true first) =
    concat (lines_of (ps ++ [Endl]) (mkSafe pre true buf first)).
Proof.
  assert (Hflush : forall (buf : str) rest,
    match buf ++ nl with [] => rest | _ => (buf ++ nl) :: rest end = (buf ++ nl) :: rest) by (by intros []).
  induction ps as [|p ps IH]; intros buf first.
  - cbn [app run_direct lines_of write_direct write_safe negb d_enabled enabled_ flush buffer_].
    rewrite Hflush. cbn. by rewrite app_nil_r.
  - destruct p as [t| |t];
      cbn [app run_direct lines_of write_direct write_safe negb d_enabled enabled_ d_first d_prefix].
    + unfold maybe_prefix, append. cbn [first_ prefix_ enabled_ buffer_].
      destruct first; cbn [first_ prefix_ enabled_ buffer_]; rewrite <- IH; by rewrite <- !app_assoc.
    + unfold flush. cbn [buffer_ prefix_ enabled_]. rewrite Hflush. cbn [concat]. rewrite <- IH.
      by rewrite <- app_assoc.
    + unfold append. cbn [first_ prefix_ enabled_ buffer_]. rewrite <- IH. by rewrite <- app_assoc.
Qed.

(** On complete lines a stream that writes as it goes gives the same text. *)
Lemma direct_agrees pre ps :
  run_direct (ps ++ [Endl]) (new_direct pre true) = concat (lines_of (ps ++ [Endl]) (new_safe pre true)).
Proof. apply (direct_agrees_gen pre ps [] true). Qed.

(** The prefixes of the levels without their colors. *)
Lemma remove_color_prefix l : remove_color (color_prefix (level_name l) (level_color l)) = level_name l.
Proof. by destruct l. Qed.

(** A level is shown exactly from its verbosity on. *)
Lemma console_stream_enabled color v l : is_enabled (console_stream color v l) = (level_verbosity l <=? v)%nat.
Proof. unfold console_stream, make_stream. destruct (level_verbosity l <=? v)%nat, color; done. Qed.

Lemma console_demo :
  let s := new_safe (lit "> ") true in
  (run_streams [(0, Val (lit "a")); (1, Val (lit "b")); (0, Endl); (1, Val (lit "c")); (1, Endl)] [s; s]).1 =
    lit "> a" ++ nl ++ lit "> bc" ++ nl.
Proof. by vm_compute. Qed.

(** A more verbose output enables at least as many levels, and a level that is
    enabled enables the more severe ones. *)
Definition severity (l : log_level) : nat :=
  match l with LError => 0 | LWarning => 1 | LInfo => 2 | LDebug => 3 | LTrace => 4 end.
Lemma plain_stream_enabled prefix b : is_enabled (plain_stream prefix b) = b.
Proof. by destruct b. Qed.
Lemma outputs_monotone opens path out v v' l l' :
  FileOutput opens v path = inr out -> (v <= v')%nat -> (severity l <= severity l')%nat ->
  (is_enabled (ConsoleOutput v l') = true -> is_enabled (ConsoleOutput v' l) = true) /\
  (is_enabled (out l') = true -> exists out', FileOutput opens v' path = inr out' /\ is_enabled (out' l) = true).
Proof.
  unfold FileOutput, ConsoleOutput. destruct (opens path) eqn:E; [|done]. intros [= <-] Hv Hl.
  split; [|intros H; eexists; split; [reflexivity|revert H]]; rewrite !plain_stream_enabled, !Nat.leb_le;
    destruct l, l'; simpl in *; lia.
Qed.

(** The same verbosity shows more in a file: warnings at 1 and information at 2. *)
Lemma file_shows_more opens path out v l :
  FileOutput opens v path = inr out -> is_enabled (ConsoleOutput v l) = true -> is_enabled (out l) = true.
Proof.
  unfold FileOutput, ConsoleOutput. destruct (opens path); [|done]. intros [= <-].
  rewrite !plain_stream_enabled, !Nat.leb_le. destruct l; simpl; lia.
Qed.
