(* ===== verification/RetryExecutor.v ===== *)
(** * The shared retry executor ([src/include/io_retry_executor.hpp])

    [retry_io_context()] keeps an [io_context] and a thread that runs it for the
    overloads of the retry and polling loops that are given no executor.  Its state
    lives in function-local statics, which the first call makes, and goes at the
    exit of the process: the stack of things to do then is last in, first out, and
    the handler given to [std::atexit] is pushed after the destructors of the
    statics.  Any thread calls [retry_io_context()], posts handlers or starts the
    exit at any time; the exit is not called from a handler. *)

From Stdlib Require Import ZArith Lia.
From stdpp Require Import base list relations.
From S2P Require Import Prelude.

(** What is done at exit. *)
Inductive exit_action :=
  | RunHandler        (** [guard.reset(); ioc.stop();], then the join *)
  | JoinRunner        (** the second half of the handler: [runner->join(); runner.reset();] *)
  | DestroyRunner     (** [~shared_ptr<std::thread>] *)
  | DestroyGuard
  | DestroyIoc.

(** The thread object in [runner], and its thread. *)
Inductive runner_state :=
  | NoRunner
  | Running           (** in [ioc.run()] *)
  | Returned          (** [ioc.run()] has returned; the thread is joinable *)
  | Joined.

Record executor := mkExecutor {
  made : bool;                    (** the statics are constructed *)
  once : bool;                    (** [std::call_once] has run its function *)
  guard : bool;                   (** the work guard is held *)
  stopped : bool;                 (** [ioc.stop()] was called *)
  destroyed : bool;               (** [ioc] is gone *)
  runner : runner_state;
  threads : nat;                  (** threads started so far *)
  queued : list bool;             (** handlers posted; [true]: one that throws *)
  ran : nat;
  exiting : bool;
  at_exit : list exit_action;
  terminated : bool;              (** [std::terminate] was called *)
  undefined : bool;               (** the thread used a destroyed [io_context] *)
}.
Definition start : executor :=
  mkExecutor false false false false false NoRunner 0 [] 0 false [] false false.

(** *** [retry_io_context()]

    The statics first, then the function of [call_once]; other callers wait for both. *)
Definition make_statics (s : executor) : executor :=
  if s.(made) then s
  else mkExecutor true s.(once) s.(guard) s.(stopped) s.(destroyed) s.(runner) s.(threads) s.(queued) s.(ran)
         s.(exiting) ([DestroyRunner; DestroyGuard; DestroyIoc] ++ s.(at_exit)) s.(terminated) s.(undefined).
Definition call_once (s : executor) : executor :=
  if s.(once) then s
  else mkExecutor s.(made) true true s.(stopped) s.(destroyed) Running (S s.(threads)) s.(queued) s.(ran)
         s.(exiting) (RunHandler :: s.(at_exit)) s.(terminated) s.(undefined).
Definition retry_io_context (s : executor) : executor := call_once (make_statics s).

Definition post (throws : bool) (s : executor) : executor :=
  mkExecutor s.(made) s.(once) s.(guard) s.(stopped) s.(destroyed) s.(runner) s.(threads) (s.(queued) ++ [throws])
    s.(ran) s.(exiting) s.(at_exit) s.(terminated) s.(undefined).

(** The thread takes the next handler; nothing catches what it throws. *)
Definition run_one (throws : bool) (rest : list bool) (s : executor) : executor :=
  mkExecutor s.(made) s.(once) s.(guard) s.(stopped) s.(destroyed) s.(runner) s.(threads) rest (S s.(ran))
    s.(exiting) s.(at_exit) (s.(terminated) || throws) (s.(undefined) || s.(destroyed)).

Definition set_runner (r : runner_state) (s : executor) : executor :=
  mkExecutor s.(made) s.(once) s.(guard) s.(stopped) s.(destroyed) r s.(threads) s.(queued) s.(ran)
    s.(exiting) s.(at_exit) s.(terminated) s.(undefined).

Definition begin_exit (s : executor) : executor :=
  mkExecutor s.(made) s.(once) s.(guard) s.(stopped) s.(destroyed) s.(runner) s.(threads) s.(queued) s.(ran)
    true s.(at_exit) s.(terminated) s.(undefined).

(** The next action of the exit, with the rest of the stack. *)
Definition exit_step (a : exit_action) (rest : list exit_action) (s : executor) : option executor :=
  match a with
  | RunHandler =>
      Some (mkExecutor s.(made) s.(once) false true s.(destroyed) s.(runner) s.(threads) s.(queued) s.(ran)
              s.(exiting) (JoinRunner :: rest) s.(terminated) s.(undefined))
  | JoinRunner =>
      match s.(runner) with
      | Running => None                                  (** the join waits *)
      | _ => Some (mkExecutor s.(made) s.(once) s.(guard) s.(stopped) s.(destroyed)
                     (match s.(runner) with NoRunner => NoRunner | _ => Joined end) s.(threads) s.(queued) s.(ran)
                     s.(exiting) rest s.(terminated) s.(undefined))
      end
  | DestroyRunner =>
      (** destroying a joinable thread terminates *)
      Some (mkExecutor s.(made) s.(once) s.(guard) s.(stopped) s.(destroyed) s.(runner) s.(threads) s.(queued) s.(ran)
              s.(exiting) rest
              (match s.(runner) with Running | Returned => true | _ => s.(terminated) end) s.(undefined))
  | DestroyGuard =>
      Some (mkExecutor s.(made) s.(once) false s.(stopped) s.(destroyed) s.(runner) s.(threads) s.(queued) s.(ran)
              s.(exiting) rest s.(terminated) s.(undefined))
  | DestroyIoc =>
      Some (mkExecutor s.(made) s.(once) s.(guard) s.(stopped) true s.(runner) s.(threads) s.(queued) s.(ran)
              s.(exiting) rest s.(terminated)
              (s.(undefined) || match s.(runner) with Running => true | _ => false end))
  end.

Section steps.
Context (may_throw : bool).       (** are there handlers that throw *)

Inductive exec_step : executor -> executor -> Prop :=
  | ex_call s : s.(exiting) = false -> exec_step s (retry_io_context s)
  | ex_post b s : s.(once) = true -> s.(exiting) = false -> (b = true -> may_throw = true) -> exec_step s (post b s)
  | ex_run b rest s :
      s.(runner) = Running -> s.(stopped) = false -> s.(queued) = b :: rest -> exec_step s (run_one b rest s)
  | ex_return s :
      s.(runner) = Running -> (s.(stopped) = true \/ (s.(guard) = false /\ s.(queued) = [])) ->
      exec_step s (set_runner Returned s)
  | ex_exit s : s.(exiting) = false -> exec_step s (begin_exit s)
  | ex_action a rest s s' :
      s.(exiting) = true -> s.(at_exit) = a :: rest -> exit_step a rest s = Some s' -> exec_step s s'.

(** ** What is kept *)

(** How far the process has come: before the first call, with the thread running,
    with the exit waiting for the thread, and with the thread joined. *)
Definition is_new (s : executor) : Prop :=
  s.(made) = false /\ s.(once) = false /\ s.(runner) = NoRunner /\ s.(threads) = 0 /\ s.(at_exit) = [] /\
  s.(stopped) = false /\ s.(destroyed) = false.
Definition is_up (s : executor) : Prop :=
  s.(made) = true /\ s.(once) = true /\ s.(runner) = Running /\ s.(threads) = 1 /\ s.(guard) = true /\
  s.(stopped) = false /\ s.(destroyed) = false /\
  s.(at_exit) = [RunHandler; DestroyRunner; DestroyGuard; DestroyIoc].
Definition is_joining (s : executor) : Prop :=
  s.(exiting) = true /\ (s.(runner) = Running \/ s.(runner) = Returned) /\ s.(threads) = 1 /\
  s.(stopped) = true /\ s.(destroyed) = false /\ s.(at_exit) = [JoinRunner; DestroyRunner; DestroyGuard; DestroyIoc].
Definition is_joined (s : executor) : Prop :=
  s.(exiting) = true /\ s.(runner) = Joined /\ s.(threads) = 1 /\
  exists l, l ++ s.(at_exit) = [DestroyRunner; DestroyGuard; DestroyIoc].

Record exec_inv (s : executor) : Prop := {
  ei_stage : is_new s \/ is_up s \/ is_joining s \/ is_joined s;
  ei_undefined : s.(undefined) = false;
  ei_calm : may_throw = false -> s.(terminated) = false /\ Forall (eq false) s.(queued);
}.

Lemma start_inv : exec_inv start.
Proof. split; [left; repeat split|done|done]. Qed.

(** Each stage under each step. *)
Lemma new_step s s' : is_new s -> exec_step s s' -> is_new s' \/ is_up s'.
Proof.
  intros (Hm & Ho & Hr & Ht & Ha & Hsp & Hd) Hs. destruct Hs; try congruence; [right|left; repeat split; done].
  unfold retry_io_context, call_once, make_statics. rewrite Hm. cbn. rewrite Ho. cbn.
  by rewrite Ha, Ht.
Qed.

Lemma up_step s s' : is_up s -> exec_step s s' -> is_up s' \/ is_joining s'.
Proof.
  intros (Hm & Ho & Hr & Ht & Hg & Hsp & Hd & Ha) Hs.
  destruct Hs as [s _|b s _ _ _|b rest s _ _ _|s _ [?|[? _]]|s _|a rest s s' He Ha' Hx]; try congruence.
  - left. unfold retry_io_context, call_once, make_statics. rewrite Hm, Ho. by repeat split.
  - left. by repeat split.
  - left. by repeat split.
  - left. by repeat split.
  - right. rewrite Ha in Ha'. simplify_eq. cbn in Hx. simplify_eq. repeat split; try done. by left.
Qed.

Lemma joining_step s s' : is_joining s -> exec_step s s' -> is_joining s' \/ is_joined s'.
Proof.
  intros (He & Hr & Ht & Hsp & Hd & Ha) Hs.
  destruct Hs as [s ?|b s _ ? _|b rest s _ ? _|s _ _|s ?|a rest s s' _ Ha' Hx]; try congruence.
  - left. repeat split; try done. by right.
  - rewrite Ha in Ha'. simplify_eq. cbn in Hx. destruct Hr as [Hr|Hr]; rewrite Hr in Hx; simplify_eq.
    right. repeat split; try done. by exists [].
Qed.

Lemma joined_step s s' : is_joined s -> exec_step s s' -> is_joined s'.
Proof.
  intros (He & Hr & Ht & l & Ha) Hs.
  destruct Hs as [s ?|b s _ ? _|b rest s ? _ _|s ? _|s ?|a rest s s' _ Ha' Hx]; try congruence.
  rewrite Ha' in Ha.
  assert (a = DestroyRunner \/ a = DestroyGuard \/ a = DestroyIoc) as Hcase.
  { assert (a ∈ l ++ a :: rest) as Hin by set_solver. rewrite Ha in Hin. set_solver. }
  assert (exists l', l' ++ rest = [DestroyRunner; DestroyGuard; DestroyIoc]) as Hrest
    by (exists (l ++ [a]); by rewrite <- app_assoc).
  destruct Hcase as [->|[->| ->]]; cbn in Hx; simplify_eq; by repeat split.
Qed.

Lemma exec_step_inv s s' : exec_inv s -> exec_step s s' -> exec_inv s'.
Proof.
  intros [Hst Hu Hc] Hs. split.
  - destruct Hst as [H|[H|[H|H]]];
      [destruct (new_step _ _ H Hs)|destruct (up_step _ _ H Hs)|destruct (joining_step _ _ H Hs)|
       pose proof (joined_step _ _ H Hs)]; tauto.
  - destruct Hs as [s _|b s _ _ _|b rest s Hr Hsp Hq|s _ _|s _|a rest s s' He Ha Hx]; try done.
    + unfold retry_io_context, call_once, make_statics. repeat case_match; done.
    + cbn. rewrite Hu. destruct Hst as [H|[H|[H|H]]]; unfold is_new, is_up, is_joining, is_joined in H;
        destruct_and?; first [congruence|match goal with E : destroyed s = false |- _ => by rewrite E end].
    + destruct a; cbn in Hx; repeat case_match; simplify_eq/=; try done; rewrite Hu; try done.
      destruct Hst as [Hg|[Hg|[Hg|Hg]]]; unfold is_new, is_up, is_joining, is_joined in Hg; destruct_and?; congruence.
  - intros Hcalm. destruct (Hc Hcalm) as [Ht Hq].
    destruct Hs as [s _|b s _ _ Hb|b rest s Hr Hsp Hq'|s _ _|s _|a rest s s' He Ha Hx]; try done.
    + unfold retry_io_context, call_once, make_statics. repeat case_match; done.
    + split; [done|]. cbn. apply Forall_app. split; [done|]. repeat constructor. destruct b; [by rewrite Hb in Hcalm|done].
    + rewrite Hq' in Hq. inversion_clear Hq as [|? ? <- Hrest]. split; [cbn; by rewrite Ht|done].
    + destruct a; cbn in Hx; repeat case_match; simplify_eq/=; try done;
        (destruct Hst as [Hg|[Hg|[Hg|Hg]]]; unfold is_new, is_up, is_joining, is_joined in Hg; destruct_and?; congruence).
Qed.

Lemma exec_reachable s : rtc exec_step start s -> exec_inv s.
Proof.
  intros H. eapply (rtc_invariant _ exec_inv); [|exact H|apply start_inv]. intros s1 s2. apply exec_step_inv.
Qed.

(** *** The exit comes to its end *)

Definition action_weight (a : exit_action) : nat := match a with RunHandler => 3 | _ => 1 end.
Definition exit_measure (s : executor) : nat :=
  sum_list_with action_weight s.(at_exit) + match s.(runner) with Running => 1 | _ => 0 end.

Lemma exit_moves s :
  exec_inv s -> s.(exiting) = true -> s.(at_exit) <> [] ->
  exists s', exec_step s s' /\ exit_measure s' < exit_measure s /\ s'.(exiting) = true.
Proof.
  intros [Hst _ _] He Hne. unfold exit_measure. destruct Hst as [Hg|[Hg|[Hg|Hg]]].
  - destruct Hg as (_ & _ & _ & _ & Ha & _). congruence.
  - destruct Hg as (Hm & Ho & Hr & Ht & Hg & Hsp & Hd & Ha).
    eexists. split; [by eapply ex_action|]. cbn. rewrite Ha, Hr. cbn. split; [lia|done].
  - destruct Hg as (_ & [Hr|Hr] & Ht & Hsp & Hd & Ha).
    + exists (set_runner Returned s). split; [apply ex_return; auto|]. cbn. rewrite Hr, Ha. cbn. split; [lia|done].
    + eexists. split; [eapply ex_action; [done|exact Ha|cbn; by rewrite Hr]|].
      cbn. rewrite Ha, Hr. cbn. split; [lia|done].
  - destruct Hg as (_ & Hr & Ht & l & Ha). destruct (at_exit s) as [|a rest] eqn:Hx; [done|].
    assert (exists s', exit_step a rest s = Some s' /\ s'.(at_exit) = rest /\ s'.(runner) = Joined /\ s'.(exiting) = true)
      as (s' & Hs' & Ha' & Hr' & He').
    { assert (a ∈ [DestroyRunner; DestroyGuard; DestroyIoc]) as Hin by (rewrite <- Ha; set_solver).
      repeat (apply elem_of_cons in Hin as [->|Hin]; [by eexists|]). by apply elem_of_nil in Hin. }
    exists s'. split; [by eapply ex_action|]. rewrite Ha', Hr', Hr. cbn.
    split; [|done]. destruct a; cbn; lia.
Qed.

End steps.

(** ** Witness: used once, then the process exits *)

Definition rx_used : executor := Eval vm_compute in run_one false [] (post false (retry_io_context start)).
Definition rx_stopped : executor := Eval vm_compute in default start (exit_step RunHandler [DestroyRunner; DestroyGuard; DestroyIoc] (begin_exit rx_used)).
Definition rx_returned : executor := Eval vm_compute in set_runner Returned rx_stopped.
Definition rx_joined : executor := Eval vm_compute in default start (exit_step JoinRunner [DestroyRunner; DestroyGuard; DestroyIoc] rx_returned).
Definition rx_end : executor := Eval vm_compute in
  default start (s1 ← exit_step DestroyRunner [DestroyGuard; DestroyIoc] rx_joined;
                 s2 ← exit_step DestroyGuard [DestroyIoc] s1; exit_step DestroyIoc [] s2).

Lemma exec_to s s' s'' e :
  exec_step false s s' -> s' = s'' -> rtc (exec_step false) s'' e -> rtc (exec_step false) s e.
Proof. intros H <-. by apply rtc_l. Qed.

Lemma action_to a rest s s' e :
  s.(exiting) = true -> s.(at_exit) = a :: rest -> exit_step a rest s = Some s' -> rtc (exec_step false) s' e ->
  rtc (exec_step false) s e.
Proof. intros. eapply rtc_l; [by eapply ex_action|done]. Qed.

Lemma rx_reachable : rtc (exec_step false) start rx_end.
Proof.
  eapply exec_to; [by apply ex_call|vm_compute; reflexivity|].
  eapply exec_to; [by apply (ex_post _ false)|vm_compute; reflexivity|].
  eapply exec_to; [by apply (ex_run _ false [])|vm_compute; reflexivity|].
  eapply exec_to; [by apply ex_exit|vm_compute; reflexivity|].
  eapply action_to; [reflexivity..|].
  eapply exec_to; [apply ex_return; [done|by left]|vm_compute; reflexivity|].
  repeat (eapply action_to; [reflexivity..|]). apply rtc_refl.
Qed.


(** A handler that throws ends the process. *)
Lemma throwing_handler_terminates s rest : (run_one true rest s).(terminated) = true.
Proof. cbn. by rewrite orb_true_r. Qed.
