(* ===== verification/VcpkgPorts.v ===== *)
(** * Rewriting vcpkg ports ([src/src/misc_util.cpp])

    Two helpers add a [GITHUB_HOST] to the calls of [vcpkg_from_github] in port
    files.  They use [std::regex] with its default (ECMAScript) grammar: the three
    patterns are sequences of characters and of starred character classes, for
    which [match_here] is the backtracking matcher and [matches] what it decides.
    What is printed is left out. *)

From Stdlib Require Import ZArith Lia Ascii String.
From stdpp Require Import base list gmap strings.
From S2P Require Import Prelude.

(** ** Regular expressions *)

(** One character of a class, or any number of them. *)
Inductive item :=
  | One (p : ascii -> bool)
  | Many (p : ascii -> bool).
Abbreviation regex := (list item).

Definition chr (c : ascii) : item := One (fun d => bool_decide (d = c)).
Definition chars (s : string) : regex := map chr (lit s).

(** The texts a pattern stands for. *)
Inductive matches : regex -> str -> Prop :=
  | m_nil : matches [] []
  | m_one p re c s : p c = true -> matches re s -> matches (One p :: re) (c :: s)
  | m_stop p re s : matches re s -> matches (Many p :: re) s
  | m_more p re c s : p c = true -> matches (Many p :: re) s -> matches (Many p :: re) (c :: s).

(** The match at the head of the text, by its length: a star takes what it can and
    gives back one character at a time. *)
Fixpoint match_here (re : regex) (s : str) : option nat :=
  match re with
  | [] => Some 0
  | One p :: re' =>
      match s with
      | c :: s' => if p c then S <$> match_here re' s' else None
      | [] => None
      end
  | Many p :: re' =>
      (fix more (s : str) : option nat :=
         match s with
         | c :: s' =>
             if p c then match more s' with Some n => Some (S n) | None => match_here re' s end
             else match_here re' s
         | [] => match_here re' []
         end) s
  end.

(** The first match in the text: what is before it, the match, and what is after. *)
Fixpoint search (re : regex) (s : str) : option (str * str * str) :=
  match match_here re s with
  | Some n => Some ([], take n s, drop n s)
  | None =>
      match s with
      | [] => None
      | c :: s' => match search re s' with Some (pre, m, suf) => Some (c :: pre, m, suf) | None => None end
      end
  end.

Definition regex_search (s : str) (re : regex) : bool :=
  match search re s with Some _ => true | None => false end.

Section replace.
(** The text of [$n]: there are no groups, and what an absent group stands for is
    implementation-defined. *)
Context (group_text : str -> str).

(** [match_results::format]. *)
Fixpoint format (fmt pre m suf : str) : str :=
  match fmt with
  | "$"%char :: "$"%char :: f => "$"%char :: format f pre m suf
  | "$"%char :: "&"%char :: f => m ++ format f pre m suf
  | "$"%char :: "`"%char :: f => pre ++ format f pre m suf
  | "$"%char :: "'"%char :: f => suf ++ format f pre m suf
  | "$"%char :: ((d :: f') as f) =>
      if is_digit d then
        match f' with
        | e :: f'' => if is_digit e then group_text [d; e] ++ format f'' pre m suf
                      else group_text [d] ++ format f' pre m suf
        | [] => group_text [d]
        end
      else "$"%char :: format f pre m suf
  | c :: f => c :: format f pre m suf
  | [] => []
  end.

(** Every match is replaced, the next being sought after the end of the last.  A
    match is not empty here, so the length of the text is fuel enough. *)
Fixpoint replace_loop (fuel : nat) (re : regex) (fmt s : str) : str :=
  match fuel with
  | 0 => s
  | S fuel' =>
      match search re s with
      | None => s
      | Some (pre, m, suf) => pre ++ format fmt pre m suf ++ replace_loop fuel' re fmt suf
      end
  end.
Definition regex_replace (s : str) (re : regex) (fmt : str) : str := replace_loop (S (length s)) re fmt s.

(** ** [append_GITHUB_HOST] *)

(** [\s] *)
Definition is_space (c : ascii) : bool :=
  let n := nat_of_ascii c in ((9 <=? n) && (n <=? 13) || (n =? 32))%nat.

(** [vcpkg_from_github\s*\(] *)
Definition github_func_pattern : regex := chars "vcpkg_from_github" ++ [Many is_space; chr "("%char].

Definition append_GITHUB_HOST (content host : str) : str :=
  if regex_search content github_func_pattern then
    match find_sub (lit "GITHUB_HOST") content with
    | None =>
        let fmt := lit "$&" ++ ["010"%char] ++ lit "GITHUB_HOST " ++ host ++ ["010"%char] in
        regex_replace content github_func_pattern fmt
    | Some _ => lit "b"
    end
  else lit "c".

(** ** [modify_vcpkg_ports] *)

(** A directory, in the order of its iterator. *)
Record entry := mkEntry { e_filename : str; e_regular : bool; e_content : str }.

(** [path::extension] of a file name. *)
Definition extension (name : str) : str :=
  if bool_decide (name = lit "..") then []
  else match rfind_char "." name with
       | None | Some 0 => []
       | Some i => drop i name
       end.

(** [vcpkg_from_github\([^\)]*\)] and [GITHUB_HOST\s*<[^\>]*>] *)
Definition github_call_pattern : regex :=
  chars "vcpkg_from_github(" ++ [Many (fun c => negb (bool_decide (c = ")"%char))); chr ")"%char].
Definition github_host_pattern : regex :=
  chars "GITHUB_HOST" ++ [Many is_space; chr "<"%char; Many (fun c => negb (bool_decide (c = ">"%char))); chr ">"%char].

Definition rewrite_port (content : str) : str :=
  if regex_search content github_call_pattern then
    if negb (regex_search content github_host_pattern)
    then regex_replace content github_call_pattern (lit " GITHUB_HOST <https://github.com>")
    else content
  else content.

Definition modify_entry (e : entry) : entry :=
  if e.(e_regular) && bool_decide (extension e.(e_filename) = lit ".portfile.cmake")
  then mkEntry e.(e_filename) e.(e_regular) (rewrite_port e.(e_content))
  else e.
Definition modify_vcpkg_ports (directory : list entry) : list entry := map modify_entry directory.
End replace.

(** ** The matcher *)

Lemma match_many p re s :
  match_here (Many p :: re) s =
  match s with
  | c :: s' =>
      if p c then match match_here (Many p :: re) s' with Some n => Some (S n) | None => match_here re s end
      else match_here re s
  | [] => match_here re []
  end.
Proof. by destruct s. Qed.

Lemma match_here_sound re s n : match_here re s = Some n -> n <= length s /\ matches re (take n s).
Proof.
  revert s n. induction re as [|[p|p] re IH]; intros s n H.
  - simplify_eq/=. split; [lia|constructor].
  - destruct s as [|c s]; [done|]. simpl in H. destruct (p c) eqn:Hp; [|done].
    destruct (match_here re s) as [k|] eqn:E; simplify_eq/=. destruct (IH _ _ E). split; [lia|by constructor].
  - revert n H. induction s as [|c s IHs]; intros n H; rewrite match_many in H.
    + destruct (IH _ _ H). split; [done|by apply m_stop].
    + destruct (p c) eqn:Hp; [|destruct (IH _ _ H); split; [done|by apply m_stop]].
      destruct (match_here (Many p :: re) s) as [k|] eqn:E.
      * simplify_eq. destruct (IHs _ eq_refl). split; [simpl; lia|by apply m_more].
      * destruct (IH _ _ H). split; [done|by apply m_stop].
Qed.

(** Backtracking misses no match. *)
Lemma match_here_complete re t r : matches re t -> match_here re (t ++ r) <> None.
Proof.
  intros H. revert r. induction H as [|p re c t Hp Hm IH|p re t Hm IH|p re c t Hp Hm IH]; intros r.
  - done.
  - simpl. rewrite Hp. specialize (IH r). by destruct (match_here re (t ++ r)).
  - specialize (IH r). rewrite match_many. destruct (t ++ r) as [|c s]; [done|].
    destruct (p c); [|done]. by destruct (match_here (Many p :: re) s).
  - cbn [app]. rewrite match_many, Hp. specialize (IH r).
    by destruct (match_here (Many p :: re) (t ++ r)).
Qed.

(** No match starts in [pre] when it is followed by [rest]. *)
Definition no_match_in (re : regex) (pre rest : str) : Prop :=
  forall a b t r, pre = a ++ b -> b <> [] -> b ++ rest = t ++ r -> ~ matches re t.
Definition no_match (re : regex) (s : str) : Prop := forall a t r, s = a ++ t ++ r -> ~ matches re t.

Lemma search_spec re s :
  match search re s with
  | Some (pre, m, suf) => s = pre ++ m ++ suf /\ matches re m /\ no_match_in re pre (m ++ suf)
  | None => no_match re s
  end.
Proof.
  induction s as [|c s IH]; cbn [search].
  - destruct (match_here re []) as [n|] eqn:E.
    + destruct (match_here_sound _ _ _ E) as [_ Hm]. rewrite take_drop. split_and!; [done|done|].
      intros a b t r Hab Hb. symmetry in Hab. by apply app_eq_nil in Hab as [_ ->].
    + intros a t r Hs Hm. symmetry in Hs. apply app_eq_nil in Hs as [_ Hs].
      apply (match_here_complete re t r Hm). by rewrite Hs.
  - destruct (match_here re (c :: s)) as [n|] eqn:E.
    + destruct (match_here_sound _ _ _ E) as [_ Hm]. rewrite take_drop. split_and!; [done|done|].
      intros a b t r Hab Hb. symmetry in Hab. by apply app_eq_nil in Hab as [_ ->].
    + destruct (search re s) as [[[pre m] suf]|].
      * destruct IH as (-> & Hm & Hn). split_and!; [done|done|].
        intros a b t r Hab Hb Ht Hmt. destruct a as [|a0 a]; simplify_eq/=.
        -- apply (match_here_complete re t r Hmt). by rewrite <- Ht.
        -- by apply (Hn a b t r).
      * intros a t r Hs Hmt. destruct a as [|a0 a]; simplify_eq/=.
        -- apply (match_here_complete re t r Hmt). by rewrite <- Hs.
        -- by apply (IH a t r).
Qed.

Lemma regex_search_iff s re : regex_search s re = true <-> exists a t r, s = a ++ t ++ r /\ matches re t.
Proof.
  unfold regex_search. pose proof (search_spec re s) as H. destruct (search re s) as [[[pre m] suf]|].
  - destruct H as (-> & Hm & _). split; [|done]. eauto.
  - split; [done|]. intros (a & t & r & -> & Hm). by destruct (H a t r).
Qed.

Lemma matches_app re1 re2 t : matches (re1 ++ re2) t <-> exists t1 t2, t = t1 ++ t2 /\ matches re1 t1 /\ matches re2 t2.
Proof.
  split.
  - remember (re1 ++ re2) as re eqn:E. intros H. revert re1 E.
    induction H as [|p re c s Hp Hm IH|p re s Hm IH|p re c s Hp Hm IH]; intros re1 E.
    + symmetry in E. apply app_eq_nil in E as [-> ->]. exists [], []. repeat constructor.
    + destruct re1 as [|i re1]; simplify_eq/=; [by exists [], (c :: s); repeat constructor|].
      destruct (IH re1 eq_refl) as (t1 & t2 & -> & H1 & H2). exists (c :: t1), t2. repeat constructor; done.
    + destruct re1 as [|i re1]; simplify_eq/=; [by exists [], s; repeat constructor|].
      destruct (IH re1 eq_refl) as (t1 & t2 & -> & H1 & H2). exists t1, t2. by repeat constructor.
    + destruct re1 as [|i re1]; simplify_eq/=; [by exists [], (c :: s); split_and!; [|constructor|apply m_more]|].
      destruct (IH (Many p :: re1) eq_refl) as (t1 & t2 & -> & H1 & H2). exists (c :: t1), t2.
      split_and!; [done|by apply m_more|done].
  - intros (t1 & t2 & -> & H1 & H2). induction H1; simpl; try done; by constructor.
Qed.

Lemma matches_chars s t : matches (map chr s) t <-> t = s.
Proof.
  revert t. induction s as [|c s IH]; intros t; simpl.
  - split; [by inversion 1|intros ->; constructor].
  - split.
    + intros H. inversion H as [|? ? c' t' Hc Ht| |]; subst. apply bool_decide_eq_true in Hc as ->. f_equal. by apply IH.
    + intros ->. constructor; [by apply bool_decide_true|by apply IH].
Qed.

Lemma matches_many p re t :
  matches (Many p :: re) t <-> exists a b, t = a ++ b /\ Forall (fun c => p c = true) a /\ matches re b.
Proof.
  split.
  - remember (Many p :: re) as re' eqn:E. intros H. induction H as [| |q re' s Hm IH|q re' c s Hp Hm IH]; simplify_eq.
    + by exists [], s.
    + destruct (IH eq_refl) as (a & b & -> & Ha & Hb). exists (c :: a), b. by repeat constructor.
  - intros (a & b & -> & Ha & Hb). induction Ha; simpl; by constructor.
Qed.

(** A call, up to its opening parenthesis. *)
Lemma github_func_text t :
  matches github_func_pattern t <->
  exists spaces, Forall (fun c => is_space c = true) spaces /\ t = lit "vcpkg_from_github" ++ spaces ++ lit "(".
Proof.
  unfold github_func_pattern, chars. rewrite matches_app. split.
  - intros (t1 & t2 & -> & H1 & H2). apply matches_chars in H1 as ->.
    apply matches_many in H2 as (a & b & -> & Ha & Hb). exists a. split; [done|].
    by apply (matches_chars [("("%char)]) in Hb as ->.
  - intros (a & Ha & ->). eexists _, _. split; [done|]. split; [by apply matches_chars|].
    apply matches_many. exists a, (lit "("). split_and!; [done|done|]. by apply (matches_chars [("("%char)]).
Qed.

(** ** Replacing *)

(** A text cut into its matches, each with what precedes it, and the rest. *)
Definition joined (f : str -> str) (ps : list (str * str)) (last : str) : str :=
  concat (map (fun p => p.1 ++ f p.2) ps) ++ last.
Fixpoint leftmost (re : regex) (ps : list (str * str)) (last : str) : Prop :=
  match ps with
  | [] => no_match re last
  | (p, m) :: ps' => matches re m /\ no_match_in re p (m ++ joined id ps' last) /\ leftmost re ps' last
  end.

Lemma joined_cons f p m ps last : joined f ((p, m) :: ps) last = p ++ f m ++ joined f ps last.
Proof. unfold joined. cbn. by rewrite <- !app_assoc. Qed.

Section replaced.
Context (group_text : str -> str).

Lemma format_plain f pre m suf : "$"%char ∉ f -> format group_text f pre m suf = f.
Proof.
  induction f as [|c f IH]; intros Hf; [done|]. apply not_elem_of_cons in Hf as [Hc Hf].
  assert (format group_text (c :: f) pre m suf = c :: format group_text f pre m suf) as ->; [|by rewrite IH].
  destruct c as [[] [] [] [] [] [] [] []]; try reflexivity. done.
Qed.

Lemma replace_loop_spec re fmt ins fuel s :
  ~ matches re [] -> (forall pre m suf, format group_text fmt pre m suf = m ++ ins) -> length s < fuel ->
  exists ps last, s = joined id ps last /\ leftmost re ps last /\
    replace_loop group_text fuel re fmt s = joined (fun m => m ++ ins) ps last.
Proof.
  intros Hne Hf. revert s. induction fuel as [|fuel IH]; intros s Hs; [lia|]. cbn [replace_loop].
  pose proof (search_spec re s) as Hsp. destruct (search re s) as [[[pre m] suf]|]; [|by exists [], s].
  destruct Hsp as (-> & Hm & Hn). destruct (IH suf) as (ps & last & Hsuf & Hl & Hr).
  { rewrite !length_app in Hs. destruct m as [|c m]; [done|]. simpl in Hs. lia. }
  exists ((pre, m) :: ps), last. rewrite !joined_cons, Hr, Hf, <- Hsuf. unfold id at 1.
  rewrite <- !app_assoc. split_and!; [done| |done]. cbn [leftmost]. by rewrite <- Hsuf.
Qed.

Lemma find_sub_from_app pat a b i : find_sub_from pat i (a ++ pat ++ b) <> None.
Proof.
  revert i. induction a as [|c a IH]; intros i; simpl.
  - assert (starts_with pat (pat ++ b) = true) as Hs
      by (induction pat as [|c pat IH]; [done|]; simpl; by rewrite bool_decide_true, IH).
    destruct (pat ++ b); cbn; by rewrite Hs.
  - destruct (starts_with _ _); [done|apply IH].
Qed.

(** [append_GITHUB_HOST] marks every call of [vcpkg_from_github] and touches
    nothing else: for a host without [$], the text is cut, from the left, into the
    calls (up to their opening parenthesis) and what lies between them, and a line
    with the host is put right after each call's parenthesis; there is at least one
    call, and doing it again is refused.  A text with a call that names a
    [GITHUB_HOST] already gives ["b"], and a text without a call gives ["c"]. *)
Theorem append_GITHUB_HOST_correct content host :
  "$"%char ∉ host ->
  let r := append_GITHUB_HOST group_text content host in
  let ins := ["010"%char] ++ lit "GITHUB_HOST " ++ host ++ ["010"%char] in
  (no_match github_func_pattern content -> r = lit "c") /\
  (~ no_match github_func_pattern content -> find_sub (lit "GITHUB_HOST") content <> None -> r = lit "b") /\
  (~ no_match github_func_pattern content -> find_sub (lit "GITHUB_HOST") content = None ->
     exists ps last, ps <> [] /\ content = joined id ps last /\ leftmost github_func_pattern ps last /\
       r = joined (fun call => call ++ ins) ps last /\
       forall host', append_GITHUB_HOST group_text r host' = lit "b").
Proof.
  intros Hhost. cbv zeta.
  assert (Hsearch : forall c, regex_search c github_func_pattern = true <-> ~ no_match github_func_pattern c).
  { intros c. unfold regex_search. pose proof (search_spec github_func_pattern c) as H.
    destruct (search _ c) as [[[pre m] suf]|]; [|by split]. destruct H as (-> & Hm & _).
    split; [|done]. intros _ Hno. by apply (Hno pre m suf). }
  assert (Hc : no_match github_func_pattern content -> regex_search content github_func_pattern = false).
  { intros Hno. destruct (regex_search _ _) eqn:E; [|done]. by apply Hsearch in E. }
  split_and!.
  - intros Hno. unfold append_GITHUB_HOST. by rewrite Hc.
  - intros Hm Hg. apply Hsearch in Hm. unfold append_GITHUB_HOST. rewrite Hm. by destruct (find_sub _ _).
  - intros Hm Hg. pose proof Hm as Hs. apply Hsearch in Hs.
    set (ins := ["010"%char] ++ lit "GITHUB_HOST " ++ host ++ ["010"%char]).
    destruct (replace_loop_spec github_func_pattern (lit "$&" ++ ins) ins (S (length content)) content)
      as (ps & last & Htext & Hleft & Hr); [by inversion 1| |lia|].
    { intros pre m suf. change (format group_text (lit "$&" ++ ins) pre m suf) with (m ++ format group_text ins pre m suf).
      f_equal. apply format_plain. subst ins. rewrite !elem_of_app. intros [H|[H|[H|H]]];
        [| |done|]; (apply (bool_decide_unpack _) in H || vm_compute in H);
        repeat (apply elem_of_cons in H as [H|H]; [discriminate H|]); by apply elem_of_nil in H. }
    assert (append_GITHUB_HOST group_text content host = joined (fun m => m ++ ins) ps last) as ->
      by (unfold append_GITHUB_HOST; rewrite Hs, Hg; exact Hr).
    exists ps, last. split_and!; try done.
    + intros ->. apply Hm. rewrite Htext. exact Hleft.
    + intros host'.
      destruct ps as [|[p m] ps]; [exfalso; apply Hm; rewrite Htext; exact Hleft|]. destruct Hleft as [Hmm _].
      rewrite joined_cons. set (rest := joined _ ps last). unfold append_GITHUB_HOST.
      assert (regex_search (p ++ (m ++ ins) ++ rest) github_func_pattern = true) as ->.
      { apply regex_search_iff. exists p, m, (ins ++ rest). by rewrite <- app_assoc. }
      subst ins. unfold find_sub.
      pose proof (find_sub_from_app (lit "GITHUB_HOST") (p ++ m ++ ["010"%char])
        (lit " " ++ host ++ ["010"%char] ++ rest) 0) as Hf.
      rewrite <- !app_assoc in Hf |- *. cbn [app lit list_ascii_of_string] in Hf |- *.
      rewrite <- (app_assoc host). cbn [app]. by destruct (find_sub_from _ _ _).
Qed.

(** No file is ever modified: the extension of a file name has one period, at its
    front, so it is never [".portfile.cmake"]. *)
Lemma extension_one_period name a b : extension name = "."%char :: a ++ "."%char :: b -> False.
Proof.
  unfold extension. case_bool_decide; [done|].
  destruct (rfind_char "." name) as [[|i]|] eqn:E; try done. intros Hd.
  assert (forall c s i, rfind_char c s = Some i -> c ∉ drop (S i) s) as Hlast.
  { clear. intros c s. induction s as [|d s IH]; intros i Hi; [done|]. simpl in Hi.
    destruct (rfind_char c s) as [j|] eqn:Ej; [simplify_eq; exact (IH j eq_refl)|].
    case_bool_decide; simplify_eq. simpl. clear IH. induction s as [|e s IH]; [set_solver|].
    simpl in Ej. destruct (rfind_char c s); [done|]. case_bool_decide; [done|].
    apply not_elem_of_cons. split; [congruence|]. by apply IH. }
  apply Hlast in E. replace (S (S i)) with (S i + 1) in E by lia.
  rewrite <- drop_drop, Hd in E. simpl in E. set_solver.
Qed.

Lemma modify_vcpkg_ports_modifies_nothing directory : modify_vcpkg_ports group_text directory = directory.
Proof.
  unfold modify_vcpkg_ports. rewrite <- map_id. apply map_ext. intros e. unfold modify_entry.
  destruct (e_regular e); [|done]. case_bool_decide as He; [|done].
  exfalso. exact (extension_one_period (e_filename e) (lit "portfile") (lit "cmake") He).
Qed.

(** And the replacement it would make drops the call it is meant to extend. *)
Example rewrite_port_loses_the_call :
  rewrite_port group_text (lit "a vcpkg_from_github(REPO x/y) b") = lit "a  GITHUB_HOST <https://github.com> b".
Proof. vm_compute. reflexivity. Qed.
End replaced.

Lemma append_GITHUB_HOST_correct_witness :
  append_GITHUB_HOST (fun _ => []) (lit "vcpkg_from_github (REPO x)") (lit "h") =
    lit "vcpkg_from_github (" ++ ["010"%char] ++ lit "GITHUB_HOST h" ++ ["010"%char] ++ lit "REPO x)" /\
  append_GITHUB_HOST (fun _ => []) (lit "project(x)") (lit "h") = lit "c".
Proof.
  split; [vm_compute; reflexivity|].
  apply (append_GITHUB_HOST_correct (fun _ => []) (lit "project(x)") (lit "h")).
  - vm_compute. intros H. apply elem_of_cons in H as [H|H]; [discriminate H|]. by apply elem_of_nil in H.
  - intros a t r Ht Hm. pose proof (proj2 (regex_search_iff (lit "project(x)") github_func_pattern)
      (ex_intro _ a (ex_intro _ t (ex_intro _ r (conj Ht Hm))))) as H. vm_compute in H. discriminate H.
Defined.
